(* ===== verification/_CoqProject ===== *)
-Q . S2P
Prelude.v
WriteBatch.v
Iterator.v
Memtable.v
Disk.v
Wal.v
WalStatus.v
Manifest.v
DataBlock.v
DataBlocks.v
IndexBlock.v
SortedTable.v
TableIterator.v
Iterate.v
DbIterator.v
Level.v
Compaction.v
WalCalls.v
Logic.v
Sources.v
LogicInv.v
LogicWrite.v
LogicFlush.v
LogicCompact.v
LogicLevels.v
LogicCompactLevel.v
LogicOpen.v
LogicScan.v
LogicLog.v
LogicReopen.v
Database.v
Tasks.v
Api.v
SyncIterate.v
SyncApi.v
LevelLogger.v
ValueBatch.v
ValueIndex.v
ValueIndexInv.v
ValueLog.v
ValueLogSpec.v
ValueRecovery.v
