(* ===== verification/Prelude.v ===== *)
(** * lsm-rs: a verified model of a log-structured merge tree

    The repository implements a key-value store: writes go to a write-ahead log
    and to a sorted memtable; a full memtable is flushed to an immutable sorted
    table on level 0; background compactions merge tables into deeper levels; a
    manifest records the tables and offsets, so that the store can be reopened.

    ** The files and what they model

    Every file models one part of the sources; operations have the names of the
    Rust functions and follow them statement by statement.
    - [Prelude] (this file): results, machine integers, byte strings and their
      order, padding (src/src/lib.rs), shared lemmas and tactics.
    - [WriteBatch]: parameters, write operations and batches (src/src/params.rs,
      write_batch.rs).
    - [Iterator]: the interface of iterators ([InternalIterator]) as a type class
      with what an implementation promises ([enumerates]).
    - [Memtable]: src/src/memtable.rs.
    - [Disk]: the files of a database (src/src/disk.rs).
    - [Wal], [WalStatus], [WalCalls]: the log (src/src/wal): encoding, page files
      and recovery; the shared positions with the writer task as a step relation;
      the calls as the other components see them.
    - [Manifest]: src/src/manifest.rs on the bytes of its mapped files.
    - [DataBlock], [DataBlocks]: block format, builder and lookup, and the block
      store with its caches (src/src/data_blocks).
    - [IndexBlock]: src/src/index_blocks.rs.  [SortedTable], [TableIterator]:
      tables, their builder and their iterator (src/src/sorted_table).
    - [Iterate], [DbIterator]: the merge over iterators and the iterator of the
      database (src/src/iterate.rs).
    - [Level]: src/src/level.rs.
    - [Compaction], [Logic]: the operations of [DbLogic] (src/src/logic.rs): open,
      get, scans, write, memtable and level compaction.
    - [Sources], [LogicInv], [LogicWrite], [LogicFlush], [LogicCompact],
      [LogicLevels], [LogicCompactLevel], [LogicOpen], [LogicScan]: the invariant
      [db_ok] of the database and that each operation keeps it.
    - [LogicLog], [LogicReopen]: the history of writes in the log, the memtables
      and the tables, and opening an existing database.
    - [Database]: the operations as steps, reachable states, and the theorems on
      the whole database.
    - [Tasks]: src/src/tasks.rs, the loop of a background task action by action.
    - [Api]: src/src/database.rs, and the interleavings of its calls with the tasks.
    - [SyncIterate], [SyncApi]: the blocking interface (src/sync/src).
    - [LevelLogger]: the optional statistics (src/src/level_logger.rs).
    - [ValueBatch], [ValueIndex], [ValueLog]: the value log of the non-default
      [wisckey] feature (src/src/values): batches of values, the index of the values
      in use, and the log itself with its caches; [ValueRecovery]: the recovery of
      deletions (src/src/wal/reader.rs).  [ValueIndexInv],
      [ValueLogSpec]: their invariants [index_ok] and [vlog_ok] and the theorems.

    ** Conventions

    Code that can fail returns an [outcome]: a value, an error of [crate::Error],
    a panic with its message, or [OutOfFuel].  Stateful code is in the state
    monad [st].  [usize] is [nat], integers of a fixed width are [N] or [Z] with
    their bounds checked where the code checks or overflows (a debug build panics
    on overflow, and so does the model).  Keys and values are lists of bytes.
    The state that components share ([Env]: files, block caches, manifest) is
    passed along; the log adds its shared status and its writer.

    Loops that are not structural take fuel.  The theorems on them say which fuel
    is enough: the number of entries and bytes of a log for recovery, the number
    of items of the sources for merges and scans, five more than the number of
    queued buffers for the writer task.

    The crates [bloomfilter], [snap], [lru], [bitvec] and [csv] are parameters, type
    classes ([Bloom], [Compression], [LruCache], [BitVec], [CsvWriter]) whose laws state their
    documented behaviour: no false negatives, decompression inverts compression, a
    cache returns what was put or nothing, a bit vector is a list of bits that its
    raw bytes cover.  Witnesses instantiate them.

    ** The theorems

    - Whole database ([Database]): a reachable state stands for the finite map of
      its writes; get and scans read it, writes update it and append to the log,
      compactions keep it, and every operation returns as long as counters and
      table sizes fit ([has_room], [has_numbers]).  A writer that waits is served
      by the next memtable compaction.  A database stopped in any state and opened
      again stands for the same map, provided that its log can be replayed
      ([recoverable]: keys and values not empty, the log not ending on a page
      boundary).  After that it goes on as before only in the build with positional
      writes to the log ([AsyncIo]): there restarts are steps of [db_step].  The
      default build ([StdFs]) overwrites the log with its next write; an example
      shows how a put is lost.
    - Log: recovery returns the unflushed writes; under every interleaving of
      clients and writer, acknowledged entries are in the files, the writer never
      fails, and it serves every store, offset and sync request until it is asked
      to stop.  Where the code does not do this, theorems
      show the failure: recovery diverges at a page end, panics on empty values,
      pads torn values; reopening overwrites the last page; sync can panic.
    - Tables and blocks: building and loading are inverse, lookups find exactly
      the entries that were added, iterators enumerate them, caches are
      transparent, merging keeps the newest entry of every key.
    - Memtable, manifest and levels: refinement of maps and of sets of table
      identifiers, monotone offsets, choice of the tables of a compaction.

    - Background tasks: no wake-up is lost, up to what the clock promises, and a
      stop request ends every task unless [terminate] resets its flag.  Steps carry
      the time ([tick]): a [Monotone] clock is what [Instant::now] documents, a
      [Strict] one never repeats a reading; an example shows that with a repeated
      reading a wake-up is lost.
    - Interfaces: whatever the tasks do, and with either clock, a client reads what
      was written; with a strict clock a waiting writer is served; the blocking
      iterator is equivalent to the asynchronous one.
    - Value log: the index refines a table of flags, values are read back under
      their identifiers, removing a batch removes its file, and recovery repeats
      deletions that were logged in the index opened from its files.  Batches have
      at most 4094 values, larger ones panic.  Deleting values does not work as written;
      theorems show which deletions panic, that a second removal of a batch
      panics, and that an index that dropped a page cannot be opened again.

    ** Bounds of the model

    - The operations of [DbLogic] run one at a time, except that a waiting writer
      is a state of its own; two concurrent compactions are not modelled (the
      branches that give up on contention are).  Within a call of the log the
      writer task runs until it has nothing to do; all other interleavings of the
      log are those of [WalStatus].
    - Errors of the operating system are modelled where a file is missing; other
      I/O errors and power failures in the middle of a file write are not.
    - Not modelled: the places of the [wisckey] feature in tables, iterators and
      [DbLogic] that keep value identifiers in place of values (the database is
      modelled in its default build, without the optional level statistics). *)

From stdpp Require Import base option list gmap strings numbers sorting.
From Stdlib Require Import Strings.Byte NArith Lia ZifyNat ZifyN Orders OrdersTac.

Local Open Scope nat_scope.

(** [lia] reasons about division and remainders by constants. *)
Ltac Zify.zify_post_hook ::= Z.to_euclidean_division_equations.

#[global] Arguments Nat.div : simpl never.
#[global] Arguments Nat.modulo : simpl never.
#[global] Arguments N.div : simpl never.
#[global] Arguments N.modulo : simpl never.

(** ** Results *)

(** [crate::Error] of src/src/lib.rs. *)
Inductive Error :=
| Io (context message : string)
| InvalidParams (msg : string)
| Serialization (msg : string).

(** The result of running a piece of the program: a value, a [Result::Err], a
    panic (failed assertion, index out of range, [unwrap] of [None], arithmetic
    overflow), or, for the loops whose recursion is bounded by fuel, the fuel
    running out. *)
Inductive outcome (A : Type) :=
| Ok (a : A)
| Err (e : Error)
| Panic (msg : string)
| OutOfFuel.
Arguments Ok {A} a.
Arguments Err {A} e.
Arguments Panic {A} msg.
Arguments OutOfFuel {A}.

#[global] Instance outcome_ret : MRet outcome := @Ok.

#[global] Instance outcome_bind : MBind outcome := λ A B f m,
  match m with
  | Ok a => f a
  | Err e => Err e
  | Panic s => Panic s
  | OutOfFuel => OutOfFuel
  end.

(** [assert!(b)] *)
Definition assert_that (b : bool) (msg : string) : outcome unit :=
  if b then Ok () else Panic msg.

(** [Option::expect] / [Option::unwrap] *)
Definition expect {A} (o : option A) (msg : string) : outcome A :=
  match o with Some a => Ok a | None => Panic msg end.

(** Operations on shared state: a state monad over outcomes, for the code that
    threads the files and the caches through many calls. *)
Definition st (St A : Type) : Type := St → outcome (A * St).

#[global] Instance st_ret {St} : MRet (st St) := λ A a s, Ok (a, s).

#[global] Instance st_bind {St} : MBind (st St) := λ A B f m s,
  match m s with
  | Ok (a, s') => f a s'
  | Err e => Err e
  | Panic msg => Panic msg
  | OutOfFuel => OutOfFuel
  end.

(** A computation that does not touch the state. *)
Definition lift {St A} (m : outcome A) : st St A := λ s, a ← m; Ok (a, s).

(** ** Machine integers

    Lengths and in-memory offsets ([usize]) are [nat]; fixed-width fields and
    identifiers ([u16], [u32], [u64]) are [N], kept below their bound.  [as]
    casts truncate, additions that the source leaves unguarded are checked and
    panic on overflow. *)
Definition u16_bound : N := 65536.
Definition u32_bound : N := 4294967296.
Definition u64_bound : N := 18446744073709551616.

Definition as_u16 (n : nat) : N := (N.of_nat n mod u16_bound)%N.
Definition as_u32 (n : nat) : N := (N.of_nat n mod u32_bound)%N.
Definition as_u64 (n : nat) : N := (N.of_nat n mod u64_bound)%N.

Definition u64_add (a b : N) : outcome N :=
  if (a + b <? u64_bound)%N then Ok (a + b)%N
  else Panic "attempt to add with overflow".

Definition u32_add (a b : N) : outcome N :=
  if (a + b <? u32_bound)%N then Ok (a + b)%N
  else Panic "attempt to add with overflow".

Definition u32_sub (a b : N) : outcome N :=
  if (b <=? a)%N then Ok (a - b)%N
  else Panic "attempt to subtract with overflow".

(** [a -= b] on [usize]. *)
Definition usize_sub (a b : nat) : outcome nat :=
  if b <=? a then Ok (a - b) else Panic "attempt to subtract with overflow".

(** ** Bytes and little-endian integers *)

#[global] Instance byte_eq_dec : EqDecision byte := Byte.byte_eq_dec.

Definition byte_of_N (n : N) : byte := default x00 (Byte.of_N (n mod 256)).

(** [x.as_bytes()] of a [k]-byte unsigned integer on a little-endian target. *)
Fixpoint le_bytes (k : nat) (x : N) : list byte :=
  match k with
  | O => []
  | S k' => byte_of_N x :: le_bytes k' (x / 256)
  end.

(** The value [read_from_bytes] finds in a byte slice. *)
Fixpoint le_val (l : list byte) : N :=
  match l with
  | [] => 0
  | b :: l' => Byte.to_N b + 256 * le_val l'
  end%N.

(** [&data[a..b]]: panics unless [a <= b <= data.len()]. *)
Definition slice (l : list byte) (a b : nat) : outcome (list byte) :=
  if (a <=? b) && (b <=? length l) then Ok (take (b - a) (drop a l))
  else Panic "slice index out of range".

(** [&data[a..]] *)
Definition slice_from (l : list byte) (a : nat) : outcome (list byte) :=
  slice l a (length l).

(** [T::ref_from_prefix(data).unwrap()] for a [k]-byte unsigned integer. *)
Definition read_prefix (k : nat) (l : list byte) : outcome N :=
  if k <=? length l then Ok (le_val (take k l)) else Panic "SizeError".

(** [data[a..a + src.len()].copy_from_slice(src)] *)
Definition overwrite (l : list byte) (a : nat) (src : list byte) : outcome (list byte) :=
  if a + length src <=? length l
  then Ok (take a l ++ src ++ drop (a + length src) l)
  else Panic "slice index out of range".

(** ** Padding (src/src/lib.rs) *)

(** [WORD_SIZE] *)
Definition WORD_SIZE : nat := 8.

(** [compute_padding] *)
Definition compute_padding (offset : nat) : nat :=
  let remainder := offset mod WORD_SIZE in
  if remainder =? 0 then 0 else WORD_SIZE - remainder.

(** [pad_offset] *)
Definition pad_offset (offset : nat) : nat := offset + compute_padding offset.

(** [add_padding] *)
Definition add_padding (data : list byte) : list byte :=
  let padding := compute_padding (length data) in
  if 0 <? padding then data ++ replicate padding x00 else data.

(** ** Keys *)

(** [Key] and [Value] are [Vec<u8>]. *)
Abbreviation Key := (list byte).
Abbreviation Value := (list byte).

(** [<[u8] as Ord>::cmp]: lexicographic on bytes. *)
Fixpoint key_cmp (a b : Key) : comparison :=
  match a, b with
  | [], [] => Eq
  | [], _ :: _ => Lt
  | _ :: _, [] => Gt
  | x :: a', y :: b' =>
      match (Byte.to_N x ?= Byte.to_N y)%N with
      | Eq => key_cmp a' b'
      | c => c
      end
  end.

Definition key_ltb (a b : Key) : bool :=
  match key_cmp a b with Lt => true | _ => false end.

Definition key_leb (a b : Key) : bool :=
  match key_cmp a b with Gt => false | _ => true end.

Definition klt (a b : Key) : Prop := key_cmp a b = Lt.
Definition kle (a b : Key) : Prop := key_cmp a b <> Gt.

Declare Scope lsm_scope.
Delimit Scope lsm_scope with lsm.
Notation "a <k b" := (klt a b) (at level 70) : lsm_scope.
Notation "a <=k b" := (kle a b) (at level 70) : lsm_scope.
Local Open Scope lsm_scope.

(** [std::cmp::min] / [max] on keys: the first argument on ties for [min], the
    second for [max]. *)
Definition key_min (a b : Key) : Key := if key_leb a b then a else b.
Definition key_max (a b : Key) : Key := if key_ltb b a then a else b.

(** ** [slice::binary_search_by] *)

(** [Result<usize, usize>] of the search: the position of a match, or the
    position at which a missing element is to be inserted. *)
Inductive search_pos := Found (pos : nat) | Missing (pos : nat).

Fixpoint bsearch_loop {A} (fuel : nat) (f : A → comparison) (l : list A)
    (base size : nat) : nat :=
  match fuel with
  | O => base
  | S fuel' =>
      if size <=? 1 then base else
      let half := size / 2 in
      let mid := base + half in
      let base' := match f <$> l !! mid with
                   | Some Gt => base
                   | _ => mid
                   end in
      bsearch_loop fuel' f l base' (size - half)
  end.

Definition binary_search_by {A} (f : A → comparison) (l : list A) : search_pos :=
  match l with
  | [] => Missing 0
  | _ =>
      let base := bsearch_loop (length l) f l 0 (length l) in
      match f <$> l !! base with
      | Some Eq => Found base
      | Some Lt => Missing (base + 1)
      | _ => Missing base
      end
  end.

(** What the search relies on: [f] goes from [Lt] through [Eq] to [Gt]. *)
Definition search_sorted {A} (f : A → comparison) (l : list A) : Prop :=
  ∀ i j x y, i <= j → l !! i = Some x → l !! j = Some y →
    (f y = Lt → f x = Lt) ∧ (f x = Gt → f y = Gt).

(** [Vec::insert] and [Vec::remove] (in range). *)
Definition vec_insert {A} (i : nat) (x : A) (l : list A) : list A :=
  take i l ++ x :: drop i l.

Definition vec_remove {A} (i : nat) (l : list A) : list A :=
  take i l ++ drop (S i) l.

(** ** Hint databases and tactics *)

Create HintDb lsm.
Create Rewrite HintDb lsm_len.

(** Takes apart a [bind] that returned: [H : m ≫= f = Ok b]. *)
Ltac obind H :=
  match type of H with
  | mbind ?f ?m = Ok ?b =>
      let E := fresh "E" in
      destruct m eqn:E; simpl in H; try discriminate H
  end.

(** Reduces the [bind]s at the head, and nothing else. *)
Ltac run_bind := cbn [mbind outcome_bind].

(** Case analysis on the conditionals of a goal or hypothesis, turning the
    boolean tests into propositions. *)
Ltac bool_to_prop :=
  repeat match goal with
  | H : (_ && _) = true |- _ => apply andb_true_iff in H as [? ?]
  | H : (_ && _) = false |- _ => apply andb_false_iff in H
  | H : (_ =? _)%nat = true |- _ => apply Nat.eqb_eq in H
  | H : (_ =? _)%nat = false |- _ => apply Nat.eqb_neq in H
  | H : (_ <=? _)%nat = true |- _ => apply Nat.leb_le in H
  | H : (_ <=? _)%nat = false |- _ => apply Nat.leb_gt in H
  | H : (_ <? _)%nat = true |- _ => apply Nat.ltb_lt in H
  | H : (_ <? _)%nat = false |- _ => apply Nat.ltb_ge in H
  | H : (_ =? _)%N = true |- _ => apply N.eqb_eq in H
  | H : (_ =? _)%N = false |- _ => apply N.eqb_neq in H
  | H : (_ <=? _)%N = true |- _ => apply N.leb_le in H
  | H : (_ <=? _)%N = false |- _ => apply N.leb_gt in H
  | H : (_ <? _)%N = true |- _ => apply N.ltb_lt in H
  | H : (_ <? _)%N = false |- _ => apply N.ltb_ge in H
  end.

(** ** Outcomes *)

Lemma bind_Ok_inv {A B} (m : outcome A) (f : A → outcome B) b :
  m ≫= f = Ok b ↔ ∃ a, m = Ok a ∧ f a = Ok b.
Proof.
  split.
  - destruct m; simpl; intros H; try discriminate H. eauto.
  - intros (a & -> & H). exact H.
Qed.

Lemma bind_assoc {A B C} (m : outcome A) (f : A → outcome B) (g : B → outcome C) :
  (m ≫= f) ≫= g = m ≫= (λ a, f a ≫= g).
Proof. by destruct m. Qed.

Lemma assert_Ok {A} b msg (f : unit → outcome A) :
  b = true → assert_that b msg ≫= f = f ().
Proof. by intros ->. Qed.

Lemma expect_Some {A} (a : A) msg : expect (Some a) msg = Ok a.
Proof. done. Qed.

Lemma st_bind_Ok {St A B} (m : st St A) (f : A → st St B) s a s' :
  m s = Ok (a, s') → (m ≫= f) s = f a s'.
Proof. intros H. unfold mbind, st_bind. by rewrite H. Qed.

Lemma st_lift_Ok {St A B} (m : outcome A) (f : A → st St B) s a :
  m = Ok a → (lift m ≫= f) s = f a s.
Proof. intros ->. done. Qed.

(** Runs the first computation of a sequence, whose result is known. *)
Ltac run_st H := rewrite (st_bind_Ok _ _ _ _ _ H).
Ltac run_lift H := rewrite (st_lift_Ok _ _ _ _ H).

(** ** Bytes *)

Lemma to_N_lt b : (Byte.to_N b < 256)%N.
Proof. pose proof (Byte.to_N_bounded b). lia. Qed.

Lemma to_N_byte_of_N n : Byte.to_N (byte_of_N n) = (n mod 256)%N.
Proof.
  unfold byte_of_N.
  destruct (Byte.of_N (n mod 256)) as [b|] eqn:E; simpl.
  - by apply Byte.to_of_N in E.
  - apply Byte.of_N_None_iff in E. pose proof (N.mod_lt n 256). lia.
Qed.

Lemma byte_of_to_N b : byte_of_N (Byte.to_N b) = b.
Proof.
  unfold byte_of_N. rewrite N.mod_small by apply to_N_lt.
  by rewrite Byte.of_to_N.
Qed.

Lemma to_N_inj a b : Byte.to_N a = Byte.to_N b → a = b.
Proof. intros H. by rewrite <-(byte_of_to_N a), H, byte_of_to_N. Qed.

#[global] Instance byte_countable : Countable byte.
Proof.
  refine (inj_countable' Byte.to_N byte_of_N _). exact byte_of_to_N.
Defined.

Lemma length_le_bytes k x : length (le_bytes k x) = k.
Proof. revert x; induction k; intros; simpl; auto. Qed.

Lemma le_val_le_bytes k x : le_val (le_bytes k x) = (x mod 2 ^ (8 * N.of_nat k))%N.
Proof.
  revert x; induction k as [|k IH]; intros x; cbn [le_val le_bytes].
  { by rewrite N.mod_1_r. }
  rewrite to_N_byte_of_N, IH.
  replace (8 * N.of_nat (S k))%N with (8 + 8 * N.of_nat k)%N by lia.
  rewrite N.pow_add_r. change (2 ^ 8)%N with 256%N.
  rewrite N.Div0.mod_mul_r. lia.
Qed.

Lemma le_val_lt l : (le_val l < 2 ^ (8 * N.of_nat (length l)))%N.
Proof.
  induction l as [|b l IH]; cbn [le_val length]; [done|].
  replace (8 * N.of_nat (S (length l)))%N with (8 + 8 * N.of_nat (length l))%N by lia.
  rewrite N.pow_add_r. change (2 ^ 8)%N with 256%N.
  pose proof (to_N_lt b). nia.
Qed.

Lemma le_bytes_le_val l : le_bytes (length l) (le_val l) = l.
Proof.
  induction l as [|b l IH]; cbn [le_val le_bytes length]; [done|].
  pose proof (to_N_lt b).
  replace ((Byte.to_N b + 256 * le_val l) / 256)%N with (le_val l).
  2:{ apply (N.div_unique _ _ _ (Byte.to_N b)); lia. }
  rewrite IH. f_equal. apply to_N_inj. rewrite to_N_byte_of_N.
  symmetry. apply (N.mod_unique _ _ (le_val l)); lia.
Qed.

Lemma le_roundtrip k x : (x < 2 ^ (8 * N.of_nat k))%N → le_val (le_bytes k x) = x.
Proof. intros H. by rewrite le_val_le_bytes, N.mod_small. Qed.

Lemma le_roundtrip_u16 x : (x < u16_bound)%N → le_val (le_bytes 2 x) = x.
Proof. intros H. by apply le_roundtrip. Qed.

Lemma as_u32_small n : (N.of_nat n < u32_bound)%N → as_u32 n = N.of_nat n.
Proof. apply N.mod_small. Qed.

Lemma le_roundtrip_u32 x : (x < u32_bound)%N → le_val (le_bytes 4 x) = x.
Proof. intros H. by apply le_roundtrip. Qed.

Lemma le_roundtrip_u64 x : (x < u64_bound)%N → le_val (le_bytes 8 x) = x.
Proof. intros H. by apply le_roundtrip. Qed.

#[export] Hint Rewrite @length_app @length_take @length_drop @length_replicate
  length_le_bytes @length_insert @length_fmap : lsm_len.

(** Linear arithmetic about lengths of concatenations, slices and encoded
    integers. *)
Ltac len := autorewrite with lsm_len in *; simpl length in *; lia.

(** Selects the branch of an [if] whose test [lia] decides. *)
Ltac bool_true :=
  repeat (apply andb_true_intro; split);
  first [ apply Nat.leb_le | apply Nat.ltb_lt | apply Nat.eqb_eq
        | apply N.leb_le | apply N.ltb_lt | apply N.eqb_eq ]; first [lia | len].

Ltac bool_false :=
  first [ apply Nat.leb_gt | apply Nat.ltb_ge | apply Nat.eqb_neq
        | apply N.leb_gt | apply N.ltb_ge | apply N.eqb_neq ]; first [lia | len].

Ltac if_true :=
  match goal with
  | |- context [if ?b then _ else _] => replace b with true by (symmetry; bool_true)
  end.

Ltac if_false :=
  match goal with
  | |- context [if ?b then _ else _] => replace b with false by (symmetry; bool_false)
  end.

(** Passes an assertion that [lia] proves. *)
Ltac pass_assert := rewrite assert_Ok by bool_true.

(** ** Slices *)

Lemma slice_Ok l a b : a <= b → b <= length l → slice l a b = Ok (take (b - a) (drop a l)).
Proof. intros. unfold slice. by if_true. Qed.

Lemma slice_length l a b s : slice l a b = Ok s → length s = b - a ∧ a <= b <= length l.
Proof.
  unfold slice. intros H. destruct (_ && _) eqn:E; simplify_eq. bool_to_prop. len.
Qed.

(** A slice that covers exactly the middle of a concatenation. *)
Lemma slice_app_mid (l1 l2 l3 : list byte) a b :
  a = length l1 → b = length l1 + length l2 → slice (l1 ++ l2 ++ l3) a b = Ok l2.
Proof.
  intros -> ->. rewrite slice_Ok by len.
  rewrite drop_app_length. rewrite take_app_length' by lia. done.
Qed.

Lemma slice_from_app (l1 l2 : list byte) a :
  a = length l1 → slice_from (l1 ++ l2) a = Ok l2.
Proof.
  intros ->. unfold slice_from. rewrite slice_Ok by len.
  rewrite drop_app_length, take_ge; [done|len].
Qed.

Lemma read_prefix_app k l1 l2 :
  length l1 = k → read_prefix k (l1 ++ l2) = Ok (le_val l1).
Proof.
  intros <-. unfold read_prefix. if_true. by rewrite take_app_length.
Qed.

Lemma overwrite_app_mid (l1 l2 l3 src : list byte) a :
  a = length l1 → length src = length l2 →
  overwrite (l1 ++ l2 ++ l3) a src = Ok (l1 ++ src ++ l3).
Proof.
  intros -> H. unfold overwrite. if_true.
  rewrite take_app_length, (app_assoc l1 l2 l3), drop_app_length' by len. done.
Qed.

(** ** Padding *)

Lemma compute_padding_lt n : compute_padding n < WORD_SIZE.
Proof.
  unfold compute_padding, WORD_SIZE. pose proof (Nat.mod_upper_bound n 8).
  case_match; bool_to_prop; lia.
Qed.

Lemma pad_offset_aligned n : pad_offset n mod WORD_SIZE = 0.
Proof.
  unfold pad_offset, compute_padding, WORD_SIZE. case_match; bool_to_prop.
  - by rewrite Nat.add_0_r.
  - pose proof (Nat.div_mod_eq n 8). pose proof (Nat.mod_upper_bound n 8).
    replace (n + (8 - n mod 8)) with ((n / 8 + 1) * 8) by lia.
    by apply Nat.Div0.mod_mul.
Qed.

Lemma pad_offset_idem n : pad_offset (pad_offset n) = pad_offset n.
Proof.
  pose proof (pad_offset_aligned n) as H.
  unfold pad_offset at 1, compute_padding at 1. rewrite H. simpl. lia.
Qed.

Lemma length_add_padding l : length (add_padding l) = pad_offset (length l).
Proof. unfold add_padding, pad_offset. case_match; bool_to_prop; len. Qed.

Lemma add_padding_prefix l : ∃ n, add_padding l = l ++ replicate n x00.
Proof.
  unfold add_padding. case_match; [by eexists|]. exists 0. by rewrite app_nil_r.
Qed.

(** ** Key order *)

Lemma key_cmp_refl a : key_cmp a a = Eq.
Proof. induction a as [|x a IH]; simpl; [done|]. by rewrite N.compare_refl. Qed.

Lemma key_cmp_eq a b : key_cmp a b = Eq ↔ a = b.
Proof.
  split; [|intros ->; apply key_cmp_refl].
  revert b; induction a as [|x a IH]; intros [|y b]; simpl; try done.
  destruct (N.compare_spec (Byte.to_N x) (Byte.to_N y)) as [E| |]; try done.
  intros H. f_equal; [by apply to_N_inj|by apply IH].
Qed.

Lemma key_cmp_antisym a b : key_cmp b a = CompOpp (key_cmp a b).
Proof.
  revert b; induction a as [|x a IH]; intros [|y b]; simpl; try done.
  rewrite (N.compare_antisym (Byte.to_N x)).
  destruct (Byte.to_N x ?= Byte.to_N y)%N; simpl; auto.
Qed.

Lemma klt_trans a b c : a <k b → b <k c → a <k c.
Proof.
  unfold klt. revert b c; induction a as [|x a IH]; intros [|y b] [|z c]; simpl; try done.
  destruct (N.compare_spec (Byte.to_N x) (Byte.to_N y)),
    (N.compare_spec (Byte.to_N y) (Byte.to_N z)),
    (N.compare_spec (Byte.to_N x) (Byte.to_N z)); try done; try lia.
  apply IH.
Qed.

Lemma klt_irrefl a : ¬ a <k a.
Proof. unfold klt. by rewrite key_cmp_refl. Qed.

#[global] Instance klt_strict_order : StrictOrder klt.
Proof. split; [intros a; apply klt_irrefl|intros a b c; apply klt_trans]. Qed.

#[global] Instance klt_dec a b : Decision (a <k b).
Proof. unfold klt. apply _. Defined.

#[global] Instance kle_dec a b : Decision (a <=k b).
Proof. unfold kle. apply _. Defined.

Lemma klt_trichotomy a b : a <k b ∨ a = b ∨ b <k a.
Proof.
  unfold klt. rewrite (key_cmp_antisym a b).
  destruct (key_cmp a b) eqn:E; simpl; [|by left|by right; right].
  right; left. by apply key_cmp_eq.
Qed.

Lemma kle_lteq a b : a <=k b ↔ a <k b ∨ a = b.
Proof.
  unfold kle, klt. rewrite <-key_cmp_eq.
  destruct (key_cmp a b); intuition congruence.
Qed.

Lemma klt_nle a b : a <k b ↔ ¬ b <=k a.
Proof.
  unfold kle, klt. rewrite (key_cmp_antisym a b).
  destruct (key_cmp a b); simpl; naive_solver.
Qed.

Lemma kle_trans a b c : a <=k b → b <=k c → a <=k c.
Proof.
  rewrite !kle_lteq. intros [H|<-] [H'|<-]; auto. left. by etrans.
Qed.

Lemma kle_refl a : a <=k a.
Proof. apply kle_lteq. by right. Qed.

#[global] Instance kle_preorder : PreOrder kle.
Proof. split; [intros a; apply kle_refl|intros a b c; apply kle_trans]. Qed.

Lemma kle_lt_trans a b c : a <=k b → b <k c → a <k c.
Proof. rewrite kle_lteq. intros [H| ->]; [by etrans|done]. Qed.

Lemma klt_le_trans a b c : a <k b → b <=k c → a <k c.
Proof. rewrite kle_lteq. intros H [H'|<-]; [by etrans|done]. Qed.

Lemma kle_antisym a b : a <=k b → b <=k a → a = b.
Proof.
  rewrite !kle_lteq. intros [H|H] [H'|H']; auto.
  destruct (klt_irrefl a). by etrans.
Qed.

Lemma key_ltb_lt a b : key_ltb a b = true ↔ a <k b.
Proof. unfold key_ltb, klt. by destruct (key_cmp a b). Qed.

Lemma key_leb_le a b : key_leb a b = true ↔ a <=k b.
Proof. unfold key_leb, kle. by destruct (key_cmp a b). Qed.

Lemma key_ltb_ge a b : key_ltb a b = false ↔ b <=k a.
Proof.
  unfold key_ltb, kle. rewrite (key_cmp_antisym a b). by destruct (key_cmp a b).
Qed.

Lemma key_leb_gt a b : key_leb a b = false ↔ b <k a.
Proof.
  unfold key_leb, klt. rewrite (key_cmp_antisym a b). by destruct (key_cmp a b).
Qed.

Lemma key_cmp_gt a b : key_cmp a b = Gt ↔ b <k a.
Proof. unfold klt. rewrite (key_cmp_antisym a b). by destruct (key_cmp a b). Qed.

#[export] Hint Resolve kle_refl : lsm.

(** ** Sorted lists of keyed entries *)

(** Strictly increasing keys. *)
Definition keys_sorted {V} (l : list (Key * V)) : Prop := StronglySorted klt (l.*1).

Lemma keys_sorted_NoDup {V} (l : list (Key * V)) : keys_sorted l → NoDup (l.*1).
Proof.
  unfold keys_sorted. induction (l.*1) as [|k ks IH]; intros H; [constructor|].
  apply StronglySorted_cons in H as [Hk Hs]. constructor; [|auto].
  intros Hin. rewrite Forall_forall in Hk. by destruct (klt_irrefl k); apply Hk.
Qed.

Lemma keys_sorted_lookup_lt {V} (l : list (Key * V)) i j x y :
  keys_sorted l → i < j → l !! i = Some x → l !! j = Some y → x.1 <k y.1.
Proof.
  unfold keys_sorted. revert i j; induction l as [|e l IH]; intros i j; [done|].
  rewrite fmap_cons, StronglySorted_cons. intros [Hk Hs] Hij Hi Hj.
  destruct j as [|j]; [lia|]. simpl in Hj. destruct i as [|i]; simpl in Hi.
  - simplify_eq. rewrite Forall_forall in Hk. apply Hk.
    apply list_elem_of_fmap_2. by apply list_elem_of_lookup_2 in Hj.
  - by apply (IH i j); [|lia| |].
Qed.

Lemma keys_sorted_search {V} (l : list (Key * V)) k :
  keys_sorted l → search_sorted (λ e, key_cmp e.1 k) l.
Proof.
  intros Hs i j x y Hij Hi Hj.
  destruct (decide (i = j)) as [->|Hne]; [by simplify_eq|].
  pose proof (keys_sorted_lookup_lt l i j x y Hs ltac:(lia) Hi Hj) as Hlt.
  split.
  - intros H. by apply (klt_trans _ y.1).
  - rewrite !key_cmp_gt. intros H. by apply (klt_trans _ x.1).
Qed.

(** ** Binary search *)

Section binary_search.
Context {A : Type} (f : A → comparison) (l : list A).

(** The loop's invariant: the answer lies in [base, base + size]. *)
Definition bsearch_inv (base size : nat) : Prop :=
  1 <= size ∧ base + size <= length l ∧
  (0 < base → ∃ x, l !! base = Some x ∧ f x <> Gt) ∧
  (∀ i x, base + size <= i → l !! i = Some x → f x = Gt).

Lemma bsearch_loop_inv fuel base size :
  search_sorted f l → size <= S fuel → bsearch_inv base size →
  bsearch_inv (bsearch_loop fuel f l base size) 1.
Proof.
  intros Hs. revert base size; induction fuel as [|fuel IH]; intros base size Hf Hinv;
    cbn [bsearch_loop].
  { destruct Hinv as (? & ? & ? & ?). by replace size with 1 in * by lia. }
  destruct (size <=? 1) eqn:E; bool_to_prop.
  { destruct Hinv as (? & ? & ? & ?). by replace size with 1 in * by lia. }
  apply IH; [lia|]. destruct Hinv as (H1 & H2 & H3 & H4).
  destruct (lookup_lt_is_Some_2 l (base + size / 2)) as [x Hx]; [lia|].
  rewrite Hx. cbn [fmap option_fmap option_map]. destruct (f x) eqn:Ef.
  1,2: split_and!; [lia|lia|intros _; exists x; split; congruence|];
    intros i y Hi; apply H4; lia.
  split_and!; [lia|lia|done|]. intros i y Hi Hy.
  by apply (Hs (base + size / 2) i x y); [lia| | |].
Qed.

Lemma binary_search_by_spec :
  search_sorted f l →
  match binary_search_by f l with
  | Found p => ∃ x, l !! p = Some x ∧ f x = Eq
  | Missing p => p <= length l
      ∧ (∀ i x, i < p → l !! i = Some x → f x = Lt)
      ∧ (∀ i x, p <= i → l !! i = Some x → f x = Gt)
  end.
Proof.
  intros Hs. unfold binary_search_by. destruct l as [|e l'] eqn:El.
  { simpl. split_and!; [lia|lia|]. intros i x _. by rewrite lookup_nil. }
  rewrite <-El in *.
  assert (bsearch_inv (bsearch_loop (length l) f l 0 (length l)) 1) as (_ & H2 & H3 & H4).
  { apply bsearch_loop_inv; [done|lia|]. split_and!; [rewrite El; simpl; lia|lia|lia|].
    intros i x Hi. by rewrite lookup_ge_None_2 by lia. }
  set (b := bsearch_loop _ _ _ _ _) in *.
  destruct (lookup_lt_is_Some_2 l b) as [x Hx]; [lia|].
  rewrite Hx. simpl. destruct (f x) eqn:Ef.
  - eauto.
  - split_and!; [lia| |].
    + intros i y Hi Hy. by apply (Hs i b y x); [lia| | |].
    + intros i y Hi. apply H4. lia.
  - destruct (decide (b = 0)) as [Hb|Hb].
    + rewrite Hb in *. split_and!; [lia|lia|]. intros i y Hi Hy.
      by apply (Hs 0 i x y); [lia| | |].
    + destruct H3 as (y & Hy & ?); [lia|]. congruence.
Qed.

End binary_search.

(** ** Vectors of keyed entries as maps *)

Lemma vec_insert_spec {A} i (x : A) l :
  ∃ l1 l2, l = l1 ++ l2 ∧ l1 = take i l ∧ vec_insert i x l = l1 ++ x :: l2.
Proof. exists (take i l), (drop i l). by rewrite take_drop. Qed.

Lemma vec_remove_split {A} i (x : A) l :
  l !! i = Some x → ∃ l1 l2, l = l1 ++ x :: l2 ∧ length l1 = i ∧ vec_remove i l = l1 ++ l2.
Proof.
  intros H. exists (take i l), (drop (S i) l). pose proof (lookup_lt_Some _ _ _ H).
  split_and!; [by rewrite take_drop_middle|len|done].
Qed.

Lemma keys_sorted_app {V} (l1 l2 : list (Key * V)) :
  keys_sorted (l1 ++ l2) ↔
  (∀ x y, x ∈ l1 → y ∈ l2 → x.1 <k y.1) ∧ keys_sorted l1 ∧ keys_sorted l2.
Proof.
  unfold keys_sorted. rewrite fmap_app, StronglySorted_app. split.
  - intros (H & ? & ?). split_and!; [|done|done]. intros x y Hx Hy.
    apply H; by apply list_elem_of_fmap_2.
  - intros (H & ? & ?). split_and!; [|done|done]. intros k1 k2 Hx Hy.
    apply list_elem_of_fmap in Hx as (x & -> & Hx).
    apply list_elem_of_fmap in Hy as (y & -> & Hy). auto.
Qed.

Lemma keys_sorted_cons {V} (x : Key * V) l :
  keys_sorted (x :: l) ↔ (∀ y, y ∈ l → x.1 <k y.1) ∧ keys_sorted l.
Proof.
  change (x :: l) with ([x] ++ l). rewrite keys_sorted_app. split.
  - intros (H & _ & Hs). split; [|done]. intros y Hy. apply H; [|done]. set_solver.
  - intros (H & Hs). split_and!; [|repeat constructor|done].
    intros x' y ->%list_elem_of_singleton. apply H.
Qed.

Lemma keys_sorted_nil {V} : keys_sorted ([] : list (Key * V)).
Proof. constructor. Qed.

Lemma keys_sorted_singleton {V} (x : Key * V) : keys_sorted [x].
Proof. repeat constructor. Qed.

#[export] Hint Resolve keys_sorted_nil keys_sorted_singleton : lsm.

(** Dropping an entry keeps the list sorted, and so does putting one between
    its neighbours. *)
Lemma keys_sorted_remove {V} (l1 l2 : list (Key * V)) x :
  keys_sorted (l1 ++ x :: l2) → keys_sorted (l1 ++ l2).
Proof.
  rewrite !keys_sorted_app, keys_sorted_cons. intros (H & ? & ? & ?).
  split_and!; [|done|done]. intros a b Ha Hb. apply H; set_solver.
Qed.

Lemma keys_sorted_insert {V} (l1 l2 : list (Key * V)) x :
  keys_sorted (l1 ++ l2) →
  (∀ y, y ∈ l1 → y.1 <k x.1) → (∀ y, y ∈ l2 → x.1 <k y.1) →
  keys_sorted (l1 ++ x :: l2).
Proof.
  rewrite !keys_sorted_app, keys_sorted_cons. intros (H & ? & ?) Hl Hr.
  split_and!; [|done|done|done]. intros a b Ha [->|Hb]%elem_of_cons; auto.
Qed.

Lemma list_to_map_mid {V} (l1 l2 : list (Key * V)) k v :
  keys_sorted (l1 ++ (k, v) :: l2) →
  (list_to_map (l1 ++ (k, v) :: l2) : gmap Key V) = <[k := v]> (list_to_map (l1 ++ l2)).
Proof.
  intros Hs. apply keys_sorted_NoDup in Hs. rewrite fmap_app, fmap_cons in Hs.
  apply NoDup_app in Hs as (_ & Hd & _).
  rewrite !list_to_map_app. simpl.
  rewrite insert_union_r; [done|].
  apply not_elem_of_list_to_map_1. intros Hin. by apply (Hd k Hin), elem_of_cons; left.
Qed.

Lemma list_to_map_lookup {V} (l : list (Key * V)) i k v :
  keys_sorted l → l !! i = Some (k, v) → (list_to_map l : gmap Key V) !! k = Some v.
Proof.
  intros Hs Hi. apply elem_of_list_to_map_1; [by apply keys_sorted_NoDup|].
  by eapply list_elem_of_lookup_2.
Qed.

(** The keyed form of the search: a binary search by key on a sorted vector
    finds exactly what the map of its entries holds. *)
Definition search_key {V} (k : Key) (l : list (Key * V)) : search_pos :=
  binary_search_by (λ e, key_cmp e.1 k) l.

Lemma search_key_spec {V} (k : Key) (l : list (Key * V)) :
  keys_sorted l →
  match search_key k l with
  | Found p => ∃ v l1 l2, l !! p = Some (k, v) ∧ l = l1 ++ (k, v) :: l2 ∧ length l1 = p
  | Missing p => ∃ l1 l2, l = l1 ++ l2 ∧ length l1 = p ∧
      (∀ y, y ∈ l1 → y.1 <k k) ∧ (∀ y, y ∈ l2 → k <k y.1)
  end.
Proof.
  intros Hs. pose proof (binary_search_by_spec _ l (keys_sorted_search l k Hs)) as H.
  unfold search_key. destruct (binary_search_by _ l) as [p|p].
  - destruct H as ([k' v] & Hp & E). simpl in E. apply key_cmp_eq in E as ->.
    destruct (vec_remove_split _ _ _ Hp) as (l1 & l2 & ? & ? & _). eauto 10.
  - destruct H as (Hp & H1 & H2). exists (take p l), (drop p l).
    split_and!; [by rewrite take_drop|len| |].
    + intros y (i & Hi)%list_elem_of_lookup. apply lookup_take_Some in Hi as [Hi ?].
      by apply (H1 i).
    + intros y (i & Hi)%list_elem_of_lookup. rewrite lookup_drop in Hi.
      apply key_cmp_gt. by apply (H2 (p + i)); [lia|].
Qed.

Lemma search_key_Missing_lookup {V} (k : Key) (l : list (Key * V)) p :
  keys_sorted l → search_key k l = Missing p → (list_to_map l : gmap Key V) !! k = None.
Proof.
  intros Hs E. pose proof (search_key_spec k l Hs) as H. rewrite E in H.
  destruct H as (l1 & l2 & -> & _ & H1 & H2).
  apply not_elem_of_list_to_map_1. rewrite fmap_app.
  intros [Hin|Hin]%elem_of_app; apply list_elem_of_fmap in Hin as ([k' v] & -> & Hin).
  - by apply (klt_irrefl k'), (H1 _ Hin).
  - by apply (klt_irrefl k'), (H2 _ Hin).
Qed.

(** ** Order automation *)

(** The order of keys as an instance of the standard library's order solver;
    [korder] decides goals about [=], [<k] and [<=k]. *)
Module KeyOrder.

Module O.
Definition t := Key.
Definition eq := @Logic.eq Key.
Definition lt := klt.
Definition le := kle.
End O.

Module P.
#[export] Instance eq_equiv : Equivalence O.eq.
Proof. unfold O.eq. apply _. Qed.
#[export] Instance lt_strorder : StrictOrder O.lt.
Proof. split; [intros a; apply klt_irrefl|intros a b c; apply klt_trans]. Qed.
#[export] Instance lt_compat : Proper (O.eq ==> O.eq ==> iff) O.lt.
Proof. by intros a b -> c d ->. Qed.
Definition le_lteq : ∀ x y, O.le x y ↔ O.lt x y ∨ O.eq x y := kle_lteq.
Definition lt_total : ∀ x y, O.lt x y ∨ O.eq x y ∨ O.lt y x := klt_trichotomy.
End P.

Module Tac := OrdersTac.MakeOrderTac O P.

End KeyOrder.

Ltac korder :=
  change klt with KeyOrder.O.lt in *; change kle with KeyOrder.O.le in *;
  change (@Logic.eq (list byte)) with KeyOrder.O.eq in *;
  KeyOrder.Tac.order.

Lemma key_min_cases a b : a <=k b ∧ key_min a b = a ∨ b <k a ∧ key_min a b = b.
Proof.
  unfold key_min. destruct (key_leb a b) eqn:E; [left|right].
  - by apply key_leb_le in E.
  - by apply key_leb_gt in E.
Qed.

Lemma key_max_cases a b : b <k a ∧ key_max a b = a ∨ a <=k b ∧ key_max a b = b.
Proof.
  unfold key_max. destruct (key_ltb b a) eqn:E; [left|right].
  - by apply key_ltb_lt in E.
  - by apply key_ltb_ge in E.
Qed.

Lemma key_min_le a b c : c <=k key_min a b ↔ c <=k a ∧ c <=k b.
Proof. destruct (key_min_cases a b) as [[? ->]|[? ->]]; split; intros; [split| |split|]; korder || naive_solver. Qed.

(** ** Sums over lists *)

Lemma sum_submseteq {A} (f : A → nat) (l1 l2 : list A) : l1 ⊆+ l2 → sum_list_with f l1 <= sum_list_with f l2.
Proof. intros [l3 ->]%submseteq_Permutation. rewrite sum_list_with_app. lia. Qed.

Lemma sum_fmap {A B} (f : B → nat) (g : A → B) l : sum_list_with f (g <$> l) = sum_list_with (f ∘ g) l.
Proof. induction l as [|x l IH]; [done|]. rewrite fmap_cons. cbn [sum_list_with]. by rewrite IH. Qed.

Lemma sum_list_with_ext {A} (f g : A → nat) l : (∀ x, f x = g x) → sum_list_with f l = sum_list_with g l.
Proof. intros He. induction l as [|x l IH]; [done|]. cbn [sum_list_with]. by rewrite He, IH. Qed.
