(* ===== verification/WriteBatch.v ===== *)
(** * Parameters and write batches

    [Params] (src/src/params.rs), [WriteOp], [WriteBatch] and [WriteOptions]
    (src/src/write_batch.rs), [StartMode] (src/src/lib.rs) and the entry type
    that the memtable and the data blocks share ([DataEntryType],
    src/src/data_blocks/mod.rs). *)

From stdpp Require Import base list strings.
From Stdlib Require Import Strings.Byte NArith Lia.
From S2P Require Import Prelude.

Local Open Scope nat_scope.

(** [struct Params] *)
Module Params.

Record Params := mkParams {
  db_path : string;
  max_memtable_size : nat;
  num_levels : nat;
  max_open_files : N;
  max_key_block_size : nat;
  block_restart_interval : N;
  log_level_stats : option string;
  compaction_concurrency : nat;
  seek_based_compaction : option N;
}.

(** [impl Default for Params] *)
Definition default : Params := {|
  db_path := "./storage.lsm";
  max_memtable_size := N.to_nat (5 * 1024 * 1024);
  num_levels := 5;
  max_open_files := 1000000;
  max_key_block_size := 512;
  block_restart_interval := 16;
  log_level_stats := None;
  compaction_concurrency := 4;
  seek_based_compaction := Some 10%N;
|}.

End Params.

(** [enum StartMode] *)
Inductive StartMode := CreateOrOpen | Open | CreateOrOverride.

(** [enum DataEntryType] *)
Inductive DataEntryType := TPut | TDelete.

(** [enum WriteOp] *)
Inductive WriteOp := Put (key : Key) (value : Value) | Delete (key : Key).

#[global] Instance DataEntryType_eq_dec : EqDecision DataEntryType.
Proof. solve_decision. Defined.

#[global] Instance WriteOp_eq_dec : EqDecision WriteOp.
Proof. solve_decision. Defined.

Module WriteOp.

(** [WriteOp::PUT_OP] and [WriteOp::DELETE_OP] *)
Definition PUT_OP : N := 1.
Definition DELETE_OP : N := 2.

(** [WriteOp::get_key] *)
Definition get_key (op : WriteOp) : Key :=
  match op with Put key _ => key | Delete key => key end.

(** [WriteOp::get_type] *)
Definition get_type (op : WriteOp) : N :=
  match op with Put _ _ => PUT_OP | Delete _ => DELETE_OP end.

(** [WriteOp::get_key_length] *)
Definition get_key_length (op : WriteOp) : N :=
  match op with Put key _ | Delete key => as_u64 (length key) end.

(** [WriteOp::get_value_length] *)
Definition get_value_length (op : WriteOp) : N :=
  match op with Put _ value => as_u64 (length value) | Delete _ => 0%N end.

End WriteOp.

Module WriteBatch.

(** [struct WriteBatch] *)
Record WriteBatch := mkWriteBatch { writes : list WriteOp }.

(** [WriteBatch::new] *)
Definition new : WriteBatch := {| writes := [] |}.

(** [WriteBatch::put] *)
Definition put (b : WriteBatch) (key : Key) (value : Value) : WriteBatch :=
  {| writes := b.(writes) ++ [Put key value] |}.

(** [WriteBatch::delete] *)
Definition delete (b : WriteBatch) (key : Key) : WriteBatch :=
  {| writes := b.(writes) ++ [Delete key] |}.

End WriteBatch.

(** [struct WriteOptions] *)
Record WriteOptions := mkWriteOptions { sync : bool }.

(** [WriteOptions::new] *)
Definition WriteOptions_new : WriteOptions := {| sync := true |}.
