(* ===== verification/Iterator.v ===== *)
(** * The iterator interface (trait [InternalIterator], src/src/sorted_table/iterator.rs)

    The operations a merging iterator and the compaction use of a memtable
    iterator and of a table iterator, as a type class, and what an iterator
    promises: [enumerates it l] says that stepping [it] until [at_end] shows the
    items [l] in order, without a panic. *)

From stdpp Require Import base list.
From Stdlib Require Import Strings.Byte NArith.
From S2P Require Import Prelude WriteBatch.

(** [trait InternalIterator].  [St] is the shared state that stepping reads and
    changes (the files and the block caches), [E] the type of entry references
    [get_entry] returns and [it_entry_value] the value such a reference reads
    ([None] for a deletion). *)
Class InternalIterator (St I E : Type) := {
  it_at_end : I → outcome bool;
  it_step : I → St → outcome (I * St);
  it_get_key : I → outcome Key;
  it_get_entry : I → outcome (option E);
  it_entry_value : E → outcome (option Value);
  it_get_seq_number : I → outcome N;
  it_get_entry_type : I → outcome DataEntryType;
}.

(** What an iterator shows at one position; [item_shown] is what [get_entry]
    gives: no entry, or an entry and the value it reads. *)
Record Item := mkItem {
  item_key : Key;
  item_seq : N;
  item_type : DataEntryType;
  item_shown : option (option Value);
}.

Section enumerates.
Context {St I E : Type} `{InternalIterator St I E}.

(** [Inv] is what the iterator needs of the shared state, [Frame] what a step
    may change of it. *)
Context (Inv : St → Prop) (Frame : St → St → Prop).

(** The iterator stands on the item [x]. *)
Definition shows (it : I) (x : Item) : Prop :=
  it_at_end it = Ok false ∧
  it_get_key it = Ok (item_key x) ∧
  it_get_seq_number it = Ok (item_seq x) ∧
  it_get_entry_type it = Ok (item_type x) ∧
  ∃ r, it_get_entry it = Ok r ∧
    match item_shown x, r with
    | None, None => True
    | Some v, Some en => it_entry_value en = Ok v
    | _, _ => False
    end.

(** Stepping the iterator until [at_end] shows the items [l], whatever happens
    to the shared state in between as long as [Inv] holds of it. *)
Fixpoint enumerates (it : I) (l : list Item) : Prop :=
  match l with
  | [] => it_at_end it = Ok true
  | x :: l' => shows it x ∧ ∀ s, Inv s →
      ∃ it' s', it_step it s = Ok (it', s') ∧ Frame s s' ∧ enumerates it' l'
  end.

Lemma enumerates_at_end it l :
  enumerates it l → it_at_end it = Ok (match l with [] => true | _ => false end).
Proof. destruct l as [|x l]; simpl; [done|]. by intros [[? _] _]. Qed.

(** An iterator determines what it enumerates. *)
Lemma enumerates_inj it l1 l2 s :
  Inv s → enumerates it l1 → enumerates it l2 → l1 = l2.
Proof.
  intros Hs. revert it l2; induction l1 as [|x l1 IH]; intros it [|y l2]; simpl.
  - done.
  - intros E1 [(E2 & _) _]. congruence.
  - intros [(E1 & _) _] E2. congruence.
  - intros [(_ & K1 & S1 & T1 & r1 & R1 & V1) H1] [(_ & K2 & S2 & T2 & r2 & R2 & V2) H2].
    destruct (H1 s Hs) as (it1 & s1 & Hs1 & _ & H1').
    destruct (H2 s Hs) as (it2 & s2 & Hs2 & _ & H2').
    assert (it1 = it2) as -> by congruence. f_equal; [|by eapply IH].
    assert (r1 = r2) as -> by congruence.
    assert (item_shown x = item_shown y) as Hv.
    { destruct (item_shown x), (item_shown y), r2; try done; congruence. }
    destruct x, y; simpl in *; congruence.
Qed.

End enumerates.

(** An iterator that needs less of the shared state enumerates under more. *)
Lemma enumerates_weaken {St I E} `{InternalIterator St I E} (Inv Inv' : St → Prop) Frame it l :
  (∀ s, Inv' s → Inv s) → enumerates Inv Frame it l → enumerates Inv' Frame it l.
Proof.
  intros Himp. revert it; induction l as [|x l IH]; intros it; simpl; [done|].
  intros [Hs Hstep]. split; [done|]. intros s Hinv.
  destruct (Hstep s (Himp s Hinv)) as (it' & s' & ? & ? & ?). eauto 10.
Qed.
