(* ===== verification/Memtable.v ===== *)
(** * The memtable (src/src/memtable.rs)

    The in-memory part of the store: a vector of entries sorted by key, its
    size in bytes and the next sequence number, with the iterator over it.  The
    theorems show that the vector is a faithful implementation of a finite map
    from keys to their latest entry. *)

From stdpp Require Import base list gmap strings sorting.
From Stdlib Require Import Strings.Byte NArith ZArith Lia.
From S2P Require Import Prelude WriteBatch Iterator.

Local Open Scope nat_scope.
Local Open Scope lsm_scope.

(** [enum MemtableEntry] *)
Inductive MemtableEntry :=
| MValue (seq_number : N) (value : Value)
| MDeletion (seq_number : N).

#[global] Instance MemtableEntry_eq_dec : EqDecision MemtableEntry.
Proof. solve_decision. Defined.

Module MemtableEntry.

(** [MemtableEntry::get_value] *)
Definition get_value (e : MemtableEntry) : option Value :=
  match e with MValue _ value => Some value | MDeletion _ => None end.

(** The [seq_number] field of either variant. *)
Definition seq_number (e : MemtableEntry) : N :=
  match e with MValue s _ | MDeletion s => s end.

End MemtableEntry.

Module MemtableEntryRef.

(** [struct MemtableEntryRef] *)
Record MemtableEntryRef := mkRef { entry : MemtableEntry }.

(** [MemtableEntryRef::get_type] *)
Definition get_type (r : MemtableEntryRef) : DataEntryType :=
  match r.(entry) with MValue _ _ => TPut | MDeletion _ => TDelete end.

(** [MemtableEntryRef::get_value] *)
Definition get_value (r : MemtableEntryRef) : option Value :=
  match r.(entry) with MValue _ value => Some value | MDeletion _ => None end.

End MemtableEntryRef.

Module Memtable.

(** [struct Memtable] *)
Record Memtable := mkMemtable {
  entries : list (Key * MemtableEntry);
  size : nat;
  next_seq_number : N;
}.

(** [Memtable::new] *)
Definition new (next_seq_number : N) : Memtable :=
  {| entries := []; size := 0; next_seq_number := next_seq_number |}.

(** [Memtable::get_next_seq_number] *)
Definition get_next_seq_number (m : Memtable) : N := m.(next_seq_number).

(** [Memtable::get_min_max_key] *)
Definition get_min_max_key (m : Memtable) : outcome (Key * Key) :=
  let len := length m.(entries) in
  if len =? 0 then Panic "Memtable is empty" else
  min ← expect (m.(entries) !! 0) "index out of bounds";
  max ← expect (m.(entries) !! (len - 1)) "index out of bounds";
  Ok (min.1, max.1).

(** [Memtable::get] *)
Definition get (m : Memtable) (key : Key) : option MemtableEntryRef.MemtableEntryRef :=
  match search_key key m.(entries) with
  | Found pos => MemtableEntryRef.mkRef ∘ snd <$> m.(entries) !! pos
  | Missing _ => None
  end.

(** The [entry_len] of the source: the bytes an entry accounts for. *)
Definition entry_len (key : Key) (e : MemtableEntry) : nat :=
  match e with
  | MValue _ value => length key + length value
  | MDeletion _ => length key
  end.

(** [Memtable::get_key_pos] *)
Definition get_key_pos (m : Memtable) (key : Key) : outcome (nat * Memtable) :=
  match search_key key m.(entries) with
  | Found pos =>
      removed ← expect (m.(entries) !! pos) "removal index out of bounds";
      size' ← usize_sub m.(size) (entry_len key removed.2);
      Ok (pos, {| entries := vec_remove pos m.(entries); size := size';
                  next_seq_number := m.(next_seq_number) |})
  | Missing pos => Ok (pos, m)
  end.

(** [Memtable::put] *)
Definition put (m : Memtable) (key : Key) (value : Value) : outcome Memtable :=
  '(pos, m') ← get_key_pos m key;
  let len := length key + length value in
  seq ← u64_add m'.(next_seq_number) 1;
  Ok {| entries := vec_insert pos (key, MValue m'.(next_seq_number) value) m'.(entries);
        size := m'.(size) + len;
        next_seq_number := seq |}.

(** [Memtable::delete] *)
Definition delete (m : Memtable) (key : Key) : outcome Memtable :=
  '(pos, m') ← get_key_pos m key;
  let len := length key in
  seq ← u64_add m'.(next_seq_number) 1;
  Ok {| entries := vec_insert pos (key, MDeletion m'.(next_seq_number)) m'.(entries);
        size := m'.(size) + len;
        next_seq_number := seq |}.

(** [Memtable::is_full] *)
Definition is_full (m : Memtable) (params : Params.Params) : bool :=
  params.(Params.max_memtable_size) <=? m.(size).

(** [Memtable::get_entries] *)
Definition get_entries (m : Memtable) : list (Key * MemtableEntry) := m.(entries).

(** The loop of [DbLogic::write_opts] that applies a batch
    ([WriteOp::Put] / [WriteOp::Delete] to [put] / [delete]). *)
Definition apply_op (m : Memtable) (op : WriteOp) : outcome Memtable :=
  match op with
  | Put key value => put m key value
  | Delete key => delete m key
  end.

Fixpoint apply_ops (m : Memtable) (ops : list WriteOp) : outcome Memtable :=
  match ops with
  | [] => Ok m
  | op :: ops' => m' ← apply_op m op; apply_ops m' ops'
  end.

End Memtable.

Module MemtableRef.

(** [struct MemtableRef] / [ImmMemtableRef]: a shared pointer to a memtable. *)
Record MemtableRef := wrap { inner : Memtable.Memtable }.

(** [MemtableRef::take]: the current contents as an immutable memtable, and the
    reference now pointing to an empty one. *)
Definition take (r : MemtableRef) (next_seq_number : N)
  : Memtable.Memtable * MemtableRef :=
  (r.(inner), wrap (Memtable.new next_seq_number)).

End MemtableRef.

Module MemtableIterator.

(** [struct MemtableIterator] *)
Record MemtableIterator := mkIter {
  inner : Memtable.Memtable;
  next_index : Z;
  key : option Key;
  entry : option MemtableEntry;
  reverse : bool;
}.

(** [entries[self.next_index as usize].clone()] into [key] and [entry], then
    [next_index := next_index + delta]. *)
Definition load (it : MemtableIterator) (delta : Z) : outcome MemtableIterator :=
  ke ← expect (it.(inner).(Memtable.entries) !! Z.to_nat it.(next_index))
         "index out of bounds";
  Ok {| inner := it.(inner); next_index := it.(next_index) + delta;
        key := Some ke.1; entry := Some ke.2; reverse := it.(reverse) |}.

Definition bump (it : MemtableIterator) (delta : Z) : MemtableIterator :=
  {| inner := it.(inner); next_index := it.(next_index) + delta;
     key := it.(key); entry := it.(entry); reverse := it.(reverse) |}.

(** [MemtableIterator::step] *)
Definition step (it : MemtableIterator) : outcome MemtableIterator :=
  let num_entries := Z.of_nat (length it.(inner).(Memtable.entries)) in
  if it.(reverse) then
    match (it.(next_index) ?= -1)%Z with
    | Lt => Panic "Cannot step(); already at end"
    | Eq => Ok (bump it (-1))
    | Gt => load it (-1)
    end
  else
    match (it.(next_index) ?= num_entries)%Z with
    | Gt => Panic "Cannot step(); already at end"
    | Eq => Ok (bump it 1)
    | Lt => load it 1
    end.

(** [MemtableIterator::new] *)
Definition new (inner : Memtable.Memtable) (reverse : bool) : outcome MemtableIterator :=
  let next_index := if reverse
    then (Z.of_nat (length inner.(Memtable.entries)) - 1)%Z else 0%Z in
  step {| inner := inner; next_index := next_index; key := None; entry := None;
          reverse := reverse |}.

(** [MemtableIterator::at_end] *)
Definition at_end (it : MemtableIterator) : bool :=
  if it.(reverse) then (it.(next_index) <? -1)%Z
  else (Z.of_nat (length it.(inner).(Memtable.entries)) <? it.(next_index))%Z.

(** [MemtableIterator::get_key] *)
Definition get_key (it : MemtableIterator) : outcome Key :=
  expect it.(key) "Not a valid iterator".

(** [MemtableIterator::get_entry]: every entry, deletions included. *)
Definition get_entry (it : MemtableIterator)
  : option MemtableEntryRef.MemtableEntryRef :=
  MemtableEntryRef.mkRef <$> it.(entry).

(** [MemtableIterator::get_seq_number] *)
Definition get_seq_number (it : MemtableIterator) : outcome N :=
  e ← expect it.(entry) "called `Option::unwrap()` on a `None` value";
  Ok (MemtableEntry.seq_number e).

(** [MemtableIterator::get_entry_type] *)
Definition get_entry_type (it : MemtableIterator) : outcome DataEntryType :=
  e ← expect it.(entry) "called `Option::unwrap()` on a `None` value";
  Ok (match e with MValue _ _ => TPut | MDeletion _ => TDelete end).

End MemtableIterator.

(** Stepping a memtable iterator does not touch the shared state. *)
#[global] Instance MemtableIterator_iterator {S} :
    InternalIterator S MemtableIterator.MemtableIterator MemtableEntryRef.MemtableEntryRef := {|
  it_at_end := λ it, Ok (MemtableIterator.at_end it);
  it_step := λ it s, it' ← MemtableIterator.step it; Ok (it', s);
  it_get_key := MemtableIterator.get_key;
  it_get_entry := λ it, Ok (MemtableIterator.get_entry it);
  it_entry_value := λ r, Ok (MemtableEntryRef.get_value r);
  it_get_seq_number := MemtableIterator.get_seq_number;
  it_get_entry_type := MemtableIterator.get_entry_type;
|}.

(** ** Specification *)

(** The abstract memtable: the latest entry of every key. *)
Definition contents (m : Memtable.Memtable) : gmap Key MemtableEntry :=
  list_to_map m.(Memtable.entries).

(** Bytes accounted for by a list of entries. *)
Definition total_len (l : list (Key * MemtableEntry)) : nat :=
  sum_list_with (λ e, Memtable.entry_len e.1 e.2) l.

(** The representation invariant: entries strictly sorted by key, [size] the
    bytes they account for, sequence numbers handed out so far below
    [next_seq_number]. *)
Record memtable_wf (m : Memtable.Memtable) : Prop := {
  wf_sorted : keys_sorted m.(Memtable.entries);
  wf_size : m.(Memtable.size) = total_len m.(Memtable.entries);
  wf_seq : ∀ e, e ∈ m.(Memtable.entries) →
    (MemtableEntry.seq_number e.2 < m.(Memtable.next_seq_number))%N;
}.

(** A write of the abstract memtable with sequence number [seq]. *)
Definition spec_op (s : gmap Key MemtableEntry) (seq : N) (op : WriteOp)
  : gmap Key MemtableEntry :=
  match op with
  | Put key value => <[key := MValue seq value]> s
  | Delete key => <[key := MDeletion seq]> s
  end.

Fixpoint spec_ops (s : gmap Key MemtableEntry) (seq : N) (ops : list WriteOp)
  : gmap Key MemtableEntry :=
  match ops with
  | [] => s
  | op :: ops' => spec_ops (spec_op s seq op) (seq + 1) ops'
  end.

(** What the iterator shows of an entry. *)
Definition mem_item (e : Key * MemtableEntry) : Item := {|
  item_key := e.1;
  item_seq := MemtableEntry.seq_number e.2;
  item_type := match e.2 with MValue _ _ => TPut | MDeletion _ => TDelete end;
  item_shown := Some (MemtableEntry.get_value e.2);
|}.

(** ** Map refinement *)

Lemma total_len_app l1 l2 : total_len (l1 ++ l2) = total_len l1 + total_len l2.
Proof. apply sum_list_with_app. Qed.

Lemma memtable_new_wf seq : memtable_wf (Memtable.new seq).
Proof. split; [apply keys_sorted_nil|done|]. simpl. intros e. set_solver. Qed.

#[export] Hint Resolve memtable_new_wf wf_sorted : lsm.

(** [get_key_pos] cuts the entries at the key, the key itself removed. *)
Lemma get_key_pos_spec m k :
  memtable_wf m →
  ∃ pos m' l1 l2, Memtable.get_key_pos m k = Ok (pos, m') ∧
    m'.(Memtable.entries) = l1 ++ l2 ∧ length l1 = pos ∧
    (∀ y, y ∈ l1 → y.1 <k k) ∧ (∀ y, y ∈ l2 → k <k y.1) ∧
    memtable_wf m' ∧ m'.(Memtable.next_seq_number) = m.(Memtable.next_seq_number) ∧
    (∀ e, <[k := e]> (contents m') = <[k := e]> (contents m)).
Proof.
  intros [Hs Hsz Hq]. pose proof (search_key_spec k _ Hs) as Hk.
  unfold Memtable.get_key_pos. destruct (search_key k _) as [p|p].
  - destruct Hk as (v & l1 & l2 & Hp & El & Hl). rewrite Hp. simpl.
    destruct (vec_remove_split _ _ _ Hp) as (l1' & l2' & El' & Hl' & ->).
    assert (l1' = l1 ∧ l2' = l2) as [-> ->].
    { rewrite El' in El. apply app_inj_1 in El as [? E]; [|lia]. by simplify_eq. }
    rewrite El in Hs, Hsz, Hq. rewrite total_len_app in Hsz. simpl in Hsz.
    unfold usize_sub. if_true. simpl.
    eexists _, _, l1, l2. split_and!; try done; simpl.
    + intros y Hy. apply keys_sorted_app in Hs as [Hs _]. apply (Hs y (k, v)); set_solver.
    + intros y Hy. apply keys_sorted_app in Hs as (_ & _ & Hs).
      apply keys_sorted_cons in Hs as [Hs _]. by apply Hs.
    + split; simpl; [by eapply keys_sorted_remove| |].
      * rewrite total_len_app. unfold total_len in *. lia.
      * intros x Hx. apply Hq. rewrite elem_of_app, elem_of_cons in *. tauto.
    + intros e. unfold contents. simpl. rewrite El.
      rewrite list_to_map_mid by done. by rewrite insert_insert_eq.
  - destruct Hk as (l1 & l2 & El & Hl & H1 & H2).
    eexists _, m, l1, l2. by split_and!.
Qed.

(** The body shared by [put] and [delete]: the entry lands where the key was
    cut out. *)
Lemma upsert_wf m m' l1 l2 k e seq len :
  memtable_wf m' → m'.(Memtable.entries) = l1 ++ l2 →
  (∀ y, y ∈ l1 → y.1 <k k) → (∀ y, y ∈ l2 → k <k y.1) →
  MemtableEntry.seq_number e = m'.(Memtable.next_seq_number) →
  len = Memtable.entry_len k e → seq = (m'.(Memtable.next_seq_number) + 1)%N →
  (∀ e, <[k := e]> (contents m') = <[k := e]> (contents m)) →
  let m'' := {| Memtable.entries := vec_insert (length l1) (k, e) m'.(Memtable.entries);
                Memtable.size := m'.(Memtable.size) + len;
                Memtable.next_seq_number := seq |} in
  memtable_wf m'' ∧ contents m'' = <[k := e]> (contents m).
Proof.
  intros [Hs Hsz Hq] El H1 H2 He -> -> Hc m''.
  assert (Memtable.entries m'' = l1 ++ (k, e) :: l2) as Em.
  { subst m''. simpl. unfold vec_insert. rewrite El.
    by rewrite take_app_length, drop_app_length. }
  rewrite El in Hs, Hsz, Hq.
  pose proof (keys_sorted_insert l1 l2 (k, e) Hs H1 H2) as Hs'.
  split; [split|].
  - by rewrite Em.
  - rewrite Em, total_len_app. simpl. rewrite Hsz, total_len_app.
    unfold total_len. simpl. lia.
  - rewrite Em. simpl. intros x Hx. rewrite elem_of_app, elem_of_cons in Hx.
    destruct Hx as [Hx|[->|Hx]]; simpl; [|lia|];
      (assert (x ∈ l1 ++ l2) as Hx' by set_solver); apply Hq in Hx'; lia.
  - unfold contents in *. rewrite Em, list_to_map_mid by done.
    rewrite El in Hc. apply Hc.
Qed.

Lemma apply_op_spec m op :
  memtable_wf m → (m.(Memtable.next_seq_number) + 1 < u64_bound)%N →
  ∃ m', Memtable.apply_op m op = Ok m' ∧ memtable_wf m' ∧
    contents m' = spec_op (contents m) m.(Memtable.next_seq_number) op ∧
    m'.(Memtable.next_seq_number) = (m.(Memtable.next_seq_number) + 1)%N.
Proof.
  intros Hwf Hlt.
  destruct (get_key_pos_spec m (WriteOp.get_key op) Hwf)
    as (pos & m' & l1 & l2 & Eq & El & <- & H1 & H2 & Hwf' & Hseq & Hc).
  destruct op as [k v|k]; simpl in *; unfold Memtable.put, Memtable.delete; rewrite Eq; simpl;
    unfold u64_add; rewrite Hseq; if_true; simpl; eexists; (split; [done|]).
  - edestruct (upsert_wf m m' l1 l2 k (MValue (Memtable.next_seq_number m) v));
      [done..|by rewrite Hseq|done|by rewrite Hseq|done|by split_and!].
  - edestruct (upsert_wf m m' l1 l2 k (MDeletion (Memtable.next_seq_number m)));
      [done..|by rewrite Hseq|done|by rewrite Hseq|done|by split_and!].
Qed.

Lemma apply_ops_ok m ops :
  memtable_wf m →
  (m.(Memtable.next_seq_number) + N.of_nat (length ops) < u64_bound)%N →
  ∃ m', Memtable.apply_ops m ops = Ok m' ∧ memtable_wf m' ∧
    contents m' = spec_ops (contents m) m.(Memtable.next_seq_number) ops ∧
    m'.(Memtable.next_seq_number) = (m.(Memtable.next_seq_number) + N.of_nat (length ops))%N.
Proof.
  revert m; induction ops as [|op ops IH]; intros m Hwf Hlt; simpl in *.
  { exists m. split_and!; [done|done|done|lia]. }
  destruct (apply_op_spec m op) as (m1 & -> & Hwf1 & Hc1 & Hn1); [done|lia|]. simpl.
  destruct (IH m1) as (m2 & -> & Hwf2 & Hc2 & Hn2); [done|lia|].
  exists m2. rewrite Hc2, Hn2, Hc1, Hn1. split_and!; [done|done|done|lia].
Qed.

(** C18: a batch of writes applied to a well-formed memtable does not panic as
    long as the sequence numbers fit in 64 bits; it keeps the representation
    invariant (sorted entries, exact byte count), and the resulting memtable is
    the map in which every key holds its last write, the writes numbered
    consecutively from [next_seq_number]. *)
Theorem memtable_apply_ops_refines m ops :
  memtable_wf m →
  (m.(Memtable.next_seq_number) + N.of_nat (length ops) < u64_bound)%N →
  ∃ m', Memtable.apply_ops m ops = Ok m' ∧ memtable_wf m' ∧
    contents m' = spec_ops (contents m) m.(Memtable.next_seq_number) ops ∧
    m'.(Memtable.next_seq_number) = (m.(Memtable.next_seq_number) + N.of_nat (length ops))%N.
Proof. apply apply_ops_ok. Qed.

Lemma mem_get_ok m k :
  memtable_wf m → Memtable.get m k = MemtableEntryRef.mkRef <$> contents m !! k.
Proof.
  intros [Hs _ _]. pose proof (search_key_spec k _ Hs) as Hk. unfold Memtable.get.
  destruct (search_key k _) as [p|p] eqn:E.
  - destruct Hk as (v & l1 & l2 & Hp & _ & _). rewrite Hp. unfold contents.
    by rewrite (list_to_map_lookup _ _ _ _ Hs Hp).
  - unfold contents. by rewrite (search_key_Missing_lookup _ _ _ Hs E).
Qed.

(** [Memtable::get] (a binary search) returns the entry the abstract map
    holds for the key, a deletion marker included, and nothing for a key that
    was never written. *)
Theorem memtable_get_refines m k :
  memtable_wf m → Memtable.get m k = MemtableEntryRef.mkRef <$> contents m !! k.
Proof. apply mem_get_ok. Qed.

(** The first and the last entry carry the smallest and the largest key. *)
Lemma keys_sorted_bounds {V} (l : list (Key * V)) e first last :
  keys_sorted l → e ∈ l → l !! 0 = Some first → l !! (length l - 1) = Some last →
  first.1 <=k e.1 ∧ e.1 <=k last.1.
Proof.
  intros Hs (i & Hi)%list_elem_of_lookup H0 Hn. pose proof (lookup_lt_Some _ _ _ Hi).
  rewrite !kle_lteq. split.
  - destruct (decide (i = 0)) as [->|]; [right; congruence|].
    left. by apply (keys_sorted_lookup_lt l 0 i); [|lia| |].
  - destruct (decide (i = length l - 1)) as [->|]; [right; congruence|].
    left. by apply (keys_sorted_lookup_lt l i (length l - 1)); [|lia| |].
Qed.

(** [get_min_max_key] of a non-empty memtable returns two of its keys that
    bound all the others (it panics on an empty one). *)
Theorem memtable_min_max_bounds m :
  memtable_wf m →
  match Memtable.get_min_max_key m with
  | Ok (kmin, kmax) =>
      is_Some (contents m !! kmin) ∧ is_Some (contents m !! kmax) ∧
      ∀ k e, contents m !! k = Some e → kmin <=k k ∧ k <=k kmax
  | Panic _ => contents m = ∅
  | _ => False
  end.
Proof.
  intros [Hs _ _]. unfold Memtable.get_min_max_key, contents.
  destruct (length (Memtable.entries m) =? 0) eqn:El; bool_to_prop.
  { apply nil_length_inv in El. by rewrite El. }
  destruct (lookup_lt_is_Some_2 (Memtable.entries m) 0) as [[k0 v0] H0]; [lia|].
  destruct (lookup_lt_is_Some_2 (Memtable.entries m) (length (Memtable.entries m) - 1))
    as [[kn vn] Hn]; [lia|].
  rewrite H0, Hn. simpl. split_and!; [eexists; by eapply list_to_map_lookup..|].
  intros k e Hk. apply elem_of_list_to_map_2 in Hk.
  by apply (keys_sorted_bounds _ _ _ _ Hs Hk H0 Hn).
Qed.

(** ** Iteration *)

(** The forward iterator whose next entry to load is number [i]. *)
Definition forward_at (m : Memtable.Memtable) (i : nat) (e : Key * MemtableEntry)
  : MemtableIterator.MemtableIterator := {|
  MemtableIterator.inner := m; MemtableIterator.next_index := Z.of_nat i;
  MemtableIterator.key := Some e.1; MemtableIterator.entry := Some e.2;
  MemtableIterator.reverse := false |}.

Definition backward_at (m : Memtable.Memtable) (i : nat) (e : Key * MemtableEntry)
  : MemtableIterator.MemtableIterator := {|
  MemtableIterator.inner := m; MemtableIterator.next_index := Z.of_nat i - 1;
  MemtableIterator.key := Some e.1; MemtableIterator.entry := Some e.2;
  MemtableIterator.reverse := true |}.

Section iteration.
Context {St : Type} (Inv : St → Prop) (Frame : St → St → Prop) `{!Reflexive Frame}.

Lemma mem_shows it e :
  it.(MemtableIterator.key) = Some e.1 → it.(MemtableIterator.entry) = Some e.2 →
  MemtableIterator.at_end it = false →
  shows (St:=St) it (mem_item e).
Proof.
  intros Hk He Hend. unfold shows. simpl. rewrite Hend.
  unfold MemtableIterator.get_key, MemtableIterator.get_seq_number,
    MemtableIterator.get_entry_type, MemtableIterator.get_entry.
  rewrite Hk, He. simpl. split_and!; try done.
  eexists; split; [done|]. unfold MemtableEntryRef.get_value. by destruct e.2.
Qed.

Lemma forward_at_enumerates m i e :
  i <= length m.(Memtable.entries) →
  enumerates Inv Frame (forward_at m i e) (mem_item <$> e :: drop i m.(Memtable.entries)).
Proof.
  remember (drop i (Memtable.entries m)) as rest eqn:Hr.
  revert i e Hr; induction rest as [|e' rest IH]; intros i e Hr Hi; rewrite fmap_cons;
    (split; [apply mem_shows; [done|done|unfold MemtableIterator.at_end; simpl;
             apply Z.ltb_ge; lia]|intros s _]);
    unfold it_step; simpl; unfold MemtableIterator.step; simpl.
  - pose proof (f_equal length Hr) as Hl. rewrite length_drop in Hl. simpl in Hl.
    replace (Z.of_nat i ?= _)%Z with Eq by (symmetry; apply Z.compare_eq_iff; lia).
    do 2 eexists; split; [done|split; [done|]]. simpl. f_equal. apply Z.ltb_lt. simpl. lia.
  - pose proof (f_equal length Hr) as Hl. rewrite length_drop in Hl. simpl in Hl.
    replace (Z.of_nat i ?= _)%Z with Lt by (symmetry; apply Z.compare_lt_iff; lia).
    assert (Memtable.entries m !! i = Some e') as Hlk.
    { rewrite <-(Nat.add_0_r i), <-lookup_drop, <-Hr. done. }
    unfold MemtableIterator.load. simpl. rewrite Nat2Z.id, Hlk. simpl.
    do 2 eexists; split; [done|split; [done|]].
    replace (Z.of_nat i + 1)%Z with (Z.of_nat (S i)) by lia.
    apply (IH (S i) e'); [|lia]. by rewrite <-Nat.add_1_r, <-drop_drop, <-Hr.
Qed.

Lemma backward_at_enumerates m i e :
  i <= length m.(Memtable.entries) →
  enumerates Inv Frame (backward_at m i e) (mem_item <$> e :: reverse (take i m.(Memtable.entries))).
Proof.
  revert e; induction i as [|i IH]; intros e Hi; rewrite fmap_cons;
    (split; [apply mem_shows; [done|done|unfold MemtableIterator.at_end; simpl;
             apply Z.ltb_ge; lia]|intros s _]);
    unfold it_step; simpl; unfold MemtableIterator.step; simpl.
  - do 2 eexists; split; [done|split; done].
  - destruct (lookup_lt_is_Some_2 (Memtable.entries m) i) as [e' He']; [lia|].
    replace (Z.of_nat (S i) - 1 ?= -1)%Z with Gt by (symmetry; apply Z.compare_gt_iff; lia).
    unfold MemtableIterator.load. simpl.
    replace (Z.to_nat (Z.of_nat (S i) - 1)) with i by lia. rewrite He'. simpl.
    rewrite (take_S_r _ _ _ He'), reverse_snoc.
    do 2 eexists; split; [done|split; [done|]].
    replace (Z.of_nat (S i) - 1 + -1)%Z with (Z.of_nat i - 1)%Z by lia.
    apply (IH e'). lia.
Qed.

(** Creating and stepping a memtable iterator. *)
Lemma mem_new_enumerates m rev :
  ∃ it, MemtableIterator.new m rev = Ok it ∧
    enumerates Inv Frame it (mem_item <$> (if rev then reverse m.(Memtable.entries)
                                 else m.(Memtable.entries))).
Proof.
  unfold MemtableIterator.new, MemtableIterator.step. destruct rev; simpl.
  - destruct (Memtable.entries m) as [|e0 l] eqn:El; rewrite <-El.
    { rewrite El. eexists; split; [done|]. done. }
    destruct (lookup_lt_is_Some_2 (Memtable.entries m) (length l)) as [e' He'];
      [rewrite El; simpl; lia|].
    assert (length (Memtable.entries m) = S (length l)) as Hl by by rewrite El.
    rewrite Hl. replace (Z.of_nat (S (length l)) - 1 ?= -1)%Z with Gt
      by (symmetry; apply Z.compare_gt_iff; lia).
    unfold MemtableIterator.load. simpl.
    replace (Z.to_nat (Z.of_nat (S (length l)) - 1)) with (length l) by lia.
    rewrite He'. simpl. eexists; split; [done|].
    rewrite <-(take_ge (Memtable.entries m) (S (length l))) by lia.
    rewrite (take_S_r _ _ _ He'), reverse_snoc.
    replace (Z.of_nat (S (length l)) - 1 + -1)%Z with (Z.of_nat (length l) - 1)%Z by lia.
    apply (backward_at_enumerates m). lia.
  - destruct (Memtable.entries m) as [|e0 l] eqn:El.
    { eexists; split; [done|]. simpl. unfold MemtableIterator.at_end. simpl. by rewrite El. }
    replace (0 ?= Z.of_nat (length (e0 :: l)))%Z with Lt
      by (symmetry; apply Z.compare_lt_iff; simpl; lia).
    unfold MemtableIterator.load. simpl. rewrite El. simpl. eexists; split; [done|].
    pose proof (forward_at_enumerates m 1 e0) as H. rewrite El in H. simpl in H.
    rewrite drop_0 in H. apply H. lia.
Qed.

(** A memtable iterator is created without a panic and shows every entry of
    the memtable exactly once, in increasing key order, or in decreasing order
    when [reverse] is set; then it is at its end. *)
Theorem memtable_iterator_enumerates m rev :
  ∃ it, MemtableIterator.new m rev = Ok it ∧
    enumerates Inv Frame it (mem_item <$> (if rev then reverse m.(Memtable.entries)
                                 else m.(Memtable.entries))).
Proof. apply mem_new_enumerates. Qed.

End iteration.

(** ** Witnesses *)

(** A memtable with a value and a deletion. *)
Definition sample_memtable : Memtable.Memtable :=
  Memtable.mkMemtable [([x61], MValue 3 [x01]); ([x62], MDeletion 4)] 3 5.

Lemma sample_memtable_wf : memtable_wf sample_memtable.
Proof.
  split; [|done|].
  - repeat constructor.
  - intros e [->|[->|[]%not_elem_of_nil]%elem_of_cons]%elem_of_cons; done.
Qed.

Lemma memtable_apply_ops_refines_witness :
  ∃ m', Memtable.apply_ops sample_memtable [Put [x62] [x07]; Delete [x61]] = Ok m' ∧
    memtable_wf m' ∧
    contents m' = spec_ops (contents sample_memtable) 5 [Put [x62] [x07]; Delete [x61]] ∧
    m'.(Memtable.next_seq_number) = 7%N.
Proof.
  apply (memtable_apply_ops_refines sample_memtable [Put [x62] [x07]; Delete [x61]]);
    [exact sample_memtable_wf|vm_compute; reflexivity].
Defined.

Lemma memtable_get_refines_witness :
  Memtable.get sample_memtable [x62] =
    MemtableEntryRef.mkRef <$> contents sample_memtable !! [x62].
Proof. apply (memtable_get_refines sample_memtable [x62]). exact sample_memtable_wf. Defined.

Lemma memtable_min_max_bounds_witness :
  match Memtable.get_min_max_key sample_memtable with
  | Ok (kmin, kmax) =>
      is_Some (contents sample_memtable !! kmin) ∧ is_Some (contents sample_memtable !! kmax) ∧
      ∀ k e, contents sample_memtable !! k = Some e → kmin <=k k ∧ k <=k kmax
  | Panic _ => contents sample_memtable = ∅
  | _ => False
  end.
Proof. apply (memtable_min_max_bounds sample_memtable). exact sample_memtable_wf. Defined.

Lemma memtable_iterator_enumerates_witness :
  ∃ it, MemtableIterator.new sample_memtable true = Ok it ∧
    enumerates (λ _ : unit, True) (λ _ _, True) it
      (mem_item <$> reverse (Memtable.entries sample_memtable)).
Proof. apply (memtable_iterator_enumerates (λ _ : unit, True) (λ _ _, True) sample_memtable true). Defined.
