(* ===== verification/Disk.v ===== *)
(** * The file system (src/src/disk.rs)

    The files of a database directory as a finite map from names to contents.
    The names are the ones the components format ([log{:08}.data],
    [key{:08}.data], ...), one constructor per pattern, so that distinct names
    are distinct files.  The compressor (crate [snap], feature
    [snappy-compression]) is a parameter, with its documented round trip. *)

From stdpp Require Import base list gmap strings countable.
From Stdlib Require Import Strings.Byte NArith Lia.
From S2P Require Import Prelude.

Local Open Scope nat_scope.

(** The files of a database. *)
Inductive FileName :=
| LogFile (fpos : nat)
| DataFile (block_id : N)
| IndexFile (table_id : N)
| ValueFile (batch_id : N)
| ValueIndexFile (page_id : N)
| ManifestFile
| LevelFile (idx : nat).

#[global] Instance FileName_eq_dec : EqDecision FileName.
Proof. solve_decision. Defined.

Definition FileName_encode (f : FileName) : nat * N :=
  match f with
  | LogFile n => (0, N.of_nat n)
  | DataFile n => (1, n)
  | IndexFile n => (2, n)
  | ValueFile n => (3, n)
  | ValueIndexFile n => (4, n)
  | ManifestFile => (5, 0%N)
  | LevelFile n => (6, N.of_nat n)
  end.

Definition FileName_decode (c : nat * N) : FileName :=
  match c.1 with
  | 0 => LogFile (N.to_nat c.2)
  | 1 => DataFile c.2
  | 2 => IndexFile c.2
  | 3 => ValueFile c.2
  | 4 => ValueIndexFile c.2
  | 5 => ManifestFile
  | _ => LevelFile (N.to_nat c.2)
  end.

#[global] Instance FileName_countable : Countable FileName.
Proof.
  refine (inj_countable' FileName_encode FileName_decode _).
  intros []; unfold FileName_decode; simpl; rewrite ?Nat2N.id; done.
Defined.

(** The files of the directory and their contents. *)
Abbreviation Disk := (gmap FileName (list byte)).

(** The compressor: [snap::raw::Encoder::compress_vec], which fails on inputs
    it cannot represent, and [Decoder::decompress_vec]. *)
Class Compression := {
  compress_vec : list byte → option (list byte);
  decompress_vec : list byte → option (list byte);
}.

(** What the documentation of the crate promises: what was compressed is
    decompressed to the same bytes, and inputs below 4 GiB are accepted. *)
Class CompressionLaws `{Compression} : Prop := {
  decompress_compress data c : compress_vec data = Some c → decompress_vec c = Some data;
  compress_total data : (N.of_nat (length data) < u32_bound)%N → is_Some (compress_vec data);
}.

Module disk.

(** [disk::read_uncompressed]: [None] is [ErrorKind::NotFound]. *)
Definition read_uncompressed (d : Disk) (fpath : FileName) (offset : nat)
  : option (list byte) :=
  drop offset <$> d !! fpath.

(** [disk::write_uncompressed]: creates or truncates the file. *)
Definition write_uncompressed (d : Disk) (fpath : FileName) (data : list byte) : Disk :=
  <[fpath := data]> d.

(** [disk::read] *)
Definition read `{Compression} (d : Disk) (fpath : FileName) (offset : nat)
  : outcome (list byte) :=
  match read_uncompressed d fpath offset with
  | None => Err (Io "" "No such file or directory")
  | Some compressed =>
      match decompress_vec compressed with
      | Some data => Ok data
      | None => Err (Io "" "snappy: corrupt input")
      end
  end.

(** [disk::write] *)
Definition write `{Compression} (d : Disk) (fpath : FileName) (data : list byte)
  : outcome Disk :=
  compressed ← expect (compress_vec data) "Failed to compress data";
  Ok (write_uncompressed d fpath compressed).

(** [disk::remove_file] *)
Definition remove_file (d : Disk) (fpath : FileName) : outcome Disk :=
  match d !! fpath with
  | Some _ => Ok (delete fpath d)
  | None => Err (Io "" "No such file or directory")
  end.

End disk.

(** A compressor that satisfies the laws: it stores the bytes as they are and
    refuses inputs of 4 GiB or more. *)
Definition identity_compression : Compression := {|
  compress_vec data := if (N.of_nat (length data) <? u32_bound)%N then Some data else None;
  decompress_vec data := Some data;
|}.

Lemma identity_compression_laws : @CompressionLaws identity_compression.
Proof.
  split; simpl; intros data.
  - intros c. case_match; naive_solver.
  - intros H. rewrite (proj2 (N.ltb_lt _ _) H). eauto.
Qed.

(** A file written with [disk::write] reads back as the data that was
    written, and writing it leaves every other file as it was. *)
Theorem disk_write_read `{CompressionLaws} d fpath data :
  (N.of_nat (length data) < u32_bound)%N →
  ∃ d', disk.write d fpath data = Ok d' ∧ disk.read d' fpath 0 = Ok data ∧
    ∀ f, f ≠ fpath → disk.read d' f 0 = disk.read d f 0.
Proof.
  intros Hlen. destruct (compress_total data Hlen) as [c Hc].
  unfold disk.write. rewrite Hc. simpl. eexists; split; [done|].
  unfold disk.read, disk.read_uncompressed, disk.write_uncompressed. split.
  - rewrite lookup_insert_eq. simpl. by rewrite drop_0, (decompress_compress _ _ Hc).
  - intros f Hf. by rewrite lookup_insert_ne.
Qed.

Lemma disk_write_read_witness :
  ∃ d', @disk.write identity_compression ∅ (DataFile 7) [x01; x02] = Ok d' ∧
    @disk.read identity_compression d' (DataFile 7) 0 = Ok [x01; x02] ∧
    ∀ f, f ≠ DataFile 7 →
      @disk.read identity_compression d' f 0 = @disk.read identity_compression ∅ f 0.
Proof.
  apply (@disk_write_read identity_compression identity_compression_laws).
  vm_compute. reflexivity.
Defined.
