(* ===== verification/Wal.v ===== *)
(** * The write-ahead log on disk (src/src/wal)

    The log is one sequence of encoded entries cut into page files of
    [PAGE_SIZE] bytes.  Here: the encoding of entries ([WriteAheadLog::store]),
    the writer's file operations ([WalWriter]) and the recovery ([WalReader]).
    The positions shared between the tasks ([LogStatus]) are in [WalStatus].

    [io] selects the code the feature flags select: with [StdFs] (default) the
    writer writes at the cursor of the open file, with [AsyncIo] ([tokio-uring],
    [monoio]) at an explicit file offset. *)

From stdpp Require Import base list gmap strings.
From Stdlib Require Import Strings.Byte NArith Lia.
From S2P Require Import Prelude WriteBatch Memtable Disk.

Local Open Scope nat_scope.

(** [PAGE_SIZE] (src/src/wal/mod.rs) *)
Definition PAGE_SIZE : nat := N.to_nat 4096.
#[global] Opaque PAGE_SIZE.

(** [enum LogEntry] *)
Inductive LogEntry :=
| LWrite (op : WriteOp)
| LDeleteBatch (page_id offset : N)
| LDeleteValue (page_id offset : N).

(** [enum LogEntryType], with its discriminants. *)
Inductive LogEntryType := TyWrite | TyDeleteValue | TyDeleteBatch.

Module LogEntryType.

Definition as_u8 (t : LogEntryType) : N :=
  match t with TyWrite => 0 | TyDeleteValue => 1 | TyDeleteBatch => 2 end.

(** [impl TryFrom<u8> for LogEntryType] *)
Definition try_from (val : N) : option LogEntryType :=
  List.find (λ option, (val =? as_u8 option)%N) [TyWrite; TyDeleteValue; TyDeleteBatch].

End LogEntryType.

Module LogEntry.

(** [LogEntry::get_type] *)
Definition get_type (e : LogEntry) : LogEntryType :=
  match e with
  | LWrite _ => TyWrite
  | LDeleteValue _ _ => TyDeleteValue
  | LDeleteBatch _ _ => TyDeleteBatch
  end.

(** The loop body of [WriteAheadLog::store]: the bytes of one entry. *)
Definition encode (e : LogEntry) : list byte :=
  let data := [byte_of_N (LogEntryType.as_u8 (get_type e))] in
  match e with
  | LWrite op =>
      data ++ le_bytes 1 (WriteOp.get_type op) ++ le_bytes 8 (WriteOp.get_key_length op)
        ++ WriteOp.get_key op
        ++ match op with
           | Put _ value => le_bytes 8 (WriteOp.get_value_length op) ++ value
           | Delete _ => []
           end
  | LDeleteValue page_id offset | LDeleteBatch page_id offset =>
      data ++ le_bytes 8 page_id ++ le_bytes 2 offset
  end.

End LogEntry.

(** The two code paths of [write_all] the feature flags select. *)
Inductive IoMode := StdFs | AsyncIo.

(** [File]: the page it is open on and its cursor. *)
Record File := mkFile { file_pos : nat; cursor : nat }.

(** The contents of a file after [data] has been written at [pos]. *)
Definition write_at (content : list byte) (pos : nat) (data : list byte) : list byte :=
  take pos content ++ replicate (pos - length content) x00 ++ data
    ++ drop (pos + length data) content.

Module WalWriter.

(** [struct WalWriter] (its [params] only name the directory). *)
Record WalWriter := mkWriter { log_file : File; position : nat }.

(** [WalWriter::create_file] *)
Definition create_file (d : Disk) (fpos : nat) : Disk * File :=
  (disk.write_uncompressed d (LogFile fpos) [], mkFile fpos 0).

(** [WalWriter::open_file] *)
Definition open_file (d : Disk) (fpos : nat) : outcome File :=
  match d !! LogFile fpos with
  | Some _ => Ok (mkFile fpos 0)
  | None => Err (Io "" "No such file or directory")
  end.

(** [WalWriter::new] *)
Definition new (d : Disk) : Disk * WalWriter :=
  let '(d', f) := create_file d 0 in (d', {| log_file := f; position := 0 |}).

(** [WalWriter::continue_from] *)
Definition continue_from (d : Disk) (position : nat) : outcome (Disk * WalWriter) :=
  let fpos := position / PAGE_SIZE in
  if position mod PAGE_SIZE =? 0 then
    let '(d', f) := create_file d fpos in
    Ok (d', {| log_file := f; position := position |})
  else
    match open_file d fpos with
    | Ok f => Ok (d, {| log_file := f; position := position |})
    | _ => Panic "Failed to open WAL file in directory"
    end.

(** The [File::write_all] / [write_all_at] of one chunk. *)
Definition write_chunk (io : IoMode) (d : Disk) (f : File) (file_offset : nat)
    (chunk : list byte) : Disk * File :=
  let pos := match io with StdFs => f.(cursor) | AsyncIo => file_offset end in
  (alter (λ content, write_at content pos chunk) (LogFile f.(file_pos)) d,
   match io with
   | StdFs => mkFile f.(file_pos) (f.(cursor) + length chunk)
   | AsyncIo => f
   end).

(** [WalWriter::write_all], from [buf_pos] on. *)
Fixpoint write_all (fuel : nat) (io : IoMode) (d : Disk) (w : WalWriter)
    (data : list byte) (buf_pos : nat) : outcome (Disk * WalWriter) :=
  if negb (buf_pos <? length data) then Ok (d, w) else
  match fuel with
  | O => OutOfFuel
  | S fuel' =>
      let file_offset := w.(position) mod PAGE_SIZE in
      _ ← assert_that (file_offset <? PAGE_SIZE) "file_offset < PAGE_SIZE";
      let page_remaining := PAGE_SIZE - file_offset in
      let buffer_remaining := length data - buf_pos in
      let write_len := Nat.min buffer_remaining page_remaining in
      _ ← assert_that (0 <? write_len) "write_len > 0";
      to_write ← slice data buf_pos (buf_pos + write_len);
      let '(d1, f1) := write_chunk io d w.(log_file) file_offset to_write in
      let buf_pos := buf_pos + write_len in
      let position := w.(position) + write_len in
      let file_offset := file_offset + write_len in
      _ ← assert_that (file_offset <=? PAGE_SIZE) "file_offset <= PAGE_SIZE";
      let '(d2, f2) := if file_offset =? PAGE_SIZE
                       then create_file d1 (position / PAGE_SIZE) else (d1, f1) in
      write_all fuel' io d2 {| log_file := f2; position := position |} data buf_pos
  end.

(** The loop of [update_log] that writes the buffers taken from the queue. *)
Fixpoint write_queue (io : IoMode) (d : Disk) (w : WalWriter) (queue : list (list byte))
  : outcome (Disk * WalWriter) :=
  match queue with
  | [] => Ok (d, w)
  | buf :: queue' =>
      '(d', w') ← write_all (length buf) io d w buf 0;
      write_queue io d' w' queue'
  end.

(** [WalWriter::set_offset]: removes the page files in
    [old_offset / PAGE_SIZE .. new_offset / PAGE_SIZE]. *)
Fixpoint remove_pages (d : Disk) (fpos : nat) (n : nat) : outcome Disk :=
  match n with
  | O => Ok d
  | S n' => d' ← disk.remove_file d (LogFile fpos); remove_pages d' (S fpos) n'
  end.

Definition set_offset (d : Disk) (new_offset old_offset : nat) : outcome Disk :=
  let old_file_pos := old_offset / PAGE_SIZE in
  let new_file_pos := new_offset / PAGE_SIZE in
  remove_pages d old_file_pos (new_file_pos - old_file_pos).

End WalWriter.

Module WalReader.

(** [struct WalReader] *)
Record WalReader := mkReader { position : nat; current_page : list byte }.

(** [struct RecoveryResult] *)
Record RecoveryResult := mkResult { new_position : nat; entries_recovered : nat }.

(** [WalReader::new] *)
Definition new (d : Disk) (start_position : nat) : outcome WalReader :=
  let fpos := start_position / PAGE_SIZE in
  match disk.read_uncompressed d (LogFile fpos) 0 with
  | Some page => Ok {| position := start_position; current_page := page |}
  | None => Err (Io "Failed to open WAL file" "No such file or directory")
  end.

(** The [while] loop of [WalReader::read_from_log]. *)
Fixpoint read_loop (fuel : nat) (d : Disk) (r : WalReader) (out : list byte)
    (buffer_pos : nat) (maybe : bool) : outcome (bool * list byte * WalReader) :=
  let buffer_len := length out in
  if negb (buffer_pos <? buffer_len) then Ok (true, out, r) else
  match fuel with
  | O => OutOfFuel
  | S fuel' =>
      let offset := r.(position) mod PAGE_SIZE in
      _ ← assert_that (offset <=? length r.(current_page)) "Invalid offset. Page too small?";
      let file_remaining := length r.(current_page) - offset in
      let buffer_remaining := buffer_len - buffer_pos in
      let len := Nat.min buffer_remaining file_remaining in
      chunk ← slice r.(current_page) offset (offset + len);
      out ← overwrite out buffer_pos chunk;
      let buffer_pos := buffer_pos + len in
      let position := r.(position) + len in
      if (len =? 0) && negb (position mod PAGE_SIZE =? 0) then
        _ ← assert_that (length r.(current_page) <? PAGE_SIZE)
              "self.current_page.len() < PAGE_SIZE";
        Ok (false, out, r)
      else if position mod PAGE_SIZE =? 0 then
        match disk.read_uncompressed d (LogFile (position / PAGE_SIZE)) 0 with
        | Some data =>
            read_loop fuel' d {| position := position; current_page := data |}
              out buffer_pos maybe
        | None =>
            if maybe
            then Ok (false, out, {| position := position; current_page := r.(current_page) |})
            else Err (Io "Failed to open WAL file" "No such file or directory")
        end
      else
        read_loop fuel' d {| position := position; current_page := r.(current_page) |}
          out buffer_pos maybe
  end.

(** [WalReader::read_from_log] into a buffer of [n] zero bytes. *)
Definition read_from_log (fuel : nat) (d : Disk) (r : WalReader) (n : nat) (maybe : bool)
  : outcome (bool * list byte * WalReader) :=
  _ ← assert_that (0 <? n) "buffer_len > 0";
  read_loop fuel d r (replicate n x00) 0 maybe.

(** [WalReader::read_value] of a [k]-byte integer: the success flag is dropped. *)
Definition read_value (fuel : nat) (d : Disk) (r : WalReader) (k : nat)
  : outcome (N * WalReader) :=
  '(_, data, r) ← read_from_log fuel d r k false;
  Ok (le_val data, r).

(** [WalReader::parse_write_entry] *)
Definition parse_write_entry (fuel : nat) (d : Disk) (r : WalReader)
    (memtable : Memtable.Memtable) : outcome (WalReader * Memtable.Memtable) :=
  '(op_type, r) ← read_value fuel d r 1;
  '(key_len, r) ← read_value fuel d r 8;
  '(_, key, r) ← read_from_log fuel d r (N.to_nat key_len) false;
  if (op_type =? WriteOp.PUT_OP)%N then
    '(val_len, r) ← read_value fuel d r 8;
    '(_, value, r) ← read_from_log fuel d r (N.to_nat val_len) false;
    memtable ← Memtable.put memtable key value;
    Ok (r, memtable)
  else if (op_type =? WriteOp.DELETE_OP)%N then
    memtable ← Memtable.delete memtable key;
    Ok (r, memtable)
  else Panic "Unexpected op type!".

(** [WalReader::run] (without [wisckey]); [fuel] bounds the number of entries
    and the steps of one read. *)
Fixpoint run (fuel : nat) (rfuel : nat) (d : Disk) (r : WalReader)
    (memtable : Memtable.Memtable) (entries_recovered : nat)
  : outcome (RecoveryResult * WalReader * Memtable.Memtable) :=
  match fuel with
  | O => OutOfFuel
  | S fuel' =>
      '(success, log_type, r) ← read_from_log rfuel d r 1 true;
      if negb success then
        Ok ({| new_position := r.(position); entries_recovered := entries_recovered |},
            r, memtable)
      else if (le_val log_type =? LogEntryType.as_u8 TyWrite)%N then
        '(r, memtable) ← parse_write_entry rfuel d r memtable;
        run fuel' rfuel d r memtable (entries_recovered + 1)
      else Panic "Unexpected log entry type!"
  end.

End WalReader.

(** ** Specification *)

(** Page [i] of the log [L]. *)
Definition page (L : list byte) (i : nat) : list byte :=
  take PAGE_SIZE (drop (i * PAGE_SIZE) L).

(** The page files from number [lo] on hold the log [L]; the last one, not
    full and possibly empty, exists too. *)
Definition log_on_disk (d : Disk) (lo : nat) (L : list byte) : Prop :=
  ∀ i, lo <= i → i * PAGE_SIZE <= length L → d !! LogFile i = Some (page L i).

(** The files that are not part of the log. *)
Definition same_other_files (d d' : Disk) : Prop :=
  ∀ f, (∀ i, f ≠ LogFile i) → d' !! f = d !! f.

(** The writer stands at the end of the log [L] on disk. *)
Record writer_at (io : IoMode) (d : Disk) (lo : nat) (L : list byte)
    (w : WalWriter.WalWriter) : Prop := {
  wa_disk : log_on_disk d lo L;
  wa_lo : lo * PAGE_SIZE <= length L;
  wa_position : w.(WalWriter.position) = length L;
  wa_file : w.(WalWriter.log_file).(file_pos) = length L / PAGE_SIZE;
  wa_cursor : io = StdFs → w.(WalWriter.log_file).(cursor) = length L mod PAGE_SIZE;
}.

(** The reader stands at position [p] of the log [L]. *)
Record reader_at (L : list byte) (p : nat) (r : WalReader.WalReader) : Prop := {
  ra_position : r.(WalReader.position) = p;
  ra_bound : p <= length L;
  ra_page : r.(WalReader.current_page) = page L (p / PAGE_SIZE);
}.

(** The entries whose encoding the reader accepts: keys, and values of puts,
    are not empty and their length fits in 64 bits. *)
Definition readable (op : WriteOp) : Prop :=
  match op with
  | Put key value => 0 < length key ∧ (N.of_nat (length key) < u64_bound)%N
      ∧ 0 < length value ∧ (N.of_nat (length value) < u64_bound)%N
  | Delete key => 0 < length key ∧ (N.of_nat (length key) < u64_bound)%N
  end.

(** The bytes of a list of writes. *)
Definition encode_ops (ops : list WriteOp) : list byte :=
  concat (LogEntry.encode ∘ LWrite <$> ops).

(** Linear arithmetic on positions, pages and offsets. *)
Ltac pages := with_strategy transparent [PAGE_SIZE] unfold PAGE_SIZE in *; lia.

(** ** Pages *)

Lemma PAGE_SIZE_pos : 0 < PAGE_SIZE.
Proof. pages. Qed.

Lemma length_page L i :
  i * PAGE_SIZE <= length L → length (page L i) = Nat.min PAGE_SIZE (length L - i * PAGE_SIZE).
Proof. intros. unfold page. len. Qed.

Lemma page_app_before L c i : S i * PAGE_SIZE <= length L → page (L ++ c) i = page L i.
Proof.
  intros H. unfold page. rewrite drop_app_le by pages.
  rewrite take_app_le; [done|]. rewrite length_drop. pages.
Qed.

Lemma page_app_last L c :
  length L mod PAGE_SIZE + length c <= PAGE_SIZE →
  page (L ++ c) (length L / PAGE_SIZE) = page L (length L / PAGE_SIZE) ++ c.
Proof.
  intros H. unfold page. rewrite drop_app_le by pages.
  rewrite !take_ge; [done| |]; len || (autorewrite with lsm_len; pages).
Qed.

Lemma page_end L i : i * PAGE_SIZE = length L → page L i = [].
Proof. intros H. unfold page. rewrite H, drop_all. by rewrite take_nil. Qed.

Lemma write_at_end content data :
  write_at content (length content) data = content ++ data.
Proof.
  unfold write_at. rewrite take_ge by lia. rewrite Nat.sub_diag, drop_ge by lia.
  simpl. by rewrite app_nil_r.
Qed.

(** ** The writer *)

Lemma same_other_files_refl d : same_other_files d d.
Proof. done. Qed.

Lemma same_other_files_trans d1 d2 d3 :
  same_other_files d1 d2 → same_other_files d2 d3 → same_other_files d1 d3.
Proof. intros H1 H2 f Hf. by rewrite H2, H1. Qed.

#[export] Hint Resolve same_other_files_refl : lsm.

Lemma alter_log_same_other d g i : same_other_files d (alter g (LogFile i) d).
Proof. intros f Hf. apply lookup_alter_ne. auto. Qed.

Lemma create_file_same_other d i : same_other_files d (WalWriter.create_file d i).1.
Proof. intros f Hf. apply lookup_insert_ne. auto. Qed.

(** One chunk that stays within the current page extends the log. *)
Lemma write_chunk_extends io d lo L w chunk :
  writer_at io d lo L w →
  length L mod PAGE_SIZE + length chunk <= PAGE_SIZE →
  ∃ d' f', WalWriter.write_chunk io d w.(WalWriter.log_file) (length L mod PAGE_SIZE) chunk
             = (d', f') ∧
    same_other_files d d' ∧
    f'.(file_pos) = length L / PAGE_SIZE ∧
    (io = StdFs → f'.(cursor) = length L mod PAGE_SIZE + length chunk) ∧
    (∀ i, lo <= i → i <= length L / PAGE_SIZE → d' !! LogFile i = Some (page (L ++ chunk) i)).
Proof.
  intros [Hd Hlo Hp Hf Hc] Hfit. unfold WalWriter.write_chunk. do 2 eexists.
  split; [done|]. split_and!.
  - apply alter_log_same_other.
  - by destruct io.
  - intros ->. simpl. by rewrite Hc.
  - intros i Hi1 Hi2. rewrite Hf.
    replace (match io with StdFs => _ | AsyncIo => _ end) with (length L mod PAGE_SIZE).
    2:{ destruct io; [|done]. by rewrite Hc. }
    destruct (decide (i = length L / PAGE_SIZE)) as [->|Hne].
    + rewrite lookup_alter_eq, Hd by pages. simpl. f_equal.
      rewrite page_app_last by done.
      assert (length (page L (length L / PAGE_SIZE)) = length L mod PAGE_SIZE) as <-
        by (rewrite length_page; pages).
      apply write_at_end.
    + rewrite lookup_alter_ne by congruence. rewrite page_app_before by pages.
      apply Hd; [done|pages].
Qed.

Lemma writer_at_after_chunk io d' lo L chunk f' :
  lo * PAGE_SIZE <= length L →
  length L mod PAGE_SIZE + length chunk <= PAGE_SIZE →
  f'.(file_pos) = length L / PAGE_SIZE →
  (io = StdFs → f'.(cursor) = length L mod PAGE_SIZE + length chunk) →
  (∀ i, lo <= i → i <= length L / PAGE_SIZE → d' !! LogFile i = Some (page (L ++ chunk) i)) →
  let full := length L mod PAGE_SIZE + length chunk =? PAGE_SIZE in
  let '(d2, f2) := if full then WalWriter.create_file d' ((length L + length chunk) / PAGE_SIZE)
                   else (d', f') in
  writer_at io d2 lo (L ++ chunk)
    {| WalWriter.log_file := f2; WalWriter.position := length L + length chunk |}
  ∧ same_other_files d' d2.
Proof.
  intros Hlo Hfit Hf Hc Hd. destruct (_ =? _) eqn:E; simpl; bool_to_prop.
  - split; [|apply create_file_same_other].
    split; simpl; rewrite ?length_app; [|pages|done|done|intros _; pages].
    intros i Hi1 Hi2. rewrite length_app in Hi2. unfold disk.write_uncompressed.
    destruct (decide (i = (length L + length chunk) / PAGE_SIZE)) as [->|Hne].
    + rewrite lookup_insert_eq. rewrite page_end; [done|]. rewrite length_app. pages.
    + rewrite lookup_insert_ne by congruence. apply Hd; pages.
  - split; [|done].
    split; simpl; rewrite ?length_app; [|pages|done|rewrite Hf; pages|intros ->; rewrite Hc; [pages|done]].
    intros i Hi1 Hi2. rewrite length_app in Hi2. apply Hd; pages.
Qed.

Lemma write_all_extends io fuel d lo L w data buf_pos :
  writer_at io d lo L w → buf_pos <= length data → length data - buf_pos <= fuel →
  ∃ d' w', WalWriter.write_all fuel io d w data buf_pos = Ok (d', w') ∧
    writer_at io d' lo (L ++ drop buf_pos data) w' ∧ same_other_files d d'.
Proof.
  revert d L w buf_pos; induction fuel as [|fuel IH]; intros d L w buf_pos Hw Hb Hfuel;
    cbn [WalWriter.write_all].
  { rewrite (proj2 (Nat.ltb_ge _ _)) by lia. simpl. exists d, w.
    rewrite drop_ge, app_nil_r by lia. auto with lsm. }
  destruct (buf_pos <? length data) eqn:E; bool_to_prop; cbn [negb].
  2:{ exists d, w. rewrite drop_ge, app_nil_r by lia. auto with lsm. }
  rewrite (wa_position _ _ _ _ _ Hw).
  set (write_len := Nat.min _ _).
  assert (0 < write_len ∧ length L mod PAGE_SIZE + write_len <= PAGE_SIZE
          ∧ buf_pos + write_len <= length data) as (Hw1 & Hw2 & Hw3)
    by (subst write_len; pages).
  rewrite assert_Ok by (apply Nat.ltb_lt; pages).
  pass_assert. rewrite slice_Ok by lia. run_bind.
  set (chunk := take _ _). assert (length chunk = write_len) as Hch by (subst chunk; len).
  destruct (write_chunk_extends io d lo L w chunk Hw) as (d1 & f1 & -> & Ho & Hf & Hc & Hd);
    [lia|]. pass_assert. rewrite <-Hch.
  pose proof (writer_at_after_chunk io d1 lo L chunk f1 (wa_lo _ _ _ _ _ Hw)
                ltac:(lia) Hf Hc Hd) as Hnext. simpl in Hnext.
  destruct (if _ =? _ then _ else _) as [d2 f2]. destruct Hnext as [Hw' Ho'].
  destruct (IH d2 (L ++ chunk) _ (buf_pos + length chunk) Hw') as (d' & w' & -> & Hw'' & Ho'');
    [lia|lia|].
  exists d', w'. split_and!; [done| |by eauto using same_other_files_trans].
  replace (drop buf_pos data) with (chunk ++ drop (buf_pos + length chunk) data);
    [by rewrite app_assoc|].
  rewrite <-drop_drop, Hch. subst chunk.
  replace (buf_pos + write_len - buf_pos) with write_len by lia. apply take_drop.
Qed.

Lemma write_queue_extends io d lo L w queue :
  writer_at io d lo L w →
  ∃ d' w', WalWriter.write_queue io d w queue = Ok (d', w') ∧
    writer_at io d' lo (L ++ concat queue) w' ∧ same_other_files d d'.
Proof.
  revert d L w; induction queue as [|buf queue IH]; intros d L w Hw; simpl.
  { exists d, w. rewrite app_nil_r. auto with lsm. }
  destruct (write_all_extends io (length buf) d lo L w buf 0 Hw) as (d1 & w1 & -> & Hw1 & Ho1);
    [lia|lia|]. simpl. rewrite drop_0 in Hw1.
  destruct (IH d1 (L ++ buf) w1 Hw1) as (d2 & w2 & -> & Hw2 & Ho2).
  exists d2, w2. rewrite app_assoc. eauto using same_other_files_trans.
Qed.

(** ** The reader *)

Lemma page_suffix L p n :
  p <= length L → n <= PAGE_SIZE - p mod PAGE_SIZE →
  take n (drop (p mod PAGE_SIZE) (page L (p / PAGE_SIZE))) = take n (drop p L).
Proof.
  intros Hp Hn. unfold page.
  replace PAGE_SIZE with (p mod PAGE_SIZE + (PAGE_SIZE - p mod PAGE_SIZE)) at 2 by pages.
  rewrite <-take_drop_commute, take_take, drop_drop.
  replace (p / PAGE_SIZE * PAGE_SIZE + p mod PAGE_SIZE) with p by pages.
  f_equal. lia.
Qed.

(** How far the reader gets in one iteration of its loop. *)
Definition read_len (L : list byte) (p n : nat) : nat :=
  Nat.min n (Nat.min (PAGE_SIZE - p mod PAGE_SIZE) (length L - p)).

(** One iteration before the end of the log copies the bytes up to the end of
    the page and, there, opens the next page. *)
Lemma read_loop_step fuel d lo L r p out buffer_pos maybe :
  log_on_disk d lo L → lo <= p / PAGE_SIZE → reader_at L p r →
  buffer_pos < length out → p < length L →
  let len := read_len L p (length out - buffer_pos) in
  ∃ r', reader_at L (p + len) r' ∧
  WalReader.read_loop (S fuel) d r out buffer_pos maybe =
  WalReader.read_loop fuel d r'
    (take buffer_pos out ++ take len (drop p L) ++ drop (buffer_pos + len) out)
    (buffer_pos + len) maybe.
Proof.
  intros Hd Hlo [Hp Hb Hpg] Hbp Hlt len. cbn [WalReader.read_loop].
  rewrite (proj2 (Nat.ltb_lt buffer_pos _)) by done. cbn [negb].
  rewrite Hp, Hpg, length_page by pages.
  rewrite assert_Ok by (apply Nat.leb_le; pages).
  replace (Nat.min (length out - buffer_pos) _) with len by (unfold len, read_len; pages).
  assert (0 < len ∧ len <= length out - buffer_pos ∧ p + len <= length L ∧
          len <= PAGE_SIZE - p mod PAGE_SIZE) as (Hl1 & Hl2 & Hl3 & Hl4)
    by (unfold len, read_len; pages).
  rewrite slice_Ok by (rewrite ?length_page; pages). run_bind.
  replace (p mod PAGE_SIZE + len - p mod PAGE_SIZE) with len by lia.
  rewrite page_suffix by lia.
  assert (length (take len (drop p L)) = len) as Hcl by len.
  unfold overwrite. rewrite Hcl, (proj2 (Nat.leb_le _ _)) by lia. run_bind.
  rewrite (proj2 (Nat.eqb_neq len 0)) by lia. cbn [andb].
  destruct ((p + len) mod PAGE_SIZE =? 0) eqn:E; bool_to_prop.
  - unfold disk.read_uncompressed. rewrite Hd by pages. cbn [fmap option_fmap option_map].
    eexists; split; [|done]. split; simpl; [done|lia|by rewrite drop_0].
  - eexists; split; [|done]. split; simpl; [done|lia|]. f_equal. pages.
Qed.

Lemma read_loop_done fuel d r out buffer_pos maybe :
  length out <= buffer_pos →
  WalReader.read_loop fuel d r out buffer_pos maybe = Ok (true, out, r).
Proof.
  intros H. destruct fuel; cbn [WalReader.read_loop];
    by rewrite (proj2 (Nat.ltb_ge _ _)) by lia.
Qed.

Lemma read_loop_full fuel d lo L r p out buffer_pos maybe :
  log_on_disk d lo L → lo <= p / PAGE_SIZE → reader_at L p r →
  buffer_pos <= length out → length out - buffer_pos <= fuel →
  p + (length out - buffer_pos) <= length L →
  ∃ r', WalReader.read_loop fuel d r out buffer_pos maybe =
      Ok (true, take buffer_pos out ++ take (length out - buffer_pos) (drop p L), r')
    ∧ reader_at L (p + (length out - buffer_pos)) r'.
Proof.
  revert r p out buffer_pos; induction fuel as [|fuel IH];
    intros r p out buffer_pos Hd Hlo Hr Hbp Hfuel Hin.
  { exists r. rewrite read_loop_done by lia.
    replace (length out - buffer_pos) with 0 by lia.
    by rewrite take_0, app_nil_r, take_ge, Nat.add_0_r by lia. }
  destruct (decide (buffer_pos = length out)) as [->|Hne].
  { exists r. rewrite read_loop_done, Nat.sub_diag by lia.
    by rewrite take_0, app_nil_r, take_ge, Nat.add_0_r by lia. }
  destruct (read_loop_step fuel d lo L r p out buffer_pos maybe) as (r1 & Hr1 & ->);
    [done..|lia|lia|].
  set (len := read_len _ _ _) in *.
  assert (len <= length out - buffer_pos ∧ len <= PAGE_SIZE ∧ 0 < len) as (? & ? & ?)
    by (unfold len, read_len; pages).
  set (out' := _ ++ _ ++ _).
  assert (length out' = length out) as Hlo' by (unfold out'; len).
  destruct (IH r1 (p + len) out' (buffer_pos + len)) as (r' & -> & Hr');
    [done|pages|done|lia|lia|lia|].
  rewrite Hlo' in *. exists r'. split; [|by replace (p + (length out - buffer_pos))
    with (p + len + (length out - (buffer_pos + len))) by lia].
  do 3 f_equal. unfold out'. rewrite app_assoc, take_app_length' by len.
  rewrite <-app_assoc. f_equal.
  rewrite <-drop_drop, take_take_drop. f_equal. lia.
Qed.

(** Reading past the end of a log whose last page is not full. *)
Lemma read_loop_short fuel d lo L r p out buffer_pos maybe :
  log_on_disk d lo L → lo <= p / PAGE_SIZE → reader_at L p r →
  length L mod PAGE_SIZE ≠ 0 →
  buffer_pos <= length out → length out - buffer_pos <= fuel →
  length L < p + (length out - buffer_pos) →
  ∃ r', WalReader.read_loop fuel d r out buffer_pos maybe =
      Ok (false, take buffer_pos out ++ drop p L ++ drop (buffer_pos + (length L - p)) out, r')
    ∧ reader_at L (length L) r'.
Proof.
  revert r p out buffer_pos; induction fuel as [|fuel IH];
    intros r p out buffer_pos Hd Hlo Hr Hm Hbp Hfuel Hin.
  { pose proof (ra_bound _ _ _ Hr). lia. }
  destruct (decide (p = length L)) as [->|Hne].
  - exists r. split; [|done]. destruct Hr as [Hp Hb Hpg]. cbn [WalReader.read_loop].
    rewrite (proj2 (Nat.ltb_lt buffer_pos _)) by lia. cbn [negb].
    rewrite Hp, Hpg, length_page by pages.
    rewrite assert_Ok by (apply Nat.leb_le; pages).
    replace (Nat.min (length out - buffer_pos) _) with 0 by pages.
    rewrite slice_Ok by (rewrite ?length_page; pages). run_bind.
    rewrite !Nat.add_0_r, Nat.sub_diag, take_0.
    unfold overwrite. simpl. rewrite (proj2 (Nat.leb_le _ _)) by lia. run_bind.
    rewrite (proj2 (Nat.eqb_neq _ 0)) by done. cbn [negb].
    rewrite assert_Ok by (apply Nat.ltb_lt; pages).
    by rewrite (drop_ge L), Nat.sub_diag, Nat.add_0_r by lia.
  - pose proof (ra_bound _ _ _ Hr).
    destruct (read_loop_step fuel d lo L r p out buffer_pos maybe) as (r1 & Hr1 & ->);
      [done..|lia|lia|].
    set (len := read_len _ _ _) in *.
    assert (len <= length L - p ∧ len <= length out - buffer_pos ∧ 0 < len) as (? & ? & ?)
      by (unfold len, read_len; pages).
    set (out' := _ ++ _ ++ _).
    assert (length out' = length out) as Hlo' by (unfold out'; len).
    destruct (IH r1 (p + len) out' (buffer_pos + len)) as (r' & -> & Hr');
      [done|pages|done|done|lia|lia|lia|].
    exists r'. split; [|done]. do 3 f_equal. unfold out'.
    rewrite (app_assoc (take buffer_pos out)), take_app_length' by len.
    rewrite <-(app_assoc (take buffer_pos out)). f_equal.
    rewrite app_assoc. f_equal.
    + by rewrite <-drop_drop, take_drop.
    + rewrite drop_app_ge by len. rewrite drop_drop. f_equal. len.
Qed.

(** At the end of a log that ends with a full page, the page file that follows
    is empty, and the reader opens it again and again. *)
Lemma read_loop_stalls fuel d lo L r out buffer_pos maybe :
  log_on_disk d lo L → lo <= length L / PAGE_SIZE → reader_at L (length L) r →
  length L mod PAGE_SIZE = 0 → buffer_pos < length out →
  WalReader.read_loop fuel d r out buffer_pos maybe = OutOfFuel.
Proof.
  intros Hd Hlo Hr Hm Hbp. revert r Hr; induction fuel as [|fuel IH]; intros r Hr;
    cbn [WalReader.read_loop]; rewrite (proj2 (Nat.ltb_lt buffer_pos _)) by lia; cbn [negb]; [done|].
  destruct Hr as [Hp Hb Hpg].
  assert (page L (length L / PAGE_SIZE) = []) as Hpe by (apply page_end; pages).
  rewrite Hp, Hpg, Hpe, Hm. simpl length. run_bind.
  rewrite Nat.min_0_r, !Nat.add_0_r, Hm. unfold slice. simpl.
  unfold overwrite. simpl. rewrite Nat.add_0_r, (proj2 (Nat.leb_le _ _)) by lia. run_bind.
  rewrite take_drop. unfold disk.read_uncompressed. rewrite Hd by pages. simpl.
  apply IH. split; simpl; [done|lia|by rewrite drop_0].
Qed.

(** ** Recovery *)

(** The bytes [chunk] come next at position [p] of the log. *)
Definition next_bytes (L : list byte) (p : nat) (chunk : list byte) : Prop :=
  take (length chunk) (drop p L) = chunk.

Lemma next_bytes_app L p a b :
  next_bytes L p (a ++ b) ↔ next_bytes L p a ∧ next_bytes L (p + length a) b.
Proof.
  unfold next_bytes. rewrite length_app, <-take_take_drop, drop_drop. split.
  - intros H. apply app_inj_1 in H as [H1 H2]; [done|].
    apply (f_equal length) in H. revert H. rewrite !length_app, !length_take, !length_drop.
    lia.
  - by intros [-> ->].
Qed.

Lemma next_bytes_bound L p chunk :
  next_bytes L p chunk → 0 < length chunk → p + length chunk <= length L.
Proof. unfold next_bytes. intros H. apply (f_equal length) in H. len. Qed.

Section recovery.
Context (d : Disk) (lo : nat) (L : list byte) (Hdisk : log_on_disk d lo L).
Context (fuel : nat) (Hfuel : length L <= fuel).

(** The reader stands at [p], in a page that is still on disk. *)
Definition at_pos (p : nat) (r : WalReader.WalReader) : Prop :=
  reader_at L p r ∧ lo <= p / PAGE_SIZE.

Lemma read_chunk r p chunk maybe :
  at_pos p r → next_bytes L p chunk → 0 < length chunk →
  ∃ r', WalReader.read_from_log fuel d r (length chunk) maybe = Ok (true, chunk, r')
    ∧ at_pos (p + length chunk) r'.
Proof.
  intros [Hr Hlo] Hnext Hn. unfold WalReader.read_from_log. pass_assert.
  pose proof (next_bytes_bound _ _ _ Hnext Hn).
  destruct (read_loop_full fuel d lo L r p (replicate (length chunk) x00) 0 maybe)
    as (r' & -> & Hr'); rewrite ?length_replicate in *; [done|done|done|lia|lia|lia|].
  exists r'. rewrite Nat.sub_0_r in *. rewrite Hnext. split; [done|split; [done|pages]].
Qed.

Lemma read_int r p k x :
  at_pos p r → next_bytes L p (le_bytes k x) → 0 < k → (x < 2 ^ (8 * N.of_nat k))%N →
  ∃ r', WalReader.read_value fuel d r k = Ok (x, r') ∧ at_pos (p + k) r'.
Proof.
  intros Hr Hnext Hk Hx. unfold WalReader.read_value.
  destruct (read_chunk r p (le_bytes k x) false) as (r' & E & Hr'); [done|done|len|].
  rewrite length_le_bytes in *. rewrite E. run_bind. exists r'. by rewrite le_roundtrip.
Qed.

Lemma read_usize r p n :
  at_pos p r → next_bytes L p (le_bytes 8 (as_u64 n)) → (N.of_nat n < u64_bound)%N →
  ∃ r', WalReader.read_value fuel d r 8 = Ok (N.of_nat n, r') ∧ at_pos (p + 8) r'.
Proof.
  intros Hr Hnext Hn. replace (as_u64 n) with (N.of_nat n) in Hnext
    by (symmetry; by apply N.mod_small).
  apply read_int; [done|done|lia|done].
Qed.

(** Splits what comes next into the fields of an entry. *)
Ltac split_next H :=
  repeat match type of H with
  | next_bytes _ _ (_ ++ _) =>
      let H1 := fresh "Hn" in apply next_bytes_app in H as [H1 H];
      rewrite ?length_le_bytes in H; cbn [length] in H
  end.

(** The parser reads back the operation that was encoded and applies it. *)
Lemma parse_write_entry_op r p op m :
  at_pos (p + 1) r → next_bytes L p (LogEntry.encode (LWrite op)) → readable op →
  ∃ r', WalReader.parse_write_entry fuel d r m = (m' ← Memtable.apply_op m op; Ok (r', m'))
    ∧ at_pos (p + length (LogEntry.encode (LWrite op))) r'.
Proof.
  intros Hr Hnext Hop. unfold WalReader.parse_write_entry, LogEntry.encode in *.
  destruct op as [k v|k].
  - destruct Hop as (Hk & Hk' & Hv & Hv').
    split_next Hnext.
    destruct (read_int r (p + 1) 1 WriteOp.PUT_OP) as (r1 & -> & Hr1); [done..|lia|done|].
    run_bind. destruct (read_usize r1 _ (length k) Hr1) as (r2 & -> & Hr2); [done..|].
    run_bind. rewrite Nat2N.id.
    destruct (read_chunk r2 _ k false Hr2) as (r3 & -> & Hr3); [done..|].
    run_bind. simpl (_ =? _)%N. cbv iota.
    destruct (read_usize r3 _ (length v) Hr3) as (r4 & -> & Hr4); [done..|].
    run_bind. rewrite Nat2N.id.
    destruct (read_chunk r4 _ v false Hr4) as (r5 & -> & Hr5); [done..|].
    run_bind. exists r5. split; [done|].
    autorewrite with lsm_len. simpl length. by rewrite !Nat.add_assoc in *.
  - destruct Hop as (Hk & Hk'). rewrite app_nil_r in *.
    split_next Hnext.
    destruct (read_int r (p + 1) 1 WriteOp.DELETE_OP) as (r1 & -> & Hr1); [done..|lia|done|].
    run_bind. destruct (read_usize r1 _ (length k) Hr1) as (r2 & -> & Hr2); [done..|].
    run_bind. rewrite Nat2N.id.
    destruct (read_chunk r2 _ k false Hr2) as (r3 & -> & Hr3); [done..|].
    run_bind. simpl (_ =? _)%N. cbv iota. exists r3. split; [done|].
    autorewrite with lsm_len. simpl length. by rewrite !Nat.add_assoc in *.
Qed.

(** One round of [run] consumes one entry. *)
Lemma run_step n r p op m cnt :
  at_pos p r → next_bytes L p (LogEntry.encode (LWrite op)) → readable op →
  ∃ r', at_pos (p + length (LogEntry.encode (LWrite op))) r' ∧
    WalReader.run (S n) fuel d r m cnt =
    (m' ← Memtable.apply_op m op; WalReader.run n fuel d r' m' (cnt + 1)).
Proof.
  intros Hr Hnext Hop. cbn [WalReader.run].
  assert (next_bytes L p [byte_of_N (LogEntryType.as_u8 TyWrite)]) as Hty.
  { unfold LogEntry.encode in Hnext. by apply next_bytes_app in Hnext as [? _]. }
  destruct (read_chunk r p _ true Hr Hty) as (r1 & E & Hr1); [simpl; lia|].
  simpl length in E. rewrite E. run_bind. simpl (_ =? _)%N. cbv iota. cbn [negb].
  destruct (parse_write_entry_op r1 p op m) as (r2 & -> & Hr2); [done..|].
  exists r2. split; [done|]. by rewrite bind_assoc.
Qed.

Lemma encode_ops_app ops1 ops2 : encode_ops (ops1 ++ ops2) = encode_ops ops1 ++ encode_ops ops2.
Proof. unfold encode_ops. by rewrite fmap_app, concat_app. Qed.

Lemma encode_ops_cons op ops :
  encode_ops (op :: ops) = LogEntry.encode (LWrite op) ++ encode_ops ops.
Proof. done. Qed.

(** Rounds for a list of entries. *)
Lemma run_ops n r p ops m m' cnt :
  at_pos p r → next_bytes L p (encode_ops ops) → Forall readable ops →
  Memtable.apply_ops m ops = Ok m' →
  ∃ r', at_pos (p + length (encode_ops ops)) r' ∧
    WalReader.run (length ops + n) fuel d r m cnt =
    WalReader.run n fuel d r' m' (cnt + length ops).
Proof.
  revert r p m cnt; induction ops as [|op ops IH]; intros r p m cnt Hr Hnext Hops Hm.
  { simpl in *. simplify_eq. exists r. by rewrite !Nat.add_0_r. }
  rewrite encode_ops_cons in *. apply next_bytes_app in Hnext as [Hn1 Hn2].
  apply Forall_cons in Hops as [Hop Hops]. simpl in Hm. obind Hm.
  cbn [length Nat.add].
  destruct (run_step (length ops + n) r p op m cnt Hr Hn1 Hop) as (r1 & Hr1 & ->).
  rewrite E. run_bind. destruct (IH r1 _ a (cnt + 1) Hr1 Hn2 Hops Hm) as (r2 & Hr2 & ->).
  exists r2. rewrite length_app, Nat.add_assoc. split; [done|]. f_equal. simpl. lia.
Qed.

(** The last round finds the end of the log, if its last page is not full. *)
Lemma run_end n r m cnt :
  at_pos (length L) r → length L mod PAGE_SIZE ≠ 0 →
  ∃ r', WalReader.run (S n) fuel d r m cnt =
    Ok (WalReader.mkResult (length L) cnt, r', m).
Proof.
  intros [Hr Hlo] Hm. cbn [WalReader.run]. unfold WalReader.read_from_log. pass_assert.
  assert (0 < length L) by (destruct (length L); [by rewrite Nat.Div0.mod_0_l in Hm|lia]).
  destruct (read_loop_short fuel d lo L r (length L) (replicate 1 x00) 0 true)
    as (r' & -> & [Hp _ _]); simpl; [done|done|done|done|lia|lia|lia|].
  exists r'. by rewrite Hp.
Qed.

Lemma run_stalls n r m cnt :
  at_pos (length L) r → length L mod PAGE_SIZE = 0 →
  WalReader.run n fuel d r m cnt = OutOfFuel.
Proof.
  intros [Hr Hlo] Hm. destruct n as [|n]; [done|]. cbn [WalReader.run].
  unfold WalReader.read_from_log. pass_assert.
  by rewrite (read_loop_stalls fuel d lo L r) by (done || simpl; lia).
Qed.

End recovery.

(** ** The log as a whole *)

Lemma writer_new_at io d :
  let '(d', w) := WalWriter.new d in writer_at io d' 0 [] w ∧ same_other_files d d'.
Proof.
  simpl. split; [|apply create_file_same_other]. split; simpl; [|lia|done|done|done].
  intros i _ Hi. simpl in Hi. assert (i = 0) as -> by pages.
  unfold disk.write_uncompressed. rewrite lookup_insert_eq. by rewrite page_end.
Qed.

(** Dropping the pages below the flush offset keeps the rest of the log. *)
Lemma remove_pages_keeps d lo n L :
  log_on_disk d lo L → (lo + n) * PAGE_SIZE <= length L →
  ∃ d', WalWriter.remove_pages d lo n = Ok d' ∧ log_on_disk d' (lo + n) L ∧
    same_other_files d d'.
Proof.
  revert d lo; induction n as [|n IH]; intros d lo Hd Hn; simpl.
  { exists d. rewrite Nat.add_0_r. auto with lsm. }
  unfold disk.remove_file. rewrite (Hd lo) by pages. simpl.
  destruct (IH (delete (LogFile lo) d) (S lo)) as (d' & -> & Hd' & Ho); [|pages|].
  { intros i Hi Hi'. rewrite lookup_delete_ne by (intros [=]; lia). apply Hd; lia. }
  exists d'. split_and!; [done|by replace (lo + S n) with (S lo + n) by lia|].
  intros f Hf. rewrite (Ho f Hf). by apply lookup_delete_ne.
Qed.

Lemma set_offset_keeps d lo L new_offset old_offset :
  log_on_disk d lo L → old_offset / PAGE_SIZE = lo → old_offset <= new_offset <= length L →
  ∃ d', WalWriter.set_offset d new_offset old_offset = Ok d' ∧
    log_on_disk d' (new_offset / PAGE_SIZE) L ∧ same_other_files d d'.
Proof.
  intros Hd <- Hle. unfold WalWriter.set_offset.
  destruct (remove_pages_keeps d (old_offset / PAGE_SIZE)
    (new_offset / PAGE_SIZE - old_offset / PAGE_SIZE) L) as (d' & -> & Hd' & Ho); [done|pages|].
  exists d'. split_and!; [done| |done].
  by replace (new_offset / PAGE_SIZE) with
    (old_offset / PAGE_SIZE + (new_offset / PAGE_SIZE - old_offset / PAGE_SIZE)) by pages.
Qed.

Lemma reader_new_at d lo L p :
  log_on_disk d lo L → lo <= p / PAGE_SIZE → p <= length L →
  ∃ r, WalReader.new d p = Ok r ∧ at_pos lo L p r.
Proof.
  intros Hd Hlo Hp. unfold WalReader.new, disk.read_uncompressed.
  rewrite Hd by pages. simpl. eexists; split; [done|].
  split; [split; simpl; [done|done|by rewrite drop_0]|done].
Qed.

(** The buffers [WriteAheadLog::store] queues for a batch of writes. *)
Definition store_writes (ops : list WriteOp) : list (list byte) :=
  LogEntry.encode ∘ LWrite <$> ops.

(** The log file a writer leaves behind: a fresh log, [ops1 ++ ops2] written
    to it, and the pages before the end of [ops1] removed. *)
Definition written_log (io : IoMode) (d : Disk) (ops1 ops2 : list WriteOp) : outcome Disk :=
  let '(d0, w0) := WalWriter.new d in
  '(d1, _) ← WalWriter.write_queue io d0 w0 (store_writes (ops1 ++ ops2));
  WalWriter.set_offset d1 (length (encode_ops ops1)) 0.

(** What recovery does with it: a reader opened at the end of [ops1]. *)
Definition recover (fuel rfuel : nat) (d : Disk) (start : nat) (m : Memtable.Memtable)
  : outcome (WalReader.RecoveryResult * Memtable.Memtable) :=
  r ← WalReader.new d start;
  '(res, _, m') ← WalReader.run fuel rfuel d r m 0;
  Ok (res, m').

Lemma written_log_on_disk io d ops1 ops2 :
  ∃ d', written_log io d ops1 ops2 = Ok d' ∧
    log_on_disk d' (length (encode_ops ops1) / PAGE_SIZE) (encode_ops (ops1 ++ ops2)) ∧
    same_other_files d d'.
Proof.
  unfold written_log. pose proof (writer_new_at io d) as H.
  destruct (WalWriter.new d) as [d0 w0]. destruct H as [Hw Ho0].
  destruct (write_queue_extends io d0 0 [] w0 (store_writes (ops1 ++ ops2)) Hw)
    as (d1 & w1 & -> & Hw1 & Ho1). run_bind.
  destruct (set_offset_keeps d1 0 (encode_ops (ops1 ++ ops2)) (length (encode_ops ops1)) 0)
    as (d2 & -> & Hd2 & Ho2); [by apply (wa_disk _ _ _ _ _ Hw1)|by rewrite Nat.Div0.div_0_l| |].
  { rewrite encode_ops_app. len. }
  exists d2. eauto using same_other_files_trans.
Qed.

Lemma next_bytes_suffix L1 L2 : next_bytes (L1 ++ L2) (length L1) L2.
Proof. unfold next_bytes. by rewrite drop_app_length, take_ge. Qed.

(** C13: crash recovery returns exactly the unflushed writes.  Whatever was
    written to a fresh log, and with the page files below the flush offset
    removed, a reader started at that offset re-applies the writes behind it,
    in order, to the memtable and reports the end of the log and the number of
    entries, provided the keys and values are not empty and the log does not
    end on a page boundary. *)
Theorem wal_recovery io d ops1 ops2 m m' fuel rfuel :
  Forall readable ops2 →
  length (encode_ops (ops1 ++ ops2)) mod PAGE_SIZE ≠ 0 →
  Memtable.apply_ops m ops2 = Ok m' →
  length ops2 < fuel → length (encode_ops (ops1 ++ ops2)) <= rfuel →
  ∃ d', written_log io d ops1 ops2 = Ok d' ∧
    recover fuel rfuel d' (length (encode_ops ops1)) m =
      Ok (WalReader.mkResult (length (encode_ops (ops1 ++ ops2))) (length ops2), m').
Proof.
  intros Hops Hmod Hm Hf Hrf.
  destruct (written_log_on_disk io d ops1 ops2) as (d' & -> & Hd & _). exists d'.
  split; [done|]. unfold recover. set (L := encode_ops (ops1 ++ ops2)) in *.
  assert (L = encode_ops ops1 ++ encode_ops ops2) as HL by apply encode_ops_app.
  destruct (reader_new_at d' _ L _ Hd ltac:(reflexivity)) as (r & -> & Hr); [rewrite HL; len|].
  run_bind. replace fuel with (length ops2 + S (fuel - length ops2 - 1)) by lia.
  destruct (run_ops d' _ L Hd rfuel Hrf (S (fuel - length ops2 - 1)) r _ ops2 m m' 0 Hr)
    as (r1 & Hr1 & ->); [rewrite HL; apply next_bytes_suffix|done|done|].
  replace (length (encode_ops ops1) + length (encode_ops ops2)) with (length L) in Hr1
    by (rewrite HL; len).
  destruct (run_end d' _ L Hd rfuel Hrf (fuel - length ops2 - 1) r1 m' (0 + length ops2) Hr1 Hmod)
    as (r2 & ->). done.
Qed.

(** C34: recovery does not return when the log ends on a page boundary, the log
    of a database that was never written to included: the writer has already
    created the next page file, it is empty, and the reader opens it again and
    again.  However much fuel it gets, the model of the reader uses it up. *)
Theorem wal_recovery_diverges_at_page_end io d ops1 ops2 m m' fuel rfuel :
  Forall readable ops2 →
  length (encode_ops (ops1 ++ ops2)) mod PAGE_SIZE = 0 →
  Memtable.apply_ops m ops2 = Ok m' →
  length (encode_ops (ops1 ++ ops2)) <= rfuel →
  ∃ d', written_log io d ops1 ops2 = Ok d' ∧
    recover (length ops2 + fuel) rfuel d' (length (encode_ops ops1)) m = OutOfFuel.
Proof.
  intros Hops Hmod Hm Hrf.
  destruct (written_log_on_disk io d ops1 ops2) as (d' & -> & Hd & _). exists d'.
  split; [done|]. unfold recover. set (L := encode_ops (ops1 ++ ops2)) in *.
  assert (L = encode_ops ops1 ++ encode_ops ops2) as HL by apply encode_ops_app.
  destruct (reader_new_at d' _ L _ Hd ltac:(reflexivity)) as (r & -> & Hr); [rewrite HL; len|].
  run_bind.
  destruct (run_ops d' _ L Hd rfuel Hrf fuel r _ ops2 m m' 0 Hr)
    as (r1 & Hr1 & ->); [rewrite HL; apply next_bytes_suffix|done|done|].
  replace (length (encode_ops ops1) + length (encode_ops ops2)) with (length L) in Hr1
    by (rewrite HL; len).
  by rewrite (run_stalls d' _ L Hd rfuel Hrf fuel r1) by done.
Qed.

(** The log is a concatenation of records the reader gets through, then a
    record that it does not. *)
Lemma run_at_suffix d lo L ops rest p m m' n rfuel r :
  log_on_disk d lo L → length L <= rfuel → at_pos lo L p r →
  drop p L = encode_ops ops ++ rest → Forall readable ops →
  Memtable.apply_ops m ops = Ok m' →
  ∃ r', at_pos lo L (p + length (encode_ops ops)) r' ∧
    drop (p + length (encode_ops ops)) L = rest ∧
    WalReader.run (length ops + n) rfuel d r m 0 = WalReader.run n rfuel d r' m' (length ops).
Proof.
  intros Hd Hrf Hr Hdrop Hops Hm.
  destruct (run_ops d lo L Hd rfuel Hrf n r p ops m m' 0 Hr) as (r' & Hr' & ->); [|done|done|].
  { unfold next_bytes. by rewrite Hdrop, take_app_length. }
  exists r'. split_and!; [done| |done]. by rewrite <-drop_drop, Hdrop, drop_app_length.
Qed.

(** An operation the reader refuses: the key, or the value of a put, is empty. *)
Definition has_empty_part (op : WriteOp) : Prop :=
  match op with
  | Put key value => (length key = 0 ∨ length value = 0)
      ∧ (N.of_nat (length key) < u64_bound)%N
  | Delete key => length key = 0
  end.

Lemma read_nothing fuel d r maybe :
  WalReader.read_from_log fuel d r 0 maybe = Panic "buffer_len > 0".
Proof. done. Qed.

Lemma parse_empty_part d lo L rfuel r p op m :
  log_on_disk d lo L → length L <= rfuel → at_pos lo L (p + 1) r →
  next_bytes L p (LogEntry.encode (LWrite op)) → has_empty_part op →
  WalReader.parse_write_entry rfuel d r m = Panic "buffer_len > 0".
Proof.
  intros Hd Hrf Hr Hnext Hop. unfold WalReader.parse_write_entry.
  assert (∃ k rest, LogEntry.encode (LWrite op) =
    [byte_of_N 0] ++ le_bytes 1 (WriteOp.get_type op) ++ le_bytes 8 (as_u64 (length k)) ++ k ++ rest
    ∧ (N.of_nat (length k) < u64_bound)%N
    ∧ (length k = 0 ∨ ∃ k', op = Put k' [] ∧ rest = le_bytes 8 (as_u64 0))
    ∧ (WriteOp.get_type op < 256)%N) as (k & rest & Henc & Hk & Hcase & Hty).
  { destruct op as [k v|k].
    - destruct Hop as [[H|H] Hb]; exists k; eexists; split; try done; split_and!; try done; auto.
      right. destruct v; [|done]. by rewrite app_nil_r; eauto.
    - exists k, []. split; [done|]. simpl in Hop. rewrite Hop. split_and!; auto; done. }
  rewrite Henc in Hnext. repeat (apply next_bytes_app in Hnext as [? Hnext]).
  rewrite ?length_le_bytes in *. simpl (length [_]) in *.
  destruct (read_int d lo L Hd rfuel Hrf r (p + 1) 1 (WriteOp.get_type op))
    as (r1 & -> & Hr1); [done..|lia|done|]. run_bind.
  destruct (read_usize d lo L Hd rfuel Hrf r1 _ (length k) Hr1) as (r2 & -> & Hr2); [done..|].
  run_bind. rewrite Nat2N.id.
  destruct (decide (length k = 0)) as [->|Hne]; [by rewrite read_nothing|].
  destruct Hcase as [?|(k' & -> & ->)]; [done|].
  destruct (read_chunk d lo L Hd rfuel Hrf r2 _ k false Hr2) as (r3 & -> & Hr3); [done|lia|].
  run_bind. simpl (_ =? _)%N. cbv iota.
  destruct (read_usize d lo L Hd rfuel Hrf r3 _ 0 Hr3) as (r4 & -> & Hr4); [done..|].
  run_bind. by rewrite read_nothing.
Qed.

(** A database that was given an empty key, or an empty value, cannot be
    reopened: the writer logs the operation like any other, and recovery panics
    on it ([assert!(buffer_len > 0)]) after it has replayed what came before. *)
Theorem wal_recovery_panics_on_empty io d ops1 op ops2 m m' fuel rfuel :
  Forall readable ops1 → has_empty_part op →
  Memtable.apply_ops m ops1 = Ok m' → length ops1 < fuel →
  length (encode_ops (ops1 ++ op :: ops2)) <= rfuel →
  ∃ d', written_log io d [] (ops1 ++ op :: ops2) = Ok d' ∧
    recover fuel rfuel d' 0 m = Panic "buffer_len > 0".
Proof.
  intros Hops Hop Hm Hf Hrf.
  destruct (written_log_on_disk io d [] (ops1 ++ op :: ops2)) as (d' & -> & Hd & _).
  exists d'. split; [done|]. unfold recover. simpl app in *.
  set (L := encode_ops (ops1 ++ op :: ops2)) in *.
  destruct (reader_new_at d' _ L 0 Hd ltac:(reflexivity)) as (r & -> & Hr); [lia|].
  run_bind. replace fuel with (length ops1 + S (fuel - length ops1 - 1)) by lia.
  destruct (run_at_suffix d' _ L ops1 (encode_ops (op :: ops2)) 0 m m'
    (S (fuel - length ops1 - 1)) rfuel r Hd Hrf Hr) as (r1 & Hr1 & Hrest & ->); [|done|done|].
  { unfold L. by rewrite drop_0, encode_ops_app. }
  assert (next_bytes L (0 + length (encode_ops ops1)) (LogEntry.encode (LWrite op))) as Hn.
  { unfold next_bytes. rewrite Hrest, encode_ops_cons. by rewrite take_app_length. }
  cbn [WalReader.run].
  assert (next_bytes L (0 + length (encode_ops ops1)) [byte_of_N 0]) as Hty.
  { unfold LogEntry.encode in Hn. by apply next_bytes_app in Hn as [? _]. }
  destruct (read_chunk d' _ L Hd rfuel Hrf r1 _ _ true Hr1 Hty) as (r2 & E & Hr2); [simpl; lia|].
  simpl (length [_]) in E. rewrite E. run_bind. simpl (_ =? _)%N. cbv iota. cbn [negb].
  by rewrite (parse_empty_part d' _ L rfuel r2 _ op m' Hd Hrf Hr2 Hn Hop).
Qed.

(** An entry that was torn by a crash inside its value is not dropped:
    recovery replays it with the missing bytes read as zeros. *)
Theorem wal_recovery_pads_torn_value d L k v j m m' n rfuel r p :
  log_on_disk d (p / PAGE_SIZE) L → length L mod PAGE_SIZE ≠ 0 →
  length L + length v <= rfuel →
  at_pos (p / PAGE_SIZE) L p r → readable (Put k v) → j < length v →
  drop p L = take (18 + length k + j) (LogEntry.encode (LWrite (Put k v))) →
  Memtable.apply_op m (Put k (take j v ++ replicate (length v - j) x00)) = Ok m' →
  ∃ r', WalReader.run (S (S n)) rfuel d r m 0 =
    Ok (WalReader.mkResult (length L) 1, r', m').
Proof.
  intros Hd Hmod Hrf Hr (Hk & Hk' & Hv & Hv') Hj Hdrop Hm.
  assert (length L <= rfuel) as Hrf' by lia. rename Hr into Hr0.
  assert (p <= length L) as HpL by (destruct Hr0 as [[_ ? _] _]; done).
  set (A := [byte_of_N 0] ++ le_bytes 1 WriteOp.PUT_OP ++ le_bytes 8 (as_u64 (length k))
    ++ k ++ le_bytes 8 (as_u64 (length v))).
  assert (length A = 18 + length k) as HA by (unfold A; len).
  assert (drop p L = A ++ take j v) as Hdrop'.
  { rewrite Hdrop. change (LogEntry.encode _) with ([byte_of_N 0] ++ le_bytes 1 WriteOp.PUT_OP
      ++ le_bytes 8 (as_u64 (length k)) ++ k ++ le_bytes 8 (as_u64 (length v)) ++ v).
    replace ([byte_of_N 0] ++ _) with (A ++ v) by (unfold A; by rewrite <-!app_assoc).
    rewrite take_app_ge by lia. do 2 f_equal. lia. }
  clear Hdrop. assert (length L = p + 18 + length k + j) as HLen.
  { apply (f_equal length) in Hdrop'. len. }
  assert (next_bytes L p (drop p L)) as Hnext by (unfold next_bytes; by rewrite take_ge).
  rewrite Hdrop' in Hnext. apply next_bytes_app in Hnext as [Hnext _]. unfold A in Hnext.
  repeat (apply next_bytes_app in Hnext as [? Hnext]).
  rewrite ?length_le_bytes in *. simpl (length [_]) in *.
  remember (S n) as n' eqn:Hn'. cbn [WalReader.run].
  destruct (read_chunk d _ L Hd rfuel Hrf' r _ [byte_of_N 0] true Hr0) as (r0 & E & Hr);
    [done|simpl; lia|]. simpl (length [_]) in E. rewrite E. clear E.
  run_bind. simpl (_ =? _)%N. cbv iota. cbn [negb]. unfold WalReader.parse_write_entry.
  destruct (read_int d _ L Hd rfuel Hrf' r0 _ 1 WriteOp.PUT_OP Hr) as (r1 & -> & Hr1); [done|lia|done|].
  run_bind. destruct (read_usize d _ L Hd rfuel Hrf' r1 _ (length k) Hr1) as (r2 & -> & Hr2); [done..|].
  run_bind. rewrite Nat2N.id.
  destruct (read_chunk d _ L Hd rfuel Hrf' r2 _ k false Hr2) as (r3 & -> & Hr3); [done..|].
  run_bind. simpl (_ =? _)%N. cbv iota.
  destruct (read_usize d _ L Hd rfuel Hrf' r3 _ (length v) Hr3) as (r4 & -> & Hr4); [done..|].
  run_bind. rewrite Nat2N.id. unfold WalReader.read_from_log at 1. pass_assert.
  destruct (read_loop_short rfuel d _ L r4 _ (replicate (length v) x00) 0 false
    Hd (proj2 Hr4) (proj1 Hr4) Hmod) as (r5 & -> & Hr5); [len..|].
  run_bind. rewrite take_0, Nat.add_0_l, drop_replicate. simpl app.
  replace (p + 1 + 1 + 8 + length k + 8) with (p + length A) by lia.
  replace (length v - (length L - _)) with (length v - j) by lia.
  rewrite <-drop_drop, Hdrop', drop_app_length. cbn [Memtable.apply_op] in Hm.
  rewrite Hm. run_bind. rewrite Hn'.
  apply (run_end d (p / PAGE_SIZE) L Hd rfuel Hrf'); [|done]. split; [done|pages].
Qed.

Lemma continue_from_at io d lo L :
  log_on_disk d lo L → lo * PAGE_SIZE <= length L →
  io = AsyncIo ∨ length L mod PAGE_SIZE = 0 →
  ∃ d' w, WalWriter.continue_from d (length L) = Ok (d', w) ∧ writer_at io d' lo L w ∧
    same_other_files d d'.
Proof.
  intros Hd Hlo Hio. unfold WalWriter.continue_from, WalWriter.open_file.
  destruct (_ =? _) eqn:E; bool_to_prop.
  - do 2 eexists. split; [done|]. split; [|apply create_file_same_other].
    split; simpl; [|done|done|done|by intros _; pages].
    intros i Hi1 Hi2. unfold disk.write_uncompressed.
    destruct (decide (i = length L / PAGE_SIZE)) as [->|Hne].
    + rewrite lookup_insert_eq, page_end; [done|pages].
    + rewrite lookup_insert_ne by congruence. by apply Hd.
  - destruct Hio as [->|?]; [|done]. rewrite Hd by pages.
    do 2 eexists. split; [done|]. split; [|apply same_other_files_refl]. by split.
Qed.

(** Reopening the log continues it: with the file-offset writer, or when
    the log ends on a page boundary, the writes of the new session follow those
    of the old one on disk, and no other file changes. *)
Theorem wal_continue_appends io d lo L ops :
  log_on_disk d lo L → lo * PAGE_SIZE <= length L →
  io = AsyncIo ∨ length L mod PAGE_SIZE = 0 →
  ∃ d1 w1 d2 w2, WalWriter.continue_from d (length L) = Ok (d1, w1) ∧
    WalWriter.write_queue io d1 w1 (store_writes ops) = Ok (d2, w2) ∧
    log_on_disk d2 lo (L ++ encode_ops ops) ∧
    WalWriter.position w2 = length (L ++ encode_ops ops) ∧ same_other_files d d2.
Proof.
  intros Hd Hlo Hio. destruct (continue_from_at io d lo L Hd Hlo Hio) as (d1 & w1 & E1 & Hw & Ho).
  destruct (write_queue_extends io d1 lo L w1 (store_writes ops) Hw)
    as (d2 & w2 & E2 & Hw2 & Ho2).
  exists d1, w1, d2, w2. split_and!; [done|done|apply (wa_disk _ _ _ _ _ Hw2)
    |apply (wa_position _ _ _ _ _ Hw2)|by eapply same_other_files_trans].
Qed.

(** C35: with the cursor-based writer (the default build), reopening a log that
    ends inside a page overwrites the start of that page: the file is opened
    with its cursor at 0, and what is written next replaces the bytes there
    instead of following the old ones. *)
Theorem wal_continue_overwrites_page_start d lo L data :
  log_on_disk d lo L → lo * PAGE_SIZE <= length L → length L mod PAGE_SIZE ≠ 0 →
  length L mod PAGE_SIZE + length data < PAGE_SIZE →
  ∃ w1 d2 w2, WalWriter.continue_from d (length L) = Ok (d, w1) ∧
    WalWriter.write_queue StdFs d w1 [data] = Ok (d2, w2) ∧
    d2 !! LogFile (length L / PAGE_SIZE) =
      Some (data ++ drop (length data) (page L (length L / PAGE_SIZE))).
Proof.
  intros Hd Hlo Hm Hfit. unfold WalWriter.continue_from, WalWriter.open_file.
  rewrite (proj2 (Nat.eqb_neq _ 0)) by done.
  rewrite Hd by pages. eexists. cbn [WalWriter.write_queue].
  destruct data as [|b data'] eqn:Edata.
  { do 2 eexists. split_and!; [done..|]. simpl. apply Hd; pages. }
  rewrite <-Edata in *. destruct (length data) as [|n] eqn:El; [subst; done|].
  cbn [WalWriter.write_all]. rewrite El. cbn [Nat.ltb Nat.leb negb WalWriter.position].
  rewrite Nat.sub_0_r, !Nat.add_0_l, Nat.min_l by pages.
  rewrite assert_Ok by (apply Nat.ltb_lt; pages). rewrite assert_Ok by done.
  rewrite slice_Ok by lia. rewrite drop_0, take_ge by lia. run_bind.
  cbn [WalWriter.write_chunk WalWriter.log_file cursor file_pos].
  rewrite assert_Ok by (apply Nat.leb_le; pages).
  rewrite (proj2 (Nat.eqb_neq _ PAGE_SIZE)) by pages.
  destruct n; cbn [WalWriter.write_all]; rewrite El, (proj2 (Nat.ltb_ge _ _)) by lia;
    cbn [negb mbind outcome_bind]; (do 2 eexists; split_and!; [done..|]);
    rewrite lookup_alter_eq, Hd by pages; simpl; unfold write_at;
    by rewrite take_0, El.
Qed.

(** The default build loses an acknowledged write: a log with one put is
    reopened, another put is written, and the recovery that follows finds the
    second one only. *)
Definition two_sessions (io : IoMode) (op1 op2 : WriteOp)
  : outcome (WalReader.RecoveryResult * Memtable.Memtable) :=
  d1 ← written_log io ∅ [] [op1];
  '(d2, w2) ← WalWriter.continue_from d1 (length (encode_ops [op1]));
  '(d3, _) ← WalWriter.write_queue io d2 w2 (store_writes [op2]);
  recover 10 100 d3 0 (Memtable.new 0).

(** On a concrete pair of sessions, the cursor-based writer loses the put of
    the first one, while the file-offset writer recovers both. *)
Theorem wal_reopen_loses_write :
  let a := Put [x61] [x01] in
  let b := Put [x62] [x02] in
  two_sessions StdFs a b =
    Ok (WalReader.mkResult 20 1, Memtable.mkMemtable [([x62], MValue 0 [x02])] 2 1) ∧
  two_sessions AsyncIo a b =
    Ok (WalReader.mkResult 40 2,
        Memtable.mkMemtable [([x61], MValue 0 [x01]); ([x62], MValue 1 [x02])] 4 2).
Proof. split; vm_compute; reflexivity. Qed.

(** ** Witnesses *)

Lemma wal_recovery_witness :
  ∃ d', written_log StdFs ∅ [Put [x61] [x01]] [Delete [x61]] = Ok d' ∧
    recover 3 40 d' 20 (Memtable.new 0) =
      Ok (WalReader.mkResult 31 1, Memtable.mkMemtable [([x61], MDeletion 0)] 1 1).
Proof.
  apply (wal_recovery StdFs ∅ [Put [x61] [x01]] [Delete [x61]] (Memtable.new 0)
    (Memtable.mkMemtable [([x61], MDeletion 0)] 1 1) 3 40).
  - repeat constructor.
  - vm_compute. lia.
  - reflexivity.
  - simpl. lia.
  - vm_compute. lia.
Defined.

Lemma wal_recovery_diverges_at_page_end_witness :
  ∃ d', written_log AsyncIo ∅ [] [] = Ok d' ∧
    recover 5 40 d' 0 (Memtable.new 0) = OutOfFuel.
Proof.
  apply (wal_recovery_diverges_at_page_end AsyncIo ∅ [] [] (Memtable.new 0) (Memtable.new 0) 5 40);
    [constructor|reflexivity|reflexivity|simpl; lia].
Defined.

Lemma wal_recovery_panics_on_empty_witness :
  ∃ d', written_log StdFs ∅ [] [Put [x61] []] = Ok d' ∧
    recover 5 40 d' 0 (Memtable.new 0) = Panic "buffer_len > 0".
Proof.
  apply (wal_recovery_panics_on_empty StdFs ∅ [] (Put [x61] []) [] (Memtable.new 0)
    (Memtable.new 0) 5 40);
    [constructor|split; [by right|reflexivity]|reflexivity|simpl; lia|vm_compute; lia].
Defined.

(** A log of one put whose value was torn after one of three bytes. *)
Definition torn_log : list byte :=
  take 20 (LogEntry.encode (LWrite (Put [x61] [x01; x02; x03]))).

Lemma torn_log_on_disk : log_on_disk {[ LogFile 0 := torn_log ]} 0 torn_log.
Proof.
  intros i _ Hi. simpl length in Hi. assert (i = 0) as -> by pages. vm_compute. reflexivity.
Qed.

Lemma wal_recovery_pads_torn_value_witness :
  ∃ r', WalReader.run 2 40 {[ LogFile 0 := torn_log ]} (WalReader.mkReader 0 torn_log)
      (Memtable.new 0) 0 =
    Ok (WalReader.mkResult 20 1, r',
        Memtable.mkMemtable [([x61], MValue 0 [x01; x00; x00])] 4 1).
Proof.
  apply (wal_recovery_pads_torn_value {[ LogFile 0 := torn_log ]} torn_log [x61]
    [x01; x02; x03] 1 (Memtable.new 0) _ 0 40 (WalReader.mkReader 0 torn_log) 0).
  - exact torn_log_on_disk.
  - vm_compute. lia.
  - simpl. lia.
  - split; [split; [done|simpl; lia|vm_compute; reflexivity]|vm_compute; lia].
  - repeat split; simpl; lia.
  - simpl. lia.
  - reflexivity.
  - vm_compute. reflexivity.
Defined.

Lemma wal_continue_appends_witness :
  ∃ d1 w1 d2 w2, WalWriter.continue_from {[ LogFile 0 := torn_log ]} 20 = Ok (d1, w1) ∧
    WalWriter.write_queue AsyncIo d1 w1 (store_writes [Delete [x61]]) = Ok (d2, w2) ∧
    log_on_disk d2 0 (torn_log ++ encode_ops [Delete [x61]]) ∧
    WalWriter.position w2 = 31 ∧ same_other_files {[ LogFile 0 := torn_log ]} d2.
Proof.
  apply (wal_continue_appends AsyncIo {[ LogFile 0 := torn_log ]} 0 torn_log [Delete [x61]]);
    [exact torn_log_on_disk|simpl; lia|by left].
Defined.

Lemma wal_continue_overwrites_page_start_witness :
  ∃ w1 d2 w2,
    WalWriter.continue_from {[ LogFile 0 := torn_log ]} 20 = Ok ({[ LogFile 0 := torn_log ]}, w1) ∧
    WalWriter.write_queue StdFs {[ LogFile 0 := torn_log ]} w1 [[xff]] = Ok (d2, w2) ∧
    d2 !! LogFile 0 = Some (xff :: drop 1 torn_log).
Proof.
  apply (wal_continue_overwrites_page_start {[ LogFile 0 := torn_log ]} 0 torn_log [xff]);
    [exact torn_log_on_disk|simpl; lia|vm_compute; lia|vm_compute; lia].
Defined.
