(* ===== verification/WalStatus.v ===== *)
(** * The shared state of the write-ahead log (src/src/wal/mod.rs, writer.rs)

    Client tasks queue writes, request syncs and move the offset under the lock
    of [LogStatus]; one writer task takes the queue, writes it to the page files
    without holding the lock and then publishes how far it got.  Every section
    under the lock is one definition; [step] interleaves the sections of the
    clients and of the writer.  The clients' waiting loops only read the state:
    their conditions are [store_done], [sync_done] and [set_offset_done]. *)

From stdpp Require Import base list gmap strings relations.
From Stdlib Require Import Strings.Byte NArith Lia.
From S2P Require Import Prelude WriteBatch Memtable Disk Wal.

Local Open Scope nat_scope.
Local Open Scope lsm_scope.

Module LogStatus.

(** [struct LogStatus] *)
Record LogStatus := mk {
  queue_pos : nat;
  write_pos : nat;
  sync_pos : nat;
  queue : list (list byte);
  sync_flag : bool;
  offset_pos : nat;
  flush_pos : nat;
  stop_flag : bool;
}.

(** [LogStatus::new] *)
Definition new (position start_position : nat) : LogStatus :=
  {| queue_pos := position; write_pos := position; sync_pos := position;
     flush_pos := start_position; offset_pos := start_position; queue := [];
     sync_flag := false; stop_flag := false |}.

End LogStatus.

Module WriteAheadLog.
Import LogStatus.

(** The section of [WriteAheadLog::store] that queues the encoded entries; the
    position to wait for. *)
Definition store (s : LogStatus) (writes : list (list byte)) : nat * LogStatus :=
  let end_pos := s.(queue_pos) + sum_list_with length writes in
  (end_pos,
   {| queue_pos := end_pos; write_pos := s.(write_pos); sync_pos := s.(sync_pos);
      queue := s.(queue) ++ writes; sync_flag := s.(sync_flag); offset_pos := s.(offset_pos);
      flush_pos := s.(flush_pos); stop_flag := s.(stop_flag) |}).

Definition store_done (s : LogStatus) (end_pos : nat) : bool := end_pos <=? s.(write_pos).

(** The section of [WriteAheadLog::sync] that requests a sync: the position the
    caller waits to be passed, or nothing when there is nothing to sync. *)
Definition sync (s : LogStatus) : outcome (option nat * LogStatus) :=
  if s.(sync_pos) =? s.(write_pos) then Ok (None, s) else
  _ ← assert_that (s.(sync_pos) <? s.(write_pos)) "assertion failed: lock.sync_pos < lock.write_pos";
  Ok (Some s.(sync_pos),
      {| queue_pos := s.(queue_pos); write_pos := s.(write_pos); sync_pos := s.(sync_pos);
         queue := s.(queue); sync_flag := true; offset_pos := s.(offset_pos);
         flush_pos := s.(flush_pos); stop_flag := s.(stop_flag) |}).

Definition sync_done (s : LogStatus) (last_pos : nat) : bool := last_pos <? s.(sync_pos).

(** The section of [WriteAheadLog::set_offset] that requests the cleanup. *)
Definition set_offset (s : LogStatus) (new_offset : nat) : outcome LogStatus :=
  if new_offset <=? s.(offset_pos) then Panic "Offset can only be increased!" else
  Ok {| queue_pos := s.(queue_pos); write_pos := s.(write_pos); sync_pos := s.(sync_pos);
        queue := s.(queue); sync_flag := s.(sync_flag); offset_pos := new_offset;
        flush_pos := s.(flush_pos); stop_flag := s.(stop_flag) |}.

Definition set_offset_done (s : LogStatus) (new_offset : nat) : bool :=
  new_offset <=? s.(flush_pos).

(** [WriteAheadLog::stop] *)
Definition stop (s : LogStatus) : LogStatus :=
  {| queue_pos := s.(queue_pos); write_pos := s.(write_pos); sync_pos := s.(sync_pos);
     queue := s.(queue); sync_flag := s.(sync_flag); offset_pos := s.(offset_pos);
     flush_pos := s.(flush_pos); stop_flag := true |}.

End WriteAheadLog.

Module UpdateLog.
Import LogStatus.

(** What [update_log] takes from the shared state. *)
Record Job := mkJob {
  to_write : list (list byte);
  job_sync_flag : bool;
  job_sync_pos : nat;
  new_offset : option (nat * nat);
  job_stop_flag : bool;
}.

(** The first section of [WalWriter::update_log]; without a job the writer waits
    for a notification and tries again. *)
Definition take_job (s : LogStatus) (position : nat) : outcome (option Job * LogStatus) :=
  let to_write := s.(queue) in
  new_offset ←
    (if s.(flush_pos) <? s.(offset_pos) then Ok (Some (s.(offset_pos), s.(flush_pos)))
     else _ ← assert_that (s.(offset_pos) =? s.(flush_pos)) "assertion `left == right` failed";
          Ok None);
  let taken (flag : bool) :=
    {| queue_pos := s.(queue_pos); write_pos := s.(write_pos); sync_pos := s.(sync_pos);
       queue := []; sync_flag := flag; offset_pos := s.(offset_pos);
       flush_pos := s.(flush_pos); stop_flag := s.(stop_flag) |} in
  if negb (bool_decide (to_write = [])) || bool_decide (is_Some new_offset)
     || s.(sync_flag) || s.(stop_flag)
  then
    _ ← assert_that (position =? s.(write_pos)) "assertion `left == right` failed";
    Ok (Some {| to_write := to_write; job_sync_flag := s.(sync_flag);
                job_sync_pos := s.(sync_pos); new_offset := new_offset;
                job_stop_flag := s.(stop_flag) |}, taken false)
  else
    _ ← assert_that (s.(write_pos) =? s.(queue_pos)) "assertion `left == right` failed";
    Ok (None, taken s.(sync_flag)).

(** The section that publishes the sync position, when a sync was requested and
    there was something to sync. *)
Definition publish_sync (s : LogStatus) (job : Job) (position : nat) : LogStatus :=
  if job.(job_sync_flag) && (job.(job_sync_pos) <? position) then
    {| queue_pos := s.(queue_pos); write_pos := s.(write_pos); sync_pos := position;
       queue := s.(queue); sync_flag := s.(sync_flag); offset_pos := s.(offset_pos);
       flush_pos := s.(flush_pos); stop_flag := s.(stop_flag) |}
  else s.

(** The cleanup of old page files. *)
Definition clean_up (d : Disk) (job : Job) : outcome Disk :=
  match job.(new_offset) with
  | Some (new_offset, old_offset) => WalWriter.set_offset d new_offset old_offset
  | None => Ok d
  end.

(** The last section: the new write and flush positions. *)
Definition publish (s : LogStatus) (job : Job) (position : nat) : outcome LogStatus :=
  _ ← assert_that (s.(write_pos) <=? position) "assertion failed: lock.write_pos <= self.position";
  Ok {| queue_pos := s.(queue_pos); write_pos := position; sync_pos := s.(sync_pos);
        queue := s.(queue); sync_flag := s.(sync_flag); offset_pos := s.(offset_pos);
        flush_pos := match job.(new_offset) with Some (n, _) => n | None => s.(flush_pos) end;
        stop_flag := s.(stop_flag) |}.

End UpdateLog.

(** Where the writer task stands in [update_log]. *)
Inductive Phase :=
  | Waiting
  | Writing (job : UpdateLog.Job) (rest : list (list byte))
  | Syncing (job : UpdateLog.Job)
  | Cleaning (job : UpdateLog.Job)
  | Publishing (job : UpdateLog.Job)
  | Stopped.

(** The log: the shared state, the writer task and the files. *)
Record WalState := mkWal {
  status : LogStatus.LogStatus;
  writer : WalWriter.WalWriter;
  phase : Phase;
  disk : Disk;
}.

(** The next action of the writer task; [None] when it waits or has stopped. *)
Definition writer_step (io : IoMode) (w : WalState) : outcome (option WalState) :=
  let position := w.(writer).(WalWriter.position) in
  match w.(phase) with
  | Waiting =>
      '(job, s) ← UpdateLog.take_job w.(status) position;
      Ok (match job with
          | Some job => Some (mkWal s w.(writer) (Writing job job.(UpdateLog.to_write)) w.(disk))
          | None => None
          end)
  | Writing job (buf :: rest) =>
      '(d, wr) ← WalWriter.write_all (length buf) io w.(disk) w.(writer) buf 0;
      Ok (Some (mkWal w.(status) wr (Writing job rest) d))
  | Writing job [] => Ok (Some (mkWal w.(status) w.(writer) (Syncing job) w.(disk)))
  | Syncing job =>
      Ok (Some (mkWal (UpdateLog.publish_sync w.(status) job position) w.(writer)
                  (Cleaning job) w.(disk)))
  | Cleaning job =>
      d ← UpdateLog.clean_up w.(disk) job;
      Ok (Some (mkWal w.(status) w.(writer) (Publishing job) d))
  | Publishing job =>
      s ← UpdateLog.publish w.(status) job position;
      Ok (Some (mkWal s w.(writer)
                  (if job.(UpdateLog.job_stop_flag) then Stopped else Waiting) w.(disk)))
  | Stopped => Ok None
  end.

(** The state with another shared status. *)
Definition set_status (w : WalState) (s : LogStatus.LogStatus) : WalState :=
  mkWal s w.(writer) w.(phase) w.(disk).

(** One step of the log, with all bytes that were ever queued.  Callers of
    [set_offset] pass a position that [store] returned. *)
Inductive step (io : IoMode) : WalState * list byte → WalState * list byte → Prop :=
  | step_store w stored writes :
      step io (w, stored)
        (set_status w (WriteAheadLog.store w.(status) writes).2, stored ++ concat writes)
  | step_sync w stored last_pos s :
      WriteAheadLog.sync w.(status) = Ok (last_pos, s) →
      step io (w, stored) (set_status w s, stored)
  | step_set_offset w stored offset s :
      WriteAheadLog.store_done w.(status) offset = true →
      WriteAheadLog.set_offset w.(status) offset = Ok s →
      step io (w, stored) (set_status w s, stored)
  | step_stop w stored :
      step io (w, stored) (set_status w (WriteAheadLog.stop w.(status)), stored)
  | step_writer w w' stored :
      writer_step io w = Ok (Some w') →
      step io (w, stored) (w', stored).

(** The log right after it was created or reopened, with its contents [L]. *)
Definition initial (io : IoMode) (w : WalState) (L : list byte) : Prop :=
  ∃ start, start <= length L ∧ w.(status) = LogStatus.new (length L) start ∧
    w.(phase) = Waiting ∧ writer_at io w.(disk) (start / PAGE_SIZE) L w.(writer).

Definition reachable (io : IoMode) (w : WalState) (stored : list byte) : Prop :=
  ∃ w0 L, initial io w0 L ∧ rtc (step io) (w0, L) (w, stored).

(** ** Invariant *)

(** The buffers the writer has taken and not written yet. *)
Definition in_flight (p : Phase) : list (list byte) :=
  match p with Writing _ rest => rest | _ => [] end.

(** The job the writer works on. *)
Definition current_job (p : Phase) : option UpdateLog.Job :=
  match p with
  | Writing j _ | Syncing j | Cleaning j | Publishing j => Some j
  | Waiting | Stopped => None
  end.

(** The writer has stopped, or stops after its current job. *)
Definition stopping (p : Phase) : bool :=
  match p with
  | Writing j _ | Syncing j | Cleaning j | Publishing j => j.(UpdateLog.job_stop_flag)
  | Waiting => false
  | Stopped => true
  end.

(** The first page that was not cleaned up. *)
Definition first_page (w : WalState) : nat :=
  match w.(phase) with
  | Publishing (UpdateLog.mkJob _ _ _ (Some (n, _)) _) => n
  | _ => w.(status).(LogStatus.flush_pos)
  end / PAGE_SIZE.

Record wal_inv (io : IoMode) (w : WalState) (stored L : list byte) : Prop := {
  wi_writer : writer_at io w.(disk) (first_page w) L w.(writer);
  wi_stored : stored = L ++ concat (in_flight w.(phase)) ++ concat w.(status).(LogStatus.queue);
  wi_queue_pos : w.(status).(LogStatus.queue_pos) = length stored;
  wi_write_pos : w.(status).(LogStatus.write_pos) <= length L;
  wi_waiting : current_job w.(phase) = None → w.(status).(LogStatus.write_pos) = length L;
  wi_offset : w.(status).(LogStatus.offset_pos) <= w.(status).(LogStatus.write_pos);
  wi_flush : w.(status).(LogStatus.flush_pos) <= w.(status).(LogStatus.offset_pos);
  wi_sync : w.(status).(LogStatus.sync_pos) <= length L;
  wi_stop : w.(status).(LogStatus.stop_flag) = false → stopping w.(phase) = false;
  wi_job : ∀ j n o, current_job w.(phase) = Some j → j.(UpdateLog.new_offset) = Some (n, o) →
    o = w.(status).(LogStatus.flush_pos) ∧ o < n ∧ n <= w.(status).(LogStatus.offset_pos);
}.

Lemma initial_inv io w L : initial io w L → wal_inv io w L L.
Proof.
  intros (start & Hs & Est & Eph & Hw). destruct w as [st wr ph d]. simpl in *. subst.
  split; simpl; try done; try lia. by rewrite app_nil_r.
Qed.

Lemma concat_length (bufs : list (list byte)) : length (concat bufs) = sum_list_with length bufs.
Proof. induction bufs as [|b bufs IH]; [done|]. simpl. rewrite length_app. lia. Qed.

Lemma remove_pages_ok d fpos n :
  (∀ i, fpos <= i < fpos + n → is_Some (d !! LogFile i)) →
  ∃ d', WalWriter.remove_pages d fpos n = Ok d' ∧
    (∀ i, fpos + n <= i → d' !! LogFile i = d !! LogFile i).
Proof.
  revert d fpos; induction n as [|n IH]; intros d fpos Hd; cbn [WalWriter.remove_pages]; [by exists d|].
  destruct (Hd fpos ltac:(lia)) as [c Hc]. unfold disk.remove_file. rewrite Hc. run_bind.
  destruct (IH (delete (LogFile fpos) d) (S fpos)) as (d' & E & Hd').
  { intros i Hi. rewrite lookup_delete_ne by (intros [=]; lia). apply Hd. lia. }
  exists d'. split; [exact E|]. intros i Hi. rewrite Hd' by lia.
  apply lookup_delete_ne. intros [=]; lia.
Qed.

Lemma writer_at_cleaned io d lo L w new old :
  writer_at io d lo L w → lo = old / PAGE_SIZE → old <= new → new <= length L →
  ∃ d', WalWriter.set_offset d new old = Ok d' ∧ writer_at io d' (new / PAGE_SIZE) L w.
Proof.
  intros Hw -> Hle Hnew. unfold WalWriter.set_offset.
  pose proof (Nat.Div0.div_le_mono old new PAGE_SIZE Hle).
  assert (new / PAGE_SIZE * PAGE_SIZE <= length L).
  { pose proof (Nat.Div0.mul_div_le new PAGE_SIZE). lia. }
  destruct (remove_pages_ok d (old / PAGE_SIZE) (new / PAGE_SIZE - old / PAGE_SIZE)) as (d' & E & Hd').
  { intros i Hi. rewrite (wa_disk _ _ _ _ _ Hw); [done|lia|].
    apply Nat.le_trans with (new / PAGE_SIZE * PAGE_SIZE); [apply Nat.mul_le_mono_r; lia|done]. }
  exists d'. split; [done|]. destruct Hw as [Hd Hlo Hp Hf Hc]. split; try done.
  intros i Hi Hl. rewrite Hd' by lia. apply Hd; [lia|done].
Qed.

(** What [take_job] returns when the writer waits. *)
Lemma take_job_ok s position :
  s.(LogStatus.flush_pos) <= s.(LogStatus.offset_pos) → position = s.(LogStatus.write_pos) →
  s.(LogStatus.queue_pos) = s.(LogStatus.write_pos) + length (concat s.(LogStatus.queue)) →
  ∃ r flag, UpdateLog.take_job s position = Ok (r,
      LogStatus.mk s.(LogStatus.queue_pos) s.(LogStatus.write_pos) s.(LogStatus.sync_pos) [] flag
        s.(LogStatus.offset_pos) s.(LogStatus.flush_pos) s.(LogStatus.stop_flag)) ∧
    match r with
    | Some j => flag = false ∧ j.(UpdateLog.to_write) = s.(LogStatus.queue) ∧
        j.(UpdateLog.job_stop_flag) = s.(LogStatus.stop_flag) ∧
        match j.(UpdateLog.new_offset) with
        | Some (n, o) => n = s.(LogStatus.offset_pos) ∧ o = s.(LogStatus.flush_pos) ∧ o < n
        | None => s.(LogStatus.flush_pos) = s.(LogStatus.offset_pos)
        end
    | None => s.(LogStatus.queue) = [] ∧ s.(LogStatus.sync_flag) = false ∧
        s.(LogStatus.flush_pos) = s.(LogStatus.offset_pos)
    end.
Proof.
  intros Hfl Hp Hq. unfold UpdateLog.take_job.
  assert (∃ off, (if LogStatus.flush_pos s <? LogStatus.offset_pos s
      then Ok (Some (LogStatus.offset_pos s, LogStatus.flush_pos s))
      else _ ← assert_that (LogStatus.offset_pos s =? LogStatus.flush_pos s)
             "assertion `left == right` failed"; Ok None) = Ok off ∧
    match off with
    | Some (n, o) => n = LogStatus.offset_pos s ∧ o = LogStatus.flush_pos s ∧ o < n
    | None => LogStatus.flush_pos s = LogStatus.offset_pos s
    end) as (off & -> & Hoff).
  { destruct (_ <? _) eqn:E; bool_to_prop.
    - by eexists.
    - rewrite assert_Ok by (apply Nat.eqb_eq; lia). exists None. split; [done|]. lia. }
  run_bind. destruct (negb _ || _ || _ || _) eqn:Ec.
  - rewrite assert_Ok by (by apply Nat.eqb_eq). by do 2 eexists.
  - apply orb_false_iff in Ec as [[[Ec Eo]%orb_false_iff Esy]%orb_false_iff _].
    apply negb_false_iff, bool_decide_eq_true in Ec. rewrite Ec in Hq. simpl in Hq.
    rewrite assert_Ok by (apply Nat.eqb_eq; lia). do 2 eexists. split; [done|].
    split; [done|]. split; [done|]. destruct off; [|done].
    by apply bool_decide_eq_false in Eo as [].
Qed.

Section writer.
Context (io : IoMode) (w : WalState) (stored L : list byte) (Hinv : wal_inv io w stored L).

(** The writer task never panics and keeps the invariant. *)
Lemma writer_step_ok :
  ∃ r, writer_step io w = Ok r ∧
    match r with
    | Some w' => ∃ L', wal_inv io w' stored L' ∧ L `prefix_of` L'
    | None => w.(phase) = Stopped ∨ w.(phase) = Waiting ∧ stored = L
    end.
Proof.
  pose proof Hinv as [Hw Hst Hq Hwp Hwait Hoff Hfl Hsy Hsp Hjob].
  pose proof (wa_position _ _ _ _ _ Hw) as Hpos.
  destruct w as [st wr ph d]. unfold writer_step. cbn [phase status writer disk] in *.
  destruct ph as [|j [|buf rest]|j|j|j|].
  - specialize (Hwait eq_refl). simpl in Hst.
    destruct (take_job_ok st (WalWriter.position wr)) as (r & flag & E & Hr); [lia|lia| |].
    { rewrite Hq, Hst, length_app. lia. }
    rewrite E. eexists. split; [done|]. destruct r as [j|].
    + destruct Hr as (_ & Hto & Hjs & Hr). exists L. split; [|done]. split; simpl; try done.
      * by rewrite Hto, Hst, app_nil_r.
      * intros Hsf. by rewrite Hjs.
      * intros j' n o [= <-] Hn. rewrite Hn in Hr. destruct Hr as (-> & -> & ?). lia.
    + right. split; [done|]. rewrite Hst, (proj1 Hr). by rewrite app_nil_r.
  - eexists. split; [done|]. simpl. exists L. split; [|done]. by split.
  - destruct (write_all_extends io (length buf) d (first_page (mkWal st wr (Writing j (buf :: rest)) d)) L wr buf 0 Hw)
      as (d' & wr' & E & Hw' & _); [lia|lia|].
    rewrite E. eexists. split; [done|]. rewrite drop_0 in Hw'. exists (L ++ buf).
    split; [|by exists buf]. split; simpl in *; try done; rewrite ?length_app; try lia.
    by rewrite Hst, <-!app_assoc.
  - eexists. split; [done|]. exists L. split; [|done].
    split; unfold UpdateLog.publish_sync; destruct (_ && _); simpl in *; lia || done.
  - destruct (UpdateLog.new_offset j) as [[n o]|] eqn:En.
    + destruct (Hjob j n o eq_refl En) as (Ho & Hlt & Hle). simpl in Ho, Hle.
      destruct (writer_at_cleaned io d _ L wr n o Hw) as (d' & E & Hw'); [by rewrite Ho|lia|lia|].
      unfold UpdateLog.clean_up. rewrite En, E. eexists. split; [done|]. exists L. split; [|done].
      split; simpl in *; try done. destruct j; simpl in *; by subst.
    + unfold UpdateLog.clean_up. rewrite En. eexists. split; [done|]. exists L. split; [|done].
      split; simpl in *; try done. destruct j; simpl in *; by subst.
  - unfold UpdateLog.publish. rewrite assert_Ok by (apply Nat.leb_le; lia).
    eexists. split; [done|]. exists L. split; [|done].
    destruct j as [tw sf sp off stop]. simpl in Hjob.
    assert (∀ n o, off = Some (n, o) → n <= LogStatus.offset_pos st) as Hn.
    { intros n o ->. by destruct (Hjob _ n o eq_refl eq_refl) as (_ & _ & ?). }
    split; cbn in *; try lia.
    + destruct off as [[n o]|], stop; done.
    + destruct stop; done.
    + destruct off as [[n o]|]; [by apply (Hn n o)|done].
    + intros Hsf. specialize (Hsp Hsf). by rewrite Hsp.
    + destruct stop; done.
  - eexists. split; [done|]. by left.
Qed.
End writer.

Lemma step_inv io w stored w' stored' L :
  wal_inv io w stored L → step io (w, stored) (w', stored') →
  ∃ L', wal_inv io w' stored' L'.
Proof.
  intros Hinv Hstep. pose proof Hinv as [Hw Hst Hq Hwp Hwait Hoff Hfl Hsy Hsp Hjob].
  inversion Hstep as [? ? writes|? ? last s Hs|? ? off s Hd Hs| |? ? ? Hs]; subst.
  - exists L. split; simpl in *; try done; rewrite ?concat_app, ?app_assoc; [done|].
    rewrite Hq, !length_app, (concat_length writes). lia.
  - exists L. unfold WriteAheadLog.sync in Hs. destruct (_ =? _); simplify_eq/=; [by destruct w|].
    destruct (_ <? _); simplify_eq/=. by split.
  - exists L. unfold WriteAheadLog.set_offset, WriteAheadLog.store_done in *.
    destruct (_ <=? LogStatus.offset_pos _) eqn:E; simplify_eq/=. bool_to_prop.
    split; simpl in *; try done; try lia.
    intros j n o Hj Hn. destruct (Hjob j n o Hj Hn) as (? & ? & ?). lia.
  - exists L. by split.
  - destruct (writer_step_ok io w _ L Hinv) as (r & E & Hr). rewrite Hs in E. simplify_eq.
    destruct Hr as (L' & ? & _). eauto.
Qed.

Lemma reachable_inv io w stored : reachable io w stored → ∃ L, wal_inv io w stored L.
Proof.
  intros (w0 & L0 & Hi & Hsteps).
  assert (∀ p q, rtc (step io) p q → (∃ L, wal_inv io p.1 p.2 L) → ∃ L, wal_inv io q.1 q.2 L) as Hrtc.
  { induction 1 as [|p q r Hpq _ IH]; [done|]. intros [L HL]. apply IH.
    destruct p as [w1 s1], q as [w2 s2]. by eapply step_inv. }
  apply (Hrtc _ _ Hsteps). exists L0. by apply initial_inv.
Qed.

(** C20: whatever the clients do, in every reachable state of the log the writer
    task can take its next action without a panic or an error: the assertions of
    [update_log] hold and the page files it writes and removes exist; it has
    nothing to do only when it was stopped or when everything that was queued is
    on disk and acknowledged. *)
Theorem wal_writer_never_fails io w stored :
  reachable io w stored →
  ∃ r, writer_step io w = Ok r ∧
    (r = None → w.(phase) = Stopped ∨
      WriteAheadLog.store_done w.(status) w.(status).(LogStatus.queue_pos) = true).
Proof.
  intros [L Hinv]%reachable_inv. destruct (writer_step_ok io w stored L Hinv) as (r & E & Hr).
  exists r. split; [done|]. intros ->. destruct Hr as [?|[Hph ->]]; [by left|right].
  destruct Hinv as [_ _ Hq _ Hwait _ _ _ _ _]. unfold WriteAheadLog.store_done.
  apply Nat.leb_le. rewrite Hwait by (by rewrite Hph). lia.
Qed.

(** C14: the log keeps its promises.  In every reachable state
    [flush_pos <= offset_pos <= write_pos <= queue_pos] ([sync_pos] is not in this
    order, see [sync_can_panic]), and the page files from the page of [offset_pos]
    on hold a prefix of the queued bytes, in the order they were queued, that
    covers everything up to [write_pos] and everything up to [sync_pos]: once the
    waiting condition of [store] holds, the entry is in the files, and a sync
    position never runs ahead of what was written to them. *)
Theorem wal_acknowledged_is_written io w stored end_pos :
  reachable io w stored → WriteAheadLog.store_done w.(status) end_pos = true →
  w.(status).(LogStatus.flush_pos) <= w.(status).(LogStatus.offset_pos) ∧
  w.(status).(LogStatus.offset_pos) <= w.(status).(LogStatus.write_pos) ∧
  w.(status).(LogStatus.write_pos) <= w.(status).(LogStatus.queue_pos) ∧
  ∃ L lo, log_on_disk w.(disk) lo L ∧ lo <= w.(status).(LogStatus.offset_pos) / PAGE_SIZE ∧
    L `prefix_of` stored ∧ take end_pos stored `prefix_of` L ∧
    take w.(status).(LogStatus.sync_pos) stored `prefix_of` L.
Proof.
  intros [L Hinv]%reachable_inv Hd. pose proof Hinv as [Hw Hst Hq Hwp Hwait Hoff Hfl Hsy Hsp Hjob].
  unfold WriteAheadLog.store_done in Hd. bool_to_prop.
  assert (L `prefix_of` stored) as Hpre by (rewrite Hst; apply prefix_app_r; done).
  pose proof (prefix_length _ _ Hpre). do 3 (split; [lia|]).
  exists L, (first_page w). split; [apply (wa_disk _ _ _ _ _ Hw)|]. split; [|split; [done|]].
  - unfold first_page. apply Nat.Div0.div_le_mono.
    destruct (phase w) as [| | | |[tw sf sp [[n o]|] stop]|] eqn:Ep; try lia.
    by destruct (Hjob _ n o eq_refl eq_refl) as (_ & _ & ?).
  - rewrite Hst. split; (rewrite take_app_le by lia); apply prefix_take.
Qed.

(** ** Progress *)

(** [n] actions of the writer task. *)
Fixpoint run_writer (n : nat) (io : IoMode) (w : WalState) : outcome WalState :=
  match n with
  | O => Ok w
  | S n' =>
      r ← writer_step io w;
      match r with Some w' => run_writer n' io w' | None => Ok w end
  end.

Lemma run_writer_step n io w w' :
  writer_step io w = Ok (Some w') → run_writer (S n) io w = run_writer n io w'.
Proof. intros E. cbn [run_writer]. by rewrite E. Qed.

Lemma run_writer_app n m io w w' :
  run_writer n io w = Ok w' → run_writer m io w' ≠ OutOfFuel →
  ∃ k, run_writer k io w = run_writer m io w'.
Proof.
  revert w; induction n as [|n IH]; intros w; cbn [run_writer].
  - intros [= <-] _. by exists m.
  - destruct (writer_step io w) as [[w1|]| | |] eqn:E; try done; cbn [mbind outcome_bind].
    + intros Hr Hm. destruct (IH w1 Hr Hm) as [k Hk]. exists (S k). by rewrite (run_writer_step _ _ _ _ E).
    + intros [= <-] _. by exists m.
Qed.

(** The actions left until the end of the round. *)
Definition actions_left (p : Phase) : nat :=
  match p with
  | Writing _ rest => length rest + 4
  | Syncing _ => 3
  | Cleaning _ => 2
  | Publishing _ => 1
  | Waiting | Stopped => 0
  end.

Lemma work_step io w stored L j :
  wal_inv io w stored L → current_job w.(phase) = Some j → j.(UpdateLog.job_stop_flag) = false →
  ∃ w' L', writer_step io w = Ok (Some w') ∧ wal_inv io w' stored L' ∧
    w'.(status).(LogStatus.queue) = w.(status).(LogStatus.queue) ∧
    w'.(status).(LogStatus.stop_flag) = w.(status).(LogStatus.stop_flag) ∧
    w'.(status).(LogStatus.sync_flag) = w.(status).(LogStatus.sync_flag) ∧
    w'.(status).(LogStatus.offset_pos) = w.(status).(LogStatus.offset_pos) ∧
    w'.(status).(LogStatus.flush_pos) =
      (match w.(phase), j.(UpdateLog.new_offset) with
       | Publishing _, Some (n, _) => n | _, _ => w.(status).(LogStatus.flush_pos) end) ∧
    (w'.(phase) = Waiting ∨ current_job w'.(phase) = Some j) ∧
    actions_left w.(phase) = S (actions_left w'.(phase)).
Proof.
  intros Hinv Hj Hstop. destruct (writer_step_ok io w stored L Hinv) as (r & E & Hr).
  destruct r as [w'|]; [|by destruct Hr as [Hp|[Hp _]]; rewrite Hp in Hj].
  destruct Hr as (L' & Hinv' & _). exists w', L'. do 2 (split; [done|]).
  clear Hinv Hinv'. destruct w as [s wr ph d]. unfold writer_step in E. cbn [phase status writer disk] in *.
  destruct ph as [|j' [|buf rest]|j'|j'|j'|]; simpl in Hj; simplify_eq; try done.
  - simpl. eauto 10.
  - apply bind_Ok_inv in E as ([d' wr'] & _ & [= <-]). simpl. eauto 10.
  - unfold UpdateLog.publish_sync. destruct (_ && _); simpl; eauto 10.
  - apply bind_Ok_inv in E as (d' & _ & [= <-]). simpl. eauto 10.
  - apply bind_Ok_inv in E as (s' & Hs & [= <-]). rewrite Hstop. unfold UpdateLog.publish in Hs.
    apply bind_Ok_inv in Hs as (_ & _ & [= <-]). simpl. eauto 10.
Qed.

(** A working writer gets back to waiting. *)
Lemma work_round io n w stored L j :
  actions_left w.(phase) = n →
  wal_inv io w stored L → current_job w.(phase) = Some j → j.(UpdateLog.job_stop_flag) = false →
  ∃ w' L', run_writer n io w = Ok w' ∧ w'.(phase) = Waiting ∧ wal_inv io w' stored L' ∧
    w'.(status).(LogStatus.queue) = w.(status).(LogStatus.queue) ∧
    w'.(status).(LogStatus.stop_flag) = w.(status).(LogStatus.stop_flag) ∧
    w'.(status).(LogStatus.sync_flag) = w.(status).(LogStatus.sync_flag) ∧
    w'.(status).(LogStatus.offset_pos) = w.(status).(LogStatus.offset_pos) ∧
    w'.(status).(LogStatus.flush_pos) =
      (match j.(UpdateLog.new_offset) with
       | Some (n, _) => n | _ => w.(status).(LogStatus.flush_pos) end).
Proof.
  revert w L; induction n as [|n IH]; intros w L Hn Hinv Hj Hstop;
    destruct (work_step io w stored L j Hinv Hj Hstop)
      as (w1 & L1 & E & Hi1 & Hq & Hs & Hsf & Ho & Hfl & Hph & Hl); [lia|].
  rewrite (run_writer_step n _ _ _ E). destruct Hph as [Hph|Hph].
  - rewrite Hph in Hl. simpl in Hl. assert (n = 0) as -> by lia. exists w1, L1.
    do 7 (split; [done|]). rewrite Hfl.
    by destruct (phase w); simpl in Hl, Hj; try lia; destruct (UpdateLog.new_offset j).
  - destruct (IH w1 L1 ltac:(lia) Hi1 Hph Hstop) as (w' & L' & ? & ? & ? & Hq' & Hs' & Hsf' & Ho' & Hfl').
    exists w', L'. rewrite Hq', Hs', Hsf', Ho', Hfl', Hfl. do 7 (split; [done|]).
    destruct (phase w) as [|? ?|?|?|?|]; try done.
    simpl in Hl. destruct (phase w1); simpl in Hph, Hl; try done; lia.
Qed.

(** Nothing is left to do for the writer. *)
Definition served (w : WalState) : Prop :=
  WriteAheadLog.store_done w.(status) w.(status).(LogStatus.queue_pos) = true ∧
  WriteAheadLog.set_offset_done w.(status) w.(status).(LogStatus.offset_pos) = true ∧
  w.(status).(LogStatus.sync_flag) = false.

(** Nothing is left to do, and everything that was stored is on disk. *)
Record idle (io : IoMode) (w : WalState) (stored : list byte) : Prop := {
  idle_inv : wal_inv io w stored stored;
  idle_phase : w.(phase) = Waiting;
  idle_queue : w.(status).(LogStatus.queue) = [];
  idle_flush : w.(status).(LogStatus.flush_pos) = w.(status).(LogStatus.offset_pos);
  idle_sync : w.(status).(LogStatus.sync_flag) = false;
  idle_stop : w.(status).(LogStatus.stop_flag) = false;
}.

Lemma idle_served io w stored : idle io w stored → served w.
Proof.
  intros [Hi Hp Hq Hf Hs _]. unfold served, WriteAheadLog.store_done, WriteAheadLog.set_offset_done.
  rewrite (wi_waiting _ _ _ _ Hi) by (by rewrite Hp). rewrite (wi_queue_pos _ _ _ _ Hi), Hf.
  by rewrite !Nat.leb_refl.
Qed.

Lemma run_writer_waits n io w : writer_step io w = Ok None → run_writer n io w = Ok w.
Proof. intros E. destruct n; [done|]. cbn [run_writer]. by rewrite E. Qed.

(** A waiting writer empties the queue. *)
Lemma drain_round io w stored L :
  wal_inv io w stored L → w.(phase) = Waiting → w.(status).(LogStatus.stop_flag) = false →
  ∃ w', run_writer (length w.(status).(LogStatus.queue) + 5) io w = Ok w' ∧ idle io w' stored ∧
    w'.(status).(LogStatus.offset_pos) = w.(status).(LogStatus.offset_pos).
Proof.
  intros Hinv Hph Hstop. pose proof Hinv as [Hw Hst Hq Hwp Hwait Hoff Hfl Hsy Hsp Hjob].
  destruct (take_job_ok w.(status) w.(writer).(WalWriter.position)) as (job & flag & Ej & Hjb);
    [done|rewrite (wa_position _ _ _ _ _ Hw), Hwait by (by rewrite Hph); done| |].
  { rewrite Hq, Hst, Hph, Hwait by (by rewrite Hph). simpl. by rewrite length_app. }
  destruct (writer_step_ok io w stored L Hinv) as (r & E & Hr).
  pose proof E as E'. unfold writer_step in E'. rewrite Hph, Ej in E'. simpl in E'.
  destruct job as [j|]; simplify_eq.
  - destruct Hr as (L1 & Hi1 & _). destruct Hjb as (-> & Htw & Hjs & Hoffs). rewrite Hstop in Hjs.
    destruct (work_round io _ _ _ L1 j eq_refl Hi1 eq_refl Hjs)
      as (w' & L' & E1 & Hp' & Hi' & Hq' & Hs' & Hsf' & Ho' & Hf').
    exists w'. cbn [phase actions_left] in E1.
    split; [rewrite Nat.add_succ_r, (run_writer_step _ _ _ _ E), <-Htw; exact E1|].
    pose proof (wi_stored _ _ _ _ Hi') as Hst'. rewrite Hq', Hp' in Hst'. simpl in Hst'.
    rewrite app_nil_r in Hst'. subst L'. split; [|done]. split; try done; [|by rewrite Hs'].
    rewrite Hf', Ho'. simpl. destruct (UpdateLog.new_offset j) as [[n o]|]; [by destruct Hoffs|done].
  - destruct Hr as [Hr|[_ Hall]]; [congruence|]. destruct Hjb as (Hqe & Hsf & Hf).
    exists w. rewrite (run_writer_waits _ _ _ E). split; [done|]. split; [|done].
    rewrite Hall in Hinv |- *. by split.
Qed.

(** ** Sync requests *)

(** A caller of [sync] waits for [last] to be passed: a request that it made
    before gave it this position. *)
Definition sync_requested (io : IoMode) (w : WalState) (stored : list byte) (last : nat) : Prop :=
  ∃ w0 stored0 s, reachable io w0 stored0 ∧ WriteAheadLog.sync w0.(status) = Ok (Some last, s) ∧
    rtc (step io) (set_status w0 s, stored0) (w, stored).

(** The position is passed, or the request is still in the shared state, or the
    writer works on it and has not published a sync position yet. *)
Definition sync_owed (w : WalState) (last : nat) : Prop :=
  last < w.(status).(LogStatus.sync_pos) ∨
  last < w.(status).(LogStatus.write_pos) ∧
    (w.(status).(LogStatus.sync_flag) = true ∨
     ∃ j, (w.(phase) = Syncing j ∨ ∃ rest, w.(phase) = Writing j rest) ∧ j.(UpdateLog.job_sync_flag) = true ∧
       j.(UpdateLog.job_sync_pos) <= w.(status).(LogStatus.sync_pos)).

Lemma take_job_sync s position r s' :
  UpdateLog.take_job s position = Ok (r, s') →
  s'.(LogStatus.sync_pos) = s.(LogStatus.sync_pos) ∧ s'.(LogStatus.write_pos) = s.(LogStatus.write_pos) ∧
  match r with
  | Some j => j.(UpdateLog.job_sync_flag) = s.(LogStatus.sync_flag) ∧ j.(UpdateLog.job_sync_pos) = s.(LogStatus.sync_pos)
  | None => s'.(LogStatus.sync_flag) = s.(LogStatus.sync_flag)
  end.
Proof.
  unfold UpdateLog.take_job. intros (off & _ & E)%bind_Ok_inv. destruct (_ || _ || _ || _);
    apply bind_Ok_inv in E as (_ & _ & [= <- <-]); done.
Qed.

Lemma writer_step_sync io w w' stored L last :
  wal_inv io w stored L → writer_step io w = Ok (Some w') → sync_owed w last → sync_owed w' last.
Proof.
  intros Hinv E Ho. pose proof (wa_position _ _ _ _ _ (wi_writer _ _ _ _ Hinv)) as Hpos.
  pose proof (wi_write_pos _ _ _ _ Hinv) as Hwp. pose proof (wi_sync _ _ _ _ Hinv) as Hsy. clear Hinv.
  destruct w as [s wr ph d]. unfold writer_step in E. unfold sync_owed in *. cbn [phase status writer disk] in *.
  destruct ph as [|j [|buf rest]|j|j|j|].
  - apply bind_Ok_inv in E as ([[j|] s'] & Ej & E); [|done]. injection E as <-. simpl.
    destruct (take_job_sync _ _ _ _ Ej) as (-> & -> & Hf & Hp). destruct Ho as [Ho|[Hl [Hs|(j' & [|[rest ?]] & _)]]]; [by left| |done|done].
    right. split; [done|]. right. exists j. split; [right; by eexists|]. split; [congruence|lia].
  - injection E as <-. simpl. destruct Ho as [Ho|[Hl [Hs|(j' & Hj & Hf)]]]; [by left|right; by eauto|].
    right. split; [done|]. right. exists j'. split; [|done]. left. by destruct Hj as [Hj|[rest Hj]]; simplify_eq.
  - apply bind_Ok_inv in E as ([d' wr'] & _ & [= <-]). simpl.
    destruct Ho as [Ho|[Hl [Hs|(j' & Hj & Hf)]]]; [by left|right; by eauto|].
    right. split; [done|]. right. exists j'. split; [|done]. right. exists rest. by destruct Hj as [Hj|[r Hj]]; simplify_eq.
  - injection E as <-. simpl. unfold UpdateLog.publish_sync.
    destruct (UpdateLog.job_sync_flag j) eqn:Ef, (UpdateLog.job_sync_pos j <? _) eqn:Ep; simpl; bool_to_prop;
      (destruct Ho as [Ho|[Hl [Hs|(j' & [Hj|[r Hj]] & Hf & Hle)]]]; [left; lia|right; by eauto| |done]); simplify_eq; try (left; lia); congruence.
  - apply bind_Ok_inv in E as (d' & _ & [= <-]). simpl.
    destruct Ho as [Ho|[Hl [Hs|(j' & [|[r ?]] & _)]]]; [by left|right; by eauto|done|done].
  - apply bind_Ok_inv in E as (s' & Hs' & [= <-]). unfold UpdateLog.publish in Hs'.
    apply bind_Ok_inv in Hs' as (_ & _ & [= <-]). simpl.
    destruct Ho as [Ho|[Hl [Hs|(j' & [|[r ?]] & _)]]]; [by left|right; split; [lia|by left]|done|done].
  - done.
Qed.

Lemma step_sync_owed io w stored w' stored' L last :
  wal_inv io w stored L → step io (w, stored) (w', stored') → sync_owed w last → sync_owed w' last.
Proof.
  intros Hinv Hstep Ho. inversion Hstep as [? ? writes|? ? last' s Hs|? ? off s Hd Hs| |? ? ? Hs]; subst; try done.
  - unfold WriteAheadLog.sync in Hs. destruct (_ =? _); [injection Hs as _ <-; by destruct w|].
    apply bind_Ok_inv in Hs as (_ & _ & [= _ <-]). destruct Ho as [Ho|[Hl _]]; [by left|right]. split; [done|by left].
  - unfold WriteAheadLog.set_offset in Hs. destruct (_ <=? _); [done|]. injection Hs as <-. done.
  - by eapply writer_step_sync.
Qed.

Lemma steps_sync_owed io p q last :
  rtc (step io) p q → (∃ L, wal_inv io p.1 p.2 L) → sync_owed p.1 last → sync_owed q.1 last.
Proof.
  induction 1 as [|p q r Hpq _ IH]; [done|]. intros [L HL] Ho. destruct p as [w1 s1], q as [w2 s2].
  apply IH; [by eapply step_inv|by eapply step_sync_owed].
Qed.

Lemma requested_owed io w stored last : sync_requested io w stored last → sync_owed w last.
Proof.
  intros (w0 & stored0 & s & Hr & Hs & Hsteps). destruct (reachable_inv _ _ _ Hr) as [L HL].
  apply (steps_sync_owed io _ _ last Hsteps).
  - simpl. eapply step_inv; [exact HL|by eapply step_sync].
  - unfold WriteAheadLog.sync in Hs. destruct (_ =? _); [done|].
    destruct (_ <? _) eqn:Hlt; [|done]. injection Hs as <- <-. bool_to_prop. right. simpl. split; [done|by left].
Qed.

Lemma run_writer_rtc n io w w' stored :
  run_writer n io w = Ok w' → rtc (step io) (w, stored) (w', stored).
Proof.
  revert w; induction n as [|n IH]; intros w; cbn [run_writer]; [by intros [= ->]|].
  destruct (writer_step io w) as [[w1|]| | |] eqn:E; try done; cbn [mbind outcome_bind].
  - intros Hr. eapply rtc_l; [by apply step_writer|by apply IH].
  - by intros [= ->].
Qed.

(** C21: the writer task serves every request.  In every reachable state in which
    no stop was requested, finitely many actions of the writer, without further
    requests, reach a state in which the waiting condition of [store] holds for
    everything that was queued, the one of [set_offset] holds for the requested
    offset, and the one of [sync] holds for every position that a caller of [sync]
    was given in any earlier state; no sync request is pending. *)
Theorem wal_writer_serves_requests io w stored :
  reachable io w stored → w.(status).(LogStatus.stop_flag) = false →
  ∃ n w', run_writer n io w = Ok w' ∧
    WriteAheadLog.store_done w'.(status) w.(status).(LogStatus.queue_pos) = true ∧
    WriteAheadLog.set_offset_done w'.(status) w.(status).(LogStatus.offset_pos) = true ∧
    (∀ last, sync_requested io w stored last → WriteAheadLog.sync_done w'.(status) last = true) ∧
    w'.(status).(LogStatus.sync_flag) = false.
Proof.
  intros [L Hinv]%reachable_inv Hstop.
  assert (∃ n w1 L1, run_writer n io w = Ok w1 ∧ w1.(phase) = Waiting ∧ wal_inv io w1 stored L1 ∧
    LogStatus.stop_flag w1.(status) = false ∧
    LogStatus.offset_pos w1.(status) = LogStatus.offset_pos w.(status))
    as (n & w1 & L1 & E1 & Hp1 & Hi1 & Hs1 & Ho1).
  { pose proof (wi_stop _ _ _ _ Hinv Hstop) as Hns.
    destruct (current_job (phase w)) as [j|] eqn:Ej.
    - destruct (work_round io _ w stored L j eq_refl Hinv Ej)
        as (w1 & L1 & ? & ? & ? & _ & Hs & _ & Ho & _); [by destruct (phase w); simplify_eq/=|].
      eexists _, w1, L1. by rewrite Hs.
    - exists 0, w, L. by destruct (phase w). }
  destruct (drain_round io w1 stored L1 Hi1 Hp1 Hs1) as (w2 & E2 & Hidle & Ho2).
  pose proof (idle_served _ _ _ Hidle) as (Hst & Hso & Hsf). pose proof (idle_inv _ _ _ Hidle) as Hi2.
  destruct (run_writer_app n (length w1.(status).(LogStatus.queue) + 5) io w w1 E1) as [k Hk]; [by rewrite E2|].
  rewrite E2 in Hk.
  exists k, w2. rewrite Hk. split; [done|].
  rewrite (wi_queue_pos _ _ _ _ Hinv), <-(wi_queue_pos _ _ _ _ Hi2), <-Ho1, <-Ho2.
  split; [done|]. split; [done|]. split; [|done]. intros last Hreq.
  apply requested_owed in Hreq.
  pose proof (steps_sync_owed io _ _ last (run_writer_rtc _ _ _ _ stored Hk) (ex_intro _ L Hinv) Hreq) as Ho.
  unfold WriteAheadLog.sync_done. apply Nat.ltb_lt. destruct Ho as [Ho|[_ [Hf|(j & [Hj|[r Hj]] & _)]]]; [exact Ho|..];
    simpl in *; rewrite ?(idle_phase _ _ _ Hidle) in *; congruence.
Qed.

(** ** The assertion of [sync] *)

(** The log of a new database. *)
Definition fresh_wal (d : Disk) : WalState :=
  let '(d', wr) := WalWriter.new d in mkWal (LogStatus.new 0 0) wr Waiting d'.

Lemma fresh_initial io d : initial io (fresh_wal d) [].
Proof.
  exists 0. split; [done|]. split; [done|]. split; [done|]. apply (writer_new_at io d).
Qed.

(** A sync is requested while the first write is on disk; the writer writes a
    second entry together with the sync and has published the sync position, but
    not yet the write position. *)
Definition between_publishes : outcome WalState :=
  let w1 := set_status (fresh_wal ∅) (WriteAheadLog.store (fresh_wal ∅).(status) [[x01]]).2 in
  w2 ← run_writer 6 StdFs w1;
  '(_, s) ← WriteAheadLog.sync w2.(status);
  let w3 := set_status w2 (WriteAheadLog.store s [[x02]]).2 in
  run_writer 4 StdFs w3.

(** C36: the documented invariant [sync_pos <= write_pos] does not always hold:
    the writer publishes the sync position before the write position, and a task
    that calls [sync] in between fails the assertion and panics. *)
Theorem sync_can_panic :
  ∃ w stored, reachable StdFs w stored ∧
    WriteAheadLog.sync w.(status)
      = Panic "assertion failed: lock.sync_pos < lock.write_pos".
Proof.
  assert (∃ w, between_publishes = Ok w) as [w Hw].
  { unfold between_publishes. eexists. vm_compute. reflexivity. }
  exists w, ([] ++ concat [[x01]] ++ concat [[x02]]).
  split; [|clear -Hw; revert Hw; vm_compute; by intros [= <-]].
  exists (fresh_wal ∅), []. split; [apply fresh_initial|].
  unfold between_publishes in Hw. apply bind_Ok_inv in Hw as (w2 & E2 & Hw).
  apply bind_Ok_inv in Hw as ([last s] & Es & Hw).
  eapply rtc_l; [apply (step_store _ _ [] [[x01]])|].
  etrans; [by eapply run_writer_rtc|].
  eapply rtc_l; [by eapply step_sync|].
  eapply rtc_l; [apply (step_store _ _ _ [[x02]])|].
  by eapply run_writer_rtc.
Qed.

(** ** Witnesses *)

(** A log with one queued entry. *)
Definition sample_wal : WalState :=
  set_status (fresh_wal ∅) (WriteAheadLog.store (fresh_wal ∅).(status) [[x01; x02]]).2.

Lemma sample_wal_reachable : reachable StdFs sample_wal [x01; x02].
Proof.
  exists (fresh_wal ∅), []. split; [apply fresh_initial|].
  apply rtc_once. exact (step_store StdFs (fresh_wal ∅) [] [[x01; x02]]).
Qed.

Lemma wal_writer_never_fails_witness :
  ∃ r, writer_step StdFs sample_wal = Ok r ∧
    (r = None → sample_wal.(phase) = Stopped ∨
      WriteAheadLog.store_done sample_wal.(status) 2 = true).
Proof. apply (wal_writer_never_fails StdFs sample_wal [x01; x02]), sample_wal_reachable. Defined.

(** The log when the entry was written and acknowledged. *)
Definition written_wal : WalState :=
  match run_writer 6 StdFs sample_wal with Ok w => w | _ => sample_wal end.

Lemma written_wal_reachable : reachable StdFs written_wal [x01; x02].
Proof.
  destruct sample_wal_reachable as (w0 & L & Hi & Hr). exists w0, L. split; [done|].
  etrans; [exact Hr|]. apply (run_writer_rtc 6). vm_compute. reflexivity.
Qed.

Lemma wal_acknowledged_is_written_witness :
  WriteAheadLog.store_done written_wal.(status) 2 = true ∧
  ∃ L lo, log_on_disk written_wal.(disk) lo L ∧ [x01; x02] `prefix_of` L.
Proof.
  split; [vm_compute; reflexivity|].
  destruct (wal_acknowledged_is_written StdFs written_wal [x01; x02] 2 written_wal_reachable)
    as (_ & _ & _ & L & lo & H1 & _ & _ & H3 & _); [vm_compute; reflexivity|].
  exists L, lo. split; [exact H1|exact H3].
Defined.

(** The log after a request to sync the entry. *)
Definition syncing_wal : WalState :=
  match WriteAheadLog.sync written_wal.(status) with Ok (_, s) => set_status written_wal s | _ => written_wal end.

Lemma syncing_wal_requested :
  reachable StdFs syncing_wal [x01; x02] ∧ sync_requested StdFs syncing_wal [x01; x02] 0.
Proof.
  assert (WriteAheadLog.sync written_wal.(status) = Ok (Some 0, syncing_wal.(status))) as E by (vm_compute; reflexivity).
  assert (syncing_wal = set_status written_wal syncing_wal.(status)) as Es by (vm_compute; reflexivity).
  split.
  - destruct written_wal_reachable as (w0 & L & Hi & Hr). exists w0, L. split; [done|].
    eapply rtc_r; [exact Hr|]. rewrite Es. by eapply step_sync.
  - exists written_wal, [x01; x02], syncing_wal.(status). split; [exact written_wal_reachable|]. split; [exact E|].
    rewrite <-Es. apply rtc_refl.
Qed.

(** The caller of [sync] gets its answer. *)
Lemma wal_writer_serves_requests_witness :
  ∃ n w', run_writer n StdFs syncing_wal = Ok w' ∧ WriteAheadLog.store_done w'.(status) 2 = true ∧
    WriteAheadLog.sync_done syncing_wal.(status) 0 = false ∧ WriteAheadLog.sync_done w'.(status) 0 = true.
Proof.
  destruct (wal_writer_serves_requests StdFs syncing_wal [x01; x02] (proj1 syncing_wal_requested))
    as (n & w' & E & Hd & _ & Hs & _); [vm_compute; reflexivity|].
  exists n, w'. split; [exact E|]. split; [exact Hd|]. split; [vm_compute; reflexivity|].
  apply Hs, syncing_wal_requested.
Defined.
