(* ===== verification/Manifest.v ===== *)
(** * The manifest (src/src/manifest.rs)

    The metadata of the database: counters and offsets in [database.meta] and,
    per level, the ordered list of table identifiers in [level<i>.meta].  The
    files are memory-mapped; the model keeps the mapped bytes and reads and
    writes the fields at their byte positions, as the code does.
    [mapped_files] is the view the file system has of the mappings. *)

From stdpp Require Import base list gmap strings sorting.
From Stdlib Require Import Strings.Byte NArith Lia.
From S2P Require Import Prelude WriteBatch Disk.

Local Open Scope nat_scope.

(** [FIRST_TABLE_ID], [INVALID_TABLE_ID] and [MIN_DATA_BLOCK_ID] *)
Definition FIRST_TABLE_ID : N := 1.
Definition INVALID_TABLE_ID : N := 0.
Definition MIN_DATA_BLOCK_ID : N := 1.

(** [PAGE_SIZE] of src/src/manifest.rs *)
Definition META_PAGE_SIZE : nat := N.to_nat 4096.
#[global] Opaque META_PAGE_SIZE.

Module DatabaseMetadata.

(** [struct DatabaseMetadata] (without [wisckey]) *)
Record DatabaseMetadata := mk {
  next_table_id : N;
  num_levels : N;
  seq_number_offset : N;
  log_offset : N;
  next_data_block_id : N;
}.

(** [size_of::<DatabaseMetadata>()] *)
Definition size : nat := 40.

(** [as_bytes]: the [repr(C)] layout, with [_padding]. *)
Definition as_bytes (m : DatabaseMetadata) : list byte :=
  le_bytes 8 m.(next_table_id) ++ le_bytes 4 m.(num_levels) ++ le_bytes 4 0
    ++ le_bytes 8 m.(seq_number_offset) ++ le_bytes 8 m.(log_offset)
    ++ le_bytes 8 m.(next_data_block_id).

(** [ref_from_bytes]: the slice must have the size of the struct. *)
Definition from_bytes (data : list byte) : outcome DatabaseMetadata :=
  if length data =? size then
    Ok {| next_table_id := le_val (take 8 data);
          num_levels := le_val (take 4 (drop 8 data));
          seq_number_offset := le_val (take 8 (drop 16 data));
          log_offset := le_val (take 8 (drop 24 data));
          next_data_block_id := le_val (take 8 (drop 32 data)) |}
  else Panic "SizeError".

End DatabaseMetadata.

(** [as_slice_of::<TableId>()]: eight bytes per identifier. *)
Fixpoint as_ids (n : nat) (data : list byte) : list N :=
  match n with
  | O => []
  | S n' => le_val (take 8 data) :: as_ids n' (drop 8 data)
  end.

(** [tables.as_byte_slice()] *)
Definition ids_bytes (ids : list N) : list byte := ids ≫= le_bytes 8.

Module LevelMetadata.

(** [struct LevelMetadata]: [data] is the mapped file, which starts with
    [LevelMetadataHeader]. *)
Record LevelMetadata := mk { identifier : N; data : list byte }.

(** [LevelMetadata::get_table_ids] *)
Definition get_table_ids (l : LevelMetadata) : outcome (list N) :=
  num_tables ← read_prefix 8 l.(data);
  let start := 8 in
  let end_ := start + N.to_nat num_tables * 8 in
  ids ← slice l.(data) start end_;
  Ok (as_ids (N.to_nat num_tables) ids).

(** [tables.binary_search(&id)] *)
Definition search_id (id : N) (tables : list N) : search_pos :=
  binary_search_by (λ x, (x ?= id)%N) tables.

(** [LevelMetadata::insert]: [false] if the entry already existed. *)
Definition insert (l : LevelMetadata) (id : N) : outcome (bool * LevelMetadata) :=
  tables ← get_table_ids l;
  match search_id id tables with
  | Found _ => Ok (false, l)
  | Missing pos =>
      let tables := vec_insert pos id tables in
      data1 ← overwrite l.(data) 0 (le_bytes 8 (as_u64 (length tables)));
      let start := 8 in
      let new_data := ids_bytes tables in
      let data2 := if length data1 <=? start + length new_data
                   then data1 ++ replicate META_PAGE_SIZE x00 else data1 in
      data3 ← overwrite data2 start new_data;
      Ok (true, {| identifier := l.(identifier); data := data3 |})
  end.

(** [LevelMetadata::remove]: [false] if no such entry existed. *)
Definition remove (l : LevelMetadata) (id : N) : outcome (bool * LevelMetadata) :=
  tables ← get_table_ids l;
  match search_id id tables with
  | Missing _ => Ok (false, l)
  | Found pos =>
      let tables := vec_remove pos tables in
      data1 ← overwrite l.(data) 0 (le_bytes 8 (as_u64 (length tables)));
      data2 ← overwrite data1 8 (ids_bytes tables);
      Ok (true, {| identifier := l.(identifier); data := data2 |})
  end.

End LevelMetadata.

Module Manifest.

(** [struct Manifest]: the mapped bytes of its files. *)
Record Manifest := mk {
  metadata : list byte;
  levels : list LevelMetadata.LevelMetadata;
}.

(** The level file [Manifest::new] creates. *)
Definition new_level (idx : nat) : outcome LevelMetadata.LevelMetadata :=
  data ← overwrite (replicate META_PAGE_SIZE x00) 0 (le_bytes 8 0);
  Ok {| LevelMetadata.identifier := as_u32 idx; LevelMetadata.data := data |}.

Fixpoint new_levels (idx n : nat) : outcome (list LevelMetadata.LevelMetadata) :=
  match n with
  | O => Ok []
  | S n' => l ← new_level idx; ls ← new_levels (S idx) n'; Ok (l :: ls)
  end.

(** [Manifest::new] *)
Definition new (params : Params.Params) : outcome Manifest :=
  let meta := {| DatabaseMetadata.next_table_id := FIRST_TABLE_ID;
                 DatabaseMetadata.num_levels := as_u32 params.(Params.num_levels);
                 DatabaseMetadata.seq_number_offset := 1;
                 DatabaseMetadata.log_offset := 0;
                 DatabaseMetadata.next_data_block_id := MIN_DATA_BLOCK_ID |} in
  ls ← new_levels 0 params.(Params.num_levels);
  Ok {| metadata := DatabaseMetadata.as_bytes meta; levels := ls |}.

(** The loop of [Manifest::open] over the level files. *)
Fixpoint open_levels (d : Disk) (idx n : nat) : outcome (list LevelMetadata.LevelMetadata) :=
  match n with
  | O => Ok []
  | S n' =>
      match d !! LevelFile idx with
      | None => Err (Io "Failed to open manifest" "No such file or directory")
      | Some data =>
          _ ← read_prefix 8 data;
          ls ← open_levels d (S idx) n';
          Ok ({| LevelMetadata.identifier := as_u32 idx; LevelMetadata.data := data |} :: ls)
      end
  end.

(** [Manifest::open] *)
Definition open (params : Params.Params) (d : Disk) : outcome Manifest :=
  match d !! ManifestFile with
  | None => Err (Io "Failed to open manifest" "No such file or directory")
  | Some data =>
      meta ← DatabaseMetadata.from_bytes data;
      if negb (meta.(DatabaseMetadata.num_levels) =? as_u32 params.(Params.num_levels))%N
      then Panic "Number of levels is incompatible" else
      ls ← open_levels d 0 (N.to_nat meta.(DatabaseMetadata.num_levels));
      Ok {| metadata := data; levels := ls |}
  end.

(** [DatabaseMetadata::ref_from_bytes(&mmap[..]).unwrap()] *)
Definition get_meta (m : Manifest) : outcome DatabaseMetadata.DatabaseMetadata :=
  DatabaseMetadata.from_bytes m.(metadata).

(** The bytes from [pos] on replaced through the mutable reference. *)
Definition set_field (m : Manifest) (pos : nat) (x : N) : outcome Manifest :=
  data ← overwrite m.(metadata) pos (le_bytes 8 x);
  Ok {| metadata := data; levels := m.(levels) |}.

(** [Manifest::generate_next_data_block_id] *)
Definition generate_next_data_block_id (m : Manifest) : outcome (N * Manifest) :=
  meta ← get_meta m;
  let id := meta.(DatabaseMetadata.next_data_block_id) in
  next ← u64_add id 1;
  m' ← set_field m 32 next;
  Ok (id, m').

(** [Manifest::generate_next_table_id] *)
Definition generate_next_table_id (m : Manifest) : outcome (N * Manifest) :=
  meta ← get_meta m;
  let id := meta.(DatabaseMetadata.next_table_id) in
  next ← u64_add id 1;
  m' ← set_field m 0 next;
  Ok (id, m').

(** [Manifest::get_log_offset] *)
Definition get_log_offset (m : Manifest) : outcome N :=
  meta ← get_meta m; Ok meta.(DatabaseMetadata.log_offset).

(** [Manifest::set_log_offset] *)
Definition set_log_offset (m : Manifest) (offset : N) : outcome Manifest :=
  meta ← get_meta m;
  _ ← assert_that (meta.(DatabaseMetadata.log_offset) <? offset)%N "meta.log_offset < offset";
  set_field m 24 offset.

(** [Manifest::get_seq_number_offset] *)
Definition get_seq_number_offset (m : Manifest) : outcome N :=
  meta ← get_meta m; Ok meta.(DatabaseMetadata.seq_number_offset).

(** [Manifest::set_seq_number_offset] *)
Definition set_seq_number_offset (m : Manifest) (offset : N) : outcome Manifest :=
  meta ← get_meta m;
  if (offset <=? meta.(DatabaseMetadata.seq_number_offset))%N
  then Panic "Sequence number must montonically increase" else
  set_field m 16 offset.

(** [Manifest::get_table_ids] *)
Fixpoint level_ids (ls : list LevelMetadata.LevelMetadata) : outcome (list (list N)) :=
  match ls with
  | [] => Ok []
  | l :: ls' => ids ← LevelMetadata.get_table_ids l; rest ← level_ids ls'; Ok (ids :: rest)
  end.

Definition get_table_ids (m : Manifest) : outcome (list (list N)) := level_ids m.(levels).

(** The two loops of [Manifest::update_table_set]. *)
Fixpoint add_tables (ls : list LevelMetadata.LevelMetadata) (add : list (N * N))
  : outcome (list LevelMetadata.LevelMetadata) :=
  match add with
  | [] => Ok ls
  | (level, id) :: add' =>
      l ← expect (ls !! N.to_nat level) "No such level";
      '(was_new, l') ← LevelMetadata.insert l id;
      if negb was_new then Panic "Table already existed on level" else
      add_tables (<[N.to_nat level := l']> ls) add'
  end.

Fixpoint remove_tables (ls : list LevelMetadata.LevelMetadata) (remove : list (N * N))
  : outcome (list LevelMetadata.LevelMetadata) :=
  match remove with
  | [] => Ok ls
  | (level, id) :: remove' =>
      l ← expect (ls !! N.to_nat level) "No such level";
      '(existed, l') ← LevelMetadata.remove l id;
      if negb existed then Panic "No table with id existed on level" else
      remove_tables (<[N.to_nat level := l']> ls) remove'
  end.

(** [Manifest::update_table_set] *)
Definition update_table_set (m : Manifest) (add remove : list (N * N)) : outcome Manifest :=
  ls1 ← add_tables m.(levels) add;
  ls2 ← remove_tables ls1 remove;
  Ok {| metadata := m.(metadata); levels := ls2 |}.

End Manifest.

(** ** Specification *)

(** The fields of the metadata stay within their width. *)
Record meta_wf (m : DatabaseMetadata.DatabaseMetadata) : Prop := {
  mw_table : (m.(DatabaseMetadata.next_table_id) < u64_bound)%N;
  mw_levels : (m.(DatabaseMetadata.num_levels) < u32_bound)%N;
  mw_seq : (m.(DatabaseMetadata.seq_number_offset) < u64_bound)%N;
  mw_log : (m.(DatabaseMetadata.log_offset) < u64_bound)%N;
  mw_block : (m.(DatabaseMetadata.next_data_block_id) < u64_bound)%N;
}.

(** A table identifier: not [INVALID_TABLE_ID], and 64 bits wide. *)
Definition valid_id (id : N) : Prop := (FIRST_TABLE_ID <= id < u64_bound)%N.

(** The mapped file of a level holds the identifiers [ids], in increasing
    order, and has room for one more. *)
Record level_holds (l : LevelMetadata.LevelMetadata) (ids : list N) : Prop := {
  lh_data : ∃ rest, l.(LevelMetadata.data) = le_bytes 8 (N.of_nat (length ids)) ++ ids_bytes ids ++ rest
    ∧ 0 < length rest;
  lh_sorted : StronglySorted N.lt ids;
  lh_width : Forall valid_id ids;
}.

(** The manifest holds the metadata [meta] and the identifiers [ids]. *)
Record manifest_holds (m : Manifest.Manifest) (meta : DatabaseMetadata.DatabaseMetadata)
    (ids : list (list N)) : Prop := {
  mh_meta : m.(Manifest.metadata) = DatabaseMetadata.as_bytes meta;
  mh_wf : meta_wf meta;
  mh_levels : Forall2 level_holds m.(Manifest.levels) ids;
}.

(** The files behind the mappings. *)
Fixpoint level_files (d : Disk) (idx : nat) (ls : list LevelMetadata.LevelMetadata) : Disk :=
  match ls with
  | [] => d
  | l :: ls' => <[LevelFile idx := l.(LevelMetadata.data)]> (level_files d (S idx) ls')
  end.

Definition mapped_files (m : Manifest.Manifest) (d : Disk) : Disk :=
  <[ManifestFile := m.(Manifest.metadata)]> (level_files d 0 m.(Manifest.levels)).

(** What [update_table_set] does to the table sets of the levels. *)
Definition spec_add (ls : list (gset N)) (a : N * N) : list (gset N) :=
  alter (λ s, {[a.2]} ∪ s) (N.to_nat a.1) ls.

Definition spec_remove (ls : list (gset N)) (a : N * N) : list (gset N) :=
  alter (λ s, s ∖ {[a.2]}) (N.to_nat a.1) ls.

(** The abstract view of the identifiers: one set per level. *)
Definition id_sets (ids : list (list N)) : list (gset N) := list_to_set <$> ids.

(** ** The metadata record *)

Lemma meta_from_as_bytes meta :
  meta_wf meta → DatabaseMetadata.from_bytes (DatabaseMetadata.as_bytes meta) = Ok meta.
Proof.
  intros [H1 H2 H3 H4 H5]. destruct meta as [a b c e f]; simpl in *.
  transitivity (Ok (DatabaseMetadata.mk (le_val (le_bytes 8 a)) (le_val (le_bytes 4 b))
    (le_val (le_bytes 8 c)) (le_val (le_bytes 8 e)) (le_val (le_bytes 8 f)))); [reflexivity|].
  by rewrite !le_roundtrip_u64, le_roundtrip_u32.
Qed.

Lemma set_field_levels m pos x m' :
  Manifest.set_field m pos x = Ok m' → m'.(Manifest.levels) = m.(Manifest.levels).
Proof. unfold Manifest.set_field. intros (? & _ & [= <-])%bind_Ok_inv. done. Qed.

Section metadata.
Context (m : Manifest.Manifest) (meta : DatabaseMetadata.DatabaseMetadata)
  (ids : list (list N)) (Hm : manifest_holds m meta ids).

Lemma get_meta_holds : Manifest.get_meta m = Ok meta.
Proof. unfold Manifest.get_meta. rewrite (mh_meta _ _ _ Hm). apply meta_from_as_bytes, Hm. Qed.

Lemma set_field_holds pos x meta' :
  overwrite (DatabaseMetadata.as_bytes meta) pos (le_bytes 8 x)
    = Ok (DatabaseMetadata.as_bytes meta') →
  meta_wf meta' →
  ∃ m', Manifest.set_field m pos x = Ok m' ∧ manifest_holds m' meta' ids.
Proof.
  intros Ho Hwf. unfold Manifest.set_field. rewrite (mh_meta _ _ _ Hm), Ho. simpl.
  eexists; split; [done|]. split; [done|done|apply Hm].
Qed.

(** Writes one field of the record in place. *)
Ltac write_field :=
  match goal with
  | |- context [Manifest.set_field m ?pos ?x] =>
      match goal with
      | |- ∃ m', _ ∧ manifest_holds m' ?meta' _ =>
          let E := fresh "E" in
          destruct (set_field_holds pos x meta') as (? & E & ?);
          [reflexivity|destruct (mh_wf _ _ _ Hm); by split|rewrite E; simpl; eauto]
      end
  end.

Lemma generate_data_block_id_holds :
  (meta.(DatabaseMetadata.next_data_block_id) + 1 < u64_bound)%N →
  ∃ m', Manifest.generate_next_data_block_id m
          = Ok (meta.(DatabaseMetadata.next_data_block_id), m') ∧
    manifest_holds m' (DatabaseMetadata.mk meta.(DatabaseMetadata.next_table_id)
      meta.(DatabaseMetadata.num_levels) meta.(DatabaseMetadata.seq_number_offset)
      meta.(DatabaseMetadata.log_offset) (meta.(DatabaseMetadata.next_data_block_id) + 1)) ids.
Proof.
  intros Hlt. unfold Manifest.generate_next_data_block_id. rewrite get_meta_holds. run_bind.
  unfold u64_add. if_true. run_bind.
  write_field.
Qed.

Lemma generate_table_id_holds :
  (meta.(DatabaseMetadata.next_table_id) + 1 < u64_bound)%N →
  ∃ m', Manifest.generate_next_table_id m
          = Ok (meta.(DatabaseMetadata.next_table_id), m') ∧
    manifest_holds m' (DatabaseMetadata.mk (meta.(DatabaseMetadata.next_table_id) + 1)
      meta.(DatabaseMetadata.num_levels) meta.(DatabaseMetadata.seq_number_offset)
      meta.(DatabaseMetadata.log_offset) meta.(DatabaseMetadata.next_data_block_id)) ids.
Proof.
  intros Hlt. unfold Manifest.generate_next_table_id. rewrite get_meta_holds. run_bind.
  unfold u64_add. if_true. run_bind.
  write_field.
Qed.

Lemma set_log_offset_holds offset :
  (meta.(DatabaseMetadata.log_offset) < offset < u64_bound)%N →
  ∃ m', Manifest.set_log_offset m offset = Ok m' ∧
    manifest_holds m' (DatabaseMetadata.mk meta.(DatabaseMetadata.next_table_id)
      meta.(DatabaseMetadata.num_levels) meta.(DatabaseMetadata.seq_number_offset)
      offset meta.(DatabaseMetadata.next_data_block_id)) ids.
Proof.
  intros [Hlt Hw]. unfold Manifest.set_log_offset. rewrite get_meta_holds. run_bind.
  pass_assert. write_field.
Qed.

Lemma set_seq_number_offset_holds offset :
  (meta.(DatabaseMetadata.seq_number_offset) < offset < u64_bound)%N →
  ∃ m', Manifest.set_seq_number_offset m offset = Ok m' ∧
    manifest_holds m' (DatabaseMetadata.mk meta.(DatabaseMetadata.next_table_id)
      meta.(DatabaseMetadata.num_levels) offset
      meta.(DatabaseMetadata.log_offset) meta.(DatabaseMetadata.next_data_block_id)) ids.
Proof.
  intros [Hlt Hw]. unfold Manifest.set_seq_number_offset. rewrite get_meta_holds. run_bind.
  if_false. write_field.
Qed.

End metadata.

(** ** The level files *)

Lemma ids_bytes_cons id ids : ids_bytes (id :: ids) = le_bytes 8 id ++ ids_bytes ids.
Proof. done. Qed.

Lemma length_ids_bytes ids : length (ids_bytes ids) = 8 * length ids.
Proof.
  induction ids as [|id ids IH]; [done|]. rewrite ids_bytes_cons, length_app, IH.
  rewrite length_le_bytes. simpl. lia.
Qed.

#[export] Hint Rewrite length_ids_bytes : lsm_len.

Lemma as_ids_bytes ids : Forall valid_id ids → as_ids (length ids) (ids_bytes ids) = ids.
Proof.
  induction 1 as [|id ids [_ Hid] _ IH]; [done|]. rewrite ids_bytes_cons. cbn [length as_ids].
  rewrite take_app_length', drop_app_length' by (by rewrite length_le_bytes).
  by rewrite le_roundtrip_u64, IH.
Qed.

Lemma sorted_count lo ids :
  (lo <= u64_bound)%N → StronglySorted N.lt ids → Forall (λ id, lo <= id < u64_bound)%N ids →
  (lo + N.of_nat (length ids) <= u64_bound)%N.
Proof.
  revert lo; induction ids as [|id ids IH]; intros lo Hlo Hs Hw; simpl; [lia|].
  apply StronglySorted_cons in Hs as [Hid Hs]. apply Forall_cons in Hw as [Hw Hws].
  specialize (IH (id + 1)%N). enough (id + 1 + N.of_nat (length ids) <= u64_bound)%N by lia.
  apply IH; [lia|done|]. rewrite Forall_forall in *. intros x Hx.
  specialize (Hid x Hx). specialize (Hws x Hx). lia.
Qed.

Lemma level_holds_count l ids : level_holds l ids → (N.of_nat (length ids) < u64_bound)%N.
Proof.
  intros [_ Hs Hw]. pose proof (sorted_count 1 ids ltac:(done) Hs Hw). lia.
Qed.

Lemma get_table_ids_holds l ids : level_holds l ids → LevelMetadata.get_table_ids l = Ok ids.
Proof.
  intros Hl. pose proof (level_holds_count _ _ Hl) as Hc. destruct Hl as [(rest & Hd & _) Hs Hw].
  unfold LevelMetadata.get_table_ids. rewrite Hd, read_prefix_app by apply length_le_bytes.
  rewrite le_roundtrip_u64 by done. run_bind. rewrite Nat2N.id.
  rewrite slice_app_mid by len. run_bind. by rewrite as_ids_bytes.
Qed.

Lemma ids_search_sorted id ids :
  StronglySorted N.lt ids → search_sorted (λ x, (x ?= id)%N) ids.
Proof.
  intros Hs i j x y Hij Hi Hj. destruct (decide (i = j)) as [->|Hne]; [by simplify_eq|].
  assert (x < y)%N as Hlt; [|rewrite !N.compare_lt_iff, !N.compare_gt_iff; lia].
  clear id. revert i j Hij Hne Hi Hj; induction Hs as [|a ids Hs IH Ha]; [done|].
  intros [|i] [|j] Hij Hne Hi Hj; simpl in *; [done| |lia|by apply (IH i j); auto; lia].
  simplify_eq. rewrite Forall_forall in Ha. apply Ha. by eapply list_elem_of_lookup_2.
Qed.

Lemma search_id_spec id ids :
  StronglySorted N.lt ids →
  match LevelMetadata.search_id id ids with
  | Found p => ∃ l1 l2, ids = l1 ++ id :: l2 ∧ length l1 = p
  | Missing p => ∃ l1 l2, ids = l1 ++ l2 ∧ length l1 = p ∧
      (∀ x, x ∈ l1 → (x < id)%N) ∧ (∀ x, x ∈ l2 → (id < x)%N)
  end.
Proof.
  intros Hs. pose proof (binary_search_by_spec _ ids (ids_search_sorted id ids Hs)) as H.
  unfold LevelMetadata.search_id. destruct (binary_search_by _ ids) as [p|p].
  - destruct H as (x & Hp & E). apply N.compare_eq_iff in E as ->.
    destruct (vec_remove_split _ _ _ Hp) as (l1 & l2 & ? & ? & _). eauto.
  - destruct H as (Hp & H1 & H2). exists (take p ids), (drop p ids).
    split_and!; [by rewrite take_drop|len| |].
    + intros y (i & Hi)%list_elem_of_lookup. apply lookup_take_Some in Hi as [Hi ?].
      apply N.compare_lt_iff. by apply (H1 i).
    + intros y (i & Hi)%list_elem_of_lookup. rewrite lookup_drop in Hi.
      apply N.compare_gt_iff. by apply (H2 (p + i)); [lia|].
Qed.

(** The identifiers rewritten in place, or into the grown file. *)
Lemma level_rewrite l ids ids' data1 data2 rest :
  l.(LevelMetadata.data) = le_bytes 8 (N.of_nat (length ids)) ++ ids_bytes ids ++ rest →
  data1 = le_bytes 8 (as_u64 (length ids')) ++ ids_bytes ids ++ rest →
  data2 = (if length data1 <=? 8 + length (ids_bytes ids')
           then data1 ++ replicate META_PAGE_SIZE x00 else data1) →
  0 < length rest → length ids' <= S (length ids) →
  StronglySorted N.lt ids' → Forall valid_id ids' →
  overwrite l.(LevelMetadata.data) 0 (le_bytes 8 (as_u64 (length ids'))) = Ok data1 ∧
  ∃ data3, overwrite data2 8 (ids_bytes ids') = Ok data3 ∧
    level_holds (LevelMetadata.mk l.(LevelMetadata.identifier) data3) ids'.
Proof.
  intros Hd -> Hd2 Hr Hlen Hs Hw. rewrite Hd. split.
  { by apply (overwrite_app_mid []); [|len]. }
  assert (0 < META_PAGE_SIZE ∧ 8 <= META_PAGE_SIZE) as [? ?]
    by (with_strategy transparent [META_PAGE_SIZE] unfold META_PAGE_SIZE; lia).
  pose proof (sorted_count 1 ids' ltac:(done) Hs Hw) as Hc.
  replace (as_u64 (length ids')) with (N.of_nat (length ids')) in *
    by (symmetry; apply N.mod_small; lia).
  set (hdr := le_bytes 8 (N.of_nat (length ids'))) in *.
  assert (∃ tail, data2 = hdr ++ tail ∧ 8 * length ids' < length tail) as (tail & -> & Ht).
  { rewrite Hd2. assert (length hdr = 8) by (unfold hdr; len).
    case_match; bool_to_prop; rewrite <-?app_assoc; eexists; (split; [done|]); len. }
  exists (hdr ++ ids_bytes ids' ++ drop (8 * length ids') tail). split.
  - rewrite <-(take_drop (8 * length ids') tail) at 1.
    apply overwrite_app_mid; [by unfold hdr; len|]. len.
  - split; [|done|done]. exists (drop (8 * length ids') tail). split; [done|len].
Qed.

Lemma sorted_insert_id (l1 l2 : list N) id :
  StronglySorted N.lt (l1 ++ l2) →
  (∀ x, x ∈ l1 → (x < id)%N) → (∀ x, x ∈ l2 → (id < x)%N) →
  StronglySorted N.lt (l1 ++ id :: l2).
Proof.
  rewrite !StronglySorted_app, StronglySorted_cons. intros (H & Hs1 & Hs2) Hlt Hgt.
  split_and!; [|done|by apply Forall_forall|done].
  intros a b Ha [->|Hb]%elem_of_cons; auto.
Qed.

Lemma sorted_remove_id (l1 l2 : list N) id :
  StronglySorted N.lt (l1 ++ id :: l2) →
  StronglySorted N.lt (l1 ++ l2) ∧ id ∉ l1 ++ l2.
Proof.
  rewrite !StronglySorted_app, StronglySorted_cons. intros (H & ? & Hid & ?). split.
  - split_and!; [|done|done]. intros a b Ha Hb. apply H; set_solver.
  - rewrite Forall_forall in Hid. intros [Hin|Hin]%elem_of_app.
    + specialize (H id id Hin ltac:(set_solver)). lia.
    + specialize (Hid id Hin). lia.
Qed.

Lemma level_insert_holds l ids id :
  level_holds l ids → valid_id id → id ∉ ids →
  ∃ l' ids', LevelMetadata.insert l id = Ok (true, l') ∧ level_holds l' ids' ∧
    (list_to_set ids' : gset N) = {[id]} ∪ list_to_set ids.
Proof.
  intros Hl Hid Hnew. unfold LevelMetadata.insert. rewrite (get_table_ids_holds _ _ Hl).
  run_bind. destruct Hl as [(rest & Hd & Hr) Hs Hw]. pose proof (search_id_spec id ids Hs) as Hf.
  destruct (LevelMetadata.search_id id ids) as [p|p].
  { destruct Hf as (l1 & l2 & -> & _). set_solver. }
  destruct Hf as (l1 & l2 & -> & <- & H1 & H2). unfold vec_insert.
  rewrite take_app_length, drop_app_length.
  destruct (level_rewrite l (l1 ++ l2) (l1 ++ id :: l2) _ _ rest Hd (reflexivity _) (reflexivity _) Hr)
    as (-> & data3 & E3 & Hl'); [len|by apply sorted_insert_id| |].
  { apply Forall_app in Hw as [? ?]. apply Forall_app; split; [done|by constructor]. }
  run_bind. rewrite E3. run_bind. do 2 eexists. split_and!; [done..|].
  rewrite !list_to_set_app_L. simpl. set_solver.
Qed.

Lemma level_remove_holds l ids id :
  level_holds l ids → id ∈ ids →
  ∃ l' ids', LevelMetadata.remove l id = Ok (true, l') ∧ level_holds l' ids' ∧
    (list_to_set ids' : gset N) = list_to_set ids ∖ {[id]}.
Proof.
  intros Hl Hin. unfold LevelMetadata.remove. rewrite (get_table_ids_holds _ _ Hl).
  run_bind. destruct Hl as [(rest & Hd & Hr) Hs Hw]. pose proof (search_id_spec id ids Hs) as Hf.
  destruct (LevelMetadata.search_id id ids) as [p|p].
  2:{ destruct Hf as (l1 & l2 & -> & _ & H1 & H2).
      apply elem_of_app in Hin as [Hin|Hin]; [specialize (H1 _ Hin)|specialize (H2 _ Hin)]; lia. }
  destruct Hf as (l1 & l2 & -> & <-). destruct (sorted_remove_id _ _ _ Hs) as [Hs' Hni].
  unfold vec_remove. rewrite take_app_length.
  rewrite (drop_app_ge l1 (id :: l2)) by lia.
  replace (S (length l1) - length l1) with 1 by lia. cbn [drop]. rewrite drop_0.
  destruct (level_rewrite l (l1 ++ id :: l2) (l1 ++ l2) _ _ rest Hd (reflexivity _) (reflexivity _) Hr)
    as (-> & data3 & E3 & Hl'); [len|done| |].
  { apply Forall_app in Hw as [? Hw2]. apply Forall_cons in Hw2 as [_ ?].
    by apply Forall_app. }
  run_bind. rewrite (proj2 (Nat.leb_gt _ _)) in E3 by len. rewrite E3. run_bind.
  do 2 eexists. split_and!; [done..|]. rewrite !list_to_set_app_L in *. simpl. set_solver.
Qed.

(** ** Table sets *)

(** Each addition is new on its level, each removal exists on its level. *)
Fixpoint adds_ok (ls : list (gset N)) (add : list (N * N)) : Prop :=
  match add with
  | [] => True
  | a :: add' => (∃ s, ls !! N.to_nat a.1 = Some s ∧ a.2 ∉ s) ∧ valid_id a.2 ∧
      adds_ok (spec_add ls a) add'
  end.

Fixpoint removes_ok (ls : list (gset N)) (remove : list (N * N)) : Prop :=
  match remove with
  | [] => True
  | a :: remove' => (∃ s, ls !! N.to_nat a.1 = Some s ∧ a.2 ∈ s) ∧
      removes_ok (spec_remove ls a) remove'
  end.

Lemma id_sets_lookup ids i s :
  id_sets ids !! i = Some s → ∃ l, ids !! i = Some l ∧ s = list_to_set l.
Proof. unfold id_sets. rewrite list_lookup_fmap_Some. intros (l & -> & ?). eauto. Qed.

Lemma id_sets_insert ids i l' l f :
  ids !! i = Some l → (list_to_set l' : gset N) = f (list_to_set l) →
  id_sets (<[i := l']> ids) = alter f i (id_sets ids).
Proof.
  intros Hi Hf. unfold id_sets. apply list_eq. intros j.
  destruct (decide (i = j)) as [<-|Hne].
  - rewrite list_lookup_alter_eq, !list_lookup_fmap, Hi.
    rewrite list_lookup_insert_eq by (by eapply lookup_lt_Some). simpl. by rewrite Hf.
  - by rewrite list_lookup_alter_ne, !list_lookup_fmap, list_lookup_insert_ne.
Qed.

Lemma add_tables_holds ls ids add :
  Forall2 level_holds ls ids → adds_ok (id_sets ids) add →
  ∃ ls' ids', Manifest.add_tables ls add = Ok ls' ∧ Forall2 level_holds ls' ids' ∧
    id_sets ids' = foldl spec_add (id_sets ids) add.
Proof.
  revert ls ids; induction add as [|[level id] add IH]; intros ls ids Hls Hok.
  { by exists ls, ids. }
  destruct Hok as ((s & Hs & Hnew) & Hid & Hok). cbn [Manifest.add_tables].
  apply id_sets_lookup in Hs as (l & Hl & ->). simpl in *.
  destruct (Forall2_lookup_r _ _ _ _ _ Hls Hl) as (lm & Hlm & Hh). rewrite Hlm. simpl.
  destruct (level_insert_holds lm l id Hh Hid) as (lm' & l' & -> & Hh' & Hset);
    [set_solver|]. simpl.
  assert (id_sets (<[N.to_nat level := l']> ids) = spec_add (id_sets ids) (level, id)) as Hstep
    by (by apply (id_sets_insert _ _ _ l (λ s, {[id]} ∪ s))).
  destruct (IH (<[N.to_nat level := lm']> ls) (<[N.to_nat level := l']> ids))
    as (ls' & ids' & -> & Hls' & Heq); [by apply Forall2_insert|by rewrite Hstep|].
  exists ls', ids'. split_and!; [done..|]. by rewrite Heq, Hstep.
Qed.

Lemma remove_tables_holds ls ids remove :
  Forall2 level_holds ls ids → removes_ok (id_sets ids) remove →
  ∃ ls' ids', Manifest.remove_tables ls remove = Ok ls' ∧ Forall2 level_holds ls' ids' ∧
    id_sets ids' = foldl spec_remove (id_sets ids) remove.
Proof.
  revert ls ids; induction remove as [|[level id] remove IH]; intros ls ids Hls Hok.
  { by exists ls, ids. }
  destruct Hok as ((s & Hs & Hin) & Hok). cbn [Manifest.remove_tables].
  apply id_sets_lookup in Hs as (l & Hl & ->). simpl in *.
  destruct (Forall2_lookup_r _ _ _ _ _ Hls Hl) as (lm & Hlm & Hh). rewrite Hlm. simpl.
  destruct (level_remove_holds lm l id Hh) as (lm' & l' & -> & Hh' & Hset);
    [set_solver|]. simpl.
  assert (id_sets (<[N.to_nat level := l']> ids) = spec_remove (id_sets ids) (level, id)) as Hstep
    by (by apply (id_sets_insert _ _ _ l (λ s, s ∖ {[id]}))).
  destruct (IH (<[N.to_nat level := lm']> ls) (<[N.to_nat level := l']> ids))
    as (ls' & ids' & -> & Hls' & Heq); [by apply Forall2_insert|by rewrite Hstep|].
  exists ls', ids'. split_and!; [done..|]. by rewrite Heq, Hstep.
Qed.

Lemma update_table_set_ok m meta ids add remove :
  manifest_holds m meta ids →
  adds_ok (id_sets ids) add →
  removes_ok (foldl spec_add (id_sets ids) add) remove →
  ∃ m' ids', Manifest.update_table_set m add remove = Ok m' ∧ manifest_holds m' meta ids' ∧
    Manifest.get_table_ids m' = Ok ids' ∧
    id_sets ids' = foldl spec_remove (foldl spec_add (id_sets ids) add) remove.
Proof.
  intros [Hmeta Hwf Hls] Ha Hr. unfold Manifest.update_table_set.
  destruct (add_tables_holds _ _ _ Hls Ha) as (ls1 & ids1 & -> & Hls1 & E1). run_bind.
  rewrite <-E1 in Hr. destruct (remove_tables_holds _ _ _ Hls1 Hr) as (ls2 & ids2 & -> & Hls2 & E2).
  run_bind. do 2 eexists. split; [done|]. split; [by split|]. split; [|by rewrite <-E1].
  unfold Manifest.get_table_ids. simpl. clear -Hls2.
  induction Hls2 as [|l ids ls idss Hl _ IH]; simpl; [done|].
  by rewrite (get_table_ids_holds _ _ Hl), IH.
Qed.

(** C27: [update_table_set] on the mapped level files is the update of the sets
    of table identifiers it stands for: the additions are inserted, then the
    removals taken out, on their levels, and [get_table_ids] returns the new
    sets, each in increasing order; the counters are not touched. *)
Theorem update_table_set_refines m meta ids add remove :
  manifest_holds m meta ids →
  adds_ok (id_sets ids) add →
  removes_ok (foldl spec_add (id_sets ids) add) remove →
  ∃ m' ids', Manifest.update_table_set m add remove = Ok m' ∧ manifest_holds m' meta ids' ∧
    Manifest.get_table_ids m' = Ok ids' ∧
    id_sets ids' = foldl spec_remove (foldl spec_add (id_sets ids) add) remove.
Proof. apply update_table_set_ok. Qed.

(** ** Creating and reopening *)

Lemma new_level_holds idx :
  ∃ l, Manifest.new_level idx = Ok l ∧ level_holds l [].
Proof.
  unfold Manifest.new_level.
  assert (replicate META_PAGE_SIZE x00 = [] ++ replicate 8 x00 ++ replicate (META_PAGE_SIZE - 8) x00)
    as ->.
  { cbn [app]. rewrite <-replicate_add. f_equal. }
  rewrite overwrite_app_mid by len. run_bind. eexists; split; [done|].
  split; [|constructor|constructor]. simpl. eexists. split; [done|].
  rewrite length_replicate. with_strategy transparent [META_PAGE_SIZE] unfold META_PAGE_SIZE. lia.
Qed.

Lemma new_levels_hold n idx :
  ∃ ls, Manifest.new_levels idx n = Ok ls ∧ Forall2 level_holds ls (replicate n []).
Proof.
  revert idx; induction n as [|n IH]; intros idx; simpl; [eauto using Forall2_nil|].
  destruct (new_level_holds idx) as (l & -> & Hl). destruct (IH (S idx)) as (ls & -> & Hls).
  simpl. eauto using Forall2_cons_2.
Qed.

(** The metadata of an empty database. *)
Definition initial_meta (params : Params.Params) : DatabaseMetadata.DatabaseMetadata :=
  DatabaseMetadata.mk FIRST_TABLE_ID (as_u32 params.(Params.num_levels)) 1 0 MIN_DATA_BLOCK_ID.

Lemma manifest_new_holds params :
  ∃ m, Manifest.new params = Ok m ∧
    manifest_holds m (initial_meta params) (replicate params.(Params.num_levels) []).
Proof.
  unfold Manifest.new. destruct (new_levels_hold (Params.num_levels params) 0) as (ls & -> & Hls).
  simpl. eexists; split; [done|]. split; [done| |done].
  split; simpl; try done. by apply N.mod_lt.
Qed.

Lemma level_files_lookup d idx ls i l :
  ls !! i = Some l → level_files d idx ls !! LevelFile (idx + i) = Some l.(LevelMetadata.data).
Proof.
  revert idx i; induction ls as [|l' ls IH]; intros idx i Hi; [done|]. cbn [level_files].
  destruct i as [|i]; simpl in Hi.
  - simplify_eq. rewrite Nat.add_0_r. by rewrite lookup_insert_eq.
  - rewrite lookup_insert_ne by (intros [=]; lia).
    replace (idx + S i) with (S idx + i) by lia. by apply IH.
Qed.

Lemma open_levels_hold d idx ls ids :
  Forall2 level_holds ls ids →
  (∀ i l, ls !! i = Some l → d !! LevelFile (idx + i) = Some l.(LevelMetadata.data)) →
  ∃ ls', Manifest.open_levels d idx (length ls) = Ok ls' ∧ Forall2 level_holds ls' ids.
Proof.
  intros Hls. revert idx; induction Hls as [|l id ls ids Hl Hls IH]; intros idx Hd; simpl.
  { eauto using Forall2_nil. }
  pose proof (Hd 0 l ltac:(done)) as Hd0. rewrite Nat.add_0_r in Hd0. rewrite Hd0.
  destruct Hl as [(rest & Hdata & Hr) Hs Hw]. rewrite Hdata.
  rewrite read_prefix_app by apply length_le_bytes. run_bind.
  destruct (IH (S idx)) as (ls' & -> & Hls').
  { intros i l' Hi. replace (S idx + i) with (idx + S i) by lia. by apply Hd. }
  run_bind. eexists; split; [done|]. constructor; [|done]. split; [|done|done]. simpl. eauto.
Qed.

Lemma manifest_open_holds params m meta ids d :
  manifest_holds m meta ids → length ids = params.(Params.num_levels) →
  meta.(DatabaseMetadata.num_levels) = N.of_nat params.(Params.num_levels) →
  ∃ m', Manifest.open params (mapped_files m d) = Ok m' ∧ manifest_holds m' meta ids.
Proof.
  intros [Hmeta Hwf Hls] Hids Hn. unfold Manifest.open, mapped_files.
  rewrite lookup_insert_eq, Hmeta, (meta_from_as_bytes _ Hwf). run_bind.
  assert (as_u32 (Params.num_levels params) = N.of_nat (Params.num_levels params)) as Hcast.
  { apply N.mod_small. rewrite <-Hn. apply Hwf. }
  rewrite Hcast, <-Hn, N.eqb_refl. cbn [negb].
  rewrite Hn, Nat2N.id, <-Hids, <-(Forall2_length _ _ _ Hls).
  set (d' := insert ManifestFile _ _).
  destruct (open_levels_hold d' 0 (Manifest.levels m) ids Hls) as (ls' & -> & Hls').
  { intros i l Hi. unfold d'. rewrite lookup_insert_ne by done. by apply level_files_lookup. }
  simpl. eexists; split; [done|]. by split.
Qed.

(** Table identifiers are not handed out twice, not even across a restart:
    when a table identifier is generated, the database is closed and reopened
    from its files, and another one is generated, it is the successor; the
    table lists and the other counters come back as they were. *)
Theorem table_ids_survive_reopen params m meta ids d :
  manifest_holds m meta ids → length ids = params.(Params.num_levels) →
  meta.(DatabaseMetadata.num_levels) = N.of_nat params.(Params.num_levels) →
  (meta.(DatabaseMetadata.next_table_id) + 2 < u64_bound)%N →
  ∃ id m1 m2 m3, Manifest.generate_next_table_id m = Ok (id, m1) ∧
    Manifest.open params (mapped_files m1 d) = Ok m2 ∧
    Manifest.generate_next_table_id m2 = Ok ((id + 1)%N, m3) ∧
    Manifest.get_table_ids m2 = Ok ids ∧
    Manifest.get_log_offset m2 = Manifest.get_log_offset m ∧
    Manifest.get_seq_number_offset m2 = Manifest.get_seq_number_offset m.
Proof.
  intros Hm Hids Hn Hlt.
  destruct (generate_table_id_holds m meta ids Hm) as (m1 & E1 & Hm1); [lia|].
  destruct (manifest_open_holds params m1 _ ids d Hm1 Hids Hn) as (m2 & E2 & Hm2).
  destruct (generate_table_id_holds m2 _ ids Hm2) as (m3 & E3 & Hm3); [simpl; lia|].
  exists (DatabaseMetadata.next_table_id meta), m1, m2, m3. split_and!; try done.
  - unfold Manifest.get_table_ids. pose proof (mh_levels _ _ _ Hm2) as Hls. clear -Hls.
    induction Hls as [|l ids' ls idss Hl _ IH]; simpl; [done|].
    by rewrite (get_table_ids_holds _ _ Hl), IH.
  - unfold Manifest.get_log_offset.
    by rewrite (get_meta_holds _ _ _ Hm2), (get_meta_holds _ _ _ Hm).
  - unfold Manifest.get_seq_number_offset.
    by rewrite (get_meta_holds _ _ _ Hm2), (get_meta_holds _ _ _ Hm).
Qed.

(** C28: the offsets only grow: setting the log offset, or the sequence number
    offset, to a larger 64-bit value stores it and changes nothing else, and
    setting it to a value that is not larger panics. *)
Theorem manifest_offsets_monotone m meta ids offset :
  manifest_holds m meta ids → (offset < u64_bound)%N →
  match Manifest.set_log_offset m offset with
  | Ok m' => (meta.(DatabaseMetadata.log_offset) < offset)%N ∧
      Manifest.get_log_offset m' = Ok offset ∧
      Manifest.get_seq_number_offset m' = Ok meta.(DatabaseMetadata.seq_number_offset) ∧
      Manifest.get_table_ids m' = Manifest.get_table_ids m
  | Panic _ => (offset <= meta.(DatabaseMetadata.log_offset))%N
  | _ => False
  end ∧
  match Manifest.set_seq_number_offset m offset with
  | Ok m' => (meta.(DatabaseMetadata.seq_number_offset) < offset)%N ∧
      Manifest.get_seq_number_offset m' = Ok offset ∧
      Manifest.get_log_offset m' = Ok meta.(DatabaseMetadata.log_offset) ∧
      Manifest.get_table_ids m' = Manifest.get_table_ids m
  | Panic _ => (offset <= meta.(DatabaseMetadata.seq_number_offset))%N
  | _ => False
  end.
Proof.
  intros Hm Hw. split.
  - destruct (decide (DatabaseMetadata.log_offset meta < offset)%N) as [Hlt|Hge].
    + destruct (set_log_offset_holds m meta ids Hm offset (conj Hlt Hw)) as (m' & E & Hm').
      rewrite E. unfold Manifest.get_log_offset, Manifest.get_seq_number_offset.
      rewrite (get_meta_holds _ _ _ Hm'). split_and!; [done..|].
      unfold Manifest.set_log_offset in E.
      apply bind_Ok_inv in E as (? & _ & (? & _ & E)%bind_Ok_inv).
      unfold Manifest.get_table_ids. by rewrite (set_field_levels _ _ _ _ E).
    + unfold Manifest.set_log_offset. rewrite (get_meta_holds _ _ _ Hm). simpl.
      rewrite (proj2 (N.ltb_ge _ _)) by lia. simpl. lia.
  - destruct (decide (DatabaseMetadata.seq_number_offset meta < offset)%N) as [Hlt|Hge].
    + destruct (set_seq_number_offset_holds m meta ids Hm offset (conj Hlt Hw)) as (m' & E & Hm').
      rewrite E. unfold Manifest.get_log_offset, Manifest.get_seq_number_offset.
      rewrite (get_meta_holds _ _ _ Hm'). split_and!; [done..|].
      unfold Manifest.set_seq_number_offset in E.
      apply bind_Ok_inv in E as (? & _ & E). destruct (_ <=? _)%N; [done|].
      unfold Manifest.get_table_ids. by rewrite (set_field_levels _ _ _ _ E).
    + unfold Manifest.set_seq_number_offset. rewrite (get_meta_holds _ _ _ Hm). simpl.
      rewrite (proj2 (N.leb_le _ _)) by lia. lia.
Qed.

(** ** Witnesses *)

(** A manifest with one level that holds the table 7. *)
Definition sample_params : Params.Params :=
  {| Params.db_path := "db"; Params.max_memtable_size := 100; Params.num_levels := 1;
     Params.max_open_files := 1000; Params.max_key_block_size := 4;
     Params.block_restart_interval := 2; Params.log_level_stats := None;
     Params.compaction_concurrency := 1; Params.seek_based_compaction := None |}.

Definition sample_meta : DatabaseMetadata.DatabaseMetadata := DatabaseMetadata.mk 8 1 5 20 3.

Definition sample_manifest : Manifest.Manifest :=
  Manifest.mk (DatabaseMetadata.as_bytes sample_meta)
    [LevelMetadata.mk 0 (le_bytes 8 1 ++ le_bytes 8 7 ++ replicate 16 x00)].

Lemma sample_manifest_holds : manifest_holds sample_manifest sample_meta [[7%N]].
Proof.
  split; [done|split; reflexivity|]. repeat constructor; try done.
  simpl. exists (replicate 16 x00). split; [done|simpl; lia].
Qed.

Lemma update_table_set_refines_witness :
  ∃ m' ids', Manifest.update_table_set sample_manifest [(0%N, 9%N)] [(0%N, 7%N)] = Ok m' ∧
    manifest_holds m' sample_meta ids' ∧
    Manifest.get_table_ids m' = Ok ids' ∧
    id_sets ids' = foldl spec_remove (foldl spec_add (id_sets [[7%N]]) [(0%N, 9%N)]) [(0%N, 7%N)].
Proof.
  apply (update_table_set_refines sample_manifest sample_meta [[7%N]] [(0%N, 9%N)] [(0%N, 7%N)]).
  - exact sample_manifest_holds.
  - split; [|split; [split; vm_compute; done|done]]. eexists; split; [done|]. set_solver.
  - split; [|done]. eexists; split; [done|]. set_solver.
Defined.

Lemma table_ids_survive_reopen_witness :
  ∃ id m1 m2 m3, Manifest.generate_next_table_id sample_manifest = Ok (id, m1) ∧
    Manifest.open sample_params (mapped_files m1 ∅) = Ok m2 ∧
    Manifest.generate_next_table_id m2 = Ok ((id + 1)%N, m3) ∧
    Manifest.get_table_ids m2 = Ok [[7%N]] ∧
    Manifest.get_log_offset m2 = Manifest.get_log_offset sample_manifest ∧
    Manifest.get_seq_number_offset m2 = Manifest.get_seq_number_offset sample_manifest.
Proof.
  apply (table_ids_survive_reopen sample_params sample_manifest sample_meta [[7%N]] ∅);
    [exact sample_manifest_holds|reflexivity|reflexivity|vm_compute; reflexivity].
Defined.

Lemma manifest_offsets_monotone_witness :
  match Manifest.set_log_offset sample_manifest 21 with
  | Ok m' => (20 < 21)%N ∧ Manifest.get_log_offset m' = Ok 21%N ∧
      Manifest.get_seq_number_offset m' = Ok 5%N ∧
      Manifest.get_table_ids m' = Manifest.get_table_ids sample_manifest
  | Panic _ => (21 <= 20)%N
  | _ => False
  end ∧
  match Manifest.set_seq_number_offset sample_manifest 21 with
  | Ok m' => (5 < 21)%N ∧ Manifest.get_seq_number_offset m' = Ok 21%N ∧
      Manifest.get_log_offset m' = Ok 20%N ∧
      Manifest.get_table_ids m' = Manifest.get_table_ids sample_manifest
  | Panic _ => (21 <= 5)%N
  | _ => False
  end.
Proof.
  apply (manifest_offsets_monotone sample_manifest sample_meta [[7%N]] 21);
    [exact sample_manifest_holds|vm_compute; reflexivity].
Defined.
