(* ===== verification/DataBlock.v ===== *)
(** * Data blocks (src/src/data_blocks)

    A data block holds the entries of a part of a sorted table: a header, the
    entries with their keys prefix-compressed against the previous key, and the
    restart list, the offsets of the entries whose key is stored in full.  This
    file models the byte layout, the builder ([DataBlockBuilder]) and the
    lookups of a block ([DataBlock], [DataEntry]); the block store with its
    caches is in [DataBlocks].

    The Bloom filter (crate [bloomfilter]) is a parameter with its documented
    behaviour. *)

From stdpp Require Import base list gmap strings sorting.
From Stdlib Require Import Strings.Byte NArith Lia.
From S2P Require Import Prelude WriteBatch.

Local Open Scope nat_scope.
Local Open Scope lsm_scope.

(** [BLOOM_LENGTH], [BLOOM_ITEM_COUNT] and [BLOOM_HEADER_SIZE] *)
Definition BLOOM_LENGTH : nat := N.to_nat 1024.
Definition BLOOM_ITEM_COUNT : nat := N.to_nat 1024.
Definition BLOOM_HEADER_SIZE : nat := 1 + 8 + 4 + 32.

(** The operations of [bloomfilter::Bloom<[u8]>] the blocks use. *)
Class Bloom := {
  bloom : Type;
  bloom_new : nat → nat → option bloom;
  bloom_set : bloom → Key → bloom;
  bloom_check : bloom → Key → bool;
  bloom_as_slice : bloom → list byte;
  bloom_from_bytes : list byte → option bloom;
}.

(** The filters the builder makes: a new filter with keys set in it. *)
Inductive bloom_built `{Bloom} : bloom → Prop :=
| built_new b : bloom_new BLOOM_LENGTH BLOOM_ITEM_COUNT = Some b → bloom_built b
| built_set b k : bloom_built b → bloom_built (bloom_set b k).

(** What the crate documents: creating a filter of this size succeeds, there are
    no false negatives, the serialized form has a fixed header and the bitmap,
    and reading it back gives a filter that answers the same. *)
Class BloomLaws `{Bloom} : Prop := {
  bloom_new_some : is_Some (bloom_new BLOOM_LENGTH BLOOM_ITEM_COUNT);
  bloom_check_set b k : bloom_check (bloom_set b k) k = true;
  bloom_check_mono b k k' : bloom_check b k' = true → bloom_check (bloom_set b k) k' = true;
  bloom_slice_length b : bloom_built b →
    length (bloom_as_slice b) = BLOOM_LENGTH + BLOOM_HEADER_SIZE;
  bloom_roundtrip b : bloom_built b →
    ∃ b', bloom_from_bytes (bloom_as_slice b) = Some b' ∧
      ∀ k, bloom_check b' k = bloom_check b k;
}.

(** [size_of::<DataBlockHeader>()] and [size_of::<EntryHeader>()] *)
Definition header_length : nat := 4 + 4 + (BLOOM_LENGTH + BLOOM_HEADER_SIZE).
Definition entry_header_length : nat := 4 + 4 + 1 + 8 + 8.
#[global] Opaque header_length.

Module EntryHeader.

(** [struct EntryHeader] (without [wisckey]) *)
Record EntryHeader := mk {
  prefix_len : N;
  suffix_len : N;
  entry_type : N;
  seq_number : N;
  value_length : N;
}.

(** [header.as_bytes()]: [repr(C, packed)]. *)
Definition as_bytes (h : EntryHeader) : list byte :=
  le_bytes 4 h.(prefix_len) ++ le_bytes 4 h.(suffix_len) ++ le_bytes 1 h.(entry_type)
    ++ le_bytes 8 h.(seq_number) ++ le_bytes 8 h.(value_length).

(** [EntryHeader::ref_from_bytes] *)
Definition from_bytes (d : list byte) : outcome EntryHeader :=
  if length d =? entry_header_length then
    Ok {| prefix_len := le_val (take 4 d);
          suffix_len := le_val (take 4 (drop 4 d));
          entry_type := le_val (take 1 (drop 8 d));
          seq_number := le_val (take 8 (drop 9 d));
          value_length := le_val (take 8 (drop 17 d)) |}
  else Panic "Failed to read entry header".

End EntryHeader.

Module DataBlock.

(** [struct DataBlock] *)
Record DataBlock `{Bloom} := mk {
  restart_list_start : nat;
  num_entries : N;
  restart_interval : N;
  data : list byte;
  bloom_filter : bloom;
}.

(** [DataBlock::new_from_data] *)
Definition new_from_data `{Bloom} (data : list byte) (restart_interval : N)
  : outcome DataBlock :=
  _ ← assert_that (negb (length data =? 0)) "No data?";
  header ← slice data 0 header_length;
  let restart_list_start := le_val (take 4 header) in
  let number_of_entries := le_val (take 4 (drop 4 header)) in
  bloom_filter ← expect (bloom_from_bytes (drop 8 header)) "Failed to load bloom filter";
  Ok {| num_entries := number_of_entries;
        restart_list_start := N.to_nat restart_list_start;
        data := data;
        restart_interval := restart_interval;
        bloom_filter := bloom_filter |}.

(** [struct DataEntry] *)
Record DataEntry `{Bloom} := mkEntry {
  block : DataBlock;
  offset : nat;
  next_offset : N;
}.

(** [enum SearchResult] *)
Inductive SearchResult `{Bloom} :=
| ExactMatch (entry : DataEntry)
| Range (start : N) (end_ : N).

Section ops.
Context `{Bloom}.

(** [DataEntry::get_header] *)
Definition get_header (e : DataEntry) : outcome EntryHeader.EntryHeader :=
  header_data ← slice e.(block).(data) e.(offset) (e.(offset) + entry_header_length);
  EntryHeader.from_bytes header_data.

(** [DataEntry::get_sequence_number] *)
Definition get_sequence_number (e : DataEntry) : outcome N :=
  h ← get_header e; Ok h.(EntryHeader.seq_number).

(** [DataEntry::get_type] *)
Definition get_type (e : DataEntry) : outcome DataEntryType :=
  h ← get_header e;
  if (h.(EntryHeader.entry_type) =? WriteOp.PUT_OP)%N then Ok TPut
  else if (h.(EntryHeader.entry_type) =? WriteOp.DELETE_OP)%N then Ok TDelete
  else Panic "Unknown data entry type".

(** [DataEntry::get_value] *)
Definition get_value (e : DataEntry) : outcome (option Value) :=
  h ← get_header e;
  let value_offset := e.(offset) + entry_header_length + N.to_nat h.(EntryHeader.suffix_len) in
  if (h.(EntryHeader.entry_type) =? WriteOp.PUT_OP)%N then
    let end_ := value_offset + N.to_nat h.(EntryHeader.value_length) in
    v ← slice e.(block).(data) value_offset end_; Ok (Some v)
  else if (h.(EntryHeader.entry_type) =? WriteOp.DELETE_OP)%N then Ok None
  else Panic "Unknown write op".

(** [DataBlock::get_entry_at_offset] *)
Definition get_entry_at_offset (b : DataBlock) (offset : N) (previous_key : Key)
  : outcome (Key * DataEntry) :=
  let offset := N.to_nat offset + header_length in
  if b.(restart_list_start) <? offset + entry_header_length then Panic "Invalid offset" else
  header_data ← slice b.(data) offset (offset + entry_header_length);
  header ← EntryHeader.from_bytes header_data;
  let entry_offset := offset in
  let offset := offset + entry_header_length in
  prefix ← slice previous_key 0 (N.to_nat header.(EntryHeader.prefix_len));
  suffix ← slice b.(data) offset (offset + N.to_nat header.(EntryHeader.suffix_len));
  let kdata := prefix ++ suffix in
  let offset := offset + N.to_nat header.(EntryHeader.suffix_len) in
  let offset := offset + N.to_nat header.(EntryHeader.value_length) in
  next_offset ← usize_sub offset header_length;
  Ok (kdata, {| block := b; offset := entry_offset; next_offset := as_u32 next_offset |}).

(** [DataBlock::get_num_entries] *)
Definition get_num_entries (b : DataBlock) : N := b.(num_entries).

(** [DataBlock::byte_len] *)
Definition byte_len (b : DataBlock) : outcome N :=
  rl_len ← usize_sub (length b.(data)) b.(restart_list_start);
  n ← usize_sub (length b.(data)) header_length;
  n ← usize_sub n rl_len;
  Ok (as_u32 n).

(** [DataBlock::restart_list_len] *)
Definition restart_list_len (b : DataBlock) : outcome nat :=
  rl_len ← usize_sub (length b.(data)) b.(restart_list_start);
  _ ← assert_that (rl_len mod 4 =? 0) "rl_len % offset_len == 0";
  Ok (rl_len / 4).

(** [DataBlock::get_restart_offset] *)
Definition get_restart_offset (b : DataBlock) (pos : N) : outcome N :=
  let pos := b.(restart_list_start) + N.to_nat pos * 4 in
  x ← slice b.(data) pos (pos + 4);
  u32_sub (le_val x) (as_u32 header_length).

(** The [while current_idx < index] loop of [get_entry_at_index], which runs
    [n = index - current_idx] times. *)
Fixpoint skip_entries (n : nat) (b : DataBlock) (key : Key) (entry : DataEntry)
  : outcome (Key * DataEntry) :=
  match n with
  | O => Ok (key, entry)
  | S n' =>
      '(key, entry) ← get_entry_at_offset b entry.(next_offset) key;
      skip_entries n' b key entry
  end.

(** [DataBlock::get_entry_at_index] *)
Definition get_entry_at_index (b : DataBlock) (index : N) : outcome (Key * DataEntry) :=
  if (b.(restart_interval) =? 0)%N then Panic "attempt to divide by zero" else
  let restart_pos := (index / b.(restart_interval))%N in
  restart_offset ← get_restart_offset b restart_pos;
  '(key, entry) ← get_entry_at_offset b restart_offset [];
  let current_idx := (restart_pos * b.(restart_interval))%N in
  skip_entries (N.to_nat (index - current_idx)) b key entry.

(** The [while end - start > 1] loop of [binary_search]; [fuel] bounds its
    rounds. *)
Fixpoint search_loop (fuel : nat) (b : DataBlock) (key : Key) (start end_ : N)
  : outcome (DataEntry + (N * N)) :=
  match fuel with
  | O => OutOfFuel
  | S fuel' =>
      n ← u32_sub end_ start;
      if negb (1 <? n)%N then Ok (inr (start, end_)) else
      let mid := (start + (end_ - start) / 2)%N in
      offset ← get_restart_offset b mid;
      '(this_key, entry) ← get_entry_at_offset b offset [];
      match key_cmp this_key key with
      | Eq => Ok (inl entry)
      | Lt => search_loop fuel' b key mid end_
      | Gt => search_loop fuel' b key start mid
      end
  end.

(** [DataBlock::binary_search] *)
Definition binary_search (b : DataBlock) (key : Key) : outcome SearchResult :=
  rl_len ← restart_list_len b;
  end_ ← u32_sub (as_u32 rl_len) 1;
  r ← search_loop (S rl_len) b key 0 end_;
  match r with
  | inl entry => Ok (ExactMatch entry)
  | inr (start, end_) =>
      e ← u32_add end_ 1;
      end_ ← (if (e =? as_u32 rl_len)%N then byte_len b else get_restart_offset b end_);
      Ok (Range start end_)
  end.

(** The sequential search of [get_by_key]. *)
Fixpoint scan (fuel : nat) (b : DataBlock) (key : Key) (pos end_ : N) (last_key : Key)
  : outcome (option DataEntry) :=
  if negb (pos <? end_)%N then Ok None else
  match fuel with
  | O => OutOfFuel
  | S fuel' =>
      '(this_key, entry) ← get_entry_at_offset b pos last_key;
      if decide (key = this_key) then Ok (Some entry)
      else scan fuel' b key entry.(next_offset) end_ this_key
  end.

(** [DataBlock::get_by_key] *)
Definition get_by_key (b : DataBlock) (key : Key) : outcome (option DataEntry) :=
  if negb (bloom_check b.(bloom_filter) key) then Ok None else
  r ← binary_search b key;
  match r with
  | ExactMatch entry => Ok (Some entry)
  | Range start end_ =>
      pos ← get_restart_offset b start;
      scan (length b.(data)) b key pos end_ []
  end.

End ops.

End DataBlock.

(** [struct PrefixedKey] *)
Record PrefixedKey := mkPrefixedKey { prefix_len : N; suffix : Key }.

(** [PrefixedKey::new] *)
Definition PrefixedKey_new (plen : nat) (suffix : Key) : PrefixedKey :=
  {| prefix_len := as_u32 plen; suffix := suffix |}.

Module DataBlockBuilder.

Section builder.
Context `{Bloom}.

(** [struct DataBlockBuilder] (its [data_blocks] is passed to the operations). *)
Record DataBlockBuilder := mk {
  data : list byte;
  position : N;
  restart_list : list N;
  bloom_filter : bloom;
}.

(** [DataBlockBuilder::new] *)
Definition new : outcome DataBlockBuilder :=
  bloom_filter ← expect (bloom_new BLOOM_LENGTH BLOOM_ITEM_COUNT)
                   "Failed to create bloom filter";
  Ok {| data := replicate header_length x00; position := 0; restart_list := [];
        bloom_filter := bloom_filter |}.

(** [DataBlockBuilder::add_entry] *)
Definition add_entry (params : Params.Params) (b : DataBlockBuilder) (key : PrefixedKey)
    (full_key : Key) (seq_number : N) (entry_type : N) (entry_data : Value)
  : outcome DataBlockBuilder :=
  let interval := params.(Params.block_restart_interval) in
  if (interval =? 0)%N then
    Panic "attempt to calculate the remainder with a divisor of zero" else
  restart_list ←
    (if (b.(position) mod interval =? 0)%N then
       _ ← assert_that (key.(prefix_len) =? 0)%N "key.prefix_len == 0";
       Ok (b.(restart_list) ++ [as_u32 (length b.(data))])
     else Ok b.(restart_list));
  let bloom_filter := bloom_set b.(bloom_filter) full_key in
  let header := {| EntryHeader.prefix_len := key.(prefix_len);
                   EntryHeader.suffix_len := as_u32 (length key.(suffix));
                   EntryHeader.seq_number := seq_number;
                   EntryHeader.entry_type := entry_type;
                   EntryHeader.value_length := as_u64 (length entry_data) |} in
  let data := b.(data) ++ EntryHeader.as_bytes header ++ key.(suffix) ++ entry_data in
  position ← u32_add b.(position) 1;
  Ok {| data := data; position := position; restart_list := restart_list;
        bloom_filter := bloom_filter |}.

(** The part of [DataBlockBuilder::finish] that makes the block. *)
Definition finish_block (params : Params.Params) (b : DataBlockBuilder)
  : outcome DataBlock.DataBlock :=
  let bf := bloom_as_slice b.(bloom_filter) in
  _ ← assert_that (length bf =? BLOOM_LENGTH + BLOOM_HEADER_SIZE) "TryFromSliceError";
  let number_of_entries := b.(position) in
  let restart_list_start := as_u32 (length b.(data)) in
  let header := le_bytes 4 restart_list_start ++ le_bytes 4 number_of_entries ++ bf in
  data ← overwrite b.(data) 0 header;
  let data := data ++ (b.(restart_list) ≫= le_bytes 4) in
  Ok {| DataBlock.data := data;
        DataBlock.num_entries := number_of_entries;
        DataBlock.restart_interval := params.(Params.block_restart_interval);
        DataBlock.restart_list_start := N.to_nat restart_list_start;
        DataBlock.bloom_filter := b.(bloom_filter) |}.

(** [DataBlockBuilder::current_size] *)
Definition current_size (b : DataBlockBuilder) : nat := length b.(data).

End builder.

End DataBlockBuilder.

(** ** Specification *)

(** An entry of a block: its full key and how much of it is shared with the
    key before it. *)
Record BEntry := mkBEntry {
  be_key : Key;
  be_prefix : nat;
  be_seq : N;
  be_type : N;
  be_value : Value;
}.

(** The bytes of an entry. *)
Definition entry_header (e : BEntry) : EntryHeader.EntryHeader := {|
  EntryHeader.prefix_len := N.of_nat e.(be_prefix);
  EntryHeader.suffix_len := N.of_nat (length e.(be_key) - e.(be_prefix));
  EntryHeader.entry_type := e.(be_type);
  EntryHeader.seq_number := e.(be_seq);
  EntryHeader.value_length := N.of_nat (length e.(be_value));
|}.

Definition entry_bytes (e : BEntry) : list byte :=
  EntryHeader.as_bytes (entry_header e) ++ drop e.(be_prefix) e.(be_key) ++ e.(be_value).

Definition entries_bytes (es : list BEntry) : list byte := es ≫= entry_bytes.

(** Where entry number [i] starts, counted from the end of the header. *)
Definition entry_offset (es : list BEntry) (i : nat) : nat :=
  length (entries_bytes (take i es)).

(** The entry can be stored: its fields fit, its type is known, and a deletion
    has no value. *)
Record entry_wf (e : BEntry) : Prop := {
  ew_prefix : e.(be_prefix) <= length e.(be_key);
  ew_key : (N.of_nat (length e.(be_key)) < u32_bound)%N;
  ew_value : (N.of_nat (length e.(be_value)) < u32_bound)%N;
  ew_seq : (e.(be_seq) < u64_bound)%N;
  ew_type : e.(be_type) = WriteOp.PUT_OP ∨ e.(be_type) = WriteOp.DELETE_OP;
}.

(** The prefix of [e] can be taken from the key [prev]. *)
Definition extends_key (prev : Key) (e : BEntry) : Prop :=
  e.(be_prefix) <= length prev ∧ take e.(be_prefix) prev = take e.(be_prefix) e.(be_key).

(** Keys are compressed against their predecessor, and stored in full at every
    [interval]-th entry. *)
Definition chained (interval : nat) (es : list BEntry) : Prop :=
  ∀ i e, es !! i = Some e →
    (i mod interval = 0 → e.(be_prefix) = 0) ∧
    (∀ i' p, i = S i' → es !! i' = Some p → extends_key p.(be_key) e).

(** The restart list. *)
Definition num_restarts (interval n : nat) : nat := (n + interval - 1) / interval.

Definition restarts (interval : nat) (es : list BEntry) : list N :=
  (λ j, N.of_nat (header_length + entry_offset es (j * interval)))
    <$> seq 0 (num_restarts interval (length es)).

Definition keys_increasing (es : list BEntry) : Prop := StronglySorted klt (be_key <$> es).

(** The block [b] holds the entries [es]. *)
Record block_ok `{Bloom} (interval : nat) (b : DataBlock.DataBlock) (es : list BEntry) : Prop := {
  bo_data : ∃ hdr, b.(DataBlock.data) =
      hdr ++ entries_bytes es ++ (restarts interval es ≫= le_bytes 4)
    ∧ length hdr = header_length;
  bo_start : b.(DataBlock.restart_list_start) = header_length + length (entries_bytes es);
  bo_num : b.(DataBlock.num_entries) = N.of_nat (length es);
  bo_interval : b.(DataBlock.restart_interval) = N.of_nat interval;
  bo_pos : 0 < interval;
  bo_nonempty : es ≠ [];
  bo_chained : chained interval es;
  bo_wf : Forall entry_wf es;
  bo_sorted : keys_increasing es;
  bo_bloom : ∀ e, e ∈ es → bloom_check b.(DataBlock.bloom_filter) e.(be_key) = true;
  bo_size : (N.of_nat (length b.(DataBlock.data)) < u32_bound)%N;
}.

(** Two blocks with the same bytes whose filters answer the same. *)
Record same_block `{Bloom} (b b' : DataBlock.DataBlock) : Prop := {
  sb_start : b.(DataBlock.restart_list_start) = b'.(DataBlock.restart_list_start);
  sb_num : b.(DataBlock.num_entries) = b'.(DataBlock.num_entries);
  sb_interval : b.(DataBlock.restart_interval) = b'.(DataBlock.restart_interval);
  sb_data : b.(DataBlock.data) = b'.(DataBlock.data);
  sb_bloom : ∀ k, bloom_check b.(DataBlock.bloom_filter) k
                  = bloom_check b'.(DataBlock.bloom_filter) k;
}.

(** The reference to entry number [i] of the block. *)
Definition entry_at `{Bloom} (b : DataBlock.DataBlock) (es : list BEntry) (i : nat)
  : DataBlock.DataEntry := {|
  DataBlock.block := b;
  DataBlock.offset := header_length + entry_offset es i;
  DataBlock.next_offset := N.of_nat (entry_offset es (S i));
|}.

Definition be_data_type (e : BEntry) : DataEntryType :=
  if (e.(be_type) =? WriteOp.PUT_OP)%N then TPut else TDelete.

(** ** Layout *)

Lemma as_u64_small n : (N.of_nat n < u64_bound)%N → as_u64 n = N.of_nat n.
Proof. apply N.mod_small. Qed.

Lemma length_entry_header h : length (EntryHeader.as_bytes h) = entry_header_length.
Proof. done. Qed.

#[export] Hint Rewrite length_entry_header : lsm_len.

Lemma entry_header_roundtrip e :
  entry_wf e → EntryHeader.from_bytes (EntryHeader.as_bytes (entry_header e)) = Ok (entry_header e).
Proof.
  intros [Hp Hk Hv Hs Ht]. unfold entry_header.
  set (p := N.of_nat (be_prefix e)). set (s := N.of_nat (_ - _)). set (v := N.of_nat (length _)).
  transitivity (Ok (EntryHeader.mk (le_val (le_bytes 4 p)) (le_val (le_bytes 4 s))
    (le_val (le_bytes 1 (be_type e))) (le_val (le_bytes 8 (be_seq e))) (le_val (le_bytes 8 v))));
    [reflexivity|].
  rewrite !le_roundtrip_u32, !le_roundtrip_u64, le_roundtrip; try done; subst p s v.
  - destruct Ht as [-> | ->]; done.
  - unfold u32_bound, u64_bound in *. lia.
  - lia.
  - lia.
Qed.

Lemma entries_bytes_app es1 es2 :
  entries_bytes (es1 ++ es2) = entries_bytes es1 ++ entries_bytes es2.
Proof. apply bind_app. Qed.

Lemma entries_bytes_split es i e :
  es !! i = Some e →
  entries_bytes es = entries_bytes (take i es) ++ entry_bytes e ++ entries_bytes (drop (S i) es).
Proof.
  intros Hi. rewrite <-(take_drop_middle es i e Hi) at 1. by rewrite entries_bytes_app.
Qed.

Lemma length_entry_bytes e :
  length (entry_bytes e) =
    entry_header_length + (length e.(be_key) - e.(be_prefix)) + length e.(be_value).
Proof. unfold entry_bytes. len. Qed.

Lemma entry_offset_S es i e :
  es !! i = Some e → entry_offset es (S i) = entry_offset es i + length (entry_bytes e).
Proof.
  intros Hi. unfold entry_offset. rewrite (take_S_r _ _ _ Hi), entries_bytes_app, length_app.
  unfold entries_bytes at 2. simpl. by rewrite app_nil_r.
Qed.

Lemma entry_offset_0 es : entry_offset es 0 = 0.
Proof. done. Qed.

Lemma entry_offset_all es : entry_offset es (length es) = length (entries_bytes es).
Proof. unfold entry_offset. by rewrite take_ge. Qed.

Lemma entry_offset_lt es i j : i < j → j <= length es → entry_offset es i < entry_offset es j.
Proof.
  intros Hij. induction Hij as [|j Hij IH]; intros Hj.
  - destruct (lookup_lt_is_Some_2 es i) as [e He]; [lia|].
    rewrite (entry_offset_S _ _ _ He), length_entry_bytes. unfold entry_header_length. lia.
  - destruct (lookup_lt_is_Some_2 es j) as [e He]; [lia|].
    rewrite (entry_offset_S _ _ _ He). specialize (IH ltac:(lia)). lia.
Qed.

Lemma entry_offset_le es i j : i <= j → j <= length es → entry_offset es i <= entry_offset es j.
Proof.
  intros Hij Hj. destruct (decide (i = j)) as [->|]; [done|].
  apply Nat.lt_le_incl, entry_offset_lt; lia.
Qed.

Lemma entry_offset_bound es i : i <= length es → i <= entry_offset es i.
Proof.
  induction i as [|i IH]; intros Hi; [lia|].
  pose proof (entry_offset_lt es i (S i) ltac:(lia) Hi). specialize (IH ltac:(lia)). lia.
Qed.

Lemma length_u32s (l : list N) : length (l ≫= le_bytes 4) = 4 * length l.
Proof.
  induction l as [|x l IH]; [done|]. rewrite bind_cons, length_app, length_le_bytes, IH.
  simpl. lia.
Qed.

#[export] Hint Rewrite length_u32s : lsm_len.

Lemma u32s_split (l : list N) j x :
  l !! j = Some x → ∃ l1 l2, (l ≫= le_bytes 4) = l1 ++ le_bytes 4 x ++ l2 ∧ length l1 = 4 * j.
Proof.
  intros Hj. exists (take j l ≫= le_bytes 4), (drop (S j) l ≫= le_bytes 4). split.
  - rewrite <-(take_drop_middle l j x Hj) at 1. by rewrite bind_app.
  - rewrite length_u32s, length_take. apply lookup_lt_Some in Hj. lia.
Qed.

Lemma num_restarts_le interval n : 0 < interval → num_restarts interval n * interval < n + interval.
Proof.
  intros. unfold num_restarts.
  pose proof (Nat.div_mod_eq (n + interval - 1) interval). nia.
Qed.

Lemma num_restarts_lt interval n j :
  0 < interval → (j < num_restarts interval n ↔ j * interval < n).
Proof.
  intros H. unfold num_restarts. split.
  - intros Hj. pose proof (Nat.div_mod_eq (n + interval - 1) interval). nia.
  - intros Hj. apply Nat.div_le_lower_bound; nia.
Qed.

Lemma restarts_lookup interval es j :
  0 < interval → j * interval < length es →
  restarts interval es !! j = Some (N.of_nat (header_length + entry_offset es (j * interval))).
Proof.
  intros HI Hj. unfold restarts. rewrite list_lookup_fmap, lookup_seq_lt; [done|].
  by apply num_restarts_lt.
Qed.

Lemma length_restarts interval es : length (restarts interval es) = num_restarts interval (length es).
Proof. unfold restarts. by rewrite length_fmap, length_seq. Qed.

Lemma same_block_ok `{Bloom} interval b b' es :
  same_block b b' → block_ok interval b' es → block_ok interval b es.
Proof.
  intros [S1 S2 S3 S4 S5] Hb. split; rewrite ?S1, ?S2, ?S3, ?S4; try apply Hb.
  intros e He. rewrite S5. by apply Hb.
Qed.

Section block.
Context `{Bloom} (interval : nat) (b : DataBlock.DataBlock) (es : list BEntry).
Context (Hb : block_ok interval b es).

Lemma block_layout i e :
  es !! i = Some e →
  ∃ pre post, b.(DataBlock.data) = pre ++ EntryHeader.as_bytes (entry_header e)
      ++ drop e.(be_prefix) e.(be_key) ++ e.(be_value) ++ post ∧
    length pre = header_length + entry_offset es i.
Proof.
  intros Hi. destruct (bo_data _ _ _ Hb) as (hdr & -> & Hh).
  rewrite (entries_bytes_split es i e Hi).
  exists (hdr ++ entries_bytes (take i es)). eexists. split.
  - unfold entry_bytes. rewrite <-!app_assoc. reflexivity.
  - rewrite length_app, Hh. done.
Qed.

Lemma block_header_length :
  (N.of_nat (header_length + length (entries_bytes es)) < u32_bound)%N.
Proof.
  pose proof (bo_size _ _ _ Hb) as Hs. destruct (bo_data _ _ _ Hb) as (hdr & E & Hh).
  rewrite E in Hs. len.
Qed.

Lemma block_entry_wf i e : es !! i = Some e → entry_wf e.
Proof. intros Hi. by apply (Forall_lookup_1 _ _ _ _ (bo_wf _ _ _ Hb) Hi). Qed.

(** *** Reading entries *)

Lemma entry_header_at i e :
  es !! i = Some e →
  DataBlock.get_header (entry_at b es i) = Ok (entry_header e).
Proof.
  intros Hi. destruct (block_layout i e Hi) as (pre & post & Hd & Hpre).
  unfold DataBlock.get_header. simpl. rewrite Hd.
  rewrite (slice_app_mid pre) by (rewrite ?length_entry_header; lia). run_bind.
  apply entry_header_roundtrip. by eapply block_entry_wf.
Qed.

Lemma get_sequence_number_at i e :
  es !! i = Some e → DataBlock.get_sequence_number (entry_at b es i) = Ok e.(be_seq).
Proof.
  intros Hi. unfold DataBlock.get_sequence_number. by rewrite (entry_header_at i e Hi).
Qed.

Lemma get_type_at i e :
  es !! i = Some e → DataBlock.get_type (entry_at b es i) = Ok (be_data_type e).
Proof.
  intros Hi. unfold DataBlock.get_type. rewrite (entry_header_at i e Hi). simpl.
  unfold be_data_type.
  destruct (ew_type _ (block_entry_wf i e Hi)) as [-> | ->]; done.
Qed.

Lemma get_value_at i e :
  es !! i = Some e →
  DataBlock.get_value (entry_at b es i) =
    Ok (match be_data_type e with TPut => Some e.(be_value) | TDelete => None end).
Proof.
  intros Hi. unfold DataBlock.get_value. rewrite (entry_header_at i e Hi). run_bind.
  unfold be_data_type. cbn [EntryHeader.entry_type entry_header].
  destruct (block_layout i e Hi) as (pre & post & Hd & Hpre).
  destruct (ew_type _ (block_entry_wf i e Hi)) as [-> | ->]; [|done].
  simpl (_ =? _)%N. cbv iota. simpl DataBlock.block. rewrite Hd.
  rewrite !app_assoc, <-(app_assoc _ (be_value e) post).
  cbn [DataBlock.offset entry_at EntryHeader.suffix_len EntryHeader.value_length entry_header].
  rewrite slice_app_mid; [done| |]; rewrite !Nat2N.id; len.
Qed.

Lemma get_entry_at_offset_at i e prev :
  es !! i = Some e → extends_key prev e →
  DataBlock.get_entry_at_offset b (N.of_nat (entry_offset es i)) prev
    = Ok (e.(be_key), entry_at b es i).
Proof.
  intros Hi [Hp Hprev]. pose proof (block_entry_wf i e Hi) as Hwf.
  destruct (block_layout i e Hi) as (pre & post & Hd & Hpre).
  pose proof (lookup_lt_Some _ _ _ Hi) as Hlt.
  pose proof (entry_offset_le es (S i) (length es) ltac:(lia) ltac:(lia)) as Hle.
  rewrite entry_offset_all, (entry_offset_S _ _ _ Hi), length_entry_bytes in Hle.
  pose proof block_header_length as Hsz.
  unfold DataBlock.get_entry_at_offset. rewrite Nat2N.id, (bo_start _ _ _ Hb).
  rewrite (proj2 (Nat.ltb_ge _ _)) by lia.
  rewrite Hd at 1. rewrite (slice_app_mid pre) by (rewrite ?length_entry_header; lia).
  run_bind. rewrite entry_header_roundtrip by done. run_bind.
  cbn [EntryHeader.prefix_len EntryHeader.suffix_len EntryHeader.value_length entry_header].
  rewrite !Nat2N.id. rewrite (slice_Ok prev) by lia. run_bind.
  rewrite Hd, (app_assoc pre). rewrite slice_app_mid by len. run_bind.
  unfold usize_sub. rewrite (proj2 (Nat.leb_le _ _)) by lia. run_bind.
  rewrite drop_0, Nat.sub_0_r, Hprev, take_drop. unfold entry_at.
  rewrite (entry_offset_S _ _ _ Hi), length_entry_bytes. rewrite as_u32_small by lia.
  rewrite (Nat.add_comm header_length). do 3 f_equal. f_equal. lia.
Qed.

Lemma restart_extends j e :
  es !! (j * interval) = Some e → extends_key [] e.
Proof.
  intros Hj. destruct (bo_chained _ _ _ Hb _ _ Hj) as [H0 _].
  unfold extends_key. rewrite H0 by (apply Nat.Div0.mod_mul). done.
Qed.

Lemma get_restart_offset_at j :
  j * interval < length es →
  DataBlock.get_restart_offset b (N.of_nat j) = Ok (N.of_nat (entry_offset es (j * interval))).
Proof.
  intros Hj. pose proof (restarts_lookup interval es j (bo_pos _ _ _ Hb) Hj) as Hl.
  destruct (u32s_split _ _ _ Hl) as (l1 & l2 & El & Hl1).
  unfold DataBlock.get_restart_offset. destruct (bo_data _ _ _ Hb) as (hdr & -> & Hh).
  rewrite (bo_start _ _ _ Hb), Nat2N.id, El.
  replace (hdr ++ entries_bytes es ++ l1 ++ le_bytes 4 _ ++ l2)
    with ((hdr ++ entries_bytes es ++ l1) ++ le_bytes 4
      (N.of_nat (header_length + entry_offset es (j * interval))) ++ l2)
    by (by rewrite <-!app_assoc).
  rewrite slice_app_mid by len. run_bind. pose proof block_header_length.
  pose proof (entry_offset_le es (j * interval) (length es) ltac:(lia) ltac:(lia)) as Hle.
  rewrite entry_offset_all in Hle. rewrite le_roundtrip_u32 by lia.
  rewrite as_u32_small by lia. unfold u32_sub. if_true. f_equal. lia.
Qed.

Lemma restart_entry j e :
  es !! (j * interval) = Some e →
  DataBlock.get_entry_at_offset b (N.of_nat (entry_offset es (j * interval))) []
    = Ok (e.(be_key), entry_at b es (j * interval)).
Proof. intros Hj. apply get_entry_at_offset_at; [done|by apply (restart_extends j)]. Qed.

Lemma skip_entries_at n i e e' :
  es !! i = Some e → es !! (i + n) = Some e' →
  DataBlock.skip_entries n b e.(be_key) (entry_at b es i)
    = Ok (e'.(be_key), entry_at b es (i + n)).
Proof.
  revert i e; induction n as [|n IH]; intros i e Hi Hn.
  { rewrite Nat.add_0_r in *. by simplify_eq. }
  destruct (lookup_lt_is_Some_2 es (S i)) as [e1 H1]; [apply lookup_lt_Some in Hn; lia|].
  cbn [DataBlock.skip_entries DataBlock.next_offset entry_at].
  rewrite (get_entry_at_offset_at (S i) e1 (be_key e) H1).
  2:{ by apply (proj2 (bo_chained _ _ _ Hb _ _ H1) i). }
  run_bind. replace (i + S n) with (S i + n) in * by lia. by apply IH.
Qed.

(** Random access by index returns the entry with that index. *)
Lemma get_entry_at_index_at i e :
  es !! i = Some e →
  DataBlock.get_entry_at_index b (N.of_nat i) = Ok (e.(be_key), entry_at b es i).
Proof.
  intros Hi. pose proof (bo_pos _ _ _ Hb) as HI. pose proof (lookup_lt_Some _ _ _ Hi) as Hlt.
  unfold DataBlock.get_entry_at_index. rewrite (bo_interval _ _ _ Hb).
  rewrite (proj2 (N.eqb_neq _ _)) by lia. rewrite <-Nat2N.inj_div.
  pose proof (Nat.div_mod_eq i interval) as Hdm.
  rewrite get_restart_offset_at by nia. run_bind.
  destruct (lookup_lt_is_Some_2 es (i / interval * interval)) as [e0 H0]; [nia|].
  rewrite (restart_entry _ _ H0). run_bind.
  replace (N.to_nat _) with (i mod interval) by lia.
  rewrite (skip_entries_at (i mod interval) _ e0 e H0); replace (i / interval * interval + i mod interval) with i by lia; done.
Qed.

Lemma byte_len_at : DataBlock.byte_len b = Ok (N.of_nat (length (entries_bytes es))).
Proof.
  unfold DataBlock.byte_len. destruct (bo_data _ _ _ Hb) as (hdr & E & Hh).
  assert (length (DataBlock.data b) = header_length + length (entries_bytes es)
    + 4 * num_restarts interval (length es)) as HL.
  { rewrite E, <-length_restarts. len. }
  rewrite HL, (bo_start _ _ _ Hb). unfold usize_sub.
  rewrite !(proj2 (Nat.leb_le _ _)) by lia. run_bind.
  rewrite !(proj2 (Nat.leb_le _ _)) by lia. run_bind. pose proof block_header_length.
  f_equal. rewrite as_u32_small; f_equal; lia.
Qed.

Lemma restart_list_len_at :
  DataBlock.restart_list_len b = Ok (num_restarts interval (length es)).
Proof.
  unfold DataBlock.restart_list_len. destruct (bo_data _ _ _ Hb) as (hdr & E & Hh).
  assert (length (DataBlock.data b) = header_length + length (entries_bytes es)
    + 4 * num_restarts interval (length es)) as HL.
  { rewrite E, <-length_restarts. len. }
  rewrite HL, (bo_start _ _ _ Hb). unfold usize_sub.
  rewrite !(proj2 (Nat.leb_le _ _)) by lia. run_bind.
  pass_assert. f_equal. lia.
Qed.

(** *** Search *)

Lemma increasing_lookup i j ei ej :
  es !! i = Some ei → es !! j = Some ej → i < j → ei.(be_key) <k ej.(be_key).
Proof.
  intros Hi Hj Hij. pose proof (bo_sorted _ _ _ Hb) as Hs. unfold keys_increasing in Hs.
  rewrite <-(take_drop_middle es i ei Hi), fmap_app, fmap_cons in Hs.
  apply StronglySorted_app in Hs as (_ & _ & Hs).
  apply StronglySorted_cons in Hs as [Hall _]. rewrite Forall_forall in Hall. apply Hall.
  apply list_elem_of_fmap_2. apply (list_elem_of_lookup_2 _ (j - S i)).
  rewrite lookup_drop. by replace (S i + (j - S i)) with j by lia.
Qed.

Lemma increasing_inj i j ei ej :
  es !! i = Some ei → es !! j = Some ej → ei.(be_key) = ej.(be_key) → i = j.
Proof.
  intros Hi Hj Hk. destruct (Nat.lt_trichotomy i j) as [Hlt|[?|Hlt]]; [|done|].
  - pose proof (increasing_lookup i j ei ej Hi Hj Hlt) as H'. rewrite Hk in H'.
    by apply klt_irrefl in H'.
  - pose proof (increasing_lookup j i ej ei Hj Hi Hlt) as H'. rewrite Hk in H'.
    by apply klt_irrefl in H'.
Qed.

(** What the search has established about the restart positions [s] and [t]:
    an entry with the key lies at or after [s] and before [t], the part behind
    the last restart included. *)
Definition search_inv (key : Key) (s t : nat) : Prop :=
  s <= t ∧ t < num_restarts interval (length es) ∧
  (s = 0 ∨ ∃ e, es !! (s * interval) = Some e ∧ e.(be_key) <k key) ∧
  (t = num_restarts interval (length es) - 1 ∨
   ∃ e, es !! (t * interval) = Some e ∧ key <k e.(be_key)).

Lemma search_loop_spec fuel key s t :
  search_inv key s t → t - s < fuel →
  match DataBlock.search_loop fuel b key (N.of_nat s) (N.of_nat t) with
  | Ok (inl en) => ∃ i e, es !! i = Some e ∧ e.(be_key) = key ∧ en = entry_at b es i
  | Ok (inr (s', t')) => ∃ s1 t1, s' = N.of_nat s1 ∧ t' = N.of_nat t1 ∧ t1 - s1 <= 1 ∧
      search_inv key s1 t1
  | _ => False
  end.
Proof.
  revert s t; induction fuel as [|fuel IH]; intros s t Hinv Hf; [lia|].
  cbn [DataBlock.search_loop]. unfold u32_sub. destruct Hinv as (Hst & Ht & Hs1 & Ht1).
  rewrite (proj2 (N.leb_le _ _)) by lia. run_bind.
  destruct (1 <? _)%N eqn:E; bool_to_prop; cbn [negb].
  2:{ exists s, t. split_and!; try done. lia. }
  replace (_ + _ / 2)%N with (N.of_nat (s + (t - s) / 2)) by lia.
  set (m := s + (t - s) / 2). assert (s < m < t) as Hm by (subst m; lia).
  assert (m * interval < length es) as Hmi
    by (apply num_restarts_lt; [apply (bo_pos _ _ _ Hb)|lia]).
  rewrite get_restart_offset_at by done. run_bind.
  destruct (lookup_lt_is_Some_2 es (m * interval)) as [e He]; [done|].
  rewrite (restart_entry m e He). run_bind.
  destruct (key_cmp (be_key e) key) eqn:Ec.
  - exists (m * interval), e. split_and!; [done|by apply key_cmp_eq|done].
  - apply IH; [|lia]. split_and!; [lia|done|right; eauto|done].
  - apply IH; [|lia]. apply key_cmp_gt in Ec. split_and!; [lia|lia|done|right; eauto].
Qed.

(** The index at which the sequential search stops. *)
Definition search_stop (t : nat) : nat :=
  if t =? num_restarts interval (length es) - 1 then length es else t * interval.

Lemma num_restarts_pos : 0 < num_restarts interval (length es).
Proof.
  apply num_restarts_lt; [apply (bo_pos _ _ _ Hb)|].
  pose proof (bo_nonempty _ _ _ Hb). destruct es; [done|simpl; lia].
Qed.

Lemma num_restarts_small : (N.of_nat (num_restarts interval (length es)) < u32_bound)%N.
Proof.
  pose proof (bo_size _ _ _ Hb) as Hs. destruct (bo_data _ _ _ Hb) as (hdr & E & Hh).
  rewrite E in Hs. rewrite <-length_restarts. len.
Qed.

Lemma binary_search_spec key :
  match DataBlock.binary_search b key with
  | Ok (DataBlock.ExactMatch en) =>
      ∃ i e, es !! i = Some e ∧ e.(be_key) = key ∧ en = entry_at b es i
  | Ok (DataBlock.Range start end_) =>
      ∃ s t, start = N.of_nat s ∧ end_ = N.of_nat (entry_offset es (search_stop t)) ∧
        search_inv key s t
  | _ => False
  end.
Proof.
  unfold DataBlock.binary_search. rewrite restart_list_len_at. run_bind.
  pose proof num_restarts_pos as HR. pose proof num_restarts_small as HRs.
  set (R := num_restarts interval (length es)) in *.
  rewrite as_u32_small by done. unfold u32_sub. rewrite (proj2 (N.leb_le _ _)) by lia. run_bind.
  replace (N.of_nat R - 1)%N with (N.of_nat (R - 1)) by lia.
  pose proof (search_loop_spec (S R) key 0 (R - 1)) as Hl. change (N.of_nat 0) with 0%N in Hl.
  destruct (DataBlock.search_loop _ _ _ _ _) as [[en|[s' t']]| | |]; run_bind;
    [apply Hl|idtac|apply Hl|apply Hl|apply Hl]; try lia;
    try (split_and!; [lia|fold R; lia|by left|by left]).
  destruct Hl as (s & t & -> & -> & Hst & Hinv); [|lia|].
  { split_and!; [lia|fold R; lia|by left|by left]. }
  destruct Hinv as (H1 & H2 & H3 & H4). unfold u32_add. fold R in H2.
  rewrite (proj2 (N.ltb_lt _ _)) by lia. run_bind.
  destruct (_ =? _)%N eqn:E; bool_to_prop.
  - rewrite byte_len_at. run_bind. exists s, t. split_and!; [done| |done].
    unfold search_stop. fold R. rewrite (proj2 (Nat.eqb_eq _ _)) by lia.
    by rewrite entry_offset_all.
  - assert (t * interval < length es) by (apply num_restarts_lt; [apply (bo_pos _ _ _ Hb)|done]).
    rewrite get_restart_offset_at by done. run_bind. exists s, t. split_and!; [done| |done].
    unfold search_stop. fold R. by rewrite (proj2 (Nat.eqb_neq _ _)) by lia.
Qed.

Lemma search_inv_range key s t i e :
  search_inv key s t → es !! i = Some e → e.(be_key) = key →
  s * interval <= i < search_stop t.
Proof.
  intros (H1 & H2 & H3 & H4) Hi Hk. split.
  - destruct H3 as [->|(e' & He' & Hlt)]; [lia|].
    apply Nat.nlt_ge. intros Hn. pose proof (increasing_lookup i _ e e' Hi He' Hn) as Hc.
    rewrite Hk in Hc. by apply (klt_irrefl key), (klt_trans _ e'.(be_key)).
  - unfold search_stop. case_match; bool_to_prop; [by eapply lookup_lt_Some|].
    destruct H4 as [?|(e' & He' & Hlt)]; [done|].
    apply Nat.nle_gt. intros Hn. destruct (decide (i = t * interval)) as [->|Hne].
    + simplify_eq. by apply klt_irrefl in Hlt.
    + pose proof (increasing_lookup _ i e' e He' Hi ltac:(lia)) as Hc.
      rewrite Hk in Hc. by apply (klt_irrefl key), (klt_trans _ e'.(be_key)).
Qed.

Lemma search_stop_le t : t < num_restarts interval (length es) → search_stop t <= length es.
Proof.
  intros Ht. unfold search_stop. case_match; [done|].
  apply num_restarts_lt in Ht; [lia|apply (bo_pos _ _ _ Hb)].
Qed.

(** The sequential search finds the first entry with the key. *)
Lemma scan_spec fuel key i stop last_key :
  stop <= length es → stop - i <= fuel →
  (∀ e, es !! i = Some e → extends_key last_key e) →
  DataBlock.scan fuel b key (N.of_nat (entry_offset es i)) (N.of_nat (entry_offset es stop)) last_key
  = match list_find (λ e, key = e.(be_key)) (take (stop - i) (drop i es)) with
    | Some (j, _) => Ok (Some (entry_at b es (i + j)))
    | None => Ok None
    end.
Proof.
  revert i last_key; induction fuel as [|fuel IH]; intros i last_key Hstop Hf Hext;
    cbn [DataBlock.scan].
  - replace (stop - i) with 0 by lia. rewrite take_0. simpl.
    assert (stop <= i) as Hle by lia.
    rewrite (proj2 (N.ltb_ge _ _)); [done|].
    destruct (decide (i <= length es)) as [Hi|Hi].
    + pose proof (entry_offset_le es stop i Hle Hi). lia.
    + unfold entry_offset. rewrite (take_ge es i) by lia. fold (entry_offset es stop).
      rewrite <-entry_offset_all. pose proof (entry_offset_le es stop (length es)). lia.
  - destruct (decide (i < stop)) as [Hlt|Hge].
    + pose proof (entry_offset_lt es i stop Hlt Hstop).
      rewrite (proj2 (N.ltb_lt _ _)) by lia. cbn [negb].
      destruct (lookup_lt_is_Some_2 es i) as [e He]; [lia|].
      rewrite (get_entry_at_offset_at i e last_key He (Hext e He)). run_bind.
      rewrite (drop_S _ _ _ He). destruct (stop - i) as [|n] eqn:En; [lia|]. cbn [take list_find].
      destruct (decide (key = be_key e)) as [Hk|Hk]; [by rewrite Nat.add_0_r|].
      cbn [DataBlock.next_offset entry_at]. rewrite IH; [|lia|lia|].
      * replace (stop - S i) with n by lia.
        destruct (list_find _ _) as [[j x]|]; [|done].
        cbn [fmap option_fmap option_map prod_map]. do 3 f_equal. simpl. lia.
      * intros e1 He1. by apply (proj2 (bo_chained _ _ _ Hb _ _ He1) i).
    + replace (stop - i) with 0 by lia. rewrite take_0. cbn [list_find].
      rewrite (proj2 (N.ltb_ge _ _)); [done|].
      destruct (decide (i <= length es)) as [Hi|Hi].
      * pose proof (entry_offset_le es stop i ltac:(lia) Hi). lia.
      * unfold entry_offset at 2. rewrite (take_ge es i) by lia.
        rewrite <-entry_offset_all. pose proof (entry_offset_le es stop (length es)). lia.
Qed.

(** The fuel of the sequential search is enough: an entry takes at least one
    byte. *)
Lemma length_es_data : length es <= length b.(DataBlock.data).
Proof.
  destruct (bo_data _ _ _ Hb) as (hdr & -> & _).
  pose proof (entry_offset_bound es (length es) ltac:(done)) as Hle.
  rewrite entry_offset_all in Hle. len.
Qed.

Lemma get_by_key_found i e :
  es !! i = Some e → DataBlock.get_by_key b e.(be_key) = Ok (Some (entry_at b es i)).
Proof.
  intros Hi. unfold DataBlock.get_by_key.
  rewrite (bo_bloom _ _ _ Hb) by (by eapply list_elem_of_lookup_2). cbn [negb].
  pose proof (binary_search_spec (be_key e)) as Hs.
  destruct (DataBlock.binary_search b _) as [[en|start end_]| | |]; try done; run_bind.
  - destruct Hs as (j & e' & Hj & Hk & ->). by rewrite (increasing_inj j i e' e Hj Hi Hk).
  - destruct Hs as (s & t & -> & -> & Hinv).
    pose proof (search_inv_range _ _ _ _ _ Hinv Hi ltac:(done)) as [Hlo Hhi].
    pose proof (search_stop_le t ltac:(apply Hinv)) as Hle.
    rewrite get_restart_offset_at by lia. run_bind.
    rewrite scan_spec; [|done|pose proof length_es_data; lia|by intros e0; apply restart_extends].
    rewrite (proj2 (list_find_Some _ _ (i - s * interval) e)).
    + by replace (s * interval + (i - s * interval)) with i by lia.
    + split_and!; [|done|].
      * rewrite lookup_take_lt by lia. rewrite lookup_drop.
        by replace (s * interval + (i - s * interval)) with i by lia.
      * intros j e' Hj Hlt Hk. apply lookup_take_Some in Hj as [Hj _]. rewrite lookup_drop in Hj.
        pose proof (increasing_inj _ _ _ _ Hi Hj Hk). lia.
Qed.

Lemma get_by_key_missing key :
  key ∉ be_key <$> es → DataBlock.get_by_key b key = Ok None.
Proof.
  intros Hk. unfold DataBlock.get_by_key. destruct (bloom_check _ _); [|done]. cbn [negb].
  pose proof (binary_search_spec key) as Hs.
  destruct (DataBlock.binary_search b _) as [[en|start end_]| | |]; try done; run_bind.
  - destruct Hs as (j & e' & Hj & <- & ->). destruct Hk.
    apply list_elem_of_fmap_2. by eapply list_elem_of_lookup_2.
  - destruct Hs as (s & t & -> & -> & Hinv).
    pose proof (search_stop_le t ltac:(apply Hinv)) as Hle.
    assert (s * interval < length es).
    { apply num_restarts_lt; [apply (bo_pos _ _ _ Hb)|]. destruct Hinv. lia. }
    rewrite get_restart_offset_at by lia. run_bind.
    rewrite scan_spec; [|done|pose proof length_es_data; lia|by intros e0; apply restart_extends].
    rewrite (proj2 (list_find_None _ _)); [done|].
    apply Forall_forall. intros e' (j & Hj)%list_elem_of_lookup ->. destruct Hk.
    apply lookup_take_Some in Hj as [Hj _]. rewrite lookup_drop in Hj.
    apply list_elem_of_fmap_2. by eapply list_elem_of_lookup_2.
Qed.

End block.

(** ** Building a block *)

(** The builder holds the entries [es]. *)
Record builder_ok `{Bloom} (interval : nat) (bb : DataBlockBuilder.DataBlockBuilder)
    (es : list BEntry) : Prop := {
  bb_data : bb.(DataBlockBuilder.data) = replicate header_length x00 ++ entries_bytes es;
  bb_position : bb.(DataBlockBuilder.position) = N.of_nat (length es);
  bb_restarts : bb.(DataBlockBuilder.restart_list) = restarts interval es;
  bb_built : bloom_built bb.(DataBlockBuilder.bloom_filter);
  bb_bloom : ∀ e, e ∈ es → bloom_check bb.(DataBlockBuilder.bloom_filter) e.(be_key) = true;
  bb_chained : chained interval es;
  bb_wf : Forall entry_wf es;
  bb_sorted : keys_increasing es;
}.

(** The size of the finished block. *)
Definition block_bytes (interval : nat) (es : list BEntry) : nat :=
  header_length + length (entries_bytes es) + 4 * num_restarts interval (length es).

Lemma num_restarts_S interval n :
  0 < interval →
  num_restarts interval (S n) = num_restarts interval n + (if n mod interval =? 0 then 1 else 0).
Proof.
  intros HI. unfold num_restarts. pose proof (Nat.div_mod_eq n interval) as Hd.
  pose proof (Nat.mod_upper_bound n interval ltac:(lia)).
  replace (S n + interval - 1) with (n + 1 * interval) by lia.
  rewrite Nat.div_add by lia.
  remember (n / interval) as q eqn:Hq. remember (n mod interval) as r eqn:Hr. clear Hq Hr.
  destruct (r =? 0) eqn:E; bool_to_prop.
  - f_equal. apply (Nat.div_unique _ _ _ (interval - 1)); lia.
  - rewrite Nat.add_0_r. apply (Nat.div_unique _ _ _ (r - 1)); lia.
Qed.

Lemma entry_offset_app es1 es2 i : i <= length es1 → entry_offset (es1 ++ es2) i = entry_offset es1 i.
Proof. intros. unfold entry_offset. by rewrite take_app_le. Qed.

Lemma restarts_snoc interval es e :
  0 < interval →
  restarts interval (es ++ [e]) = restarts interval es ++
    (if length es mod interval =? 0
     then [N.of_nat (header_length + length (entries_bytes es))] else []).
Proof.
  intros HI. unfold restarts. rewrite length_app. simpl length. rewrite Nat.add_1_r.
  rewrite num_restarts_S, seq_app, fmap_app by done. f_equal.
  - apply list_fmap_ext. intros i j Hj. apply lookup_seq in Hj as [-> Hj]. simpl.
    apply num_restarts_lt in Hj; [|done]. by rewrite entry_offset_app by lia.
  - case_match; bool_to_prop; [|done]. simpl.
    assert (num_restarts interval (length es) * interval = length es) as ->.
    { unfold num_restarts. pose proof (Nat.div_mod_eq (length es) interval) as Hd.
      remember (length es / interval) as q eqn:Hq. clear Hq.
      rewrite <-(Nat.div_unique (length es + interval - 1) interval q (interval - 1)); lia. }
    by rewrite entry_offset_app, entry_offset_all by lia.
Qed.

Lemma keys_increasing_snoc es e :
  keys_increasing (es ++ [e]) ↔
  keys_increasing es ∧ ∀ e', e' ∈ es → e'.(be_key) <k e.(be_key).
Proof.
  unfold keys_increasing. rewrite fmap_app, StronglySorted_app. simpl. split.
  - intros (H & Hs & _). split; [done|]. intros e' He'. apply H; [|set_solver].
    by apply list_elem_of_fmap_2.
  - intros (Hs & H). split_and!; [|done|repeat constructor].
    intros k1 k2 (e' & -> & He')%list_elem_of_fmap ->%list_elem_of_singleton. auto.
Qed.

Lemma chained_snoc interval es e :
  chained interval es →
  (length es mod interval = 0 → e.(be_prefix) = 0) →
  (∀ p, last es = Some p → extends_key p.(be_key) e) →
  chained interval (es ++ [e]).
Proof.
  intros Hc H0 Hp i e' Hi. apply lookup_app_Some in Hi as [Hi|[Hlen Hi]].
  - destruct (Hc i e' Hi) as [H1 H2]. split; [done|]. intros i' p -> Hi'.
    apply (H2 i'); [done|]. rewrite lookup_app_l in Hi'; [done|]. apply lookup_lt_Some in Hi. lia.
  - apply list_lookup_singleton_Some in Hi as [Hi ->].
    assert (i = length es) as -> by lia. split; [done|]. intros i' p Hi' Hlk.
    apply Hp. rewrite last_lookup, Hi'. simpl. by rewrite lookup_app_l in Hlk by lia.
Qed.

Section build.
Context `{BloomLaws} (params : Params.Params) (interval : nat).
Context (Hint : params.(Params.block_restart_interval) = N.of_nat interval) (HI : 0 < interval).

Lemma builder_new_ok : ∃ bb, DataBlockBuilder.new = Ok bb ∧ builder_ok interval bb [].
Proof.
  unfold DataBlockBuilder.new. destruct bloom_new_some as [bf Hbf]. rewrite Hbf. simpl.
  eexists; split; [done|]. split; simpl; try done.
  - unfold restarts, num_restarts. simpl. by rewrite Nat.div_small by lia.
  - by apply built_new.
  - intros e. set_solver.
  - constructor.
Qed.

Lemma add_entry_ok bb es e :
  builder_ok interval bb es → entry_wf e →
  (length es mod interval = 0 → e.(be_prefix) = 0) →
  (∀ p, last es = Some p → extends_key p.(be_key) e) →
  (∀ e', e' ∈ es → e'.(be_key) <k e.(be_key)) →
  (N.of_nat (block_bytes interval (es ++ [e])) < u32_bound)%N →
  ∃ bb', DataBlockBuilder.add_entry params bb
      (PrefixedKey_new e.(be_prefix) (drop e.(be_prefix) e.(be_key))) e.(be_key)
      e.(be_seq) e.(be_type) e.(be_value) = Ok bb' ∧ builder_ok interval bb' (es ++ [e]).
Proof.
  intros [Hd Hpos Hr Hbb Hbl Hc Hwf Hs] He Hp0 Hprev Hlt Hsz.
  unfold block_bytes in Hsz. rewrite entries_bytes_app, !length_app in Hsz. simpl (length [_]) in Hsz.
  rewrite Nat.add_1_r in Hsz.
  pose proof (entry_offset_bound es (length es) ltac:(done)) as Hb.
  rewrite entry_offset_all in Hb.
  assert (length (entries_bytes [e]) = length (entry_bytes e)) as Hone
    by (unfold entries_bytes; simpl; by rewrite app_nil_r).
  rewrite Hone, length_entry_bytes in Hsz.
  unfold DataBlockBuilder.add_entry, PrefixedKey_new. cbn [prefix_len suffix].
  rewrite Hint, (proj2 (N.eqb_neq _ 0)), Hpos, Hr by lia.
  assert ((N.of_nat (length es) mod N.of_nat interval =? 0)%N = (length es mod interval =? 0)) as ->.
  { rewrite <-Nat2N.inj_mod. destruct (Nat.eqb_spec (length es mod interval) 0) as [->|]; [done|].
    apply N.eqb_neq. lia. }
  pose proof (ew_prefix _ He). pose proof (ew_key _ He). pose proof (ew_value _ He).
  rewrite !as_u32_small by (rewrite ?Hd, ?length_app, ?length_replicate, ?length_drop;
    unfold entry_header_length in *; lia).
  rewrite as_u64_small by (unfold u32_bound, u64_bound in *; lia).
  match goal with |- context [if ?c then ?x else ?y] => set (rl := if c then x else y) end.
  assert (rl = Ok (restarts interval (es ++ [e]))) as ->.
  { unfold rl. rewrite restarts_snoc by done. rewrite Hd, length_app, length_replicate.
    destruct (_ =? _) eqn:E; bool_to_prop; [|by rewrite app_nil_r].
    rewrite Hp0 by done. done. }
  run_bind. unfold u32_add. rewrite (proj2 (N.ltb_lt _ _)) by (unfold entry_header_length in *; lia). run_bind.
  eexists; split; [done|]. split; simpl.
  - rewrite Hd, entries_bytes_app, <-app_assoc. f_equal. f_equal.
    unfold entries_bytes. simpl. rewrite app_nil_r. unfold entry_bytes, entry_header.
    by rewrite length_drop.
  - rewrite length_app. simpl. lia.
  - done.
  - by apply built_set.
  - intros e' [He'| ->%list_elem_of_singleton]%elem_of_app; [by apply bloom_check_mono, Hbl|].
    apply bloom_check_set.
  - by apply chained_snoc.
  - apply Forall_app; split; [done|by constructor].
  - by apply keys_increasing_snoc.
Qed.

(** The finished block holds the entries, and so does the block that is loaded
    from its bytes. *)
Lemma finish_block_ok bb es :
  builder_ok interval bb es → es ≠ [] →
  (N.of_nat (block_bytes interval es) < u32_bound)%N →
  ∃ b b', DataBlockBuilder.finish_block params bb = Ok b ∧ block_ok interval b es ∧
    DataBlock.new_from_data b.(DataBlock.data) params.(Params.block_restart_interval) = Ok b' ∧
    block_ok interval b' es ∧ same_block b b' ∧
    length b.(DataBlock.data) = block_bytes interval es.
Proof.
  intros [Hd Hpos Hr Hbb Hbl Hc Hwf Hs] Hne Hsz. unfold block_bytes in Hsz.
  pose proof (bloom_slice_length _ Hbb) as Hbs. pose proof (bloom_roundtrip _ Hbb) as (bf & Hbf & Hck).
  assert (header_length = 8 + length (bloom_as_slice (DataBlockBuilder.bloom_filter bb))) as Hhl.
  { rewrite Hbs. by with_strategy transparent [header_length] unfold header_length. }
  unfold DataBlockBuilder.finish_block. rewrite assert_Ok by (by apply Nat.eqb_eq).
  rewrite Hd, length_app, length_replicate.
  pose proof (entry_offset_bound es (length es) ltac:(done)) as Hb. rewrite entry_offset_all in Hb.
  rewrite as_u32_small by lia.
  set (hdr := le_bytes 4 _ ++ le_bytes 4 _ ++ _).
  assert (length hdr = header_length) as Hh by (unfold hdr; rewrite Hhl; len).
  change (replicate header_length x00 ++ _) with ([] ++ replicate header_length x00 ++ entries_bytes es).
  rewrite overwrite_app_mid by len. run_bind.
  change ([] ++ hdr ++ entries_bytes es) with (hdr ++ entries_bytes es).
  rewrite Nat2N.id, Hpos, Hr, Hint. do 2 eexists. split; [done|].
  assert (length ((hdr ++ entries_bytes es) ++ (restarts interval es ≫= le_bytes 4))
          = block_bytes interval es) as HL.
  { unfold block_bytes. rewrite <-length_restarts. len. }
  assert (∀ bf', (∀ e, e ∈ es → bloom_check bf' e.(be_key) = true) →
    block_ok interval (DataBlock.mk _ (header_length + length (entries_bytes es))
      (N.of_nat (length es)) (N.of_nat interval)
      ((hdr ++ entries_bytes es) ++ (restarts interval es ≫= le_bytes 4)) bf') es) as Hok.
  { intros bf' Hbf'. split; cbn [DataBlock.data]; try done.
    - exists hdr. by rewrite <-app_assoc.
    - by rewrite HL. }
  split; [by apply Hok|]. cbn [DataBlock.data].
  unfold DataBlock.new_from_data.
  rewrite assert_Ok by (apply negb_true_iff, Nat.eqb_neq; rewrite HL; unfold block_bytes; lia).
  rewrite <-app_assoc.
  assert (slice (hdr ++ entries_bytes es ++ (restarts interval es ≫= le_bytes 4)) 0 header_length
    = Ok hdr) as -> by (apply (slice_app_mid [] hdr); simpl; lia).
  run_bind.
  assert (drop 8 hdr = bloom_as_slice (DataBlockBuilder.bloom_filter bb)) as -> by done.
  rewrite Hbf. run_bind.
  change (take 4 hdr) with (le_bytes 4 (N.of_nat (header_length + length (entries_bytes es)))).
  change (take 4 (drop 4 hdr)) with (le_bytes 4 (DataBlockBuilder.position bb)).
  rewrite Hpos, !le_roundtrip_u32, Nat2N.id by lia.
  split; [done|]. rewrite app_assoc. split; [|by split].
  apply Hok. intros e He. by rewrite Hck, Hbl.
Qed.

End build.

(** Adding a list of entries to a builder. *)
Fixpoint add_entries `{Bloom} (params : Params.Params) (bb : DataBlockBuilder.DataBlockBuilder)
    (es : list BEntry) : outcome DataBlockBuilder.DataBlockBuilder :=
  match es with
  | [] => Ok bb
  | e :: es' =>
      bb' ← DataBlockBuilder.add_entry params bb
        (PrefixedKey_new e.(be_prefix) (drop e.(be_prefix) e.(be_key))) e.(be_key)
        e.(be_seq) e.(be_type) e.(be_value);
      add_entries params bb' es'
  end.

(** Building a block from entries. *)
Definition build_block `{Bloom} (params : Params.Params) (es : list BEntry)
  : outcome DataBlock.DataBlock :=
  bb ← DataBlockBuilder.new; bb ← add_entries params bb es;
  DataBlockBuilder.finish_block params bb.

(** The entries can be stored in one block. *)
Record entries_ok (interval : nat) (es : list BEntry) : Prop := {
  eo_wf : Forall entry_wf es;
  eo_chained : chained interval es;
  eo_sorted : keys_increasing es;
  eo_size : (N.of_nat (block_bytes interval es) < u32_bound)%N;
}.

Lemma num_restarts_mono interval n n' :
  n <= n' → num_restarts interval n <= num_restarts interval n'.
Proof. intros. unfold num_restarts. apply Nat.Div0.div_le_mono. lia. Qed.

Lemma entries_ok_prefix interval es1 es2 : entries_ok interval (es1 ++ es2) → entries_ok interval es1.
Proof.
  intros [Hw Hc Hs Hz]. split.
  - by apply Forall_app in Hw as [? _].
  - intros i e Hi. destruct (Hc i e) as [H1 H2]; [by apply lookup_app_l_Some|].
    split; [done|]. intros i' p -> Hp. by apply (H2 i'); [|apply lookup_app_l_Some].
  - unfold keys_increasing in *. rewrite fmap_app in Hs. by apply StronglySorted_app in Hs as (_ & ? & _).
  - unfold block_bytes in *. rewrite entries_bytes_app, !length_app in Hz.
    pose proof (num_restarts_mono interval (length es1) (length es1 + length es2)). lia.
Qed.

Lemma add_entries_ok `{BloomLaws} params interval bb es1 es2 :
  params.(Params.block_restart_interval) = N.of_nat interval → 0 < interval →
  builder_ok interval bb es1 → entries_ok interval (es1 ++ es2) →
  ∃ bb', add_entries params bb es2 = Ok bb' ∧ builder_ok interval bb' (es1 ++ es2).
Proof.
  intros Hp HI. revert bb es1; induction es2 as [|e es2 IH]; intros bb es1 Hbb Hok.
  { rewrite app_nil_r. eauto. }
  replace (es1 ++ e :: es2) with ((es1 ++ [e]) ++ es2) in * by (by rewrite <-app_assoc).
  pose proof (entries_ok_prefix _ _ _ Hok) as [Hw Hc Hs Hz]. cbn [add_entries].
  assert ((es1 ++ [e]) !! length es1 = Some e) as Hlk by (by apply list_lookup_middle).
  destruct (Hc _ _ Hlk) as [Hc0 Hc1].
  destruct (add_entry_ok params interval Hp HI bb es1 e Hbb) as (bb1 & -> & Hbb1); try done.
  - apply Forall_app in Hw as [_ Hw]. by apply Forall_cons in Hw as [? _].
  - intros p Hl. rewrite last_lookup in Hl. destruct (length es1) as [|n] eqn:El.
    { by rewrite (nil_length_inv _ El) in Hl. }
    apply (Hc1 n); [done|]. by apply lookup_app_l_Some.
  - by apply keys_increasing_snoc.
  - run_bind. by apply IH.
Qed.

Lemma build_block_holds `{BloomLaws} params interval es :
  params.(Params.block_restart_interval) = N.of_nat interval → 0 < interval →
  entries_ok interval es → es ≠ [] →
  ∃ b b', build_block params es = Ok b ∧ block_ok interval b es ∧
    DataBlock.new_from_data b.(DataBlock.data) params.(Params.block_restart_interval) = Ok b' ∧
    block_ok interval b' es.
Proof.
  intros Hp HI Hok Hne. unfold build_block.
  destruct (builder_new_ok params interval Hp HI) as (bb & -> & Hbb). run_bind.
  destruct (add_entries_ok params interval bb [] es Hp HI Hbb Hok) as (bb' & -> & Hbb'). run_bind.
  destruct (finish_block_ok params interval Hp HI bb' es Hbb' Hne) as (b & b' & ? & ? & ? & ? & _);
    [apply Hok|]. eauto 10.
Qed.

(** Decoding the block gives the entries: their number, and for every index the
    whole key, with its prefix restored, and an entry that reads back the sequence
    number, the type and the value. *)
Definition decodes `{Bloom} (b : DataBlock.DataBlock) (es : list BEntry) : Prop :=
  DataBlock.get_num_entries b = N.of_nat (length es) ∧
  ∀ i e, es !! i = Some e → ∃ en,
    DataBlock.get_entry_at_index b (N.of_nat i) = Ok (e.(be_key), en) ∧
    DataBlock.get_sequence_number en = Ok e.(be_seq) ∧
    DataBlock.get_type en = Ok (be_data_type e) ∧
    DataBlock.get_value en =
      Ok (match be_data_type e with TPut => Some e.(be_value) | TDelete => None end).

Lemma block_decodes `{Bloom} interval b es : block_ok interval b es → decodes b es.
Proof.
  intros Hb. split; [apply Hb|]. intros i e He. exists (entry_at b es i).
  split_and!; [by eapply get_entry_at_index_at|by eapply get_sequence_number_at|by eapply get_type_at|by eapply get_value_at].
Qed.

(** C22: a block holds exactly what was put into it.  For entries with increasing
    keys, compressed against their predecessor and reset at the restart
    positions, building the block does not panic; both the block in memory and
    the block loaded back from its bytes have the layout of these entries, and
    decoding either gives every entry back, with its whole key. *)
Theorem data_block_build_load `{BloomLaws} params interval es :
  params.(Params.block_restart_interval) = N.of_nat interval → 0 < interval →
  entries_ok interval es → es ≠ [] →
  ∃ b b', build_block params es = Ok b ∧ block_ok interval b es ∧
    DataBlock.new_from_data b.(DataBlock.data) params.(Params.block_restart_interval) = Ok b' ∧
    block_ok interval b' es ∧ decodes b es ∧ decodes b' es.
Proof.
  intros Hint HI Hes Hne. destruct (build_block_holds params interval es Hint HI Hes Hne) as (b & b' & E & Hb & E' & Hb').
  exists b, b'. split_and!; try done; by eapply block_decodes.
Qed.

(** [get_by_key] (Bloom filter, binary search over the restart list and
    sequential search) finds exactly the stored keys: for a stored key it
    returns a reference that reads back its sequence number, its type and its
    value, for any other key it returns [None]; it never panics and needs no
    more steps than the block has bytes. *)
Theorem data_block_get_by_key `{Bloom} interval b es k :
  block_ok interval b es →
  ∃ r, DataBlock.get_by_key b k = Ok r ∧
    match r with
    | Some en => ∃ e, e ∈ es ∧ e.(be_key) = k ∧
        DataBlock.get_sequence_number en = Ok e.(be_seq) ∧
        DataBlock.get_type en = Ok (be_data_type e) ∧
        DataBlock.get_value en =
          Ok (match be_data_type e with TPut => Some e.(be_value) | TDelete => None end)
    | None => k ∉ be_key <$> es
    end.
Proof.
  intros Hb. destruct (decide (k ∈ be_key <$> es)) as [Hin|Hout].
  - apply list_elem_of_fmap in Hin as (e & -> & Hin).
    destruct (list_elem_of_lookup_1 _ _ Hin) as [i Hi].
    exists (Some (entry_at b es i)). split; [by apply (get_by_key_found interval)|].
    exists e. split_and!; [done|done|by eapply get_sequence_number_at|by eapply get_type_at
      |by eapply get_value_at].
  - exists None. split; [by eapply get_by_key_missing|done].
Qed.

(** Random access: [get_entry_at_index] returns the key and the entry that
    was stored at that index, by going to the closest restart position and
    decoding forward from there. *)
Theorem data_block_get_at_index `{Bloom} interval b es i :
  block_ok interval b es → i < length es →
  ∃ e en, es !! i = Some e ∧
    DataBlock.get_entry_at_index b (N.of_nat i) = Ok (e.(be_key), en) ∧
    DataBlock.get_sequence_number en = Ok e.(be_seq) ∧
    DataBlock.get_type en = Ok (be_data_type e) ∧
    DataBlock.get_value en =
      Ok (match be_data_type e with TPut => Some e.(be_value) | TDelete => None end).
Proof.
  intros Hb Hi. destruct (lookup_lt_is_Some_2 es i Hi) as [e He].
  exists e, (entry_at b es i). split_and!; [done|by eapply get_entry_at_index_at
    |by eapply get_sequence_number_at|by eapply get_type_at|by eapply get_value_at].
Qed.

(** ** Witnesses *)

(** A filter that satisfies the laws: it remembers whether anything was set. *)
Definition flag_bloom : Bloom := {|
  bloom := bool;
  bloom_new _ _ := Some false;
  bloom_set _ _ := true;
  bloom_check b _ := b;
  bloom_as_slice b := (if b then x01 else x00) :: replicate (BLOOM_LENGTH + BLOOM_HEADER_SIZE - 1) x00;
  bloom_from_bytes l := Some (match l with x01 :: _ => true | _ => false end);
|}.

Lemma flag_bloom_laws : @BloomLaws flag_bloom.
Proof.
  split.
  - by exists false.
  - done.
  - done.
  - intros [] _; vm_compute; reflexivity.
  - intros [] _; by eexists.
Qed.

Definition sample_block_params : Params.Params :=
  {| Params.db_path := "db"; Params.max_memtable_size := 100; Params.num_levels := 1;
     Params.max_open_files := 1000; Params.max_key_block_size := 4;
     Params.block_restart_interval := 2; Params.log_level_stats := None;
     Params.compaction_concurrency := 1; Params.seek_based_compaction := None |}.

(** Three entries: [ab], [abc] (two bytes shared) and a deletion of [b]. *)
Definition sample_entries : list BEntry :=
  [ mkBEntry [x61; x62] 0 1 WriteOp.PUT_OP [x07];
    mkBEntry [x61; x62; x63] 2 2 WriteOp.PUT_OP [x08; x09];
    mkBEntry [x62] 0 3 WriteOp.DELETE_OP [] ].

Lemma sample_entries_ok : entries_ok 2 sample_entries.
Proof.
  split.
  - repeat constructor; simpl; lia || done || (by left) || (by right).
  - intros i e Hi. destruct i as [|[|[|i]]]; simpl in Hi; simplify_eq; (split; [done|]);
      intros i' p Hi' Hp; simplify_eq; simpl in Hp; simplify_eq; split; simpl; done || lia.
  - repeat constructor.
  - vm_compute. done.
Qed.

Lemma data_block_build_load_witness :
  ∃ b b', @build_block flag_bloom sample_block_params sample_entries = Ok b ∧
    @block_ok flag_bloom 2 b sample_entries ∧
    @DataBlock.new_from_data flag_bloom (@DataBlock.data flag_bloom b) 2 = Ok b' ∧
    @block_ok flag_bloom 2 b' sample_entries ∧
    @decodes flag_bloom b sample_entries ∧ @decodes flag_bloom b' sample_entries.
Proof.
  apply (@data_block_build_load flag_bloom flag_bloom_laws sample_block_params 2 sample_entries);
    [reflexivity|lia|exact sample_entries_ok|discriminate].
Defined.

(** The block of the sample entries. *)
Definition sample_block : @DataBlock.DataBlock flag_bloom :=
  match @build_block flag_bloom sample_block_params sample_entries with
  | Ok b => b
  | _ => @DataBlock.mk flag_bloom 0 0 0 [] false
  end.

Lemma sample_block_ok : @block_ok flag_bloom 2 sample_block sample_entries.
Proof.
  unfold sample_block.
  destruct (@build_block_holds flag_bloom flag_bloom_laws sample_block_params 2 sample_entries)
    as (b & b' & -> & Hb & _); [done|lia|exact sample_entries_ok|done|exact Hb].
Qed.

Lemma data_block_get_by_key_witness :
  ∃ r, @DataBlock.get_by_key flag_bloom sample_block [x61; x62; x63] = Ok r ∧
    match r with
    | Some en => ∃ e, e ∈ sample_entries ∧ e.(be_key) = [x61; x62; x63] ∧
        DataBlock.get_sequence_number en = Ok e.(be_seq) ∧
        DataBlock.get_type en = Ok (be_data_type e) ∧
        DataBlock.get_value en =
          Ok (match be_data_type e with TPut => Some e.(be_value) | TDelete => None end)
    | None => [x61; x62; x63] ∉ be_key <$> sample_entries
    end.
Proof.
  apply (@data_block_get_by_key flag_bloom 2 sample_block sample_entries [x61; x62; x63]).
  exact sample_block_ok.
Defined.

Lemma data_block_get_at_index_witness :
  ∃ e en, sample_entries !! 1 = Some e ∧
    @DataBlock.get_entry_at_index flag_bloom sample_block 1 = Ok (e.(be_key), en) ∧
    DataBlock.get_sequence_number en = Ok e.(be_seq) ∧
    DataBlock.get_type en = Ok (be_data_type e) ∧
    DataBlock.get_value en =
      Ok (match be_data_type e with TPut => Some e.(be_value) | TDelete => None end).
Proof.
  apply (@data_block_get_at_index flag_bloom 2 sample_block sample_entries 1);
    [exact sample_block_ok|simpl; lia].
Defined.
