(* ===== verification/DataBlocks.v ===== *)
(** * The block store (src/src/data_blocks/mod.rs, builder.rs)

    Blocks are written once to their own file and read through a sharded cache.
    The shared state ([Env]) consists of the files, the cache shards and the
    manifest, which hands out block identifiers.  The cache (crate [lru]) is a
    parameter: a cache that may drop entries and otherwise returns what was put
    last. *)

From stdpp Require Import base list gmap strings sorting.
From Stdlib Require Import Strings.Byte NArith Lia.
From S2P Require Import Prelude WriteBatch Disk Manifest DataBlock.

Local Open Scope nat_scope.

(** The operations of [lru::LruCache<DataBlockId, Arc<DataBlock>>] in use. *)
Class LruCache (V : Type) := {
  cache : Type;
  cache_new : nat → cache;
  cache_get : cache → N → option V * cache;
  cache_put : cache → N → V → cache;
}.
Arguments cache V {_}.

(** What a cache promises: [get] returns the entry the cache holds and does not
    change the contents, [put] may evict entries but adds no other. *)
Class LruLaws (V : Type) `{LruCache V} := {
  cache_view : cache V → gmap N V;
  cache_view_new n : cache_view (cache_new n) = ∅;
  cache_view_get c k : (cache_get c k).1 = cache_view c !! k ∧
    cache_view (cache_get c k).2 = cache_view c;
  cache_view_put c k v : cache_view (cache_put c k v) ⊆ <[k := v]> (cache_view c);
}.

(** [NUM_SHARDS] *)
Definition NUM_SHARDS : N := 64.

Section env.
Context `{Bloom} `{Compression} `{LruCache DataBlock.DataBlock}.

(** The state the components share: the files, the caches of [DataBlocks] and
    the manifest. *)
Record Env := mkEnv {
  env_disk : Disk;
  env_caches : list (cache DataBlock.DataBlock);
  env_manifest : Manifest.Manifest;
}.

End env.

Module DataBlocks.

Section ops.
Context `{Bloom} `{Compression} `{LruCache DataBlock.DataBlock}.

(** [DataBlocks::new]: the caches. *)
Definition new (params : Params.Params) : outcome (list (cache DataBlock.DataBlock)) :=
  let max_data_files := (params.(Params.max_open_files) / 2)%N in
  _ ← assert_that (negb (max_data_files =? 0)%N) "Max open files needs to be greater than 2";
  let shard_size := (max_data_files / NUM_SHARDS)%N in
  _ ← assert_that (negb (shard_size =? 0)%N)
        "Not enough open files to support the number of shards";
  Ok (replicate (N.to_nat NUM_SHARDS) (cache_new (N.to_nat shard_size))).

(** [DataBlocks::block_to_shard_id] *)
Definition block_to_shard_id (block_id : N) : nat := N.to_nat (block_id mod NUM_SHARDS).

(** A cache shard replaced by its new state. *)
Definition set_shard (i : nat) (c : cache DataBlock.DataBlock) : st Env unit := λ e,
  Ok ((), {| env_disk := e.(env_disk); env_caches := <[i := c]> e.(env_caches);
             env_manifest := e.(env_manifest) |}).

(** [self.block_caches[shard_id]] *)
Definition get_shard (i : nat) : st Env (cache DataBlock.DataBlock) := λ e,
  c ← expect (e.(env_caches) !! i) "index out of bounds"; Ok (c, e).

(** [disk::read(&fpath, 0).await.unwrap_or_else(|err| panic!(...))] *)
Definition read_block_file (id : N) : st Env (list byte) := λ e,
  match disk.read e.(env_disk) (DataFile id) 0 with
  | Ok data => Ok (data, e)
  | _ => Panic "Failed to load data block from disk"
  end.

(** [DataBlocks::get_block] *)
Definition get_block (params : Params.Params) (id : N) : st Env DataBlock.DataBlock :=
  let shard_id := block_to_shard_id id in
  c ← get_shard shard_id;
  let '(hit, c) := cache_get c id in
  _ ← set_shard shard_id c;
  match hit with
  | Some block => mret block
  | None =>
      data ← read_block_file id;
      block ← lift (DataBlock.new_from_data data params.(Params.block_restart_interval));
      c ← get_shard shard_id;
      _ ← set_shard shard_id (cache_put c id block);
      mret block
  end.

(** [self.data_blocks.manifest.generate_next_data_block_id()] *)
Definition generate_block_id : st Env N := λ e,
  '(id, m) ← Manifest.generate_next_data_block_id e.(env_manifest);
  Ok (id, {| env_disk := e.(env_disk); env_caches := e.(env_caches); env_manifest := m |}).

(** [disk::write(&fpath, data)] *)
Definition write_file (fpath : FileName) (data : list byte) : st Env unit := λ e,
  d ← disk.write e.(env_disk) fpath data;
  Ok ((), {| env_disk := d; env_caches := e.(env_caches); env_manifest := e.(env_manifest) |}).

(** [DataBlockBuilder::finish] *)
Definition finish (params : Params.Params) (b : DataBlockBuilder.DataBlockBuilder)
  : st Env (option N) :=
  if (b.(DataBlockBuilder.position) =? 0)%N then mret None else
  identifier ← generate_block_id;
  block ← lift (DataBlockBuilder.finish_block params b);
  let shard_id := block_to_shard_id identifier in
  _ ← write_file (DataFile identifier) block.(DataBlock.data);
  c ← get_shard shard_id;
  _ ← set_shard shard_id (cache_put c identifier block);
  mret (Some identifier).

End ops.

End DataBlocks.

(** ** Specification *)

Section spec.
Context `{Bloom} `{Compression} `{LruLaws DataBlock.DataBlock}.
Context (params : Params.Params) (interval : nat).

(** The block a file contains. *)
Definition load_block (d : Disk) (id : N) : outcome DataBlock.DataBlock :=
  data ← disk.read d (DataFile id) 0;
  DataBlock.new_from_data data params.(Params.block_restart_interval).

(** The file of block [id] holds the entries [es]. *)
Definition block_on_disk (d : Disk) (id : N) (es : list BEntry) : Prop :=
  ∃ b, load_block d id = Ok b ∧ block_ok interval b es.

(** The caches agree with the files: a cached block is the block its file
    contains, and it is cached in the shard of its identifier. *)
Record cache_ok (e : Env) : Prop := {
  co_shards : length e.(env_caches) = N.to_nat NUM_SHARDS;
  co_entries : ∀ i c id b, e.(env_caches) !! i = Some c → cache_view c !! id = Some b →
    DataBlocks.block_to_shard_id id = i ∧
    ∃ b', load_block e.(env_disk) id = Ok b' ∧ same_block b b';
}.

(** What reading blocks may change: the caches only. *)
Definition reads (e e' : Env) : Prop :=
  e'.(env_disk) = e.(env_disk) ∧ e'.(env_manifest) = e.(env_manifest) ∧
  (cache_ok e → cache_ok e').

End spec.

#[export] Instance reads_preorder `{Bloom} `{Compression} `{LruLaws DataBlock.DataBlock} params :
  PreOrder (reads params).
Proof.
  split; [by intros e|]. intros e1 e2 e3 (Ed & Em & Ec) (Ed' & Em' & Ec').
  split_and!; [congruence|congruence|auto].
Qed.

(** ** Reading blocks *)

Section read.
Context `{Bloom} `{Compression} `{LruLaws DataBlock.DataBlock}.
Context (params : Params.Params) (interval : nat).

Lemma shard_lt e id :
  cache_ok params e → DataBlocks.block_to_shard_id id < length e.(env_caches).
Proof.
  intros Hc. rewrite (co_shards _ _ Hc). unfold DataBlocks.block_to_shard_id.
  pose proof (N.mod_lt id NUM_SHARDS ltac:(done)). lia.
Qed.

(** Replacing a shard by one whose entries agree with the files. *)
Lemma set_shard_ok e i c :
  cache_ok params e →
  (∀ id b, cache_view c !! id = Some b → DataBlocks.block_to_shard_id id = i ∧
    ∃ b', load_block params e.(env_disk) id = Ok b' ∧ same_block b b') →
  cache_ok params (mkEnv e.(env_disk) (<[i := c]> e.(env_caches)) e.(env_manifest)).
Proof.
  intros [Hl He] Hc. split; simpl; [by rewrite length_insert|].
  intros j c' id b Hj Hv. destruct (decide (i = j)) as [<-|Hne].
  - destruct (decide (i < length (env_caches e))) as [Hlt|Hge].
    + rewrite list_lookup_insert_eq in Hj by done. simplify_eq. by apply Hc.
    + rewrite list_insert_ge in Hj by lia. by eapply He.
  - rewrite list_lookup_insert_ne in Hj by done. by eapply He.
Qed.

Lemma get_block_ok e id es :
  cache_ok params e → block_on_disk params interval e.(env_disk) id es →
  ∃ b e', DataBlocks.get_block params id e = Ok (b, e') ∧ block_ok interval b es ∧
    reads params e e'.
Proof.
  intros Hc (b0 & Hload & Hb0). pose proof (shard_lt e id Hc) as Hlt.
  destruct (lookup_lt_is_Some_2 _ _ Hlt) as [c Hci].
  unfold DataBlocks.get_block. set (i := DataBlocks.block_to_shard_id id) in *.
  assert (DataBlocks.get_shard i e = Ok (c, e)) as E1
    by (unfold DataBlocks.get_shard; by rewrite Hci).
  run_st E1. destruct (cache_view_get c id) as [Hget Hsame].
  destruct (cache_get c id) as [hit c1]. simpl in Hget, Hsame.
  set (e1 := mkEnv e.(env_disk) (<[i := c1]> e.(env_caches)) e.(env_manifest)).
  assert (cache_ok params e1) as Hc1.
  { apply set_shard_ok; [done|]. rewrite Hsame. intros id' b' Hv. by eapply (co_entries _ _ Hc). }
  assert (DataBlocks.set_shard i c1 e = Ok ((), e1)) as E2 by done. run_st E2.
  destruct hit as [b|].
  - exists b, e1. split; [done|]. split; [|done].
    destruct (co_entries _ _ Hc i c id b Hci) as (_ & b' & Hl' & Hsb); [done|].
    rewrite Hload in Hl'. simplify_eq. by eapply same_block_ok.
  - unfold load_block in Hload. apply bind_Ok_inv in Hload as (data & Hr & Hn).
    assert (DataBlocks.read_block_file id e1 = Ok (data, e1)) as E3
      by (unfold DataBlocks.read_block_file; simpl; by rewrite Hr).
    run_st E3. run_lift Hn.
    assert (e1.(env_caches) !! i = Some c1) as Hi1 by (simpl; by rewrite list_lookup_insert_eq).
    assert (DataBlocks.get_shard i e1 = Ok (c1, e1)) as E4
      by (unfold DataBlocks.get_shard; by rewrite Hi1).
    run_st E4.
    set (e2 := mkEnv e.(env_disk) (<[i := cache_put c1 id b0]> e1.(env_caches)) e.(env_manifest)).
    assert (DataBlocks.set_shard i (cache_put c1 id b0) e1 = Ok ((), e2)) as E5 by done. run_st E5.
    exists b0, e2. split; [done|]. split; [done|]. split_and!; [done|done|]. intros _.
    apply (set_shard_ok e1); [done|]. intros id' b' Hv.
    eapply lookup_weaken in Hv; [|apply cache_view_put].
    apply lookup_insert_Some in Hv as [[-> ->]|[_ Hv]].
    + split; [done|]. exists b'. split; [|by split]. unfold load_block. simpl. by rewrite Hr.
    + by eapply (co_entries _ _ Hc1).
Qed.

(** Block files that are not touched keep their blocks. *)
Lemma load_block_frame d d' id :
  d' !! DataFile id = d !! DataFile id → load_block params d' id = load_block params d id.
Proof. intros E. unfold load_block, disk.read, disk.read_uncompressed. by rewrite E. Qed.

Lemma block_on_disk_frame d d' id es :
  d' !! DataFile id = d !! DataFile id →
  block_on_disk params interval d id es → block_on_disk params interval d' id es.
Proof. intros E (b & Hl & Hb). exists b. by rewrite (load_block_frame _ _ _ E). Qed.

End read.

(** ** Writing blocks *)

Section write.
Context `{BloomLaws} `{CompressionLaws} `{LruLaws DataBlock.DataBlock}.
Context (params : Params.Params) (interval : nat).
Context (Hint : params.(Params.block_restart_interval) = N.of_nat interval) (HI : 0 < interval).

Lemma disk_write_ok d f data :
  (N.of_nat (length data) < u32_bound)%N →
  ∃ c, disk.write d f data = Ok (<[f := c]> d) ∧ decompress_vec c = Some data.
Proof.
  intros Hl. destruct (compress_total data Hl) as [c Hc]. exists c.
  unfold disk.write. rewrite Hc. split; [done|]. by apply decompress_compress.
Qed.

(** A changed file keeps the caches valid if the shard of its block is updated. *)
Lemma put_block_ok e id c data c1 b b' m :
  cache_ok params e → decompress_vec c = Some data →
  e.(env_caches) !! DataBlocks.block_to_shard_id id = Some c1 →
  DataBlock.new_from_data data params.(Params.block_restart_interval) = Ok b' →
  same_block b b' →
  cache_ok params (mkEnv (<[DataFile id := c]> e.(env_disk))
    (<[DataBlocks.block_to_shard_id id := cache_put c1 id b]> e.(env_caches)) m).
Proof.
  intros [Hl He] Hdc Hc1 Hn Hsb. split; simpl; [by rewrite length_insert|].
  intros j c' id' bb Hj Hv.
  assert (∀ i0 c0, e.(env_caches) !! i0 = Some c0 → cache_view c0 !! id' = Some bb → id' ≠ id →
    DataBlocks.block_to_shard_id id' = i0 ∧
    ∃ b'', load_block params (<[DataFile id := c]> e.(env_disk)) id' = Ok b'' ∧ same_block bb b'')
    as Hold.
  { intros i0 c0 Hi0 Hv0 Hne. destruct (He _ _ _ _ Hi0 Hv0) as (Hs & b'' & Hlb & Hsb'').
    split; [done|]. exists b''. split; [|done].
    rewrite (load_block_frame _ e.(env_disk)); [done|]. by rewrite lookup_insert_ne by congruence. }
  destruct (decide (DataBlocks.block_to_shard_id id = j)) as [<-|Hne].
  - rewrite list_lookup_insert_eq in Hj by (by eapply lookup_lt_Some). simplify_eq.
    eapply lookup_weaken in Hv; [|apply cache_view_put].
    apply lookup_insert_Some in Hv as [[-> ->]|[Hne Hv]]; [|by eapply Hold].
    split; [done|]. exists b'. split; [|done].
    unfold load_block, disk.read, disk.read_uncompressed. rewrite lookup_insert_eq. simpl.
    by rewrite drop_0, Hdc.
  - rewrite list_lookup_insert_ne in Hj by done. eapply Hold; [done|done|].
    intros ->. destruct (He _ _ _ _ Hj Hv) as [Hs _]. by rewrite Hs in Hne.
Qed.

(** Finishing a block writes its file under a fresh identifier. *)
Lemma finish_ok e bb es meta ids :
  cache_ok params e → builder_ok interval bb es → es ≠ [] →
  (N.of_nat (block_bytes interval es) < u32_bound)%N →
  manifest_holds e.(env_manifest) meta ids →
  (meta.(DatabaseMetadata.next_data_block_id) + 1 < u64_bound)%N →
  let id := meta.(DatabaseMetadata.next_data_block_id) in
  ∃ e', DataBlocks.finish params bb e = Ok (Some id, e') ∧
    block_on_disk params interval e'.(env_disk) id es ∧
    (∀ f, f ≠ DataFile id → e'.(env_disk) !! f = e.(env_disk) !! f) ∧
    cache_ok params e' ∧
    manifest_holds e'.(env_manifest) (DatabaseMetadata.mk meta.(DatabaseMetadata.next_table_id)
      meta.(DatabaseMetadata.num_levels) meta.(DatabaseMetadata.seq_number_offset)
      meta.(DatabaseMetadata.log_offset) (id + 1)) ids.
Proof.
  intros Hc Hbb Hne Hsz Hm Hid id. unfold DataBlocks.finish.
  rewrite (proj2 (N.eqb_neq _ 0)).
  2:{ rewrite (bb_position _ _ _ Hbb). destruct es; [done|simpl; lia]. }
  destruct (generate_data_block_id_holds _ _ _ Hm Hid) as (m' & Hg & Hm').
  set (e1 := mkEnv e.(env_disk) e.(env_caches) m').
  assert (DataBlocks.generate_block_id e = Ok (id, e1)) as E1
    by (unfold DataBlocks.generate_block_id; by rewrite Hg).
  run_st E1.
  destruct (finish_block_ok params interval Hint HI bb es Hbb Hne Hsz)
    as (b & b' & Hf & Hb & Hn & Hb' & Hsame & Hlen).
  run_lift Hf.
  destruct (disk_write_ok e.(env_disk) (DataFile id) b.(DataBlock.data)) as (c & Hw & Hdc);
    [by rewrite Hlen|].
  set (e2 := mkEnv (<[DataFile id := c]> e.(env_disk)) e.(env_caches) m').
  assert (DataBlocks.write_file (DataFile id) b.(DataBlock.data) e1 = Ok ((), e2)) as E2
    by (unfold DataBlocks.write_file; simpl; by rewrite Hw).
  run_st E2.
  destruct (lookup_lt_is_Some_2 e.(env_caches) (DataBlocks.block_to_shard_id id)) as [c1 Hc1];
    [by eapply shard_lt|].
  assert (DataBlocks.get_shard (DataBlocks.block_to_shard_id id) e2 = Ok (c1, e2)) as E3
    by (unfold DataBlocks.get_shard; simpl; by rewrite Hc1).
  run_st E3. eexists. split; [done|]. simpl. split_and!.
  - exists b'. split; [|done]. unfold load_block, disk.read, disk.read_uncompressed.
    rewrite lookup_insert_eq. simpl. by rewrite drop_0, Hdc.
  - intros f Hf'. by apply lookup_insert_ne.
  - by eapply put_block_ok.
  - done.
Qed.

(** What finishing a block does to the caches. *)
Lemma finish_cached bb e id e' :
  DataBlocks.finish params bb e = Ok (Some id, e') →
  let shard_id := DataBlocks.block_to_shard_id id in
  ∃ b c, DataBlockBuilder.finish_block params bb = Ok b ∧ e.(env_caches) !! shard_id = Some c ∧
    e'.(env_caches) = <[shard_id := cache_put c id b]> e.(env_caches).
Proof.
  unfold DataBlocks.finish. destruct (_ =? _)%N; [done|].
  intros ([id1 e1] & E1 & E)%bind_Ok_inv. apply bind_Ok_inv in E as ([b e2] & E2 & E).
  apply bind_Ok_inv in E as ([? e3] & E3 & E). apply bind_Ok_inv in E as ([c e4] & E4 & E). injection E as <- <-.
  apply bind_Ok_inv in E1 as ([? m] & _ & [= <- <-]). apply bind_Ok_inv in E2 as (b1 & Hb & [= <- <-]).
  apply bind_Ok_inv in E3 as (d & _ & [= <- <-]). unfold DataBlocks.get_shard in E4. simpl in E4.
  destruct (env_caches e !! _) as [c1|] eqn:Ec; [|done]. injection E4 as <- <-. by exists b1, c1.
Qed.

End write.

(** C23: the block store is a faithful store of blocks: finishing a builder
    writes a block under the next identifier of the manifest, and no other file
    changes; the shard of the block has the finished block put into its cache, and
    the other shards stay as they are; [get_block] then returns a block with the
    entries that were added, from the cache or from the file, and the blocks
    stored before are still returned with their entries. *)
Theorem block_store_write_read `{BloomLaws} `{CompressionLaws} `{LruLaws DataBlock.DataBlock}
    params interval e bb es meta ids :
  params.(Params.block_restart_interval) = N.of_nat interval → 0 < interval →
  cache_ok params e → builder_ok interval bb es → es ≠ [] →
  (N.of_nat (block_bytes interval es) < u32_bound)%N →
  manifest_holds e.(env_manifest) meta ids →
  (meta.(DatabaseMetadata.next_data_block_id) + 1 < u64_bound)%N →
  let id := meta.(DatabaseMetadata.next_data_block_id) in
  ∃ e1, DataBlocks.finish params bb e = Ok (Some id, e1) ∧ cache_ok params e1 ∧
    block_on_disk params interval e1.(env_disk) id es ∧
    (∀ f, f ≠ DataFile id → e1.(env_disk) !! f = e.(env_disk) !! f) ∧
    (let shard_id := DataBlocks.block_to_shard_id id in
     ∃ b c, DataBlockBuilder.finish_block params bb = Ok b ∧ block_ok interval b es ∧
       e.(env_caches) !! shard_id = Some c ∧
       e1.(env_caches) = <[shard_id := cache_put c id b]> e.(env_caches)) ∧
    manifest_holds e1.(env_manifest) (DatabaseMetadata.mk meta.(DatabaseMetadata.next_table_id)
      meta.(DatabaseMetadata.num_levels) meta.(DatabaseMetadata.seq_number_offset)
      meta.(DatabaseMetadata.log_offset) (id + 1)) ids ∧
    (∃ b e2, DataBlocks.get_block params id e1 = Ok (b, e2) ∧ block_ok interval b es) ∧
    (∀ id' es', id' ≠ id → block_on_disk params interval e.(env_disk) id' es' →
      ∃ b e2, DataBlocks.get_block params id' e1 = Ok (b, e2) ∧ block_ok interval b es').
Proof.
  intros Hp HI Hc Hbb Hne Hsz Hm Hid id.
  destruct (finish_ok params interval Hp HI e bb es meta ids Hc Hbb Hne Hsz Hm Hid)
    as (e1 & E & Hd & Hframe & Hc1 & Hm1).
  exists e1. split_and!; [done|done|done|done| |done| |].
  - destruct (finish_cached params bb e id e1 E) as (b & c & Hf & Hc' & Hca).
    destruct (finish_block_ok params interval Hp HI bb es Hbb Hne Hsz) as (b1 & _ & Hf1 & Hb & _).
    rewrite Hf in Hf1. injection Hf1 as <-. by exists b, c.
  - destruct (get_block_ok params interval e1 id es Hc1 Hd) as (b & e2 & ? & ? & _). eauto.
  - intros id' es' Hne' Hd'.
    destruct (get_block_ok params interval e1 id' es' Hc1) as (b & e2 & ? & ? & _); [|eauto].
    eapply block_on_disk_frame; [|done]. apply Hframe. subst id. congruence.
Qed.

(** Reading through the cache is transparent: when the file of a block holds
    the entries [es], [get_block] returns a block with these entries, whether it
    was cached or not, and changes nothing but the caches, which still agree
    with the files. *)
Theorem get_block_transparent `{Bloom} `{Compression} `{LruLaws DataBlock.DataBlock}
    params interval e id es :
  cache_ok params e → block_on_disk params interval e.(env_disk) id es →
  ∃ b e', DataBlocks.get_block params id e = Ok (b, e') ∧ block_ok interval b es ∧
    e'.(env_disk) = e.(env_disk) ∧ e'.(env_manifest) = e.(env_manifest) ∧ cache_ok params e'.
Proof.
  intros Hc Hd. destruct (get_block_ok params interval e id es Hc Hd)
    as (b & e' & ? & ? & ? & ? & Hc'). eauto 10.
Qed.

(** ** Witnesses *)

(** A cache that satisfies the laws: one that never evicts. *)
Definition map_cache (V : Type) : LruCache V := {|
  cache := gmap N V;
  cache_new _ := ∅;
  cache_get c k := (c !! k, c);
  cache_put c k v := <[k := v]> c;
|}.

Definition map_cache_laws (V : Type) : @LruLaws V (map_cache V).
Proof.
  refine (@Build_LruLaws V (map_cache V) (λ c, c) _ _ _).
  - done.
  - done.
  - done.
Defined.

(** The parameters of the witnesses, as instances. *)
Module Concrete.

#[export] Existing Instance flag_bloom.
#[export] Existing Instance flag_bloom_laws.
#[export] Existing Instance identity_compression.
#[export] Existing Instance identity_compression_laws.

#[export] Instance block_cache : LruCache DataBlock.DataBlock := map_cache _.
#[export] Instance block_cache_laws : LruLaws DataBlock.DataBlock := map_cache_laws _.

End Concrete.

Section witnesses.
Import Concrete.

(** An empty store. *)
Definition empty_env : Env :=
  mkEnv ∅ (replicate (N.to_nat NUM_SHARDS) (cache_new 7)) sample_manifest.

Lemma empty_env_ok : cache_ok sample_block_params empty_env.
Proof.
  split; [done|]. intros i c id b Hi Hv. cbn [env_caches empty_env] in Hi.
  apply lookup_replicate in Hi as [-> _]. done.
Qed.

Definition sample_builder : DataBlockBuilder.DataBlockBuilder :=
  match (bb ← DataBlockBuilder.new; add_entries sample_block_params bb sample_entries) with
  | Ok bb => bb
  | _ => DataBlockBuilder.mk [] 0 [] false
  end.

Lemma sample_builder_ok : builder_ok 2 sample_builder sample_entries.
Proof.
  unfold sample_builder.
  destruct (builder_new_ok sample_block_params 2) as (bb & -> & Hbb); [done|lia|]. run_bind.
  destruct (add_entries_ok sample_block_params 2 bb [] sample_entries)
    as (bb' & -> & Hbb'); [done|lia|done|exact sample_entries_ok|done].
Qed.

Lemma block_store_write_read_witness :
  ∃ e1, DataBlocks.finish sample_block_params sample_builder empty_env = Ok (Some 3%N, e1) ∧
    cache_ok sample_block_params e1 ∧
    (∀ f, f ≠ DataFile 3 → e1.(env_disk) !! f = None) ∧
    (∃ b e2, DataBlocks.get_block sample_block_params 3 e1 = Ok (b, e2) ∧
      block_ok 2 b sample_entries) ∧
    (∃ c, e1.(env_caches) !! 3 = Some c ∧ is_Some (fst (cache_get c 3%N))).
Proof.
  destruct (block_store_write_read sample_block_params 2 empty_env sample_builder sample_entries
    sample_meta [[7%N]]) as (e1 & E & Hc & _ & Hf & (b & c & Hfb & _ & Hc0 & Hca) & _ & Hg & _);
    [reflexivity|lia|exact empty_env_ok|exact sample_builder_ok|discriminate
    |vm_compute; reflexivity|exact sample_manifest_holds|vm_compute; reflexivity|].
  exists e1. split; [exact E|]. split; [exact Hc|]. split; [exact Hf|]. split; [exact Hg|].
  exists (cache_put c 3%N b). rewrite Hca. split; [by apply list_lookup_insert_eq, lookup_lt_Some with c|].
  exists b. simpl. apply lookup_insert_eq.
Defined.

(** A store with the sample block in the file of block 3. *)
Definition one_block_env : Env :=
  mkEnv {[ DataFile 3 := sample_block.(DataBlock.data) ]}
    (replicate (N.to_nat NUM_SHARDS) (cache_new 7)) sample_manifest.

Lemma one_block_env_ok : cache_ok sample_block_params one_block_env.
Proof.
  split; [done|]. intros i c id b Hi Hv. cbn [env_caches empty_env one_block_env] in Hi.
  apply lookup_replicate in Hi as [-> _]. done.
Qed.

Lemma one_block_on_disk :
  block_on_disk sample_block_params 2 one_block_env.(env_disk) 3 sample_entries.
Proof.
  destruct (build_block_holds sample_block_params 2 sample_entries) as (b & b' & Hb & _ & Hn & Hb');
    [done|lia|exact sample_entries_ok|done|].
  exists b'. split; [|done]. unfold load_block, disk.read, disk.read_uncompressed.
  unfold one_block_env. simpl env_disk. rewrite lookup_singleton_eq. simpl fmap. rewrite drop_0.
  simpl decompress_vec. run_bind. unfold sample_block. by rewrite Hb.
Qed.

Lemma get_block_transparent_witness :
  ∃ b e', DataBlocks.get_block sample_block_params 3 one_block_env = Ok (b, e') ∧
    block_ok 2 b sample_entries ∧
    e'.(env_disk) = one_block_env.(env_disk) ∧
    e'.(env_manifest) = one_block_env.(env_manifest) ∧ cache_ok sample_block_params e'.
Proof.
  apply (get_block_transparent sample_block_params 2 one_block_env 3 sample_entries);
    [exact one_block_env_ok|exact one_block_on_disk].
Defined.

End witnesses.
