(* ===== verification/IndexBlock.v ===== *)
(** * Index blocks (src/src/index_blocks.rs)

    The index block of a sorted table: the key range of the table and, for each
    data block, its first key and its identifier, with a list of offsets for
    random access.  The file models the byte layout and the search for the data
    block that might hold a key. *)

From stdpp Require Import base list gmap strings sorting.
From Stdlib Require Import Strings.Byte NArith Lia.
From S2P Require Import Prelude WriteBatch Disk DataBlock.

Local Open Scope nat_scope.
Local Open Scope lsm_scope.

(** [size_of::<IndexBlockHeader>()] and [size_of::<IndexEntryHeader>()] *)
Definition index_header_length : nat := 24.
Definition index_entry_header_length : nat := 16.

Module IndexBlockHeader.

(** [struct IndexBlockHeader] *)
Record IndexBlockHeader := mk {
  size : N;
  min_key_len : N;
  max_key_len : N;
  num_data_blocks : N;
}.

Definition as_bytes (h : IndexBlockHeader) : list byte :=
  le_bytes 8 h.(size) ++ le_bytes 4 h.(min_key_len) ++ le_bytes 4 h.(max_key_len)
    ++ le_bytes 4 h.(num_data_blocks) ++ le_bytes 4 0.

(** [IndexBlockHeader::ref_from_prefix] *)
Definition from_prefix (d : list byte) : outcome IndexBlockHeader :=
  if index_header_length <=? length d then
    Ok {| size := le_val (take 8 d);
          min_key_len := le_val (take 4 (drop 8 d));
          max_key_len := le_val (take 4 (drop 12 d));
          num_data_blocks := le_val (take 4 (drop 16 d)) |}
  else Panic "SizeError".

End IndexBlockHeader.

Module IndexEntryHeader.

(** [struct IndexEntryHeader] *)
Record IndexEntryHeader := mk { block_id : N; key_len : N }.

Definition as_bytes (h : IndexEntryHeader) : list byte :=
  le_bytes 8 h.(block_id) ++ le_bytes 4 h.(key_len) ++ le_bytes 4 0.

Definition from_prefix (d : list byte) : outcome IndexEntryHeader :=
  if index_entry_header_length <=? length d then
    Ok {| block_id := le_val (take 8 d); key_len := le_val (take 4 (drop 8 d)) |}
  else Panic "SizeError".

End IndexEntryHeader.

Module IndexBlock.

(** [struct IndexBlock] *)
Record IndexBlock := mk { data : list byte }.

(** The loop of [IndexBlock::new] over the index entries. *)
Fixpoint append_entries (block_data : list byte) (offset_start pos : nat)
    (index : list (Key * N)) : outcome (list byte) :=
  match index with
  | [] => Ok block_data
  | (key, block_id) :: index' =>
      let header := {| IndexEntryHeader.block_id := block_id;
                       IndexEntryHeader.key_len := as_u32 (length key) |} in
      let entry_offset := as_u32 (length block_data) in
      block_data ← overwrite block_data (offset_start + pos * 4) (le_bytes 4 entry_offset);
      let block_data := block_data ++ IndexEntryHeader.as_bytes header ++ key in
      append_entries block_data offset_start (pos + 1) index'
  end.

(** [IndexBlock::new] up to the write to disk. *)
Definition build (index : list (Key * N)) (size : N) (min_key max_key : Key)
  : outcome (list byte) :=
  let header := {| IndexBlockHeader.size := size;
                   IndexBlockHeader.min_key_len := as_u32 (length min_key);
                   IndexBlockHeader.max_key_len := as_u32 (length max_key);
                   IndexBlockHeader.num_data_blocks := as_u32 (length index) |} in
  let block_data := IndexBlockHeader.as_bytes header ++ min_key ++ max_key in
  let block_data := add_padding block_data in
  let offset_start := length block_data in
  let offset_len := pad_offset (length index) in
  let block_data := block_data ++ replicate (offset_len * 4) x00 in
  append_entries block_data offset_start 0 index.

(** [IndexBlock::new] *)
Definition new `{Compression} (d : Disk) (id : N) (index : list (Key * N)) (size : N)
    (min_key max_key : Key) : outcome (IndexBlock * Disk) :=
  block_data ← build index size min_key max_key;
  d' ← disk.write d (IndexFile id) block_data;
  Ok ({| data := block_data |}, d').

(** [IndexBlock::load] *)
Definition load `{Compression} (d : Disk) (id : N) : outcome IndexBlock :=
  match disk.read d (IndexFile id) 0 with
  | Ok data => Ok {| data := data |}
  | Err (Io _ msg) => Err (Io "Failed to read index block" msg)
  | Err e => Err e
  | Panic s => Panic s
  | OutOfFuel => OutOfFuel
  end.

(** [IndexBlock::get_header] *)
Definition get_header (b : IndexBlock) : outcome IndexBlockHeader.IndexBlockHeader :=
  IndexBlockHeader.from_prefix b.(data).

(** [IndexBlock::get_entry_offset] *)
Definition get_entry_offset (b : IndexBlock) (pos : nat) : outcome nat :=
  header ← get_header b;
  _ ← assert_that (as_u32 pos <? header.(IndexBlockHeader.num_data_blocks))%N
        "(pos as u32) < header.num_data_blocks";
  let offset := index_header_length + N.to_nat header.(IndexBlockHeader.min_key_len)
                + N.to_nat header.(IndexBlockHeader.max_key_len) in
  let offset_offset := pad_offset offset + pos * 4 in
  rest ← slice_from b.(data) offset_offset;
  x ← read_prefix 4 rest;
  Ok (N.to_nat x).

(** [IndexBlock::get_block_id] *)
Definition get_block_id (b : IndexBlock) (pos : nat) : outcome N :=
  offset ← get_entry_offset b pos;
  header_data ← slice b.(data) offset (offset + index_entry_header_length);
  entry_header ← IndexEntryHeader.from_prefix header_data;
  Ok entry_header.(IndexEntryHeader.block_id).

(** [IndexBlock::get_block_key] *)
Definition get_block_key (b : IndexBlock) (pos : nat) : outcome Key :=
  offset ← get_entry_offset b pos;
  rest ← slice_from b.(data) offset;
  entry_header ← IndexEntryHeader.from_prefix rest;
  let key_start := offset + index_entry_header_length in
  slice b.(data) key_start (key_start + N.to_nat entry_header.(IndexEntryHeader.key_len)).

(** [IndexBlock::num_data_blocks] *)
Definition num_data_blocks (b : IndexBlock) : outcome nat :=
  header ← get_header b; Ok (N.to_nat header.(IndexBlockHeader.num_data_blocks)).

(** [IndexBlock::get_size] *)
Definition get_size (b : IndexBlock) : outcome nat :=
  header ← get_header b; Ok (N.to_nat header.(IndexBlockHeader.size)).

(** [IndexBlock::get_min] *)
Definition get_min (b : IndexBlock) : outcome Key :=
  header ← get_header b;
  let key_offset := index_header_length in
  slice b.(data) key_offset (key_offset + N.to_nat header.(IndexBlockHeader.min_key_len)).

(** [IndexBlock::get_max] *)
Definition get_max (b : IndexBlock) : outcome Key :=
  header ← get_header b;
  let key_offset := index_header_length + N.to_nat header.(IndexBlockHeader.min_key_len) in
  slice b.(data) key_offset (key_offset + N.to_nat header.(IndexBlockHeader.max_key_len)).

(** The [while end - start > 1] loop of [binary_search]: the identifier of an
    exact match, or the last two candidates. *)
Fixpoint search_loop (fuel : nat) (b : IndexBlock) (key : Key) (start end_ : nat)
  : outcome (N + (nat * nat)) :=
  match fuel with
  | O => OutOfFuel
  | S fuel' =>
      n ← usize_sub end_ start;
      if negb (1 <? n) then Ok (inr (start, end_)) else
      let mid := (end_ - start) / 2 + start in
      mid_key ← get_block_key b mid;
      match key_cmp mid_key key with
      | Eq => id ← get_block_id b mid; Ok (inl id)
      | Gt => search_loop fuel' b key start mid
      | Lt => search_loop fuel' b key mid end_
      end
  end.

(** [IndexBlock::binary_search] *)
Definition binary_search (b : IndexBlock) (key : Key) : outcome (option N) :=
  min ← get_min b;
  max ← get_max b;
  if key_ltb key min || key_ltb max key then Ok None else
  header ← get_header b;
  end_ ← usize_sub (N.to_nat header.(IndexBlockHeader.num_data_blocks)) 1;
  r ← search_loop (S (N.to_nat header.(IndexBlockHeader.num_data_blocks))) b key 0 end_;
  match r with
  | inl id => Ok (Some id)
  | inr (start, end_) =>
      start_key ← get_block_key b start;
      _ ← assert_that (key_leb start_key key) "key >= self.get_block_key(start)";
      end_key ← get_block_key b end_;
      id ← (if key_leb end_key key then get_block_id b end_ else get_block_id b start);
      Ok (Some id)
  end.

End IndexBlock.

(** ** Specification *)

(** The bytes of an index entry. *)
Definition index_entry_bytes (e : Key * N) : list byte :=
  IndexEntryHeader.as_bytes (IndexEntryHeader.mk e.2 (N.of_nat (length e.1))) ++ e.1.

(** Where the [i]-th entry starts when the entries start at [base]. *)
Definition index_offset (base : nat) (es : list (Key * N)) (i : nat) : nat :=
  base + length (take i es ≫= index_entry_bytes).

Definition index_offsets (base : nat) (es : list (Key * N)) : list N :=
  (λ i, N.of_nat (index_offset base es i)) <$> seq 0 (length es).

(** The layout: the padded header part [A], [n] slots for offsets, of which the
    first are filled, and the entries. *)
Definition index_layout (A : list byte) (n : nat) (es : list (Key * N)) : list byte :=
  A ++ (index_offsets (length A + n * 4) es ≫= le_bytes 4)
    ++ replicate ((n - length es) * 4) x00 ++ (es ≫= index_entry_bytes).

(** The index block holds [index], [size] and the key range. *)
Record index_ok (b : IndexBlock.IndexBlock) (index : list (Key * N)) (size : N)
    (min_key max_key : Key) : Prop := {
  ix_data : ∃ pad, b.(IndexBlock.data) =
      index_layout (IndexBlockHeader.as_bytes (IndexBlockHeader.mk size
          (N.of_nat (length min_key)) (N.of_nat (length max_key)) (N.of_nat (length index)))
        ++ min_key ++ max_key ++ pad) (pad_offset (length index)) index
    ∧ index_header_length + length min_key + length max_key + length pad
      = pad_offset (index_header_length + length min_key + length max_key);
  ix_size : (N.of_nat (length b.(IndexBlock.data)) < u32_bound)%N;
  ix_width : (size < u64_bound)%N;
  ix_ids : Forall (λ e : Key * N, (e.2 < u64_bound)%N) index;
}.

(** ** Layout *)

Lemma length_index_entry_bytes e :
  length (index_entry_bytes e) = index_entry_header_length + length e.1.
Proof. unfold index_entry_bytes. rewrite length_app. done. Qed.

Lemma length_index_offsets base es : length (index_offsets base es) = length es.
Proof. unfold index_offsets. by rewrite length_fmap, length_seq. Qed.

#[export] Hint Rewrite length_index_offsets : lsm_len.

Lemma length_index_layout A n es :
  length es <= n →
  length (index_layout A n es) = length A + n * 4 + length (es ≫= index_entry_bytes).
Proof. intros. unfold index_layout. len. Qed.

Lemma index_offsets_snoc base es e :
  index_offsets base (es ++ [e]) =
    index_offsets base es ++ [N.of_nat (base + length (es ≫= index_entry_bytes))].
Proof.
  unfold index_offsets. rewrite length_app, seq_app, fmap_app. f_equal.
  - apply list_fmap_ext. intros i j Hj. apply lookup_seq in Hj as [-> Hj]. simpl.
    unfold index_offset. by rewrite take_app_le by lia.
  - simpl. unfold index_offset. by rewrite take_app_length.
Qed.

Lemma replicate_split4 n m :
  m < n → replicate ((n - m) * 4) x00 = replicate 4 x00 ++ replicate ((n - S m) * 4) x00.
Proof. intros. rewrite <-replicate_add. f_equal. lia. Qed.

Lemma append_entries_layout A n es1 es2 :
  length es1 + length es2 <= n →
  Forall (λ e : Key * N, (N.of_nat (length e.1) < u32_bound)%N) es2 →
  (N.of_nat (length (index_layout A n (es1 ++ es2))) < u32_bound)%N →
  IndexBlock.append_entries (index_layout A n es1) (length A) (length es1) es2
    = Ok (index_layout A n (es1 ++ es2)).
Proof.
  revert es1; induction es2 as [|[k id] es2 IH]; intros es1 Hn Hk Hsz.
  { by rewrite app_nil_r. }
  simpl length in Hn. apply Forall_cons in Hk as [Hk1 Hk]. simpl in Hk1.
  replace (es1 ++ (k, id) :: es2) with ((es1 ++ [(k, id)]) ++ es2) in * by (by rewrite <-app_assoc).
  cbn [IndexBlock.append_entries].
  assert (N.of_nat (length (index_layout A n es1)) < u32_bound)%N as Hlt.
  { rewrite length_index_layout in Hsz by len. rewrite length_index_layout by lia.
    rewrite !bind_app in Hsz. len. }
  rewrite !as_u32_small by done.
  assert (overwrite (index_layout A n es1) (length A + length es1 * 4)
      (le_bytes 4 (N.of_nat (length (index_layout A n es1))))
    = Ok (A ++ (index_offsets (length A + n * 4) (es1 ++ [(k, id)]) ≫= le_bytes 4)
          ++ replicate ((n - S (length es1)) * 4) x00 ++ (es1 ≫= index_entry_bytes))) as ->.
  { rewrite (length_index_layout A n es1) by lia. unfold index_layout.
    rewrite (replicate_split4 n (length es1)) by lia.
    rewrite index_offsets_snoc, bind_app.
    replace ([N.of_nat (length A + n * 4 + length (es1 ≫= index_entry_bytes))] ≫= le_bytes 4)
      with (le_bytes 4 (N.of_nat (length A + n * 4 + length (es1 ≫= index_entry_bytes))))
      by (by rewrite bind_singleton).
    rewrite <-!app_assoc. rewrite (app_assoc A).
    rewrite (app_assoc A (_ ≫= _) (le_bytes 4 _ ++ _)).
    apply overwrite_app_mid; len. }
  run_bind. specialize (IH (es1 ++ [(k, id)])).
  rewrite length_app in IH. simpl (length [_]) in IH. rewrite <-IH by (lia || done). f_equal.
  unfold index_layout. rewrite !length_app, !bind_app, !bind_singleton. simpl (length [_]).
  rewrite Nat.add_1_r. unfold index_entry_bytes. by rewrite <-!app_assoc.
Qed.

Lemma pad_offset_ge n : n <= pad_offset n.
Proof. unfold pad_offset. lia. Qed.

(** The size of the index block of [index]. *)
Definition index_bytes (index : list (Key * N)) (min_key max_key : Key) : nat :=
  pad_offset (index_header_length + length min_key + length max_key)
  + pad_offset (length index) * 4 + length (index ≫= index_entry_bytes).

(** The index can be stored. *)
Record index_fits (index : list (Key * N)) (size : N) (min_key max_key : Key) : Prop := {
  if_bytes : (N.of_nat (index_bytes index min_key max_key) < u32_bound)%N;
  if_size : (size < u64_bound)%N;
  if_ids : Forall (λ e : Key * N, (e.2 < u64_bound)%N) index;
}.

Lemma index_key_length index k id :
  (k, id) ∈ index → length k <= length (index ≫= index_entry_bytes).
Proof.
  intros (i & Hi)%list_elem_of_lookup. rewrite <-(take_drop_middle _ _ _ Hi), bind_app.
  rewrite bind_cons, !length_app, length_index_entry_bytes. simpl. lia.
Qed.

Lemma index_build_ok index size min_key max_key :
  index_fits index size min_key max_key →
  ∃ data, IndexBlock.build index size min_key max_key = Ok data ∧
    index_ok (IndexBlock.mk data) index size min_key max_key ∧
    length data = index_bytes index min_key max_key.
Proof.
  intros [Hb Hs Hids]. unfold index_bytes in Hb. unfold IndexBlock.build.
  pose proof (pad_offset_ge (index_header_length + length min_key + length max_key)) as Hp1.
  pose proof (pad_offset_ge (length index)) as Hp2.
  rewrite !as_u32_small by lia.
  set (hdr := IndexBlockHeader.as_bytes _).
  destruct (add_padding_prefix (hdr ++ min_key ++ max_key)) as [n Hn].
  pose proof (length_add_padding (hdr ++ min_key ++ max_key)) as HlA.
  assert (length hdr = index_header_length) as Hh by done.
  rewrite Hn in *. set (A := (hdr ++ min_key ++ max_key) ++ replicate n x00) in *.
  rewrite (length_app hdr), (length_app min_key max_key), Hh, Nat.add_assoc in HlA.
  rename HlA into HA.
  assert (A ++ replicate (pad_offset (length index) * 4) x00
          = index_layout A (pad_offset (length index)) []) as ->.
  { unfold index_layout. simpl length. rewrite Nat.sub_0_r.
    change (index_offsets _ []) with (@nil N). cbn [mbind list_bind app]. by rewrite app_nil_r. }
  assert (length (index_layout A (pad_offset (length index)) index)
          = index_bytes index min_key max_key) as HL.
  { rewrite length_index_layout by lia. unfold index_bytes. lia. }
  pose proof (append_entries_layout A (pad_offset (length index)) [] index) as Happ.
  simpl app in Happ. simpl (length []) in Happ. rewrite Happ; [|lia| |by rewrite HL].
  2:{ apply Forall_forall. intros [k id] Hin. simpl.
      pose proof (index_key_length index k id Hin). lia. }
  eexists; split; [done|]. split; [|done]. split; cbn [IndexBlock.data]; [|by rewrite HL|done|done].
  exists (replicate n x00). split; [unfold A; by rewrite <-!app_assoc|].
  rewrite <-HA. unfold A. rewrite !length_app, Hh, length_replicate. lia.
Qed.

(** ** Reading *)

Section index.
Context (b : IndexBlock.IndexBlock) (index : list (Key * N)) (size : N) (min_key max_key : Key).
Context (Hb : index_ok b index size min_key max_key).

Definition header_of : IndexBlockHeader.IndexBlockHeader :=
  IndexBlockHeader.mk size (N.of_nat (length min_key)) (N.of_nat (length max_key))
    (N.of_nat (length index)).

Lemma index_data : ∃ A rest, b.(IndexBlock.data) = A ++ rest ∧
  rest = (index_offsets (length A + pad_offset (length index) * 4) index ≫= le_bytes 4)
    ++ replicate ((pad_offset (length index) - length index) * 4) x00
    ++ (index ≫= index_entry_bytes) ∧
  length A = pad_offset (index_header_length + length min_key + length max_key) ∧
  ∃ pad, A = IndexBlockHeader.as_bytes header_of ++ min_key ++ max_key ++ pad.
Proof.
  destruct (ix_data _ _ _ _ _ Hb) as (pad & Hd & Hp).
  do 2 eexists. split; [exact Hd|]. split; [done|]. split; [|by exists pad].
  rewrite !length_app. change (length (IndexBlockHeader.as_bytes _)) with index_header_length. lia.
Qed.

Lemma index_bounds :
  (N.of_nat (length index) < u32_bound)%N ∧ (N.of_nat (length min_key) < u32_bound)%N ∧
  (N.of_nat (length max_key) < u32_bound)%N ∧
  (N.of_nat (pad_offset (index_header_length + length min_key + length max_key)
     + pad_offset (length index) * 4 + length (index ≫= index_entry_bytes)) < u32_bound)%N.
Proof.
  pose proof (ix_size _ _ _ _ _ Hb) as Hs. destruct index_data as (A & rest & Hd & Hr & HA & _).
  pose proof (pad_offset_ge (index_header_length + length min_key + length max_key)).
  pose proof (pad_offset_ge (length index)). rewrite Hd, Hr in Hs. len.
Qed.

Lemma index_header_ok : IndexBlock.get_header b = Ok header_of.
Proof.
  destruct index_data as (A & rest & Hd & _ & _ & pad & HA).
  destruct index_bounds as (Hb1 & Hb2 & Hb3 & _).
  unfold IndexBlock.get_header, IndexBlockHeader.from_prefix. rewrite Hd, HA, <-!app_assoc.
  rewrite (proj2 (Nat.leb_le _ _)).
  2:{ rewrite length_app. change (length (IndexBlockHeader.as_bytes _)) with index_header_length. lia. }
  transitivity (Ok (IndexBlockHeader.mk (le_val (le_bytes 8 size))
    (le_val (le_bytes 4 (N.of_nat (length min_key)))) (le_val (le_bytes 4 (N.of_nat (length max_key))))
    (le_val (le_bytes 4 (N.of_nat (length index)))))); [reflexivity|].
  rewrite le_roundtrip_u64, !le_roundtrip_u32 by (done || apply Hb). done.
Qed.

Lemma index_get_min : IndexBlock.get_min b = Ok min_key.
Proof.
  destruct index_data as (A & rest & Hd & _ & _ & pad & HA).
  unfold IndexBlock.get_min. rewrite index_header_ok. run_bind. rewrite Hd, HA, <-!app_assoc.
  cbn [IndexBlockHeader.min_key_len header_of]. rewrite Nat2N.id.
  by rewrite slice_app_mid.
Qed.

Lemma index_get_max : IndexBlock.get_max b = Ok max_key.
Proof.
  destruct index_data as (A & rest & Hd & _ & _ & pad & HA).
  unfold IndexBlock.get_max. rewrite index_header_ok. run_bind. rewrite Hd, HA, <-!app_assoc.
  cbn [IndexBlockHeader.min_key_len IndexBlockHeader.max_key_len header_of]. rewrite !Nat2N.id.
  rewrite (app_assoc _ min_key). by rewrite slice_app_mid by (rewrite length_app; done).
Qed.

Lemma index_num : IndexBlock.num_data_blocks b = Ok (length index).
Proof.
  unfold IndexBlock.num_data_blocks. rewrite index_header_ok. simpl. by rewrite Nat2N.id.
Qed.

Lemma index_get_size : IndexBlock.get_size b = Ok (N.to_nat size).
Proof. unfold IndexBlock.get_size. by rewrite index_header_ok. Qed.

(** The entries of the block, from the [i]-th on. *)
Lemma index_entry_split i e :
  index !! i = Some e →
  ∃ pre post, b.(IndexBlock.data) = pre ++ index_entry_bytes e ++ post ∧
    IndexBlock.get_entry_offset b i = Ok (length pre).
Proof.
  intros Hi. pose proof (lookup_lt_Some _ _ _ Hi) as Hlt.
  destruct index_data as (A & rest & Hd & Hr & HlA & _). destruct index_bounds as (Hb1 & _ & _ & Hb4).
  pose proof (pad_offset_ge (length index)) as Hp.
  set (base := length A + pad_offset (length index) * 4) in *.
  assert (index_offsets base index !! i = Some (N.of_nat (index_offset base index i))) as Ho.
  { unfold index_offsets. by rewrite list_lookup_fmap, lookup_seq_lt. }
  destruct (u32s_split _ _ _ Ho) as (l1 & l2 & El & Hl1).
  pose proof (f_equal length El) as HEl.
  assert ((index ≫= index_entry_bytes) = (take i index ≫= index_entry_bytes)
    ++ index_entry_bytes e ++ (drop (S i) index ≫= index_entry_bytes)) as Ee.
  { rewrite <-(take_drop_middle index i e Hi) at 1. by rewrite bind_app, bind_cons. }
  exists (A ++ (index_offsets base index ≫= le_bytes 4)
    ++ replicate ((pad_offset (length index) - length index) * 4) x00
    ++ (take i index ≫= index_entry_bytes)), (drop (S i) index ≫= index_entry_bytes). split.
  { rewrite Hd, Hr, Ee. by rewrite <-!app_assoc. }
  assert (index_offset base index i <= length b.(IndexBlock.data)) as Hoff.
  { rewrite Hd, Hr, Ee. unfold index_offset, base. len. }
  unfold IndexBlock.get_entry_offset. rewrite index_header_ok. run_bind.
  cbn [IndexBlockHeader.num_data_blocks IndexBlockHeader.min_key_len IndexBlockHeader.max_key_len header_of].
  rewrite as_u32_small by lia. rewrite assert_Ok by (apply N.ltb_lt; lia).
  rewrite !Nat2N.id, <-HlA.
  rewrite Hd, Hr, El, <-!app_assoc, (app_assoc A l1).
  rewrite slice_from_app by len. run_bind.
  rewrite read_prefix_app by len. run_bind.
  pose proof (ix_size _ _ _ _ _ Hb). rewrite le_roundtrip_u32 by lia. rewrite Nat2N.id.
  f_equal. unfold index_offset, base. len.
Qed.

Lemma index_block_id i e : index !! i = Some e → IndexBlock.get_block_id b i = Ok e.2.
Proof.
  intros Hi. destruct (index_entry_split i e Hi) as (pre & post & Hd & Ho).
  unfold IndexBlock.get_block_id. rewrite Ho. run_bind. rewrite Hd.
  unfold index_entry_bytes. rewrite <-app_assoc.
  rewrite slice_app_mid by done. run_bind.
  transitivity (Ok (le_val (le_bytes 8 e.2))); [reflexivity|].
  rewrite le_roundtrip_u64; [done|].
  apply (Forall_lookup_1 _ _ _ _ (ix_ids _ _ _ _ _ Hb) Hi).
Qed.

Lemma index_block_key i e : index !! i = Some e → IndexBlock.get_block_key b i = Ok e.1.
Proof.
  intros Hi. destruct (index_entry_split i e Hi) as (pre & post & Hd & Ho).
  unfold IndexBlock.get_block_key. rewrite Ho. run_bind. rewrite Hd.
  rewrite slice_from_app by done. run_bind.
  unfold index_entry_bytes. rewrite <-!app_assoc.
  unfold IndexEntryHeader.from_prefix. rewrite (proj2 (Nat.leb_le _ _)).
  2:{ rewrite length_app. change (length (IndexEntryHeader.as_bytes _)) with index_entry_header_length. lia. }
  run_bind. cbn [IndexEntryHeader.key_len].
  change (take 4 (drop 8 (IndexEntryHeader.as_bytes _ ++ _))) with (le_bytes 4 (N.of_nat (length e.1))).
  rewrite le_roundtrip_u32, Nat2N.id.
  2:{ destruct index_bounds as (_ & _ & _ & H4). destruct e as [k id].
      pose proof (index_key_length index k id ltac:(by eapply list_elem_of_lookup_2)). simpl. lia. }
  rewrite (app_assoc pre). by rewrite slice_app_mid by (rewrite length_app; done).
Qed.

(** *** Search *)

Context (Hsorted : keys_sorted index) (Hne : index ≠ []).

(** The candidates left: no block before [s] and none from [t] on holds the
    key, unless [t] is the last one. *)
Definition index_search_inv (key : Key) (s t : nat) : Prop :=
  s <= t ∧ t < length index ∧
  (s = 0 ∨ ∃ e, index !! s = Some e ∧ e.1 <k key) ∧
  (t = length index - 1 ∨ ∃ e, index !! t = Some e ∧ key <k e.1).

(** [i] is the last block whose first key is not greater than the key. *)
Definition index_pick (key : Key) (i : nat) (id : N) : Prop :=
  ∃ k, index !! i = Some (k, id) ∧ k <=k key ∧
    ∀ j e, i < j → index !! j = Some e → key <k e.1.

Lemma index_search_loop_spec fuel key s t :
  index_search_inv key s t → t - s < fuel →
  match IndexBlock.search_loop fuel b key s t with
  | Ok (inl id) => ∃ i, index_pick key i id
  | Ok (inr (s', t')) => index_search_inv key s' t' ∧ t' - s' <= 1
  | _ => False
  end.
Proof.
  revert s t; induction fuel as [|fuel IH]; intros s t Hinv Hf; [lia|].
  cbn [IndexBlock.search_loop]. destruct Hinv as (Hst & Ht & Hs1 & Ht1).
  unfold usize_sub. rewrite (proj2 (Nat.leb_le _ _)) by lia. run_bind.
  destruct (1 <? _) eqn:E; bool_to_prop; cbn [negb]; [|by split; [split_and!|]].
  set (m := (t - s) / 2 + s). assert (s < m < t) as Hm by (subst m; lia).
  destruct (lookup_lt_is_Some_2 index m) as [[k id] Hk]; [lia|].
  rewrite (index_block_key m _ Hk). run_bind. simpl (_.1).
  destruct (key_cmp k key) eqn:Ec.
  - rewrite (index_block_id m _ Hk). run_bind. apply key_cmp_eq in Ec as ->.
    exists m, key. split_and!; [done|apply kle_refl|]. intros j e Hj He.
    by apply (keys_sorted_lookup_lt index m j (key, id) e).
  - apply IH; [|lia]. split_and!; [lia|done|right; eauto|done].
  - apply IH; [|lia]. apply key_cmp_gt in Ec. split_and!; [lia|lia|done|right; eauto].
Qed.

Lemma index_length_pos : 0 < length index.
Proof. destruct index; [done|simpl; lia]. Qed.

Lemma index_search_start key :
  match IndexBlock.search_loop (S (length index)) b key 0 (length index - 1) with
  | Ok (inl id) => ∃ i, index_pick key i id
  | Ok (inr (s, t)) => index_search_inv key s t ∧ t - s <= 1
  | _ => False
  end.
Proof.
  pose proof index_length_pos. apply index_search_loop_spec; [|lia].
  split_and!; [lia|lia|by left|by left].
Qed.

Lemma index_binary_search_found key k0 id0 :
  min_key <=k key → key <=k max_key → index !! 0 = Some (k0, id0) → k0 <=k key →
  ∃ i id, IndexBlock.binary_search b key = Ok (Some id) ∧ index_pick key i id.
Proof.
  intros Hmin Hmax H0 Hk0. unfold IndexBlock.binary_search.
  rewrite index_get_min, index_get_max. run_bind.
  rewrite (proj2 (key_ltb_ge _ _) Hmin), (proj2 (key_ltb_ge _ _) Hmax). cbn [orb].
  rewrite index_header_ok. run_bind. cbn [IndexBlockHeader.num_data_blocks header_of].
  rewrite Nat2N.id. unfold usize_sub. pose proof index_length_pos.
  rewrite (proj2 (Nat.leb_le _ _)) by lia. run_bind.
  pose proof (index_search_start key) as Hl.
  destruct (IndexBlock.search_loop _ _ _ _ _) as [[id|[s t]]| | |]; try done; run_bind.
  { destruct Hl as [i Hi]. eauto. }
  destruct Hl as [(Hst & Ht & Hs & Ht1) Hd].
  destruct (lookup_lt_is_Some_2 index s) as [[ks ids] Hks]; [lia|].
  destruct (lookup_lt_is_Some_2 index t) as [[kt idt] Hkt]; [lia|].
  rewrite (index_block_key s _ Hks). run_bind. simpl (_.1).
  assert (ks <=k key) as Hle.
  { destruct Hs as [->|(e & He & Hlt)]; simplify_eq; [done|]. apply kle_lteq. by left. }
  rewrite assert_Ok by (by apply key_leb_le).
  rewrite (index_block_key t _ Hkt). run_bind. simpl (_.1).
  destruct (key_leb kt key) eqn:Ec.
  - apply key_leb_le in Ec. rewrite (index_block_id t _ Hkt). run_bind.
    exists t, idt. split; [done|]. exists kt. split_and!; [done|done|].
    intros j e Hj He. destruct Ht1 as [Ht1|(e' & He' & Hlt)].
    + apply lookup_lt_Some in He. lia.
    + simplify_eq. by apply klt_nle in Hlt.
  - apply key_leb_gt in Ec. rewrite (index_block_id s _ Hks). run_bind.
    exists s, ids. split; [done|]. exists ks. split_and!; [done|done|].
    intros j e Hj He. assert (t = s ∨ t = S s) as [->| ->] by lia.
    + simplify_eq. by apply klt_nle in Ec.
    + destruct (decide (j = S s)) as [->|]; [by simplify_eq|].
      apply (klt_trans _ kt); [done|].
      by apply (keys_sorted_lookup_lt index (S s) j (kt, idt) e); [|lia| |].
Qed.

Lemma index_binary_search_outside key :
  key <k min_key ∨ max_key <k key → IndexBlock.binary_search b key = Ok None.
Proof.
  intros Hout. unfold IndexBlock.binary_search. rewrite index_get_min, index_get_max. run_bind.
  destruct Hout as [H|H]; apply key_ltb_lt in H; rewrite H; [done|]. by rewrite orb_true_r.
Qed.

Lemma index_binary_search_gap key k0 id0 :
  min_key <=k key → key <=k max_key → index !! 0 = Some (k0, id0) → key <k k0 →
  IndexBlock.binary_search b key = Panic "key >= self.get_block_key(start)".
Proof.
  intros Hmin Hmax H0 Hk0. unfold IndexBlock.binary_search.
  rewrite index_get_min, index_get_max. run_bind.
  rewrite (proj2 (key_ltb_ge _ _) Hmin), (proj2 (key_ltb_ge _ _) Hmax). cbn [orb].
  rewrite index_header_ok. run_bind. cbn [IndexBlockHeader.num_data_blocks header_of].
  rewrite Nat2N.id. unfold usize_sub. pose proof index_length_pos.
  rewrite (proj2 (Nat.leb_le _ _)) by lia. run_bind.
  assert (∀ i e, index !! i = Some e → key <k e.1) as Hall.
  { intros i e Hi. destruct i as [|i]; [by simplify_eq|].
    apply (klt_trans _ k0); [done|].
    by apply (keys_sorted_lookup_lt index 0 (S i) (k0, id0) e); [|lia| |]. }
  pose proof (index_search_start key) as Hl.
  destruct (IndexBlock.search_loop _ _ _ _ _) as [[id|[s t]]| | |]; try done; run_bind.
  { destruct Hl as (i & k & Hi & Hle & _). apply Hall in Hi. by apply klt_nle in Hi. }
  destruct Hl as [(Hst & Ht & Hs & Ht1) Hd].
  destruct (lookup_lt_is_Some_2 index s) as [[ks ids] Hks]; [lia|].
  rewrite (index_block_key s _ Hks). run_bind. simpl (_.1).
  by rewrite (proj2 (key_leb_gt ks key) (Hall _ _ Hks)).
Qed.

End index.

(** An index block is stored and loaded without loss: writing it to disk and
    loading it gives a block from which the key range, the size, and for every
    position the first key and the identifier of the data block are read back. *)
Theorem index_block_store_load `{CompressionLaws} d id index size min_key max_key :
  index_fits index size min_key max_key →
  ∃ b d', IndexBlock.new d id index size min_key max_key = Ok (b, d') ∧
    IndexBlock.load d' id = Ok b ∧
    IndexBlock.get_min b = Ok min_key ∧ IndexBlock.get_max b = Ok max_key ∧
    IndexBlock.get_size b = Ok (N.to_nat size) ∧
    IndexBlock.num_data_blocks b = Ok (length index) ∧
    (∀ i e, index !! i = Some e →
      IndexBlock.get_block_key b i = Ok e.1 ∧ IndexBlock.get_block_id b i = Ok e.2) ∧
    (∀ f, f ≠ IndexFile id → d' !! f = d !! f).
Proof.
  intros Hfit. destruct (index_build_ok _ _ _ _ Hfit) as (data & E & Hb & Hl).
  unfold IndexBlock.new. rewrite E. run_bind.
  destruct (compress_total data) as [c Hc]; [rewrite Hl; apply Hfit|].
  unfold disk.write. rewrite Hc. simpl. do 2 eexists. split; [done|]. split_and!.
  - unfold IndexBlock.load, disk.read, disk.read_uncompressed, disk.write_uncompressed.
    rewrite lookup_insert_eq. simpl. by rewrite drop_0, (decompress_compress _ _ Hc).
  - by eapply index_get_min.
  - by eapply index_get_max.
  - by eapply index_get_size.
  - by eapply index_num.
  - intros i e Hi. split; [by eapply index_block_key|by eapply index_block_id].
  - intros f Hf. by apply lookup_insert_ne.
Qed.

(** The search in the index block picks the only data block that can hold the
    key: outside the key range of the table it returns nothing; otherwise it
    returns the last block whose first key is not greater than the key, or
    panics when the key lies before the first key of the first block. *)
Theorem index_block_search b index size min_key max_key key k0 id0 :
  index_ok b index size min_key max_key → keys_sorted index →
  index !! 0 = Some (k0, id0) →
  if decide (min_key <=k key ∧ key <=k max_key) then
    if decide (k0 <=k key) then
      ∃ i id, IndexBlock.binary_search b key = Ok (Some id) ∧ index_pick index key i id
    else IndexBlock.binary_search b key = Panic "key >= self.get_block_key(start)"
  else IndexBlock.binary_search b key = Ok None.
Proof.
  intros Hb Hs H0. assert (index ≠ []) as Hne by (by intros ->).
  destruct (decide _) as [[Hmin Hmax]|Hout].
  - destruct (decide _) as [Hk|Hk]; [by eapply index_binary_search_found|].
    eapply index_binary_search_gap; eauto. by apply klt_nle.
  - eapply index_binary_search_outside; eauto.
    destruct (decide (min_key <=k key)) as [Hmin|Hmin]; [|left; by apply klt_nle].
    right. apply klt_nle. intros Hmax. by apply Hout.
Qed.

(** ** Witnesses *)

Definition sample_index : list (Key * N) := [([x61], 4%N); ([x63; x01], 9%N)].

Lemma sample_index_fits : index_fits sample_index 100 [x61] [x70].
Proof. split; [vm_compute; reflexivity|reflexivity|repeat constructor]. Qed.

Definition sample_index_block : IndexBlock.IndexBlock :=
  match IndexBlock.build sample_index 100 [x61] [x70] with
  | Ok data => IndexBlock.mk data
  | _ => IndexBlock.mk []
  end.

Lemma sample_index_ok : index_ok sample_index_block sample_index 100 [x61] [x70].
Proof.
  destruct (index_build_ok _ _ _ _ sample_index_fits) as (data & E & Hb & _).
  unfold sample_index_block. by rewrite E.
Qed.

Lemma index_block_store_load_witness :
  ∃ b d', @IndexBlock.new identity_compression ∅ 3 sample_index 100 [x61] [x70] = Ok (b, d') ∧
    @IndexBlock.load identity_compression d' 3 = Ok b ∧
    IndexBlock.get_min b = Ok [x61] ∧ IndexBlock.get_max b = Ok [x70] ∧
    IndexBlock.get_size b = Ok 100 ∧
    IndexBlock.num_data_blocks b = Ok 2 ∧
    (∀ i e, sample_index !! i = Some e →
      IndexBlock.get_block_key b i = Ok e.1 ∧ IndexBlock.get_block_id b i = Ok e.2) ∧
    (∀ f, f ≠ IndexFile 3 → d' !! f = (∅ : Disk) !! f).
Proof.
  apply (@index_block_store_load identity_compression identity_compression_laws ∅ 3
    sample_index 100 [x61] [x70] sample_index_fits).
Defined.

Lemma index_block_search_witness :
  if decide ([x61] <=k [x62] ∧ [x62] <=k [x70]) then
    if decide ([x61] <=k [x62]) then
      ∃ i id, IndexBlock.binary_search sample_index_block [x62] = Ok (Some id) ∧
        index_pick sample_index [x62] i id
    else IndexBlock.binary_search sample_index_block [x62] = Panic "key >= self.get_block_key(start)"
  else IndexBlock.binary_search sample_index_block [x62] = Ok None.
Proof.
  apply (index_block_search sample_index_block sample_index 100 [x61] [x70] [x62] [x61] 4);
    [exact sample_index_ok|repeat constructor|reflexivity].
Defined.
