(* ===== verification/SortedTable.v ===== *)
(** * Sorted tables (src/src/sorted_table)

    A sorted table is an index block and the data blocks it lists.  The file
    models building a table entry by entry ([TableBuilder]), loading it, the
    point lookup and the compaction flag ([SortedTable]).  The iterator over a
    table is in [TableIterator]. *)

From stdpp Require Import base list gmap strings sorting.
From Stdlib Require Import Strings.Byte NArith ZArith Lia.
From S2P Require Import Prelude WriteBatch Disk Manifest DataBlock DataBlocks IndexBlock.

Local Open Scope nat_scope.
Local Open Scope lsm_scope.

(** [x as i32] and the checked product of two [i32]. *)
Definition i32_wrap (z : Z) : Z := ((z + 2147483648) mod 4294967296 - 2147483648)%Z.

Definition i32_mul (a b : Z) : outcome Z :=
  if ((-2147483648 <=? a * b) && (a * b <? 2147483648))%Z then Ok (a * b)%Z
  else Panic "attempt to multiply with overflow".

Module SortedTable.

(** [struct SortedTable] (its [data_blocks] is part of the shared state). *)
Record SortedTable := mk {
  identifier : N;
  index : IndexBlock.IndexBlock;
  compaction_flag : bool;
  allowed_seeks : Z;
}.

(** The initial number of seeks: [((index.get_size() / 1024).max(1) as i32) * (count as i32)]. *)
Definition initial_seeks (params : Params.Params) (index : IndexBlock.IndexBlock) : outcome Z :=
  match params.(Params.seek_based_compaction) with
  | Some count =>
      size ← IndexBlock.get_size index;
      i32_mul (i32_wrap (Z.of_nat (Nat.max (size / N.to_nat 1024) 1))) (i32_wrap (Z.of_N count))
  | None => Ok 0%Z
  end.

(** [SortedTable::has_maximum_seeks] *)
Definition has_maximum_seeks (t : SortedTable) : bool := (t.(allowed_seeks) <=? 0)%Z.

Definition with_flag (t : SortedTable) (b : bool) : SortedTable :=
  {| identifier := t.(identifier); index := t.(index); compaction_flag := b;
     allowed_seeks := t.(allowed_seeks) |}.

(** [SortedTable::maybe_start_compaction]: compare-and-exchange of the flag. *)
Definition maybe_start_compaction (t : SortedTable) : bool * SortedTable :=
  if t.(compaction_flag) then (false, t) else (true, with_flag t true).

(** [SortedTable::abort_compaction] and [finish_fast_compaction] *)
Definition abort_compaction (t : SortedTable) : outcome SortedTable :=
  _ ← assert_that t.(compaction_flag) "Compaction flag was not set!";
  Ok (with_flag t false).

Definition finish_fast_compaction (t : SortedTable) : outcome SortedTable :=
  _ ← assert_that t.(compaction_flag) "Compaction flag was not set!";
  Ok (with_flag t false).

(** [SortedTable::get_id], [get_size], [get_min], [get_max] *)
Definition get_id (t : SortedTable) : N := t.(identifier).
Definition get_size (t : SortedTable) : outcome nat := IndexBlock.get_size t.(index).
Definition get_min (t : SortedTable) : outcome Key := IndexBlock.get_min t.(index).
Definition get_max (t : SortedTable) : outcome Key := IndexBlock.get_max t.(index).

(** [SortedTable::overlaps] *)
Definition overlaps (t : SortedTable) (min max : Key) : outcome bool :=
  tmax ← get_max t;
  tmin ← get_min t;
  Ok (key_leb min tmax && key_leb tmin max).

Section ops.
Context `{Bloom} `{Compression} `{LruCache DataBlock.DataBlock}.

(** [SortedTable::load] *)
Definition load (params : Params.Params) (id : N) : st Env SortedTable := λ e,
  index ← IndexBlock.load e.(env_disk) id;
  seeks ← initial_seeks params index;
  Ok ({| identifier := id; index := index; compaction_flag := false; allowed_seeks := seeks |}, e).

(** [self.allowed_seeks.fetch_sub(1)] wraps around. *)
Definition count_seek (t : SortedTable) : SortedTable :=
  {| identifier := t.(identifier); index := t.(index); compaction_flag := t.(compaction_flag);
     allowed_seeks := i32_wrap (t.(allowed_seeks) - 1) |}.

(** [SortedTable::get], with the table after the seek was counted. *)
Definition get (params : Params.Params) (t : SortedTable) (key : Key)
  : st Env (SortedTable * option DataBlock.DataEntry) :=
  let t := count_seek t in
  found ← lift (IndexBlock.binary_search t.(index) key);
  match found with
  | None => mret (t, None)
  | Some block_id =>
      block ← DataBlocks.get_block params block_id;
      r ← lift (DataBlock.get_by_key block key);
      mret (t, r)
  end.

End ops.

End SortedTable.

Module TableBuilder.

Section builder.
Context `{Bloom} `{Compression} `{LruCache DataBlock.DataBlock}.

(** [struct TableBuilder] *)
Record TableBuilder := mk {
  identifier : N;
  min_key : Key;
  max_key : Key;
  data_block : DataBlockBuilder.DataBlockBuilder;
  block_index : list (Key * N);
  last_key : Key;
  block_entry_count : nat;
  size : N;
  restart_count : N;
  index_key : option Key;
}.

(** [TableBuilder::new] *)
Definition new (identifier : N) (min_key max_key : Key) : outcome TableBuilder :=
  data_block ← DataBlockBuilder.new;
  Ok {| identifier := identifier; min_key := min_key; max_key := max_key;
        data_block := data_block; block_index := []; last_key := [];
        block_entry_count := 0; size := 0; restart_count := 0; index_key := None |}.

(** The loop that computes the key prefix length. *)
Fixpoint common_prefix (key last_key : Key) : nat :=
  match key, last_key with
  | a :: key', b :: last_key' => if decide (a = b) then S (common_prefix key' last_key') else 0
  | _, _ => 0
  end.

(** [TableBuilder::add_entry] *)
Definition add_entry (params : Params.Params) (tb : TableBuilder) (key : Key) (seq_number : N)
    (op_type : N) (value : Value) : st Env TableBuilder :=
  let index_key := match tb.(index_key) with None => Some key | k => k end in
  let '(prefix_len, restart_count) :=
    if (tb.(restart_count) =? params.(Params.block_restart_interval))%N then (0, 0%N)
    else (common_prefix key tb.(last_key), tb.(restart_count)) in
  let suffix := drop prefix_len key in
  let block_entry_count := tb.(block_entry_count) + 1 in
  restart_count ← lift (u32_add restart_count 1);
  let pkey := PrefixedKey_new prefix_len suffix in
  let last_key := key in
  data_block ← lift (DataBlockBuilder.add_entry params tb.(data_block) pkey key seq_number
                       op_type value);
  if params.(Params.max_key_block_size) <=? block_entry_count then
    size ← lift (u64_add tb.(size) (as_u64 (DataBlockBuilder.current_size data_block)));
    next_block ← lift DataBlockBuilder.new;
    fid ← DataBlocks.finish params data_block;
    id ← lift (expect fid "called `Option::unwrap()` on a `None` value");
    ikey ← lift (expect index_key "called `Option::unwrap()` on a `None` value");
    mret {| identifier := tb.(identifier); min_key := tb.(min_key); max_key := tb.(max_key);
            data_block := next_block; block_index := tb.(block_index) ++ [(ikey, id)];
            last_key := []; block_entry_count := 0; size := size; restart_count := 0;
            index_key := None |}
  else
    mret {| identifier := tb.(identifier); min_key := tb.(min_key); max_key := tb.(max_key);
            data_block := data_block; block_index := tb.(block_index);
            last_key := last_key; block_entry_count := block_entry_count; size := tb.(size);
            restart_count := restart_count; index_key := index_key |}.

(** [TableBuilder::add_value] and [TableBuilder::add_deletion] *)
Definition add_value (params : Params.Params) (tb : TableBuilder) (key : Key) (seq_number : N)
    (value : Value) : st Env TableBuilder :=
  add_entry params tb key seq_number WriteOp.PUT_OP value.

Definition add_deletion (params : Params.Params) (tb : TableBuilder) (key : Key)
    (seq_number : N) : st Env TableBuilder :=
  add_entry params tb key seq_number WriteOp.DELETE_OP [].

(** [IndexBlock::new] on the shared state. *)
Definition new_index (id : N) (index : list (Key * N)) (size : N) (min_key max_key : Key)
  : st Env IndexBlock.IndexBlock := λ e,
  '(b, d) ← IndexBlock.new e.(env_disk) id index size min_key max_key;
  Ok (b, {| env_disk := d; env_caches := e.(env_caches); env_manifest := e.(env_manifest) |}).

(** [TableBuilder::finish] *)
Definition finish (params : Params.Params) (tb : TableBuilder) : st Env SortedTable.SortedTable :=
  let block_size := DataBlockBuilder.current_size tb.(data_block) in
  fid ← DataBlocks.finish params tb.(data_block);
  '(size, block_index) ←
    match fid with
    | Some id =>
        size ← lift (u64_add tb.(size) (as_u64 block_size));
        ikey ← lift (expect tb.(index_key) "called `Option::unwrap()` on a `None` value");
        mret (size, tb.(block_index) ++ [(ikey, id)])
    | None => mret (tb.(size), tb.(block_index))
    end;
  index ← new_index tb.(identifier) block_index size tb.(min_key) tb.(max_key);
  allowed_seeks ← lift (SortedTable.initial_seeks params index);
  mret {| SortedTable.index := index; SortedTable.allowed_seeks := allowed_seeks;
          SortedTable.identifier := tb.(identifier); SortedTable.compaction_flag := false |}.

End builder.

End TableBuilder.

(** ** Specification *)

(** An entry of a table. *)
Record Entry := mkEntry { en_key : Key; en_seq : N; en_op : N; en_value : Value }.

Definition be_entry (e : BEntry) : Entry :=
  mkEntry e.(be_key) e.(be_seq) e.(be_type) e.(be_value).

(** The data blocks of a table: identifiers and entries. *)
Abbreviation Blocks := (list (N * list BEntry)).

(** The entries of all blocks, in order. *)
Definition flat (bs : Blocks) : list BEntry := bs ≫= snd.

(** The first key of a block. *)
Definition first_key (es : list BEntry) : Key :=
  match es with e :: _ => e.(be_key) | [] => [] end.

Definition index_of (bs : Blocks) : list (Key * N) := (λ b, (first_key b.2, b.1)) <$> bs.

(** The table [t] holds the blocks [bs], which are on disk, in the key range
    from its first to its last key. *)
Record table_ok `{Bloom} `{Compression} (params : Params.Params) (interval : nat) (d : Disk)
    (t : SortedTable.SortedTable) (bs : Blocks) : Prop := {
  to_index : ∃ size min max, index_ok t.(SortedTable.index) (index_of bs) size min max ∧
    (∀ e, head (flat bs) = Some e → min = e.(be_key)) ∧
    (∀ e, last (flat bs) = Some e → max = e.(be_key));
  to_blocks : Forall (λ b : N * list BEntry, block_on_disk params interval d b.1 b.2) bs;
  to_sorted : keys_increasing (flat bs);
  to_nonempty : bs ≠ [];
}.

(** The reference [en] reads back the entry [e]. *)
Definition en_type (e : Entry) : DataEntryType :=
  if (e.(en_op) =? WriteOp.PUT_OP)%N then TPut else TDelete.

Definition entry_reads `{Bloom} (en : DataBlock.DataEntry) (e : Entry) : Prop :=
  DataBlock.get_sequence_number en = Ok e.(en_seq) ∧
  DataBlock.get_type en = Ok (en_type e) ∧
  DataBlock.get_value en =
    Ok (match en_type e with TPut => Some e.(en_value) | TDelete => None end).

Lemma entry_at_reads `{Bloom} interval b es i e :
  block_ok interval b es → es !! i = Some e → entry_reads (entry_at b es i) (be_entry e).
Proof.
  intros Hb Hi. split_and!; [by eapply get_sequence_number_at|by eapply get_type_at
    |by eapply get_value_at].
Qed.

(** ** Keys of the blocks *)

Lemma flat_app bs1 bs2 : flat (bs1 ++ bs2) = flat bs1 ++ flat bs2.
Proof. apply bind_app. Qed.

Lemma flat_split bs i b : bs !! i = Some b → flat bs = flat (take i bs) ++ b.2 ++ flat (drop (S i) bs).
Proof.
  intros Hi. rewrite <-(take_drop_middle bs i b Hi) at 1. rewrite flat_app. done.
Qed.

Lemma elem_of_flat bs e : e ∈ flat bs ↔ ∃ b, b ∈ bs ∧ e ∈ b.2.
Proof.
  unfold flat. rewrite list_elem_of_bind. split; intros (b & ? & ?); exists b; done.
Qed.

Lemma keys_increasing_app es1 es2 :
  keys_increasing (es1 ++ es2) ↔
  (∀ e1 e2, e1 ∈ es1 → e2 ∈ es2 → e1.(be_key) <k e2.(be_key)) ∧
  keys_increasing es1 ∧ keys_increasing es2.
Proof.
  unfold keys_increasing. rewrite fmap_app, StronglySorted_app. split.
  - intros (Ha & ? & ?). split_and!; [|done|done]. intros e1 e2 H1 H2.
    apply Ha; by apply list_elem_of_fmap_2.
  - intros (Ha & ? & ?). split_and!; [|done|done].
    intros k1 k2 (e1 & -> & H1)%list_elem_of_fmap (e2 & -> & H2)%list_elem_of_fmap. auto.
Qed.

Lemma first_key_le es e :
  keys_increasing es → e ∈ es → first_key es <=k e.(be_key).
Proof.
  destruct es as [|e0 es]; intros Hs Hin; [by apply not_elem_of_nil in Hin|]. simpl.
  apply elem_of_cons in Hin as [->|Hin]; [apply kle_refl|]. apply kle_lteq. left.
  change (e0 :: es) with ([e0] ++ es) in Hs. apply keys_increasing_app in Hs as (Ha & _).
  apply Ha; [set_solver|done].
Qed.

Lemma blocks_lt bs i j bi bj ei ej :
  keys_increasing (flat bs) → i < j → bs !! i = Some bi → bs !! j = Some bj →
  ei ∈ bi.2 → ej ∈ bj.2 → ei.(be_key) <k ej.(be_key).
Proof.
  intros Hs Hij Hi Hj Hei Hej. rewrite (flat_split bs i bi Hi) in Hs.
  rewrite app_assoc in Hs. apply keys_increasing_app in Hs as (Ha & _). apply Ha.
  - apply elem_of_app. by right.
  - apply elem_of_flat. exists bj. split; [|done]. apply (list_elem_of_lookup_2 _ (j - S i)).
    rewrite lookup_drop. by replace (S i + (j - S i)) with j by lia.
Qed.

Lemma block_increasing bs i b : keys_increasing (flat bs) → bs !! i = Some b → keys_increasing b.2.
Proof.
  intros Hs Hi. rewrite (flat_split bs i b Hi) in Hs.
  apply keys_increasing_app in Hs as (_ & _ & Hs). by apply keys_increasing_app in Hs as (_ & ? & _).
Qed.

Lemma first_key_elem es : es ≠ [] → ∃ e, e ∈ es ∧ first_key es = e.(be_key).
Proof. destruct es as [|e es]; [done|]. intros _. exists e. split; [set_solver|done]. Qed.

Lemma index_of_lookup bs i : index_of bs !! i = (λ b, (first_key b.2, b.1)) <$> bs !! i.
Proof. apply list_lookup_fmap. Qed.

Lemma index_of_sorted bs :
  keys_increasing (flat bs) → Forall (λ b : N * list BEntry, b.2 ≠ []) bs →
  keys_sorted (index_of bs).
Proof.
  intros Hs Hne. induction bs as [|b bs IH]; [apply keys_sorted_nil|].
  apply Forall_cons in Hne as [Hb Hne]. change (flat (b :: bs)) with (b.2 ++ flat bs) in Hs.
  apply keys_increasing_app in Hs as (Ha & _ & Hs).
  apply keys_sorted_cons. split; [|by apply IH].
  intros y (b' & -> & Hb')%list_elem_of_fmap. simpl.
  destruct (first_key_elem b.2 Hb) as (e1 & He1 & ->).
  rewrite Forall_forall in Hne. destruct (first_key_elem b'.2 (Hne b' Hb')) as (e2 & He2 & ->).
  apply Ha; [done|]. apply elem_of_flat. eauto.
Qed.

(** ** Lookup *)

Section lookup.
Context `{Bloom} `{Compression} `{LruLaws DataBlock.DataBlock}.
Context (params : Params.Params) (interval : nat).

Lemma table_blocks_nonempty d t bs :
  table_ok params interval d t bs → Forall (λ b : N * list BEntry, b.2 ≠ []) bs.
Proof.
  intros Ht. eapply Forall_impl; [apply (to_blocks _ _ _ _ _ Ht)|].
  intros b (blk & _ & Hb). apply Hb.
Qed.

Lemma flat_nonempty d t bs : table_ok params interval d t bs → flat bs ≠ [].
Proof.
  intros Ht. pose proof (table_blocks_nonempty d t bs Ht) as Hne. pose proof (to_nonempty _ _ _ _ _ Ht).
  destruct bs as [|b bs]; [done|]. apply Forall_cons in Hne as [Hb _].
  change (flat (b :: bs)) with (b.2 ++ flat bs). destruct b.2; [done|]. done.
Qed.

(** The range of the table bounds its keys. *)
Lemma table_range d t bs size min max e :
  table_ok params interval d t bs →
  (∀ e, head (flat bs) = Some e → min = e.(be_key)) →
  (∀ e, last (flat bs) = Some e → max = e.(be_key)) →
  index_ok t.(SortedTable.index) (index_of bs) size min max →
  e ∈ flat bs → min <=k e.(be_key) ∧ e.(be_key) <=k max.
Proof.
  intros Ht Hmin Hmax _ He. pose proof (to_sorted _ _ _ _ _ Ht) as Hs. split.
  - destruct (flat bs) as [|e0 l] eqn:E; [by apply not_elem_of_nil in He|].
    rewrite (Hmin e0) by done. by apply (first_key_le (e0 :: l)).
  - destruct (last (flat bs)) as [en|] eqn:E.
    2:{ apply last_None in E. rewrite E in He. by apply not_elem_of_nil in He. }
    rewrite (Hmax en) by done. apply last_Some in E as [l El]. rewrite El in *.
    apply elem_of_app in He as [He| ->%list_elem_of_singleton]; [|apply kle_refl].
    apply kle_lteq. left. apply keys_increasing_app in Hs as (Ha & _). apply Ha; [done|set_solver].
Qed.

(** A key that is in the table at all is in the block the index picks. *)
Lemma picked_block bs i id key e :
  keys_increasing (flat bs) → Forall (λ b : N * list BEntry, b.2 ≠ []) bs →
  index_pick (index_of bs) key i id → e ∈ flat bs → e.(be_key) = key →
  ∃ es, bs !! i = Some (id, es) ∧ e ∈ es.
Proof.
  intros Hs Hne (k & Hi & Hle & Hgt) (b & Hb & He)%elem_of_flat Hk.
  rewrite index_of_lookup in Hi. destruct (bs !! i) as [[id' es]|] eqn:Hbi; [|done].
  simpl in Hi. simplify_eq. apply list_elem_of_lookup in Hb as [j Hj].
  rewrite Forall_forall in Hne.
  destruct (Nat.lt_trichotomy i j) as [Hlt|[->|Hlt]].
  - pose proof (Hgt j _ Hlt ltac:(by rewrite index_of_lookup, Hj)) as Hc. simpl in Hc.
    apply klt_nle in Hc. destruct Hc. apply first_key_le; [|done]. by eapply block_increasing.
  - simplify_eq. eauto.
  - destruct (first_key_elem es) as (e' & He' & Ef).
    { apply (Hne (id, es)). by eapply list_elem_of_lookup_2. }
    pose proof (blocks_lt bs j i b (id, es) e e' Hs Hlt Hj Hbi He He') as Hc.
    apply klt_nle in Hc. destruct Hc. simpl in Hle. by rewrite <-Ef.
Qed.

(** The range of the table starts at the first key of its first block. *)
Lemma table_min d t bs b0 bs0 min :
  table_ok params interval d t bs → bs = b0 :: bs0 →
  (∀ e, head (flat bs) = Some e → min = e.(be_key)) → min = first_key b0.2.
Proof.
  intros Ht -> Hmin. pose proof (table_blocks_nonempty _ _ _ Ht) as Hne.
  apply Forall_cons in Hne as [Hb _].
  change (flat (b0 :: bs0)) with (b0.2 ++ flat bs0) in Hmin.
  destruct b0.2 as [|e es]; [done|]. by apply Hmin.
Qed.

(** What the index search does with a key inside the range. *)
Lemma table_search_inside d t bs size min max key :
  table_ok params interval d t bs →
  index_ok t.(SortedTable.index) (index_of bs) size min max →
  (∀ e, head (flat bs) = Some e → min = e.(be_key)) →
  min <=k key → key <=k max →
  ∃ i id es, IndexBlock.binary_search t.(SortedTable.index) key = Ok (Some id) ∧
    index_pick (index_of bs) key i id ∧ bs !! i = Some (id, es).
Proof.
  intros Ht Hix Hmin Hge Hle. pose proof (table_blocks_nonempty _ _ _ Ht) as Hne.
  pose proof (index_of_sorted bs (to_sorted _ _ _ _ _ Ht) Hne) as Hsi.
  destruct bs as [|b0 bs0] eqn:Ebs; [by destruct (to_nonempty _ _ _ _ _ Ht)|]. rewrite <-Ebs in *.
  assert (index_of bs !! 0 = Some (first_key b0.2, b0.1)) as Hi0 by (by rewrite Ebs).
  assert (index_of bs ≠ []) as Hin by (by intros E; rewrite E in Hi0).
  pose proof (table_min _ _ _ _ _ _ Ht Ebs Hmin) as Em.
  destruct (index_binary_search_found _ _ _ _ _ Hix Hsi Hin key _ _ Hge Hle Hi0)
    as (i & id & Hf & Hp); [by rewrite <-Em|].
  pose proof Hp as (k & Hi & _). rewrite index_of_lookup in Hi.
  destruct (bs !! i) as [[id' es]|] eqn:Hbi; [|done]. simpl in Hi. simplify_eq. eauto 10.
Qed.

Lemma table_get_ok e t bs key :
  cache_ok params e → table_ok params interval e.(env_disk) t bs →
  ∃ r e', SortedTable.get params t key e = Ok ((SortedTable.count_seek t, r), e') ∧
    reads params e e' ∧
    match r with
    | Some en => ∃ be, be ∈ flat bs ∧ be.(be_key) = key ∧ entry_reads en (be_entry be)
    | None => key ∉ be_key <$> flat bs
    end.
Proof.
  intros Hc Ht. destruct (to_index _ _ _ _ _ Ht) as (size & min & max & Hix & Hmin & Hmax).
  pose proof (table_blocks_nonempty _ _ _ Ht) as Hne. pose proof (to_sorted _ _ _ _ _ Ht) as Hs.
  unfold SortedTable.get. change (SortedTable.index (SortedTable.count_seek t)) with
    (SortedTable.index t).
  destruct (decide (min <=k key ∧ key <=k max)) as [[Hge Hle]|Hout].
  - destruct (table_search_inside _ _ _ _ _ _ key Ht Hix Hmin Hge Hle)
      as (i & id & es & Hf & Hp & Hbi).
    run_lift Hf. pose proof (Forall_lookup_1 _ _ _ _ (to_blocks _ _ _ _ _ Ht) Hbi) as Hd.
    destruct (get_block_ok params interval e id es Hc Hd) as (blk & e' & Hg & Hblk & Hr).
    run_st Hg. destruct (decide (key ∈ be_key <$> es)) as [Hin|Hnin].
    + apply list_elem_of_fmap in Hin as (be & -> & Hbe).
      apply list_elem_of_lookup in Hbe as [j Hj].
      run_lift (get_by_key_found interval blk es Hblk j be Hj).
      do 2 eexists. split; [done|]. split; [done|]. exists be.
      split_and!; [|done|by eapply entry_at_reads].
      apply elem_of_flat. exists (id, es). split; by eapply list_elem_of_lookup_2.
    + run_lift (get_by_key_missing interval blk es Hblk key Hnin).
      do 2 eexists. split; [done|]. split; [done|].
      intros (be & -> & Hbe)%list_elem_of_fmap. apply Hnin.
      destruct (picked_block bs i id _ be Hs Hne Hp Hbe ltac:(done)) as (es' & Hbi' & Hin').
      simplify_eq. by apply list_elem_of_fmap_2.
  - assert (key <k min ∨ max <k key) as Hout'.
    { destruct (decide (min <=k key)); [|left; by apply klt_nle]. right. apply klt_nle. naive_solver. }
    run_lift (index_binary_search_outside _ _ _ _ _ Hix key Hout').
    do 2 eexists. split; [done|]. split; [done|].
    intros (be & -> & Hbe)%list_elem_of_fmap.
    destruct (table_range _ _ _ _ _ _ be Ht Hmin Hmax Hix Hbe). naive_solver.
Qed.

End lookup.

(** ** Building a table *)

(** An upper bound of the bytes an entry takes in a data block and in the index. *)
Definition weight (e : Entry) : nat :=
  header_length + 64 + 2 * length e.(en_key) + length e.(en_value).

Definition total_weight (l : list Entry) : nat := sum_list_with weight l.

Lemma total_weight_app l1 l2 : total_weight (l1 ++ l2) = total_weight l1 + total_weight l2.
Proof. apply sum_list_with_app. Qed.

Definition be_weight (es : list BEntry) : nat := total_weight (be_entry <$> es).

Lemma be_weight_app es1 es2 : be_weight (es1 ++ es2) = be_weight es1 + be_weight es2.
Proof. unfold be_weight. by rewrite fmap_app, total_weight_app. Qed.

Lemma num_restarts_le_length interval n : 0 < interval → num_restarts interval n <= n.
Proof.
  intros HI. destruct n as [|n]; [unfold num_restarts; rewrite Nat.div_small; lia|].
  unfold num_restarts. apply Nat.lt_succ_r, Nat.Div0.div_lt_upper_bound. nia.
Qed.

Lemma entries_bytes_weight es : length (entries_bytes es) + 4 * length es + header_length * length es
  <= be_weight es.
Proof.
  induction es as [|e es IH]; [simpl; lia|]. change (e :: es) with ([e] ++ es).
  rewrite entries_bytes_app, be_weight_app, !length_app. simpl (length [e]).
  assert (length (entries_bytes [e]) + 4 + header_length <= be_weight [e]); [|lia].
  change (entries_bytes [e]) with (entry_bytes e ++ []).
  change (be_weight [e]) with (weight (be_entry e) + 0).
  rewrite app_nil_r, length_entry_bytes. unfold entry_header_length, weight. simpl. lia.
Qed.

Lemma block_bytes_weight interval es :
  0 < interval → es ≠ [] → block_bytes interval es <= be_weight es.
Proof.
  intros HI Hne. pose proof (entries_bytes_weight es).
  pose proof (num_restarts_le_length interval (length es) HI). unfold block_bytes.
  destruct es; [done|]. simpl length in *. lia.
Qed.

(** *** Key prefixes *)

Lemma common_prefix_le k l :
  TableBuilder.common_prefix k l <= length k ∧ TableBuilder.common_prefix k l <= length l ∧
  take (TableBuilder.common_prefix k l) l = take (TableBuilder.common_prefix k l) k.
Proof.
  revert l; induction k as [|a k IH]; intros [|b l]; simpl; try (split_and!; (lia || done)).
  destruct (decide (a = b)) as [->|]; [|simpl; split_and!; (lia || done)].
  destruct (IH l) as (H1 & H2 & H3). simpl. split_and!; [lia|lia|]. by rewrite H3.
Qed.

Lemma common_prefix_nil k : TableBuilder.common_prefix k [] = 0.
Proof. by destruct k. Qed.

(** The restart count after [n] entries of a block. *)
Definition restarts_after (interval n : nat) : nat :=
  match n with 0 => 0 | S n' => n' mod interval + 1 end.

Lemma restarts_after_full interval n :
  0 < interval → (restarts_after interval n = interval ↔ 0 < n ∧ n mod interval = 0).
Proof.
  intros HI. destruct n as [|n]; simpl; [lia|].
  pose proof (Nat.mod_upper_bound n interval ltac:(lia)).
  pose proof (Nat.div_mod_eq n interval) as Hd.
  remember (n / interval) as q eqn:Hq. remember (n mod interval) as r eqn:Hr. clear Hq Hr.
  split.
  - intros Hr'. split; [lia|]. replace (S n) with ((q + 1) * interval) by lia.
    apply Nat.Div0.mod_mul.
  - intros [_ Hm]. destruct (decide (r + 1 = interval)) as [|Hne]; [done|].
    rewrite <-(Nat.mod_unique (S n) interval q (r + 1)) in Hm; lia.
Qed.

Lemma restarts_after_S interval n :
  0 < interval → restarts_after interval n ≠ interval →
  restarts_after interval (S n) = restarts_after interval n + 1.
Proof.
  intros HI Hne. destruct n as [|n]; simpl in *; [by rewrite Nat.Div0.mod_0_l|]. f_equal.
  pose proof (Nat.mod_upper_bound n interval ltac:(lia)).
  pose proof (Nat.div_mod_eq n interval) as Hd.
  remember (n / interval) as q eqn:Hq. remember (n mod interval) as r eqn:Hr. clear Hq Hr.
  symmetry. apply (Nat.mod_unique (S n) interval q (r + 1)); lia.
Qed.

Lemma restarts_after_reset interval n :
  0 < interval → restarts_after interval n = interval → restarts_after interval (S n) = 1.
Proof.
  intros HI Hr. apply restarts_after_full in Hr as [_ Hm]; [|done]. simpl. by rewrite Hm.
Qed.

(** The metadata with another next block identifier. *)
Definition with_block_id (meta : DatabaseMetadata.DatabaseMetadata) (nb : N)
  : DatabaseMetadata.DatabaseMetadata :=
  DatabaseMetadata.mk meta.(DatabaseMetadata.next_table_id) meta.(DatabaseMetadata.num_levels)
    meta.(DatabaseMetadata.seq_number_offset) meta.(DatabaseMetadata.log_offset) nb.

Section build.
Context `{BloomLaws} `{CompressionLaws} `{LruLaws DataBlock.DataBlock}.
Context (params : Params.Params) (interval : nat).
Context (Hint : params.(Params.block_restart_interval) = N.of_nat interval) (HI : 0 < interval).
Context (HI32 : (N.of_nat interval < u32_bound)%N).
Context (meta : DatabaseMetadata.DatabaseMetadata) (ids : list (list N)).

(** The state of a builder: finished blocks [bs] and the entries [es] of the
    block under construction; [nb] is the next block identifier. *)
Record tb_ok (e : Env) (tb : TableBuilder.TableBuilder) (bs : Blocks) (es : list BEntry)
    (nb : N) : Prop := {
  tk_index : tb.(TableBuilder.block_index) = index_of bs;
  tk_builder : builder_ok interval tb.(TableBuilder.data_block) es;
  tk_count : tb.(TableBuilder.block_entry_count) = length es;
  tk_restart : tb.(TableBuilder.restart_count) = N.of_nat (restarts_after interval (length es));
  tk_last : tb.(TableBuilder.last_key) = default [] (be_key <$> last es);
  tk_first : tb.(TableBuilder.index_key) = be_key <$> head es;
  tk_size : (tb.(TableBuilder.size) <= N.of_nat (be_weight (flat bs)))%N;
  tk_blocks : Forall (λ b : N * list BEntry, block_on_disk params interval e.(env_disk) b.1 b.2) bs;
  tk_ids : Forall (λ b : N * list BEntry, (b.1 < nb)%N) bs;
  tk_sorted : keys_increasing (flat bs ++ es);
  tk_cache : cache_ok params e;
  tk_manifest : manifest_holds e.(env_manifest) (with_block_id meta nb) ids;
}.

(** What building changes on disk: block files from identifier [nb] on. *)
Definition new_blocks_only (nb : N) (d d' : Disk) : Prop :=
  ∀ f, (∀ id, (nb <= id)%N → f ≠ DataFile id) → d' !! f = d !! f.

Lemma new_blocks_only_refl nb d : new_blocks_only nb d d.
Proof. done. Qed.

Lemma new_blocks_only_trans nb nb' d1 d2 d3 :
  (nb <= nb')%N → new_blocks_only nb d1 d2 → new_blocks_only nb' d2 d3 → new_blocks_only nb d1 d3.
Proof. intros Hle H12 H23 f Hf. rewrite H23, H12; [done|done|]. intros id Hid. apply Hf. lia. Qed.

Lemma blocks_frame nb d d' bs :
  new_blocks_only nb d d' → Forall (λ b : N * list BEntry, (b.1 < nb)%N) bs →
  Forall (λ b : N * list BEntry, block_on_disk params interval d b.1 b.2) bs →
  Forall (λ b : N * list BEntry, block_on_disk params interval d' b.1 b.2) bs.
Proof.
  intros Hf Hids Hd. rewrite Forall_forall in *. intros b Hb.
  eapply block_on_disk_frame; [|by apply Hd]. apply Hf. intros id Hid Heq.
  injection Heq as Heq. specialize (Hids b Hb). simpl in Hids. lia.
Qed.

(** The entry the builder makes of the next key. *)
Definition next_prefix (tb : TableBuilder.TableBuilder) (key : Key) : nat :=
  if (tb.(TableBuilder.restart_count) =? params.(Params.block_restart_interval))%N then 0
  else TableBuilder.common_prefix key tb.(TableBuilder.last_key).

Lemma next_entry_ok e tb bs es nb en :
  tb_ok e tb bs es nb →
  (en.(en_op) = WriteOp.PUT_OP ∨ en.(en_op) = WriteOp.DELETE_OP) → (en.(en_seq) < u64_bound)%N →
  (N.of_nat (weight en) < u32_bound)%N →
  let be := mkBEntry en.(en_key) (next_prefix tb en.(en_key)) en.(en_seq) en.(en_op) en.(en_value) in
  entry_wf be ∧ (length es mod interval = 0 → be.(be_prefix) = 0) ∧
  (∀ p, last es = Some p → extends_key p.(be_key) be).
Proof.
  intros Htb Hop Hseq Hw. unfold weight in Hw. simpl. unfold next_prefix.
  rewrite (tk_restart _ _ _ _ _ Htb), (tk_last _ _ _ _ _ Htb), Hint. split_and!.
  - split; simpl; [|lia|lia|done|done]. destruct (_ =? _)%N; [lia|apply common_prefix_le].
  - intros Hm. destruct es as [|e0 es']; [by case_match; rewrite ?common_prefix_nil|].
    rewrite (proj2 (restarts_after_full _ _ HI)); [by rewrite N.eqb_refl|]. simpl. split; [lia|done].
  - intros p Hp. unfold extends_key. rewrite Hp. simpl.
    destruct (_ =? _)%N; [simpl; split; [lia|done]|]. by destruct (common_prefix_le (en_key en) (be_key p)) as (? & ? & ?).
Qed.

Lemma finish_block_step e tb bb bs es nb :
  builder_ok interval bb es → es ≠ [] → cache_ok params e →
  manifest_holds e.(env_manifest) (with_block_id meta nb) ids →
  Forall (λ b : N * list BEntry, block_on_disk params interval e.(env_disk) b.1 b.2) bs →
  Forall (λ b : N * list BEntry, (b.1 < nb)%N) bs →
  (N.of_nat (be_weight (flat bs ++ es)) < u32_bound)%N → (nb + 1 < u64_bound)%N →
  (tb.(TableBuilder.size) <= N.of_nat (be_weight (flat bs)))%N →
  ∃ e' size, DataBlocks.finish params bb e = Ok (Some nb, e') ∧
    u64_add tb.(TableBuilder.size) (as_u64 (DataBlockBuilder.current_size bb)) = Ok size ∧
    (size <= N.of_nat (be_weight (flat (bs ++ [(nb, es)]))))%N ∧
    cache_ok params e' ∧ manifest_holds e'.(env_manifest) (with_block_id meta (nb + 1)) ids ∧
    Forall (λ b : N * list BEntry, block_on_disk params interval e'.(env_disk) b.1 b.2) (bs ++ [(nb, es)]) ∧
    Forall (λ b : N * list BEntry, (b.1 < nb + 1)%N) (bs ++ [(nb, es)]) ∧
    new_blocks_only nb e.(env_disk) e'.(env_disk).
Proof.
  intros Hbb Hne Hc Hm Hd Hids Hw Hnb Hsize.
  rewrite be_weight_app in Hw. pose proof (block_bytes_weight interval es HI Hne) as Hbw.
  destruct (finish_ok params interval Hint HI e bb es _ ids Hc Hbb Hne ltac:(lia) Hm Hnb)
    as (e' & E & Hd' & Hfr & Hc' & Hm'). simpl in *.
  assert (new_blocks_only nb e.(env_disk) e'.(env_disk)) as Hnew
    by (intros f Hf; apply Hfr, Hf; lia).
  assert (DataBlockBuilder.current_size bb <= be_weight es) as Hcs.
  { unfold DataBlockBuilder.current_size. rewrite (bb_data _ _ _ Hbb).
    unfold block_bytes in Hbw. len. }
  exists e', (tb.(TableBuilder.size) + N.of_nat (DataBlockBuilder.current_size bb))%N.
  unfold u64_add. rewrite as_u64_small by (unfold u32_bound, u64_bound in *; lia).
  rewrite (proj2 (N.ltb_lt _ _)) by (unfold u32_bound, u64_bound in *; lia).
  split_and!; try done.
  - rewrite flat_app, be_weight_app. change (flat [(nb, es)]) with (es ++ []). rewrite app_nil_r. lia.
  - apply Forall_app. split; [by eapply blocks_frame|by repeat constructor].
  - apply Forall_app. split; [|repeat constructor; simpl; lia].
    eapply Forall_impl; [done|]. simpl. intros b. lia.
Qed.

Lemma add_entry_step e tb bs es nb en :
  tb_ok e tb bs es nb →
  (en.(en_op) = WriteOp.PUT_OP ∨ en.(en_op) = WriteOp.DELETE_OP) → (en.(en_seq) < u64_bound)%N →
  (∀ be, be ∈ flat bs ++ es → be.(be_key) <k en.(en_key)) →
  (N.of_nat (be_weight (flat bs ++ es) + weight en) < u32_bound)%N → (nb + 1 < u64_bound)%N →
  ∃ tb' e' bs' es' nb', TableBuilder.add_entry params tb en.(en_key) en.(en_seq) en.(en_op)
      en.(en_value) e = Ok (tb', e') ∧
    tb_ok e' tb' bs' es' nb' ∧ (nb <= nb' <= nb + 1)%N ∧
    be_entry <$> (flat bs' ++ es') = (be_entry <$> (flat bs ++ es)) ++ [en] ∧
    new_blocks_only nb e.(env_disk) e'.(env_disk) ∧
    tb'.(TableBuilder.identifier) = tb.(TableBuilder.identifier) ∧
    tb'.(TableBuilder.min_key) = tb.(TableBuilder.min_key) ∧
    tb'.(TableBuilder.max_key) = tb.(TableBuilder.max_key).
Proof.
  intros Htb Hop Hseq Hlt Hw Hnb.
  destruct (next_entry_ok e tb bs es nb en Htb Hop Hseq ltac:(lia)) as (Hwf & Hp0 & Hext).
  set (be := mkBEntry _ _ _ _ _) in *.
  assert (be_entry <$> [be] = [en]) as Hbe by (unfold be; by destruct en).
  assert (be_weight (es ++ [be]) = be_weight es + weight en) as Hwb.
  { rewrite be_weight_app. unfold be_weight at 2, total_weight. simpl.
    unfold weight. simpl. lia. }
  rewrite be_weight_app in Hw.
  pose proof (block_bytes_weight interval (es ++ [be]) HI ltac:(by destruct es)) as Hbw.
  destruct (add_entry_ok params interval Hint HI _ es be (tk_builder _ _ _ _ _ Htb) Hwf Hp0 Hext)
    as (bb' & Hadd & Hbb').
  { intros e' He'. apply Hlt. set_solver. }
  { lia. }
  unfold TableBuilder.add_entry.
  assert (∃ rc, (if (tb.(TableBuilder.restart_count) =? params.(Params.block_restart_interval))%N
      then (0, 0%N) else (TableBuilder.common_prefix en.(en_key) tb.(TableBuilder.last_key),
        tb.(TableBuilder.restart_count))) = (be.(be_prefix), rc) ∧
      u32_add rc 1 = Ok (N.of_nat (restarts_after interval (S (length es))))) as (rc & -> & Hrc).
  { unfold be. cbn [be_prefix]. unfold next_prefix. rewrite (tk_restart _ _ _ _ _ Htb), Hint.
    destruct (_ =? _)%N eqn:E; bool_to_prop; eexists; (split; [done|]); unfold u32_add.
    - apply Nat2N.inj in E. by rewrite (restarts_after_reset _ _ HI E).
    - assert (restarts_after interval (length es) ≠ interval) as Hne by congruence.
      rewrite (restarts_after_S _ _ HI Hne).
      assert (restarts_after interval (length es) < interval).
      { destruct (length es) as [|n]; simpl in *; [lia|].
        pose proof (Nat.mod_upper_bound n interval ltac:(lia)). lia. }
      rewrite (proj2 (N.ltb_lt _ _)) by lia. f_equal. lia. }
  run_lift Hrc. run_lift Hadd.
  rewrite (tk_first _ _ _ _ _ Htb), (tk_count _ _ _ _ _ Htb), (tk_index _ _ _ _ _ Htb).
  assert (match be_key <$> head es with None => Some en.(en_key) | k => k end
          = be_key <$> head (es ++ [be])) as -> by (by destruct es).
  assert (keys_increasing (flat bs ++ es ++ [be])) as Hsorted.
  { rewrite app_assoc. apply keys_increasing_snoc. split; [apply Htb|done]. }
  destruct (_ <=? _) eqn:Efull.
  - destruct (finish_block_step e tb bb' bs (es ++ [be]) nb Hbb')
      as (e' & size & Hfin & Hsz & Hsz' & Hc' & Hm' & Hd' & Hids' & Hnew);
      try apply Htb; [by destruct es|rewrite be_weight_app; lia|done|].
    run_lift Hsz. destruct (builder_new_ok params interval Hint HI) as (nbb & Hnbb & Hnok).
    run_lift Hnbb. run_st Hfin.
    destruct (head (es ++ [be])) as [e0|] eqn:Eh; [|by destruct es]. simpl.
    do 2 eexists. exists (bs ++ [(nb, es ++ [be])]), [], (nb + 1)%N. split; [done|].
    split; [|split_and!; try done; try lia].
    + split; simpl; try done.
      * unfold index_of. rewrite fmap_app. simpl. do 2 f_equal. f_equal.
        by destruct es; simpl in *; simplify_eq.
      * rewrite app_nil_r, flat_app. change (flat [(nb, es ++ [be])]) with ((es ++ [be]) ++ []).
        by rewrite app_nil_r.
    + rewrite app_nil_r, flat_app. change (flat [(nb, es ++ [be])]) with ((es ++ [be]) ++ []).
      by rewrite app_nil_r, !fmap_app, Hbe, <-app_assoc.
  - do 2 eexists. exists bs, (es ++ [be]), nb. split; [done|].
    split; [|split_and!; try done; try lia].
    + assert (length (es ++ [be]) = S (length es)) as Hlen by len.
      destruct Htb. split; rewrite ?Hlen, ?last_snoc; try done. simpl. lia.
    + by rewrite app_assoc, fmap_app, Hbe.
Qed.

(** *** A whole table *)

(** Adding entries one by one. *)
Fixpoint add_all (tb : TableBuilder.TableBuilder) (l : list Entry)
  : st Env TableBuilder.TableBuilder :=
  match l with
  | [] => mret tb
  | en :: l' =>
      tb ← TableBuilder.add_entry params tb en.(en_key) en.(en_seq) en.(en_op) en.(en_value);
      add_all tb l'
  end.

(** An entry the builder accepts. *)
Definition valid_entry (en : Entry) : Prop :=
  (en.(en_op) = WriteOp.PUT_OP ∨ en.(en_op) = WriteOp.DELETE_OP) ∧ (en.(en_seq) < u64_bound)%N.

(** Strictly increasing keys. *)
Definition entries_sorted (l : list Entry) : Prop := StronglySorted klt (en_key <$> l).

Lemma entries_sorted_be es : entries_sorted (be_entry <$> es) ↔ keys_increasing es.
Proof. unfold entries_sorted, keys_increasing. by rewrite <-list_fmap_compose. Qed.

Lemma add_all_step e tb bs es nb l :
  tb_ok e tb bs es nb → Forall valid_entry l →
  entries_sorted ((be_entry <$> (flat bs ++ es)) ++ l) →
  (N.of_nat (be_weight (flat bs ++ es) + total_weight l) < u32_bound)%N →
  (nb + N.of_nat (length l) < u64_bound)%N →
  ∃ tb' e' bs' es' nb', add_all tb l e = Ok (tb', e') ∧
    tb_ok e' tb' bs' es' nb' ∧ (nb <= nb' <= nb + N.of_nat (length l))%N ∧
    be_entry <$> (flat bs' ++ es') = (be_entry <$> (flat bs ++ es)) ++ l ∧
    new_blocks_only nb e.(env_disk) e'.(env_disk) ∧
    tb'.(TableBuilder.identifier) = tb.(TableBuilder.identifier) ∧
    tb'.(TableBuilder.min_key) = tb.(TableBuilder.min_key) ∧
    tb'.(TableBuilder.max_key) = tb.(TableBuilder.max_key).
Proof.
  revert e tb bs es nb; induction l as [|en l IH]; intros e tb bs es nb Htb Hv Hs Hw Hnb.
  { exists tb, e, bs, es, nb. rewrite app_nil_r. split_and!; try done; simpl; lia. }
  apply Forall_cons in Hv as [[Hop Hseq] Hv]. cbn [length] in *.
  change (total_weight (en :: l)) with (weight en + total_weight l) in Hw.
  destruct (add_entry_step e tb bs es nb en Htb Hop Hseq)
    as (tb1 & e1 & bs1 & es1 & nb1 & E1 & Htb1 & Hnb1 & Hfl1 & Hf1 & Hid1 & Hmin1 & Hmax1).
  { intros be Hbe. unfold entries_sorted in Hs. rewrite fmap_app in Hs.
    apply StronglySorted_app in Hs as (Ha & _). apply Ha; [|set_solver].
    rewrite <-list_fmap_compose. by apply (list_elem_of_fmap_2 (en_key ∘ be_entry)). }
  { lia. } { lia. }
  assert (be_weight (flat bs1 ++ es1) = be_weight (flat bs ++ es) + weight en) as Hw1.
  { unfold be_weight. rewrite Hfl1, total_weight_app. simpl. unfold total_weight. simpl. lia. }
  destruct (IH e1 tb1 bs1 es1 nb1 Htb1 Hv)
    as (tb2 & e2 & bs2 & es2 & nb2 & E2 & Htb2 & Hnb2 & Hfl2 & Hf2 & Hid2 & Hmin2 & Hmax2).
  { by rewrite Hfl1, <-app_assoc. } { lia. } { lia. }
  exists tb2, e2, bs2, es2, nb2. cbn [add_all]. run_st E1. rewrite E2.
  split_and!; try congruence; try lia.
  - by rewrite Hfl2, Hfl1, <-app_assoc.
  - eapply new_blocks_only_trans; [|done|done]. lia.
Qed.

Lemma tb_new_ok e id min max nb :
  cache_ok params e → manifest_holds e.(env_manifest) (with_block_id meta nb) ids →
  ∃ tb, TableBuilder.new id min max = Ok tb ∧ tb_ok e tb [] [] nb ∧
    tb.(TableBuilder.identifier) = id ∧ tb.(TableBuilder.min_key) = min ∧
    tb.(TableBuilder.max_key) = max.
Proof.
  intros Hc Hm. unfold TableBuilder.new.
  destruct (builder_new_ok params interval Hint HI) as (bb & -> & Hbb). run_bind.
  eexists; split; [done|]. split; [|done]. split; simpl; try done; try lia. constructor.
Qed.

Lemma cache_ok_frame d d' cs m m' :
  (∀ id, d' !! DataFile id = d !! DataFile id) →
  cache_ok params (mkEnv d cs m) → cache_ok params (mkEnv d' cs m').
Proof.
  intros Hd [Hl He]. split; [done|]. intros i c id b Hi Hv.
  destruct (He i c id b Hi Hv) as (Hs & b' & Hlb & Hsb). split; [done|]. exists b'.
  split; [|done]. simpl in *. by rewrite (load_block_frame _ d).
Qed.

Lemma index_bytes_weight bs min max :
  Forall (λ b : N * list BEntry, b.2 ≠ []) bs →
  index_bytes (index_of bs) min max <= 100 + length min + length max + be_weight (flat bs).
Proof.
  intros Hne. unfold index_bytes.
  assert (length (index_of bs ≫= index_entry_bytes) + 4 * length bs <= be_weight (flat bs)) as Hb.
  { clear min max. induction bs as [|[id es] bs IH]; [simpl; lia|].
    apply Forall_cons in Hne as [Hes Hne]. specialize (IH Hne). simpl in Hes.
    change (flat ((id, es) :: bs)) with (es ++ flat bs).
    change (index_of ((id, es) :: bs)) with ((first_key es, id) :: index_of bs).
    rewrite be_weight_app, bind_cons, length_app, length_index_entry_bytes. cbn [length fst].
    unfold index_entry_header_length.
    destruct es as [|e0 es]; [done|]. change (e0 :: es) with ([e0] ++ es).
    rewrite be_weight_app. change (be_weight [e0]) with (weight (be_entry e0) + 0).
    unfold weight. simpl. lia. }
  unfold index_of at 1. rewrite length_fmap. unfold pad_offset.
  pose proof (compute_padding_lt (index_header_length + length min + length max)).
  pose proof (compute_padding_lt (length bs)). unfold WORD_SIZE, index_header_length in *. lia.
Qed.

(** The seek counter of a table of up to 4 GiB does not overflow. *)
Definition seeks_ok : Prop :=
  match params.(Params.seek_based_compaction) with Some count => (count < 512)%N | None => True end.

Lemma initial_seeks_ok index idx size min max :
  seeks_ok → index_ok index idx size min max → (size < u32_bound)%N →
  ∃ z, SortedTable.initial_seeks params index = Ok z.
Proof.
  intros Hs Hix Hsz. unfold SortedTable.initial_seeks. unfold seeks_ok in Hs.
  destruct (Params.seek_based_compaction params) as [count|]; [|eauto].
  rewrite (index_get_size _ _ _ _ _ Hix). run_bind. unfold i32_mul, i32_wrap.
  change (N.to_nat 1024) with 1024. unfold u32_bound in Hsz.
  remember (Z.of_nat (Nat.max (N.to_nat size / 1024) 1)) as s eqn:Es.
  assert (0 <= s < 4194304)%Z by lia. clear Es.
  assert (0 <= Z.of_N count < 512)%Z as Hcz by lia. remember (Z.of_N count) as c eqn:Ec. clear Ec.
  rewrite !Z.mod_small by lia.
  assert (0 <= (s + 2147483648 - 2147483648) * (c + 2147483648 - 2147483648) < 2147483648)%Z by nia.
  rewrite (proj2 (Z.leb_le _ _)), (proj2 (Z.ltb_lt _ _)) by lia. eauto.
Qed.

(** What building a table leaves alone: everything but its index file and new
    block files. *)
Definition new_table_only (id nb : N) (d d' : Disk) : Prop :=
  ∀ f, f ≠ IndexFile id → (∀ b, (nb <= b)%N → f ≠ DataFile b) → d' !! f = d !! f.

(** The index is written and loaded back. *)
Lemma new_index_ok e id bs size min max :
  index_fits (index_of bs) size min max → cache_ok params e →
  ∃ index e', TableBuilder.new_index id (index_of bs) size min max e = Ok (index, e') ∧
    index_ok index (index_of bs) size min max ∧ cache_ok params e' ∧
    e'.(env_manifest) = e.(env_manifest) ∧
    (∀ f, f ≠ IndexFile id → e'.(env_disk) !! f = e.(env_disk) !! f) ∧
    IndexBlock.load e'.(env_disk) id = Ok index.
Proof.
  intros Hfit Hc. destruct (index_build_ok _ _ _ _ Hfit) as (data & E & Hix & Hl).
  unfold TableBuilder.new_index, IndexBlock.new. rewrite E. run_bind.
  destruct (disk_write_ok e.(env_disk) (IndexFile id) data) as (c & Hw & Hdc);
    [rewrite Hl; apply Hfit|].
  rewrite Hw. run_bind. do 2 eexists. split; [done|]. simpl. split_and!.
  - done.
  - destruct e as [d cs m]. eapply cache_ok_frame; [|exact Hc]. intros b.
    by apply lookup_insert_ne.
  - done.
  - intros f Hf. by apply lookup_insert_ne.
  - unfold IndexBlock.load, disk.read, disk.read_uncompressed. rewrite lookup_insert_eq. simpl.
    by rewrite drop_0, Hdc.
Qed.

(** The blocks become a table once the index is written. *)
Lemma finish_index_step e bs nb id size min max :
  seeks_ok → bs ≠ [] → cache_ok params e →
  Forall (λ b : N * list BEntry, block_on_disk params interval e.(env_disk) b.1 b.2) bs →
  Forall (λ b : N * list BEntry, (b.1 < nb)%N) bs → (nb <= u64_bound)%N →
  keys_increasing (flat bs) →
  (size <= N.of_nat (be_weight (flat bs)))%N →
  (N.of_nat (100 + length min + length max + be_weight (flat bs)) < u32_bound)%N →
  (∀ x, head (flat bs) = Some x → min = x.(be_key)) →
  (∀ x, last (flat bs) = Some x → max = x.(be_key)) →
  ∃ index seeks e', TableBuilder.new_index id (index_of bs) size min max e = Ok (index, e') ∧
    SortedTable.initial_seeks params index = Ok seeks ∧
    let t := SortedTable.mk id index false seeks in
    table_ok params interval e'.(env_disk) t bs ∧ cache_ok params e' ∧
    e'.(env_manifest) = e.(env_manifest) ∧
    (∀ f, f ≠ IndexFile id → e'.(env_disk) !! f = e.(env_disk) !! f) ∧
    SortedTable.load params id e' = Ok (t, e').
Proof.
  intros Hseek Hne Hc Hd Hids Hnb Hs Hsize Hw Hmin Hmax.
  assert (Forall (λ b : N * list BEntry, b.2 ≠ []) bs) as Hne'.
  { eapply Forall_impl; [exact Hd|]. intros b (blk & _ & Hb). apply Hb. }
  pose proof (index_bytes_weight bs min max Hne') as Hiw.
  assert (index_fits (index_of bs) size min max) as Hfit.
  { split; [lia|unfold u32_bound, u64_bound in *; lia|].
    apply Forall_fmap. eapply Forall_impl; [exact Hids|]. simpl. intros b. lia. }
  destruct (new_index_ok e id bs size min max Hfit Hc) as (index & e' & E & Hix & Hc' & Hm & Hf & Hl).
  destruct (initial_seeks_ok index _ size min max Hseek Hix) as (z & Hz); [lia|].
  exists index, z, e'. split; [done|]. split; [done|]. intros t. split_and!; try done.
  - split; simpl; [exists size, min, max; by split_and!| |done|done].
    eapply Forall_impl; [exact Hd|]. intros b. apply block_on_disk_frame. by apply Hf.
  - unfold SortedTable.load. rewrite Hl. run_bind. rewrite Hz. done.
Qed.

(** Building the table of a list of entries. *)
Definition build_table (id : N) (min max : Key) (l : list Entry) : st Env SortedTable.SortedTable :=
  tb ← lift (TableBuilder.new id min max);
  tb ← add_all tb l;
  TableBuilder.finish params tb.

(** The entries fit into a table. *)
Record table_fits (l : list Entry) (nb : N) : Prop := {
  tf_valid : Forall valid_entry l;
  tf_sorted : entries_sorted l;
  tf_nonempty : l ≠ [];
  tf_weight : (N.of_nat (256 + 3 * total_weight l) < u32_bound)%N;
  tf_ids : (nb + N.of_nat (length l) + 1 < u64_bound)%N;
}.

Lemma key_weight l en : en ∈ l → length en.(en_key) <= total_weight l.
Proof.
  intros (i & Hi)%list_elem_of_lookup. rewrite <-(take_drop_middle _ _ _ Hi), total_weight_app.
  change (total_weight (en :: drop (S i) l)) with (weight en + total_weight (drop (S i) l)).
  unfold weight. lia.
Qed.

Lemma entries_range es l min max :
  be_entry <$> es = l → l ≠ [] →
  (∀ x, head l = Some x → min = x.(en_key)) → (∀ x, last l = Some x → max = x.(en_key)) →
  (∀ x, head es = Some x → min = x.(be_key)) ∧ (∀ x, last es = Some x → max = x.(be_key)) ∧
  length min <= total_weight l ∧ length max <= total_weight l.
Proof.
  intros <- Hne Hhd Htl. assert (es ≠ []) as Hes by (by intros ->).
  assert (∀ x, head es = Some x → min = x.(be_key)) as Hh.
  { intros x Hx. apply (Hhd (be_entry x)). destruct es; simpl in *; by simplify_eq. }
  assert (∀ x, last es = Some x → max = x.(be_key)) as Ht.
  { intros x Hx. apply (Htl (be_entry x)). by rewrite fmap_last, Hx. }
  split_and!; [done|done| |].
  - destruct es as [|x es]; [done|]. rewrite (Hh x) by done.
    apply (key_weight _ (be_entry x)). set_solver.
  - destruct (last es) as [x|] eqn:E; [|by apply last_None in E]. rewrite (Ht x) by done.
    apply (key_weight _ (be_entry x)). apply list_elem_of_fmap_2. by apply last_Some_elem_of.
Qed.

Lemma finish_step e tb bs es nb l id min max :
  seeks_ok → tb_ok e tb bs es nb → be_entry <$> (flat bs ++ es) = l → l ≠ [] →
  (N.of_nat (256 + 3 * total_weight l) < u32_bound)%N → (nb + 1 < u64_bound)%N →
  tb.(TableBuilder.identifier) = id → tb.(TableBuilder.min_key) = min →
  tb.(TableBuilder.max_key) = max →
  (∀ x, head l = Some x → min = x.(en_key)) → (∀ x, last l = Some x → max = x.(en_key)) →
  ∃ t e' bs' nb', TableBuilder.finish params tb e = Ok (t, e') ∧
    table_ok params interval e'.(env_disk) t bs' ∧ be_entry <$> flat bs' = l ∧
    t.(SortedTable.identifier) = id ∧ t.(SortedTable.compaction_flag) = false ∧
    cache_ok params e' ∧ manifest_holds e'.(env_manifest) (with_block_id meta nb') ids ∧
    (nb <= nb' <= nb + 1)%N ∧ Forall (λ b : N * list BEntry, (b.1 < nb')%N) bs' ∧
    new_table_only id nb e.(env_disk) e'.(env_disk) ∧
    SortedTable.load params id e' = Ok (t, e').
Proof.
  intros Hseek Htb Hl Hne Hw Hnb Hid Hmin Hmax Hhd Htl.
  assert (be_weight (flat bs ++ es) = total_weight l) as Hbw by (unfold be_weight; by rewrite Hl).
  destruct (entries_range (flat bs ++ es) l min max Hl Hne Hhd Htl) as (Hh & Ht & Hlm & Hlx).
  assert (∀ bs1, flat bs1 = flat bs ++ es → bs1 ≠ []) as Hnebs1.
  { intros bs1 Hbs1 ->. rewrite <-Hbs1 in Hl. by subst l. }
  unfold TableBuilder.finish. rewrite (tk_index _ _ _ _ _ Htb), Hid, Hmin, Hmax.
  assert (Forall (λ b : N * list BEntry, b.2 ≠ []) bs) as Hnebs.
  { eapply Forall_impl; [apply (tk_blocks _ _ _ _ _ Htb)|]. intros b (blk & _ & Hb). apply Hb. }
  destruct (decide (es = [])) as [->|Hes].
  - assert (DataBlocks.finish params tb.(TableBuilder.data_block) e = Ok (None, e)) as Hfin.
    { unfold DataBlocks.finish. by rewrite (bb_position _ _ _ (tk_builder _ _ _ _ _ Htb)). }
    run_st Hfin.
    rewrite app_nil_r in *. pose proof (Hnebs1 bs ltac:(done)) as Hbs.
    destruct (finish_index_step e bs nb id tb.(TableBuilder.size) min max Hseek Hbs)
      as (index & z & e' & E & Hz & Htab & Hc' & Hm' & Hf & Hload);
      try apply Htb; [lia| |rewrite Hbw; lia|done|done|].
    { pose proof (tk_sorted _ _ _ _ _ Htb) as Hs. by rewrite app_nil_r in Hs. }
    assert ((mret (tb.(TableBuilder.size), index_of bs) : st Env _) e
      = Ok ((tb.(TableBuilder.size), index_of bs), e)) as Emid by done.
    cbn beta iota. run_st Emid. run_st E. run_lift Hz.
    do 2 eexists. exists bs, nb. split_and!; try done; try lia.
    + rewrite Hm'. apply Htb.
    + apply Htb.
    + intros f Hf1 Hf2. by apply Hf.
  - destruct (finish_block_step e tb tb.(TableBuilder.data_block) bs es nb)
      as (e1 & size & Hfin & Hsz & Hsz' & Hc1 & Hm1 & Hd1 & Hids1 & Hnew1);
      try apply Htb; [done|rewrite Hbw; lia|done|].
    run_st Hfin. destruct (head es) as [x0|] eqn:Ehd; [|by destruct es].
    rewrite (tk_first _ _ _ _ _ Htb), Ehd. cbn [fmap option_fmap option_map].
    assert (flat (bs ++ [(nb, es)]) = flat bs ++ es) as Hflat.
    { rewrite flat_app. change (flat [(nb, es)]) with (es ++ []). by rewrite app_nil_r. }
    assert (index_of bs ++ [(be_key x0, nb)] = index_of (bs ++ [(nb, es)])) as Hidx.
    { unfold index_of. rewrite fmap_app. simpl. destruct es; simpl in Ehd; by simplify_eq. }
    pose proof (Hnebs1 (bs ++ [(nb, es)]) Hflat) as Hbs.
    destruct (finish_index_step e1 (bs ++ [(nb, es)]) (nb + 1) id size min max Hseek Hbs)
      as (index & z & e' & E & Hz & Htab & Hc' & Hm' & Hf & Hload);
      [done|done|done|lia|rewrite Hflat; apply Htb|done|rewrite Hflat, Hbw; lia
      |by rewrite Hflat|by rewrite Hflat|].
    assert ((s ← lift (u64_add tb.(TableBuilder.size)
        (as_u64 (DataBlockBuilder.current_size tb.(TableBuilder.data_block))));
      ikey ← lift (expect (Some x0.(be_key)) "called `Option::unwrap()` on a `None` value");
      mret (s, index_of bs ++ [(ikey, nb)])) e1
      = Ok ((size, index_of (bs ++ [(nb, es)])), e1)) as Emid.
    { run_lift Hsz. rewrite <-Hidx. done. }
    run_st Emid. run_st E. run_lift Hz.
    do 2 eexists. exists (bs ++ [(nb, es)]), (nb + 1)%N. split_and!; try done; try lia.
    + by rewrite Hflat.
    + by rewrite Hm'.
    + intros f Hf1 Hf2. rewrite Hf by done. by apply Hnew1.
Qed.

(** Building the table of a list of entries. *)
Lemma build_table_ok e id min max l nb :
  seeks_ok → cache_ok params e →
  manifest_holds e.(env_manifest) (with_block_id meta nb) ids → table_fits l nb →
  (∀ x, head l = Some x → min = x.(en_key)) → (∀ x, last l = Some x → max = x.(en_key)) →
  ∃ t e' bs nb', build_table id min max l e = Ok (t, e') ∧
    table_ok params interval e'.(env_disk) t bs ∧ be_entry <$> flat bs = l ∧
    t.(SortedTable.identifier) = id ∧ t.(SortedTable.compaction_flag) = false ∧
    cache_ok params e' ∧ manifest_holds e'.(env_manifest) (with_block_id meta nb') ids ∧
    (nb <= nb' <= nb + N.of_nat (length l) + 1)%N ∧ Forall (λ b : N * list BEntry, (b.1 < nb')%N) bs ∧
    new_table_only id nb e.(env_disk) e'.(env_disk) ∧
    SortedTable.load params id e' = Ok (t, e').
Proof.
  intros Hseek Hc Hm [Hv Hs Hne Hw Hids] Hhd Htl. unfold build_table.
  destruct (tb_new_ok e id min max nb Hc Hm) as (tb & Enew & Htb & Hid & Hmin & Hmax).
  run_lift Enew.
  destruct (add_all_step e tb [] [] nb l Htb Hv) as
    (tb1 & e1 & bs1 & es1 & nb1 & E1 & Htb1 & Hnb1 & Hfl1 & Hnew1 & Hid1 & Hmin1 & Hmax1);
    [done|change (be_weight (flat [] ++ [])) with 0; lia|lia|].
  run_st E1.
  destruct (finish_step e1 tb1 bs1 es1 nb1 l id min max Hseek Htb1 Hfl1 Hne Hw)
    as (t & e2 & bs2 & nb2 & E2 & Ht & Hfl2 & Hid2 & Hflag & Hc2 & Hm2 & Hnb2 & Hids2 & Hnew2 & Hload);
    [lia|congruence|congruence|congruence|done|done|].
  exists t, e2, bs2, nb2. split_and!; try done; try lia.
  intros f Hf1 Hf2. rewrite Hnew2; [|done|intros b Hb; apply Hf2; lia]. by apply Hnew1.
Qed.

End build.

(** C17: a sorted table is a correct map.  Building a table from entries with
    increasing keys (cut into blocks of [max_key_block_size] entries, keys
    compressed, index written last) succeeds and leaves all other files alone;
    loading it gives the same table; and [get] returns, for every key, exactly
    the entry that was added for it, or nothing, without a panic. *)
Theorem sorted_table_build_get `{BloomLaws} `{CompressionLaws} `{LruLaws DataBlock.DataBlock}
    params interval meta ids e id min max l nb :
  params.(Params.block_restart_interval) = N.of_nat interval → 0 < interval →
  (N.of_nat interval < u32_bound)%N → seeks_ok params → cache_ok params e →
  manifest_holds e.(env_manifest) (with_block_id meta nb) ids → table_fits l nb →
  (∀ x, head l = Some x → min = x.(en_key)) → (∀ x, last l = Some x → max = x.(en_key)) →
  ∃ t e1, build_table params id min max l e = Ok (t, e1) ∧
    SortedTable.load params id e1 = Ok (t, e1) ∧ cache_ok params e1 ∧
    new_table_only id nb e.(env_disk) e1.(env_disk) ∧
    ∀ key, ∃ r e2, SortedTable.get params t key e1 = Ok ((SortedTable.count_seek t, r), e2) ∧
      e2.(env_disk) = e1.(env_disk) ∧
      match r with
      | Some en => ∃ x, x ∈ l ∧ x.(en_key) = key ∧ entry_reads en x
      | None => key ∉ en_key <$> l
      end.
Proof.
  intros Hp HI HI32 Hseek Hc Hm Hfit Hhd Htl.
  destruct (build_table_ok params interval Hp HI HI32 meta ids e id min max l nb
    Hseek Hc Hm Hfit Hhd Htl)
    as (t & e1 & bs & nb' & E & Ht & Hfl & _ & _ & Hc1 & _ & _ & _ & Hnew & Hload).
  exists t, e1. split_and!; [done..|]. intros key.
  destruct (table_get_ok params interval e1 t bs key Hc1 Ht) as (r & e2 & Eg & (Hd & _) & Hr).
  exists r, e2. split_and!; [done|done|]. destruct r as [en|].
  - destruct Hr as (be & Hbe & Hk & Hrd). exists (be_entry be). split_and!; [|done|done].
    rewrite <-Hfl. by apply list_elem_of_fmap_2.
  - by rewrite <-Hfl, <-list_fmap_compose.
Qed.

(** ** Witnesses *)

Section witnesses.
Import Concrete.

Definition sample_table_entries : list Entry :=
  [ mkEntry [x61] 1 WriteOp.PUT_OP [x01]; mkEntry [x61; x62] 2 WriteOp.PUT_OP [x02];
    mkEntry [x61; x63] 3 WriteOp.DELETE_OP []; mkEntry [x62] 4 WriteOp.PUT_OP [x04];
    mkEntry [x63] 5 WriteOp.PUT_OP [] ].

Lemma sample_table_fits nb : (nb < 100)%N → table_fits sample_table_entries nb.
Proof.
  intros Hnb. split.
  - repeat constructor; simpl; (by left) || (by right) || done.
  - repeat constructor.
  - done.
  - vm_compute. reflexivity.
  - unfold u64_bound. simpl length. lia.
Qed.

Lemma sorted_table_build_get_witness :
  ∃ t e1, build_table sample_block_params 8 [x61] [x63] sample_table_entries empty_env = Ok (t, e1) ∧
    SortedTable.load sample_block_params 8 e1 = Ok (t, e1) ∧ cache_ok sample_block_params e1 ∧
    new_table_only 8 3 ∅ e1.(env_disk) ∧
    ∀ key, ∃ r e2,
      SortedTable.get sample_block_params t key e1 = Ok ((SortedTable.count_seek t, r), e2) ∧
      e2.(env_disk) = e1.(env_disk) ∧
      match r with
      | Some en => ∃ x, x ∈ sample_table_entries ∧ x.(en_key) = key ∧ entry_reads en x
      | None => key ∉ en_key <$> sample_table_entries
      end.
Proof.
  apply (sorted_table_build_get sample_block_params 2 sample_meta [[7%N]] empty_env 8 [x61] [x63]
    sample_table_entries 3).
  - reflexivity.
  - lia.
  - reflexivity.
  - exact I.
  - exact empty_env_ok.
  - exact sample_manifest_holds.
  - apply sample_table_fits. reflexivity.
  - intros x [= <-]. reflexivity.
  - intros x [= <-]. reflexivity.
Defined.

End witnesses.
