(* ===== verification/TableIterator.v ===== *)
(** * The iterator over a sorted table (src/src/sorted_table/iterator.rs)

    [TableIterator] walks the data blocks of a table, forward by byte offset and
    backward by entry index.  The theorem shows that it implements the iterator
    interface: it enumerates the entries of the table in key order, or in the
    reverse order. *)

From stdpp Require Import base list gmap strings sorting.
From Stdlib Require Import Strings.Byte NArith ZArith Lia.
From S2P Require Import Prelude WriteBatch Iterator Disk Manifest DataBlock DataBlocks IndexBlock SortedTable.

Local Open Scope nat_scope.
Local Open Scope lsm_scope.

Module TableIterator.

Section ops.
Context `{Bloom} `{Compression} `{LruCache DataBlock.DataBlock}.

(** [struct TableIterator] *)
Record TableIterator := mk {
  block_pos : Z;
  block_offset : N;
  key : Key;
  entry : DataBlock.DataEntry;
  table : SortedTable.SortedTable;
  reverse : bool;
}.

(** The block at position [pos] of the table:
    [get_block_id(pos)] and [get_block(&block_id)]. *)
Definition load_block_at (params : Params.Params) (t : SortedTable.SortedTable) (pos : nat)
  : st Env DataBlock.DataBlock :=
  block_id ← lift (IndexBlock.get_block_id t.(SortedTable.index) pos);
  DataBlocks.get_block params block_id.

(** [TableIterator::new] *)
Definition new (params : Params.Params) (t : SortedTable.SortedTable) (reverse : bool)
  : st Env TableIterator :=
  if reverse then
    num_blocks ← lift (IndexBlock.num_data_blocks t.(SortedTable.index));
    let num_blocks := Z.of_nat num_blocks in
    _ ← lift (assert_that (0 <? num_blocks)%Z "num_blocks > 0");
    first_block ← load_block_at params t (Z.to_nat (num_blocks - 1));
    let len := DataBlock.get_num_entries first_block in
    _ ← lift (assert_that (0 <? len)%N "len > 0");
    '(key, entry) ← lift (DataBlock.get_entry_at_index first_block (len - 1));
    '(block_pos, block_offset) ←
      (if (len =? 1)%N then
         let next_pos := (num_blocks - 2)%Z in
         if (0 <=? next_pos)%Z then
           next_block ← load_block_at params t (Z.to_nat next_pos);
           let len := DataBlock.get_num_entries next_block in
           _ ← lift (assert_that (0 <? len)%N "len > 0");
           mret (next_pos, (len - 1)%N)
         else mret (next_pos, 0%N)
       else mret ((num_blocks - 1)%Z, (len - 2)%N));
    mret {| block_pos := block_pos; block_offset := block_offset; key := key; entry := entry;
            table := t; reverse := reverse |}
  else
    first_block ← load_block_at params t 0;
    byte_len ← lift (DataBlock.byte_len first_block);
    '(key, entry) ← lift (DataBlock.get_entry_at_offset first_block 0 []);
    let next_offset := entry.(DataBlock.next_offset) in
    let '(block_pos, block_offset) :=
      if (byte_len =? next_offset)%N then (1%Z, 0%N) else (0%Z, next_offset) in
    mret {| block_pos := block_pos; block_offset := block_offset; key := key; entry := entry;
            table := t; reverse := reverse |}.

(** [TableIterator::at_end] *)
Definition at_end (it : TableIterator) : outcome bool :=
  if it.(reverse) then Ok (it.(block_pos) <? -1)%Z
  else n ← IndexBlock.num_data_blocks it.(table).(SortedTable.index);
       Ok (Z.of_nat n <? it.(block_pos))%Z.

(** [TableIterator::get_seq_number], [get_entry_type] and [get_entry] *)
Definition get_seq_number (it : TableIterator) : outcome N :=
  DataBlock.get_sequence_number it.(entry).

Definition get_entry_type (it : TableIterator) : outcome DataEntryType :=
  DataBlock.get_type it.(entry).

Definition get_entry (it : TableIterator) : outcome (option DataBlock.DataEntry) :=
  ty ← DataBlock.get_type it.(entry);
  Ok (match ty with TPut => Some it.(entry) | TDelete => None end).

(** The iterator with another position. *)
Definition set_pos (it : TableIterator) (p : Z) : TableIterator :=
  {| block_pos := p; block_offset := it.(block_offset); key := it.(key); entry := it.(entry);
     table := it.(table); reverse := it.(reverse) |}.

(** [TableIterator::step] *)
Definition step (params : Params.Params) (it : TableIterator) : st Env TableIterator :=
  if it.(reverse) then
    match (it.(block_pos) ?= -1)%Z with
    | Lt => lift (Panic "Cannot step(); already at end")
    | Eq => mret (set_pos it (it.(block_pos) - 1))
    | Gt =>
        block ← load_block_at params it.(table) (Z.to_nat it.(block_pos));
        '(key, entry) ← lift (DataBlock.get_entry_at_index block it.(block_offset));
        '(block_pos, block_offset) ←
          (if (it.(block_offset) =? 0)%N then
             let block_pos := (it.(block_pos) - 1)%Z in
             if (0 <=? block_pos)%Z then
               block ← load_block_at params it.(table) (Z.to_nat block_pos);
               n ← lift (u32_sub (DataBlock.get_num_entries block) 1);
               mret (block_pos, n)
             else mret (block_pos, 0%N)
           else mret (it.(block_pos), (it.(block_offset) - 1)%N));
        mret {| block_pos := block_pos; block_offset := block_offset; key := key;
                entry := entry; table := it.(table); reverse := it.(reverse) |}
    end
  else
    num_blocks ← lift (IndexBlock.num_data_blocks it.(table).(SortedTable.index));
    match (it.(block_pos) ?= Z.of_nat num_blocks)%Z with
    | Eq => mret (set_pos it (it.(block_pos) + 1))
    | Gt => lift (Panic "Cannot step(); already at end")
    | Lt =>
        block ← load_block_at params it.(table) (Z.to_nat it.(block_pos));
        byte_len ← lift (DataBlock.byte_len block);
        '(key, entry) ← lift (DataBlock.get_entry_at_offset block it.(block_offset) it.(key));
        let next_offset := entry.(DataBlock.next_offset) in
        let '(block_pos, block_offset) :=
          if (byte_len <=? next_offset)%N then ((it.(block_pos) + 1)%Z, 0%N)
          else (it.(block_pos), next_offset) in
        mret {| block_pos := block_pos; block_offset := block_offset; key := key;
                entry := entry; table := it.(table); reverse := it.(reverse) |}
    end.

End ops.

End TableIterator.

(** The implementation of the iterator interface. *)
Definition TableIterator_iterator `{Bloom} `{Compression} `{LruCache DataBlock.DataBlock}
    (params : Params.Params)
  : InternalIterator Env TableIterator.TableIterator DataBlock.DataEntry := {|
  it_at_end := TableIterator.at_end;
  it_step := TableIterator.step params;
  it_get_key := λ it, Ok it.(TableIterator.key);
  it_get_entry := TableIterator.get_entry;
  it_entry_value := DataBlock.get_value;
  it_get_seq_number := TableIterator.get_seq_number;
  it_get_entry_type := TableIterator.get_entry_type;
|}.

(** ** Specification *)

(** What the iterator shows of an entry: deletions have no entry. *)
Definition table_item (e : Entry) : Item := {|
  item_key := e.(en_key);
  item_seq := e.(en_seq);
  item_type := en_type e;
  item_shown := match en_type e with TPut => Some (Some e.(en_value)) | TDelete => None end;
|}.

Section iteration.
Context `{Bloom} `{Compression} `{LruLaws DataBlock.DataBlock}.
Context (params : Params.Params) (interval : nat).
Context (t : SortedTable.SortedTable) (bs : Blocks).

#[local] Instance table_iterator : InternalIterator Env _ _ := TableIterator_iterator params.

(** What the iterator relies on: the caches agree with the files, and the files
    hold the table. *)
Definition table_in (e : Env) : Prop :=
  cache_ok params e ∧ table_ok params interval e.(env_disk) t bs.

Lemma table_in_reads e e' : table_in e → reads params e e' → table_in e'.
Proof. intros [Hc Ht] (Hd & _ & Hc'). split; [auto|]. by rewrite Hd. Qed.

Lemma table_index_num e : table_in e → IndexBlock.num_data_blocks t.(SortedTable.index) = Ok (length bs).
Proof.
  intros [_ Ht]. destruct (to_index _ _ _ _ _ Ht) as (size & min & max & Hix & _).
  rewrite (index_num _ _ _ _ _ Hix). unfold index_of. by rewrite length_fmap.
Qed.

Lemma load_block_at_ok e p id es :
  table_in e → bs !! p = Some (id, es) →
  ∃ b e', TableIterator.load_block_at params t p e = Ok (b, e') ∧ block_ok interval b es ∧
    reads params e e'.
Proof.
  intros [Hc Ht] Hp. destruct (to_index _ _ _ _ _ Ht) as (size & min & max & Hix & _).
  unfold TableIterator.load_block_at.
  assert (IndexBlock.get_block_id t.(SortedTable.index) p = Ok id) as Hid.
  { apply (index_block_id _ _ _ _ _ Hix p (first_key es, id)). by rewrite index_of_lookup, Hp. }
  run_lift Hid. apply get_block_ok; [done|].
  apply (Forall_lookup_1 _ _ _ _ (to_blocks _ _ _ _ _ Ht) Hp).
Qed.

Lemma table_shows (it : TableIterator.TableIterator) be :
  it.(TableIterator.key) = be.(be_key) → entry_reads it.(TableIterator.entry) (be_entry be) →
  TableIterator.at_end it = Ok false →
  shows it (table_item (be_entry be)).
Proof.
  intros Hk (Hseq & Hty & Hv) Hend. unfold shows. simpl.
  unfold TableIterator.get_seq_number, TableIterator.get_entry_type, TableIterator.get_entry.
  rewrite Hk, Hseq, Hty, Hend. simpl. split_and!; try done.
  eexists; split; [done|]. destruct (en_type (be_entry be)); done.
Qed.

(** *** Forward *)

(** The iterator shows [be], and the next entry is number [i] of block [p]. *)
Record forward_pos (it : TableIterator.TableIterator) (be : BEntry) (p i : nat) : Prop := {
  fp_key : it.(TableIterator.key) = be.(be_key);
  fp_entry : entry_reads it.(TableIterator.entry) (be_entry be);
  fp_table : it.(TableIterator.table) = t;
  fp_reverse : it.(TableIterator.reverse) = false;
  fp_pos : it.(TableIterator.block_pos) = Z.of_nat p;
  fp_le : p <= length bs;
  fp_offset : ∀ id es, bs !! p = Some (id, es) →
    i < length es ∧ it.(TableIterator.block_offset) = N.of_nat (entry_offset es i) ∧
    (∀ e, es !! i = Some e → extends_key be.(be_key) e);
}.

(** What is left to show from there. *)
Definition rest_from (p i : nat) : list BEntry :=
  match bs !! p with
  | Some b => drop i b.2 ++ flat (drop (S p) bs)
  | None => []
  end.

Lemma forward_at_end e it be p i :
  table_in e → forward_pos it be p i → TableIterator.at_end it = Ok false.
Proof.
  intros Hin Hp. unfold TableIterator.at_end.
  rewrite (fp_reverse _ _ _ _ Hp), (fp_table _ _ _ _ Hp), (table_index_num e Hin),
    (fp_pos _ _ _ _ Hp).
  simpl. f_equal. apply Z.ltb_ge. pose proof (fp_le _ _ _ _ Hp). lia.
Qed.

(** The first entry of a block follows any key. *)
Lemma block_start_extends b es e prev :
  block_ok interval b es → es !! 0 = Some e → extends_key prev e.
Proof.
  intros Hb Hi. unfold extends_key.
  rewrite (proj1 (bo_chained _ _ _ Hb _ _ Hi)) by apply Nat.Div0.mod_0_l.
  rewrite !take_0. split; [lia|done].
Qed.

Lemma blocks_start e p id es x prev :
  table_in e → bs !! p = Some (id, es) → es !! 0 = Some x → extends_key prev x.
Proof.
  intros [_ Ht] Hp Hx.
  destruct (Forall_lookup_1 _ _ _ _ (to_blocks _ _ _ _ _ Ht) Hp) as (b & _ & Hb).
  by eapply block_start_extends.
Qed.

Lemma blocks_length_pos e p id es : table_in e → bs !! p = Some (id, es) → 0 < length es.
Proof.
  intros [_ Ht] Hp. pose proof (table_blocks_nonempty _ _ _ _ _ Ht) as Hne.
  pose proof (Forall_lookup_1 _ _ _ _ Hne Hp) as Hn. simpl in Hn.
  destruct es; [done|simpl; lia].
Qed.

(** The position after entry number [i] of block [p], as the code computes it. *)
Lemma forward_next e it b p id es i be :
  table_in e → block_ok interval b es → bs !! p = Some (id, es) → es !! i = Some be →
  it.(TableIterator.key) = be.(be_key) → it.(TableIterator.entry) = entry_at b es i →
  it.(TableIterator.table) = t → it.(TableIterator.reverse) = false →
  (it.(TableIterator.block_pos), it.(TableIterator.block_offset)) =
    (if decide (S i = length es) then (Z.of_nat (S p), 0%N)
     else (Z.of_nat p, N.of_nat (entry_offset es (S i)))) →
  ∃ p' i', forward_pos it be p' i' ∧ be :: rest_from p' i' = drop i es ++ flat (drop (S p) bs).
Proof.
  intros Hin Hb Hp Hi Hk He Ht Hr Hpos. pose proof (lookup_lt_Some _ _ _ Hp).
  pose proof (lookup_lt_Some _ _ _ Hi).
  rewrite (drop_S _ _ _ Hi).
  destruct (decide (S i = length es)) as [Hlast|Hmore]; injection Hpos as Hp1 Hp2.
  - exists (S p), 0. split.
    + split; try done; try lia; [rewrite He; by eapply entry_at_reads|].
      intros id' es' Hp'. split_and!; [by eapply blocks_length_pos|done|].
      intros x Hx. by eapply blocks_start.
    + rewrite drop_ge by lia. unfold rest_from. simpl.
      destruct (bs !! S p) as [b'|] eqn:Eb.
      * rewrite drop_0, (drop_S _ _ _ Eb). done.
      * apply lookup_ge_None in Eb. rewrite drop_ge by lia. done.
  - exists p, (S i). split.
    + split; try done; try lia; [rewrite He; by eapply entry_at_reads|].
      intros id' es' Hp'. rewrite Hp in Hp'. simplify_eq. split_and!; [lia|done|].
      intros x Hx. by apply (proj2 (bo_chained _ _ _ Hb _ _ Hx) i).
    + unfold rest_from. by rewrite Hp.
Qed.

Lemma offset_end_iff es i :
  i < length es →
  (length (entries_bytes es) <= entry_offset es (S i) ↔ S i = length es).
Proof.
  intros Hi. rewrite <-entry_offset_all. split.
  - intros Hle. destruct (decide (S i = length es)) as [|Hne]; [done|].
    pose proof (entry_offset_lt es (S i) (length es) ltac:(lia) ltac:(lia)). lia.
  - intros ->. done.
Qed.

Lemma forward_enumerates it be p i :
  (∃ e, table_in e) → forward_pos it be p i →
  enumerates table_in (reads params) it
    (table_item <$> (be_entry <$> (be :: rest_from p i))).
Proof.
  intros [e0 Hin0]. remember (rest_from p i) as rest eqn:Hrest.
  revert it be p i Hrest; induction rest as [|be' rest IH]; intros it be p i Hrest Hp;
    rewrite !fmap_cons; (split; [apply table_shows; [apply Hp|apply Hp|by eapply forward_at_end]|]);
    intros e Hin; unfold it_step; simpl; unfold TableIterator.step;
    rewrite (fp_reverse _ _ _ _ Hp), (fp_table _ _ _ _ Hp); run_lift (table_index_num e Hin);
    rewrite (fp_pos _ _ _ _ Hp).
  - assert (p = length bs) as ->.
    { destruct (bs !! p) as [[id es]|] eqn:Eb.
      - destruct (fp_offset _ _ _ _ Hp id es Eb) as (Hi & _). unfold rest_from in Hrest.
        rewrite Eb in Hrest. symmetry in Hrest. apply app_nil in Hrest as [Hd _].
        apply (f_equal length) in Hd. simpl in Hd. rewrite length_drop in Hd. simpl in Hd. lia.
      - apply lookup_ge_None in Eb. pose proof (fp_le _ _ _ _ Hp). lia. }
    rewrite Z.compare_refl. do 2 eexists. split; [done|]. split; [done|]. simpl.
    unfold TableIterator.at_end. simpl.
    rewrite (fp_reverse _ _ _ _ Hp), (fp_table _ _ _ _ Hp), (table_index_num e Hin).
    simpl. f_equal. apply Z.ltb_lt. lia.
  - destruct (bs !! p) as [[id es]|] eqn:Eb; [|unfold rest_from in Hrest; by rewrite Eb in Hrest].
    destruct (fp_offset _ _ _ _ Hp id es Eb) as (Hi & Hoff & Hext).
    pose proof (lookup_lt_Some _ _ _ Eb).
    rewrite (proj2 (Z.compare_lt_iff _ _)) by lia. rewrite Nat2Z.id.
    destruct (load_block_at_ok e p id es Hin Eb) as (b & e1 & El & Hb & Hreads). run_st El.
    run_lift (byte_len_at interval b es Hb).
    destruct (lookup_lt_is_Some_2 es i Hi) as [x Hx]. rewrite Hoff.
    rewrite (fp_key _ _ _ _ Hp).
    run_lift (get_entry_at_offset_at interval b es Hb i x be.(be_key) Hx (Hext x Hx)).
    cbn [DataBlock.next_offset entry_at].
    set (np := if (_ <=? _)%N then _ else _).
    assert (np = if decide (S i = length es) then (Z.of_nat (S p), 0%N)
                 else (Z.of_nat p, N.of_nat (entry_offset es (S i)))) as Hnp.
    { unfold np. pose proof (offset_end_iff es i Hi) as Hiff.
      destruct (decide (S i = length es)) as [Hd|Hd].
      - rewrite (proj2 (N.leb_le _ _)) by (apply Hiff in Hd; lia). f_equal. lia.
      - rewrite (proj2 (N.leb_gt _ _)); [done|]. destruct (decide (length (entries_bytes es) <= entry_offset es (S i))) as [Hc|Hc]; [apply Hiff in Hc; done|lia]. }
    clearbody np. destruct np as [bp bo]. do 2 eexists. split; [done|]. split; [done|].
    assert (be' = x ∧ rest = drop (S i) es ++ flat (drop (S p) bs)) as [-> ->].
    { unfold rest_from in Hrest. rewrite Eb in Hrest. cbn [snd] in Hrest.
      rewrite (drop_S _ _ _ Hx) in Hrest. simpl in Hrest. by simplify_eq. }
    set (it' := TableIterator.mk bp bo _ _ _ _).
    destruct (forward_next e1 it' b p id es i x) as (p' & i' & Hp' & Hrest'); try done.
    { by eapply table_in_reads. }
    rewrite (drop_S _ _ _ Hx) in Hrest'. injection Hrest' as Hrest'.
    apply (IH it' x p' i'); [done|]. exact Hp'.
Qed.

Lemma new_forward e :
  table_in e →
  ∃ it e', TableIterator.new params t false e = Ok (it, e') ∧ reads params e e' ∧
    enumerates table_in (reads params) it (table_item <$> (be_entry <$> flat bs)).
Proof.
  intros Hin. unfold TableIterator.new.
  destruct (bs !! 0) as [[id es]|] eqn:Eb.
  2:{ apply lookup_ge_None in Eb. destruct Hin as [_ Ht].
      pose proof (to_nonempty _ _ _ _ _ Ht). destruct bs; [done|simpl in Eb; lia]. }
  destruct (load_block_at_ok e 0 id es Hin Eb) as (b & e1 & El & Hb & Hreads). run_st El.
  run_lift (byte_len_at interval b es Hb).
  pose proof (blocks_length_pos e 0 id es Hin Eb) as Hi.
  destruct (lookup_lt_is_Some_2 es 0 Hi) as [x Hx].
  run_lift (get_entry_at_offset_at interval b es Hb 0 x [] Hx (block_start_extends b es x [] Hb Hx)).
  cbn [DataBlock.next_offset entry_at].
  set (np := if (_ =? _)%N then _ else _).
  assert (np = if decide (1 = length es) then (Z.of_nat 1, 0%N)
               else (Z.of_nat 0, N.of_nat (entry_offset es 1))) as Hnp.
  { unfold np. destruct (decide (1 = length es)) as [Hd|Hd].
    - rewrite (proj2 (N.eqb_eq _ _)); [done|]. rewrite Hd, entry_offset_all. done.
    - rewrite (proj2 (N.eqb_neq _ _)); [done|].
      pose proof (entry_offset_lt es 1 (length es) ltac:(lia) ltac:(lia)) as Hl.
      rewrite entry_offset_all in Hl. lia. }
  clearbody np. destruct np as [bp bo]. do 2 eexists. split; [done|]. split; [done|].
  set (it' := TableIterator.mk bp bo _ _ _ _).
  destruct (forward_next e it' b 0 id es 0 x) as (p' & i' & Hp' & Hrest'); try done.
  rewrite drop_0 in Hrest'. assert (flat bs = es ++ flat (drop 1 bs)) as ->.
  { pose proof (flat_split bs 0 _ Eb) as Hf. by rewrite take_0 in Hf. }
  rewrite <-Hrest'. apply forward_enumerates; eauto.
Qed.

(** *** Backward *)

(** The entries that are left when the next one is given by the position of the
    iterator. *)
Inductive back_rest (it : TableIterator.TableIterator) : list BEntry → Prop :=
| back_done : it.(TableIterator.block_pos) = (-1)%Z → back_rest it []
| back_more p id es i :
    it.(TableIterator.block_pos) = Z.of_nat p → bs !! p = Some (id, es) → i < length es →
    it.(TableIterator.block_offset) = N.of_nat i →
    back_rest it (reverse (take (S i) es) ++ reverse (flat (take p bs))).

Record backward_pos (it : TableIterator.TableIterator) (be : BEntry) (rest : list BEntry) : Prop := {
  kp_key : it.(TableIterator.key) = be.(be_key);
  kp_entry : entry_reads it.(TableIterator.entry) (be_entry be);
  kp_table : it.(TableIterator.table) = t;
  kp_reverse : it.(TableIterator.reverse) = true;
  kp_rest : back_rest it rest;
}.

(** The position before entry number [i] of block [p]. *)
Lemma back_next it p id es i :
  bs !! p = Some (id, es) → i < length es →
  (∀ id' es', bs !! (p - 1) = Some (id', es') → 0 < p → i = 0 → 0 < length es' ∧
    it.(TableIterator.block_pos) = Z.of_nat (p - 1) ∧
    it.(TableIterator.block_offset) = N.of_nat (length es' - 1)) →
  (p = 0 → i = 0 → it.(TableIterator.block_pos) = (-1)%Z) →
  (0 < i → it.(TableIterator.block_pos) = Z.of_nat p ∧
    it.(TableIterator.block_offset) = N.of_nat (i - 1)) →
  back_rest it (reverse (take i es) ++ reverse (flat (take p bs))).
Proof.
  intros Hp Hi Hprev Hend Hsame. destruct i as [|i].
  - destruct p as [|p]; [apply back_done; auto|].
    destruct (lookup_lt_is_Some_2 bs p) as [[id' es'] Hp']; [apply lookup_lt_Some in Hp; lia|].
    replace (S p - 1) with p in Hprev by lia.
    destruct (Hprev id' es' Hp') as (Hl & Hbp & Hbo); [lia|done|].
    rewrite (take_S_r _ _ _ Hp'), flat_app. change (flat [(id', es')]) with (es' ++ []).
    rewrite app_nil_r, reverse_app, take_0. simpl app.
    pose proof (back_more it p id' es' (length es' - 1) Hbp Hp') as Hm.
    rewrite take_ge in Hm by lia. apply Hm; [lia|done].
  - destruct Hsame as [Hbp Hbo]; [lia|].
    apply (back_more it p id es i); [done|done|lia|]. rewrite Hbo. f_equal. lia.
Qed.

Lemma backward_enumerates it be rest :
  (∃ e, table_in e) → backward_pos it be rest →
  enumerates table_in (reads params) it (table_item <$> (be_entry <$> (be :: rest))).
Proof.
  intros [e0 Hin0]. revert it be; induction rest as [|be' rest IH]; intros it be Hp;
    rewrite !fmap_cons;
    (split; [apply table_shows; [apply Hp|apply Hp|]|]);
    try (unfold TableIterator.at_end; rewrite (kp_reverse _ _ _ Hp); f_equal; apply Z.ltb_ge;
         destruct (kp_rest _ _ _ Hp); lia);
    intros e Hin; unfold it_step; simpl; unfold TableIterator.step;
    rewrite (kp_reverse _ _ _ Hp), (kp_table _ _ _ Hp).
  - assert (it.(TableIterator.block_pos) = -1)%Z as ->.
    { pose proof (kp_rest _ _ _ Hp) as Hr. remember [] as l eqn:El.
      destruct Hr as [|p id es i ? ? Hi]; [done|].
      apply app_nil in El as [El _]. apply (f_equal length) in El.
      rewrite length_reverse, length_take in El. cbn [length] in El. lia. }
    do 2 eexists. split; [done|]. split; [done|]. simpl. unfold TableIterator.at_end. simpl.
    by rewrite (kp_reverse _ _ _ Hp).
  - remember (be' :: rest) as l eqn:El. pose proof (kp_rest _ _ _ Hp) as Hr.
    destruct Hr as [|p id es i Hbp Eb Hi Hbo]; [done|].
    rewrite Hbp, Hbo, Nat2Z.id. rewrite (proj2 (Z.compare_gt_iff _ _)) by lia.
    destruct (load_block_at_ok e p id es Hin Eb) as (b & e1 & E1 & Hb & Hr1). run_st E1.
    destruct (lookup_lt_is_Some_2 es i Hi) as [x Hx].
    run_lift (get_entry_at_index_at interval b es Hb i x Hx).
    rewrite (take_S_r _ _ _ Hx), reverse_snoc in El. simpl in El. injection El as <- El.
    match goal with |- context [(if (N.of_nat i =? 0)%N then ?m1 else ?m2)] =>
      assert (∃ bp bo e2, (if (N.of_nat i =? 0)%N then m1 else m2) e1 = Ok ((bp, bo), e2) ∧
        reads params e1 e2 ∧
        ∀ k en, back_rest (TableIterator.mk bp bo k en t true)
          (reverse (take i es) ++ reverse (flat (take p bs)))) as (bp & bo & e2 & E2 & Hr2 & Hnext)
    end.
    { destruct (N.of_nat i =? 0)%N eqn:Ei; bool_to_prop.
      - assert (i = 0) as -> by lia. destruct (0 <=? _)%Z eqn:Ez.
        + apply Z.leb_le in Ez.
          replace (Z.to_nat (Z.of_nat p - 1)) with (p - 1) by lia.
          destruct (lookup_lt_is_Some_2 bs (p - 1)) as [[id' es'] Hp'];
            [apply lookup_lt_Some in Eb; lia|].
          destruct (load_block_at_ok e1 (p - 1) id' es') as (b' & e2 & E2 & Hb' & Hr2);
            [by eapply table_in_reads|done|].
          run_st E2. pose proof (blocks_length_pos e (p - 1) id' es' Hin Hp') as Hl.
          unfold DataBlock.get_num_entries. rewrite (bo_num _ _ _ Hb').
          assert (u32_sub (N.of_nat (length es')) 1 = Ok (N.of_nat (length es' - 1))) as Es.
          { unfold u32_sub. rewrite (proj2 (N.leb_le _ _)) by lia. f_equal. lia. }
          run_lift Es. do 3 eexists. split; [done|]. split; [done|]. intros k en.
          apply (back_next _ p id es 0); try done; simpl; try lia.
          intros ? ? Heq. rewrite Hp' in Heq. simplify_eq. lia.
        + apply Z.leb_gt in Ez. do 3 eexists. split; [done|]. split; [done|]. intros k en.
          apply (back_next _ p id es 0); try done; simpl; intros; lia.
      - do 3 eexists. split; [done|]. split; [done|]. intros k en.
        apply (back_next _ p id es i); try done; simpl; intros; lia. }
    run_st E2. do 2 eexists. split; [done|]. split; [by etrans|].
    apply IH. split; simpl; try done; [by eapply entry_at_reads|].
    rewrite <-El. apply Hnext.
Qed.

(** The position the constructor computes for the reverse direction. *)
Lemma new_backward e :
  table_in e →
  ∃ it e', TableIterator.new params t true e = Ok (it, e') ∧ reads params e e' ∧
    enumerates table_in (reads params) it (table_item <$> (be_entry <$> reverse (flat bs))).
Proof.
  intros Hin. unfold TableIterator.new. run_lift (table_index_num e Hin).
  assert (0 < length bs) as Hlen.
  { destruct Hin as [_ Ht]. pose proof (to_nonempty _ _ _ _ _ Ht). destruct bs; [done|simpl; lia]. }
  assert (assert_that (0 <? Z.of_nat (length bs))%Z "num_blocks > 0" = Ok ()) as Ea
    by (by rewrite (proj2 (Z.ltb_lt _ _)) by lia).
  run_lift Ea. replace (Z.to_nat (Z.of_nat (length bs) - 1)) with (length bs - 1) by lia.
  set (p := length bs - 1).
  destruct (lookup_lt_is_Some_2 bs p) as [[id es] Eb]; [lia|].
  destruct (load_block_at_ok e p id es Hin Eb) as (b & e1 & E1 & Hb & Hr1). run_st E1.
  pose proof (blocks_length_pos e p id es Hin Eb) as Hi.
  change (DataBlock.get_num_entries b) with (DataBlock.num_entries b). rewrite (bo_num _ _ _ Hb).
  cbv zeta.
  assert (assert_that (0 <? N.of_nat (length es))%N "len > 0" = Ok ()) as Eb'
    by (by rewrite (proj2 (N.ltb_lt _ _)) by lia).
  run_lift Eb'. replace (N.of_nat (length es) - 1)%N with (N.of_nat (length es - 1)) by lia.
  destruct (lookup_lt_is_Some_2 es (length es - 1)) as [x Hx]; [lia|].
  run_lift (get_entry_at_index_at interval b es Hb (length es - 1) x Hx).
  match goal with |- context [(if (N.of_nat (length es) =? 1)%N then ?m1 else ?m2)] =>
    assert (∃ bp bo e2, (if (N.of_nat (length es) =? 1)%N then m1 else m2) e1 = Ok ((bp, bo), e2) ∧
      reads params e1 e2 ∧
      ∀ k en, back_rest (TableIterator.mk bp bo k en t true)
        (reverse (take (length es - 1) es) ++ reverse (flat (take p bs))))
      as (bp & bo & e2 & E2 & Hr2 & Hnext)
  end.
  { destruct (_ =? 1)%N eqn:Ei; bool_to_prop.
    - assert (length es - 1 = 0) as -> by lia. destruct (0 <=? _)%Z eqn:Ez.
      + apply Z.leb_le in Ez. replace (Z.to_nat (Z.of_nat (length bs) - 2)) with (p - 1) by lia.
        destruct (lookup_lt_is_Some_2 bs (p - 1)) as [[id' es'] Hp']; [lia|].
        destruct (load_block_at_ok e1 (p - 1) id' es') as (b' & e2 & E2 & Hb' & Hr2);
          [by eapply table_in_reads|done|].
        run_st E2. pose proof (blocks_length_pos e (p - 1) id' es' Hin Hp') as Hl.
        unfold DataBlock.get_num_entries. rewrite (bo_num _ _ _ Hb').
        assert (assert_that (0 <? N.of_nat (length es'))%N "len > 0" = Ok ()) as Ec
          by (by rewrite (proj2 (N.ltb_lt _ _)) by lia).
        run_lift Ec. do 3 eexists. split; [done|]. split; [done|]. intros k en.
        apply (back_next _ p id es 0); try done; simpl; try lia.
        intros ? ? Heq. rewrite Hp' in Heq. simplify_eq. lia.
      + apply Z.leb_gt in Ez. do 3 eexists. split; [done|]. split; [done|]. intros k en.
        apply (back_next _ p id es 0); try done; simpl; intros; lia.
    - do 3 eexists. split; [done|]. split; [done|]. intros k en.
      apply (back_next _ p id es (length es - 1)); try done; simpl; intros; lia. }
  run_st E2. do 2 eexists. split; [done|]. split; [by etrans|].
  assert (reverse (flat bs) = x :: reverse (take (length es - 1) es) ++ reverse (flat (take p bs)))
    as ->.
  { rewrite (flat_split bs p _ Eb). rewrite (drop_ge bs) by lia.
    change (flat []) with (@nil BEntry). rewrite app_nil_r, reverse_app. cbn [snd].
    rewrite <-(take_ge es (S (length es - 1))) at 1 by lia.
    by rewrite (take_S_r _ _ _ Hx), reverse_snoc. }
  apply backward_enumerates; [eauto|].
  split; simpl; try done. by eapply entry_at_reads.
Qed.

End iteration.

(** C19: the table iterator implements the iterator interface: over a table whose
    blocks are on disk it is created without a panic, and stepping it shows
    every entry of the table exactly once, with its sequence number and type, in
    increasing key order, or in decreasing order when [reverse] is set, and then
    reports the end; puts come with their value, deletions without an entry. *)
Theorem table_iterator_enumerates `{Bloom} `{Compression} `{LruLaws DataBlock.DataBlock}
    params interval t bs rev e :
  table_in params interval t bs e →
  ∃ it e', TableIterator.new params t rev e = Ok (it, e') ∧ reads params e e' ∧
    enumerates (H := TableIterator_iterator params) (table_in params interval t bs) (reads params) it
      (table_item <$> (if rev then reverse (be_entry <$> flat bs) else be_entry <$> flat bs)).
Proof.
  intros Hin. destruct rev.
  - rewrite <-fmap_reverse. by apply new_backward.
  - by apply new_forward.
Qed.

(** ** Witnesses *)

Section witnesses.
Import Concrete.

(** The sample table, and the store after it was built. *)
Definition sample_table_env : SortedTable.SortedTable * Env :=
  match build_table sample_block_params 8 [x61] [x63] sample_table_entries empty_env with
  | Ok r => r
  | _ => (SortedTable.mk 0 (IndexBlock.mk []) false 0, empty_env)
  end.

Lemma sample_table_in :
  ∃ bs, table_in sample_block_params 2 sample_table_env.1 bs sample_table_env.2 ∧
    be_entry <$> flat bs = sample_table_entries.
Proof.
  destruct (build_table_ok sample_block_params 2 ltac:(done) ltac:(lia) ltac:(done) sample_meta
    [[7%N]] empty_env 8 [x61] [x63] sample_table_entries 3 I empty_env_ok sample_manifest_holds)
    as (t & e1 & bs & nb' & E & Ht & Hfl & _ & _ & Hc1 & _).
  - by apply sample_table_fits.
  - by intros x [= <-].
  - by intros x [= <-].
  - exists bs. unfold sample_table_env. rewrite E. cbn [fst snd].
    split; [split; [exact Hc1|exact Ht]|exact Hfl].
Qed.

Lemma table_iterator_enumerates_witness :
  ∃ bs it e', TableIterator.new sample_block_params sample_table_env.1 true sample_table_env.2
      = Ok (it, e') ∧ be_entry <$> flat bs = sample_table_entries ∧
    enumerates (H := TableIterator_iterator sample_block_params)
      (table_in sample_block_params 2 sample_table_env.1 bs) (reads sample_block_params) it
      (table_item <$> reverse (be_entry <$> flat bs)).
Proof.
  destruct sample_table_in as (bs & Hin & Hfl). exists bs.
  destruct (table_iterator_enumerates sample_block_params 2 sample_table_env.1 bs true
    sample_table_env.2 Hin) as (it & e' & E & _ & He).
  exists it, e'. split; [exact E|]. split; [exact Hfl|exact He].
Defined.

End witnesses.
