(* ===== verification/Iterate.v ===== *)
(** * Iteration over the database (src/src/iterate.rs)

    [DbIteratorInner] merges the iterators of the memtables and of the tables:
    it repeatedly picks the smallest key that was not returned yet (the largest
    in reverse), takes the entry with the highest sequence number, and skips
    deletions.  The merge is written against the iterator interface, and so are
    its theorems. *)

From stdpp Require Import base list gmap strings sorting.
From Stdlib Require Import Strings.Byte NArith ZArith Lia.
From S2P Require Import Prelude WriteBatch Iterator.

Local Open Scope nat_scope.
Local Open Scope lsm_scope.

Module DbIteratorInner.

Section merge.
Context {St I E : Type} `{!InternalIterator St I E}.

(** [struct DbIteratorInner] *)
Record DbIteratorInner := mk {
  last_key : option Key;
  iterators : list I;
  reverse : bool;
  min_key : option Key;
  max_key : option Key;
}.

(** [type NextKV] *)
Definition NextKV : Type := option (N * nat).

(** [while !iter.at_end() && cond(iter.get_key()) { iter.step().await }] *)
Fixpoint step_while (fuel : nat) (cond : Key → bool) (it : I) : st St I :=
  match fuel with
  | O => lift OutOfFuel
  | S fuel' =>
      e ← lift (it_at_end it);
      if (e : bool) then mret it else
      k ← lift (it_get_key it);
      if cond k then it ← it_step it; step_while fuel' cond it else mret it
  end.

(** The comparison with the best candidate so far. *)
Definition pick (self : DbIteratorInner) (pos : nat) (iter : I) (next_kv : NextKV)
    (better : comparison) : outcome (bool * NextKV) :=
  key ← it_get_key iter;
  seq_number ← it_get_seq_number iter;
  match next_kv with
  | None => Ok (true, Some (seq_number, pos))
  | Some (best_seq_number, best_pos) =>
      best_iter ← expect (self.(iterators) !! best_pos) "index out of bounds";
      best_key ← it_get_key best_iter;
      match key_cmp key best_key, better with
      | Eq, _ => if (best_seq_number <? seq_number)%N then Ok (true, Some (seq_number, pos))
                 else Ok (false, next_kv)
      | Lt, Lt | Gt, Gt => Ok (true, Some (seq_number, pos))
      | _, _ => Ok (false, next_kv)
      end
  end.

(** The iterator at [pos] replaced by its new state. *)
Definition set_iter (self : DbIteratorInner) (pos : nat) (iter : I) : DbIteratorInner :=
  {| iterators := <[pos := iter]> self.(iterators); last_key := self.(last_key);
     min_key := self.(min_key); max_key := self.(max_key); reverse := self.(reverse) |}.

(** [DbIteratorInner::parse_iter] *)
Definition parse_iter (fuel : nat) (self : DbIteratorInner) (pos : nat) (next_kv : NextKV)
  : st St (DbIteratorInner * (bool * NextKV)) :=
  iter ← lift (expect (self.(iterators) !! pos) "index out of bounds");
  if self.(reverse) then
    iter ← match self.(last_key) with
           | Some last_key => step_while fuel (λ k, key_leb last_key k) iter
           | None => mret iter
           end;
    '(iter, stop) ←
      match self.(max_key) with
      | Some max_key =>
          iter ← step_while fuel (λ k, key_ltb max_key k) iter;
          e ← lift (it_at_end iter);
          if (e : bool) then mret (iter, true) else
          k ← lift (it_get_key iter);
          mret (iter, key_ltb max_key k)
      | None => mret (iter, false)
      end;
    let self := set_iter self pos iter in
    if (stop : bool) then mret (self, (false, next_kv)) else
    e ← lift (it_at_end iter);
    if (e : bool) then mret (self, (false, next_kv)) else
    k ← lift (it_get_key iter);
    if match self.(min_key) with Some min_key => key_leb k min_key | None => false end
    then mret (self, (false, next_kv)) else
    r ← lift (pick self pos iter next_kv Gt);
    mret (self, r)
  else
    iter ← match self.(last_key) with
           | Some last_key => step_while fuel (λ k, key_leb k last_key) iter
           | None => mret iter
           end;
    '(iter, stop) ←
      match self.(min_key) with
      | Some min_key =>
          iter ← step_while fuel (λ k, key_ltb k min_key) iter;
          e ← lift (it_at_end iter);
          if (e : bool) then mret (iter, true) else
          k ← lift (it_get_key iter);
          mret (iter, key_ltb k min_key)
      | None => mret (iter, false)
      end;
    let self := set_iter self pos iter in
    if (stop : bool) then mret (self, (false, next_kv)) else
    e ← lift (it_at_end iter);
    if (e : bool) then mret (self, (false, next_kv)) else
    k ← lift (it_get_key iter);
    if match self.(max_key) with Some max_key => key_leb max_key k | None => false end
    then mret (self, (false, next_kv)) else
    r ← lift (pick self pos iter next_kv Lt);
    mret (self, r).

(** [for pos in 0..num_iterators]: the positions from [pos] on. *)
Fixpoint parse_iters (n : nat) (fuel : nat) (self : DbIteratorInner) (pos : nat)
    (next_kv : NextKV) : st St (DbIteratorInner * NextKV) :=
  match n with
  | O => mret (self, next_kv)
  | S n' =>
      '(self, (change, kv)) ← parse_iter fuel self pos next_kv;
      parse_iters n' fuel self (S pos) (if (change : bool) then kv else next_kv)
  end.

(** [DbIteratorInner::next]; [rounds] bounds the [while result.is_none()] loop. *)
Fixpoint next (rounds fuel : nat) (self : DbIteratorInner)
  : st St (DbIteratorInner * option (Key * E)) :=
  match rounds with
  | O => lift OutOfFuel
  | S rounds' =>
      '(self, next_kv) ← parse_iters (length self.(iterators)) fuel self 0 None;
      match next_kv with
      | Some (_, pos) =>
          iter ← lift (expect (self.(iterators) !! pos) "index out of bounds");
          res_key ← lift (it_get_key iter);
          let self := {| last_key := Some res_key; iterators := self.(iterators);
                         min_key := self.(min_key); max_key := self.(max_key);
                         reverse := self.(reverse) |} in
          entry ← lift (it_get_entry iter);
          match entry with
          | Some entry => mret (self, Some (res_key, entry))
          | None => next rounds' fuel self
          end
      | None => mret (self, None)
      end
  end.

(** [DbIterator]: the pending computation, if items may be left;
    [DbIterator::poll_next] runs it. *)
Definition poll_next (rounds fuel : nat) (state : option DbIteratorInner)
  : st St (option DbIteratorInner * option (Key * E)) :=
  match state with
  | None => mret (None, None)
  | Some inner =>
      '(inner, res) ← next rounds fuel inner;
      mret (match res with Some _ => Some inner | None => None end, res)
  end.

(** Polling the stream until it ends; [n] bounds the number of items. *)
Fixpoint collect (n rounds fuel : nat) (state : option DbIteratorInner) : st St (list (Key * E)) :=
  match n with
  | O => lift OutOfFuel
  | S n' =>
      '(state, res) ← poll_next rounds fuel state;
      match res with
      | Some item => rest ← collect n' rounds fuel state; mret (item :: rest)
      | None => mret []
      end
  end.

End merge.

End DbIteratorInner.

Arguments DbIteratorInner.DbIteratorInner I : clear implicits.

(** ** Specification *)

Section spec.

(** The direction of an iteration. *)
Context (rev : bool).

(** [a] comes before [b] in the direction of the iteration. *)
Definition before (a b : Key) : Prop := if rev then b <k a else a <k b.

Definition before_b (a b : Key) : bool := if rev then key_ltb b a else key_ltb a b.
Definition before_eq_b (a b : Key) : bool := if rev then key_leb b a else key_leb a b.

(** The inclusive bound the iteration starts at, and the exclusive bound it ends
    before. *)
Context (start stop last : option Key).

(** The key has been passed already, or lies before the start. *)
Definition passed (k : Key) : bool :=
  match last with Some l => before_eq_b k l | None => false end ||
  match start with Some s => before_b k s | None => false end.

(** The key lies behind the end. *)
Definition beyond (k : Key) : bool :=
  match stop with Some s => before_eq_b s k | None => false end.

(** The key can still be returned. *)
Definition in_range (k : Key) : Prop := passed k = false ∧ beyond k = false.

(** [x] is the newest item with its key. *)
Definition newest (Ls : list (list Item)) (x : Item) : Prop :=
  (∃ L, L ∈ Ls ∧ x ∈ L) ∧
  ∀ L y, L ∈ Ls → y ∈ L → item_key y = item_key x → (item_seq y <= item_seq x)%N.

(** The lists are sorted in the direction of the iteration. *)
Definition dir_sorted (L : list Item) : Prop := StronglySorted before (item_key <$> L).

End spec.

(** ** Order in the direction of the iteration *)

Section order.
Context (rev : bool).

Lemma before_b_iff a b : before_b rev a b = true ↔ before rev a b.
Proof. unfold before_b, before. destruct rev; apply key_ltb_lt. Qed.

Lemma before_eq_b_iff a b : before_eq_b rev a b = true ↔ before rev a b ∨ a = b.
Proof.
  unfold before_eq_b, before. destruct rev; rewrite key_leb_le, kle_lteq; naive_solver.
Qed.

Lemma before_trans a b c : before rev a b → before rev b c → before rev a c.
Proof. unfold before. destruct rev; [intros; by etrans|apply klt_trans]. Qed.

Lemma before_irrefl a : ¬ before rev a a.
Proof. unfold before. destruct rev; apply klt_irrefl. Qed.

Lemma before_trichotomy a b : before rev a b ∨ a = b ∨ before rev b a.
Proof. unfold before. pose proof (klt_trichotomy a b). destruct rev; naive_solver. Qed.

Lemma before_b_false a b : before_b rev a b = false ↔ b = a ∨ before rev b a.
Proof.
  rewrite <-not_true_iff_false, before_b_iff. split.
  - intros Hn. destruct (before_trichotomy a b) as [?|[->|?]]; [done|by left|by right].
  - intros [->|Hb] Ha; [by apply before_irrefl in Ha|].
    by apply (before_irrefl a), (before_trans _ b).
Qed.

Lemma before_eq_b_false a b : before_eq_b rev a b = false ↔ before rev b a.
Proof.
  rewrite <-not_true_iff_false, before_eq_b_iff. split.
  - intros Hn. destruct (before_trichotomy a b) as [?|[->|?]]; naive_solver.
  - intros Hb [Ha| ->]; [|by apply before_irrefl in Hb].
    by apply (before_irrefl a), (before_trans _ b).
Qed.

Lemma passed_down start last a b :
  before rev a b → passed rev start last b = true → passed rev start last a = true.
Proof.
  intros Hab. unfold passed. rewrite !orb_true_iff. intros [Hb|Hb]; [left|right].
  - destruct last as [l|]; [|done]. apply before_eq_b_iff in Hb. apply before_eq_b_iff. left.
    destruct Hb as [Hb| ->]; [by apply (before_trans _ b)|done].
  - destruct start as [s|]; [|done]. apply before_b_iff in Hb. apply before_b_iff.
    by apply (before_trans _ b).
Qed.

Lemma beyond_up stop a b : before rev a b → beyond rev stop a = true → beyond rev stop b = true.
Proof.
  intros Hab. unfold beyond. destruct stop as [s|]; [|done].
  rewrite !before_eq_b_iff. intros [Ha| ->]; left; [by apply (before_trans _ a)|done].
Qed.

End order.

(** ** Skipping *)

Section merge.
Context {St I E : Type} `{!InternalIterator St I E}.
Context (Inv : St → Prop) (Frame : St → St → Prop) `{!PreOrder Frame}.
Context (Hframe : ∀ s s', Inv s → Frame s s' → Inv s').
Context (rev : bool).

Abbreviation enum := (enumerates Inv Frame).

Lemma dir_sorted_cons x L :
  dir_sorted rev (x :: L) ↔ (∀ y, y ∈ L → before rev (item_key x) (item_key y)) ∧ dir_sorted rev L.
Proof.
  unfold dir_sorted. rewrite fmap_cons, StronglySorted_cons, Forall_forall.
  apply and_iff_compat_r. split.
  - intros Ha y Hy. apply Ha. by apply list_elem_of_fmap_2.
  - intros Ha k (y & -> & Hy)%list_elem_of_fmap. auto.
Qed.

Lemma filter_all_true {A} (P : A → Prop) `{!∀ x, Decision (P x)} (l : list A) :
  (∀ x, x ∈ l → P x) → filter P l = l.
Proof.
  induction l as [|x l IH]; intros Hall; [done|].
  rewrite filter_cons_True by (apply Hall; set_solver). f_equal. apply IH. set_solver.
Qed.

Lemma step_while_spec fuel cond it L s :
  enum it L → dir_sorted rev L → length L < fuel → Inv s →
  (∀ a b, before rev a b → cond b = true → cond a = true) →
  ∃ it' s', DbIteratorInner.step_while fuel cond it s = Ok (it', s') ∧ Frame s s' ∧
    enum it' (filter (λ x, cond (item_key x) = false) L).
Proof.
  intros He Hs Hf Hinv Hdown. revert fuel it s He Hs Hf Hinv.
  induction L as [|x L IH]; intros fuel it s He Hs Hf Hinv;
    (destruct fuel as [|fuel]; [simpl in Hf; lia|]); cbn [DbIteratorInner.step_while].
  - simpl in He. run_lift He. do 2 eexists. split; [done|]. split; [done|]. done.
  - pose proof He as [(Hend & Hk & _) Hstep]. run_lift Hend. run_lift Hk.
    apply dir_sorted_cons in Hs as [Hlt Hs].
    destruct (cond (item_key x)) eqn:Ec.
    + destruct (Hstep s Hinv) as (it1 & s1 & E1 & Hf1 & He1). run_st E1.
      destruct (IH fuel it1 s1 He1 Hs) as (it2 & s2 & E2 & Hf2 & He2);
        [simpl in Hf; lia|by eapply Hframe|].
      exists it2, s2. split; [done|]. split; [by etrans|].
      rewrite filter_cons_False by congruence. done.
    + do 2 eexists. split; [done|]. split; [done|].
      rewrite filter_all_true; [done|]. intros y [->|Hy]%elem_of_cons; [done|].
      apply not_true_iff_false. intros Hc. rewrite (Hdown (item_key x) (item_key y)) in Ec; [done|auto|done].
Qed.

Lemma dir_sorted_filter (P : Item → Prop) `{!∀ x, Decision (P x)} L :
  dir_sorted rev L → dir_sorted rev (filter P L).
Proof.
  induction L as [|x L IH]; intros Hs; [done|]. apply dir_sorted_cons in Hs as [Hlt Hs].
  rewrite filter_cons. case_decide; [|auto]. apply dir_sorted_cons. split; [|auto].
  intros y [_ Hy]%list_elem_of_filter. auto.
Qed.

(** ** One round *)

Context (start stop : option Key).

(** The items that were not passed yet. *)
Definition ahead (last : option Key) (L : list Item) : list Item :=
  filter (λ x, passed rev start last (item_key x) = false) L.

(** The iterator is of the direction and bounds under consideration. *)
Definition oriented (self : DbIteratorInner.DbIteratorInner I) : Prop :=
  self.(DbIteratorInner.reverse) = rev ∧
  (if rev then self.(DbIteratorInner.max_key) else self.(DbIteratorInner.min_key)) = start ∧
  (if rev then self.(DbIteratorInner.min_key) else self.(DbIteratorInner.max_key)) = stop.

Lemma ahead_two_steps last L :
  filter (λ x, match start with Some s => before_b rev (item_key x) s | None => false end = false)
    (filter (λ x, match last with Some l => before_eq_b rev (item_key x) l | None => false end = false) L)
  = ahead last L.
Proof.
  rewrite list_filter_filter. apply list_filter_iff. intros x. unfold passed.
  rewrite orb_false_iff. naive_solver.
Qed.

(** Skipping to the first item that was not passed. *)
Lemma skip_spec fuel last it L s :
  enum it L → dir_sorted rev L → length L < fuel → Inv s →
  ∃ it1 s1, (match last with
      | Some l => DbIteratorInner.step_while fuel (λ k, before_eq_b rev k l) it
      | None => mret it
      end : st St I) s = Ok (it1, s1) ∧ Frame s s1 ∧
    enum it1 (filter (λ x, match last with Some l => before_eq_b rev (item_key x) l
                           | None => false end = false) L).
Proof.
  intros He Hs Hf Hinv. destruct last as [l|].
  - apply step_while_spec; try done. intros a b Hab. rewrite !before_eq_b_iff.
    intros [Hb| ->]; left; [by apply (before_trans _ _ b)|done].
  - do 2 eexists. split; [done|]. split; [done|]. by rewrite filter_all_true.
Qed.

(** The best candidate so far: its position and the item its iterator shows. *)
Definition as_kv (best : option (nat * Item)) : DbIteratorInner.NextKV :=
  (λ b, (item_seq b.2, b.1)) <$> best.

Definition choose (best : option (nat * Item)) (pos : nat) (x : Item) : option (nat * Item) :=
  match best with
  | None => Some (pos, x)
  | Some (p, y) =>
      if before_b rev (item_key x) (item_key y) then Some (pos, x)
      else if decide (item_key x = item_key y ∧ (item_seq y < item_seq x)%N) then Some (pos, x)
      else best
  end.

(** The candidate of a list: its first item that is in range. *)
Definition candidate (last : option Key) (L : list Item) : option Item :=
  match ahead last L with
  | x :: _ => if beyond rev stop (item_key x) then None else Some x
  | [] => None
  end.

Definition next_best (last : option Key) (best : option (nat * Item)) (pos : nat) (L : list Item)
  : option (nat * Item) :=
  match candidate last L with Some x => choose best pos x | None => best end.

Lemma pick_spec self pos it x L best :
  enum it (x :: L) →
  (∀ p y, best = Some (p, y) → p ≠ pos ∧ ∃ itp Lp, self.(DbIteratorInner.iterators) !! p = Some itp
    ∧ enum itp (y :: Lp)) →
  ∃ change kv, DbIteratorInner.pick (DbIteratorInner.set_iter self pos it) pos it (as_kv best)
      (if rev then Gt else Lt) = Ok (change, kv) ∧
    (if (change : bool) then kv else as_kv best) = as_kv (choose best pos x).
Proof.
  intros [(_ & Hk & Hseq & _) _] Hbest. unfold DbIteratorInner.pick. rewrite Hk, Hseq. run_bind.
  destruct best as [[p y]|]; [|by do 2 eexists].
  destruct (Hbest p y) as (Hne & itp & Lp & Hp & [(_ & Hky & _) _]); [done|].
  cbn [as_kv fmap option_fmap option_map fst snd DbIteratorInner.set_iter DbIteratorInner.iterators].
  rewrite list_lookup_insert_ne, Hp by done. cbn [expect mbind outcome_bind].
  rewrite Hky. run_bind.
  unfold choose, before_b, key_ltb. rewrite (key_cmp_antisym (item_key x) (item_key y)).
  destruct (key_cmp (item_key x) (item_key y)) eqn:Ec; destruct rev; simpl.
  1,2: apply key_cmp_eq in Ec; destruct (_ <? _)%N eqn:Es; bool_to_prop; do 2 eexists;
    (split; [done|]); [rewrite decide_True by (split; [done|lia])|rewrite decide_False by lia]; done.
  all: do 2 eexists; (split; [done|]); try done.
  all: rewrite decide_False; [done|]; intros [Heq _]; rewrite Heq, key_cmp_refl in Ec; done.
Qed.

(** Skipping to the start of the range. *)
Lemma skip_start_spec fuel it L s :
  enum it L → dir_sorted rev L → length L < fuel → Inv s →
  ∃ it2 b s2, (match start with
      | Some m =>
          iter ← DbIteratorInner.step_while fuel (λ k, before_b rev k m) it;
          e ← lift (it_at_end iter);
          if (e : bool) then mret (iter, true) else
          k ← lift (it_get_key iter);
          mret (iter, before_b rev k m)
      | None => mret (it, false)
      end : st St (I * bool)) s = Ok ((it2, b), s2) ∧ Frame s s2 ∧
    let L2 := filter (λ x, match start with Some m => before_b rev (item_key x) m
                           | None => false end = false) L in
    enum it2 L2 ∧ (b = true → L2 = []).
Proof.
  intros He Hs Hf Hinv. destruct start as [m|].
  - destruct (step_while_spec fuel (λ k, before_b rev k m) it L s He Hs Hf Hinv)
      as (it2 & s2 & E2 & F2 & En2).
    { intros a b Hab. rewrite !before_b_iff. intros Hb. by apply (before_trans _ _ b). }
    run_st E2. simpl in En2 |- *.
    destruct (filter _ L) as [|x L2] eqn:El.
    + simpl in En2. run_lift En2. do 3 eexists. split; [done|]. split; [done|]. by split.
    + pose proof En2 as [(Hend & Hk & _) _]. run_lift Hend. run_lift Hk.
      do 3 eexists. split; [done|]. split; [done|]. split; [done|].
      assert (x ∈ filter (λ x, before_b rev (item_key x) m = false) L) as Hx
        by (rewrite El; set_solver).
      apply list_elem_of_filter in Hx as [Hx _]. by rewrite Hx.
  - do 3 eexists. split; [done|]. split; [done|]. split; [|done]. by rewrite filter_all_true.
Qed.

Lemma set_iter_oriented self pos it : oriented self → oriented (DbIteratorInner.set_iter self pos it).
Proof. done. Qed.

(** What is left of [parse_iter] once the iterator stands on its candidate. *)
Lemma parse_tail self pos it2 (b : bool) L last best s :
  oriented self → enum it2 (ahead last L) → (b = true → ahead last L = []) →
  (∀ p y, best = Some (p, y) → p ≠ pos ∧ ∃ itp Lp, self.(DbIteratorInner.iterators) !! p = Some itp
    ∧ enum itp (y :: Lp)) →
  ∃ change kv, (let self := DbIteratorInner.set_iter self pos it2 in
    if b then mret (self, (false, as_kv best)) else
    e ← lift (it_at_end it2);
    if (e : bool) then mret (self, (false, as_kv best)) else
    k ← lift (it_get_key it2);
    if match stop with Some m => before_eq_b rev m k | None => false end
    then mret (self, (false, as_kv best)) else
    r ← lift (DbIteratorInner.pick self pos it2 (as_kv best) (if rev then Gt else Lt));
    mret (self, r) : st St _) s
    = Ok ((DbIteratorInner.set_iter self pos it2, (change, kv)), s) ∧
    (if (change : bool) then kv else as_kv best) = as_kv (next_best last best pos L).
Proof.
  intros Ho He Hb Hbest. unfold next_best, candidate. destruct (ahead last L) as [|x L2] eqn:El.
  - exists false, (as_kv best). split; [|done]. destruct b; [done|]. simpl in He. run_lift He. done.
  - destruct b; [by specialize (Hb eq_refl)|]. pose proof He as [(Hend & Hk & _) _].
    run_lift Hend. run_lift Hk. fold (beyond rev stop (item_key x)).
    destruct (beyond rev stop (item_key x)); [by exists false, (as_kv best)|].
    destruct (pick_spec self pos it2 x L2 best He Hbest) as (change & kv & Ep & Hkv).
    exists change, kv. run_lift Ep. done.
Qed.

Lemma parse_iter_spec fuel self pos it L best s :
  oriented self → self.(DbIteratorInner.iterators) !! pos = Some it →
  enum it L → dir_sorted rev L → length L < fuel → Inv s →
  (∀ p y, best = Some (p, y) → p ≠ pos ∧ ∃ itp Lp, self.(DbIteratorInner.iterators) !! p = Some itp
    ∧ enum itp (y :: Lp)) →
  let last := self.(DbIteratorInner.last_key) in
  ∃ it' change kv s', DbIteratorInner.parse_iter fuel self pos (as_kv best) s
      = Ok ((DbIteratorInner.set_iter self pos it', (change, kv)), s') ∧
    Frame s s' ∧ enum it' (ahead last L) ∧
    (if (change : bool) then kv else as_kv best) = as_kv (next_best last best pos L).
Proof.
  intros Ho Hpos He Hs Hf Hinv Hbest last.
  destruct (skip_spec fuel last it L s He Hs Hf Hinv) as (it1 & s1 & E1 & F1 & En1).
  set (L1 := filter _ L) in En1.
  assert (length L1 < fuel).
  { pose proof (length_filter (λ x, match last with Some l => before_eq_b rev (item_key x) l
      | None => false end = false) L). subst L1. lia. }
  destruct (skip_start_spec fuel it1 L1 s1 En1) as (it2 & b & s2 & E2 & F2 & En2 & Hb);
    [by apply dir_sorted_filter|done|by eapply Hframe|].
  unfold L1 in En2, Hb. rewrite ahead_two_steps in En2, Hb.
  destruct (parse_tail self pos it2 b L last best s2 Ho En2 Hb Hbest) as (change & kv & E3 & Hkv).
  exists it2, change, kv, s2. split; [|split; [by etrans|done]].
  assert (expect (DbIteratorInner.iterators self !! pos) "index out of bounds" = Ok it) as E0
    by (by rewrite Hpos).
  unfold DbIteratorInner.parse_iter. run_lift E0. destruct Ho as (Hr & Hst & Hsp). rewrite Hr.
  rewrite <-E3. clear E3 Hkv Hb En2 En1 Hbest. unfold before_b, before_eq_b in *.
  destruct rev; rewrite Hst; fold last; run_st E1; run_st E2; by rewrite <-Hsp.
Qed.

(** The iterators enumerate what is left of the lists. *)
Definition enum_all (self : DbIteratorInner.DbIteratorInner I) (Ls : list (list Item)) : Prop :=
  Forall2 enum self.(DbIteratorInner.iterators) Ls.

(** What the loop over the iterators has established about the best candidate
    among the first [pos] lists. *)
Definition best_of (last : option Key) (Ls : list (list Item)) (pos : nat)
    (best : option (nat * Item)) : Prop :=
  match best with
  | None => ∀ j L, j < pos → Ls !! j = Some L → candidate last L = None
  | Some (p, x) => p < pos ∧ (∃ L, Ls !! p = Some L ∧ candidate last L = Some x) ∧
      ∀ j L y, j < pos → Ls !! j = Some L → candidate last L = Some y →
        before rev (item_key x) (item_key y) ∨
        item_key x = item_key y ∧ (item_seq y <= item_seq x)%N
  end.

Lemma best_of_next last Ls pos L best :
  Ls !! pos = Some L → best_of last Ls pos best →
  best_of last Ls (S pos) (next_best last best pos L).
Proof.
  intros HL Hb. unfold next_best. destruct (candidate last L) as [x|] eqn:Ec.
  - unfold choose. destruct best as [[p y]|].
    + destruct Hb as (Hp & (Lp & HLp & Hcp) & Hall).
      destruct (before_b rev (item_key x) (item_key y)) eqn:Eb; [apply before_b_iff in Eb|].
      * split; [lia|]. split; [eauto|]. intros j L' z Hj HL' Hz.
        destruct (decide (j = pos)) as [->|]; [simplify_eq; by right|]. left.
        destruct (Hall j L' z ltac:(lia) HL' Hz) as [?|[<- _]]; [by eapply before_trans|done].
      * apply before_b_false in Eb. case_decide as Hd.
        -- destruct Hd as [Hk Hlt]. split; [lia|]. split; [eauto|]. intros j L' z Hj HL' Hz.
           destruct (decide (j = pos)) as [->|]; [simplify_eq; by right|].
           destruct (Hall j L' z ltac:(lia) HL' Hz) as [?|[? ?]].
           ++ left. by rewrite Hk.
           ++ right. split; [congruence|lia].
        -- split; [lia|]. split; [eauto|]. intros j L' z Hj HL' Hz.
           destruct (decide (j = pos)) as [->|]; [|by apply (Hall j L'); [lia| |]].
           simplify_eq. destruct Eb as [Heq|?]; [|by left]. right. split; [done|].
           apply N.nlt_ge. intros Hlt. apply Hd. by split.
    + split; [lia|]. split; [eauto|]. intros j L' z Hj HL' Hz.
      destruct (decide (j = pos)) as [->|]; [simplify_eq; by right|].
      by rewrite (Hb j L') in Hz by (done || lia).
  - destruct best as [[p y]|].
    + destruct Hb as (Hp & Hc & Hall). split; [lia|]. split; [done|]. intros j L' z Hj HL' Hz.
      destruct (decide (j = pos)) as [->|]; [by simplify_eq|]. by apply (Hall j L'); [lia| |].
    + intros j L' Hj HL'. destruct (decide (j = pos)) as [->|]; [by simplify_eq|].
      by apply (Hb j); [lia|].
Qed.

(** ** What a round finds *)

Lemma in_ahead last L x : x ∈ ahead last L ↔ x ∈ L ∧ passed rev start last (item_key x) = false.
Proof. unfold ahead. rewrite list_elem_of_filter. naive_solver. Qed.

Lemma candidate_None last L x :
  dir_sorted rev L → candidate last L = None → x ∈ L →
  ¬ in_range rev start stop last (item_key x).
Proof.
  intros Hs Hc Hx [Hp Hb]. unfold candidate in Hc.
  assert (x ∈ ahead last L) as Hin by (by apply in_ahead).
  assert (dir_sorted rev (ahead last L)) as Hs' by (by apply dir_sorted_filter).
  destruct (ahead last L) as [|y L2]; [by apply not_elem_of_nil in Hin|].
  destruct (beyond rev stop (item_key y)) eqn:Ey; [|done]. apply dir_sorted_cons in Hs' as [Hlt _].
  apply elem_of_cons in Hin as [->|Hin]; [congruence|].
  rewrite (beyond_up rev stop (item_key y)) in Hb; [done|auto|done].
Qed.

Lemma candidate_Some last L x :
  dir_sorted rev L → candidate last L = Some x →
  x ∈ L ∧ in_range rev start stop last (item_key x) ∧
  ∀ y, y ∈ L → in_range rev start stop last (item_key y) →
    y = x ∨ before rev (item_key x) (item_key y).
Proof.
  intros Hs Hc. unfold candidate in Hc.
  assert (∀ y, y ∈ ahead last L ↔ y ∈ L ∧ passed rev start last (item_key y) = false) as Hin
    by (intros; apply in_ahead).
  assert (dir_sorted rev (ahead last L)) as Hs' by (by apply dir_sorted_filter).
  destruct (ahead last L) as [|z L2]; [done|].
  destruct (beyond rev stop (item_key z)) eqn:Ez; simplify_eq. apply dir_sorted_cons in Hs' as [Hlt _].
  destruct (proj1 (Hin x)) as [Hx Hp]; [set_solver|]. split; [done|]. split; [done|].
  intros y Hy [Hpy _]. assert (y ∈ x :: L2) as Hy' by (by apply Hin).
  apply elem_of_cons in Hy' as [->|Hy']; [by left|right; auto].
Qed.

Lemma best_of_None last Ls L x :
  Forall (dir_sorted rev) Ls → best_of last Ls (length Ls) None → L ∈ Ls → x ∈ L →
  ¬ in_range rev start stop last (item_key x).
Proof.
  intros Hs Hb HL Hx. apply list_elem_of_lookup in HL as [j Hj].
  apply (candidate_None last L); [by eapply Forall_lookup_1| |done].
  apply (Hb j); [by eapply lookup_lt_Some|done].
Qed.

Lemma best_of_Some last Ls p x :
  Forall (dir_sorted rev) Ls → best_of last Ls (length Ls) (Some (p, x)) →
  newest Ls x ∧ in_range rev start stop last (item_key x) ∧
  ∀ L y, L ∈ Ls → y ∈ L → in_range rev start stop last (item_key y) →
    item_key y = item_key x ∨ before rev (item_key x) (item_key y).
Proof.
  intros Hs (Hp & (L & HL & Hc) & Hall).
  destruct (candidate_Some last L x) as (HxL & Hr & _); [by eapply Forall_lookup_1|done|].
  assert (∀ L' y, L' ∈ Ls → y ∈ L' → in_range rev start stop last (item_key y) →
    before rev (item_key x) (item_key y) ∨
    item_key y = item_key x ∧ (item_seq y <= item_seq x)%N) as Hmin.
  { intros L' y [j Hj]%list_elem_of_lookup Hy Hry.
    assert (dir_sorted rev L') as HsL by (by eapply Forall_lookup_1).
    destruct (candidate last L') as [z|] eqn:Ez;
      [|by destruct (candidate_None last L' y HsL Ez Hy)].
    destruct (candidate_Some last L' z HsL Ez) as (_ & _ & Hz).
    destruct (Hall j L' z) as [Hxz|[Hxz Hsz]]; [by eapply lookup_lt_Some|done|done| |].
    - left. destruct (Hz y Hy Hry) as [->|Hzy]; [done|by eapply before_trans].
    - destruct (Hz y Hy Hry) as [->|Hzy]; [by right|left; by rewrite Hxz]. }
  split; [|split; [done|]].
  - split; [exists L; split; [by eapply list_elem_of_lookup_2|done]|].
    intros L' y HL' Hy Hk. destruct (Hmin L' y HL' Hy) as [Hb|[_ ?]]; [by rewrite Hk| |done].
    rewrite Hk in Hb. by apply before_irrefl in Hb.
  - intros L' y HL' Hy Hry. destruct (Hmin L' y HL' Hy Hry) as [?|[? _]]; [by right|by left].
Qed.

(** ** The loop over the iterators *)

(** The iterator has not passed any item of [L] that is still ahead. *)
Definition tracks (last : option Key) (it : I) (L : list Item) : Prop :=
  ∃ L', enum it L' ∧ dir_sorted rev L' ∧ length L' <= length L ∧ ahead last L' = ahead last L.

Lemma ahead_idem last L : ahead last (ahead last L) = ahead last L.
Proof. unfold ahead. rewrite list_filter_filter. apply list_filter_iff. naive_solver. Qed.

Lemma ahead_length last L : length (ahead last L) <= length L.
Proof. apply length_filter. Qed.

Lemma next_best_ahead last best pos L L' :
  ahead last L' = ahead last L → next_best last best pos L' = next_best last best pos L.
Proof. intros Ha. unfold next_best, candidate. by rewrite Ha. Qed.

(** The first [pos] iterators stand on their candidate, the others track. *)
Definition sweep (last : option Key) (pos : nat) (its : list I) (Ls : list (list Item)) : Prop :=
  length its = length Ls ∧
  ∀ j it L, its !! j = Some it → Ls !! j = Some L →
    if decide (j < pos) then enum it (ahead last L) else tracks last it L.

Lemma sweep_next last pos its Ls it' L :
  sweep last pos its Ls → Ls !! pos = Some L → enum it' (ahead last L) →
  sweep last (S pos) (<[pos := it']> its) Ls.
Proof.
  intros [Hlen Hsw] HL He. split; [by rewrite length_insert|].
  intros j it L' Hj HL'. destruct (decide (j = pos)) as [->|Hne].
  - rewrite list_lookup_insert_eq in Hj by (rewrite Hlen; by eapply lookup_lt_Some).
    rewrite decide_True by lia. by simplify_eq.
  - rewrite list_lookup_insert_ne in Hj by done. specialize (Hsw j it L' Hj HL').
    destruct (decide (j < pos)); [rewrite decide_True by lia|rewrite decide_False by lia]; done.
Qed.

Lemma best_shown last pos its Ls best p y :
  sweep last pos its Ls → best_of last Ls pos best → best = Some (p, y) →
  p < pos ∧ ∃ itp Lp, its !! p = Some itp ∧ enum itp (y :: Lp).
Proof.
  intros [Hlen Hsw] Hb ->. destruct Hb as (Hp & (L & HL & Hc) & _). split; [done|].
  destruct (lookup_lt_is_Some_2 its p) as [itp Hitp]; [rewrite Hlen; by eapply lookup_lt_Some|].
  specialize (Hsw p itp L Hitp HL). rewrite decide_True in Hsw by done.
  unfold candidate in Hc. destruct (ahead last L) as [|z L2]; [done|].
  destruct (beyond rev stop (item_key z)); simplify_eq. eauto.
Qed.

Lemma parse_iters_spec n fuel self pos best Ls s :
  let last := self.(DbIteratorInner.last_key) in
  pos + n = length Ls → oriented self → sweep last pos self.(DbIteratorInner.iterators) Ls →
  Forall (λ L, length L < fuel) Ls → Inv s → best_of last Ls pos best →
  ∃ self' best' s', DbIteratorInner.parse_iters n fuel self pos (as_kv best) s
      = Ok ((self', as_kv best'), s') ∧
    Frame s s' ∧ oriented self' ∧ self'.(DbIteratorInner.last_key) = last ∧
    sweep last (length Ls) self'.(DbIteratorInner.iterators) Ls ∧ best_of last Ls (length Ls) best'.
Proof.
  revert self pos best s; induction n as [|n IH]; intros self pos best s last Hn Ho Hsw Hfuel Hinv Hb.
  { replace pos with (length Ls) in Hsw, Hb by lia. by exists self, best, s. }
  destruct (lookup_lt_is_Some_2 Ls pos) as [L HL]; [lia|].
  destruct (lookup_lt_is_Some_2 (DbIteratorInner.iterators self) pos) as [it Hit];
    [rewrite (proj1 Hsw); lia|].
  pose proof (proj2 Hsw pos it L Hit HL) as Htr. rewrite decide_False in Htr by lia.
  destruct Htr as (L' & He & Hs & Hlen & Hah).
  pose proof (Forall_lookup_1 _ _ _ _ Hfuel HL) as Hf. simpl in Hf.
  destruct (parse_iter_spec fuel self pos it L' best s Ho Hit He Hs ltac:(lia) Hinv)
    as (it' & change & kv & s1 & E1 & F1 & En1 & Hkv).
  { intros p y Hpy. destruct (best_shown last pos _ Ls best p y Hsw Hb Hpy) as [? ?].
    split; [lia|done]. }
  fold last in En1, Hkv. rewrite Hah in En1. rewrite (next_best_ahead last best pos L L') in Hkv by done.
  cbn [DbIteratorInner.parse_iters]. run_st E1. cbn beta iota. rewrite Hkv.
  destruct (IH (DbIteratorInner.set_iter self pos it') (S pos) (next_best last best pos L) s1)
    as (self' & best' & s' & E2 & F2 & Hrest);
    [lia|done|by eapply sweep_next|done|by eapply Hframe|by apply best_of_next|].
  exists self', best', s'.
  split; [done|]. split; [by etrans|done].
Qed.

(** ** The next item *)

Lemma passed_mono last k y :
  in_range rev start stop last k → passed rev start last y = true →
  passed rev start (Some k) y = true.
Proof.
  intros [Hk _]. unfold passed in *. rewrite !orb_true_iff. apply orb_false_iff in Hk as [Hk _].
  intros [Hy|Hy]; [left|by right]. destruct last as [l|]; [|done].
  apply before_eq_b_false in Hk. apply before_eq_b_iff in Hy. apply before_eq_b_iff. left.
  destruct Hy as [Hy| ->]; [by eapply before_trans|done].
Qed.

Lemma ahead_mono last k L :
  in_range rev start stop last k → ahead (Some k) (ahead last L) = ahead (Some k) L.
Proof.
  intros Hk. unfold ahead. rewrite list_filter_filter. apply list_filter_iff. intros x. split; [naive_solver|].
  intros Hx. split; [done|]. apply not_true_iff_false. intros Hp.
  by rewrite (passed_mono last k) in Hx.
Qed.

Lemma sweep_tracks last k its Ls :
  in_range rev start stop last k → Forall (dir_sorted rev) Ls →
  sweep last (length Ls) its Ls → sweep (Some k) 0 its Ls.
Proof.
  intros Hk Hs [Hlen Hsw]. split; [done|]. intros j it L Hj HL.
  specialize (Hsw j it L Hj HL). rewrite decide_True in Hsw by (by eapply lookup_lt_Some).
  rewrite decide_False by lia. exists (ahead last L). split; [done|].
  split; [apply dir_sorted_filter; by eapply Forall_lookup_1|].
  split; [apply ahead_length|by apply ahead_mono].
Qed.

Lemma sweep_done last its Ls :
  Forall (dir_sorted rev) Ls → sweep last (length Ls) its Ls → sweep last 0 its Ls.
Proof.
  intros Hs [Hlen Hsw]. split; [done|]. intros j it L Hj HL.
  specialize (Hsw j it L Hj HL). rewrite decide_True in Hsw by (by eapply lookup_lt_Some).
  rewrite decide_False by lia. exists (ahead last L). split; [done|].
  split; [apply dir_sorted_filter; by eapply Forall_lookup_1|].
  split; [apply ahead_length|apply ahead_idem].
Qed.

(** The number of items ahead bounds the number of rounds. *)
Definition left_over (last : option Key) (Ls : list (list Item)) : nat :=
  sum_list_with (λ L, length (ahead last L)) Ls.

Lemma passed_self k : passed rev start (Some k) k = true.
Proof. unfold passed. apply orb_true_iff. left. apply before_eq_b_iff. by right. Qed.

Lemma left_over_le last k Ls :
  in_range rev start stop last k → left_over (Some k) Ls <= left_over last Ls.
Proof.
  intros Hk. unfold left_over. induction Ls as [|L Ls IH]; [done|].
  cbn [sum_list_with]. rewrite <-(ahead_mono last k L Hk).
  pose proof (ahead_length (Some k) (ahead last L)). lia.
Qed.

Lemma left_over_lt last x L Ls :
  L ∈ Ls → x ∈ L → in_range rev start stop last (item_key x) →
  left_over (Some (item_key x)) Ls < left_over last Ls.
Proof.
  intros HL Hx Hk. apply list_elem_of_split in HL as (Ls1 & Ls2 & ->).
  pose proof (left_over_le last _ Ls1 Hk). pose proof (left_over_le last _ Ls2 Hk).
  unfold left_over in *. rewrite !sum_list_with_app. cbn [sum_list_with].
  assert (length (ahead (Some (item_key x)) L) < length (ahead last L)); [|lia].
  rewrite <-(ahead_mono last _ L Hk). unfold ahead at 1.
  apply (length_filter_lt _ _ x); [by apply in_ahead; destruct Hk|].
  rewrite passed_self. done.
Qed.

(** What [next] returns: the entry of the next key whose newest item is shown. *)
Definition next_result (Ls : list (list Item)) (last : option Key) (res : option (Key * E)) : Prop :=
  match res with
  | None => ∀ y, newest Ls y → in_range rev start stop last (item_key y) → item_shown y = None
  | Some (k, en) => ∃ x v, newest Ls x ∧ item_key x = k ∧ in_range rev start stop last k ∧
      item_shown x = Some v ∧ it_entry_value en = Ok v ∧
      ∀ y, newest Ls y → in_range rev start stop last (item_key y) →
        before rev (item_key y) k → item_shown y = None
  end.

Lemma newest_in Ls x : newest Ls x → ∃ L, L ∈ Ls ∧ x ∈ L.
Proof. by intros [? _]. Qed.

(** Nothing is in range between the last key and the smallest key in range. *)
Lemma in_range_step last k y :
  in_range rev start stop last k → in_range rev start stop last y →
  before rev k y → in_range rev start stop (Some k) y.
Proof.
  intros [Hk _] [Hp Hb] Hky. split; [|done]. unfold passed in *.
  apply orb_false_iff in Hp as [_ Hp]. apply orb_false_iff. split; [|done].
  by apply before_eq_b_false.
Qed.

Lemma in_range_weaken last k y :
  in_range rev start stop last k → in_range rev start stop (Some k) y →
  in_range rev start stop last y ∧ before rev k y.
Proof.
  intros Hk [Hp Hb]. split.
  - split; [|done]. apply not_true_iff_false. intros Ht. by rewrite (passed_mono last k y Hk Ht) in Hp.
  - unfold passed in Hp. apply orb_false_iff in Hp as [Hp _]. by apply before_eq_b_false in Hp.
Qed.

(** Two newest items with the same key cannot differ in what they show. *)
Definition coherent (Ls : list (list Item)) : Prop :=
  ∀ L1 L2 x y, L1 ∈ Ls → L2 ∈ Ls → x ∈ L1 → y ∈ L2 →
    item_key x = item_key y → item_seq x = item_seq y → item_shown x = item_shown y.

Lemma newest_shown Ls x y :
  coherent Ls → newest Ls x → newest Ls y → item_key x = item_key y → item_shown x = item_shown y.
Proof.
  intros Hc [(L1 & HL1 & Hx) Hx'] [(L2 & HL2 & Hy) Hy'] Hk.
  apply (Hc L1 L2); try done.
  apply N.le_antisymm; [by apply (Hy' L1)|by apply (Hx' L2)].
Qed.

Lemma next_spec rounds fuel self Ls s :
  let last := self.(DbIteratorInner.last_key) in
  oriented self → sweep last 0 self.(DbIteratorInner.iterators) Ls →
  Forall (dir_sorted rev) Ls → coherent Ls → Forall (λ L, length L < fuel) Ls → Inv s →
  left_over last Ls < rounds →
  ∃ self' res s', DbIteratorInner.next rounds fuel self s = Ok ((self', res), s') ∧ Frame s s' ∧
    oriented self' ∧ sweep self'.(DbIteratorInner.last_key) 0 self'.(DbIteratorInner.iterators) Ls ∧
    next_result Ls last res ∧
    match res with Some (k, _) => self'.(DbIteratorInner.last_key) = Some k | None => True end.
Proof.
  revert self s; induction rounds as [|rounds IH]; intros self s last Ho Hsw Hs Hc Hf Hinv Hr; [lia|].
  destruct (parse_iters_spec (length self.(DbIteratorInner.iterators)) fuel self 0 None Ls s)
    as (self1 & best & s1 & E1 & F1 & Ho1 & Hl1 & Hsw1 & Hb1); try done;
    [by rewrite (proj1 Hsw)|by intros j L Hj; apply Nat.nlt_0_r in Hj|].
  fold last in Hsw1, Hb1, Hl1. cbn [DbIteratorInner.next]. change (DbIteratorInner.parse_iters _ fuel self 0 None)
    with (DbIteratorInner.parse_iters (length self.(DbIteratorInner.iterators)) fuel self 0 (as_kv None)).
  run_st E1.
  cbn beta iota. destruct best as [[p x]|]; cbn [as_kv fmap option_fmap option_map fst snd].
  2: { exists self1, None, s1. do 3 (split; [done|]). rewrite Hl1.
    split; [by apply sweep_done|]. split; [|done].
    intros y (L & HL & Hy)%newest_in Hin. by destruct (best_of_None last Ls L y Hs Hb1 HL Hy). }
  destruct (best_of_Some last Ls p x Hs Hb1) as (Hn & Hin & Hmin).
  destruct (best_shown last _ _ Ls _ p x Hsw1 Hb1 eq_refl) as (_ & itp & Lp & Hp & He).
  assert (expect (DbIteratorInner.iterators self1 !! p) "index out of bounds" = Ok itp) as Ep
    by (by rewrite Hp).
  run_lift Ep. destruct He as [(_ & Hk & _ & _ & r & Hr1 & Hr2) _]. run_lift Hk. run_lift Hr1.
  set (self2 := {| DbIteratorInner.last_key := Some (item_key x) |}).
  assert (sweep (Some (item_key x)) 0 self2.(DbIteratorInner.iterators) Ls) as Hsw2
    by (by eapply sweep_tracks).
  assert (∀ y, newest Ls y → in_range rev start stop last (item_key y) →
    item_key y = item_key x ∨ in_range rev start stop (Some (item_key x)) (item_key y)) as Hcase.
  { intros y (L & HL & Hy)%newest_in Hy'. destruct (Hmin L y HL Hy Hy') as [?|?]; [by left|right].
    by eapply in_range_step. }
  destruct r as [en|]; destruct (item_shown x) as [v|] eqn:Ev; try done.
  - exists self2, (Some (item_key x, en)), s1. do 4 (split; [done|]). split; [|done].
    exists x, v. do 5 (split; [done|]). intros y Hy Hy' Hlt.
    destruct (Hcase y Hy Hy') as [Heq|Hrg].
    + rewrite Heq in Hlt. by apply before_irrefl in Hlt.
    + apply (in_range_weaken last) in Hrg as [_ Hrg]; [|done].
      by destruct (before_irrefl rev (item_key x)); eapply before_trans.
  - destruct (newest_in _ _ Hn) as (L & HL & HxL).
    pose proof (left_over_lt last x L Ls HL HxL Hin).
    destruct (IH self2 s1) as (self' & res & s' & E2 & F2 & Ho2 & Hsw3 & Hres & Hl); try done;
      [by eapply Hframe|simpl; lia|].
    exists self', res, s'. split; [done|]. split; [by etrans|]. do 2 (split; [done|]). split; [|done].
    cbn [self2 DbIteratorInner.last_key] in Hres.
    assert (∀ y, newest Ls y → item_key y = item_key x → item_shown y = None) as Hsame
      by (intros y Hy Hky; rewrite (newest_shown Ls y x); done).
    destruct res as [[k en]|]; simpl in Hres |- *.
    + destruct Hres as (x' & v & Hx' & Hk' & Hin' & Hv & Hen & Hall).
      exists x', v. apply (in_range_weaken last) in Hin' as [Hin' _]; [|done].
      do 5 (split; [done|]). intros y Hy Hy' Hlt. destruct (Hcase y Hy Hy') as [?|?]; auto.
    + intros y Hy Hy'. destruct (Hcase y Hy Hy') as [?|?]; auto.
Qed.

(** ** The whole stream *)

(** What a scan over the lists returns: the newest item of every key in range,
    in the direction of the iteration. *)
Definition scan_of (Ls : list (list Item)) (last : option Key) (out : list (Key * E)) : Prop :=
  StronglySorted (before rev) out.*1 ∧
  (∀ k en, (k, en) ∈ out → in_range rev start stop last k) ∧
  ∀ k v, (∃ en, (k, en) ∈ out ∧ it_entry_value en = Ok v) ↔
    ∃ x, newest Ls x ∧ item_key x = k ∧ in_range rev start stop last k ∧ item_shown x = Some v.

Lemma scan_of_nil Ls last : next_result Ls last None → scan_of Ls last [].
Proof.
  intros Hn. split; [constructor|]. split; [by intros ? ? ?%not_elem_of_nil|].
  intros k v. split; [by intros (? & ?%not_elem_of_nil & _)|].
  intros (x & Hx & <- & Hin & Hv). by rewrite Hn in Hv.
Qed.

Lemma scan_of_cons Ls last k en out :
  coherent Ls → next_result Ls last (Some (k, en)) → scan_of Ls (Some k) out →
  scan_of Ls last ((k, en) :: out).
Proof.
  intros Hc (x & v & Hx & Hk & Hin & Hv & Hen & Hmin) (Hs & Hr & Hall).
  assert (∀ k' en', (k', en') ∈ out → in_range rev start stop last k' ∧ before rev k k') as Hout.
  { intros k' en' Hk'. apply (in_range_weaken last k); [done|]. by eapply Hr. }
  split; [|split].
  - rewrite fmap_cons. constructor; [done|]. apply Forall_forall.
    intros k' ([k'' en'] & -> & Hk')%list_elem_of_fmap. by apply (Hout _ en').
  - intros k' en' [[= -> ->]|Hk']%elem_of_cons; [done|]. by apply (Hout _ en').
  - intros k' v'. split.
    + intros (en' & [[= -> ->]|Hk']%elem_of_cons & Hv').
      { exists x. do 3 (split; [done|]). congruence. }
      destruct (proj1 (Hall k' v')) as (y & Hy & Hyk & _ & Hyv); [eauto|].
      exists y. split; [done|]. split; [done|]. split; [by apply (Hout _ en')|done].
    + intros (y & Hy & Hyk & Hyin & Hyv).
      destruct (before_trichotomy rev k k') as [Hlt|[<-|Hgt]].
      * destruct (proj2 (Hall k' v')) as (en' & Hen' & ?);
          [exists y; split; [done|]; split; [done|]; split; [by eapply in_range_step|done]|].
        exists en'. split; [by right|done].
      * exists en. split; [by left|]. rewrite Hen.
        rewrite (newest_shown Ls y x) in Hyv by (done || congruence). congruence.
      * rewrite Hmin in Hyv; [done|done|by rewrite Hyk|by rewrite Hyk].
Qed.

Lemma collect_spec n rounds fuel self Ls s :
  let last := self.(DbIteratorInner.last_key) in
  oriented self → sweep last 0 self.(DbIteratorInner.iterators) Ls →
  Forall (dir_sorted rev) Ls → coherent Ls → Forall (λ L, length L < fuel) Ls → Inv s →
  left_over last Ls < rounds → left_over last Ls < n →
  ∃ out s', DbIteratorInner.collect n rounds fuel (Some self) s = Ok (out, s') ∧ Frame s s' ∧
    scan_of Ls last out.
Proof.
  revert self s; induction n as [|n IH]; intros self s last Ho Hsw Hs Hc Hf Hinv Hr Hn; [lia|].
  destruct (next_spec rounds fuel self Ls s Ho Hsw Hs Hc Hf Hinv Hr)
    as (self1 & res & s1 & E1 & F1 & Ho1 & Hsw1 & Hres & Hl1). fold last in Hres.
  cbn [DbIteratorInner.collect DbIteratorInner.poll_next].
  assert (DbIteratorInner.poll_next rounds fuel (Some self) s
    = Ok ((match res with Some _ => Some self1 | None => None end, res), s1)) as Ep.
  { cbn [DbIteratorInner.poll_next]. by run_st E1. }
  run_st Ep. cbn beta iota. destruct res as [[k en]|].
  - pose proof Hres as (x & v & Hx & Hk & Hin & _). subst k.
    destruct (newest_in _ _ Hx) as (L & HL & HxL).
    pose proof (left_over_lt last x L Ls HL HxL Hin).
    rewrite Hl1 in Hsw1. destruct (IH self1 s1) as (out & s2 & E2 & F2 & Hout);
      rewrite ?Hl1; try done; [by eapply Hframe|lia|lia|].
    rewrite Hl1 in Hout. exists ((item_key x, en) :: out), s2. run_st E2.
    split; [done|]. split; [by etrans|]. by apply scan_of_cons.
  - exists [], s1. split; [done|]. split; [done|]. by apply scan_of_nil.
Qed.

(** Fresh iterators track their lists. *)
Lemma sweep_start its Ls :
  Forall2 enum its Ls → Forall (dir_sorted rev) Ls → sweep None 0 its Ls.
Proof.
  intros He Hs. split; [by eapply Forall2_length|]. intros j it L Hj HL.
  rewrite decide_False by lia. exists L. split; [by eapply Forall2_lookup_lr|].
  split; [by eapply Forall_lookup_1|]. by split.
Qed.

(** Over iterators that enumerate sorted lists of items, polling a fresh database
    iterator until its end is a scan over the lists. *)
Lemma db_iterator_scans its Ls s n rounds fuel :
  Forall2 enum its Ls → Forall (dir_sorted rev) Ls → coherent Ls →
  Forall (λ L, length L < fuel) Ls → Inv s →
  sum_list_with length Ls < rounds → sum_list_with length Ls < n →
  ∃ out s', DbIteratorInner.collect n rounds fuel (Some
      {| DbIteratorInner.last_key := None; DbIteratorInner.iterators := its;
         DbIteratorInner.reverse := rev;
         DbIteratorInner.min_key := if rev then stop else start;
         DbIteratorInner.max_key := if rev then start else stop |}) s = Ok (out, s') ∧
    Frame s s' ∧ scan_of Ls None out.
Proof.
  intros He Hs Hc Hf Hinv Hr Hn.
  assert (left_over None Ls <= sum_list_with length Ls).
  { clear. unfold left_over. induction Ls as [|L Ls IH]; [done|]. cbn [sum_list_with].
    pose proof (ahead_length None L). lia. }
  apply collect_spec; try done; cbn [DbIteratorInner.last_key]; [|by apply sweep_start|lia|lia].
  unfold oriented. by destruct rev.
Qed.

End merge.
