(* ===== verification/DbIterator.v ===== *)
(** * The database iterator (src/src/iterate.rs, src/src/logic.rs)

    [DbIterator] owns the iterators of the memtables and of the tables behind one
    interface ([Box<dyn InternalIterator>]) and hands out references to the
    entries ([EntryRef]).  The theorems instantiate the merge of [Iterate] with
    the two iterators of the program. *)

From stdpp Require Import base list gmap strings sorting.
From Stdlib Require Import Strings.Byte NArith ZArith Lia.
From S2P Require Import Prelude WriteBatch Iterator Memtable Disk Manifest DataBlock DataBlocks IndexBlock SortedTable TableIterator Iterate.

Local Open Scope nat_scope.
Local Open Scope lsm_scope.

Module EntryRef.

Section entry.
Context `{Bloom}.

(** [enum EntryRef] *)
Inductive EntryRef :=
  | SortedTable (entry : DataBlock.DataEntry)
  | Memtable (entry : MemtableEntryRef.MemtableEntryRef).

(** The value a reference holds, before it is unwrapped. *)
Definition value (r : EntryRef) : outcome (option Value) :=
  match r with
  | SortedTable entry => DataBlock.get_value entry
  | Memtable entry => Ok (MemtableEntryRef.get_value entry)
  end.

(** [EntryRef::get_value] *)
Definition get_value (r : EntryRef) : outcome Value :=
  v ← value r;
  expect v "called `Option::unwrap()` on a `None` value".

End entry.

End EntryRef.

Module DbIterator.

Section ops.
Context `{Bloom} `{Compression} `{LruCache DataBlock.DataBlock}.

(** [Box<dyn InternalIterator>] *)
Inductive BoxedIterator :=
  | BMem (iter : MemtableIterator.MemtableIterator)
  | BTable (iter : TableIterator.TableIterator).

(** Dynamic dispatch to the two implementations. *)
Definition at_end (it : BoxedIterator) : outcome bool :=
  match it with
  | BMem it => Ok (MemtableIterator.at_end it)
  | BTable it => TableIterator.at_end it
  end.

Definition step (params : Params.Params) (it : BoxedIterator) : st Env BoxedIterator :=
  match it with
  | BMem it => it ← lift (MemtableIterator.step it); mret (BMem it)
  | BTable it => it ← TableIterator.step params it; mret (BTable it)
  end.

Definition get_key (it : BoxedIterator) : outcome Key :=
  match it with
  | BMem it => MemtableIterator.get_key it
  | BTable it => Ok it.(TableIterator.key)
  end.

Definition get_entry (it : BoxedIterator) : outcome (option EntryRef.EntryRef) :=
  match it with
  | BMem it => Ok (option_map EntryRef.Memtable (MemtableIterator.get_entry it))
  | BTable it => r ← TableIterator.get_entry it; Ok (option_map EntryRef.SortedTable r)
  end.

Definition get_seq_number (it : BoxedIterator) : outcome N :=
  match it with
  | BMem it => MemtableIterator.get_seq_number it
  | BTable it => TableIterator.get_seq_number it
  end.

Definition get_entry_type (it : BoxedIterator) : outcome DataEntryType :=
  match it with
  | BMem it => MemtableIterator.get_entry_type it
  | BTable it => TableIterator.get_entry_type it
  end.

(** [DbIteratorInner::new] *)
Definition inner_new (mem_iters : list MemtableIterator.MemtableIterator)
    (table_iters : list TableIterator.TableIterator) (min_key max_key : option Key)
    (reverse : bool) : DbIteratorInner.DbIteratorInner BoxedIterator :=
  {| DbIteratorInner.iterators := (BMem <$> mem_iters) ++ (BTable <$> table_iters);
     DbIteratorInner.last_key := None; DbIteratorInner.min_key := min_key;
     DbIteratorInner.max_key := max_key; DbIteratorInner.reverse := reverse |}.

(** [DbIterator::new]: the first item is computed when the stream is polled. *)
Definition new (mem_iters : list MemtableIterator.MemtableIterator)
    (table_iters : list TableIterator.TableIterator) (min_key max_key : option Key)
    (reverse : bool) : option (DbIteratorInner.DbIteratorInner BoxedIterator) :=
  Some (inner_new mem_iters table_iters min_key max_key reverse).

End ops.

End DbIterator.

(** The implementation of the iterator interface. *)
Definition boxed_iterator `{Bloom} `{Compression} `{LruCache DataBlock.DataBlock}
    (params : Params.Params) : InternalIterator Env DbIterator.BoxedIterator EntryRef.EntryRef := {|
  it_at_end := DbIterator.at_end;
  it_step := DbIterator.step params;
  it_get_key := DbIterator.get_key;
  it_get_entry := DbIterator.get_entry;
  it_entry_value := EntryRef.value;
  it_get_seq_number := DbIterator.get_seq_number;
  it_get_entry_type := DbIterator.get_entry_type;
|}.

Section boxed.
Context `{Bloom} `{Compression} `{LruCache DataBlock.DataBlock}.
Context (params : Params.Params).
Context (Inv : Env → Prop) (Frame : Env → Env → Prop).

#[local] Instance boxed : InternalIterator Env _ _ := boxed_iterator params.

Lemma boxed_mem it L :
  enumerates Inv Frame it L → enumerates Inv Frame (DbIterator.BMem it) L.
Proof.
  revert it; induction L as [|x L IH]; intros it He; [done|].
  destruct He as [(Hend & Hk & Hs & Ht & r & Hr & Hv) Hstep]. split.
  - split_and!; try done. simpl in Hr |- *. injection Hr as Hr. rewrite Hr.
    exists (EntryRef.Memtable <$> r). split; [done|]. by destruct (item_shown x), r.
  - intros s Hinv. destruct (Hstep s Hinv) as (it' & s' & E & F & He').
    exists (DbIterator.BMem it'), s'. split; [|by split; [|apply IH]].
    change (DbIterator.step params (DbIterator.BMem it) s = Ok (DbIterator.BMem it', s')).
    unfold DbIterator.step. simpl in E.
    destruct (MemtableIterator.step it) as [it1| | |] eqn:E1; try done.
    simpl in E. by injection E as -> ->.
Qed.

Lemma boxed_table it L :
  enumerates (H := TableIterator_iterator params) Inv Frame it L →
  enumerates Inv Frame (DbIterator.BTable it) L.
Proof.
  revert it; induction L as [|x L IH]; intros it He; [done|].
  destruct He as [(Hend & Hk & Hs & Ht & r & Hr & Hv) Hstep]. split.
  - split_and!; try done. simpl in Hr |- *. rewrite Hr.
    exists (EntryRef.SortedTable <$> r). split; [done|]. by destruct (item_shown x), r.
  - intros s Hinv. destruct (Hstep s Hinv) as (it' & s' & E & F & He').
    exists (DbIterator.BTable it'), s'. split; [|by split; [|apply IH]].
    change (DbIterator.step params (DbIterator.BTable it) s = Ok (DbIterator.BTable it', s')).
    unfold DbIterator.step. simpl in E. by run_st E.
Qed.

End boxed.

Lemma boxed_all `{Bloom} `{Compression} `{LruCache DataBlock.DataBlock} params Inv Frame
    mem_iters table_iters mLs tLs :
  Forall2 (enumerates Inv Frame) mem_iters mLs →
  Forall2 (enumerates (H := TableIterator_iterator params) Inv Frame) table_iters tLs →
  Forall2 (enumerates (H := boxed_iterator params) Inv Frame)
    ((DbIterator.BMem <$> mem_iters) ++ (DbIterator.BTable <$> table_iters)) (mLs ++ tLs).
Proof.
  intros Hm Ht. apply Forall2_app; apply Forall2_fmap_l; eapply Forall2_impl; try done; simpl.
  - intros it L. apply boxed_mem.
  - intros it L. apply boxed_table.
Qed.

(** ** The sorted lists of the sources *)

(** What a memtable and a table contribute, in the direction of the iteration. *)
Definition mem_list (rev : bool) (m : Memtable.Memtable) : list Item :=
  mem_item <$> (if rev then reverse m.(Memtable.entries) else m.(Memtable.entries)).

Definition table_list (rev : bool) (bs : Blocks) : list Item :=
  table_item <$> (if rev then reverse (be_entry <$> flat bs) else be_entry <$> flat bs).

Lemma StronglySorted_reverse {A} (R : A → A → Prop) l :
  StronglySorted R l → StronglySorted (flip R) (reverse l).
Proof.
  induction 1 as [|x l Hs IH Hx]; [constructor|]. rewrite reverse_cons, StronglySorted_app.
  rewrite Forall_forall in Hx. split; [|split; [done|by repeat constructor]].
  intros y z Hy ->%list_elem_of_singleton. unfold flip. apply Hx. by apply elem_of_reverse.
Qed.

Lemma dir_sorted_dir rev (L : list Item) :
  StronglySorted klt (item_key <$> L) → dir_sorted rev (if rev then reverse L else L).
Proof.
  intros Hs. unfold dir_sorted, before. destruct rev; [|done].
  rewrite fmap_reverse. by apply StronglySorted_reverse.
Qed.

Lemma dir_sorted_mem rev m : memtable_wf m → dir_sorted rev (mem_list rev m).
Proof.
  intros [Hs _ _]. unfold mem_list.
  replace (mem_item <$> _) with (if rev then reverse (mem_item <$> m.(Memtable.entries))
    else mem_item <$> m.(Memtable.entries)) by (destruct rev; by rewrite ?fmap_reverse).
  apply dir_sorted_dir. rewrite <-list_fmap_compose. exact Hs.
Qed.

Lemma dir_sorted_table rev bs : keys_increasing (flat bs) → dir_sorted rev (table_list rev bs).
Proof.
  intros Hs. unfold table_list.
  replace (table_item <$> _) with (if rev then reverse (table_item <$> (be_entry <$> flat bs))
    else table_item <$> (be_entry <$> flat bs)) by (destruct rev; by rewrite ?fmap_reverse).
  apply dir_sorted_dir. rewrite <-!list_fmap_compose. exact Hs.
Qed.

Lemma elem_of_mem_list rev m x : x ∈ mem_list rev m ↔ ∃ e, e ∈ m.(Memtable.entries) ∧ x = mem_item e.
Proof.
  unfold mem_list. rewrite list_elem_of_fmap. destruct rev; setoid_rewrite elem_of_reverse || idtac;
    naive_solver.
Qed.

(** ** Deleted keys of a memtable *)

Lemma contents_elem m k e : memtable_wf m → contents m !! k = Some e ↔ (k, e) ∈ m.(Memtable.entries).
Proof.
  intros [Hs _ _]. unfold contents. symmetry. apply elem_of_list_to_map.
  by apply keys_sorted_NoDup.
Qed.

Lemma newest_single L x : dir_sorted false L → x ∈ L → newest [L] x.
Proof.
  intros Hs Hx. split; [exists L; split; [set_solver|done]|].
  intros L' y ->%list_elem_of_singleton Hy Hk.
  assert (y = x) as ->; [|done]. apply list_elem_of_lookup in Hx as [i Hi], Hy as [j Hj].
  assert (NoDup (item_key <$> L)) as Hnd.
  { clear -Hs. unfold dir_sorted in Hs. induction Hs as [|k l _ IH Hk]; constructor; [|done].
    rewrite Forall_forall in Hk. intros Hin. by apply (klt_irrefl k), Hk. }
  assert (i = j) as ->; [|congruence].
  apply (NoDup_lookup _ _ _ (item_key x) Hnd); rewrite list_lookup_fmap;
    [by rewrite Hi|by rewrite Hj, <-Hk].
Qed.

(** C37: the merge does not hide deletions of a memtable.  [MemtableIterator::get_entry]
    returns an entry for deletions too, so the database iterator over a memtable
    yields every deleted key of the requested range, and reading the value of the
    yielded entry panics. *)
Theorem memtable_deletions_iterated `{Bloom} `{Compression} `{LruCache DataBlock.DataBlock}
    params m k seq e :
  memtable_wf m → contents m !! k = Some (MDeletion seq) →
  ∃ it n out e', MemtableIterator.new m false = Ok it ∧
    DbIteratorInner.collect (InternalIterator0 := boxed_iterator params) n n n
      (DbIterator.new [it] [] None None false) e = Ok (out, e') ∧
    ∃ en, (k, en) ∈ out ∧
      EntryRef.get_value en = Panic "called `Option::unwrap()` on a `None` value".
Proof.
  intros Hwf Hk. destruct (mem_new_enumerates (λ _ : Env, True) eq m false) as (it & Eit & Hit).
  set (n := S (length (mem_list false m))).
  destruct (db_iterator_scans (InternalIterator0 := boxed_iterator params) (λ _, True) eq
    ltac:(done) false None None [DbIterator.BMem it] [mem_list false m] e n n n)
    as (out & e' & Ec & _ & _ & _ & Hout).
  - apply (boxed_all params _ _ [it] [] [mem_list false m] []); [|done]. by repeat constructor.
  - constructor; [by apply dir_sorted_mem|done].
  - intros L1 L2 x y ->%list_elem_of_singleton ->%list_elem_of_singleton Hx Hy Hxy _.
    apply elem_of_mem_list in Hx as ([k1 e1] & Hx & ->), Hy as ([k2 e2] & Hy & ->).
    simpl in Hxy. subst k2. apply contents_elem in Hx, Hy; [|done..]. simpl. congruence.
  - constructor; [|done]. unfold n. lia.
  - done.
  - unfold n. simpl. lia.
  - unfold n. simpl. lia.
  - exists it, n, out, e'. split; [done|]. split; [exact Ec|].
    destruct (proj2 (Hout k None)) as (en & Hen & Hv).
    + exists (mem_item (k, MDeletion seq)). split; [|done].
      apply newest_single; [by apply dir_sorted_mem|].
      apply elem_of_mem_list. exists (k, MDeletion seq). split; [by apply contents_elem|done].
    + exists en. split; [done|]. unfold EntryRef.get_value. simpl in Hv. by rewrite Hv.
Qed.

(** ** Iterating over memtables and tables *)

Section merge.
Context `{Bloom} `{Compression} `{LruLaws DataBlock.DataBlock}.
Context (params : Params.Params) (interval : nat).

(** The iterators over the tables, created one after the other. *)
Fixpoint open_tables (rev : bool) (ts : list SortedTable.SortedTable)
  : st Env (list TableIterator.TableIterator) :=
  match ts with
  | [] => mret []
  | t :: ts' =>
      it ← TableIterator.new params t rev;
      its ← open_tables rev ts';
      mret (it :: its)
  end.

(** All tables are on disk. *)
Definition tables_in (tbs : list (SortedTable.SortedTable * Blocks)) (e : Env) : Prop :=
  cache_ok params e ∧ Forall (λ tb, table_ok params interval e.(env_disk) tb.1 tb.2) tbs.

Lemma tables_in_reads tbs e e' : tables_in tbs e → reads params e e' → tables_in tbs e'.
Proof. intros [Hc Ht] (Hd & _ & Hc'). split; [auto|]. by rewrite Hd. Qed.

Lemma open_tables_ok rev tbs tbs' e :
  tables_in tbs e → (∀ tb, tb ∈ tbs' → tb ∈ tbs) →
  ∃ its e', open_tables rev tbs'.*1 e = Ok (its, e') ∧ reads params e e' ∧
    Forall2 (enumerates (H := TableIterator_iterator params) (tables_in tbs) (reads params)) its
      (table_list rev <$> tbs'.*2).
Proof.
  revert e; induction tbs' as [|[t bs] tbs' IH]; intros e Hin Hsub.
  { exists [], e. by split_and!. }
  assert (∀ e, tables_in tbs e → table_in params interval t bs e) as Hone.
  { intros e0 [Hc Ht]. split; [done|]. rewrite Forall_forall in Ht.
    apply (Ht (t, bs)), Hsub. set_solver. }
  assert (∃ it e', TableIterator.new params t rev e = Ok (it, e') ∧ reads params e e' ∧
    enumerates (H := TableIterator_iterator params) (table_in params interval t bs) (reads params) it
      (table_list rev bs)) as (it & e1 & E1 & R1 & He).
  { unfold table_list. destruct rev.
    - rewrite <-fmap_reverse. by apply new_backward, Hone.
    - by apply new_forward, Hone. }
  destruct (IH e1) as (its & e2 & E2 & R2 & Hits); [by eapply tables_in_reads|set_solver|].
  exists (it :: its), e2. rewrite fmap_cons. cbn [open_tables fst]. run_st E1. run_st E2.
  split; [done|]. split; [by etrans|]. rewrite !fmap_cons. constructor; [|done].
  eapply enumerates_weaken; [|exact He]. exact Hone.
Qed.

(** The lists of items of the memtables and of the tables. *)
Definition sources (rev : bool) (ms : list Memtable.Memtable) (bss : list Blocks) : list (list Item) :=
  (mem_list rev <$> ms) ++ (table_list rev <$> bss).

Lemma open_memtables_ok {St} (Inv : St → Prop) (Frame : St → St → Prop) `{!Reflexive Frame} rev ms :
  ∃ its, mapM (λ m, MemtableIterator.new m rev) ms = Ok its ∧
    Forall2 (enumerates Inv Frame) its (mem_list rev <$> ms).
Proof.
  induction ms as [|m ms (its & E & Hits)]; [by exists []|].
  destruct (mem_new_enumerates Inv Frame m rev) as (it & Eit & Hit).
  exists (it :: its). simpl. rewrite Eit. simpl. rewrite E. simpl. split; [done|].
  constructor; [exact Hit|done].
Qed.

Lemma sources_sorted rev ms bss :
  Forall memtable_wf ms → Forall (λ bs, keys_increasing (flat bs)) bss →
  Forall (dir_sorted rev) (sources rev ms bss).
Proof.
  intros Hm Hb. apply Forall_app. split; apply Forall_fmap; eapply Forall_impl; try done.
  - intros m. apply dir_sorted_mem.
  - intros bs. apply dir_sorted_table.
Qed.

Lemma length_lt_sum (Ls : list (list Item)) n :
  sum_list_with length Ls < n → Forall (λ L, length L < n) Ls.
Proof.
  intros Hn. apply Forall_forall. intros L HL.
  pose proof (sum_list_with_in L length Ls HL). lia.
Qed.

Lemma db_scan_ok rev start stop ms tbs e n :
  tables_in tbs e → Forall memtable_wf ms → coherent (sources rev ms tbs.*2) →
  sum_list_with length (sources rev ms tbs.*2) < n →
  ∃ mem_iters table_iters e1 out e2,
    mapM (λ m, MemtableIterator.new m rev) ms = Ok mem_iters ∧
    open_tables rev tbs.*1 e = Ok (table_iters, e1) ∧
    DbIteratorInner.collect (InternalIterator0 := boxed_iterator params) n n n
      (DbIterator.new mem_iters table_iters (if rev then stop else start)
        (if rev then start else stop) rev) e1 = Ok (out, e2) ∧
    reads params e e2 ∧
    scan_of (InternalIterator0 := boxed_iterator params) rev start stop
      (sources rev ms tbs.*2) None out.
Proof.
  intros Hin Hwf Hc Hn.
  destruct (open_memtables_ok (tables_in tbs) (reads params) rev ms) as (mits & Em & Hm).
  destruct (open_tables_ok rev tbs tbs e Hin) as (tits & e1 & Et & Rt & Ht); [done|].
  destruct (db_iterator_scans (InternalIterator0 := boxed_iterator params) (tables_in tbs)
    (reads params) (tables_in_reads tbs) rev start stop
    ((DbIterator.BMem <$> mits) ++ (DbIterator.BTable <$> tits)) (sources rev ms tbs.*2) e1 n n n)
    as (out & e2 & Ec & Rc & Hout); try done.
  - by apply boxed_all.
  - apply sources_sorted; [done|]. apply Forall_fmap. destruct Hin as [_ Hin].
    eapply Forall_impl; [exact Hin|]. intros tb. apply to_sorted.
  - by apply length_lt_sum.
  - by eapply tables_in_reads.
  - exists mits, tits, e1, out, e2. do 3 (split; [done|]). split; [by etrans|done].
Qed.

End merge.

(** ** Witnesses *)

Section witnesses.
Import Concrete.

Lemma memtable_deletions_iterated_witness :
  ∃ it n out e', MemtableIterator.new sample_memtable false = Ok it ∧
    DbIteratorInner.collect (InternalIterator0 := boxed_iterator sample_block_params) n n n
      (DbIterator.new [it] [] None None false) empty_env = Ok (out, e') ∧
    ∃ en, ([x62], en) ∈ out ∧
      EntryRef.get_value en = Panic "called `Option::unwrap()` on a `None` value".
Proof.
  apply (memtable_deletions_iterated sample_block_params sample_memtable [x62] 4 empty_env);
    [exact sample_memtable_wf|vm_compute; reflexivity].
Defined.

End witnesses.
