(* ===== verification/Level.v ===== *)
(** * Levels (src/src/level.rs)

    A level owns a list of tables: level 0 may hold tables with overlapping
    ranges, ordered from the oldest to the newest; the tables of every other
    level are disjoint.  Compactions mark the tables they work on with the
    compaction flag and reserve their target range with a placeholder. *)

From stdpp Require Import base list gmap strings sorting.
From Stdlib Require Import Strings.Byte NArith ZArith Lia.
From S2P Require Import Prelude WriteBatch Iterator Disk Manifest DataBlock DataBlocks IndexBlock SortedTable TableIterator.

Local Open Scope nat_scope.
Local Open Scope lsm_scope.

(** [L0_COMPACTION_TRIGGER] *)
Definition L0_COMPACTION_TRIGGER : nat := 4.

(** Checked multiplication of [usize]. *)
Definition usize_mul (a b : N) : outcome N :=
  if (a * b <? u64_bound)%N then Ok (a * b)%N else Panic "attempt to multiply with overflow".

Module TablePlaceholder.

(** [struct TablePlaceholder] *)
Record TablePlaceholder := mk { min : Key; max : Key; id : N }.

(** [TablePlaceholder::overlaps] *)
Definition overlaps (p : TablePlaceholder) (min max : Key) : bool :=
  key_leb min p.(TablePlaceholder.max) && key_leb p.(TablePlaceholder.min) max.

End TablePlaceholder.

(** [Result<Option<Vec<Arc<SortedTable>>>, ()>] *)
Inductive StartResult :=
  | Started (tables : list SortedTable.SortedTable)
  | NothingToStart
  | Contended.

Module Level.

(** [struct Level] (its parameters, data blocks and manifest are arguments). *)
Record Level := mk {
  index : N;
  next_compaction_offset : nat;
  do_seek_based_compaction : bool;
  seek_based_compaction : N;
  tables : list SortedTable.SortedTable;
  table_placeholders : list TablePlaceholder.TablePlaceholder;
}.

(** [Level::new] *)
Definition new (params : Params.Params) (index : N) : Level :=
  {| index := index;
     do_seek_based_compaction :=
       match params.(Params.seek_based_compaction) with Some _ => true | None => false end;
     seek_based_compaction := INVALID_TABLE_ID; next_compaction_offset := 0;
     tables := []; table_placeholders := [] |}.

Definition set_tables (l : Level) (tables : list SortedTable.SortedTable) : Level :=
  {| index := l.(index); next_compaction_offset := l.(next_compaction_offset);
     do_seek_based_compaction := l.(do_seek_based_compaction);
     seek_based_compaction := l.(seek_based_compaction);
     tables := tables; table_placeholders := l.(table_placeholders) |}.

Definition set_placeholders (l : Level) (ps : list TablePlaceholder.TablePlaceholder) : Level :=
  {| index := l.(index); next_compaction_offset := l.(next_compaction_offset);
     do_seek_based_compaction := l.(do_seek_based_compaction);
     seek_based_compaction := l.(seek_based_compaction);
     tables := l.(tables); table_placeholders := ps |}.

Definition set_seek (l : Level) (id : N) : Level :=
  {| index := l.(index); next_compaction_offset := l.(next_compaction_offset);
     do_seek_based_compaction := l.(do_seek_based_compaction);
     seek_based_compaction := id;
     tables := l.(tables); table_placeholders := l.(table_placeholders) |}.

(** [Level::set_next_compaction_offset] *)
Definition set_next_compaction_offset (l : Level) (offset : nat) : Level :=
  {| index := l.(index); next_compaction_offset := offset;
     do_seek_based_compaction := l.(do_seek_based_compaction);
     seek_based_compaction := l.(seek_based_compaction);
     tables := l.(tables); table_placeholders := l.(table_placeholders) |}.

(** [Level::remove_table_placeholder] *)
Fixpoint remove_placeholder (ps : list TablePlaceholder.TablePlaceholder) (id : N)
  : outcome (list TablePlaceholder.TablePlaceholder) :=
  match ps with
  | [] => Panic "no such placeholder"
  | p :: ps' =>
      if (p.(TablePlaceholder.id) =? id)%N then Ok ps'
      else ps'' ← remove_placeholder ps' id; Ok (p :: ps'')
  end.

Definition remove_table_placeholder (l : Level) (id : N) : outcome Level :=
  ps ← remove_placeholder l.(table_placeholders) id;
  Ok (set_placeholders l ps).

(** [Level::add_l0_table] *)
Definition add_l0_table (l : Level) (t : SortedTable.SortedTable) : outcome Level :=
  _ ← assert_that (l.(index) =? 0)%N "assertion `left == right` failed";
  Ok (set_tables l (l.(tables) ++ [t])).

Section ops.
Context `{Bloom} `{Compression} `{LruCache DataBlock.DataBlock}.

(** [Level::load_table] *)
Definition load_table (params : Params.Params) (l : Level) (id : N) : st Env Level :=
  t ← SortedTable.load params id;
  mret (set_tables l (l.(tables) ++ [t])).

(** [Level::build_table] *)
Definition build_table (id : N) (min_key max_key : Key) : outcome TableBuilder.TableBuilder :=
  TableBuilder.new id min_key max_key.

(** The loop of [Level::get] over the first [n] tables, from back to front. *)
Fixpoint get_loop (params : Params.Params) (n : nat) (l : Level) (key : Key)
    (compaction_triggered : bool) : st Env (Level * (bool * option DataBlock.DataEntry)) :=
  match n with
  | O => mret (l, (compaction_triggered, None))
  | S n' =>
      t ← lift (expect (l.(tables) !! n') "index out of bounds");
      '(t, result) ← SortedTable.get params t key;
      let l := set_tables l (<[n' := t]> l.(tables)) in
      let trigger := l.(do_seek_based_compaction) && SortedTable.has_maximum_seeks t &&
        (l.(seek_based_compaction) =? INVALID_TABLE_ID)%N in
      let l := if trigger then set_seek l (SortedTable.get_id t) else l in
      let compaction_triggered := compaction_triggered || trigger in
      match result with
      | Some r => mret (l, (compaction_triggered, Some r))
      | None => get_loop params n' l key compaction_triggered
      end
  end.

(** [Level::get] *)
Definition get (params : Params.Params) (l : Level) (key : Key)
  : st Env (Level * (bool * option DataBlock.DataEntry)) :=
  get_loop params (length l.(tables)) l key false.

End ops.

(** [Level::max_size] *)
Fixpoint max_size_loop (level : nat) (result : N) : outcome N :=
  match level with
  | O => Ok result
  | S level' => result ← usize_mul result 10; max_size_loop level' result
  end.

Definition max_size (l : Level) : outcome N := max_size_loop (N.to_nat l.(index) - 1) 1048576.

(** The size of all tables. *)
Fixpoint total_size (ts : list SortedTable.SortedTable) (acc : N) : outcome N :=
  match ts with
  | [] => Ok acc
  | t :: ts' =>
      size ← SortedTable.get_size t;
      acc ← u64_add acc (N.of_nat size);
      total_size ts' acc
  end.

(** The position of the table with the given identifier. *)
Fixpoint position_of (ts : list SortedTable.SortedTable) (id : N) : option nat :=
  match ts with
  | [] => None
  | t :: ts' => if (SortedTable.get_id t =? id)%N then Some 0 else S <$> position_of ts' id
  end.

(** The block ['choice] of [Level::maybe_start_compaction]: the position of the
    table to compact. *)
Definition choose_table (l : Level) : outcome (Level * option nat) :=
  size_based_compaction ←
    (if (l.(index) =? 0)%N then Ok (L0_COMPACTION_TRIGGER <? length l.(tables))
     else total ← total_size l.(tables) 0; limit ← max_size l; Ok (limit <? total)%N);
  if (size_based_compaction : bool) then
    if length l.(tables) =? 0 then Panic "Cannot start compaction; level is empty" else
    let next_offset := if length l.(tables) <=? l.(next_compaction_offset) then 0
                       else l.(next_compaction_offset) in
    Ok (set_next_compaction_offset l (next_offset + 1), Some next_offset)
  else
    let table_id := l.(seek_based_compaction) in
    if (table_id =? INVALID_TABLE_ID)%N then Ok (l, None) else
    match position_of l.(tables) table_id with
    | Some pos => Ok (set_seek l INVALID_TABLE_ID, Some pos)
    | None => Ok (l, None)
    end.

(** [abort_compaction] of the tables at the given positions. *)
Fixpoint abort_all (ts : list SortedTable.SortedTable) (offsets : list nat)
  : outcome (list SortedTable.SortedTable) :=
  match offsets with
  | [] => Ok ts
  | i :: offsets' =>
      t ← expect (ts !! i) "index out of bounds";
      t ← SortedTable.abort_compaction t;
      abort_all (<[i := t]> ts) offsets'
  end.

(** The first table, from position [pos] on, that was not picked yet and overlaps
    the range. *)
Fixpoint first_overlap (ts : list SortedTable.SortedTable) (pos : nat) (offsets : list nat)
    (min max : Key) : outcome (option nat) :=
  match ts with
  | [] => Ok None
  | t :: ts' =>
      if bool_decide (pos ∈ offsets) then first_overlap ts' (S pos) offsets min max else
      o ← SortedTable.overlaps t min max;
      if (o : bool) then Ok (Some pos) else first_overlap ts' (S pos) offsets min max
  end.

(** The [while change] loop of level 0: picks tables until no other table
    overlaps the range of the picked ones; without a result the flag of one of
    them was taken and all were given back. *)
Fixpoint grow (fuel : nat) (ts : list SortedTable.SortedTable) (offsets : list nat)
    (min max : Key) : outcome (list SortedTable.SortedTable * option (list nat)) :=
  match fuel with
  | O => OutOfFuel
  | S fuel' =>
      next ← first_overlap ts 0 offsets min max;
      match next with
      | None => Ok (ts, Some offsets)
      | Some pos =>
          t ← expect (ts !! pos) "index out of bounds";
          match SortedTable.maybe_start_compaction t with
          | (true, t) =>
              tmin ← SortedTable.get_min t;
              tmax ← SortedTable.get_max t;
              grow fuel' (<[pos := t]> ts) (offsets ++ [pos]) (key_min min tmin) (key_max max tmax)
          | (false, _) => ts ← abort_all ts offsets; Ok (ts, None)
          end
      end
  end.

(** [Level::maybe_start_compaction] *)
Definition maybe_start_compaction (l : Level) : outcome (Level * StartResult) :=
  '(l, choice) ← choose_table l;
  match choice with
  | None => Ok (l, NothingToStart)
  | Some offset =>
      t ← expect (l.(tables) !! offset) "index out of bounds";
      match SortedTable.maybe_start_compaction t with
      | (false, _) => Ok (l, Contended)
      | (true, t) =>
          let ts := <[offset := t]> l.(tables) in
          if (l.(index) =? 0)%N then
            min ← SortedTable.get_min t;
            max ← SortedTable.get_max t;
            '(ts, offsets) ← grow (S (length ts)) ts [offset] min max;
            match offsets with
            | Some offsets => Ok (set_tables l ts, Started (omap (λ i, ts !! i) offsets))
            | None => Ok (set_tables l ts, Contended)
            end
          else Ok (set_tables l ts, Started [t])
      end
  end.

(** The loop of [Level::get_overlaps]: flags the tables that overlap the range,
    which grows with every one of them. *)
Fixpoint overlap_loop (n : nat) (ts : list SortedTable.SortedTable) (pos : nat)
    (picked : list nat) (min max : Key)
  : outcome (list SortedTable.SortedTable * option (list nat * Key * Key)) :=
  match n with
  | O => Ok (ts, Some (picked, min, max))
  | S n' =>
      t ← expect (ts !! pos) "index out of bounds";
      o ← SortedTable.overlaps t min max;
      if (o : bool) then
        match SortedTable.maybe_start_compaction t with
        | (false, _) => ts ← abort_all ts picked; Ok (ts, None)
        | (true, t) =>
            tmin ← SortedTable.get_min t;
            tmax ← SortedTable.get_max t;
            overlap_loop n' (<[pos := t]> ts) (S pos) (picked ++ [pos])
              (key_min tmin min) (key_max tmax max)
        end
      else overlap_loop n' ts (S pos) picked min max
  end.

(** [Manifest::generate_next_table_id] on the shared state. *)
Definition generate_table_id `{Bloom} `{LruCache DataBlock.DataBlock} : st Env N := λ e,
  '(id, m) ← Manifest.generate_next_table_id e.(env_manifest);
  Ok (id, {| env_disk := e.(env_disk); env_caches := e.(env_caches); env_manifest := m |}).

(** [Level::get_overlaps] *)
Definition get_overlaps `{Bloom} `{LruCache DataBlock.DataBlock} (l : Level) (min max : Key)
    (fast_path : option N) : st Env (Level * option (N * list SortedTable.SortedTable)) :=
  '(ts, r) ← lift (overlap_loop (length l.(tables)) l.(tables) 0 [] min max);
  match r with
  | None => mret (set_tables l ts, None)
  | Some (picked, min, max) =>
      if existsb (λ p, TablePlaceholder.overlaps p min max) l.(table_placeholders) then
        ts ← lift (abort_all ts picked);
        mret (set_tables l ts, None)
      else
        table_id ← match fast_path, picked with
                   | Some id, [] => mret id
                   | _, _ => generate_table_id
                   end;
        let p := {| TablePlaceholder.id := table_id; TablePlaceholder.min := min;
                    TablePlaceholder.max := max |} in
        mret (set_placeholders (set_tables l ts) (l.(table_placeholders) ++ [p]),
              Some (table_id, omap (λ i, ts !! i) picked))
  end.

End Level.

(** ** Ranges of tables *)

(** The key range of a table. *)
Definition tmin (t : SortedTable.SortedTable) : Key :=
  match SortedTable.get_min t with Ok k => k | _ => [] end.
Definition tmax (t : SortedTable.SortedTable) : Key :=
  match SortedTable.get_max t with Ok k => k | _ => [] end.

(** The index of the table has a proper range. *)
Record ranged (t : SortedTable.SortedTable) : Prop := {
  ranged_min : SortedTable.get_min t = Ok (tmin t);
  ranged_max : SortedTable.get_max t = Ok (tmax t);
  ranged_le : tmin t <=k tmax t;
}.

(** The table has keys between [min] and [max] in its range. *)
Definition overlapping (min max : Key) (t : SortedTable.SortedTable) : Prop :=
  min <=k tmax t ∧ tmin t <=k max.

#[export] Instance overlapping_dec min max t : Decision (overlapping min max t).
Proof. unfold overlapping. apply _. Defined.

(** Two tables have no common key. *)
Definition disjoint_tables (t1 t2 : SortedTable.SortedTable) : Prop :=
  ¬ overlapping (tmin t1) (tmax t1) t2.

(** The same table, up to its compaction flag and seek counter. *)
Definition same_table (t t' : SortedTable.SortedTable) : Prop :=
  t'.(SortedTable.identifier) = t.(SortedTable.identifier) ∧
  t'.(SortedTable.index) = t.(SortedTable.index).

#[export] Instance same_table_equiv : Equivalence same_table.
Proof.
  split; [done|by intros t t' [? ?]|]. intros t1 t2 t3 [H1 H2] [H3 H4]. split; congruence.
Qed.

Lemma with_flag_same t b : same_table t (SortedTable.with_flag t b).
Proof. done. Qed.

Lemma count_seek_same t : same_table t (SortedTable.count_seek t).
Proof. done. Qed.

Lemma same_table_min t t' : same_table t t' → tmin t' = tmin t.
Proof. intros [_ H]. unfold tmin, SortedTable.get_min. by rewrite H. Qed.

Lemma same_table_max t t' : same_table t t' → tmax t' = tmax t.
Proof. intros [_ H]. unfold tmax, SortedTable.get_max. by rewrite H. Qed.

Lemma same_table_overlapping t t' min max :
  same_table t t' → overlapping min max t' ↔ overlapping min max t.
Proof. intros H. unfold overlapping. by rewrite (same_table_min _ _ H), (same_table_max _ _ H). Qed.

Lemma same_table_ranged t t' : same_table t t' → ranged t → ranged t'.
Proof.
  intros H [H1 H2 H3]. pose proof (same_table_min _ _ H) as Em. pose proof (same_table_max _ _ H) as EM.
  destruct H as [_ Hi]. split.
  - unfold SortedTable.get_min in *. by rewrite Hi, H1, Em.
  - unfold SortedTable.get_max in *. by rewrite Hi, H2, EM.
  - by rewrite Em, EM.
Qed.

Lemma overlaps_ok t min max :
  ranged t → SortedTable.overlaps t min max = Ok (bool_decide (overlapping min max t)).
Proof.
  intros [H1 H2 _]. unfold SortedTable.overlaps. rewrite H2, H1. run_bind. f_equal.
  apply eq_true_iff_eq. rewrite andb_true_iff, !key_leb_le, bool_decide_eq_true. done.
Qed.

Lemma overlapping_widen min max min' max' t :
  min' <=k min → max <=k max' → overlapping min max t → overlapping min' max' t.
Proof. intros H1 H2 [H3 H4]. split; [by eapply kle_trans|by eapply kle_trans]. Qed.

(** The hull of a range and a table that overlaps it is their union. *)
Lemma overlapping_hull min max t0 t :
  ranged t0 → ranged t → overlapping min max t0 → disjoint_tables t0 t →
  overlapping (key_min (tmin t0) min) (key_max (tmax t0) max) t ↔ overlapping min max t.
Proof.
  intros [_ _ L0] [_ _ L] [Ha Hb] Hdis. unfold disjoint_tables, overlapping in *.
  destruct (key_min_cases (tmin t0) min) as [[? ->]|[? ->]],
    (key_max_cases (tmax t0) max) as [[? ->]|[? ->]]; split; intros [H1 H2]; split;
    try (apply dec_stable; intros Hn; apply Hdis; split); korder.
Qed.

(** ** Overlapping tables of a level with disjoint tables *)

(** The tables are pairwise disjoint. *)
Definition pairwise_disjoint (ts : list SortedTable.SortedTable) : Prop :=
  ∀ i j t1 t2, ts !! i = Some t1 → ts !! j = Some t2 → i ≠ j → disjoint_tables t1 t2.

Lemma pairwise_disjoint_cons t ts :
  pairwise_disjoint (t :: ts) ↔
  (∀ t', t' ∈ ts → disjoint_tables t t' ∧ disjoint_tables t' t) ∧ pairwise_disjoint ts.
Proof.
  split.
  - intros Hd. split.
    + intros t' [j Hj]%list_elem_of_lookup. split; [by apply (Hd 0 (S j))|by apply (Hd (S j) 0)].
    + intros i j t1 t2 Hi Hj Hne. apply (Hd (S i) (S j)); [done|done|lia].
  - intros [Ht Hd] [|i] [|j] t1 t2 Hi Hj Hne; simpl in Hi, Hj; simplify_eq.
    + by apply list_elem_of_lookup_2, Ht in Hj as [? _].
    + by apply list_elem_of_lookup_2, Ht in Hi as [_ ?].
    + apply (Hd i j); [done|done|lia].
Qed.

(** The flag set on the overlapping tables. *)
Definition mark (min max : Key) (t : SortedTable.SortedTable) : SortedTable.SortedTable :=
  if decide (overlapping min max t) then SortedTable.with_flag t true else t.

(** The positions of the overlapping tables, from [pos] on. *)
Fixpoint overlap_positions (min max : Key) (pos : nat) (ts : list SortedTable.SortedTable) : list nat :=
  match ts with
  | [] => []
  | t :: ts' =>
      (if decide (overlapping min max t) then [pos] else []) ++ overlap_positions min max (S pos) ts'
  end.

(** The range after the overlapping tables were added to it. *)
Definition hull (min max : Key) (ts : list SortedTable.SortedTable) : Key * Key :=
  foldl (λ r t, (key_min (tmin t) r.1, key_max (tmax t) r.2)) (min, max) ts.

Lemma mark_same min max t : same_table t (mark min max t).
Proof. unfold mark. by case_decide. Qed.

Lemma lookup_app_mid {A} (l1 l2 : list A) x : (l1 ++ x :: l2) !! length l1 = Some x.
Proof. by rewrite lookup_app_r, Nat.sub_diag by lia. Qed.

Lemma insert_app_mid {A} (l1 l2 : list A) x y : <[length l1 := y]> (l1 ++ x :: l2) = l1 ++ y :: l2.
Proof. rewrite insert_app_r_alt by lia. by rewrite Nat.sub_diag. Qed.

Lemma start_free t :
  t.(SortedTable.compaction_flag) = false →
  SortedTable.maybe_start_compaction t = (true, SortedTable.with_flag t true).
Proof. intros H. unfold SortedTable.maybe_start_compaction. by rewrite H. Qed.

(** When no overlapping table is taken, the loop picks and flags exactly the
    tables that overlap the original range. *)
Lemma overlap_loop_ok min max rest pre picked m M :
  Forall ranged rest → pairwise_disjoint rest →
  Forall (λ t, overlapping m M t ↔ overlapping min max t) rest →
  Forall (λ t, overlapping min max t → t.(SortedTable.compaction_flag) = false) rest →
  Level.overlap_loop (length rest) (pre ++ rest) (length pre) picked m M =
    Ok (pre ++ (mark min max <$> rest),
        Some (picked ++ overlap_positions min max (length pre) rest,
              (hull m M (filter (overlapping min max) rest)).1,
              (hull m M (filter (overlapping min max) rest)).2)).
Proof.
  revert pre picked m M; induction rest as [|t rest IH]; intros pre picked m M Hr Hd Ho Hf.
  { simpl. by rewrite !app_nil_r. }
  apply Forall_cons in Hr as [Rt Hr], Ho as [Ot Ho], Hf as [Ft Hf].
  apply pairwise_disjoint_cons in Hd as [Dt Hd].
  cbn [length Level.overlap_loop overlap_positions]. rewrite lookup_app_mid. cbn [expect]. run_bind.
  rewrite overlaps_ok by done. run_bind. rewrite fmap_cons. unfold mark at 1. rewrite filter_cons.
  destruct (decide (overlapping min max t)) as [Hov|Hov].
  - rewrite bool_decide_eq_true_2 by (by apply Ot). rewrite start_free by auto.
    change (SortedTable.get_min (SortedTable.with_flag t true)) with (SortedTable.get_min t).
    change (SortedTable.get_max (SortedTable.with_flag t true)) with (SortedTable.get_max t).
    rewrite (ranged_min _ Rt), (ranged_max _ Rt). run_bind. rewrite insert_app_mid.
    replace (pre ++ SortedTable.with_flag t true :: rest)
      with ((pre ++ [SortedTable.with_flag t true]) ++ rest) by (by rewrite <-app_assoc).
    replace (S (length pre)) with (length (pre ++ [SortedTable.with_flag t true])) by len.
    rewrite IH; [|done|done| |done].
    + rewrite <-!app_assoc. simpl. by rewrite length_app, Nat.add_1_r.
    + apply Forall_forall. intros t' Ht'. rewrite Forall_forall in Ho, Hr.
      rewrite overlapping_hull; [by apply Ho|done|by apply Hr|by apply Ot|by apply Dt].
  - rewrite bool_decide_eq_false_2 by (by rewrite Ot). 
    replace (pre ++ t :: rest) with ((pre ++ [t]) ++ rest) by (by rewrite <-app_assoc).
    replace (S (length pre)) with (length (pre ++ [t])) by len.
    rewrite IH by done. rewrite <-!app_assoc. simpl. by rewrite length_app, Nat.add_1_r.
Qed.

Lemma with_flag_back t :
  t.(SortedTable.compaction_flag) = false →
  SortedTable.with_flag (SortedTable.with_flag t true) false = t.
Proof. destruct t; simpl. by intros ->. Qed.

(** Aborting gives back the flags that were taken. *)
Lemma abort_marked min max ts pre rest :
  Forall (λ t, overlapping min max t → t.(SortedTable.compaction_flag) = false) ts →
  Level.abort_all (pre ++ (mark min max <$> ts) ++ rest) (overlap_positions min max (length pre) ts)
    = Ok (pre ++ ts ++ rest).
Proof.
  revert pre; induction ts as [|t ts IH]; intros pre Hf; [done|].
  apply Forall_cons in Hf as [Ft Hf]. cbn [overlap_positions]. rewrite fmap_cons. unfold mark at 1.
  specialize (IH (pre ++ [t]) Hf). rewrite length_app, Nat.add_1_r, <-!app_assoc in IH.
  case_decide as Hov; [|exact IH]. cbn [app Level.abort_all].
  rewrite lookup_app_mid. cbn [expect]. run_bind. unfold SortedTable.abort_compaction.
  cbn [SortedTable.with_flag SortedTable.compaction_flag assert_that]. run_bind.
  rewrite insert_app_mid.
  change {| SortedTable.identifier := _ |} with (SortedTable.with_flag (SortedTable.with_flag t true) false).
  rewrite with_flag_back by auto. exact IH.
Qed.

Lemma overlap_positions_app min max pos ts1 ts2 :
  overlap_positions min max pos (ts1 ++ ts2) =
    overlap_positions min max pos ts1 ++ overlap_positions min max (pos + length ts1) ts2.
Proof.
  revert pos; induction ts1 as [|t ts1 IH]; intros pos; simpl; [by rewrite Nat.add_0_r|].
  rewrite IH, <-app_assoc. do 3 f_equal. lia.
Qed.

(** When an overlapping table is taken by another compaction, nothing changes. *)
Lemma overlap_loop_contended min max rest done picked m M :
  Forall ranged rest → pairwise_disjoint rest →
  Forall (λ t, overlapping m M t ↔ overlapping min max t) rest →
  picked = overlap_positions min max 0 done →
  Forall (λ t, overlapping min max t → t.(SortedTable.compaction_flag) = false) done →
  Exists (λ t, overlapping min max t ∧ t.(SortedTable.compaction_flag) = true) rest →
  Level.overlap_loop (length rest) ((mark min max <$> done) ++ rest) (length done) picked m M
    = Ok (done ++ rest, None).
Proof.
  revert done picked m M; induction rest as [|t rest IH];
    intros done picked m M Hr Hd Ho Hp Hdone Hex; [by apply Exists_nil in Hex|].
  apply Forall_cons in Hr as [Rt Hr], Ho as [Ot Ho].
  apply pairwise_disjoint_cons in Hd as [Dt Hd].
  assert (∀ m' M', Forall (λ t, overlapping m' M' t ↔ overlapping min max t) rest →
    (overlapping min max t → SortedTable.compaction_flag t = false) →
    Level.overlap_loop (length rest) ((mark min max <$> done) ++ mark min max t :: rest)
      (S (length done)) (picked ++ if decide (overlapping min max t) then [length done] else []) m' M'
      = Ok (done ++ t :: rest, None)) as Hnext.
  { intros m' M' Ho' Hfree.
    replace ((mark min max <$> done) ++ mark min max t :: rest) with
      ((mark min max <$> done ++ [t]) ++ rest) by (by rewrite fmap_app, <-app_assoc).
    replace (S (length done)) with (length (done ++ [t])) by len.
    rewrite IH; [by rewrite <-app_assoc|done..| | |].
    - rewrite Hp, overlap_positions_app. simpl. by rewrite app_nil_r.
    - apply Forall_app. split; [done|]. by apply Forall_singleton.
    - apply Exists_cons in Hex as [[? Ht]|Hex]; [|done]. by rewrite Hfree in Ht. }
  cbn [length Level.overlap_loop]. rewrite lookup_app_r by len.
  replace (length done - _) with 0 by len. cbn [lookup list_lookup expect]. run_bind.
  rewrite overlaps_ok by done. run_bind. unfold mark in Hnext at 2.
  destruct (decide (overlapping min max t)) as [Hov|Hov].
  - rewrite bool_decide_eq_true_2 by (by apply Ot).
    destruct (SortedTable.compaction_flag t) eqn:Ef.
    + unfold SortedTable.maybe_start_compaction. rewrite Ef, Hp.
      pose proof (abort_marked min max done [] (t :: rest) Hdone) as Ha. simpl in Ha.
      by rewrite Ha.
    + rewrite start_free by done.
      change (SortedTable.get_min (SortedTable.with_flag t true)) with (SortedTable.get_min t).
      change (SortedTable.get_max (SortedTable.with_flag t true)) with (SortedTable.get_max t).
      rewrite (ranged_min _ Rt), (ranged_max _ Rt). run_bind.
      rewrite insert_app_r_alt by len. replace (length done - _) with 0 by len.
      apply Hnext; [|done]. apply Forall_forall. intros t' Ht'. rewrite Forall_forall in Ho, Hr.
      rewrite overlapping_hull; [by apply Ho|done|by apply Hr|by apply Ot|by apply Dt].
  - rewrite bool_decide_eq_false_2 by (by rewrite Ot). rewrite app_nil_r in Hnext. by apply Hnext.
Qed.

Lemma omap_positions min max ts pre :
  omap (λ i, (pre ++ (mark min max <$> ts)) !! i) (overlap_positions min max (length pre) ts)
    = (λ t, SortedTable.with_flag t true) <$> filter (overlapping min max) ts.
Proof.
  revert pre; induction ts as [|t ts IH]; intros pre; [done|].
  cbn [overlap_positions]. rewrite fmap_cons, filter_cons.
  specialize (IH (pre ++ [mark min max t])). rewrite length_app, Nat.add_1_r, <-app_assoc in IH.
  unfold mark in IH at 1. unfold mark at 1. case_decide as Hov; [|exact IH].
  cbn [app omap list_omap]. rewrite lookup_app_mid. rewrite fmap_cons. f_equal. exact IH.
Qed.

Lemma positions_nil min max pos ts :
  overlap_positions min max pos ts = [] ↔ filter (overlapping min max) ts = [].
Proof.
  revert pos; induction ts as [|t ts IH]; intros pos; [done|].
  cbn [overlap_positions]. rewrite filter_cons. case_decide; [done|]. apply IH.
Qed.

Lemma Forall_filter_free min max ts :
  Forall (λ t, t.(SortedTable.compaction_flag) = false) (filter (overlapping min max) ts) →
  Forall (λ t, overlapping min max t → t.(SortedTable.compaction_flag) = false) ts.
Proof.
  rewrite !Forall_forall. intros Hf t Ht Ho. apply Hf. by apply list_elem_of_filter.
Qed.

Lemma set_tables_id l : Level.set_tables l l.(Level.tables) = l.
Proof. by destruct l. Qed.

Section overlaps.
Context `{Bloom} `{LruCache DataBlock.DataBlock}.
Context (l : Level.Level) (min max : Key) (fast_path : option N) (e : Env).
Context (Hr : Forall ranged l.(Level.tables)) (Hd : pairwise_disjoint l.(Level.tables)).

Abbreviation R := (filter (overlapping min max) l.(Level.tables)).
Abbreviation h := (hull min max R).
Abbreviation ps := l.(Level.table_placeholders).

Lemma loop_free :
  Forall (λ t, t.(SortedTable.compaction_flag) = false) R →
  Level.overlap_loop (length l.(Level.tables)) l.(Level.tables) 0 [] min max =
    Ok (mark min max <$> l.(Level.tables),
        Some (overlap_positions min max 0 l.(Level.tables), h.1, h.2)).
Proof.
  intros Hf. apply (overlap_loop_ok min max l.(Level.tables) [] [] min max); [done..| |].
  - by apply Forall_true.
  - by apply Forall_filter_free.
Qed.

Lemma get_overlaps_free id e' :
  Forall (λ t, t.(SortedTable.compaction_flag) = false) R →
  existsb (λ p, TablePlaceholder.overlaps p h.1 h.2) ps = false →
  match fast_path, R with Some id, [] => mret id | _, _ => Level.generate_table_id end e
    = Ok (id, e') →
  Level.get_overlaps l min max fast_path e =
    Ok ((Level.set_placeholders (Level.set_tables l (mark min max <$> l.(Level.tables)))
           (ps ++ [TablePlaceholder.mk h.1 h.2 id]),
         Some (id, (λ t, SortedTable.with_flag t true) <$> R)), e').
Proof.
  intros Hf Hp Hid. unfold Level.get_overlaps. run_lift (loop_free Hf). cbn beta iota. rewrite Hp.
  assert ((match fast_path, overlap_positions min max 0 (Level.tables l) with
    | Some id, [] => mret id | _, _ => Level.generate_table_id end) e = Ok (id, e')) as Hid'.
  { rewrite <-Hid. pose proof (positions_nil min max 0 (Level.tables l)) as Hn.
    destruct fast_path, (overlap_positions _ _ _ _), R; try done; naive_solver. }
  run_st Hid'. by rewrite <-(omap_positions min max (Level.tables l) []).
Qed.

Lemma get_overlaps_refused :
  Exists (λ t, t.(SortedTable.compaction_flag) = true) R ∨
  existsb (λ p, TablePlaceholder.overlaps p h.1 h.2) ps = true →
  Level.get_overlaps l min max fast_path e = Ok ((l, None), e).
Proof.
  intros Hor. unfold Level.get_overlaps.
  destruct (decide (Exists (λ t, t.(SortedTable.compaction_flag) = true) R)) as [Hex|Hnex].
  - assert (Level.overlap_loop (length l.(Level.tables)) l.(Level.tables) 0 [] min max
      = Ok (l.(Level.tables), None)) as El.
    { apply (overlap_loop_contended min max l.(Level.tables) [] [] min max); [done..| |done|done|].
      - by apply Forall_true.
      - apply Exists_exists in Hex as (t & [Ho Ht]%list_elem_of_filter & Hfl).
        apply Exists_exists. eauto. }
    run_lift El. cbn beta iota. by rewrite set_tables_id.
  - destruct Hor as [?|Hp]; [done|].
    assert (Forall (λ t, t.(SortedTable.compaction_flag) = false) R) as Hf.
    { apply not_Exists_Forall in Hnex; [|intros t; apply _]. eapply Forall_impl; [exact Hnex|].
      intros t. simpl. by apply not_true_is_false. }
    run_lift (loop_free Hf). cbn beta iota. rewrite Hp.
    pose proof (abort_marked min max l.(Level.tables) [] [] ltac:(by apply Forall_filter_free)) as Ha.
    rewrite !app_nil_r in Ha. simpl in Ha. run_lift Ha. by rewrite set_tables_id.
Qed.

End overlaps.

(** C26: at the target level of a compaction, whose tables are disjoint,
    [get_overlaps] either picks exactly the tables that overlap the range, flags
    them and reserves the hull of the range and these tables with a placeholder
    under the new table's identifier; or, when one of these tables is taken by
    another compaction or the hull overlaps a placeholder, it changes nothing.
    The identifier of the compacted table is kept when nothing overlaps it. *)
Theorem level_get_overlaps `{Bloom} `{LruCache DataBlock.DataBlock} l min max fast_path e :
  Forall ranged l.(Level.tables) → pairwise_disjoint l.(Level.tables) →
  let R := filter (overlapping min max) l.(Level.tables) in
  let h := hull min max R in
  let ps := l.(Level.table_placeholders) in
  (Forall (λ t, t.(SortedTable.compaction_flag) = false) R →
   existsb (λ p, TablePlaceholder.overlaps p h.1 h.2) ps = false →
   ∀ id e', match fast_path, R with Some id, [] => mret id | _, _ => Level.generate_table_id end e
      = Ok (id, e') →
    Level.get_overlaps l min max fast_path e =
      Ok ((Level.set_placeholders (Level.set_tables l (mark min max <$> l.(Level.tables)))
             (ps ++ [TablePlaceholder.mk h.1 h.2 id]),
           Some (id, (λ t, SortedTable.with_flag t true) <$> R)), e')) ∧
  (Exists (λ t, t.(SortedTable.compaction_flag) = true) R ∨
   existsb (λ p, TablePlaceholder.overlaps p h.1 h.2) ps = true →
   Level.get_overlaps l min max fast_path e = Ok ((l, None), e)).
Proof.
  intros Hr Hd R h ps. split.
  - intros Hf Hp id e' Hid. by apply get_overlaps_free.
  - by apply get_overlaps_refused.
Qed.

(** ** Picking tables of level 0 *)

(** The flag set at the given positions. *)
Definition flag_at (offsets : list nat) (ts : list SortedTable.SortedTable)
  : list SortedTable.SortedTable :=
  imap (λ i t, if decide (i ∈ offsets) then SortedTable.with_flag t true else t) ts.

Lemma flag_at_lookup offsets ts i :
  flag_at offsets ts !! i =
    (λ t, if decide (i ∈ offsets) then SortedTable.with_flag t true else t) <$> ts !! i.
Proof. apply list_lookup_imap. Qed.

Lemma length_flag_at offsets ts : length (flag_at offsets ts) = length ts.
Proof. apply length_imap. Qed.

Lemma flag_at_nil ts : flag_at [] ts = ts.
Proof.
  apply list_eq. intros i. rewrite flag_at_lookup. destruct (ts !! i); [|done].
  cbn [fmap option_fmap option_map]. by rewrite decide_False by set_solver.
Qed.

Lemma flag_at_snoc offsets ts i t :
  ts !! i = Some t →
  <[i := SortedTable.with_flag t true]> (flag_at offsets ts) = flag_at (offsets ++ [i]) ts.
Proof.
  intros Hi. apply list_eq. intros j. rewrite flag_at_lookup.
  destruct (decide (j = i)) as [->|Hne].
  - rewrite list_lookup_insert_eq by (rewrite length_flag_at; by eapply lookup_lt_Some).
    rewrite Hi. simpl. by rewrite decide_True by set_solver.
  - rewrite list_lookup_insert_ne, flag_at_lookup by done.
    destruct (ts !! j); [|done]. simpl. f_equal.
    destruct (decide (j ∈ offsets)), (decide (j ∈ offsets ++ [i])); set_solver.
Qed.

(** All tables at the positions were free. *)
Definition all_free (offsets : list nat) (ts : list SortedTable.SortedTable) : Prop :=
  ∀ i, i ∈ offsets → ∃ t, ts !! i = Some t ∧ t.(SortedTable.compaction_flag) = false.

Lemma abort_flagged offsets ts :
  NoDup offsets → all_free offsets ts → Level.abort_all (flag_at offsets ts) offsets = Ok ts.
Proof.
  induction offsets as [|i offsets IH]; intros Hnd Hfree; [by rewrite flag_at_nil|].
  apply NoDup_cons in Hnd as [Hni Hnd]. destruct (Hfree i) as (t & Ht & Hf); [set_solver|].
  cbn [Level.abort_all]. rewrite flag_at_lookup, Ht.
  cbn [fmap option_fmap option_map expect]. rewrite decide_True by set_solver. run_bind. unfold SortedTable.abort_compaction.
  cbn [SortedTable.with_flag SortedTable.compaction_flag assert_that]. run_bind.
  change {| SortedTable.identifier := _ |} with (SortedTable.with_flag (SortedTable.with_flag t true) false).
  rewrite with_flag_back by done.
  replace (<[i:=t]> (flag_at (i :: offsets) ts)) with (flag_at offsets ts);
    [apply IH; [done|intros j Hj; apply Hfree; set_solver]|].
  apply list_eq. intros j. destruct (decide (j = i)) as [->|Hne].
  - rewrite list_lookup_insert_eq by (rewrite length_flag_at; by eapply lookup_lt_Some).
    rewrite flag_at_lookup, Ht. simpl. by rewrite decide_False by done.
  - rewrite list_lookup_insert_ne, !flag_at_lookup by done. destruct (ts !! j); [|done].
    simpl. f_equal. destruct (decide (j ∈ offsets)), (decide (j ∈ i :: offsets)); set_solver.
Qed.

Lemma flag_at_same offsets ts i t t' :
  ts !! i = Some t → flag_at offsets ts !! i = Some t' → same_table t t'.
Proof. intros Hi. rewrite flag_at_lookup, Hi. simpl. intros [= <-]. by case_decide. Qed.

Lemma first_overlap_ok ts pos offsets min max :
  Forall ranged ts →
  ∃ r, Level.first_overlap ts pos offsets min max = Ok r ∧
    match r with
    | Some p => ∃ i t, p = pos + i ∧ ts !! i = Some t ∧ (p ∉ offsets) ∧ overlapping min max t
    | None => ∀ i t, ts !! i = Some t → pos + i ∉ offsets → ¬ overlapping min max t
    end.
Proof.
  revert pos; induction ts as [|t ts IH]; intros pos Hr; [by exists None|].
  apply Forall_cons in Hr as [Rt Hr]. destruct (IH (S pos) Hr) as (r & E & Hres).
  cbn [Level.first_overlap].
  assert ((pos ∈ offsets) ∨ ¬ overlapping min max t → ∃ r',
    Level.first_overlap ts (S pos) offsets min max = Ok r' ∧
    match r' with
    | Some p => ∃ i t0, p = pos + i ∧ (t :: ts) !! i = Some t0 ∧ (p ∉ offsets) ∧ overlapping min max t0
    | None => ∀ i t0, (t :: ts) !! i = Some t0 → pos + i ∉ offsets → ¬ overlapping min max t0
    end) as Hskip.
  { intros Hno. exists r. split; [done|]. destruct r as [p|].
    - destruct Hres as (i & t0 & -> & Hi & ? & ?). exists (S i), t0. split; [lia|done].
    - intros [|i] t0 Hi Hnin; simpl in Hi; [|apply (Hres i); [done|]; by rewrite Nat.add_succ_comm].
      simplify_eq. rewrite Nat.add_0_r in Hnin. by destruct Hno. }
  case_bool_decide as Hin; [by apply Hskip; left|].
  rewrite overlaps_ok by done. run_bind. case_bool_decide as Hov; [|by apply Hskip; right].
  exists (Some pos). split; [done|]. exists 0, t. by rewrite Nat.add_0_r.
Qed.

(** The picked positions and the range that covers the picked tables. *)
Record picked_ok (ts : list SortedTable.SortedTable) (offsets : list nat) (m M : Key) : Prop := {
  pk_nodup : NoDup offsets;
  pk_free : all_free offsets ts;
  pk_range : ∀ i t, i ∈ offsets → ts !! i = Some t → m <=k tmin t ∧ tmax t <=k M;
}.

Lemma picked_bound ts offsets m M : picked_ok ts offsets m M → length offsets <= length ts.
Proof.
  intros [Hnd Hf _]. rewrite <-(length_seq (length ts) 0).
  apply submseteq_length, NoDup_submseteq; [done|].
  intros i Hi. destruct (Hf i Hi) as (t & Ht & _). apply elem_of_seq.
  apply lookup_lt_Some in Ht. lia.
Qed.

Lemma picked_snoc ts offsets m M i t :
  picked_ok ts offsets m M → ts !! i = Some t → i ∉ offsets →
  t.(SortedTable.compaction_flag) = false →
  picked_ok ts (offsets ++ [i]) (key_min m (tmin t)) (key_max M (tmax t)).
Proof.
  intros [Hnd Hf Hrg] Hi Hnin Hfree. split.
  - apply NoDup_app. split; [done|]. split; [set_solver|apply NoDup_singleton].
  - intros j [Hj| ->%list_elem_of_singleton]%elem_of_app; [by apply Hf|eauto].
  - intros j t0 Hj Ht0.
    assert (m <=k tmin t0 ∧ tmax t0 <=k M ∨ t0 = t) as Hcase.
    { apply elem_of_app in Hj as [Hj| ->%list_elem_of_singleton]; [left; eauto|right; congruence]. }
    destruct (key_min_cases m (tmin t)) as [[? ->]|[? ->]],
      (key_max_cases M (tmax t)) as [[? ->]|[? ->]];
      (destruct Hcase as [[? ?]| ->]; split; korder).
Qed.

Lemma grow_ok ts fuel offsets m M :
  Forall ranged ts → picked_ok ts offsets m M → length ts - length offsets < fuel →
  ∃ ts' r, Level.grow fuel (flag_at offsets ts) offsets m M = Ok (ts', r) ∧
    match r with
    | Some offs => ∃ m' M', ts' = flag_at offs ts ∧ picked_ok ts offs m' M' ∧ offsets `prefix_of` offs ∧
        (∀ i t, ts !! i = Some t → i ∉ offs → ¬ overlapping m' M' t)
    | None => ts' = ts ∧ ∃ t, t ∈ ts ∧ t.(SortedTable.compaction_flag) = true
    end.
Proof.
  revert offsets m M; induction fuel as [|fuel IH]; intros offsets m M Hr Hp Hfuel; [lia|].
  assert (Forall ranged (flag_at offsets ts)) as Hr'.
  { apply Forall_lookup. intros i t'. rewrite flag_at_lookup. destruct (ts !! i) as [t|] eqn:Ei; [|done].
    intros [= <-]. eapply same_table_ranged; [|by eapply Forall_lookup_1]. by case_decide. }
  cbn [Level.grow].
  destruct (first_overlap_ok (flag_at offsets ts) 0 offsets m M Hr') as (r & E & Hres). rewrite E. run_bind.
  destruct r as [pos|].
  - destruct Hres as (i & t' & -> & Hi & Hnin & Hov). simpl in *. rewrite Hi. cbn [expect]. run_bind.
    rewrite flag_at_lookup in Hi. destruct (ts !! i) as [t|] eqn:Ei; [|done]. simpl in Hi.
    rewrite decide_False in Hi by done. simplify_eq.
    pose proof (Forall_lookup_1 _ _ _ _ Hr Ei) as Rt. pose proof Hp as [Hnd Hf Hrg].
    destruct (SortedTable.compaction_flag t') eqn:Ef.
    + unfold SortedTable.maybe_start_compaction. rewrite Ef, abort_flagged by done. run_bind.
      exists ts, None. split; [done|]. split; [done|]. exists t'. split; [by eapply list_elem_of_lookup_2|done].
    + rewrite start_free by done.
      change (SortedTable.get_min (SortedTable.with_flag t' true)) with (SortedTable.get_min t').
      change (SortedTable.get_max (SortedTable.with_flag t' true)) with (SortedTable.get_max t').
      rewrite (ranged_min _ Rt), (ranged_max _ Rt). run_bind. rewrite flag_at_snoc by done.
      assert (picked_ok ts (offsets ++ [i]) (key_min m (tmin t')) (key_max M (tmax t'))) as Hp'
        by (by apply picked_snoc).
      pose proof (picked_bound _ _ _ _ Hp') as Hb. rewrite length_app in Hb. simpl in Hb.
      destruct (IH (offsets ++ [i]) (key_min m (tmin t')) (key_max M (tmax t'))) as (ts' & r & E' & Hr'');
        [done|done|rewrite length_app; simpl; lia|].
      exists ts', r. split; [exact E'|]. destruct r as [offs|]; [|done].
      destruct Hr'' as (m' & M' & ? & ? & Hpre & ?). exists m', M'. split; [done|]. split; [done|].
      split; [|done]. etrans; [|exact Hpre]. by apply prefix_app_r.
  - exists (flag_at offsets ts), (Some offsets). split; [done|]. exists m, M. do 3 (split; [done|]).
    intros i t Hi Hnin. specialize (Hres i). rewrite flag_at_lookup, Hi in Hres. simpl in Hres.
    rewrite decide_False in Hres by done. by apply Hres.
Qed.

(** ** Starting a compaction *)

(** The sizes of the tables and the limit of the level are computed without an
    overflow (level 0 is limited by the number of its tables). *)
Definition sizes_ok (l : Level.Level) : Prop :=
  l.(Level.index) = 0%N ∨
  ∃ total limit, Level.total_size l.(Level.tables) 0 = Ok total ∧ Level.max_size l = Ok limit.

Lemma position_of_lt ts id pos : Level.position_of ts id = Some pos → pos < length ts.
Proof.
  revert pos; induction ts as [|t ts IH]; intros pos; simpl; [done|].
  case_match; [intros [= <-]; lia|]. destruct (Level.position_of ts id) as [p|]; [|done].
  intros [= <-]. specialize (IH p eq_refl). lia.
Qed.

(** Choosing a table does not touch the tables. *)
Lemma choose_table_ok l :
  sizes_ok l → ∃ l' c, Level.choose_table l = Ok (l', c) ∧
    l'.(Level.index) = l.(Level.index) ∧ l'.(Level.tables) = l.(Level.tables) ∧
    l'.(Level.table_placeholders) = l.(Level.table_placeholders) ∧
    ∀ pos, c = Some pos → pos < length l.(Level.tables).
Proof.
  intros Hs. unfold Level.choose_table.
  assert (∃ b : bool, (if (Level.index l =? 0)%N then Ok (L0_COMPACTION_TRIGGER <? length (Level.tables l))
    else total ← Level.total_size (Level.tables l) 0; limit ← Level.max_size l; Ok (limit <? total)%N)
    = Ok b ∧ (b = true → length (Level.tables l) ≠ 0)) as (b & -> & Hb).
  { destruct (_ =? 0)%N eqn:E0; bool_to_prop.
    - eexists. split; [done|]. intros Hlt. bool_to_prop. unfold L0_COMPACTION_TRIGGER in Hlt. lia.
    - destruct Hs as [?|(total & limit & E1 & E2)]; [done|]. rewrite E1, E2. run_bind.
      eexists. split; [done|]. intros Hlt. bool_to_prop. intros Hn.
      destruct (Level.tables l); [|done]. injection E1 as <-. lia. }
  run_bind. destruct b.
  - rewrite (proj2 (Nat.eqb_neq _ _)) by auto. do 2 eexists. split; [done|].
    do 3 (split; [done|]). intros pos [= <-]. specialize (Hb eq_refl).
    destruct (_ <=? _) eqn:E; bool_to_prop; lia.
  - destruct (_ =? INVALID_TABLE_ID)%N; [by do 2 eexists|].
    destruct (Level.position_of _ _) as [p|] eqn:E; [|by do 2 eexists].
    do 2 eexists. split; [done|]. do 3 (split; [done|]). intros pos [= <-]. by eapply position_of_lt.
Qed.

(** What [maybe_start_compaction] does on every branch. *)
Lemma start_compaction_ok l :
  Forall ranged l.(Level.tables) → sizes_ok l →
  ∃ l' r, Level.maybe_start_compaction l = Ok (l', r) ∧
    l'.(Level.index) = l.(Level.index) ∧
    l'.(Level.table_placeholders) = l.(Level.table_placeholders) ∧
    match r with
    | NothingToStart => l'.(Level.tables) = l.(Level.tables)
    | Contended => l'.(Level.tables) = l.(Level.tables) ∧
        ∃ t, t ∈ l.(Level.tables) ∧ t.(SortedTable.compaction_flag) = true
    | Started R => ∃ offs m M, offs ≠ [] ∧ l'.(Level.tables) = flag_at offs l.(Level.tables) ∧
        R = omap (λ i, flag_at offs l.(Level.tables) !! i) offs ∧
        picked_ok l.(Level.tables) offs m M ∧
        if (l.(Level.index) =? 0)%N
        then ∀ i t, l.(Level.tables) !! i = Some t → i ∉ offs → ¬ overlapping m M t
        else length offs = 1
    end.
Proof.
  intros Hr Hs. unfold Level.maybe_start_compaction.
  destruct (choose_table_ok l Hs) as (l1 & c & -> & Hi & Ht & Hp & Hc). run_bind. rewrite Ht.
  destruct c as [pos|]; [|by do 2 eexists]. specialize (Hc pos eq_refl).
  destruct (lookup_lt_is_Some_2 _ _ Hc) as [t Et]. rewrite Et. cbn [expect]. run_bind.
  pose proof (Forall_lookup_1 _ _ _ _ Hr Et) as Rt.
  destruct (SortedTable.compaction_flag t) eqn:Ef.
  { unfold SortedTable.maybe_start_compaction. rewrite Ef. do 2 eexists. split; [done|].
    do 2 (split; [done|]). split; [done|]. exists t. split; [by eapply list_elem_of_lookup_2|done]. }
  rewrite start_free by done.
  assert (<[pos := SortedTable.with_flag t true]> (Level.tables l) = flag_at [pos] (Level.tables l))
    as -> by (rewrite <-(flag_at_nil (Level.tables l)) at 1; by apply (flag_at_snoc [])).
  assert (picked_ok (Level.tables l) [pos] (tmin t) (tmax t)) as Hpk.
  { split; [apply NoDup_singleton|intros i ->%list_elem_of_singleton; eauto|].
    intros i t' ->%list_elem_of_singleton Ht'. simplify_eq. split; apply kle_refl. }
  rewrite Hi. destruct (_ =? 0)%N eqn:E0.
  - change (SortedTable.get_min (SortedTable.with_flag t true)) with (SortedTable.get_min t).
    change (SortedTable.get_max (SortedTable.with_flag t true)) with (SortedTable.get_max t).
    rewrite (ranged_min _ Rt), (ranged_max _ Rt). run_bind. rewrite length_flag_at.
    destruct (grow_ok (Level.tables l) (S (length (Level.tables l))) [pos] (tmin t) (tmax t))
      as (ts' & r & E & Hres); [done|done|simpl; lia|].
    rewrite E. run_bind. destruct r as [offs|].
    + destruct Hres as (m & M & -> & Hpk' & Hpre & Hcl). do 2 eexists. split; [done|].
      do 2 (split; [done|]). exists offs, m, M. split; [|by split_and!].
      intros ->. by apply prefix_nil_inv in Hpre.
    + destruct Hres as [-> Hex]. do 2 eexists. split; [done|]. by do 2 (split; [done|]).
  - do 2 eexists. split; [done|]. do 2 (split; [done|]). exists [pos], (tmin t), (tmax t).
    split; [done|]. split; [done|]. split; [|done]. cbn [omap list_omap].
    rewrite flag_at_lookup, Et. cbn [fmap option_fmap option_map]. by rewrite decide_True by set_solver.
Qed.

(** C25: [maybe_start_compaction] never panics and takes only what it returns: it
    flags exactly the tables it returns, which were all free, or it leaves every
    flag as it was, and it reports contention only when a table is taken.  On
    level 0 no table that was left out overlaps the range of the picked ones; on
    the other levels one table is picked. *)
Theorem level_start_compaction l :
  Forall ranged l.(Level.tables) → sizes_ok l →
  ∃ l' r, Level.maybe_start_compaction l = Ok (l', r) ∧
    l'.(Level.index) = l.(Level.index) ∧
    l'.(Level.table_placeholders) = l.(Level.table_placeholders) ∧
    match r with
    | NothingToStart => l'.(Level.tables) = l.(Level.tables)
    | Contended => l'.(Level.tables) = l.(Level.tables) ∧
        ∃ t, t ∈ l.(Level.tables) ∧ t.(SortedTable.compaction_flag) = true
    | Started R => ∃ offs m M, offs ≠ [] ∧ l'.(Level.tables) = flag_at offs l.(Level.tables) ∧
        R = omap (λ i, flag_at offs l.(Level.tables) !! i) offs ∧
        picked_ok l.(Level.tables) offs m M ∧
        if (l.(Level.index) =? 0)%N
        then ∀ i t, l.(Level.tables) !! i = Some t → i ∉ offs → ¬ overlapping m M t
        else length offs = 1
    end.
Proof. apply start_compaction_ok. Qed.

(** ** Lookup *)

(** The same table, up to its seek counter. *)
Definition same_but_seeks (t t' : SortedTable.SortedTable) : Prop :=
  same_table t t' ∧ t'.(SortedTable.compaction_flag) = t.(SortedTable.compaction_flag).

#[export] Instance same_but_seeks_preorder : PreOrder same_but_seeks.
Proof.
  split; [by intros t|]. intros t1 t2 t3 [H1 H2] [H3 H4]. split; [by etrans|congruence].
Qed.

(** The same level, up to the seek counters and what they trigger. *)
Record same_level (l l' : Level.Level) : Prop := {
  sl_index : l'.(Level.index) = l.(Level.index);
  sl_placeholders : l'.(Level.table_placeholders) = l.(Level.table_placeholders);
  sl_tables : Forall2 same_but_seeks l.(Level.tables) l'.(Level.tables);
}.

#[export] Instance same_level_preorder : PreOrder same_level.
Proof.
  split.
  - intros l. split; [done..|]. apply Forall_Forall2_diag, Forall_true. by intros t.
  - intros l1 l2 l3 [H1 H2 H3] [H4 H5 H6]. split; [congruence..|].
    by etrans.
Qed.

Lemma same_table_ok `{Bloom} `{Compression} params interval d t t' bs :
  same_table t t' → table_ok params interval d t bs → table_ok params interval d t' bs.
Proof. intros [_ Hi] [H1 H2 H3 H4]. split; [|done..]. by rewrite Hi. Qed.

(** A table on disk has a proper range. *)
Lemma table_ok_ranged `{Bloom} `{Compression} params interval d t bs :
  table_ok params interval d t bs → ranged t.
Proof.
  intros Ht. pose proof (flat_nonempty _ _ _ _ _ Ht) as Hne. pose proof (to_sorted _ _ _ _ _ Ht) as Hs.
  destruct (to_index _ _ _ _ _ Ht) as (size & min & max & Hix & Hmin & Hmax).
  assert (SortedTable.get_min t = Ok min) as Emin by (by eapply index_get_min).
  assert (SortedTable.get_max t = Ok max) as Emax by (by eapply index_get_max).
  assert (tmin t = min) as E1 by (unfold tmin; by rewrite Emin).
  assert (tmax t = max) as E2 by (unfold tmax; by rewrite Emax).
  split; [by rewrite E1|by rewrite E2|]. rewrite E1, E2.
  destruct (flat bs) as [|e0 l] eqn:Ef; [done|]. rewrite (Hmin e0) by done.
  destruct (table_range params interval d t bs size min max e0 Ht) as [_ ?];
    [by rewrite Ef..|done|rewrite Ef; set_solver|done].
Qed.

(** The entry for [key] of the newest table, the one at the highest position,
    that has the key. *)
Definition newest_at (bss : list Blocks) (n : nat) (key : Key) (r : option BEntry) : Prop :=
  match r with
  | Some be => ∃ i bs, i < n ∧ bss !! i = Some bs ∧ be ∈ flat bs ∧ be.(be_key) = key ∧
      ∀ j bs', i < j → j < n → bss !! j = Some bs' → key ∉ be_key <$> flat bs'
  | None => ∀ j bs', j < n → bss !! j = Some bs' → key ∉ be_key <$> flat bs'
  end.

Section lookup.
Context `{Bloom} `{Compression} `{LruLaws DataBlock.DataBlock}.
Context (params : Params.Params) (interval : nat).

(** The tables of the level are on disk, with these contents. *)
Definition level_holds_blocks (d : Disk) (l : Level.Level) (bss : list Blocks) : Prop :=
  Forall2 (table_ok params interval d) l.(Level.tables) bss.

Lemma same_level_holds d l l' bss :
  same_level l l' → level_holds_blocks d l bss → level_holds_blocks d l' bss.
Proof.
  intros [_ _ Ht]. unfold level_holds_blocks. revert Ht. generalize (Level.tables l), (Level.tables l').
  intros ts ts' Hs. revert bss. induction Hs as [|t t' ts ts' [Hst _] _ IH]; intros bss Hb.
  - by inversion Hb.
  - inversion Hb; subst. constructor; [by eapply same_table_ok|by apply IH].
Qed.

Lemma get_loop_ok n l key trig bss e :
  n <= length l.(Level.tables) → cache_ok params e → level_holds_blocks e.(env_disk) l bss →
  ∃ l' trig' r e', Level.get_loop params n l key trig e = Ok ((l', (trig', r)), e') ∧
    reads params e e' ∧ same_level l l' ∧
    ∃ be, newest_at bss n key be ∧
      match be, r with
      | Some be, Some en => entry_reads en (be_entry be)
      | None, None => True
      | _, _ => False
      end.
Proof.
  revert l trig e; induction n as [|n IH]; intros l trig e Hn Hc Hb.
  { do 4 eexists. split; [done|]. split; [done|]. split; [done|]. exists None. split; [|done].
    intros j bs' Hj; lia. }
  destruct (lookup_lt_is_Some_2 l.(Level.tables) n) as [t Et]; [lia|].
  destruct (Forall2_lookup_l _ _ _ _ _ Hb Et) as (bs & Ebs & Ht).
  cbn [Level.get_loop].
  assert (expect (Level.tables l !! n) "index out of bounds" = Ok t) as E0 by (by rewrite Et).
  run_lift E0. destruct (table_get_ok params interval e t bs key Hc Ht) as (r & e1 & E1 & R1 & Hr).
  run_st E1. cbn beta iota zeta.
  match goal with |- context [if ?c then Level.set_seek ?x ?y else ?x] =>
    set (l1 := if c then Level.set_seek x y else x) end.
  match goal with |- context [trig || ?b] => set (trig1 := trig || b) end.
  assert (same_level l l1) as Hs1.
  { assert (Forall2 same_but_seeks (Level.tables l)
      (<[n:=SortedTable.count_seek t]> (Level.tables l))) as Hf.
    { rewrite <-(list_insert_id (Level.tables l) n t Et) at 1. apply Forall2_insert; [|done].
      apply Forall_Forall2_diag, Forall_true. by intros ?. }
    subst l1. by destruct (_ && _ && _). }
  destruct r as [en|].
  - destruct Hr as (be & Hbe & Hk & Hrd). do 4 eexists. split; [done|]. split; [done|]. split; [done|].
    exists (Some be). split; [|done]. exists n, bs. do 4 (split; [done || lia|]). intros j bs' ? ?; lia.
  - pose proof R1 as (Hd1 & _ & Hc1).
    destruct (IH l1 trig1 e1) as (l' & trig' & r & e' & E2 & R2 & Hs2 & be & Hbe & Hr2).
    + rewrite <-(Forall2_length _ _ _ (sl_tables _ _ Hs1)). lia.
    + auto.
    + rewrite Hd1. by eapply same_level_holds.
    + exists l', trig', r, e'. split; [done|]. split; [by etrans|]. split; [by etrans|].
      exists be. split; [|done]. destruct be as [be|]; simpl in Hbe |- *.
      * destruct Hbe as (i & bs0 & Hi & Ha & Hb' & Hk & Hnew). exists i, bs0. do 4 (split; [done || lia|]).
        intros j bs' Hij Hj Hbs'. destruct (decide (j = n)) as [->|]; [by simplify_eq|].
        apply (Hnew j); [done|lia|done].
      * intros j bs' Hj Hbs'. destruct (decide (j = n)) as [->|]; [by simplify_eq|].
        apply (Hbe j); [lia|done].
Qed.

End lookup.

(** Looking a key up in a level returns the entry of its newest table that
    has the key (tables at higher positions are newer), or nothing when no table
    has it; it only counts seeks, and changes neither files nor flags. *)
Theorem level_get_newest `{Bloom} `{Compression} `{LruLaws DataBlock.DataBlock}
    params interval l key bss e :
  cache_ok params e → level_holds_blocks params interval e.(env_disk) l bss →
  ∃ l' trig r e', Level.get params l key e = Ok ((l', (trig, r)), e') ∧
    e'.(env_disk) = e.(env_disk) ∧ cache_ok params e' ∧ same_level l l' ∧
    ∃ be, newest_at bss (length bss) key be ∧
      match be, r with
      | Some be, Some en => entry_reads en (be_entry be)
      | None, None => True
      | _, _ => False
      end.
Proof.
  intros Hc Hb. destruct (get_loop_ok params interval (length l.(Level.tables)) l key false bss e)
    as (l' & trig & r & e' & E & (Hd & _ & Hc') & Hs & be & Hbe & Hr); [done..|].
  exists l', trig, r, e'. split; [exact E|]. split; [done|]. split; [auto|]. split; [done|].
  exists be. by rewrite <-(Forall2_length _ _ _ Hb).
Qed.

(** ** Witnesses *)

Section witnesses.
Import Concrete.

(** A level with the sample table. *)
Definition sample_level (index : N) : Level.Level :=
  Level.set_tables (Level.new sample_block_params index) [sample_table_env.1].

(** What is known of the sample table. *)
Lemma sample_table_known :
  ∃ bs, table_in sample_block_params 2 sample_table_env.1 bs sample_table_env.2 ∧
    SortedTable.compaction_flag sample_table_env.1 = false ∧
    ∃ id e', Level.generate_table_id sample_table_env.2 = Ok (id, e').
Proof.
  destruct (build_table_ok sample_block_params 2 ltac:(done) ltac:(lia) ltac:(done) sample_meta
    [[7%N]] empty_env 8 [x61] [x63] sample_table_entries 3 I empty_env_ok sample_manifest_holds)
    as (t & e1 & bs & nb' & E & Ht & Hfl & _ & Hflag & Hc1 & Hm & _).
  - by apply sample_table_fits.
  - by intros x [= <-].
  - by intros x [= <-].
  - exists bs. unfold sample_table_env. rewrite E. cbn [fst snd]. split; [split; [exact Hc1|exact Ht]|].
    split; [exact Hflag|]. unfold Level.generate_table_id.
    destruct (generate_table_id_holds _ _ _ Hm) as (m' & -> & _); [vm_compute; reflexivity|].
    eexists _, _. reflexivity.
Qed.

Lemma sample_level_ranged index : Forall ranged (Level.tables (sample_level index)).
Proof.
  destruct sample_table_known as (bs & [_ Ht] & _). apply Forall_singleton. by eapply table_ok_ranged.
Qed.

Lemma sample_level_disjoint index : pairwise_disjoint (Level.tables (sample_level index)).
Proof. apply pairwise_disjoint_cons. split; [set_solver|]. by intros i j t1 t2 Hi. Qed.

Lemma level_get_overlaps_witness :
  ∃ r, Level.get_overlaps (sample_level 1) [x61] [x62] None sample_table_env.2 = Ok r.
Proof.
  destruct sample_table_known as (bs & _ & Hflag & id & e' & Hid).
  eexists. apply (level_get_overlaps (sample_level 1) [x61] [x62] None sample_table_env.2)
    with (id := id) (e' := e');
    [apply sample_level_ranged|apply sample_level_disjoint| |reflexivity|exact Hid].
  apply Forall_forall. intros t [_ ->%list_elem_of_singleton]%list_elem_of_filter. exact Hflag.
Defined.

Lemma level_start_compaction_witness :
  ∃ l' r, Level.maybe_start_compaction (sample_level 1) = Ok (l', r) ∧ l'.(Level.index) = 1%N.
Proof.
  destruct (level_start_compaction (sample_level 1)) as (l' & r & E & Hi & _).
  - apply sample_level_ranged.
  - right. eexists _, _. split; vm_compute; reflexivity.
  - exists l', r. split; [exact E|exact Hi].
Defined.

Lemma level_get_newest_witness :
  ∃ l' trig r e', Level.get sample_block_params (sample_level 0) [x62] sample_table_env.2
    = Ok ((l', (trig, r)), e') ∧ same_level (sample_level 0) l'.
Proof.
  destruct sample_table_in as (bs & [Hc Ht] & Hfl).
  destruct (level_get_newest sample_block_params 2 (sample_level 0) [x62] [bs] sample_table_env.2 Hc)
    as (l' & trig & r & e' & E & _ & _ & Hs & _).
  - constructor; [exact Ht|constructor].
  - exists l', trig, r, e'. split; [exact E|exact Hs].
Defined.

End witnesses.
