(* ===== verification/Compaction.v ===== *)
(** * Merging tables (the loop of [DbLogic::compact_level], src/src/logic.rs)

    A compaction walks over the tables to merge in key order and adds, for every
    key, the entry with the highest sequence number to the new table.  The loop
    reads the old blocks and writes the new ones; the theorem shows that the new
    table holds the newest entry of every key, deletions included. *)

From stdpp Require Import base list gmap strings sorting.
From Stdlib Require Import Strings.Byte NArith ZArith Lia.
From S2P Require Import Prelude WriteBatch Iterator Memtable Disk Manifest DataBlock DataBlocks IndexBlock SortedTable TableIterator Iterate DbIterator.

Local Open Scope nat_scope.
Local Open Scope lsm_scope.

Module Compaction.

Section ops.
Context `{Bloom} `{Compression} `{LruCache DataBlock.DataBlock}.
Context (params : Params.Params).

#[local] Instance table_iter : InternalIterator Env _ _ := TableIterator_iterator params.

(** The first loop over the iterators: every one is advanced beyond the last
    key, and the smallest key is determined. *)
Fixpoint advance_all (fuel : nat) (its : list TableIterator.TableIterator) (last_key : option Key)
    (min_key : option Key) : st Env (list TableIterator.TableIterator * option Key) :=
  match its with
  | [] => mret ([], min_key)
  | it :: its' =>
      it ← match last_key with
           | Some last_key => DbIteratorInner.step_while fuel (λ k, key_leb k last_key) it
           | None => mret it
           end;
      e ← lift (TableIterator.at_end it);
      let min_key :=
        if (e : bool) then min_key else
        match min_key with
        | Some key => if key_ltb it.(TableIterator.key) key then Some it.(TableIterator.key)
                      else min_key
        | None => Some it.(TableIterator.key)
        end in
      '(its', min_key) ← advance_all fuel its' last_key min_key;
      mret (it :: its', min_key)
  end.

(** The second loop: the iterator at [min_key] with the most recent entry. *)
Fixpoint pick_newest (its : list TableIterator.TableIterator) (min_key : Key)
    (min_iter : option TableIterator.TableIterator) : outcome (option TableIterator.TableIterator) :=
  match its with
  | [] => Ok min_iter
  | it :: its' =>
      e ← TableIterator.at_end it;
      if (e : bool) then pick_newest its' min_key min_iter else
      if decide (it.(TableIterator.key) ≠ min_key) then pick_newest its' min_key min_iter else
      match min_iter with
      | Some other_iter =>
          seq ← TableIterator.get_seq_number it;
          other ← TableIterator.get_seq_number other_iter;
          pick_newest its' min_key (if (other <? seq)%N then Some it else Some other_iter)
      | None => pick_newest its' min_key (Some it)
      end
  end.

(** Adding the entry the iterator shows to the new table. *)
Definition add_current (tb : TableBuilder.TableBuilder) (min_key : Key)
    (it : TableIterator.TableIterator) : st Env TableBuilder.TableBuilder :=
  ty ← lift (TableIterator.get_entry_type it);
  seq ← lift (TableIterator.get_seq_number it);
  match ty with
  | TPut =>
      entry ← lift (TableIterator.get_entry it);
      entry ← lift (expect entry "called `Option::unwrap()` on a `None` value");
      value ← lift (EntryRef.get_value (EntryRef.SortedTable entry));
      TableBuilder.add_value params tb min_key seq value
  | TDelete => TableBuilder.add_deletion params tb min_key seq
  end.

(** The [loop] of [compact_level]; [rounds] bounds the number of keys. *)
Fixpoint merge_loop (rounds fuel : nat) (its : list TableIterator.TableIterator)
    (last_key : option Key) (tb : TableBuilder.TableBuilder) : st Env TableBuilder.TableBuilder :=
  match rounds with
  | O => lift OutOfFuel
  | S rounds' =>
      '(its, min_key) ← advance_all fuel its last_key None;
      match min_key with
      | None => mret tb
      | Some min_key =>
          min_iter ← lift (pick_newest its min_key None);
          min_iter ← lift (expect min_iter "called `Option::unwrap()` on a `None` value");
          tb ← add_current tb min_key min_iter;
          merge_loop rounds' fuel its (Some min_key) tb
      end
  end.

(** From creating the iterators to finishing the new table. *)
Definition merge_tables (rounds fuel : nat) (id : N) (min_key max_key : Key)
    (ts : list SortedTable.SortedTable) : st Env SortedTable.SortedTable :=
  its ← open_tables params false ts;
  tb ← lift (TableBuilder.new id min_key max_key);
  tb ← merge_loop rounds fuel its None tb;
  TableBuilder.finish params tb.

End ops.

End Compaction.

(** ** Specification *)

(** The entry the compaction writes for an item. *)
Definition item_entry (x : Item) : Entry := {|
  en_key := item_key x;
  en_seq := item_seq x;
  en_op := match item_type x with TPut => WriteOp.PUT_OP | TDelete => WriteOp.DELETE_OP end;
  en_value := match item_shown x with Some (Some v) => v | _ => [] end;
|}.

(** The items of tables: values are shown, deletions are not. *)
Definition table_like (x : Item) : Prop :=
  match item_type x with TPut => ∃ v, item_shown x = Some (Some v) | TDelete => item_shown x = None end.

Lemma table_item_like e : table_like (table_item e).
Proof. unfold table_like, table_item. simpl. destruct (en_type e); eauto. Qed.

(** The sum of a measure over the items that are left. *)
Definition mass (f : Item → nat) (last : option Key) (Ls : list (list Item)) : nat :=
  sum_list_with (λ L, sum_list_with f (ahead false None last L)) Ls.

Lemma sum_filter_le {A} (f : A → nat) (P : A → Prop) `{!∀ x, Decision (P x)} l :
  sum_list_with f (filter P l) <= sum_list_with f l.
Proof. induction l as [|x l IH]; [done|]. rewrite filter_cons. case_decide; simpl; lia. Qed.

Lemma sum_filter_drop {A} (f : A → nat) (P : A → Prop) `{!∀ x, Decision (P x)} l x :
  x ∈ l → ¬ P x → sum_list_with f (filter P l) + f x <= sum_list_with f l.
Proof.
  induction 1 as [x l|x y l _ IH]; intros HP; rewrite filter_cons.
  - rewrite decide_False by done. pose proof (sum_filter_le f P l). simpl. lia.
  - specialize (IH HP). case_decide; simpl; lia.
Qed.

Lemma mass_le f last k Ls :
  in_range false None None last k → mass f (Some k) Ls <= mass f last Ls.
Proof.
  intros Hk. unfold mass. induction Ls as [|L Ls IH]; [done|]. cbn [sum_list_with].
  rewrite <-(ahead_mono false None None last k L Hk).
  pose proof (sum_filter_le f (λ x, passed false None (Some k) (item_key x) = false)
    (ahead false None last L)). unfold ahead at 1. lia.
Qed.

Lemma mass_lt f last x L Ls :
  L ∈ Ls → x ∈ L → in_range false None None last (item_key x) →
  mass f (Some (item_key x)) Ls + f x <= mass f last Ls.
Proof.
  intros HL Hx Hk. apply list_elem_of_split in HL as (Ls1 & Ls2 & ->).
  pose proof (mass_le f last _ Ls1 Hk). pose proof (mass_le f last _ Ls2 Hk).
  unfold mass in *. rewrite !sum_list_with_app. cbn [sum_list_with].
  rewrite <-(ahead_mono false None None last _ L Hk).
  pose proof (sum_filter_drop f (λ y, passed false None (Some (item_key x)) (item_key y) = false)
    (ahead false None last L) x) as Hd.
  change (filter _ (ahead false None last L))
    with (ahead false None (Some (item_key x)) (ahead false None last L)) in Hd.
  specialize (Hd ltac:(by apply in_ahead; destruct Hk)).
  specialize (Hd ltac:(cbn beta; by rewrite passed_self)). lia.
Qed.

(** The smallest key among the first items. *)
Definition least (heads : list (option Item)) (k : option Key) : Prop :=
  match k with
  | None => ∀ x, Some x ∉ heads
  | Some k => (∃ x, Some x ∈ heads ∧ item_key x = k) ∧ ∀ x, Some x ∈ heads → k <=k item_key x
  end.

Lemma least_snoc heads k h :
  least heads k →
  least (heads ++ [h])
    (match h with
     | None => k
     | Some x => match k with
                 | Some k => if key_ltb (item_key x) k then Some (item_key x) else Some k
                 | None => Some (item_key x)
                 end
     end).
Proof.
  intros Hl. destruct h as [x|].
  - destruct k as [k|]; [destruct Hl as [(y & Hy & Hyk) Hmin]; destruct (key_ltb _ _) eqn:E|].
    + apply key_ltb_lt in E. split; [exists x; set_solver|].
      intros z [Hz|[= ->]%list_elem_of_singleton]%elem_of_app; [|apply kle_refl].
      specialize (Hmin z Hz). korder.
    + apply key_ltb_ge in E. split; [exists y; set_solver|].
      intros z [Hz|[= ->]%list_elem_of_singleton]%elem_of_app; [by apply Hmin|done].
    + split; [exists x; set_solver|].
      intros z [Hz|[= ->]%list_elem_of_singleton]%elem_of_app; [by destruct (Hl z)|apply kle_refl].
  - destruct k as [k|]; simpl in *.
    + destruct Hl as [(y & Hy & Hyk) Hmin]. split; [exists y; set_solver|].
      intros z [Hz|?%list_elem_of_singleton]%elem_of_app; [by apply Hmin|done].
    + intros z [Hz|?%list_elem_of_singleton]%elem_of_app; [by apply (Hl z)|done].
Qed.

Section merge.
Context `{Bloom} `{Compression} `{LruLaws DataBlock.DataBlock}.
Context (params : Params.Params) (interval : nat).
Context (tbs : list (SortedTable.SortedTable * Blocks)).

#[local] Instance table_iter' : InternalIterator Env _ _ := TableIterator_iterator params.

Abbreviation Inv := (tables_in params interval tbs).
Abbreviation enum := (enumerates Inv (reads params)).
Abbreviation inv_reads := (tables_in_reads params interval tbs).

(** The heads of what is left of the lists. *)
Definition heads (last : option Key) (Ls : list (list Item)) : list (option Item) :=
  (λ L, head (ahead false None last L)) <$> Ls.

Lemma advance_all_ok fuel its Ls last hs k e :
  Forall2 (tracks Inv (reads params) false None last) its Ls →
  Forall (λ L, length L < fuel) Ls → Inv e → least hs k →
  ∃ its' k' e', Compaction.advance_all params fuel its last k e = Ok ((its', k'), e') ∧
    reads params e e' ∧ Forall2 (λ it L, enum it (ahead false None last L)) its' Ls ∧
    least (hs ++ heads last Ls) k'.
Proof.
  intros Ht. revert hs k e; induction Ht as [|it L its Ls Htr _ IH]; intros hs k e Hf Hinv Hl.
  { exists [], k, e. rewrite app_nil_r. by split_and!. }
  apply Forall_cons in Hf as [Hfl Hf]. destruct Htr as (L' & He & Hs & Hlen & Hah).
  destruct (skip_spec Inv (reads params) inv_reads false fuel last it L' e He Hs ltac:(lia) Hinv)
    as (it1 & e1 & E1 & R1 & He1).
  assert (filter (λ x, match last with Some l => before_eq_b false (item_key x) l | None => false end
    = false) L' = ahead false None last L) as Ea.
  { rewrite <-Hah. unfold ahead. apply list_filter_iff. intros x. unfold passed. by rewrite orb_false_r. }
  rewrite Ea in He1. cbn [Compaction.advance_all]. run_st E1.
  pose proof (enumerates_at_end _ _ _ _ He1) as Hend. simpl in Hend. run_lift Hend.
  match goal with |- context [Compaction.advance_all params fuel its last ?x] => set (k1 := x) end.
  assert (least (hs ++ [head (ahead false None last L)]) k1) as Hl1.
  { pose proof (least_snoc hs k (head (ahead false None last L)) Hl) as Hl1. subst k1.
    destruct (ahead false None last L) as [|x L2]; [exact Hl1|].
    destruct He1 as [(_ & Hk & _) _]. simpl in Hk. injection Hk as Hk. rewrite Hk. simpl in Hl1.
    destruct k as [k0|]; [|exact Hl1]. by destruct (key_ltb _ k0). }
  destruct (IH (hs ++ [head (ahead false None last L)]) k1 e1 Hf) as (its' & k' & e' & E2 & R2 & He2 & Hl2);
    [by eapply tables_in_reads|done|].
  exists (it1 :: its'), k', e'. run_st E2. split; [done|]. split; [by etrans|].
  split; [by constructor|]. unfold heads. rewrite fmap_cons. by rewrite <-app_assoc in Hl2.
Qed.

(** The iterator stands on the item [x] with key [k]. *)
Definition stands_on (k : Key) (it : option TableIterator.TableIterator) (x : option Item) : Prop :=
  match it, x with
  | Some it, Some x => (∃ L, enum it (x :: L)) ∧ item_key x = k
  | None, None => True
  | _, _ => False
  end.

(** [bx'] is the newest of [bx] and of the heads with key [k]. *)
Definition newest_head (k : Key) (hs : list (option Item)) (bx bx' : option Item) : Prop :=
  (∀ x, bx' = Some x → bx = Some x ∨ Some x ∈ hs) ∧
  (∀ y, bx = Some y ∨ Some y ∈ hs ∧ item_key y = k →
     ∃ x, bx' = Some x ∧ (item_seq y <= item_seq x)%N).

Lemma newest_head_nil k bx : newest_head k [] bx bx.
Proof.
  split; [by left|]. intros y [->|[?%not_elem_of_nil _]]; [by exists y|done].
Qed.

Lemma newest_head_skip k h bx : (∀ x, h = Some x → item_key x ≠ k) → newest_head k [h] bx bx.
Proof.
  intros Hh. split; [by left|]. intros y [->|[Hy%list_elem_of_singleton ?]]; [by exists y|].
  by destruct (Hh y).
Qed.

Lemma newest_head_cons k h hs bx bx1 bx' :
  newest_head k [h] bx bx1 → newest_head k hs bx1 bx' → newest_head k (h :: hs) bx bx'.
Proof.
  intros [Hfrom Hmax] [Hf' Hm']. split.
  - intros x Hx. destruct (Hf' x Hx) as [Hx1|Hx1]; [|right; set_solver].
    destruct (Hfrom x Hx1) as [?|?]; [by left|right; set_solver].
  - assert (∀ y, bx = Some y ∨ Some y ∈ [h] ∧ item_key y = k →
      ∃ x, bx' = Some x ∧ (item_seq y <= item_seq x)%N) as Hone.
    { intros y Hy. destruct (Hmax y Hy) as (x1 & Hx1 & ?).
      destruct (Hm' x1 (or_introl Hx1)) as (x & Hx & ?). exists x. split; [done|lia]. }
    intros y [Hy|[[Hy|Hy]%elem_of_cons Hk]]; [apply Hone; by left| |apply Hm'; by right].
    apply Hone. right. split; [set_solver|done].
Qed.

Lemma pick_newest_ok its Ls last k best bx :
  Forall2 (λ it L, enum it (ahead false None last L)) its Ls → stands_on k best bx →
  ∃ best' bx', Compaction.pick_newest its k best = Ok best' ∧ stands_on k best' bx' ∧
    newest_head k (heads last Ls) bx bx'.
Proof.
  intros He. revert best bx; induction He as [|it L its Ls Hit _ IH]; intros best bx Hb.
  { exists best, bx. split; [done|]. split; [done|]. apply newest_head_nil. }
  cbn [Compaction.pick_newest]. pose proof (enumerates_at_end _ _ _ _ Hit) as Hend. simpl in Hend.
  rewrite Hend. run_bind. unfold heads. rewrite fmap_cons. fold (heads last Ls).
  assert (∀ best1 bx1, stands_on k best1 bx1 →
    newest_head k [head (ahead false None last L)] bx bx1 →
    ∃ best' bx', Compaction.pick_newest its k best1 = Ok best' ∧ stands_on k best' bx' ∧
      newest_head k (head (ahead false None last L) :: heads last Ls) bx bx') as Hgo.
  { intros best1 bx1 Hb1 Hn. destruct (IH best1 bx1 Hb1) as (best' & bx' & E & Hs & Hn').
    exists best', bx'. split; [done|]. split; [done|]. by eapply newest_head_cons. }
  destruct (ahead false None last L) as [|x L2] eqn:Ea; simpl in Hgo |- *.
  { apply (Hgo best bx Hb). by apply newest_head_skip. }
  pose proof Hit as [(_ & Hk & Hseq & _) _]. simpl in Hk, Hseq. injection Hk as Hk. rewrite Hk.
  case_decide as Hne.
  { apply (Hgo best bx Hb). apply newest_head_skip. by intros ? [= <-]. }
  destruct best as [it0|], bx as [x0|]; simpl in Hb; try done.
  - destruct Hb as [(L0 & Hit0) Hk0]. pose proof Hit0 as [(_ & _ & Hseq0 & _) _]. simpl in Hseq0.
    rewrite Hseq, Hseq0. run_bind. destruct (_ <? _)%N eqn:Elt; bool_to_prop.
    + apply (Hgo (Some it) (Some x)); [split; [by eexists|done]|]. split; [set_solver|].
      intros y [[= ->]|[[= ->]%list_elem_of_singleton _]]; eexists; (split; [done|lia]).
    + apply (Hgo (Some it0) (Some x0)); [split; [by eexists|done]|]. split; [by left|].
      intros y [[= ->]|[[= ->]%list_elem_of_singleton _]]; eexists; (split; [done|lia]).
  - apply (Hgo (Some it) (Some x)); [split; [by eexists|done]|]. split; [set_solver|].
    intros y [?|[[= ->]%list_elem_of_singleton _]]; [done|]. by eexists.
Qed.

Lemma candidate_head last L : candidate false None None last L = head (ahead false None last L).
Proof. unfold candidate. by destruct (ahead false None last L). Qed.

Lemma heads_lookup last Ls j L :
  Ls !! j = Some L → heads last Ls !! j = Some (candidate false None None last L).
Proof. intros Hj. unfold heads. by rewrite list_lookup_fmap, Hj, candidate_head. Qed.

(** The two loops of a round find the next newest item. *)
Lemma round_best last Ls k x :
  least (heads last Ls) (Some k) → newest_head k (heads last Ls) None (Some x) → item_key x = k →
  ∃ p, best_of false None None last Ls (length Ls) (Some (p, x)).
Proof.
  intros [_ Hmin] [Hfrom Hmax] Hk. destruct (Hfrom x eq_refl) as [?|Hx]; [done|].
  apply list_elem_of_lookup in Hx as [p Hp]. unfold heads in Hp.
  rewrite list_lookup_fmap in Hp. destruct (Ls !! p) as [L|] eqn:HL; [|done]. simpl in Hp. injection Hp as Hp.
  exists p. split; [by eapply lookup_lt_Some|]. split; [exists L; by rewrite candidate_head|].
  intros j L' y _ HL' Hy. pose proof (heads_lookup last Ls j L' HL') as Hj. rewrite Hy in Hj.
  apply list_elem_of_lookup_2 in Hj. specialize (Hmin y Hj). rewrite <-Hk in Hmin.
  apply kle_lteq in Hmin as [Hlt|Heq]; [by left|right]. split; [done|].
  destruct (Hmax y) as (x' & [= <-] & ?); [|done]. right. split; [done|congruence].
Qed.

Lemma round_end last Ls : least (heads last Ls) None → best_of false None None last Ls (length Ls) None.
Proof.
  intros Hl j L _ HL. pose proof (heads_lookup last Ls j L HL) as Hj.
  destruct (candidate false None None last L) as [x|]; [|done].
  apply list_elem_of_lookup_2 in Hj. by apply Hl in Hj.
Qed.

End merge.

(** ** Reading old blocks while writing new ones *)

(** Files of older blocks are unchanged. *)
Definition old_blocks_kept (nb : N) (d d' : Disk) : Prop :=
  ∀ b, (b < nb)%N → d' !! DataFile b = d !! DataFile b.

Lemma new_blocks_kept nb d d' : new_blocks_only nb d d' → old_blocks_kept nb d d'.
Proof. intros Hn b Hb. apply Hn. intros id Hid [= ->]. lia. Qed.

Lemma new_table_kept id nb d d' : new_table_only id nb d d' → old_blocks_kept nb d d'.
Proof. intros Hn b Hb. apply Hn; [done|]. intros b' Hb' [= ->]. lia. Qed.

(** Index files of older tables are unchanged. *)
Definition old_indices_kept (next : N) (d d' : Disk) : Prop :=
  ∀ id, (id < next)%N → d' !! IndexFile id = d !! IndexFile id.

Lemma new_index_kept id nb d d' : new_table_only id nb d d' → old_indices_kept id d d'.
Proof. intros Hn b Hb. apply Hn; [|done]. intros [= ->]. lia. Qed.

Lemma table_ok_frame `{Bloom} `{Compression} params interval nb d d' t bs :
  old_blocks_kept nb d d' → Forall (λ b : N * list BEntry, (b.1 < nb)%N) bs →
  table_ok params interval d t bs → table_ok params interval d' t bs.
Proof.
  intros Hn Hb [T1 T2 T3 T4]. split; [done| |done|done].
  rewrite Forall_forall in T2, Hb |- *. intros b Hin.
  eapply block_on_disk_frame; [by apply Hn, Hb|by apply T2].
Qed.

Section build.
Context `{BloomLaws} `{CompressionLaws} `{LruLaws DataBlock.DataBlock}.
Context (params : Params.Params) (interval : nat).
Context (Hint : params.(Params.block_restart_interval) = N.of_nat interval) (HI : 0 < interval).
Context (HI32 : (N.of_nat interval < u32_bound)%N).
Context (meta : DatabaseMetadata.DatabaseMetadata) (ids : list (list N)).
Context (tbs : list (SortedTable.SortedTable * Blocks)) (nb0 : N).

(** The blocks of the tables are older than the blocks that are written. *)
Context (Hold : Forall (λ tb : _ * Blocks, Forall (λ b : N * list BEntry, (b.1 < nb0)%N) tb.2) tbs).

#[local] Instance table_iter'' : InternalIterator Env _ _ := TableIterator_iterator params.

Abbreviation Inv := (tables_in params interval tbs).

Lemma tables_in_written nb e e' :
  (nb0 <= nb)%N → old_blocks_kept nb e.(env_disk) e'.(env_disk) → cache_ok params e' → Inv e → Inv e'.
Proof.
  intros Hle Hn Hc [_ Ht]. split; [done|]. rewrite Forall_forall in Ht, Hold |- *. intros tb Htb.
  eapply table_ok_frame; [exact Hn| |by apply Ht].
  eapply Forall_impl; [by apply Hold|]. intros b Hb. simpl in Hb. lia.
Qed.

Lemma tb_ok_reads e e' tb bs es nb :
  reads params e e' → tb_ok params interval meta ids e tb bs es nb →
  tb_ok params interval meta ids e' tb bs es nb.
Proof.
  intros (Hd & Hm & Hc) [K1 K2 K3 K4 K5 K6 K7 K8 K9 K10 K11 K12].
  split; try done; [by rewrite Hd|auto|by rewrite Hm].
Qed.

(** Adding the item an iterator shows. *)
Lemma add_current_ok e tb bs es nb k it x L :
  tb_ok params interval meta ids e tb bs es nb → enumerates Inv (reads params) it (x :: L) →
  item_key x = k → table_like x → (item_seq x < u64_bound)%N →
  (∀ be, be ∈ flat bs ++ es → be.(be_key) <k k) →
  (N.of_nat (be_weight (flat bs ++ es) + weight (item_entry x)) < u32_bound)%N → (nb + 1 < u64_bound)%N →
  ∃ tb' e' bs' es' nb', Compaction.add_current params tb k it e = Ok (tb', e') ∧
    tb_ok params interval meta ids e' tb' bs' es' nb' ∧ (nb <= nb' <= nb + 1)%N ∧
    be_entry <$> (flat bs' ++ es') = (be_entry <$> (flat bs ++ es)) ++ [item_entry x] ∧
    new_blocks_only nb e.(env_disk) e'.(env_disk) ∧
    tb'.(TableBuilder.identifier) = tb.(TableBuilder.identifier) ∧
    tb'.(TableBuilder.min_key) = tb.(TableBuilder.min_key) ∧
    tb'.(TableBuilder.max_key) = tb.(TableBuilder.max_key).
Proof.
  intros Htb [(_ & _ & Hseq & Hty & r & Hr & Hv) _] <- Hlike Hs Hkeys Hw Hnb.
  simpl in Hseq, Hty, Hr, Hv. unfold Compaction.add_current. run_lift Hty. run_lift Hseq.
  unfold table_like in Hlike.
  pose proof (add_entry_step params interval Hint HI HI32 meta ids e tb bs es nb (item_entry x) Htb) as Hadd.
  unfold item_entry in Hadd at 1 2. unfold item_entry in Hadd at 4 5 6 7. simpl in Hadd.
  destruct (item_type x) eqn:Et.
  - destruct Hlike as [v Hsh]. rewrite Hsh in Hv, Hadd. destruct r as [en|]; [|done]. run_lift Hr.
    assert (expect (Some en) "called `Option::unwrap()` on a `None` value" = Ok en) as Ex by done.
    run_lift Ex. assert (EntryRef.get_value (EntryRef.SortedTable en) = Ok v) as Eg.
    { unfold EntryRef.get_value, EntryRef.value. by rewrite Hv. }
    run_lift Eg. apply Hadd; [by left|done|done|done|done].
  - rewrite Hlike in Hadd. apply Hadd; [by right|done|done|done|done].
Qed.

(** What the merge writes: for every key of the lists its newest item, in key
    order. *)
Definition merged (last : option Key) (Ls : list (list Item)) (out : list Item) : Prop :=
  StronglySorted klt (item_key <$> out) ∧
  (∀ x, x ∈ out → newest Ls x ∧ in_range false None None last (item_key x)) ∧
  (∀ L y, L ∈ Ls → y ∈ L → in_range false None None last (item_key y) →
     ∃ x, x ∈ out ∧ item_key x = item_key y).

Lemma merged_cons last Ls p x out :
  Forall (dir_sorted false) Ls → best_of false None None last Ls (length Ls) (Some (p, x)) →
  merged (Some (item_key x)) Ls out → merged last Ls (x :: out).
Proof.
  intros Hs Hb (Hsort & Hin & Hall).
  destruct (best_of_Some (λ _ : unit, True) (λ _ _, True) ltac:(done) false None None last Ls p x Hs Hb)
    as (Hn & Hr & Hmin).
  assert (∀ y, y ∈ out → in_range false None None last (item_key y) ∧ item_key x <k item_key y) as Hout.
  { intros y Hy. by apply (in_range_weaken false None None last); [|apply Hin]. }
  split; [|split].
  - rewrite fmap_cons. constructor; [done|]. apply Forall_forall.
    intros k (y & -> & Hy)%list_elem_of_fmap. by apply Hout.
  - intros y [->|Hy]%elem_of_cons; [done|]. split; [by apply Hin|by apply Hout].
  - intros L y HL Hy Hry. destruct (Hmin L y HL Hy Hry) as [Hk|Hlt]; [exists x; set_solver|].
    destruct (Hall L y HL Hy) as (z & Hz & Hzk); [by eapply in_range_step|]. exists z. set_solver.
Qed.

Lemma merged_nil last Ls :
  Forall (dir_sorted false) Ls → best_of false None None last Ls (length Ls) None → merged last Ls [].
Proof.
  intros Hs Hb. split; [constructor|]. split; [by intros x ?%not_elem_of_nil|].
  intros L y HL Hy Hr. by destruct (best_of_None false None None last Ls L y Hs Hb HL Hy).
Qed.

(** The items can be written to a table. *)
Definition writable (Ls : list (list Item)) : Prop :=
  ∀ L x, L ∈ Ls → x ∈ L → table_like x ∧ (item_seq x < u64_bound)%N.

Lemma advanced_tracks last k its Ls :
  in_range false None None last k → Forall (dir_sorted false) Ls →
  Forall2 (λ it L, enumerates Inv (reads params) it (ahead false None last L)) its Ls →
  Forall2 (tracks Inv (reads params) false None (Some k)) its Ls.
Proof.
  intros Hk Hs He. revert Hs. induction He as [|it L its Ls Hit _ IH]; intros Hs; [done|].
  apply Forall_cons in Hs as [HL Hs]. constructor; [|by apply IH].
  exists (ahead false None last L). split; [done|]. split; [by apply dir_sorted_filter|].
  split; [apply ahead_length|by eapply ahead_mono].
Qed.

Lemma merge_loop_ok rounds fuel its Ls last tb bs es nb e :
  Forall2 (tracks Inv (reads params) false None last) its Ls →
  Forall (dir_sorted false) Ls → Forall (λ L, length L < fuel) Ls → writable Ls →
  Inv e → tb_ok params interval meta ids e tb bs es nb → (nb0 <= nb)%N →
  (∀ be k, be ∈ flat bs ++ es → in_range false None None last k → be.(be_key) <k k) →
  left_over false None last Ls < rounds →
  (N.of_nat (be_weight (flat bs ++ es) + mass (weight ∘ item_entry) last Ls) < u32_bound)%N →
  (nb + N.of_nat (mass (λ _, 1%nat) last Ls) + 1 < u64_bound)%N →
  ∃ tb' e' bs' es' nb' out, Compaction.merge_loop params rounds fuel its last tb e = Ok (tb', e') ∧
    tb_ok params interval meta ids e' tb' bs' es' nb' ∧
    (nb <= nb' <= nb + N.of_nat (mass (λ _, 1%nat) last Ls))%N ∧
    be_entry <$> (flat bs' ++ es') = (be_entry <$> (flat bs ++ es)) ++ (item_entry <$> out) ∧
    new_blocks_only nb e.(env_disk) e'.(env_disk) ∧ Inv e' ∧
    tb'.(TableBuilder.identifier) = tb.(TableBuilder.identifier) ∧
    tb'.(TableBuilder.min_key) = tb.(TableBuilder.min_key) ∧
    tb'.(TableBuilder.max_key) = tb.(TableBuilder.max_key) ∧ merged last Ls out ∧
    total_weight (item_entry <$> out) <= mass (weight ∘ item_entry) last Ls.
Proof.
  revert its last tb bs es nb e; induction rounds as [|rounds IH];
    intros its last tb bs es nb e Htr Hs Hf Hwr Hinv Htb Hnb Hlt Hr Hw Hid; [lia|].
  destruct (advance_all_ok params interval tbs fuel its Ls last [] None e Htr Hf Hinv)
    as (its1 & k & e1 & E1 & R1 & He1 & Hl1); [by intros x ?%not_elem_of_nil|].
  cbn [app] in Hl1. cbn [Compaction.merge_loop]. run_st E1. cbn beta iota.
  pose proof (tables_in_reads _ _ _ _ _ Hinv R1) as Hinv1.
  pose proof (tb_ok_reads _ _ _ _ _ _ R1 Htb) as Htb1. pose proof R1 as (Hd1 & _).
  destruct k as [k|].
  2: { exists tb, e1, bs, es, nb, []. rewrite app_nil_r, Hd1. pose proof (merged_nil last Ls Hs (round_end _ _ Hl1)).
    split_and!; try done; try lia. unfold total_weight. simpl. lia. }
  destruct (pick_newest_ok params interval tbs its1 Ls last k None None He1 I)
    as (best & bx & E2 & Hst & Hnh).
  run_lift E2. pose proof Hl1 as [(x0 & Hx0 & Hk0) _].
  destruct (proj2 Hnh x0) as (x & -> & _); [by right|].
  destruct best as [it|]; [|done]. destruct Hst as [(L & Hit) Hkx].
  assert (expect (Some it) "called `Option::unwrap()` on a `None` value" = Ok it) as Ex by done.
  run_lift Ex. destruct (round_best last Ls k x Hl1 Hnh Hkx) as [p Hp].
  destruct (best_of_Some (λ _ : unit, True) (λ _ _, True) ltac:(done) false None None last Ls p x Hs Hp)
    as (((Lx & HLx & Hx) & _) & Hrx & _).
  destruct (Hwr Lx x HLx Hx) as [Hlike Hseq].
  pose proof (mass_lt (weight ∘ item_entry) last x Lx Ls HLx Hx Hrx) as Hm1. simpl in Hm1.
  pose proof (mass_lt (λ _, 1%nat) last x Lx Ls HLx Hx Hrx) as Hm2. simpl in Hm2.
  pose proof (left_over_lt false None None last x Lx Ls HLx Hx Hrx) as Hm3.
  destruct (add_current_ok e1 tb bs es nb k it x L Htb1 Hit Hkx Hlike Hseq)
    as (tb2 & e2 & bs2 & es2 & nb2 & E3 & Htb2 & Hnb2 & Hfl2 & Hnew2 & Hid2 & Hmin2 & Hmax2);
    [intros be Hbe; rewrite <-Hkx; by eapply Hlt|lia|lia|].
  run_st E3. assert (be_weight (flat bs2 ++ es2) = be_weight (flat bs ++ es) + weight (item_entry x)) as Hw2.
  { unfold be_weight. rewrite Hfl2, total_weight_app. unfold total_weight. simpl. lia. }
  assert (Inv e2) as Hinv2 by (eapply tables_in_written; [exact Hnb|by apply new_blocks_kept|apply Htb2|done]).
  subst k.
  destruct (IH its1 (Some (item_key x)) tb2 bs2 es2 nb2 e2)
    as (tb' & e' & bs' & es' & nb' & out & E4 & Htb' & Hnb' & Hfl' & Hnew' & Hinv' & Hid' & Hmin' & Hmax' & Hmg & Hwt);
    try done; try lia.
  - eapply advanced_tracks; [exact Hrx|exact Hs|exact He1].
  - intros be k Hbe Hk. destruct (in_range_weaken false None None last _ _ Hrx Hk) as [Hk' Hlt'].
    assert (be_entry be ∈ (be_entry <$> (flat bs ++ es)) ++ [item_entry x]) as Hin
      by (rewrite <-Hfl2; by apply list_elem_of_fmap_2).
    apply elem_of_app in Hin as [(be' & Hbe' & Hin)%list_elem_of_fmap|Heq%list_elem_of_singleton].
    + pose proof (Hlt be' k Hin Hk') as Hl. apply (f_equal en_key) in Hbe'. simpl in Hbe'. congruence.
    + apply (f_equal en_key) in Heq. simpl in Heq. rewrite Heq. exact Hlt'.
  - exists tb', e', bs', es', nb', (x :: out). split; [exact E4|]. split; [done|].
    split; [lia|]. split; [by rewrite Hfl', Hfl2, <-app_assoc|].
    split; [rewrite <-Hd1; apply (new_blocks_only_trans params interval Hint HI HI32 nb nb2 _ _ _ ltac:(lia) Hnew2 Hnew')|].
    split_and!; [done|congruence|congruence|congruence|by eapply merged_cons|].
    change (weight (item_entry x) + total_weight (item_entry <$> out) <= mass (weight ∘ item_entry) last Ls).
    lia.
Qed.

(** The items of the tables can be written. *)
Lemma tables_writable sub e :
  Inv e → (∀ tb, tb ∈ sub → tb ∈ tbs) → writable (table_list false <$> sub.*2).
Proof.
  intros [_ Ht] Hsub L x (bs & -> & (tb & -> & Htb)%list_elem_of_fmap)%list_elem_of_fmap Hx.
  apply list_elem_of_fmap in Hx as (en & -> & (be & -> & Hbe)%list_elem_of_fmap).
  split; [apply table_item_like|]. rewrite Forall_forall in Ht. destruct (Ht tb (Hsub tb Htb)) as [_ Hb _ _].
  apply elem_of_flat in Hbe as (b & Hb' & Hbe). rewrite Forall_forall in Hb.
  destruct (Hb b Hb') as (blk & _ & Hok). destruct Hok as [_ _ _ _ _ _ _ Hwf _ _ _].
  rewrite Forall_forall in Hwf. by apply (Hwf be Hbe).
Qed.

(** [min] and [max] are the first and the last key of the lists. *)
Definition spans (min max : Key) (Ls : list (list Item)) : Prop :=
  (∀ L y, L ∈ Ls → y ∈ L → min <=k item_key y ∧ item_key y <=k max) ∧
  (∃ L y, (L ∈ Ls ∧ y ∈ L) ∧ item_key y = min) ∧ ∃ L y, (L ∈ Ls ∧ y ∈ L) ∧ item_key y = max.

Lemma sorted_first (l : list Key) k k' : StronglySorted klt l → head l = Some k → k' ∈ l → k <=k k'.
Proof.
  intros Hs Hh Hin. destruct Hs as [|x l _ Hx]; [done|]. injection Hh as <-.
  rewrite Forall_forall in Hx. apply elem_of_cons in Hin as [->|Hin]; [apply kle_refl|].
  apply kle_lteq. left. auto.
Qed.

Lemma sorted_last (l : list Key) k k' : StronglySorted klt l → last l = Some k → k' ∈ l → k' <=k k.
Proof.
  intros Hs Hl Hin. apply last_Some in Hl as [l' ->]. apply StronglySorted_app in Hs as (Hlt & _ & _).
  apply elem_of_app in Hin as [Hin| ->%list_elem_of_singleton]; [|apply kle_refl].
  apply kle_lteq. left. apply Hlt; [done|set_solver].
Qed.

Lemma merged_range min max Ls out :
  merged None Ls out → spans min max Ls →
  (∀ x, head (item_entry <$> out) = Some x → min = x.(en_key)) ∧
  (∀ x, last (item_entry <$> out) = Some x → max = x.(en_key)).
Proof.
  intros (Hs & Hin & Hall) (Hb & (Lm & ym & [HLm Hym] & Hkm) & (Lx & yx & [HLx Hyx] & Hkx)).
  assert (∀ x, x ∈ out → min <=k item_key x ∧ item_key x <=k max) as Hout.
  { intros x Hx. destruct (Hin x Hx) as [[(L & HL & HxL) _] _]. by apply (Hb L). }
  split; intros x Hx.
  - destruct (Hall Lm ym) as (z & Hz & Hzk); [done|done|by split|].
    destruct out as [|h out]; [done|]. injection Hx as <-. simpl.
    assert (item_key h <=k item_key z) as Hz1.
    { apply (sorted_first (item_key <$> (h :: out))); [done|done|by apply list_elem_of_fmap_2]. }
    destruct (Hout h ltac:(set_solver)) as [Hz2 _]. rewrite Hzk, Hkm in Hz1. korder.
  - destruct (Hall Lx yx) as (z & Hz & Hzk); [done|done|by split|].
    rewrite fmap_last in Hx. destruct (last out) as [h|] eqn:Eh; [|done]. injection Hx as <-. simpl.
    assert (item_key z <=k item_key h) as Hz1.
    { apply (sorted_last (item_key <$> out)); [done|by rewrite fmap_last, Eh|by apply list_elem_of_fmap_2]. }
    assert (h ∈ out) as Hh by (apply last_Some in Eh as [? ->]; set_solver).
    destruct (Hout h Hh) as [_ Hz2]. rewrite Hzk, Hkx in Hz1. korder.
Qed.

Lemma table_item_entry x : table_like x → table_item (item_entry x) = x.
Proof.
  destruct x as [k s t v]. unfold table_like, table_item, item_entry, en_type. simpl.
  destruct t; [intros [w ->]|intros ->]; done.
Qed.

Lemma table_list_entries bs out :
  be_entry <$> flat bs = item_entry <$> out → Forall table_like out → table_list false bs = out.
Proof.
  intros Hf Hl. unfold table_list. rewrite Hf, <-list_fmap_compose.
  rewrite <-(list_fmap_id out) at 2. apply list_fmap_ext. intros i x Hx. simpl.
  apply table_item_entry. by eapply Forall_lookup_1.
Qed.

(** How much the tables hold. *)
Definition tables_weight (Ls : list (list Item)) : nat :=
  sum_list_with (λ L, sum_list_with (weight ∘ item_entry) L) Ls.

Lemma mass_None f Ls : mass f None Ls <= sum_list_with (λ L, sum_list_with f L) Ls.
Proof.
  unfold mass. induction Ls as [|L Ls IH]; [done|]. cbn [sum_list_with].
  pose proof (sum_filter_le f (λ x, passed false None None (item_key x) = false) L) as Hle.
  change (filter _ L) with (ahead false None None L) in Hle. lia.
Qed.

Lemma sum_ones {A} (l : list A) : sum_list_with (λ _, 1) l = length l.
Proof. induction l as [|x l IH]; [done|]. simpl. by rewrite IH. Qed.

Lemma mass_one Ls : sum_list_with (λ L : list Item, sum_list_with (λ _, 1) L) Ls = sum_list_with length Ls.
Proof.
  induction Ls as [|L Ls IH]; [done|]. cbn [sum_list_with]. by rewrite IH, sum_ones.
Qed.

Lemma left_over_mass last Ls : left_over false None last Ls = mass (λ _, 1%nat) last Ls.
Proof.
  unfold mass, left_over. induction Ls as [|L Ls IH]; [done|]. cbn [sum_list_with]. by rewrite IH, sum_ones.
Qed.

Lemma opened_tracks its Ls :
  Forall (dir_sorted false) Ls → Forall2 (enumerates Inv (reads params)) its Ls →
  Forall2 (tracks Inv (reads params) false None None) its Ls.
Proof.
  intros Hs He. revert Hs. induction He as [|it L its Ls Hit _ IH]; intros Hs; [done|].
  apply Forall_cons in Hs as [HL Hs]. constructor; [by exists L|by apply IH].
Qed.

(** Merging the tables [sub]: the new table holds the newest item of every key,
    and every older file is unchanged. *)
Lemma merge_tables_ok n sub id min max e nb :
  let Ls := table_list false <$> sub.*2 in
  seeks_ok params → Inv e → (∀ tb, tb ∈ sub → tb ∈ tbs) → spans min max Ls →
  manifest_holds e.(env_manifest) (with_block_id meta nb) ids → (nb0 <= nb)%N →
  sum_list_with length Ls < n →
  (N.of_nat (256 + 3 * tables_weight Ls) < u32_bound)%N →
  (nb + N.of_nat (sum_list_with length Ls) + 1 < u64_bound)%N →
  ∃ t e' bs' nb', Compaction.merge_tables params n n id min max sub.*1 e = Ok (t, e') ∧
    table_ok params interval e'.(env_disk) t bs' ∧ merged None Ls (table_list false bs') ∧
    t.(SortedTable.identifier) = id ∧ t.(SortedTable.compaction_flag) = false ∧ Inv e' ∧
    manifest_holds e'.(env_manifest) (with_block_id meta nb') ids ∧ (nb <= nb' <= nb + N.of_nat (sum_list_with length Ls) + 1)%N ∧
    Forall (λ b : N * list BEntry, (b.1 < nb')%N) bs' ∧
    new_table_only id nb e.(env_disk) e'.(env_disk) ∧ SortedTable.load params id e' = Ok (t, e').
Proof.
  intros Ls Hseek Hinv Hsub Hspan Hm Hnb Hn Hw Hids. unfold Compaction.merge_tables.
  pose proof (tables_writable sub e Hinv Hsub) as Hwr.
  destruct (open_tables_ok params interval false tbs sub e Hinv Hsub) as (its & e1 & E1 & R1 & Hits).
  run_st E1. pose proof (tables_in_reads _ _ _ _ _ Hinv R1) as Hinv1.
  pose proof R1 as (Hd1 & Hm1 & _). rewrite <-Hm1 in Hm.
  destruct (tb_new_ok params interval Hint HI meta ids e1 id min max nb)
    as (tb & E2 & Htb & Hid & Hmin & Hmax); [apply Hinv1|done|].
  run_lift E2.
  assert (Forall (dir_sorted false) Ls) as Hs.
  { apply Forall_fmap, Forall_fmap, Forall_forall. intros tb' Htb'. apply dir_sorted_table.
    destruct Hinv as [_ Ht]. rewrite Forall_forall in Ht. apply (Ht tb'); auto. }
  pose proof (mass_None (weight ∘ item_entry) Ls) as Hms. fold (tables_weight Ls) in Hms.
  pose proof (mass_None (λ _, 1%nat) Ls) as Hml. rewrite mass_one in Hml.
  destruct (merge_loop_ok n n its Ls None tb [] [] nb e1)
    as (tb' & e2 & bs & es & nb1 & out & E3 & Htb' & Hnb1 & Hfl & Hnew & Hinv2 & Hid' & Hmin' & Hmax' & Hmg & Hwt);
    try done.
  - by apply opened_tracks.
  - by apply length_lt_sum.
  - by intros be k ?%not_elem_of_nil.
  - pose proof (mass_None (λ _, 1%nat) Ls). rewrite left_over_mass. lia.
  - change (be_weight (flat [] ++ [])) with 0. lia.
  - lia.
  - run_st E3. cbn [app flat fmap list_fmap] in Hfl.
    destruct (merged_range min max Ls out Hmg Hspan) as [Hhd Htl].
    assert (out ≠ []) as Hne.
    { destruct Hspan as (_ & (L & y & [HL Hy] & _) & _). destruct Hmg as (_ & _ & Hall).
      destruct (Hall L y HL Hy) as (x & Hx & _); [by split|]. intros ->. by apply not_elem_of_nil in Hx. }
    assert (N.of_nat (256 + 3 * total_weight (item_entry <$> out)) < u32_bound)%N as Hw' by lia.
    assert (nb1 + 1 < u64_bound)%N as Hnb2 by lia.
    destruct (finish_step params interval Hint HI HI32 meta ids e2 tb' bs es nb1 (item_entry <$> out) id min max
      Hseek Htb' Hfl) as (t & e' & bs' & nb' & E4 & Ht & Hfl' & Hidt & Hflag & Hc' & Hm' & Hnb' & Hids' & Hnew' & Hload);
      [by destruct out|exact Hw'|exact Hnb2|congruence|congruence|congruence|done|done|].
    exists t, e', bs', nb'. split; [exact E4|].
    rewrite (table_list_entries bs' out Hfl').
    2: { apply Forall_forall. intros x Hx. destruct Hmg as (_ & Hin & _).
      destruct (Hin x Hx) as [[(L & HL & HxL) _] _]. by apply (Hwr L). }
    do 4 (split; [done|]). split.
    { eapply (tables_in_written nb1); [lia|by eapply new_table_kept|done|done]. }
    split; [done|]. split; [lia|]. split; [done|]. split; [|done].
    intros f Hf1 Hf2. rewrite Hnew' by (try done; intros b Hb; apply Hf2; lia).
    rewrite <-Hd1. by apply Hnew.
Qed.

End build.

(** C24: a compaction reads the tables it merges and writes one new table that
    holds, for every key of the merged tables, the newest of its entries
    (deletions included) and nothing else, in key order.  The merge terminates,
    never panics, the new table can be loaded from disk, and the files of the
    merged tables are unchanged. *)
Theorem compaction_merges `{BloomLaws} `{CompressionLaws} `{LruLaws DataBlock.DataBlock}
    params interval meta ids tbs id min max e nb n :
  let Ls := table_list false <$> tbs.*2 in
  params.(Params.block_restart_interval) = N.of_nat interval → 0 < interval →
  (N.of_nat interval < u32_bound)%N → seeks_ok params →
  tables_in params interval tbs e →
  Forall (λ tb : _ * Blocks, Forall (λ b : N * list BEntry, (b.1 < nb)%N) tb.2) tbs →
  manifest_holds e.(env_manifest) (with_block_id meta nb) ids →
  spans min max Ls → sum_list_with length Ls < n →
  (N.of_nat (256 + 3 * tables_weight Ls) < u32_bound)%N →
  (nb + N.of_nat (sum_list_with length Ls) + 1 < u64_bound)%N →
  ∃ t e' bs, Compaction.merge_tables params n n id min max tbs.*1 e = Ok (t, e') ∧
    SortedTable.load params id e' = Ok (t, e') ∧
    table_ok params interval e'.(env_disk) t bs ∧ merged None Ls (table_list false bs) ∧
    tables_in params interval tbs e' ∧ new_table_only id nb e.(env_disk) e'.(env_disk).
Proof.
  intros Ls Hint HI HI32 Hseek Hin Hold Hm Hspan Hn Hw Hids.
  destruct (merge_tables_ok params interval Hint HI HI32 meta ids tbs nb Hold n tbs id min max e nb
    Hseek Hin ltac:(done) Hspan Hm ltac:(done) Hn Hw Hids)
    as (t & e' & bs & nb' & E & Ht & Hmg & _ & _ & Hin' & _ & _ & _ & Hnew & Hload).
  exists t, e', bs. by split_and!.
Qed.

(** ** Witnesses *)

Section witnesses.
Import Concrete.

(** Newer entries for some keys of the sample table. *)
Definition newer_entries : list Entry :=
  [ mkEntry [x61; x63] 6 WriteOp.PUT_OP [x0a]; mkEntry [x62] 7 WriteOp.DELETE_OP [];
    mkEntry [x64] 8 WriteOp.PUT_OP [x0b] ].

(** The sample table and a second table on one disk. *)
Lemma two_tables :
  ∃ t1 bs1 t2 bs2 e nb, tables_in sample_block_params 2 [(t1, bs1); (t2, bs2)] e ∧
    be_entry <$> flat bs1 = sample_table_entries ∧ be_entry <$> flat bs2 = newer_entries ∧
    manifest_holds e.(env_manifest) (with_block_id sample_meta nb) [[7%N]] ∧ (nb < 20)%N ∧
    Forall (λ tb : SortedTable.SortedTable * Blocks, Forall (λ b : N * list BEntry, (b.1 < nb)%N) tb.2)
      [(t1, bs1); (t2, bs2)].
Proof.
  destruct (build_table_ok sample_block_params 2 ltac:(done) ltac:(lia) ltac:(done) sample_meta
    [[7%N]] empty_env 8 [x61] [x63] sample_table_entries 3 I empty_env_ok sample_manifest_holds)
    as (t1 & e1 & bs1 & nb1 & _ & Ht1 & Hf1 & _ & _ & Hc1 & Hm1 & Hnb1 & Hids1 & _);
    [by apply sample_table_fits|by intros x [= <-]..|]. simpl length in Hnb1.
  destruct (build_table_ok sample_block_params 2 ltac:(done) ltac:(lia) ltac:(done) sample_meta
    [[7%N]] e1 9 [x61; x63] [x64] newer_entries nb1 I Hc1 Hm1)
    as (t2 & e2 & bs2 & nb2 & _ & Ht2 & Hf2 & _ & _ & Hc2 & Hm2 & Hnb2 & Hids2 & Hnew & _).
  - split.
    + repeat constructor; simpl; (by left) || (by right) || done.
    + repeat constructor.
    + done.
    + vm_compute. reflexivity.
    + unfold u64_bound. simpl length. lia.
  - by intros x [= <-].
  - by intros x [= <-].
  - simpl length in Hnb2. exists t1, bs1, t2, bs2, e2, nb2. split_and!; [split; [done|]|done|done|done|lia|].
    + constructor; [|by constructor]. simpl.
      eapply (table_ok_frame sample_block_params 2 nb1); [by eapply new_table_kept|done|done].
    + constructor; [|by constructor]. simpl. eapply Forall_impl; [exact Hids1|].
      intros b Hb. simpl in Hb. lia.
Qed.

Lemma compaction_merges_witness :
  ∃ t1 t2 t e e' out, Compaction.merge_tables sample_block_params 9 9 20 [x61] [x64] [t1; t2] e = Ok (t, e') ∧
    merged None [table_item <$> sample_table_entries; table_item <$> newer_entries] out.
Proof.
  destruct two_tables as (t1 & bs1 & t2 & bs2 & e & nb & Hin & Hf1 & Hf2 & Hm & Hnb & Hold).
  assert (nb + N.of_nat 8 + 1 < u64_bound)%N as Hids by (unfold u64_bound; lia).
  assert (table_list false <$> [(t1, bs1); (t2, bs2)].*2 =
    [table_item <$> sample_table_entries; table_item <$> newer_entries]) as EL
    by (rewrite <-Hf1, <-Hf2; reflexivity).
  destruct (compaction_merges sample_block_params 2 sample_meta [[7%N]] [(t1, bs1); (t2, bs2)]
    20 [x61] [x64] e nb 9) as (t & e' & bs & E & _ & _ & Hmg & _); rewrite ?EL in *;
    [reflexivity|lia|reflexivity|exact I|exact Hin|exact Hold|exact Hm| | | |exact Hids|].
  - split; [|split].
    + intros L y HL Hy. repeat (apply elem_of_cons in HL as [->|HL]); try by apply not_elem_of_nil in HL.
      all: repeat (apply elem_of_cons in Hy as [->|Hy]); try by apply not_elem_of_nil in Hy.
      all: split; vm_compute; discriminate.
    + exists (table_item <$> sample_table_entries), (table_item (mkEntry [x61] 1 WriteOp.PUT_OP [x01])).
      split; [split; set_solver|reflexivity].
    + exists (table_item <$> newer_entries), (table_item (mkEntry [x64] 8 WriteOp.PUT_OP [x0b])).
      split; [split; set_solver|reflexivity].
  - vm_compute. lia.
  - vm_compute. reflexivity.
  - exists t1, t2, t, e, e', (table_list false bs). split; [exact E|exact Hmg].
Defined.

End witnesses.
