(* ===== verification/WalCalls.v ===== *)
(** * Calls of the write-ahead log (src/src/wal/mod.rs)

    The public functions of [WriteAheadLog] from the caller's point of view: the
    request under the lock, then waiting for the writer task.  While a caller
    waits the writer runs until it has nothing left to do ([settle]); other
    schedules are those of [WalStatus.step].  The lemmas say what a call leaves
    behind in the log, and that it touches no other file. *)

From stdpp Require Import base list gmap strings relations.
From Stdlib Require Import Strings.Byte NArith Lia.
From S2P Require Import Prelude WriteBatch Memtable Disk Wal WalStatus.

Local Open Scope nat_scope.
Local Open Scope lsm_scope.

(** The log as a component holds it whose state has the files. *)
Record Log := mkLog {
  log_status : LogStatus.LogStatus;
  log_writer : WalWriter.WalWriter;
  log_phase : Phase;
}.

(** The writer task runs until it waits: at most one job is left, with the
    buffers that are queued. *)
Definition settle (io : IoMode) (w : WalState) : outcome WalState :=
  run_writer (length w.(status).(LogStatus.queue) + 5) io w.

(** A caller that waits returns when its condition holds. *)
Definition wait_until {A} (done : LogStatus.LogStatus → bool) (a : A) (w : WalState)
  : outcome (A * WalState) :=
  if done w.(status) then Ok (a, w) else OutOfFuel.

Module WalCalls.

(** [WriteAheadLog::new]: a fresh log and its writer. *)
Definition new (d : Disk) : WalState :=
  let '(d', wr) := WalWriter.new d in mkWal (LogStatus.new 0 0) wr Waiting d'.

(** [WriteAheadLog::open]: replays the log into the memtable and continues it. *)
Definition open (fuel rfuel : nat) (d : Disk) (start_position : N) (m : Memtable.Memtable)
  : outcome (WalState * WalReader.RecoveryResult * Memtable.Memtable) :=
  let start_position := N.to_nat start_position in
  reader ← WalReader.new d start_position;
  '(result, _, m) ← WalReader.run fuel rfuel d reader m 0;
  '(d, wr) ← WalWriter.continue_from d result.(WalReader.new_position);
  Ok (mkWal (LogStatus.new result.(WalReader.new_position) start_position) wr Waiting d, result, m).

(** [WriteAheadLog::store] *)
Definition store_entries (io : IoMode) (w : WalState) (batch : list LogEntry) : outcome (N * WalState) :=
  let '(end_pos, s) := WriteAheadLog.store w.(status) (LogEntry.encode <$> batch) in
  w ← settle io (set_status w s);
  wait_until (λ s, WriteAheadLog.store_done s end_pos) (N.of_nat end_pos) w.

(** A call of [store] with a batch of writes. *)
Definition store (io : IoMode) (w : WalState) (ops : list WriteOp) : outcome (N * WalState) :=
  store_entries io w (LWrite <$> ops).

(** [WriteAheadLog::sync] *)
Definition sync (io : IoMode) (w : WalState) : outcome (unit * WalState) :=
  '(last_pos, s) ← WriteAheadLog.sync w.(status);
  match last_pos with
  | None => Ok ((), set_status w s)
  | Some last_pos =>
      w ← settle io (set_status w s);
      wait_until (λ s, WriteAheadLog.sync_done s last_pos) () w
  end.

(** [WriteAheadLog::set_offset] *)
Definition set_offset (io : IoMode) (w : WalState) (new_offset : N) : outcome (unit * WalState) :=
  let new_offset := N.to_nat new_offset in
  s ← WriteAheadLog.set_offset w.(status) new_offset;
  w ← settle io (set_status w s);
  wait_until (λ s, WriteAheadLog.set_offset_done s new_offset) () w.

(** [WriteAheadLog::stop]: waits for the writer task to end. *)
Definition stop (io : IoMode) (w : WalState) : outcome (unit * WalState) :=
  w ← settle io (set_status w (WriteAheadLog.stop w.(status)));
  match w.(phase) with Stopped => Ok ((), w) | _ => OutOfFuel end.

End WalCalls.

(** ** Other files *)

Lemma write_all_other fuel io d w data pos d' w' :
  WalWriter.write_all fuel io d w data pos = Ok (d', w') → same_other_files d d'.
Proof.
  revert d w pos; induction fuel as [|fuel IH]; intros d w pos; cbn [WalWriter.write_all];
    (destruct (negb _); [intros [= <- <-]; apply same_other_files_refl|]); [done|].
  intros E. do 2 apply bind_Ok_inv in E as (_ & _ & E). apply bind_Ok_inv in E as (chunk & _ & E).
  unfold WalWriter.write_chunk in E. apply bind_Ok_inv in E as (_ & _ & E).
  eapply same_other_files_trans; [apply alter_log_same_other|].
  destruct (_ =? PAGE_SIZE); [|by eapply IH].
  eapply same_other_files_trans; [apply create_file_same_other|]. eapply IH. exact E.
Qed.

Lemma remove_pages_other d fpos n d' :
  WalWriter.remove_pages d fpos n = Ok d' → same_other_files d d'.
Proof.
  revert d fpos; induction n as [|n IH]; intros d fpos; cbn [WalWriter.remove_pages].
  - intros [= <-]. apply same_other_files_refl.
  - intros (d1 & E1 & E2)%bind_Ok_inv. eapply same_other_files_trans; [|by eapply IH].
    unfold disk.remove_file in E1. destruct (d !! LogFile fpos); [|done]. injection E1 as <-.
    intros f Hf. apply lookup_delete_ne. by intros <-; apply (Hf fpos).
Qed.

Lemma writer_step_other io w w' :
  writer_step io w = Ok (Some w') → same_other_files w.(disk) w'.(disk).
Proof.
  unfold writer_step. destruct (phase w) as [|j [|buf rest]|j|j|j|]; intros E.
  - apply bind_Ok_inv in E as ([job s] & _ & E). destruct job; simplify_eq. apply same_other_files_refl.
  - simplify_eq. apply same_other_files_refl.
  - apply bind_Ok_inv in E as ([d wr] & E1 & [= <-]). by eapply write_all_other.
  - simplify_eq. apply same_other_files_refl.
  - apply bind_Ok_inv in E as (d & E1 & [= <-]). unfold UpdateLog.clean_up in E1.
    destruct (UpdateLog.new_offset j) as [[n o]|]; simplify_eq; [by eapply remove_pages_other|].
    apply same_other_files_refl.
  - apply bind_Ok_inv in E as (s & _ & [= <-]). apply same_other_files_refl.
  - done.
Qed.

Lemma run_writer_other n io w w' :
  run_writer n io w = Ok w' → same_other_files w.(disk) w'.(disk).
Proof.
  revert w; induction n as [|n IH]; intros w; cbn [run_writer].
  - intros [= ->]. apply same_other_files_refl.
  - intros ([w1|] & E1 & E2)%bind_Ok_inv; [|injection E2 as <-; apply same_other_files_refl].
    eapply same_other_files_trans; [by eapply writer_step_other|by eapply IH].
Qed.

(** ** What the calls leave behind *)

(** The writer serves the request that was made to an idle log. *)
Lemma settle_ok io w stored L :
  wal_inv io w stored L → w.(phase) = Waiting → w.(status).(LogStatus.stop_flag) = false →
  ∃ w', settle io w = Ok w' ∧ idle io w' stored ∧ same_other_files w.(disk) w'.(disk) ∧
    w'.(status).(LogStatus.offset_pos) = w.(status).(LogStatus.offset_pos).
Proof.
  intros Hi Hp Hs. destruct (drain_round io w stored L Hi Hp Hs) as (w' & E & Hidle & Ho).
  exists w'. split; [done|]. split; [done|]. split; [by eapply run_writer_other|done].
Qed.

(** A fresh log is idle. *)
Lemma fresh_idle io d : idle io (fresh_wal d) [].
Proof.
  pose proof (initial_inv io _ _ (fresh_initial io d)) as Hi. unfold fresh_wal in *.
  destruct (WalWriter.new d) as [d' wr]. by split.
Qed.

(** The log does not depend on other files. *)
Lemma idle_frame io w d' stored :
  (∀ i, d' !! LogFile i = w.(WalStatus.disk) !! LogFile i) → idle io w stored →
  idle io (mkWal w.(WalStatus.status) w.(WalStatus.writer) w.(WalStatus.phase) d') stored.
Proof.
  intros Hd [[Hw W2 W3 W4 W5 W6 W7 W8 W9 W10] I2 I3 I4 I5 I6]. destruct w as [st wr ph d]. simpl in *.
  split; try done. split; try done. destruct Hw as [Hl A2 A3 A4 A5]. split; try done.
  intros i Hi Hlen. simpl. rewrite Hd. by apply Hl.
Qed.

(** [store] appends the batch to the log and returns its new end. *)
Lemma wal_store_entries_ok io w stored batch :
  idle io w stored →
  let L := stored ++ concat (LogEntry.encode <$> batch) in
  ∃ w', WalCalls.store_entries io w batch = Ok (N.of_nat (length L), w') ∧
    idle io w' L ∧ same_other_files w.(disk) w'.(disk) ∧
    w'.(status).(LogStatus.offset_pos) = w.(status).(LogStatus.offset_pos).
Proof.
  intros [Hi Hp Hq Hf Hs Hst] L. unfold WalCalls.store_entries. cbn [WriteAheadLog.store].
  destruct (step_inv io w stored _ _ stored Hi (step_store io w stored (LogEntry.encode <$> batch))) as [L' HL].
  destruct (settle_ok io _ _ _ HL Hp Hst) as (w' & E & Hidle & Ho & Hoff).
  assert (LogStatus.queue_pos (status w) + sum_list_with length (LogEntry.encode <$> batch) = length L) as Hend.
  { rewrite (wi_queue_pos _ _ _ _ Hi). unfold L. by rewrite length_app, concat_length. }
  cbn [WriteAheadLog.store snd] in E. rewrite E. run_bind. unfold wait_until, WriteAheadLog.store_done.
  pose proof (idle_served _ _ _ Hidle) as (Hd & _). unfold WriteAheadLog.store_done in Hd.
  rewrite (wi_queue_pos _ _ _ _ (idle_inv _ _ _ Hidle)) in Hd. rewrite Hend. fold L in Hd. rewrite Hd.
  exists w'. by split_and!.
Qed.

Lemma wal_store_ok io w stored ops :
  idle io w stored →
  ∃ w', WalCalls.store io w ops = Ok (N.of_nat (length (stored ++ encode_ops ops)), w') ∧
    idle io w' (stored ++ encode_ops ops) ∧ same_other_files w.(disk) w'.(disk) ∧
    w'.(status).(LogStatus.offset_pos) = w.(status).(LogStatus.offset_pos).
Proof.
  intros Hi. pose proof (wal_store_entries_ok io w stored (LWrite <$> ops) Hi) as Hs. cbv zeta in Hs.
  unfold encode_ops. by rewrite list_fmap_compose.
Qed.

(** The sync request is served when the writer gets back to waiting. *)
Definition syncing (last : nat) (w : WalState) : Prop :=
  match w.(phase) with
  | Writing j _ | Syncing j => j.(UpdateLog.job_sync_flag) = true ∧ j.(UpdateLog.job_sync_pos) = last
  | _ => last < w.(status).(LogStatus.sync_pos)
  end.

Lemma sync_round io n w w' stored L j last :
  actions_left w.(phase) = n → wal_inv io w stored L → current_job w.(phase) = Some j →
  j.(UpdateLog.job_stop_flag) = false → w.(status).(LogStatus.queue) = [] →
  last < length stored → syncing last w → run_writer n io w = Ok w' →
  last < w'.(status).(LogStatus.sync_pos).
Proof.
  revert w L; induction n as [|n IH]; intros w L Hn Hinv Hj Hstop Hq Hlt Hsy Hrun;
    destruct (work_step io w stored L j Hinv Hj Hstop)
      as (w1 & L1 & E & Hi1 & Hq1 & _ & _ & _ & _ & Hph & Hl); [lia|].
  rewrite (run_writer_step n _ _ _ E) in Hrun.
  assert (syncing last w1) as Hsy1.
  { pose proof (wi_stored _ _ _ _ Hinv) as Hst. pose proof (wa_position _ _ _ _ _ (wi_writer _ _ _ _ Hinv)) as Hpos.
    rewrite Hq in Hst. unfold writer_step in E. unfold syncing in *.
    destruct (phase w) as [|j' [|buf rest]|j'|j'|j'|] eqn:Eph; try done; simpl in Hst.
    - by injection E as <-.
    - apply bind_Ok_inv in E as ([d wr] & _ & [= <-]). done.
    - injection E as <-. destruct Hsy as [Hf Hp]. simpl. unfold UpdateLog.publish_sync.
      rewrite Hf, Hp, Hpos. rewrite app_nil_r in Hst. subst L. by rewrite (proj2 (Nat.ltb_lt _ _) Hlt).
    - by apply bind_Ok_inv in E as (d & _ & [= <-]).
    - apply bind_Ok_inv in E as (s & Es & [= <-]). unfold UpdateLog.publish in Es.
      apply bind_Ok_inv in Es as (_ & _ & [= <-]). simpl. by destruct (UpdateLog.job_stop_flag j'). }
  destruct Hph as [Hw|Hj1].
  - rewrite Hw in Hl. simpl in Hl. assert (n = 0) as -> by lia. injection Hrun as <-.
    unfold syncing in Hsy1. by rewrite Hw in Hsy1.
  - apply (IH w1 L1); try done; [lia|by rewrite Hq1].
Qed.

(** The writer takes a job for a sync request. *)
Lemma sync_job_taken io w stored :
  idle io w stored →
  let s := w.(status) in
  let w1 := set_status w (LogStatus.mk s.(LogStatus.queue_pos) s.(LogStatus.write_pos)
    s.(LogStatus.sync_pos) s.(LogStatus.queue) true s.(LogStatus.offset_pos)
    s.(LogStatus.flush_pos) s.(LogStatus.stop_flag)) in
  ∃ j s', writer_step io w1 = Ok (Some (mkWal s' w.(writer) (Writing j []) w.(disk))) ∧
    j.(UpdateLog.job_sync_flag) = true ∧ j.(UpdateLog.job_sync_pos) = s.(LogStatus.sync_pos) ∧
    j.(UpdateLog.job_stop_flag) = false ∧ s'.(LogStatus.queue) = [].
Proof.
  intros [Hi Hp Hq Hf Hs Hst] s w1. destruct w as [st wr ph d]. subst s w1.
  unfold writer_step, set_status in *. cbn [status phase writer disk] in *. rewrite Hp. unfold UpdateLog.take_job.
  cbn [LogStatus.flush_pos LogStatus.offset_pos LogStatus.queue LogStatus.sync_flag].
  rewrite Hf, Hq, Nat.ltb_irrefl, Nat.eqb_refl. cbn [assert_that]. run_bind. simpl. rewrite assert_Ok.
  2: { apply Nat.eqb_eq. pose proof (wa_position _ _ _ _ _ (wi_writer _ _ _ _ Hi)) as Hpos.
    pose proof (wi_waiting _ _ _ _ Hi) as Hwp. simpl in Hpos, Hwp. rewrite Hpos, Hwp; [done|by rewrite Hp]. }
  simpl. do 2 eexists. by split_and!.
Qed.

(** [sync] only waits for the writer. *)
Lemma wal_sync_ok io w stored :
  idle io w stored →
  ∃ w', WalCalls.sync io w = Ok ((), w') ∧ idle io w' stored ∧
    same_other_files w.(disk) w'.(disk) ∧
    w'.(status).(LogStatus.offset_pos) = w.(status).(LogStatus.offset_pos).
Proof.
  intros Hidle. pose proof Hidle as [Hi Hp Hq Hf Hs Hst]. unfold WalCalls.sync.
  pose proof (wi_sync _ _ _ _ Hi) as Hsy. pose proof (wi_waiting _ _ _ _ Hi ltac:(by rewrite Hp)) as Hwp.
  destruct (WriteAheadLog.sync (status w)) as [[last s]| | |] eqn:E;
    pose proof E as E'; unfold WriteAheadLog.sync in E'; destruct (_ =? _) eqn:Eq; simplify_eq; bool_to_prop.
  - run_bind. exists w. destruct w. by split_and!; [|done|apply same_other_files_refl|].
  - rewrite assert_Ok in E' by (apply Nat.ltb_lt; lia). injection E' as <- <-. run_bind.
    destruct (step_inv io w stored _ _ stored Hi (step_sync io w stored _ _ E)) as [L HL].
    destruct (settle_ok io _ _ _ HL Hp Hst) as (w' & Es & Hidle' & Ho & Hoff).
    rewrite Es. run_bind. unfold wait_until.
    assert (LogStatus.sync_pos (status w) < LogStatus.sync_pos (status w')) as Hlt.
    { unfold settle in Es.
      match type of Es with run_writer ?n _ _ = _ => replace n with 5 in Es by (simpl; by rewrite Hq) end.
      destruct (sync_job_taken io w stored Hidle) as (j & s1 & Ej & Hsf & Hsp & Hjs & Hqe).
      rewrite (run_writer_step _ _ _ _ Ej) in Es.
      destruct (writer_step_ok io _ stored L HL) as (r & E2 & Hr). rewrite Ej in E2. injection E2 as <-.
      destruct Hr as (L1 & Hi1 & _).
      eapply (sync_round io 4 _ w' stored L1 j); [|exact Hi1|done|done|done|lia|by split|exact Es]. done. }
    unfold WriteAheadLog.sync_done. rewrite (proj2 (Nat.ltb_lt _ _) Hlt). exists w'. by split_and!.
  - rewrite assert_Ok in E' by (apply Nat.ltb_lt; lia). done.
  - rewrite assert_Ok in E' by (apply Nat.ltb_lt; lia). done.
  - rewrite assert_Ok in E' by (apply Nat.ltb_lt; lia). done.
Qed.

(** [set_offset] moves the offset. *)
Lemma wal_set_offset_ok io w stored off :
  idle io w stored → w.(status).(LogStatus.offset_pos) < N.to_nat off <= length stored →
  ∃ w', WalCalls.set_offset io w off = Ok ((), w') ∧ idle io w' stored ∧
    same_other_files w.(disk) w'.(disk) ∧ w'.(status).(LogStatus.offset_pos) = N.to_nat off.
Proof.
  intros [Hi Hp Hq Hf Hs Hst] [Hlt Hle]. unfold WalCalls.set_offset.
  assert (WriteAheadLog.set_offset (status w) (N.to_nat off) = Ok (LogStatus.mk
    (LogStatus.queue_pos (status w)) (LogStatus.write_pos (status w)) (LogStatus.sync_pos (status w))
    (LogStatus.queue (status w)) (LogStatus.sync_flag (status w)) (N.to_nat off)
    (LogStatus.flush_pos (status w)) (LogStatus.stop_flag (status w)))) as E.
  { unfold WriteAheadLog.set_offset. by rewrite (proj2 (Nat.leb_gt _ _) Hlt). }
  rewrite E. run_bind.
  assert (WriteAheadLog.store_done (status w) (N.to_nat off) = true) as Hd.
  { unfold WriteAheadLog.store_done.
    rewrite (wi_waiting _ _ _ _ Hi) by (by rewrite Hp). by apply Nat.leb_le. }
  destruct (step_inv io w stored _ _ stored Hi (step_set_offset io w stored _ _ Hd E)) as [L HL].
  destruct (settle_ok io _ _ _ HL Hp Hst) as (w' & Es & Hidle & Ho & Hoff). simpl in Hoff.
  rewrite Es. run_bind. unfold wait_until. pose proof (idle_served _ _ _ Hidle) as (_ & Hdone & _).
  rewrite Hoff in Hdone. rewrite Hdone. exists w'. by split_and!.
Qed.
