(* ===== verification/Logic.v ===== *)
(** * The database logic (src/src/logic.rs)

    [DbLogic] composes the memtables, the levels and the write-ahead log.  Every
    public operation is one definition on the state below; [env] holds the files,
    the block caches and the manifest that the components share.  A writer that
    has to wait for the compaction of an immutable memtable is the [pending]
    field: it holds the lock of the memtable, so no other write or read runs
    until [write_resume]. *)

From stdpp Require Import base list gmap strings.
From Stdlib Require Import Strings.Byte NArith ZArith Lia.
From S2P Require Import Prelude WriteBatch Iterator Memtable Disk Wal WalStatus WalCalls Manifest DataBlock DataBlocks IndexBlock SortedTable TableIterator Iterate DbIterator Level Compaction.

Local Open Scope nat_scope.
Local Open Scope lsm_scope.

(** [enum CompactResult] *)
Inductive CompactResult := NothingToDo | DidWork | Locked.

(** What is at [db_path] when a database is opened. *)
Inductive DbPath := Missing | NotFolder | Folder (d : Disk).

Module DbLogic.

(** [struct DbLogic] (the parameters are an argument, the level logger only
    writes statistics). *)
Record DbLogic `{Bloom} `{LruCache DataBlock.DataBlock} := mk {
  memtable : MemtableRef.MemtableRef;
  imm_memtables : list (N * Memtable.Memtable);
  pending : option (N * Memtable.Memtable);
  levels : list Level.Level;
  wal : Log;
  env : Env;
}.

#[global] Arguments mk {_ _} _ _ _ _ _ _.

Section ops.
Context `{Bloom} `{Compression} `{LruCache DataBlock.DataBlock}.
Context (params : Params.Params) (io : IoMode).

Definition set_memtable (m : MemtableRef.MemtableRef) : st DbLogic unit := λ s,
  Ok ((), mk m s.(imm_memtables) s.(pending) s.(levels) s.(wal) s.(env)).

Definition set_imm (imm : list (N * Memtable.Memtable)) : st DbLogic unit := λ s,
  Ok ((), mk s.(memtable) imm s.(pending) s.(levels) s.(wal) s.(env)).

Definition set_pending (p : option (N * Memtable.Memtable)) : st DbLogic unit := λ s,
  Ok ((), mk s.(memtable) s.(imm_memtables) p s.(levels) s.(wal) s.(env)).

(** [self.levels[i]], and its new state. *)
Definition get_level (i : nat) : st DbLogic Level.Level := λ s,
  l ← expect (s.(levels) !! i) "index out of bounds"; Ok (l, s).

Definition set_level (i : nat) (l : Level.Level) : st DbLogic unit := λ s,
  Ok ((), mk s.(memtable) s.(imm_memtables) s.(pending) (<[i := l]> s.(levels))
    s.(wal) s.(env)).

(** Reading a field. *)
Definition gets {A} (f : DbLogic → A) : st DbLogic A := λ s, Ok (f s, s).

(** An operation on the files, caches and the manifest. *)
Definition on_env {A} (f : st Env A) : st DbLogic A := λ s,
  '(a, e) ← f s.(env);
  Ok (a, mk s.(memtable) s.(imm_memtables) s.(pending) s.(levels) s.(wal) e).

(** An operation on the manifest. *)
Definition on_manifest (f : Manifest.Manifest → outcome Manifest.Manifest) : st DbLogic unit :=
  on_env (λ e, m ← f e.(env_manifest);
    Ok ((), {| env_disk := e.(env_disk); env_caches := e.(env_caches); env_manifest := m |})).

(** A call of the log. *)
Definition on_wal {A} (f : WalState → outcome (A * WalState)) : st DbLogic A := λ s,
  let e := s.(env) in
  '(a, w) ← f (mkWal s.(wal).(log_status) s.(wal).(log_writer) s.(wal).(log_phase) e.(env_disk));
  Ok (a, mk s.(memtable) s.(imm_memtables) s.(pending) s.(levels)
    (mkLog w.(WalStatus.status) w.(WalStatus.writer) w.(WalStatus.phase))
    {| env_disk := w.(WalStatus.disk); env_caches := e.(env_caches);
       env_manifest := e.(env_manifest) |}).

(** ** Lookup *)

(** The entry of a memtable, when it has the key: [Some None] for a deletion. *)
Definition lookup_memtable (m : Memtable.Memtable) (key : Key) : option (option EntryRef.EntryRef) :=
  match Memtable.get m key with
  | Some entry =>
      match MemtableEntryRef.get_type entry with
      | TPut => Some (Some (EntryRef.Memtable entry))
      | TDelete => Some None
      end
  | None => None
  end.

(** The loop of [get] over the immutable memtables, the newest one first. *)
Fixpoint lookup_memtables (imms : list (N * Memtable.Memtable)) (key : Key)
  : option (option EntryRef.EntryRef) :=
  match imms with
  | [] => None
  | (_, m) :: imms' =>
      match lookup_memtable m key with
      | Some r => Some r
      | None => lookup_memtables imms' key
      end
  end.

(** The loop of [get] over [n] levels, from position [i] on. *)
Fixpoint lookup_levels (n i : nat) (key : Key) (compaction_triggered : bool)
  : st DbLogic (bool * option EntryRef.EntryRef) :=
  match n with
  | O => mret (compaction_triggered, None)
  | S n' =>
      level ← get_level i;
      '(level, (level_compact_triggered, result)) ← on_env (Level.get params level key);
      _ ← set_level i level;
      let compaction_triggered := compaction_triggered || level_compact_triggered in
      match result with
      | Some entry =>
          ty ← lift (DataBlock.get_type entry);
          match ty with
          | TPut => mret (compaction_triggered, Some (EntryRef.SortedTable entry))
          | TDelete => mret (compaction_triggered, None)
          end
      | None => lookup_levels n' (S i) key compaction_triggered
      end
  end.

(** [DbLogic::get] *)
Definition get (key : Key) : st DbLogic (bool * option EntryRef.EntryRef) :=
  memtable ← gets memtable;
  match lookup_memtable memtable.(MemtableRef.inner) key with
  | Some r => mret (false, r)
  | None =>
      imm_mems ← gets imm_memtables;
      match lookup_memtables (reverse imm_mems) key with
      | Some r => mret (false, r)
      | None =>
          levels ← gets levels;
          lookup_levels (length levels) 0 key false
      end
  end.

(** ** Iteration *)

(** The iterators over the tables of one level that may have keys in the range. *)
Fixpoint open_overlapping (reverse : bool) (ts : list SortedTable.SortedTable)
    (min_key max_key : option Key) : st Env (list TableIterator.TableIterator) :=
  match ts with
  | [] => mret []
  | t :: ts' =>
      below ← match min_key with
              | Some min_key => max ← lift (SortedTable.get_max t); mret (key_ltb max min_key)
              | None => mret false
              end;
      above ← match max_key with
              | Some max_key => min ← lift (SortedTable.get_min t); mret (key_ltb max_key min)
              | None => mret false
              end;
      if (below : bool) || above then open_overlapping reverse ts' min_key max_key else
      it ← TableIterator.new params t reverse;
      its ← open_overlapping reverse ts' min_key max_key;
      mret (it :: its)
  end.

Fixpoint open_levels (reverse : bool) (ls : list Level.Level) (min_key max_key : option Key)
  : st Env (list TableIterator.TableIterator) :=
  match ls with
  | [] => mret []
  | l :: ls' =>
      its ← open_overlapping reverse l.(Level.tables) min_key max_key;
      rest ← open_levels reverse ls' min_key max_key;
      mret (its ++ rest)
  end.

(** The common part of the two functions below. *)
Definition prepare (reverse : bool) (min_key max_key : option Key)
  : st DbLogic (list MemtableIterator.MemtableIterator * list TableIterator.TableIterator *
                option Key * option Key) :=
  _ ← lift (match min_key, max_key with
            | Some min_key, Some max_key =>
                assert_that (key_ltb min_key max_key) "assertion failed: min_key < max_key"
            | _, _ => Ok ()
            end);
  memtable ← gets memtable;
  imm_mems ← gets imm_memtables;
  mem_iters ← lift (mapM (λ m, MemtableIterator.new m reverse)
                      (memtable.(MemtableRef.inner) :: imm_mems.*2));
  levels ← gets levels;
  table_iters ← on_env (open_levels reverse levels min_key max_key);
  mret (mem_iters, table_iters, min_key, max_key).

(** [DbLogic::prepare_iter] and [DbLogic::prepare_reverse_iter] *)
Definition prepare_iter (min_key max_key : option Key) := prepare false min_key max_key.
Definition prepare_reverse_iter (max_key min_key : option Key) := prepare true min_key max_key.

(** ** Writes *)

(** [DbLogic::synchronize] *)
Definition synchronize : st DbLogic unit := on_wal (WalCalls.sync io).

(** The end of [write_opts]: the full memtable is handed over once there is no
    other immutable memtable; otherwise the writer waits. *)
Definition write_resume : st DbLogic unit :=
  p ← gets pending;
  imm_mems ← gets imm_memtables;
  match p, imm_mems with
  | Some imm, [] => _ ← set_imm [imm]; set_pending None
  | _, _ => mret ()
  end.

(** [DbLogic::write_opts]: the result, and whether a memtable was filled. *)
Definition write_opts (write_batch : list WriteOp) (opt : WriteOptions) : st DbLogic bool :=
  memtable ← gets memtable;
  wal_offset ← on_wal (λ w, WalCalls.store io w write_batch);
  _ ← (if opt.(sync) then on_wal (WalCalls.sync io) else mret ());
  mem_inner ← lift (Memtable.apply_ops memtable.(MemtableRef.inner) write_batch);
  let memtable := MemtableRef.wrap mem_inner in
  if Memtable.is_full mem_inner params then
    let next_seq_num := Memtable.get_next_seq_number mem_inner in
    let '(imm, memtable) := MemtableRef.take memtable next_seq_num in
    _ ← set_memtable memtable;
    _ ← set_pending (Some (wal_offset, imm));
    _ ← write_resume;
    mret true
  else
    _ ← set_memtable memtable;
    mret false.

(** ** Memtable compaction *)

(** The loop that adds the entries of the memtable to the new table. *)
Fixpoint add_memtable_entries (tb : TableBuilder.TableBuilder) (entries : list (Key * MemtableEntry))
  : st Env TableBuilder.TableBuilder :=
  match entries with
  | [] => mret tb
  | (key, mem_entry) :: entries' =>
      tb ← match mem_entry with
           | MValue seq_number value => TableBuilder.add_value params tb key seq_number value
           | MDeletion seq_number => TableBuilder.add_deletion params tb key seq_number
           end;
      add_memtable_entries tb entries'
  end.

(** [DbLogic::do_memtable_compaction] *)
Definition do_memtable_compaction : st DbLogic bool :=
  imm_mems ← gets imm_memtables;
  match imm_mems with
  | [] => mret false
  | (log_offset, mem) :: _ =>
      '(min_key, max_key) ← lift (Memtable.get_min_max_key mem);
      l0 ← get_level 0;
      table_id ← on_env Level.generate_table_id;
      tb ← lift (Level.build_table table_id min_key max_key);
      tb ← on_env (add_memtable_entries tb (Memtable.get_entries mem));
      table ← on_env (TableBuilder.finish params tb);
      let table_id := SortedTable.get_id table in
      l0 ← lift (Level.add_l0_table l0 table);
      _ ← set_level 0 l0;
      let seq_offset := Memtable.get_next_seq_number mem in
      _ ← on_manifest (λ m, Manifest.set_seq_number_offset m seq_offset);
      _ ← on_manifest (λ m, Manifest.update_table_set m [(0%N, table_id)] []);
      _ ← on_wal (λ w, WalCalls.set_offset io w log_offset);
      _ ← on_manifest (λ m, Manifest.set_log_offset m log_offset);
      imm_mems ← gets imm_memtables;
      _ ← lift (assert_that (negb (length imm_mems =? 0)) "assertion failed: entry.is_some()");
      _ ← set_imm (tail imm_mems);
      mret true
  end.

(** ** Level compaction *)

(** The range of the tables. *)
Fixpoint range_of (ts : list SortedTable.SortedTable) (min_key max_key : Key) : outcome (Key * Key) :=
  match ts with
  | [] => Ok (min_key, max_key)
  | t :: ts' =>
      tmin ← SortedTable.get_min t;
      tmax ← SortedTable.get_max t;
      range_of ts' (key_min min_key tmin) (key_max max_key tmax)
  end.

(** [abort_compaction] of the shared tables. *)
Fixpoint abort_tables (ts : list SortedTable.SortedTable) (aborted : list SortedTable.SortedTable)
  : outcome (list SortedTable.SortedTable) :=
  match aborted with
  | [] => Ok ts
  | t :: aborted' =>
      pos ← expect (Level.position_of ts (SortedTable.get_id t)) "no such table";
      t ← expect (ts !! pos) "index out of bounds";
      t ← SortedTable.abort_compaction t;
      abort_tables (<[pos := t]> ts) aborted'
  end.

(** Removes the tables from the list of a level. *)
Fixpoint remove_all (ts : list SortedTable.SortedTable) (removed : list SortedTable.SortedTable)
  : outcome (list SortedTable.SortedTable) :=
  match removed with
  | [] => Ok ts
  | t :: removed' =>
      pos ← expect (Level.position_of ts (SortedTable.get_id t)) "assertion failed: found";
      remove_all (vec_remove pos ts) removed'
  end.

(** The position of the first table with a greater minimum. *)
Fixpoint find_greater (ts : list SortedTable.SortedTable) (min : Key) : outcome (option nat) :=
  match ts with
  | [] => Ok None
  | t :: ts' =>
      tmin ← SortedTable.get_min t;
      if key_ltb min tmin then Ok (Some 0) else
      r ← find_greater ts' min;
      Ok (option_map S r)
  end.

(** [DbLogic::fast_compaction] *)
Definition fast_compaction (parent child : nat) (table_id : N) : st DbLogic unit :=
  parent_level ← get_level parent;
  child_level ← get_level child;
  let all_parent_tables := parent_level.(Level.tables) in
  let all_child_tables := child_level.(Level.tables) in
  pos ← lift (expect (Level.position_of all_parent_tables table_id) "Entry for parent table not found");
  table ← lift (expect (all_parent_tables !! pos) "index out of bounds");
  let all_parent_tables := vec_remove pos all_parent_tables in
  tmin ← lift (SortedTable.get_min table);
  new_pos ← lift (find_greater all_child_tables tmin);
  let new_pos := default 0 new_pos in
  child_level ← lift (Level.remove_table_placeholder child_level table_id);
  let all_parent_tables :=
    match Level.position_of all_parent_tables table_id with
    | Some pos => vec_remove pos all_parent_tables
    | None => all_parent_tables
    end in
  let add_set := [(child_level.(Level.index), table_id)] in
  let remove_set := [(parent_level.(Level.index), table_id)] in
  _ ← on_manifest (λ m, Manifest.update_table_set m add_set remove_set);
  table ← lift (SortedTable.finish_fast_compaction table);
  _ ← set_level parent (Level.set_tables parent_level all_parent_tables);
  set_level child (Level.set_tables child_level (vec_insert new_pos table all_child_tables)).

(** The end of [compact_level], once the new table was written: the table lists
    and the manifest are updated. *)
Definition install (parent child : nat) (table_id : N)
    (parents children : list SortedTable.SortedTable) (new_table : SortedTable.SortedTable)
  : st DbLogic CompactResult :=
  parent_level ← get_level parent;
  child_level ← get_level child;
  let add_set := [(child_level.(Level.index), SortedTable.get_id new_table)] in
  all_child_tables ← lift (remove_all child_level.(Level.tables) children);
  nmin ← lift (SortedTable.get_min new_table);
  new_pos ← lift (find_greater all_child_tables nmin);
  let new_pos := default (length all_child_tables) new_pos in
  let all_child_tables := vec_insert new_pos new_table all_child_tables in
  child_level ← lift (Level.remove_table_placeholder child_level table_id);
  all_parent_tables ← lift (remove_all parent_level.(Level.tables) parents);
  let remove_set :=
    ((λ t, (child_level.(Level.index), SortedTable.get_id t)) <$> children) ++
    ((λ t, (parent_level.(Level.index), SortedTable.get_id t)) <$> parents) in
  _ ← set_level child (Level.set_tables child_level all_child_tables);
  _ ← set_level parent (Level.set_tables parent_level all_parent_tables);
  _ ← on_manifest (λ m, Manifest.update_table_set m add_set remove_set);
  mret DidWork.

(** The part of [compact_level] after [maybe_start_compaction] took the tables
    [parents]; [fuel] bounds the entries of the merged tables. *)
Definition compact_started (fuel parent child : nat) (parent_level child_level : Level.Level)
    (parents : list SortedTable.SortedTable) : st DbLogic CompactResult :=
  first ← lift (expect (head parents) "assertion failed: !parent_tbls_to_compact.is_empty()");
  min_key ← lift (SortedTable.get_min first);
  max_key ← lift (SortedTable.get_max first);
  '(min_key, max_key) ← lift (range_of (tail parents) min_key max_key);
  let fast_path := if length parents =? 1 then Some (SortedTable.get_id first) else None in
  '(child_level, overlap_result) ← on_env (Level.get_overlaps child_level min_key max_key fast_path);
  _ ← set_level child child_level;
  match overlap_result with
  | None =>
      tables ← lift (abort_tables parent_level.(Level.tables) parents);
      _ ← set_level parent (Level.set_tables parent_level tables);
      mret NothingToDo
  | Some (table_id, children) =>
      if (length parents =? 1) && (length children =? 0) then
        _ ← lift (assert_that (SortedTable.get_id first =? table_id)%N
                    "assertion `left == right` failed");
        _ ← fast_compaction parent child table_id;
        mret DidWork
      else
        '(min_key, max_key) ← lift (range_of children min_key max_key);
        _ ← lift (assert_that (key_leb min_key max_key) "assertion failed: min_key <= max_key");
        new_table ← on_env (Compaction.merge_tables params fuel fuel table_id min_key max_key
                              (parents ++ children));
        install parent child table_id parents children new_table
  end.

(** [DbLogic::compact_level] *)
Definition compact_level (fuel parent child : nat) : st DbLogic CompactResult :=
  parent_level ← get_level parent;
  child_level ← get_level child;
  _ ← lift (assert_that (parent_level.(Level.index) + 1 =? child_level.(Level.index))%N
              "assertion `left == right` failed");
  '(parent_level, started) ← lift (Level.maybe_start_compaction parent_level);
  _ ← set_level parent parent_level;
  match started with
  | NothingToStart => mret NothingToDo
  | Contended => mret Locked
  | Started parents => compact_started fuel parent child parent_level child_level parents
  end.

(** The loop of [DbLogic::do_level_compaction] over [n] levels from [level_pos] on. *)
Fixpoint compact_levels (fuel n level_pos : nat) (was_locked : bool) : st DbLogic bool :=
  match n with
  | O => mret was_locked
  | S n' =>
      if level_pos <? params.(Params.num_levels) - 1 then
        r ← compact_level fuel level_pos (level_pos + 1);
        match r with
        | DidWork => mret true
        | Locked => compact_levels fuel n' (S level_pos) true
        | NothingToDo => compact_levels fuel n' (S level_pos) was_locked
        end
      else compact_levels fuel n' (S level_pos) was_locked
  end.

(** [DbLogic::do_level_compaction] *)
Definition do_level_compaction (fuel : nat) : st DbLogic bool :=
  levels ← gets levels;
  compact_levels fuel (length levels) 0 false.

(** [DbLogic::stop] *)
Definition stop : st DbLogic unit := on_wal (WalCalls.stop io).

(** ** Opening a database *)

(** Whether a new database is created, and the files to start with. *)
Definition start (start_mode : StartMode) (path : DbPath) : outcome (bool * Disk) :=
  if String.eqb params.(Params.db_path) "" then Err (InvalidParams "DB path must not be empty!") else
  match path with
  | NotFolder => Err (InvalidParams "DB path must be a folder!")
  | Missing =>
      match start_mode with
      | Open => Err (InvalidParams "DB does not exist")
      | CreateOrOpen | CreateOrOverride => Ok (true, ∅)
      end
  | Folder d =>
      match start_mode with
      | CreateOrOverride => Ok (true, ∅)
      | CreateOrOpen | Open => Ok (false, d)
      end
  end.

(** The tables of one level, then those of all levels, in the order the
    manifest lists them. *)
Fixpoint load_tables (levels : list Level.Level) (level_id : nat) (tables : list N)
  : st Env (list Level.Level) :=
  match tables with
  | [] => mret levels
  | table_id :: tables' =>
      level ← lift (expect (levels !! level_id) "index out of bounds");
      level ← Level.load_table params level table_id;
      load_tables (<[level_id := level]> levels) level_id tables'
  end.

Fixpoint load_levels (levels : list Level.Level) (level_id : nat) (table_ids : list (list N))
  : st Env (list Level.Level) :=
  match table_ids with
  | [] => mret levels
  | tables :: table_ids' =>
      levels ← load_tables levels level_id tables;
      load_levels levels (S level_id) table_ids'
  end.

(** [DbLogic::new]; [fuel] and [rfuel] bound the entries and the bytes that are
    recovered from the log. *)
Definition new (fuel rfuel : nat) (start_mode : StartMode) (path : DbPath) : outcome DbLogic :=
  '(create, d) ← start start_mode path;
  '(manifest, memtable, wal) ←
    (if (create : bool) then
       manifest ← Manifest.new params;
       Ok (manifest, MemtableRef.wrap (Memtable.new 1), WalCalls.new d)
     else
       manifest ← Manifest.open params d;
       seq ← Manifest.get_seq_number_offset manifest;
       log_offset ← Manifest.get_log_offset manifest;
       '(w, _, mtable) ← WalCalls.open fuel rfuel d log_offset (Memtable.new seq);
       Ok (manifest, MemtableRef.wrap mtable, w));
  caches ← DataBlocks.new params;
  if params.(Params.num_levels) =? 0 then Panic "Need at least one level!" else
  let levels := (λ index, Level.new params (as_u32 index)) <$> seq 0 params.(Params.num_levels) in
  let e := {| env_disk := wal.(WalStatus.disk); env_caches := caches; env_manifest := manifest |} in
  '(levels, e) ←
    ((if (create : bool) then Ok (levels, e) else
      table_ids ← Manifest.get_table_ids manifest;
      load_levels levels 0 table_ids e) : outcome (list Level.Level * Env));
  Ok (mk memtable [] None levels
        (mkLog wal.(WalStatus.status) wal.(WalStatus.writer) wal.(WalStatus.phase)) e).

End ops.

End DbLogic.
