(* ===== verification/Sources.v ===== *)
(** * What a stack of sources holds

    The database looks a key up in a sequence of sources, from the newest to the
    oldest; every source is a list of items, sorted by key.  This file states
    what such a sequence holds and when searching it in order finds the newest
    item of a key. *)

From stdpp Require Import base list gmap strings sorting.
From Stdlib Require Import Strings.Byte NArith ZArith Lia.
From S2P Require Import Prelude WriteBatch Iterator Memtable Iterate.

Local Open Scope nat_scope.
Local Open Scope lsm_scope.

(** Everything in [L1] is newer than what [L2] has for the same key. *)
Definition newer_than (L1 L2 : list Item) : Prop :=
  ∀ x y, x ∈ L1 → y ∈ L2 → item_key x = item_key y → (item_seq y < item_seq x)%N.

(** From the newest to the oldest. *)
Definition newest_first (Ls : list (list Item)) : Prop := StronglySorted newer_than Ls.

(** The item of a key in one source. *)
Definition find_key (k : Key) (L : list Item) : option Item :=
  head (filter (λ x, item_key x = k) L).

(** The first source that has the key. *)
Fixpoint find_item (k : Key) (Ls : list (list Item)) : option Item :=
  match Ls with
  | [] => None
  | L :: Ls' => match find_key k L with Some x => Some x | None => find_item k Ls' end
  end.

(** The value an item stands for: none for a deletion. *)
Definition item_value (x : Item) : option Value :=
  match item_type x, item_shown x with TPut, Some v => v | _, _ => None end.

(** The value of a key. *)
Definition value_of (Ls : list (list Item)) (k : Key) : option Value :=
  find_item k Ls ≫= item_value.

(** The sources hold the map [M]. *)
Definition holds (Ls : list (list Item)) (M : gmap Key Value) : Prop :=
  ∀ k, value_of Ls k = M !! k.

(** What a batch of writes does to the map. *)
Definition write (M : gmap Key Value) (op : WriteOp) : gmap Key Value :=
  match op with Put k v => <[k := v]> M | Delete k => delete k M end.

Definition write_all (M : gmap Key Value) (ops : list WriteOp) : gmap Key Value := foldl write M ops.

(** ** Lookup *)

Lemma find_key_Some k L x : find_key k L = Some x → x ∈ L ∧ item_key x = k.
Proof.
  unfold find_key. intros Hh. apply head_Some_elem_of in Hh.
  apply list_elem_of_filter in Hh as [? ?]. done.
Qed.

Lemma find_key_None k L : find_key k L = None ↔ k ∉ item_key <$> L.
Proof.
  unfold find_key. rewrite head_None, list_elem_of_fmap. split.
  - intros Hf (x & -> & Hx). by apply (filter_nil_not_elem_of _ _ x) in Hf.
  - intros Hn. destruct (filter _ L) as [|x l] eqn:E; [done|]. destruct Hn.
    assert (x ∈ filter (λ y, item_key y = k) L) as [? ?]%list_elem_of_filter by (rewrite E; set_solver).
    eauto.
Qed.

Lemma find_item_app k Ls1 Ls2 :
  find_item k (Ls1 ++ Ls2) =
    match find_item k Ls1 with Some x => Some x | None => find_item k Ls2 end.
Proof. induction Ls1 as [|L Ls1 IH]; [done|]. simpl. by destruct (find_key k L). Qed.

Lemma find_item_in k Ls x : find_item k Ls = Some x → (∃ L, L ∈ Ls ∧ x ∈ L) ∧ item_key x = k.
Proof.
  induction Ls as [|L Ls IH]; simpl; [done|]. destruct (find_key k L) as [y|] eqn:E.
  - intros [= ->]. apply find_key_Some in E as [? ?]. split; [exists L; set_solver|done].
  - intros Hf. destruct (IH Hf) as [(L' & ? & ?) ?]. split; [exists L'; set_solver|done].
Qed.

Lemma find_item_None k Ls : find_item k Ls = None ↔ ∀ L x, L ∈ Ls → x ∈ L → item_key x ≠ k.
Proof.
  induction Ls as [|L Ls IH]; simpl.
  - split; [|done]. intros _ L x ?%not_elem_of_nil. done.
  - destruct (find_key k L) as [y|] eqn:E.
    + apply find_key_Some in E as [Hy Hk]. split; [done|]. intros Hn.
      by destruct (Hn L y ltac:(set_solver) Hy).
    + apply find_key_None in E. rewrite IH. split.
      * intros Hn L' x [->|HL']%elem_of_cons Hx Hk; [|by apply (Hn L' x)].
        apply E, list_elem_of_fmap. eauto.
      * intros Hn L' x HL' Hx. apply (Hn L' x); [set_solver|done].
Qed.

(** ** The newest item *)

Lemma StronglySorted_lookup_lt {A} (R : A → A → Prop) l i j x y :
  StronglySorted R l → i < j → l !! i = Some x → l !! j = Some y → R x y.
Proof.
  intros Hs. revert i j; induction Hs as [|a l Hs IH Ha]; intros i j Hij Hi Hj; [done|].
  destruct j as [|j]; [lia|]. destruct i as [|i]; simpl in Hi, Hj.
  - injection Hi as ->. rewrite Forall_forall in Ha. by eapply Ha, list_elem_of_lookup_2.
  - apply (IH i j); [lia|done|done].
Qed.

(** A key occurs once in a source. *)
Lemma dir_sorted_unique rev L x y :
  dir_sorted rev L → x ∈ L → y ∈ L → item_key x = item_key y → x = y.
Proof.
  intros Hs [i Hi]%list_elem_of_lookup [j Hj]%list_elem_of_lookup Hk.
  assert (∀ i j a b, i < j → L !! i = Some a → L !! j = Some b → item_key a = item_key b → False) as Hno.
  { intros i' j' a b Hij Ha Hb Hab. apply (before_irrefl rev (item_key b)).
    rewrite <-Hab at 1. apply (StronglySorted_lookup_lt _ _ i' j' _ _ Hs Hij);
      by rewrite list_lookup_fmap, ?Ha, ?Hb. }
  destruct (Nat.lt_trichotomy i j) as [Hij|[->|Hij]]; [by destruct (Hno i j x y)|congruence|].
  by destruct (Hno j i y x).
Qed.

Lemma newest_first_app Ls1 Ls2 :
  newest_first (Ls1 ++ Ls2) ↔
  (∀ L1 L2, L1 ∈ Ls1 → L2 ∈ Ls2 → newer_than L1 L2) ∧ newest_first Ls1 ∧ newest_first Ls2.
Proof. apply StronglySorted_app. Qed.

(** Searching in order finds an item that is at least as new as all others. *)
Lemma find_item_newest k Ls x :
  newest_first Ls → Forall (dir_sorted false) Ls → find_item k Ls = Some x → newest Ls x.
Proof.
  intros Hn Hs Hf. split; [by apply (find_item_in k)|].
  revert Hf; induction Hn as [|L Ls Hn IH HL]; simpl; [done|].
  apply Forall_cons in Hs as [HsL Hs]. intros Hf L' y [->|HL']%elem_of_cons Hy Hk.
  - destruct (find_key k L) as [z|] eqn:E.
    + injection Hf as ->. apply find_key_Some in E as [Hx <-].
      by rewrite (dir_sorted_unique false L y x).
    + apply find_item_in in Hf as [_ Hkx]. apply find_key_None in E. destruct E.
      apply list_elem_of_fmap. exists y. split; [congruence|done].
  - destruct (find_key k L) as [z|] eqn:E; [|by apply (IH Hs Hf L')].
    injection Hf as ->. apply find_key_Some in E as [Hx _].
    rewrite Forall_forall in HL. apply N.lt_le_incl, (HL L' HL' x y); [done|done|by symmetry].
Qed.

(** A newest item is the one that is found. *)
Lemma newest_found Ls x :
  newest_first Ls → Forall (dir_sorted false) Ls → newest Ls x → find_item (item_key x) Ls = Some x.
Proof.
  intros Hn Hs [(L & HL & Hx) Hmax]. destruct (find_item (item_key x) Ls) as [y|] eqn:E.
  - f_equal. pose proof (find_item_newest _ _ _ Hn Hs E) as [(L' & HL' & Hy) Hmaxy].
    apply find_item_in in E as [_ Hk].
    pose proof (Hmax L' y HL' Hy Hk). pose proof (Hmaxy L x HL Hx (eq_sym Hk)).
    apply list_elem_of_lookup in HL as [i Hi], HL' as [j Hj].
    assert (∀ i j L1 L2 a b, i < j → Ls !! i = Some L1 → Ls !! j = Some L2 → a ∈ L1 → b ∈ L2 →
      item_key a = item_key b → (item_seq b < item_seq a)%N) as Hord.
    { intros i' j' L1 L2 a b Hij H1 H2 Ha Hb Hab.
      by apply (StronglySorted_lookup_lt _ _ _ _ _ _ Hn Hij H1 H2). }
    destruct (Nat.lt_trichotomy i j) as [Hij|[->|Hij]].
    + pose proof (Hord i j L L' x y Hij Hi Hj Hx Hy (eq_sym Hk)). lia.
    + simplify_eq. eapply (dir_sorted_unique false); [by eapply Forall_lookup_1|done|done|done].
    + pose proof (Hord j i L' L y x Hij Hj Hi Hy Hx Hk). lia.
  - rewrite find_item_None in E. by destruct (E L x HL Hx).
Qed.

(** Two stacks of sources with the same newest items hold the same values. *)
Lemma same_newest Ls Ls' :
  newest_first Ls → Forall (dir_sorted false) Ls →
  newest_first Ls' → Forall (dir_sorted false) Ls' →
  (∀ L x, L ∈ Ls' → x ∈ L → ∃ L0, L0 ∈ Ls ∧ x ∈ L0) →
  (∀ x, newest Ls x → ∃ L, L ∈ Ls' ∧ x ∈ L) →
  ∀ k, find_item k Ls' = find_item k Ls.
Proof.
  intros Hn Hs Hn' Hs' Hsub Hall k. destruct (find_item k Ls) as [x|] eqn:E.
  - pose proof (find_item_newest _ _ _ Hn Hs E) as Hx. pose proof E as [_ <-]%find_item_in.
    apply newest_found; [done|done|]. split; [by apply Hall|]. intros L y HL Hy Hk.
    destruct (Hsub L y HL Hy) as (L0 & HL0 & Hy0). destruct Hx as [_ Hmax]. by apply (Hmax L0).
  - rewrite find_item_None in E |- *. intros L x HL Hx.
    destruct (Hsub L x HL Hx) as (L0 & HL0 & Hx0). by apply (E L0).
Qed.

(** ** Replacing some sources by their merge *)

Lemma StronglySorted_sublist {A} (R : A → A → Prop) l l' :
  l' `sublist_of` l → StronglySorted R l → StronglySorted R l'.
Proof.
  induction 1 as [|x l' l Hsub IH|x l' l Hsub IH]; intros Hn; [done| |];
    apply StronglySorted_inv in Hn as [Hn Hx].
  - constructor; [by apply IH|]. rewrite Forall_forall in Hx |- *. intros y Hy. apply Hx.
    by eapply elem_of_sublist.
  - by apply IH.
Qed.

Lemma newest_first_sublist Ls Ls' : Ls' `sublist_of` Ls → newest_first Ls → newest_first Ls'.
Proof. apply StronglySorted_sublist. Qed.

(** What the merge [N] of the sources [R] contains. *)
Definition merge_of (R : list (list Item)) (N : list Item) : Prop :=
  (∀ x, x ∈ N → newest R x) ∧ ∀ L y, L ∈ R → y ∈ L → ∃ x, x ∈ N ∧ item_key x = item_key y.

Section replace.
Context (A X Y D X' Y1 Y2 RX RY : list (list Item)) (N : list Item).
Context (Hord : newest_first (A ++ X ++ Y ++ D)).
Context (Hsorted : Forall (dir_sorted false) (A ++ X ++ Y ++ D)) (HsN : dir_sorted false N).

(** [X'] is what is left of [X], [Y1 ++ Y2] what is left of [Y]. *)
Context (HX' : X' `sublist_of` X) (HRX : ∀ L, L ∈ RX → L ∈ X) (HX : ∀ L, L ∈ X → (L ∈ X') ∨ (L ∈ RX)).
Context (HY' : Y1 ++ Y2 `sublist_of` Y) (HRY : ∀ L, L ∈ RY → L ∈ Y).
Context (HY : ∀ L, L ∈ Y → (L ∈ Y1 ++ Y2) ∨ (L ∈ RY)).
Context (HN : merge_of (RX ++ RY) N).

(** What is left has no key of the merged sources. *)
Context (HdX : ∀ L L' x y, L ∈ X' → L' ∈ RX → x ∈ L → y ∈ L' → item_key x ≠ item_key y).
Context (HdY : ∀ L L' x y, L ∈ Y1 ++ Y2 → L' ∈ RX ++ RY → x ∈ L → y ∈ L' → item_key x ≠ item_key y).

Lemma merge_from x : x ∈ N → ∃ L, L ∈ RX ++ RY ∧ x ∈ L.
Proof. intros Hx. destruct HN as [Hn _]. by destruct (Hn x Hx) as [? _]. Qed.

Lemma order_parts :
  newest_first A ∧ newest_first X ∧ newest_first Y ∧ newest_first D ∧
  (∀ L1 L2, L1 ∈ A → L2 ∈ X ++ Y ++ D → newer_than L1 L2) ∧
  (∀ L1 L2, L1 ∈ X → L2 ∈ Y ++ D → newer_than L1 L2) ∧
  (∀ L1 L2, L1 ∈ Y → L2 ∈ D → newer_than L1 L2).
Proof.
  pose proof Hord as (HA & HnA & (HXc & HnX & (HYc & HnY & HnD)%newest_first_app)%newest_first_app)%newest_first_app.
  done.
Qed.

Lemma replaced_order : newest_first (A ++ X' ++ (Y1 ++ N :: Y2) ++ D).
Proof.
  destruct order_parts as (HnA & HnX & HnY & HnD & HA & HXc & HYc).
  assert (∀ L, L ∈ X' → L ∈ X) as Hin by (intros L HL; by eapply elem_of_sublist).
  assert (∀ L, L ∈ Y1 ++ Y2 → L ∈ Y) as Hin' by (intros L HL; by eapply elem_of_sublist).
  assert (∀ L, L ∈ Y1 ++ N :: Y2 → L = N ∨ (L ∈ Y1 ++ Y2)) as Hmid by set_solver.
  apply newest_first_app. split_and!; [|done|apply newest_first_app; split_and!].
  - intros L1 L2 HL1 HL2. assert ((L2 ∈ X' ∨ L2 ∈ Y1 ++ N :: Y2) ∨ L2 ∈ D) as [[H2|H2]|H2] by set_solver.
    + apply HA; [done|set_solver].
    + apply Hmid in H2 as [->|H2]; [|apply HA; [done|set_solver]].
      intros x y Hx Hy Hk. destruct (merge_from y Hy) as (L & HL & HyL).
      apply (HA L1 L HL1 ltac:(set_solver) x y Hx HyL Hk).
    + apply HA; [done|set_solver].
  - intros L1 L2 HL1 HL2. assert (L2 ∈ Y1 ++ N :: Y2 ∨ L2 ∈ D) as [H2|H2] by set_solver.
    + apply Hmid in H2 as [->|H2]; [|apply HXc; [auto|set_solver]].
      intros x y Hx Hy Hk. destruct (merge_from y Hy) as (L & HL & HyL).
      apply elem_of_app in HL as [HL|HL]; [by destruct (HdX L1 L x y HL1 HL Hx HyL)|].
      apply (HXc L1 L (Hin _ HL1) ltac:(set_solver) x y Hx HyL Hk).
    + apply HXc; [auto|set_solver].
  - by eapply newest_first_sublist.
  - apply newest_first_app. split_and!.
    + intros L1 L2 HL1 HL2. apply Hmid in HL1 as [->|HL1]; [|auto].
      intros x y Hx Hy Hk. destruct (merge_from x Hx) as (L & HL & HxL).
      apply elem_of_app in HL as [HL|HL].
      * by apply (HXc L L2 (HRX _ HL) ltac:(set_solver) x y).
      * by apply (HYc L L2 (HRY _ HL) HL2 x y).
    + pose proof (newest_first_sublist _ _ HY' HnY) as (Hc12 & Hn1 & Hn2)%newest_first_app.
      apply newest_first_app. split_and!; [|done|constructor; [done|]].
      * intros L1 L2 HL1 [->|HL2]%elem_of_cons; [|auto]. intros x y Hx Hy Hk.
        destruct (merge_from y Hy) as (L & HL & HyL). by destruct (HdY L1 L x y ltac:(set_solver) HL Hx HyL).
      * apply Forall_forall. intros L2 HL2 x y Hx Hy Hk.
        destruct (merge_from x Hx) as (L & HL & HxL). by destruct (HdY L2 L y x ltac:(set_solver) HL Hy HxL).
    + done.
Qed.

Lemma replaced_sorted : Forall (dir_sorted false) (A ++ X' ++ (Y1 ++ N :: Y2) ++ D).
Proof.
  rewrite Forall_forall in Hsorted |- *. intros L HL.
  assert (∀ L, L ∈ X' → L ∈ X) as Hin by (intros L' HL'; by eapply elem_of_sublist).
  assert (∀ L, L ∈ Y1 ++ Y2 → L ∈ Y) as Hin' by (intros L' HL'; by eapply elem_of_sublist).
  assert (L = N ∨ L ∈ A ++ X ++ Y ++ D) as [->|HL'] by set_solver; [done|auto].
Qed.

(** Every key keeps its newest item. *)
Lemma replaced_found k : find_item k (A ++ X' ++ (Y1 ++ N :: Y2) ++ D) = find_item k (A ++ X ++ Y ++ D).
Proof.
  apply same_newest; [done|done|apply replaced_order|apply replaced_sorted|..].
  - assert (∀ L, L ∈ X' → L ∈ X) as Hin by (intros L HL; by eapply elem_of_sublist).
    assert (∀ L, L ∈ Y1 ++ Y2 → L ∈ Y) as Hin' by (intros L HL; by eapply elem_of_sublist).
    intros L x HL Hx. assert (L = N ∨ L ∈ A ++ X ++ Y ++ D) as [->|HL'] by set_solver; [|eauto].
    destruct (merge_from x Hx) as (L0 & HL0 & Hx0). exists L0. split; [|done].
    apply elem_of_app in HL0 as [HL0|HL0]; [apply HRX in HL0|apply HRY in HL0]; set_solver.
  - intros x [(L & HL & Hx) Hmax].
    assert ((∃ L', L' ∈ A ++ X' ++ (Y1 ++ N :: Y2) ++ D ∧ x ∈ L') ∨ L ∈ RX ++ RY) as [?|HR]; [|done|].
    { rewrite !elem_of_app in HL. destruct HL as [HL|[HL|[HL|HL]]].
      - left. exists L. set_solver.
      - destruct (HX L HL) as [HL'|HL']; [left; exists L; set_solver|right; set_solver].
      - destruct (HY L HL) as [HL'|HL']; [left; exists L; set_solver|right; set_solver].
      - left. exists L. set_solver. }
    destruct HN as [Hn Hall]. destruct (Hall L x HR Hx) as (z & Hz & Hk).
    destruct (Hn z Hz) as [(Lz & HLz & Hzz) Hzmax].
    pose proof (Hzmax L x HR Hx (eq_sym Hk)) as H1.
    assert (Lz ∈ A ++ X ++ Y ++ D) as HLz'.
    { apply elem_of_app in HLz as [HLz|HLz]; [apply HRX in HLz|apply HRY in HLz]; set_solver. }
    pose proof (Hmax Lz z HLz' Hzz Hk) as H2.
    assert (z = x) as ->; [|exists N; set_solver].
    pose proof (newest_found _ x Hord Hsorted ltac:(split; [exists L; done|done])) as Fx.
    assert (newest (A ++ X ++ Y ++ D) z) as Hzn.
    { split; [by exists Lz|]. intros L' y HL' Hy Hky. transitivity (item_seq x); [|lia].
      apply (Hmax L' y HL' Hy). congruence. }
    pose proof (newest_found _ z Hord Hsorted Hzn) as Fz. congruence.
Qed.

End replace.
