(* ===== verification/LogicInv.v ===== *)
(** * The invariant of the database and lookups (src/src/logic.rs)

    [db_ok] relates the state of [DbLogic] to the finite map it stands for: the
    memtables and tables form a stack of sources from the newest to the oldest,
    the tables are on disk and known to the manifest, and the log is idle.  The
    lookup theorem shows that [get] reads this map. *)

From stdpp Require Import base list gmap strings sorting.
From Stdlib Require Import Strings.Byte NArith ZArith Lia.
From S2P Require Import Prelude WriteBatch Iterator Memtable Disk Wal WalStatus WalCalls Manifest DataBlock DataBlocks IndexBlock SortedTable TableIterator Iterate DbIterator Level Compaction Logic Sources.

Local Open Scope nat_scope.
Local Open Scope lsm_scope.

(** ** Sequence numbers of the memtables *)

(** From the oldest memtable, whose numbers start at [b], to the newest: every
    memtable continues the numbers of the one before. *)
Fixpoint mem_chain (b : N) (ms : list Memtable.Memtable) : Prop :=
  match ms with
  | [] => True
  | m :: ms' =>
      (∀ e, e ∈ m.(Memtable.entries) → (b <= MemtableEntry.seq_number e.2)%N) ∧
      (b <= m.(Memtable.next_seq_number))%N ∧ mem_chain m.(Memtable.next_seq_number) ms'
  end.

Lemma mem_chain_weaken b b' ms : (b' <= b)%N → mem_chain b ms → mem_chain b' ms.
Proof.
  destruct ms as [|m ms]; [done|]. intros Hle (He & Hn & Hc). split; [|split; [lia|done]].
  intros e Hin. specialize (He e Hin). lia.
Qed.

Lemma mem_chain_from b ms m e :
  mem_chain b ms → m ∈ ms → e ∈ m.(Memtable.entries) → (b <= MemtableEntry.seq_number e.2)%N.
Proof.
  revert b; induction ms as [|m0 ms IH]; intros b Hc Hm He; [by apply not_elem_of_nil in Hm|].
  destruct Hc as (Hb & Hn & Hc). apply elem_of_cons in Hm as [->|Hm]; [by apply Hb|].
  specialize (IH _ Hc Hm He). lia.
Qed.

(** ** The sources of the database *)

(** The tables of the levels, the newest of a level first. *)
Definition level_sources (T : list (list Blocks)) : list (list Item) :=
  concat ((λ bss, table_list false <$> reverse bss) <$> T).

(** The identifiers of all tables. *)
Definition level_ids (ls : list Level.Level) : list (list N) :=
  (λ l, SortedTable.identifier <$> l.(Level.tables)) <$> ls.

Lemma elem_of_level_ids ls l t :
  l ∈ ls → t ∈ l.(Level.tables) → t.(SortedTable.identifier) ∈ concat (level_ids ls).
Proof.
  intros Hl Ht. unfold level_ids. induction ls as [|l' ls IH]; [by apply not_elem_of_nil in Hl|].
  rewrite fmap_cons. simpl. apply elem_of_app. apply elem_of_cons in Hl as [->|Hl]; [left|right; by apply IH].
  by apply list_elem_of_fmap_2.
Qed.

Section inv.
Context `{Bloom} `{Compression} `{LruLaws DataBlock.DataBlock}.
Context (params : Params.Params) (interval : nat) (io : IoMode).

Abbreviation DbLogic := DbLogic.DbLogic.

(** The memtables from the oldest to the newest. *)
Definition mem_stack (s : DbLogic) : list Memtable.Memtable :=
  s.(DbLogic.imm_memtables).*2 ++ (option_list s.(DbLogic.pending)).*2 ++
  [s.(DbLogic.memtable).(MemtableRef.inner)].

Definition db_sources (s : DbLogic) (T : list (list Blocks)) : list (list Item) :=
  (mem_list false <$> reverse (mem_stack s)) ++ level_sources T.

(** The table can be loaded again from its index file. *)
Definition reloads (d : Disk) (t : SortedTable.SortedTable) : Prop :=
  IndexBlock.load d t.(SortedTable.identifier) = Ok t.(SortedTable.index) ∧
  ∃ seeks, SortedTable.initial_seeks params t.(SortedTable.index) = Ok seeks.

Lemma loaded_reloads t e :
  SortedTable.load params t.(SortedTable.identifier) e = Ok (t, e) → reloads e.(env_disk) t.
Proof.
  unfold SortedTable.load. intros (ix & E1 & (z & E2 & [= <-])%bind_Ok_inv)%bind_Ok_inv. simpl in *.
  split; simpl; [done|by exists z].
Qed.

(** The levels hold the tables [T]; no compaction is running. *)
Record levels_ok (d : Disk) (nb next : N) (ls : list Level.Level) (T : list (list Blocks)) : Prop := {
  lo_tables : Forall2 (level_holds_blocks params interval d) ls T;
  lo_index : ∀ i l, ls !! i = Some l → l.(Level.index) = N.of_nat i;
  lo_free : ∀ l, l ∈ ls → l.(Level.table_placeholders) = [] ∧
    Forall (λ t, t.(SortedTable.compaction_flag) = false) l.(Level.tables);
  lo_disjoint : ∀ i l, ls !! i = Some l → 0 < i → pairwise_disjoint l.(Level.tables);
  lo_order : newest_first (level_sources T);
  lo_blocks : Forall (Forall (Forall (λ b : N * list BEntry, (b.1 < nb)%N))) T;
  lo_unique : NoDup (concat (level_ids ls));
  lo_ids : Forall (λ id, (FIRST_TABLE_ID <= id < next)%N) (concat (level_ids ls));
  lo_files : Forall (λ l, Forall (reloads d) l.(Level.tables)) ls;
  lo_l0 : ∀ l, ls !! 0 = Some l → StronglySorted N.lt (SortedTable.identifier <$> l.(Level.tables));
}.

(** The log of the database, with its files. *)
Definition wal_of (s : DbLogic) : WalState :=
  mkWal s.(DbLogic.wal).(log_status) s.(DbLogic.wal).(log_writer) s.(DbLogic.wal).(log_phase)
    s.(DbLogic.env).(env_disk).

(** The log offsets up to which the immutable memtables reach. *)
Definition offsets (s : DbLogic) : list N :=
  s.(DbLogic.imm_memtables).*1 ++ (option_list s.(DbLogic.pending)).*1.

Record db_ok (s : DbLogic) (T : list (list Blocks)) (stored : list byte)
    (meta : DatabaseMetadata.DatabaseMetadata) (ids : list (list N)) (M : gmap Key Value) : Prop := {
  ok_mems : Forall memtable_wf (mem_stack s);
  ok_width : Forall (λ m, (m.(Memtable.next_seq_number) < u64_bound)%N) (mem_stack s);
  ok_chain : mem_chain meta.(DatabaseMetadata.seq_number_offset) (mem_stack s);
  ok_filled : Forall (λ m, m.(Memtable.entries) ≠ [])
    (s.(DbLogic.imm_memtables).*2 ++ (option_list s.(DbLogic.pending)).*2);
  ok_room : Memtable.is_full s.(DbLogic.memtable).(MemtableRef.inner) params = true →
    ∀ o, o ∈ meta.(DatabaseMetadata.log_offset) :: offsets s → (o < N.of_nat (length stored))%N;
  ok_levels : levels_ok s.(DbLogic.env).(env_disk) meta.(DatabaseMetadata.next_data_block_id)
    meta.(DatabaseMetadata.next_table_id) s.(DbLogic.levels) T;
  ok_old : ∀ L x, L ∈ level_sources T → x ∈ L →
    (item_seq x < meta.(DatabaseMetadata.seq_number_offset))%N;
  ok_count : length s.(DbLogic.levels) = params.(Params.num_levels) ∧ 0 < params.(Params.num_levels);
  ok_next : (FIRST_TABLE_ID <= meta.(DatabaseMetadata.next_table_id))%N;
  ok_cache : cache_ok params s.(DbLogic.env);
  ok_manifest : manifest_holds s.(DbLogic.env).(env_manifest) meta ids;
  ok_sets : id_sets ids = id_sets (level_ids s.(DbLogic.levels));
  ok_log : idle io (wal_of s) stored;
  ok_offset : N.of_nat s.(DbLogic.wal).(log_status).(LogStatus.offset_pos)
    = meta.(DatabaseMetadata.log_offset);
  ok_offsets : StronglySorted N.lt (meta.(DatabaseMetadata.log_offset) :: offsets s) ∧
    Forall (λ o, (o <= N.of_nat (length stored))%N) (offsets s);
  ok_holds : holds (db_sources s T) M;
}.

(** ** The sources are sorted and ordered *)

Lemma levels_sorted d nb next ls T :
  levels_ok d nb next ls T → Forall (dir_sorted false) (level_sources T).
Proof.
  intros [Ht _ _ _ _ _ _ _ _ _]. unfold level_sources. apply Forall_concat, Forall_fmap, Forall_forall.
  intros bss Hbss. simpl. apply Forall_fmap, Forall_forall. intros bs Hbs. rewrite elem_of_reverse in Hbs. simpl.
  apply dir_sorted_table. apply list_elem_of_lookup in Hbss as [i Hi].
  destruct (Forall2_lookup_r _ _ _ _ _ Ht Hi) as (l & _ & Hl).
  apply list_elem_of_lookup in Hbs as [j Hj].
  destruct (Forall2_lookup_r _ _ _ _ _ Hl Hj) as (t & _ & Htab). apply Htab.
Qed.

Lemma mems_newest_first b ms :
  Forall memtable_wf ms → mem_chain b ms → newest_first (mem_list false <$> reverse ms).
Proof.
  intros Hwf. revert b; induction Hwf as [|m ms Hm Hwf IH]; intros b Hc; [constructor|].
  destruct Hc as (Hb & Hn & Hc). rewrite reverse_cons, fmap_app. apply newest_first_app.
  split; [|split; [by eapply IH|by repeat constructor]].
  intros L1 L2 (m' & -> & Hm')%list_elem_of_fmap ->%list_elem_of_singleton x y Hx Hy _.
  rewrite elem_of_reverse in Hm'.
  apply elem_of_mem_list in Hx as (e1 & He1 & ->), Hy as (e2 & He2 & ->). simpl.
  pose proof (mem_chain_from _ _ _ _ Hc Hm' He1). pose proof (wf_seq _ Hm e2 He2). lia.
Qed.

Lemma db_sources_sorted s T stored meta ids M :
  db_ok s T stored meta ids M → Forall (dir_sorted false) (db_sources s T).
Proof.
  intros Hok. apply Forall_app. split; [|eapply levels_sorted, Hok].
  apply Forall_fmap, Forall_forall. intros m Hm. rewrite elem_of_reverse in Hm. simpl. apply dir_sorted_mem.
  pose proof (ok_mems _ _ _ _ _ _ Hok) as Hw. rewrite Forall_forall in Hw. auto.
Qed.

Lemma db_sources_ordered s T stored meta ids M :
  db_ok s T stored meta ids M → newest_first (db_sources s T).
Proof.
  intros Hok. apply newest_first_app. split_and!.
  - intros L1 L2 (m & -> & Hm)%list_elem_of_fmap HL2 x y Hx Hy _. rewrite elem_of_reverse in Hm.
    apply elem_of_mem_list in Hx as (e & He & ->). simpl.
    pose proof (mem_chain_from _ _ _ _ (ok_chain _ _ _ _ _ _ Hok) Hm He).
    pose proof (ok_old _ _ _ _ _ _ Hok L2 y HL2 Hy). lia.
  - eapply mems_newest_first; apply Hok.
  - apply Hok.
Qed.

(** ** Reading changes seek counters and caches only *)

Lemma same_level_ids l l' :
  same_level l l' → SortedTable.identifier <$> l'.(Level.tables) = SortedTable.identifier <$> l.(Level.tables).
Proof.
  intros [_ _ Ht]. induction Ht as [|t t' ts ts' [[Hi _] _] _ IH]; [done|].
  by rewrite !fmap_cons, Hi, IH.
Qed.

Lemma same_levels_ids ls ls' : Forall2 same_level ls ls' → level_ids ls' = level_ids ls.
Proof.
  intros Hs. unfold level_ids. induction Hs as [|l l' ls ls' Hl _ IH]; [done|].
  by rewrite !fmap_cons, (same_level_ids _ _ Hl), IH.
Qed.

Lemma same_level_disjoint l l' :
  same_level l l' → pairwise_disjoint l.(Level.tables) → pairwise_disjoint l'.(Level.tables).
Proof.
  intros [_ _ Ht] Hd i j t1 t2 Hi Hj Hne.
  destruct (Forall2_lookup_r _ _ _ _ _ Ht Hi) as (u1 & Hu1 & [S1 _]).
  destruct (Forall2_lookup_r _ _ _ _ _ Ht Hj) as (u2 & Hu2 & [S2 _]).
  pose proof (Hd i j u1 u2 Hu1 Hu2 Hne) as Hdis. unfold disjoint_tables in *.
  rewrite (same_table_min _ _ S1), (same_table_max _ _ S1).
  by rewrite (same_table_overlapping _ _ _ _ S2).
Qed.

Lemma levels_ok_same d nb next ls ls' T :
  Forall2 same_level ls ls' → levels_ok d nb next ls T → levels_ok d nb next ls' T.
Proof.
  intros Hs [O1 O2 O3 O4 O5 O6 O7 O8 O9 O10]. pose proof (same_levels_ids _ _ Hs) as Hids.
  split; try done; try by rewrite Hids.
  - clear -Hs O1. revert T O1. induction Hs as [|l l' ls ls' Hl _ IH]; intros T HT; [by inversion HT|].
    inversion HT; subst. constructor; [by eapply same_level_holds|by apply IH].
  - intros i l' Hi. destruct (Forall2_lookup_r _ _ _ _ _ Hs Hi) as (l & Hl & [Hx _ _]).
    rewrite Hx. by apply O2.
  - intros l' [i Hi]%list_elem_of_lookup. destruct (Forall2_lookup_r _ _ _ _ _ Hs Hi) as (l & Hl & [_ Hp Ht]).
    destruct (O3 l) as [Hph Hfl]; [by eapply list_elem_of_lookup_2|]. split; [by rewrite Hp|].
    clear -Ht Hfl. induction Ht as [|t t' ts ts' [_ Hf] _ IH]; [done|].
    apply Forall_cons in Hfl as [? ?]. constructor; [by rewrite Hf|by apply IH].
  - intros i l' Hi Hpos. destruct (Forall2_lookup_r _ _ _ _ _ Hs Hi) as (l & Hl & Hsl).
    eapply same_level_disjoint; [exact Hsl|by eapply O4].
  - clear -Hs O9. induction Hs as [|l l' ls ls' [_ _ Ht] _ IH]; [done|].
    apply Forall_cons in O9 as [Hl O9]. constructor; [|by apply IH]. clear -Ht Hl.
    induction Ht as [|t t' ts ts' [[Hi Hx] _] _ IH]; [done|]. apply Forall_cons in Hl as [Hr Hl].
    constructor; [|by apply IH]. unfold reloads in *. by rewrite Hi, Hx.
  - intros l' Hl'. destruct (Forall2_lookup_r _ _ _ _ _ Hs Hl') as (l & Hl & Hsl).
    rewrite (same_level_ids _ _ Hsl). by apply O10.
Qed.

(** Two states that differ in seek counters and caches only. *)
Record same_db (s s' : DbLogic) : Prop := {
  sd_memtable : s'.(DbLogic.memtable) = s.(DbLogic.memtable);
  sd_imm : s'.(DbLogic.imm_memtables) = s.(DbLogic.imm_memtables);
  sd_pending : s'.(DbLogic.pending) = s.(DbLogic.pending);
  sd_levels : Forall2 same_level s.(DbLogic.levels) s'.(DbLogic.levels);
  sd_wal : s'.(DbLogic.wal) = s.(DbLogic.wal);
  sd_env : reads params s.(DbLogic.env) s'.(DbLogic.env);
}.

#[export] Instance same_db_preorder : PreOrder same_db.
Proof.
  split.
  - intros s. by split.
  - intros s1 s2 s3 [] []. split; [congruence|congruence|congruence| |congruence|]; by etrans.
Qed.

Lemma same_db_ok s s' T stored meta ids M :
  same_db s s' → db_ok s T stored meta ids M → db_ok s' T stored meta ids M.
Proof.
  intros [S1 S2 S3 S4 S5 (Hd & Hm & Hc)] Hok.
  assert (mem_stack s' = mem_stack s) as Hms by (unfold mem_stack; by rewrite S1, S2, S3).
  assert (offsets s' = offsets s) as Hof by (unfold offsets; by rewrite S2, S3).
  assert (wal_of s' = wal_of s) as Hw by (unfold wal_of; by rewrite S5, Hd).
  destruct Hok as [K1 K1' K2 K3 K4 K5 K6 K7 K7' K8 K9 K10 K11 K12 K13 K14].
  split; rewrite ?Hms, ?Hof, ?Hw, ?S1, ?S2, ?S3, ?S5, ?Hd, ?Hm; try done.
  - by eapply levels_ok_same.
  - by rewrite <-(Forall2_length _ _ _ S4).
  - auto.
  - by rewrite (same_levels_ids _ _ S4).
  - unfold db_sources. by rewrite Hms.
Qed.

(** ** Lookup *)

(** The entry of a table is the item its list has for the key. *)
Lemma find_key_table bs be :
  keys_increasing (flat bs) → be ∈ flat bs →
  find_key be.(be_key) (table_list false bs) = Some (table_item (be_entry be)).
Proof.
  intros Hs Hbe. assert (table_item (be_entry be) ∈ table_list false bs) as Hin.
  { by apply list_elem_of_fmap_2, list_elem_of_fmap_2. }
  destruct (find_key _ _) as [x|] eqn:E.
  - f_equal. apply find_key_Some in E as [Hx Hk].
    apply (dir_sorted_unique false (table_list false bs)); [by apply dir_sorted_table|done|done|done].
  - apply find_key_None in E. destruct E. apply list_elem_of_fmap.
    by exists (table_item (be_entry be)).
Qed.

Lemma find_key_no_table bs k :
  k ∉ be_key <$> flat bs → find_key k (table_list false bs) = None.
Proof.
  intros Hk. apply find_key_None. unfold table_list. rewrite <-!list_fmap_compose. exact Hk.
Qed.

(** The entry of the newest table of a level. *)
Lemma newest_at_found bss k r :
  Forall (λ bs, keys_increasing (flat bs)) bss → newest_at bss (length bss) k r →
  find_item k (table_list false <$> reverse bss) = table_item ∘ be_entry <$> r.
Proof.
  intros Hs. induction bss as [|bs bss IH] using rev_ind; intros Hn.
  { destruct r as [be|]; [|done]. destruct Hn as (i & bs & Hi & _). simpl in Hi. lia. }
  apply Forall_app in Hs as [Hs Hs1]. rewrite Forall_singleton in Hs1.
  rewrite reverse_app. cbn [reverse rev_append app fmap list_fmap find_item].
  rewrite length_app in Hn. simpl in Hn.
  assert ((bss ++ [bs]) !! length bss = Some bs) as Hlast by apply lookup_app_mid.
  assert (∀ j x, j < length bss → (bss ++ [bs]) !! j = Some x ↔ bss !! j = Some x) as Hl
    by (intros; by rewrite lookup_app_l).
  destruct r as [be|].
  - destruct Hn as (i & bs' & Hi & Hbs' & Hbe & <- & Hmax).
    destruct (decide (i = length bss)) as [->|Hne].
    + rewrite Hlast in Hbs'. injection Hbs' as <-.
      by rewrite (find_key_table _ _ Hs1 Hbe).
    + rewrite find_key_no_table by (apply (Hmax (length bss)); [lia|lia|done]).
      apply IH; [done|]. exists i, bs'. split; [lia|]. rewrite Hl in Hbs' by lia. do 3 (split; [done|]).
      intros j b Hij Hj Hb. apply (Hmax j); [done|lia|by apply Hl].
  - rewrite find_key_no_table by (apply (Hn (length bss)); [lia|done]).
    apply IH; [done|]. intros j b Hj Hb. apply (Hn j); [lia|by apply Hl].
Qed.

(** What an entry reference reads. *)
Definition reads_value (r : option EntryRef.EntryRef) (v : option Value) : Prop :=
  match r, v with
  | Some en, Some v => EntryRef.get_value en = Ok v
  | None, None => True
  | _, _ => False
  end.

Lemma find_key_mem m k :
  memtable_wf m → find_key k (mem_list false m) = (λ e, mem_item (k, e)) <$> contents m !! k.
Proof.
  intros Hwf. destruct (contents m !! k) as [e|] eqn:E; simpl.
  - apply contents_elem in E; [|done].
    assert (mem_item (k, e) ∈ mem_list false m) as Hin by (apply elem_of_mem_list; eauto).
    destruct (find_key k _) as [x|] eqn:Ef.
    + f_equal. apply find_key_Some in Ef as [Hx Hk].
      apply (dir_sorted_unique false (mem_list false m)); [by apply dir_sorted_mem|done|done|done].
    + apply find_key_None in Ef. destruct Ef. apply list_elem_of_fmap. by exists (mem_item (k, e)).
  - destruct (find_key k _) as [x|] eqn:Ef; [|done]. apply find_key_Some in Ef as [Hx Hk].
    apply elem_of_mem_list in Hx as ([k' e] & He & ->). simpl in Hk. subst k'.
    apply contents_elem in He; [|done]. congruence.
Qed.

Lemma lookup_memtable_ok m k :
  memtable_wf m →
  match DbLogic.lookup_memtable m k, find_key k (mem_list false m) with
  | Some r, Some x => reads_value r (item_value x)
  | None, None => True
  | _, _ => False
  end.
Proof.
  intros Hwf. unfold DbLogic.lookup_memtable. rewrite (mem_get_ok m k Hwf), (find_key_mem m k Hwf).
  by destruct (contents m !! k) as [[seq v|seq]|].
Qed.

(** Several memtables, in the order they are searched in. *)
Lemma lookup_memtables_ok imms k :
  Forall memtable_wf imms.*2 →
  match DbLogic.lookup_memtables imms k, find_item k (mem_list false <$> imms.*2) with
  | Some r, Some x => reads_value r (item_value x)
  | None, None => True
  | _, _ => False
  end.
Proof.
  induction imms as [|[o m] imms IH]; [done|]. intros [Hm Hw]%Forall_cons. simpl.
  pose proof (lookup_memtable_ok m k Hm) as Hl. simpl in Hl.
  destruct (DbLogic.lookup_memtable m k), (find_key k (mem_list false m)); try done. by apply IH.
Qed.

Lemma entry_reads_value en be :
  entry_reads en (be_entry be) →
  ∃ ty, DataBlock.get_type en = Ok ty ∧
    match ty with
    | TPut => reads_value (Some (EntryRef.SortedTable en)) (item_value (table_item (be_entry be)))
    | TDelete => item_value (table_item (be_entry be)) = None
    end.
Proof.
  intros (_ & Ht & Hv). exists (en_type (be_entry be)). split; [done|].
  unfold item_value, table_item. simpl. destruct (en_type (be_entry be)); [|done].
  unfold reads_value, EntryRef.get_value, EntryRef.value. simpl in Hv. by rewrite Hv.
Qed.

Lemma lookup_levels_ok n i k trig s T :
  i + n = length T → cache_ok params s.(DbLogic.env) →
  Forall2 (level_holds_blocks params interval s.(DbLogic.env).(env_disk)) s.(DbLogic.levels) T →
  ∃ trig' r s', DbLogic.lookup_levels params n i k trig s = Ok ((trig', r), s') ∧ same_db s s' ∧
    reads_value r (find_item k (level_sources (drop i T)) ≫= item_value).
Proof.
  revert i trig s; induction n as [|n IH]; intros i trig s Hin Hc Ht.
  { do 3 eexists. split; [done|]. split; [done|]. by rewrite drop_ge by lia. }
  destruct (lookup_lt_is_Some_2 T i) as [bss Hbss]; [lia|].
  destruct (Forall2_lookup_r _ _ _ _ _ Ht Hbss) as (l & Hl & Hlb).
  rewrite (drop_S _ _ _ Hbss).
  change (level_sources (bss :: drop (S i) T))
    with ((table_list false <$> reverse bss) ++ level_sources (drop (S i) T)).
  rewrite find_item_app. cbn [DbLogic.lookup_levels].
  assert (DbLogic.get_level i s = Ok (l, s)) as E0 by (unfold DbLogic.get_level; by rewrite Hl).
  run_st E0.
  destruct (get_loop_ok params interval (length l.(Level.tables)) l k false bss s.(DbLogic.env))
    as (l' & trig1 & r & e' & E1 & R1 & Hs1 & be & Hbe & Hr); [done|done|exact Hlb|].
  rewrite (Forall2_length _ _ _ Hlb) in Hbe. 
  assert (Forall (λ bs, keys_increasing (flat bs)) bss) as Hsort.
  { apply Forall_forall. intros bs [j Hj]%list_elem_of_lookup.
    destruct (Forall2_lookup_r _ _ _ _ _ Hlb Hj) as (t & _ & Htab). apply Htab. }
  rewrite (newest_at_found _ _ _ Hsort Hbe).
  set (s1 := DbLogic.mk s.(DbLogic.memtable) s.(DbLogic.imm_memtables) s.(DbLogic.pending)
    s.(DbLogic.levels) s.(DbLogic.wal) e').
  assert (DbLogic.on_env (Level.get params l k) s = Ok ((l', (trig1, r)), s1)) as E2
    by (unfold DbLogic.on_env, Level.get; by rewrite E1).
  run_st E2. cbn beta iota.
  set (s2 := DbLogic.mk s.(DbLogic.memtable) s.(DbLogic.imm_memtables) s.(DbLogic.pending)
    (<[i := l']> s.(DbLogic.levels)) s.(DbLogic.wal) e').
  assert (DbLogic.set_level i l' s1 = Ok ((), s2)) as E3 by done. run_st E3.
  assert (same_db s s2) as Hsame.
  { split; try done. simpl. rewrite <-(list_insert_id (DbLogic.levels s) i l Hl) at 1.
    by apply Forall2_insert. }
  destruct be as [be|], r as [en|]; try done.
  - destruct (entry_reads_value en be Hr) as (ty & Ety & Hv). run_lift Ety.
    destruct ty; do 3 eexists; (split; [done|]); (split; [done|]); simpl in *; [done|by rewrite Hv].
  - destruct R1 as (Hd & _ & Hc'). destruct (IH (S i) (trig || trig1) s2) as (trig' & r' & s' & E & Hs & Hv).
    + lia.
    + simpl. auto.
    + simpl. rewrite Hd. assert (Forall2 same_level (DbLogic.levels s) (<[i:=l']> (DbLogic.levels s))) as Hf
        by apply Hsame. clear -Hf Ht. revert T Ht.
      induction Hf as [|a a' ls ls' Ha _ IH']; intros T HT; [by inversion HT|].
      inversion HT; subst. constructor; [by eapply same_level_holds|by apply IH'].
    + exists trig', r', s'. split; [exact E|]. split; [by etrans|done].
Qed.

Lemma gets_bind {A B} (f : DbLogic → A) (g : A → st DbLogic B) s :
  (DbLogic.gets f ≫= g) s = g (f s) s.
Proof. done. Qed.

Lemma db_get_ok s T stored meta ids M k :
  db_ok s T stored meta ids M → s.(DbLogic.pending) = None →
  ∃ trig r s', DbLogic.get params k s = Ok ((trig, r), s') ∧ same_db s s' ∧ reads_value r (M !! k).
Proof.
  intros Hok Hp. rewrite <-(ok_holds _ _ _ _ _ _ Hok k). unfold value_of.
  set (m := s.(DbLogic.memtable).(MemtableRef.inner)).
  assert (db_sources s T = mem_list false m ::
    (mem_list false <$> reverse s.(DbLogic.imm_memtables).*2) ++ level_sources T) as ->.
  { unfold db_sources, mem_stack. rewrite Hp. simpl option_list. simpl app at 3. by rewrite reverse_snoc. }
  pose proof (ok_mems _ _ _ _ _ _ Hok) as Hw. unfold mem_stack in Hw. rewrite Hp in Hw.
  apply Forall_app in Hw as [Hw1 Hw2]. apply Forall_cons in Hw2 as [Hw2 _].
  unfold DbLogic.get. rewrite gets_bind. fold m. cbn [find_item].
  pose proof (lookup_memtable_ok m k Hw2) as Hl.
  destruct (DbLogic.lookup_memtable m k) as [r|], (find_key k (mem_list false m)) as [x|]; try done.
  { exists false, r, s. done. }
  rewrite gets_bind, find_item_app.
  pose proof (lookup_memtables_ok (reverse s.(DbLogic.imm_memtables)) k) as Hl2.
  rewrite fmap_reverse in Hl2. specialize (Hl2 ltac:(by apply Forall_reverse)).
  destruct (DbLogic.lookup_memtables _ k) as [r|], (find_item k (mem_list false <$> _)) as [x|]; try done.
  { exists false, r, s. done. }
  rewrite gets_bind.
  pose proof (lo_tables _ _ _ _ _ (ok_levels _ _ _ _ _ _ Hok)) as Ht.
  destruct (lookup_levels_ok (length s.(DbLogic.levels)) 0 k false s T) as (trig & r & s' & E & Hs & Hv);
    [by rewrite (Forall2_length _ _ _ Ht)|apply Hok|done|].
  exists trig, r, s'. split; [exact E|]. split; [done|]. by rewrite drop_0 in Hv.
Qed.

End inv.
