(* ===== verification/LogicWrite.v ===== *)
(** * Writes and memtable compaction (src/src/logic.rs)

    [write_opts] logs a batch and applies it to the memtable; a full memtable is
    handed over and compacted into a table of level 0.  The theorems show that
    a write is the update of the map the database stands for, and that handing a
    memtable over and compacting it change nothing of it. *)

From stdpp Require Import base list gmap strings sorting.
From Stdlib Require Import Strings.Byte NArith ZArith Lia.
From S2P Require Import Prelude WriteBatch Iterator Memtable Disk Wal WalStatus WalCalls Manifest DataBlock DataBlocks IndexBlock SortedTable TableIterator Iterate DbIterator Level Compaction Logic Sources LogicInv.

Local Open Scope nat_scope.
Local Open Scope lsm_scope.

(** ** A batch on top of other sources *)

(** The value of a key, with the contents of the memtable on top of [rest]. *)
Definition value_on (c : gmap Key MemtableEntry) (rest : list (list Item)) (k : Key) : option Value :=
  match c !! k with Some e => MemtableEntry.get_value e | None => value_of rest k end.

Lemma value_of_mem m rest k :
  memtable_wf m → value_of (mem_list false m :: rest) k = value_on (contents m) rest k.
Proof.
  intros Hwf. unfold value_of, value_on. cbn [find_item]. rewrite (find_key_mem m k Hwf).
  destruct (contents m !! k) as [[seq v|seq]|]; done.
Qed.

Lemma spec_ops_value c rest seq ops M :
  (∀ k, value_on c rest k = M !! k) →
  ∀ k, value_on (spec_ops c seq ops) rest k = write_all M ops !! k.
Proof.
  revert c seq M; induction ops as [|op ops IH]; intros c seq M Hc; [done|].
  cbn [spec_ops]. change (write_all M (op :: ops)) with (write_all (write M op) ops). apply IH. clear IH.
  intros k. specialize (Hc k). unfold value_on in *. destruct op as [k' v|k']; simpl;
    (destruct (decide (k' = k)) as [->|Hne];
      [by rewrite lookup_insert_eq, ?lookup_insert_eq, ?lookup_delete_eq
      |by rewrite lookup_insert_ne, ?lookup_insert_ne, ?lookup_delete_ne by done]).
Qed.

(** New entries are numbered from [next_seq_number] on. *)
Lemma spec_ops_seq c seq ops b :
  (b <= seq)%N → (∀ k e, c !! k = Some e → (b <= MemtableEntry.seq_number e)%N) →
  ∀ k e, spec_ops c seq ops !! k = Some e → (b <= MemtableEntry.seq_number e)%N.
Proof.
  revert c seq; induction ops as [|op ops IH]; intros c seq Hb Hc; [done|]. cbn [spec_ops].
  apply IH; [lia|]. intros k e. destruct op as [k' v|k']; simpl;
    rewrite lookup_insert_Some; intros [[_ <-]|[_ He]]; [done|by eapply Hc|done|by eapply Hc].
Qed.

Lemma encode_ops_pos ops : ops ≠ [] → 0 < length (encode_ops ops).
Proof.
  destruct ops as [|op ops]; [done|]. intros _. unfold encode_ops. simpl. lia.
Qed.

Lemma total_len_nil m : memtable_wf m → 0 < m.(Memtable.size) → m.(Memtable.entries) ≠ [].
Proof. intros [_ Hs _] Hpos Hn. rewrite Hs, Hn in Hpos. unfold total_len in Hpos. simpl in Hpos. lia. Qed.

(** ** Changes of the log *)

Section write.
Context `{BloomLaws} `{CompressionLaws} `{LruLaws DataBlock.DataBlock}.
Context (params : Params.Params) (interval : nat) (io : IoMode).

Abbreviation DbLogic := DbLogic.DbLogic.
Abbreviation db_ok := (db_ok params interval io).

(** The state with another log. *)
Definition with_wal (s : DbLogic) (w : WalState) : DbLogic :=
  DbLogic.mk s.(DbLogic.memtable) s.(DbLogic.imm_memtables) s.(DbLogic.pending) s.(DbLogic.levels)
    (mkLog w.(WalStatus.status) w.(WalStatus.writer) w.(WalStatus.phase))
    {| env_disk := w.(WalStatus.disk); env_caches := s.(DbLogic.env).(env_caches);
       env_manifest := s.(DbLogic.env).(env_manifest) |}.

Lemma on_wal_Ok {A} (f : WalState → outcome (A * WalState)) s a w :
  f (wal_of s) = Ok (a, w) → DbLogic.on_wal f s = Ok (a, with_wal s w).
Proof. intros E. unfold DbLogic.on_wal. fold (wal_of s). by rewrite E. Qed.

Lemma wal_of_with s w : wal_of (with_wal s w) = w.
Proof. by destruct w. Qed.

Lemma other_files_kept d d' nb : same_other_files d d' → old_blocks_kept nb d d'.
Proof. intros Ho b _. by apply Ho. Qed.

Lemma other_indices_kept d d' next : same_other_files d d' → old_indices_kept next d d'.
Proof. intros Ho b _. by apply Ho. Qed.

Lemma reloads_frame d d' next t :
  old_indices_kept next d d' → (t.(SortedTable.identifier) < next)%N → reloads params d t → reloads params d' t.
Proof.
  intros Hk Hlt [Hl Hs]. split; [|done]. revert Hl. unfold IndexBlock.load, disk.read, disk.read_uncompressed.
  by rewrite (Hk _ Hlt).
Qed.

(** Tables survive changes of other files. *)
Lemma levels_ok_frame d d' nb nb' next next' ls T :
  old_blocks_kept nb d d' → old_indices_kept next d d' → (nb <= nb')%N → (next <= next')%N →
  levels_ok params interval d nb next ls T → levels_ok params interval d' nb' next' ls T.
Proof.
  intros Hk Hki Hnb Hnext [O1 O2 O3 O4 O5 O6 O7 O8 O9 O10]. split; try done.
  - clear -Hk O1 O6. induction O1 as [|l bss ls T Hl _ IH]; [done|].
    apply Forall_cons in O6 as [Hb O6]. constructor; [|by apply IH].
    unfold level_holds_blocks in *. clear -Hl Hk Hb.
    induction Hl as [|t bs ts bss Ht _ IH]; [done|]. apply Forall_cons in Hb as [Hb1 Hb].
    constructor; [by eapply table_ok_frame|by apply IH].
  - eapply Forall_impl; [exact O6|]. intros bss Hbss. eapply Forall_impl; [exact Hbss|].
    intros bs Hbs. eapply Forall_impl; [exact Hbs|]. intros b Hb. simpl in *. lia.
  - eapply Forall_impl; [exact O8|]. intros id Hid. simpl in *. lia.
  - rewrite Forall_forall in O8. rewrite Forall_forall in O9. rewrite Forall_forall. intros l Hl. specialize (O9 l Hl). simpl in O9 |- *.
    rewrite Forall_forall in O9. rewrite Forall_forall. intros t Ht. apply (reloads_frame d d' next); [done| |by apply O9].
    apply O8. by eapply elem_of_level_ids.
Qed.

Lemma cache_ok_other d d' cs m m' :
  same_other_files d d' → cache_ok params (mkEnv d cs m) → cache_ok params (mkEnv d' cs m').
Proof. intros Ho. apply cache_ok_frame. intros id. by apply Ho. Qed.

(** The log grew, nothing else changed. *)
Lemma db_log_grew s T stored stored' meta ids M w :
  db_ok s T stored meta ids M → idle io w stored' →
  same_other_files s.(DbLogic.env).(env_disk) w.(WalStatus.disk) →
  w.(WalStatus.status).(LogStatus.offset_pos) = s.(DbLogic.wal).(log_status).(LogStatus.offset_pos) →
  length stored <= length stored' →
  db_ok (with_wal s w) T stored' meta ids M.
Proof.
  intros [K1 K1' K2 K3 K4 K5 K6 K7 K7' K8 K9 K10 K11 K12 [K13 K13'] K14] Hi Ho Hoff Hlen.
  split; try done; simpl.
  - intros Hf o Ho'. specialize (K4 Hf o Ho'). lia.
  - eapply levels_ok_frame; [by apply other_files_kept|by apply other_indices_kept| | |exact K5]; done.
  - destruct s as [? ? ? ? ? [? ? ?]]. by eapply cache_ok_other.
  - by rewrite wal_of_with.
  - by rewrite Hoff.
  - split; [done|]. eapply Forall_impl; [exact K13'|]. intros o Ho'. simpl in Ho'. lia.
Qed.

(** ** Writing *)

(** The new contents of the memtable. *)
Lemma batch_applied m ops b rest M :
  memtable_wf m → mem_chain b [m] → (∀ k, value_of (mem_list false m :: rest) k = M !! k) →
  (m.(Memtable.next_seq_number) + N.of_nat (length ops) < u64_bound)%N →
  ∃ m', Memtable.apply_ops m ops = Ok m' ∧ memtable_wf m' ∧ mem_chain b [m'] ∧
    (∀ k, value_of (mem_list false m' :: rest) k = write_all M ops !! k) ∧
    (m'.(Memtable.next_seq_number) < u64_bound)%N.
Proof.
  intros Hwf (Hb & Hn & _) Hv Hlt. destruct (apply_ops_ok m ops Hwf Hlt) as (m' & E & Hwf' & Hc & Hseq).
  exists m'. split; [done|]. split; [done|]. split; [|split; [|lia]].
  - split; [|split; [lia|done]]. intros [k e] He. simpl. apply contents_elem in He; [|done].
    rewrite Hc in He. eapply spec_ops_seq; [exact Hn| |exact He].
    intros k' e' He'. apply contents_elem in He'; [|done]. by apply (Hb (k', e')).
  - intros k. rewrite value_of_mem, Hc by done. apply spec_ops_value. intros k'.
    by rewrite <-value_of_mem.
Qed.

(** Where the numbers of the next memtable start. *)
Definition chain_end (b : N) (ms : list Memtable.Memtable) : N :=
  foldl (λ _ m, m.(Memtable.next_seq_number)) b ms.

Lemma mem_chain_app b ms1 ms2 :
  mem_chain b (ms1 ++ ms2) ↔ mem_chain b ms1 ∧ mem_chain (chain_end b ms1) ms2.
Proof.
  revert b; induction ms1 as [|m ms1 IH]; intros b; simpl; [naive_solver|]. rewrite IH. naive_solver.
Qed.

Lemma chain_new b : mem_chain b [Memtable.new b].
Proof. split; [by intros e ?%not_elem_of_nil|done]. Qed.

(** The state with other memtables. *)
Definition with_mems (s : DbLogic) (m : Memtable.Memtable) (imm : list (N * Memtable.Memtable))
    (p : option (N * Memtable.Memtable)) : DbLogic :=
  DbLogic.mk (MemtableRef.wrap m) imm p s.(DbLogic.levels) s.(DbLogic.wal) s.(DbLogic.env).

Lemma db_mems_changed s T stored meta ids M M' m imm p :
  db_ok s T stored meta ids M →
  let s' := with_mems s m imm p in
  Forall memtable_wf (mem_stack s') →
  Forall (λ m, (m.(Memtable.next_seq_number) < u64_bound)%N) (mem_stack s') →
  mem_chain meta.(DatabaseMetadata.seq_number_offset) (mem_stack s') →
  Forall (λ m, m.(Memtable.entries) ≠ []) (imm.*2 ++ (option_list p).*2) →
  (Memtable.is_full m params = true →
    ∀ o, o ∈ meta.(DatabaseMetadata.log_offset) :: offsets s' → (o < N.of_nat (length stored))%N) →
  StronglySorted N.lt (meta.(DatabaseMetadata.log_offset) :: offsets s') →
  Forall (λ o, (o <= N.of_nat (length stored))%N) (offsets s') →
  holds (db_sources s' T) M' → db_ok s' T stored meta ids M'.
Proof. intros [K1 K1' K2 K3 K4 K5 K6 K7 K7' K8 K9 K10 K11 K12 K13 K14] s' ????????. by split. Qed.

(** The last immutable memtable, or the writer that waits with it. *)
Lemma offsets_snoc lo (os : list N) o :
  StronglySorted N.lt (lo :: os) → (∀ o', o' ∈ lo :: os → (o' < o)%N) →
  StronglySorted N.lt (lo :: os ++ [o]).
Proof.
  intros Hs Hlt. change (lo :: os ++ [o]) with ((lo :: os) ++ [o]). apply StronglySorted_app.
  split_and!; [|done|by repeat constructor]. intros a b Ha ->%list_elem_of_singleton. by apply Hlt.
Qed.

(** The state after a memtable was filled. *)
Definition hand_over (s : DbLogic) (off : N) (m : Memtable.Memtable) : DbLogic :=
  let fresh := Memtable.new m.(Memtable.next_seq_number) in
  match s.(DbLogic.imm_memtables) with
  | [] => with_mems s fresh [(off, m)] None
  | _ :: _ => with_mems s fresh s.(DbLogic.imm_memtables) (Some (off, m))
  end.

(** A full memtable is handed over, or the writer waits with it. *)
Lemma db_handed_over s w T stored ops meta ids M m' M' :
  let s1 := with_wal s w in
  let stored' := stored ++ encode_ops ops in
  let off := N.of_nat (length stored') in
  let fresh := Memtable.new m'.(Memtable.next_seq_number) in
  let imms := s.(DbLogic.imm_memtables) in
  db_ok s T stored meta ids M → db_ok s1 T stored' meta ids M →
  s.(DbLogic.pending) = None → 0 < params.(Params.max_memtable_size) →
  ops ≠ [] ∨ Memtable.is_full s.(DbLogic.memtable).(MemtableRef.inner) params = true →
  m'.(Memtable.entries) ≠ [] →
  Forall memtable_wf (imms.*2 ++ [m']) →
  Forall (λ m, (m.(Memtable.next_seq_number) < u64_bound)%N) (imms.*2 ++ [m']) →
  mem_chain meta.(DatabaseMetadata.seq_number_offset) (imms.*2 ++ [m']) →
  (∀ k, value_of (mem_list false m' :: (mem_list false <$> reverse imms.*2) ++ level_sources T) k = M' !! k) →
  db_ok (hand_over s1 off m') T stored' meta ids M'.
Proof.
  intros s1 stored' off fresh imms Hok Hok1 Hp Hmax Hne Hfill Hw Hwd Hc Hv.
  assert (∃ imm p, hand_over s1 off m' = with_mems s1 fresh imm p ∧
    imm ++ option_list p = imms ++ [(off, m')]) as (imm & p & -> & Hip).
  { unfold hand_over, imms. simpl. destruct (DbLogic.imm_memtables s) as [|x imms']; do 2 eexists; (split; [done|]); done. }
  assert (mem_stack (with_mems s1 fresh imm p) = (imms.*2 ++ [m']) ++ [fresh]) as Hst.
  { unfold mem_stack. simpl. rewrite app_assoc, <-fmap_app, Hip, fmap_app. done. }
  assert (offsets (with_mems s1 fresh imm p) = imms.*1 ++ [off]) as Hof.
  { unfold offsets. simpl. by rewrite <-fmap_app, Hip, fmap_app. }
  destruct (ok_offsets _ _ _ _ _ _ _ _ _ Hok) as [Hos Hob].
  destruct (ok_offsets _ _ _ _ _ _ _ _ _ Hok1) as [_ Hob1].
  pose proof (ok_filled _ _ _ _ _ _ _ _ _ Hok) as Hfl.
  unfold offsets in Hos, Hob, Hob1. simpl in Hob1. rewrite Hp in Hos, Hob, Hob1, Hfl.
  change (option_list None) with (@nil (N * Memtable.Memtable)) in *.
  rewrite app_nil_r in Hos, Hob, Hob1, Hfl. fold imms in Hos, Hob, Hob1, Hfl.
  assert (∀ o, o ∈ meta.(DatabaseMetadata.log_offset) :: imms.*1 → (o < off)%N) as Hlt.
  { destruct Hne as [Hpos%encode_ops_pos|Hfull].
    2: { intros o Ho. pose proof (ok_room _ _ _ _ _ _ _ _ _ Hok Hfull o) as Hr. unfold offsets in Hr.
      rewrite Hp in Hr. simpl in Hr. rewrite app_nil_r in Hr. specialize (Hr Ho).
      unfold off, stored'. rewrite length_app. lia. }
    intros o [->|Ho]%elem_of_cons; unfold off, stored'; rewrite length_app.
    - rewrite <-(ok_offset _ _ _ _ _ _ _ _ _ Hok).
      pose proof (ok_log _ _ _ _ _ _ _ _ _ Hok) as Hidle.
      pose proof (wi_offset _ _ _ _ (idle_inv _ _ _ Hidle)) as H1'.
      pose proof (wi_write_pos _ _ _ _ (idle_inv _ _ _ Hidle)) as H2'. simpl in H1', H2'. lia.
    - rewrite Forall_forall in Hob. specialize (Hob o Ho). simpl in Hob. lia. }
  eapply db_mems_changed; [exact Hok1|..]; rewrite ?Hst, ?Hof.
  - apply Forall_app. split; [done|]. constructor; [apply memtable_new_wf|done].
  - apply Forall_app. split; [done|]. apply Forall_app in Hwd as [_ [Hwd _]%Forall_cons]. by constructor.
  - apply mem_chain_app. split; [done|]. unfold chain_end. rewrite foldl_snoc. apply chain_new.
  - rewrite <-fmap_app, Hip, fmap_app. apply Forall_app. split; [done|by constructor].
  - intros Hfull. unfold Memtable.is_full in Hfull. simpl in Hfull. bool_to_prop. lia.
  - by apply offsets_snoc.
  - apply Forall_app. split; [done|]. constructor; [done|done].
  - intros k. unfold db_sources. rewrite Hst, reverse_snoc, reverse_snoc. exact (Hv k).
Qed.

(** What a write does to the state: the memtable has the batch, and is handed
    over when it is full. *)
Definition wrote (s : DbLogic) (ops : list WriteOp) (off : N) (b : bool) (s' : DbLogic) : Prop :=
  ∃ w m, Memtable.apply_ops s.(DbLogic.memtable).(MemtableRef.inner) ops = Ok m ∧
    same_other_files s.(DbLogic.env).(env_disk) w.(WalStatus.disk) ∧
    b = Memtable.is_full m params ∧
    s' = if b then hand_over (with_wal s w) off m
         else with_mems (with_wal s w) m s.(DbLogic.imm_memtables) None.

Lemma db_write_ok s T stored meta ids M ops opt :
  db_ok s T stored meta ids M → s.(DbLogic.pending) = None →
  0 < params.(Params.max_memtable_size) →
  (s.(DbLogic.memtable).(MemtableRef.inner).(Memtable.next_seq_number) + N.of_nat (length ops)
    < u64_bound)%N →
  ∃ b s', DbLogic.write_opts params io ops opt s = Ok (b, s') ∧
    db_ok s' T (stored ++ encode_ops ops) meta ids (write_all M ops) ∧
    wrote s ops (N.of_nat (length (stored ++ encode_ops ops))) b s'.
Proof.
  intros Hok Hp Hmax Hseq. set (m := s.(DbLogic.memtable).(MemtableRef.inner)) in *.
  unfold DbLogic.write_opts. rewrite gets_bind. fold m.
  destruct (wal_store_ok io (wal_of s) stored ops (ok_log _ _ _ _ _ _ _ _ _ Hok))
    as (w1 & E1 & Hi1 & Ho1 & Hoff1).
  pose proof (on_wal_Ok (λ w, WalCalls.store io w ops) s _ _ E1) as E1'. run_st E1'.
  assert (db_ok (with_wal s w1) T (stored ++ encode_ops ops) meta ids M) as Hok1
    by (eapply db_log_grew; [done|done|done|done|len]).
  assert (∃ w, (if opt.(sync) then DbLogic.on_wal (WalCalls.sync io) else mret ()) (with_wal s w1)
    = Ok ((), with_wal s w) ∧ db_ok (with_wal s w) T (stored ++ encode_ops ops) meta ids M ∧
      same_other_files s.(DbLogic.env).(env_disk) w.(WalStatus.disk))
    as (w & E2 & Hok2 & Hother).
  { destruct (sync opt); [|by exists w1].
    destruct (wal_sync_ok io w1 _ Hi1) as (w2 & E2 & Hi2 & Ho2 & Hoff2). exists w2.
    split; [|split; [|by eapply same_other_files_trans]].
    - rewrite (on_wal_Ok (WalCalls.sync io) (with_wal s w1) () w2); [done|by rewrite wal_of_with].
    - change (with_wal s w2) with (with_wal (with_wal s w1) w2).
      by apply (db_log_grew _ _ (stored ++ encode_ops ops) _ meta ids M w2 Hok1 Hi2 Ho2). }
  clear E1 E1' Hi1 Ho1 Hoff1 Hok1. run_st E2. clear E2.
  pose proof (ok_chain _ _ _ _ _ _ _ _ _ Hok2) as Hc. pose proof (ok_mems _ _ _ _ _ _ _ _ _ Hok2) as Hw.
  pose proof (ok_holds _ _ _ _ _ _ _ _ _ Hok2) as Hv.
  assert (mem_stack (with_wal s w) = s.(DbLogic.imm_memtables).*2 ++ [m]) as Hst
    by (unfold mem_stack; simpl; by rewrite Hp).
  assert (db_sources (with_wal s w) T = mem_list false m ::
    (mem_list false <$> reverse s.(DbLogic.imm_memtables).*2) ++ level_sources T) as Hsrc.
  { unfold db_sources. rewrite Hst. by rewrite reverse_snoc. }
  rewrite Hst in Hc, Hw. apply mem_chain_app in Hc as [Hc1 Hc2].
  apply Forall_app in Hw as [Hw1 [Hw2 _]%Forall_cons].
  unfold holds in Hv. rewrite Hsrc in Hv.
  destruct (batch_applied m ops _ _ M Hw2 Hc2 Hv Hseq) as (m' & E3 & Hwf' & Hc' & Hv' & Hwd').
  pose proof (ok_width _ _ _ _ _ _ _ _ _ Hok2) as Hwd. rewrite Hst in Hwd. apply Forall_app in Hwd as [Hwd _].
  run_lift E3. destruct (Memtable.is_full m' params) eqn:Ef.
  - cbn [MemtableRef.take MemtableRef.inner].
    exists true, (hand_over (with_wal s w) (N.of_nat (length (stored ++ encode_ops ops))) m').
    split; [destruct s as [? [|] ? ? ? ?]; reflexivity|].
    split; [|exists w, m'; by rewrite Ef].
    assert (ops ≠ [] ∨ Memtable.is_full m params = true) as Hne.
    { destruct ops as [|op ops]; [right|by left]. injection E3 as ->. done. }
    assert (m'.(Memtable.entries) ≠ []) as Hfill.
    { apply total_len_nil; [done|]. unfold Memtable.is_full in Ef. bool_to_prop. lia. }
    apply (db_handed_over s w T stored ops meta ids M m'); try done.
    + apply Forall_app. split; [done|by constructor].
    + apply Forall_app. split; [done|by constructor].
    + apply mem_chain_app. by split.
  - exists false, (with_mems (with_wal s w) m' s.(DbLogic.imm_memtables) None).
    split; [destruct s; simpl in *; by subst|].
    split; [|exists w, m'; by rewrite Ef].
    assert (mem_stack (with_mems (with_wal s w) m' s.(DbLogic.imm_memtables) None)
      = s.(DbLogic.imm_memtables).*2 ++ [m']) as Hst' by done.
    destruct (ok_offsets _ _ _ _ _ _ _ _ _ Hok2) as [Hos Hob].
    eapply db_mems_changed; [exact Hok2|..]; rewrite ?Hst'.
    + apply Forall_app. split; [done|by constructor].
    + apply Forall_app. split; [done|by constructor].
    + apply mem_chain_app. by split.
    + pose proof (ok_filled _ _ _ _ _ _ _ _ _ Hok2) as Hfl. simpl in Hfl. by rewrite Hp in Hfl.
    + congruence.
    + unfold offsets in *. simpl in *. by rewrite Hp in Hos.
    + unfold offsets in *. simpl in *. by rewrite Hp in Hob.
    + intros k. unfold db_sources. rewrite Hst', reverse_snoc. exact (Hv' k).
Qed.

End write.
