(* ===== verification/LogicFlush.v ===== *)
(** * Memtable compaction (src/src/logic.rs, [do_memtable_compaction])

    The oldest immutable memtable becomes the newest table of level 0, the
    manifest and the log move on.  The lemmas show that the map the database
    stands for does not change, and that the writer that waits can go on. *)

From stdpp Require Import base list gmap strings sorting.
From Stdlib Require Import Strings.Byte NArith ZArith Lia.
From S2P Require Import Prelude WriteBatch Iterator Memtable Disk Wal WalStatus WalCalls Manifest DataBlock DataBlocks IndexBlock SortedTable TableIterator Iterate DbIterator Level Compaction Logic Sources LogicInv LogicWrite.

Local Open Scope nat_scope.
Local Open Scope lsm_scope.

(** The entry of the table for an entry of the memtable. *)
Definition flushed (e : Key * MemtableEntry) : Entry :=
  match e.2 with
  | MValue seq v => mkEntry e.1 seq WriteOp.PUT_OP v
  | MDeletion seq => mkEntry e.1 seq WriteOp.DELETE_OP []
  end.

Lemma flushed_key e : en_key (flushed e) = e.1.
Proof. by destruct e as [k [seq v|seq]]. Qed.

Lemma flushed_seq e : en_seq (flushed e) = MemtableEntry.seq_number e.2.
Proof. by destruct e as [k [seq v|seq]]. Qed.

(** ** A source replaced by one with the same values *)

Definition same_value (x y : Item) : Prop := item_key x = item_key y ∧ item_value x = item_value y.

Lemma find_key_cons k x L :
  find_key k (x :: L) = if decide (item_key x = k) then Some x else find_key k L.
Proof. unfold find_key. rewrite filter_cons. by case_decide. Qed.

Lemma find_key_same k L1 L2 :
  Forall2 same_value L1 L2 → item_value <$> find_key k L1 = item_value <$> find_key k L2.
Proof.
  induction 1 as [|x y L1 L2 [Hk Hv] _ IH]; [done|]. rewrite !find_key_cons, <-Hk.
  case_decide; [simpl; by rewrite Hv|done].
Qed.

Lemma value_of_same A L1 L2 B k :
  Forall2 same_value L1 L2 → value_of (A ++ L1 :: B) k = value_of (A ++ L2 :: B) k.
Proof.
  intros Hs. unfold value_of. rewrite !find_item_app. destruct (find_item k A); [done|]. cbn [find_item].
  pose proof (find_key_same k _ _ Hs) as Hf.
  destruct (find_key k L1), (find_key k L2); simpl in Hf; simplify_eq; simpl; congruence.
Qed.

Lemma flushed_same l :
  Forall2 same_value (table_item <$> (flushed <$> l)) (mem_item <$> l).
Proof.
  induction l as [|[k [seq v|seq]] l IH]; [done| |]; constructor; done.
Qed.

(** ** The table of a memtable *)

Lemma flushed_sorted m : memtable_wf m → entries_sorted (flushed <$> m.(Memtable.entries)).
Proof.
  intros [Hs _ _]. unfold entries_sorted. rewrite <-list_fmap_compose.
  replace (en_key ∘ flushed <$> m.(Memtable.entries)) with (m.(Memtable.entries).*1); [exact Hs|].
  apply list_fmap_ext. intros i x _. simpl. by rewrite flushed_key.
Qed.

Lemma flushed_range m :
  m.(Memtable.entries) ≠ [] →
  ∃ min max, Memtable.get_min_max_key m = Ok (min, max) ∧
    (∀ x, head (flushed <$> m.(Memtable.entries)) = Some x → min = x.(en_key)) ∧
    (∀ x, last (flushed <$> m.(Memtable.entries)) = Some x → max = x.(en_key)).
Proof.
  intros Hne. unfold Memtable.get_min_max_key.
  destruct (length (Memtable.entries m) =? 0) eqn:E; bool_to_prop; [by apply nil_length_inv in E|].
  destruct (lookup_lt_is_Some_2 (Memtable.entries m) 0) as [a Ha]; [lia|].
  destruct (lookup_lt_is_Some_2 (Memtable.entries m) (length (Memtable.entries m) - 1)) as [z Hz]; [lia|].
  rewrite Ha, Hz. cbn [expect]. run_bind. exists a.1, z.1. split; [done|]. split; intros x.
  - destruct (Memtable.entries m); simplify_eq/=. intros [= <-]. by rewrite flushed_key.
  - rewrite fmap_last, last_lookup. replace (pred _) with (length (Memtable.entries m) - 1) by lia.
    rewrite Hz. intros [= <-]. by rewrite flushed_key.
Qed.

Lemma flushed_valid m :
  memtable_wf m → (m.(Memtable.next_seq_number) < u64_bound)%N →
  Forall valid_entry (flushed <$> m.(Memtable.entries)).
Proof.
  intros [_ _ Hq] Hn. apply Forall_fmap, Forall_forall. intros e He. specialize (Hq e He).
  unfold valid_entry. simpl. rewrite flushed_seq. split; [|lia].
  destruct e as [k [seq v|seq]]; simpl; [by left|by right].
Qed.

Section flush.
Context `{BloomLaws} `{CompressionLaws} `{LruLaws DataBlock.DataBlock}.
Context (params : Params.Params) (interval : nat) (io : IoMode).
Context (Hint : params.(Params.block_restart_interval) = N.of_nat interval) (HI : 0 < interval).
Context (HI32 : (N.of_nat interval < u32_bound)%N) (Hseek : seeks_ok params).

Abbreviation DbLogic := DbLogic.DbLogic.
Abbreviation db_ok := (db_ok params interval io).

Lemma add_memtable_entries_eq tb l e :
  DbLogic.add_memtable_entries params tb l e = add_all params tb (flushed <$> l) e.
Proof.
  revert tb e; induction l as [|[k m] l IH]; intros tb e; [done|].
  rewrite fmap_cons. cbn [DbLogic.add_memtable_entries add_all].
  destruct m as [seq v|seq]; unfold TableBuilder.add_value, TableBuilder.add_deletion, mbind, st_bind; simpl;
    (destruct (TableBuilder.add_entry _ _ _ _ _ _ e) as [[tb' e']| | |]; [apply IH|done|done|done]).
Qed.

(** The state with other files, caches and manifest. *)
Definition with_env (s : DbLogic) (e : Env) : DbLogic :=
  DbLogic.mk s.(DbLogic.memtable) s.(DbLogic.imm_memtables) s.(DbLogic.pending) s.(DbLogic.levels)
    s.(DbLogic.wal) e.

Definition with_manifest (e : Env) (m : Manifest.Manifest) : Env :=
  {| env_disk := e.(env_disk); env_caches := e.(env_caches); env_manifest := m |}.

Lemma on_env_Ok {A} (f : st Env A) s a e :
  f s.(DbLogic.env) = Ok (a, e) → DbLogic.on_env f s = Ok (a, with_env s e).
Proof. intros E. unfold DbLogic.on_env. by rewrite E. Qed.

Lemma on_manifest_Ok f s m :
  f s.(DbLogic.env).(env_manifest) = Ok m →
  DbLogic.on_manifest f s = Ok ((), with_env s (with_manifest s.(DbLogic.env) m)).
Proof. intros E. unfold DbLogic.on_manifest, DbLogic.on_env. by rewrite E. Qed.

Lemma with_block_id_self meta : with_block_id meta meta.(DatabaseMetadata.next_data_block_id) = meta.
Proof. by destruct meta. Qed.

(** The new table of the memtable, once its identifier is known. *)
Lemma flush_table_ok e m id nb meta ids :
  memtable_wf m → (m.(Memtable.next_seq_number) < u64_bound)%N → m.(Memtable.entries) ≠ [] →
  cache_ok params e → manifest_holds e.(env_manifest) (with_block_id meta nb) ids →
  let l := flushed <$> m.(Memtable.entries) in
  (N.of_nat (256 + 3 * total_weight l) < u32_bound)%N → (nb + N.of_nat (length l) + 1 < u64_bound)%N →
  ∃ min max tb tb' t e1 e' bs nb', Memtable.get_min_max_key m = Ok (min, max) ∧
    TableBuilder.new id min max = Ok tb ∧
    DbLogic.add_memtable_entries params tb m.(Memtable.entries) e = Ok (tb', e1) ∧
    TableBuilder.finish params tb' e1 = Ok (t, e') ∧
    table_ok params interval e'.(env_disk) t bs ∧ be_entry <$> flat bs = l ∧
    t.(SortedTable.identifier) = id ∧ t.(SortedTable.compaction_flag) = false ∧
    cache_ok params e' ∧ manifest_holds e'.(env_manifest) (with_block_id meta nb') ids ∧
    (nb <= nb')%N ∧ Forall (λ b : N * list BEntry, (b.1 < nb')%N) bs ∧
    new_table_only id nb e.(env_disk) e'.(env_disk) ∧ reloads params e'.(env_disk) t.
Proof.
  intros Hwf Hn Hne Hc Hm l Hw Hids. destruct (flushed_range m Hne) as (min & max & Emm & Hhd & Htl).
  destruct (build_table_ok params interval Hint HI HI32 meta ids e id min max l nb Hseek Hc Hm)
    as (t & e' & bs & nb' & E & Ht & Hfl & Hid & Hflag & Hc' & Hm' & Hnb' & Hb & Hnew & Hload).
  - split; [by apply flushed_valid|by apply flushed_sorted| |done|done].
    unfold l. by destruct (Memtable.entries m).
  - exact Hhd.
  - exact Htl.
  - unfold build_table in E. unfold lift, mbind, st_bind in E.
    destruct (TableBuilder.new id min max) as [tb| | |] eqn:E1; try done. cbn [outcome_bind] in E.
    simpl in E. destruct (add_all params tb l e) as [[tb' e1]| | |] eqn:E2; try done.
    exists min, max, tb, tb', t, e1, e', bs, nb'. rewrite add_memtable_entries_eq.
    split_and!; try done; [lia|]. subst id. by apply loaded_reloads.
Qed.

(** ** The levels with a new table *)

Lemma level_sources_snoc bss bs T :
  level_sources ((bss ++ [bs]) :: T) = table_list false bs :: level_sources (bss :: T).
Proof. unfold level_sources. rewrite !fmap_cons. cbn [concat]. by rewrite reverse_snoc, fmap_cons. Qed.

Lemma levels_ok_add_l0 d nb next l ls bss T t bs lo :
  levels_ok params interval d nb next (l :: ls) (bss :: T) →
  table_ok params interval d t bs → t.(SortedTable.identifier) = next → (FIRST_TABLE_ID <= next)%N →
  t.(SortedTable.compaction_flag) = false → Forall (λ b : N * list BEntry, (b.1 < nb)%N) bs →
  (∀ L x, L ∈ level_sources (bss :: T) → x ∈ L → (item_seq x < lo)%N) →
  (∀ x, x ∈ table_list false bs → (lo <= item_seq x)%N) → reloads params d t →
  levels_ok params interval d nb (next + 1)
    (Level.set_tables l (l.(Level.tables) ++ [t]) :: ls) ((bss ++ [bs]) :: T).
Proof.
  intros [O1 O2 O3 O4 O5 O6 O7 O8 O9 O10] Ht Hid Hfirst Hflag Hb Hold Hnew Hrel.
  assert (concat (level_ids (Level.set_tables l (Level.tables l ++ [t]) :: ls))
    ≡ₚ next :: concat (level_ids (l :: ls))) as Hperm.
  { unfold level_ids. rewrite !fmap_cons. simpl. rewrite fmap_app, <-app_assoc. simpl. rewrite Hid.
    symmetry. apply Permutation_middle. }
  split.
  - inversion O1 as [|? ? ? ? Hl Hls]; subst. constructor; [|done]. apply Forall2_app; [done|by constructor].
  - intros [|i] l' Hi; [injection Hi as <-; exact (O2 0 l eq_refl)|by apply (O2 (S i))].
  - intros l' [->|Hl']%elem_of_cons; [|apply O3; set_solver]. destruct (O3 l) as [Hp Hf]; [set_solver|].
    split; [done|]. simpl. apply Forall_app. split; [done|by constructor].
  - intros [|i] l' Hi Hpos; [lia|by apply (O4 (S i))].
  - rewrite level_sources_snoc. constructor; [done|]. apply Forall_forall. intros L HL x y Hx Hy _.
    specialize (Hold L y HL Hy). specialize (Hnew x Hx). lia.
  - apply Forall_cons in O6 as [Hbss O6]. constructor; [|done]. apply Forall_app. split; [done|by constructor].
  - rewrite Hperm. apply NoDup_cons. split; [|done]. intros Hin. rewrite Forall_forall in O8.
    specialize (O8 next Hin). simpl in O8. lia.
  - rewrite Hperm. constructor; [lia|]. eapply Forall_impl; [exact O8|]. intros id Hx. simpl in Hx. lia.
  - apply Forall_cons in O9 as [Hl O9]. constructor; [|done]. simpl. apply Forall_app. split; [done|by constructor].
  - intros l' [= <-]. simpl. rewrite fmap_app. apply StronglySorted_app. split_and!; [|by apply O10|by repeat constructor].
    intros a b Ha Hb'. apply list_elem_of_singleton in Hb' as ->. rewrite Forall_forall in O8.
    rewrite Hid. apply O8. unfold level_ids. rewrite fmap_cons. simpl. apply elem_of_app. by left.
Qed.

Lemma l0_sets l ls t ids :
  id_sets ids = id_sets (level_ids (l :: ls)) →
  foldl spec_remove (foldl spec_add (id_sets ids) [(0%N, t.(SortedTable.identifier))]) []
    = id_sets (level_ids (Level.set_tables l (l.(Level.tables) ++ [t]) :: ls)).
Proof.
  intros ->. unfold id_sets, level_ids. rewrite !fmap_cons. simpl. unfold spec_add. simpl. f_equal.
  rewrite fmap_app, list_to_set_app_L. simpl. set_solver.
Qed.

(** ** The whole compaction *)

Lemma new_table_log id nb d d' i : new_table_only id nb d d' → d' !! LogFile i = d !! LogFile i.
Proof. intros Hn. by apply Hn. Qed.

(** There is room for the table of the memtable. *)
Record flush_fits (meta : DatabaseMetadata.DatabaseMetadata) (stored : list byte)
    (m : Memtable.Memtable) : Prop := {
  ff_weight : (N.of_nat (256 + 3 * total_weight (flushed <$> m.(Memtable.entries))) < u32_bound)%N;
  ff_blocks : (meta.(DatabaseMetadata.next_data_block_id) + N.of_nat (length m.(Memtable.entries)) + 1
    < u64_bound)%N;
  ff_table : (meta.(DatabaseMetadata.next_table_id) + 1 < u64_bound)%N;
  ff_log : (N.of_nat (length stored) < u64_bound)%N;
}.

(** The metadata after the memtable was compacted. *)
Definition flushed_meta (meta : DatabaseMetadata.DatabaseMetadata) (seq off nb : N)
  : DatabaseMetadata.DatabaseMetadata :=
  DatabaseMetadata.mk meta.(DatabaseMetadata.next_table_id) meta.(DatabaseMetadata.num_levels) seq off nb.

(** The manifest and the log move on. *)
Lemma publish_ok m meta ids w stored seq off id l ls t :
  manifest_holds m meta ids → id_sets ids = id_sets (level_ids (l :: ls)) →
  t.(SortedTable.identifier) = id → valid_id id → id ∉ concat (level_ids (l :: ls)) →
  (meta.(DatabaseMetadata.seq_number_offset) < seq < u64_bound)%N →
  (meta.(DatabaseMetadata.log_offset) < off)%N → (off <= N.of_nat (length stored))%N →
  (N.of_nat (length stored) < u64_bound)%N →
  idle io w stored →
  N.of_nat w.(WalStatus.status).(LogStatus.offset_pos) = meta.(DatabaseMetadata.log_offset) →
  ∃ m1 m2 w' m3 ids', Manifest.set_seq_number_offset m seq = Ok m1 ∧
    Manifest.update_table_set m1 [(0%N, id)] [] = Ok m2 ∧
    WalCalls.set_offset io w off = Ok ((), w') ∧ Manifest.set_log_offset m2 off = Ok m3 ∧
    manifest_holds m3 (flushed_meta meta seq off meta.(DatabaseMetadata.next_data_block_id)) ids' ∧
    id_sets ids' = id_sets (level_ids (Level.set_tables l (l.(Level.tables) ++ [t]) :: ls)) ∧
    idle io w' stored ∧ same_other_files w.(WalStatus.disk) w'.(WalStatus.disk) ∧
    N.of_nat w'.(WalStatus.status).(LogStatus.offset_pos) = off.
Proof.
  intros Hm Hsets Hid Hvalid Hfresh Hseq Hoff Hofle Hlen Hidle Hwoff.
  destruct (set_seq_number_offset_holds _ _ _ Hm seq Hseq) as (m1 & E1 & Hm1).
  destruct (update_table_set_ok m1 _ ids [(0%N, id)] [] Hm1) as (m2 & ids' & E2 & Hm2 & _ & Hs2).
  { split; [|split; [done|done]]. simpl. rewrite Hsets. eexists; split; [done|].
    intros Hin. apply Hfresh. unfold level_ids. rewrite fmap_cons. simpl. set_solver. }
  { done. }
  destruct (wal_set_offset_ok io w stored off Hidle) as (w' & Ew & Hidle' & Ho & Hwo); [lia|].
  destruct (set_log_offset_holds _ _ _ Hm2 off) as (m3 & E3 & Hm3); [simpl; lia|].
  exists m1, m2, w', m3, ids'. split_and!; try done; [|lia].
  rewrite Hs2, <-Hid. by apply l0_sets.
Qed.

(** The sources after the compaction hold the same values. *)
Lemma flushed_holds mem stk bs bss T M :
  be_entry <$> flat bs = flushed <$> mem.(Memtable.entries) →
  holds ((mem_list false <$> reverse (mem :: stk)) ++ level_sources (bss :: T)) M →
  holds ((mem_list false <$> reverse stk) ++ level_sources ((bss ++ [bs]) :: T)) M.
Proof.
  intros Hfl Hv k. rewrite <-(Hv k), level_sources_snoc, reverse_cons, fmap_app, <-app_assoc.
  apply value_of_same. unfold table_list. rewrite Hfl. apply flushed_same.
Qed.

Lemma flushed_seq_range mem bs b x :
  memtable_wf mem → be_entry <$> flat bs = flushed <$> mem.(Memtable.entries) →
  (∀ e, e ∈ mem.(Memtable.entries) → (b <= MemtableEntry.seq_number e.2)%N) →
  x ∈ table_list false bs → (b <= item_seq x < mem.(Memtable.next_seq_number))%N.
Proof.
  intros Hwf Hfl Hb Hx. unfold table_list in Hx. rewrite Hfl in Hx.
  apply list_elem_of_fmap in Hx as (en & -> & (e & -> & He)%list_elem_of_fmap). simpl.
  rewrite flushed_seq. pose proof (wf_seq _ Hwf e He). specialize (Hb e He). lia.
Qed.

Lemma db_flush_ok s T stored meta ids M off mem rest :
  db_ok s T stored meta ids M → s.(DbLogic.imm_memtables) = (off, mem) :: rest →
  flush_fits meta stored mem →
  ∃ s' T' meta' ids', DbLogic.do_memtable_compaction params io s = Ok (true, s') ∧
    db_ok s' T' stored meta' ids' M ∧ s'.(DbLogic.imm_memtables) = rest ∧
    s'.(DbLogic.pending) = s.(DbLogic.pending) ∧ s'.(DbLogic.memtable) = s.(DbLogic.memtable) ∧
    meta'.(DatabaseMetadata.seq_number_offset) = mem.(Memtable.next_seq_number) ∧
    meta'.(DatabaseMetadata.log_offset) = off ∧
    meta'.(DatabaseMetadata.num_levels) = meta.(DatabaseMetadata.num_levels).
Proof.
  intros Hok Himm [Hw Hb Hid Hlog].
  pose proof Hok as [K1 K1' K2 K3 K4 K5 K6 [K7 K7p] K7' K8 K9 K10 K11 K12 [K13 K13'] K14].
  assert (∃ stk, mem_stack s = mem :: stk ∧ stk = rest.*2 ++ (option_list s.(DbLogic.pending)).*2 ++
    [s.(DbLogic.memtable).(MemtableRef.inner)]) as (stk & Hstk & Hrest).
  { unfold mem_stack. rewrite Himm. by eexists. }
  rewrite Hstk in K1, K1', K2. apply Forall_cons in K1 as [Hwf K1], K1' as [Hwd K1'].
  destruct K2 as (Hge & Hle & Hchain). rewrite Himm in K3. apply Forall_cons in K3 as [Hne K3].
  unfold offsets in K13, K13'. rewrite Himm in K13, K13'. apply Forall_cons in K13' as [Hoffle K13'].
  destruct (s.(DbLogic.levels)) as [|l ls] eqn:El; [simpl in K7; lia|].
  destruct T as [|bss T]; [by apply lo_tables in K5; inversion K5|].
  unfold DbLogic.do_memtable_compaction. rewrite gets_bind, Himm.
  destruct (generate_table_id_holds _ _ _ K9 Hid) as (m1 & E1 & Hm1).
  set (meta1 := DatabaseMetadata.mk _ _ _ _ _) in Hm1.
  set (e1 := with_manifest s.(DbLogic.env) m1).
  assert (cache_ok params e1) as Hc1.
  { destruct s as [? ? ? ? ? [? ? ?]]. by eapply cache_ok_other; [intros f _|]. }
  rewrite <-(with_block_id_self meta1) in Hm1.
  destruct (flush_table_ok e1 mem meta.(DatabaseMetadata.next_table_id)
    meta.(DatabaseMetadata.next_data_block_id) meta1 ids Hwf Hwd Hne Hc1 Hm1)
    as (min & max & tb & tb' & t & e2 & e3 & bs & nb' & Emm & Etb & Eadd & Efin & Ht & Hfl & Htid & Hflag &
        Hc3 & Hm3 & Hnb' & Hbs & Hnew & Hrel); [exact Hw|rewrite length_fmap; lia|].
  run_lift Emm. cbn beta iota.
  assert (DbLogic.get_level 0 s = Ok (l, s)) as E0 by (unfold DbLogic.get_level; by rewrite El).
  run_st E0.
  assert (DbLogic.on_env Level.generate_table_id s
    = Ok (meta.(DatabaseMetadata.next_table_id), with_env s e1)) as E1'.
  { apply on_env_Ok. unfold Level.generate_table_id. by rewrite E1. }
  run_st E1'. unfold Level.build_table. run_lift Etb.
  pose proof (on_env_Ok (DbLogic.add_memtable_entries params tb mem.(Memtable.entries))
    (with_env s e1) _ _ Eadd) as Eadd'. run_st Eadd'.
  pose proof (on_env_Ok (TableBuilder.finish params tb') (with_env s e2) _ _ Efin) as Efin'.
  change (with_env (with_env s e1) e2) with (with_env s e2). run_st Efin'.
  change (with_env (with_env s e2) e3) with (with_env s e3).
  set (l' := Level.set_tables l (l.(Level.tables) ++ [t])).
  assert (Level.add_l0_table l t = Ok l') as Eadd0.
  { unfold Level.add_l0_table. by rewrite (lo_index _ _ _ _ _ _ _ K5 0 l eq_refl). }
  run_lift Eadd0.
  set (with_l e := DbLogic.mk s.(DbLogic.memtable) s.(DbLogic.imm_memtables) s.(DbLogic.pending) (l' :: ls)
    s.(DbLogic.wal) e : DbLogic).
  assert (DbLogic.set_level 0 l' (with_env s e3) = Ok ((), with_l e3)) as Eset.
  { unfold DbLogic.set_level. simpl. by rewrite El. }
  run_st Eset.
  assert (meta.(DatabaseMetadata.seq_number_offset) < mem.(Memtable.next_seq_number))%N as Hseqlt.
  { destruct (Memtable.entries mem) as [|x es] eqn:Ees; [done|].
    pose proof (Hge x ltac:(set_solver)). pose proof (wf_seq _ Hwf x ltac:(rewrite Ees; set_solver)). lia. }
  assert (meta.(DatabaseMetadata.log_offset) < off)%N as Hofflt.
  { apply StronglySorted_inv in K13 as [_ Hall]. by apply Forall_cons in Hall as [? _]. }
  pose proof (idle_frame io (wal_of s) e3.(env_disk) stored (λ i, new_table_log _ _ _ _ i Hnew) K11) as Hidle3.
  set (w3 := mkWal _ _ _ e3.(env_disk)) in Hidle3.
  destruct (publish_ok _ _ ids w3 stored mem.(Memtable.next_seq_number) off
    meta.(DatabaseMetadata.next_table_id) l ls t Hm3 K10 Htid)
    as (m4 & m5 & w & m6 & ids' & E4 & E5 & E6 & E7 & Hm6 & Hs6 & Hi6 & Ho6 & Hw6);
    [split; [done|lia]| |done|done|done|done|exact Hidle3|exact K12|].
  { intros Hin. pose proof (lo_ids _ _ _ _ _ _ _ K5) as Hall. rewrite Forall_forall in Hall.
    specialize (Hall _ Hin). simpl in Hall. lia. }
  pose proof (on_manifest_Ok (λ m, Manifest.set_seq_number_offset m (Memtable.get_next_seq_number mem))
    (with_l e3) m4 E4) as E4'. run_st E4'.
  change (with_env (with_l e3) _) with (with_l (with_manifest e3 m4)).
  unfold SortedTable.get_id. rewrite Htid.
  pose proof (on_manifest_Ok (λ m, Manifest.update_table_set m [(0%N, DatabaseMetadata.next_table_id meta)] [])
    (with_l (with_manifest e3 m4)) m5 E5) as E5'. run_st E5'.
  change (with_env (with_l _) _) with (with_l (with_manifest e3 m5)).
  pose proof (on_wal_Ok (λ w, WalCalls.set_offset io w off) (with_l (with_manifest e3 m5)) _ _ E6) as E6'.
  run_st E6'. set (s6 := with_wal _ w).
  pose proof (on_manifest_Ok (λ m, Manifest.set_log_offset m off) s6 m6 E7) as E7'. run_st E7'.
  rewrite gets_bind. cbn [s6 with_wal with_env with_l DbLogic.imm_memtables]. rewrite Himm. cbn [length Nat.eqb negb].
  eexists _, ((bss ++ [bs]) :: T), (flushed_meta meta1 mem.(Memtable.next_seq_number) off nb'), ids'.
  split; [reflexivity|]. split; [|done].
  assert (∀ L x, L ∈ level_sources ((bss ++ [bs]) :: T) → x ∈ L →
    (item_seq x < mem.(Memtable.next_seq_number))%N) as Hold.
  { intros L x. rewrite level_sources_snoc. intros [->|HL]%elem_of_cons Hx.
    - by eapply (flushed_seq_range mem bs).
    - specialize (K6 L x HL Hx). lia. }
  assert (∀ d, same_other_files e3.(env_disk) d → old_blocks_kept nb' e3.(env_disk) d) as Hkept
    by (intros d; apply other_files_kept).
  split; simpl; unfold mem_stack, offsets, db_sources; simpl; rewrite <-?Hrest; try done.
  - intros Hfull o Ho. apply (K4 Hfull). unfold offsets. rewrite Himm. set_solver.
  - eapply (levels_ok_frame params interval e3.(env_disk)); [by apply Hkept|by apply other_indices_kept|done|done|].
    eapply levels_ok_add_l0; try done; [|].
    + eapply levels_ok_frame; [by eapply new_table_kept|by eapply new_index_kept|lia| |exact K5]. done.
    + intros x Hx. by eapply (flushed_seq_range mem bs).
  - lia.
  - destruct e3. by eapply cache_ok_other.
  - by destruct w.
  - split; [|done]. apply StronglySorted_inv in K13 as [? ?]. done.
  - unfold mem_stack. simpl. rewrite <-Hrest. apply (flushed_holds mem stk bs bss T M Hfl). rewrite <-Hstk. exact K14.
Qed.

End flush.
