(* ===== verification/LogicCompact.v ===== *)
(** * Level compaction (src/src/logic.rs, [compact_level] and [fast_compaction])

    A compaction replaces tables of a level and the tables they overlap on the
    next level by their merge, or moves a table down.  The lemmas show that the
    map the database stands for does not change, that the levels stay disjoint
    and the manifest follows. *)

From stdpp Require Import base list gmap strings sorting.
From Stdlib Require Import Strings.Byte NArith ZArith Lia.
From S2P Require Import Prelude WriteBatch Iterator Memtable Disk Wal WalStatus WalCalls Manifest DataBlock DataBlocks IndexBlock SortedTable TableIterator Iterate DbIterator Level Compaction Logic Sources LogicInv LogicWrite LogicFlush.

Local Open Scope nat_scope.
Local Open Scope lsm_scope.

(** ** Merges *)

Lemma merged_merge Ls out : merged None Ls out → merge_of Ls out.
Proof.
  intros (_ & Hin & Hall). split; [intros x Hx; by apply Hin|]. intros L y HL Hy.
  by apply (Hall L y HL Hy).
Qed.

Lemma single_merge L : dir_sorted false L → merge_of [L] L.
Proof.
  intros Hs. split; [intros x Hx; by apply newest_single|].
  intros L' y ->%list_elem_of_singleton Hy. by exists y.
Qed.

(** ** Removing and inserting tables *)

Abbreviation tid := SortedTable.identifier.

Lemma filter_all {A} (P : A → Prop) `{!∀ x, Decision (P x)} (l : list A) : (∀ x, x ∈ l → P x) → filter P l = l.
Proof.
  induction l as [|x l IH]; intros Hp; [done|]. rewrite filter_cons, decide_True by set_solver.
  f_equal. apply IH. set_solver.
Qed.

Lemma NoDup_filter_ids (P : SortedTable.SortedTable → Prop) `{!∀ t, Decision (P t)} ts :
  NoDup (tid <$> ts) → NoDup (tid <$> filter P ts).
Proof. intros Hnd. eapply sublist_NoDup; [exact Hnd|]. apply fmap_sublist, sublist_filter. Qed.

Lemma position_of_ok ts id :
  NoDup (tid <$> ts) → id ∈ tid <$> ts →
  ∃ p t, Level.position_of ts id = Some p ∧ ts !! p = Some t ∧ tid t = id ∧
    vec_remove p ts = filter (λ t, tid t ≠ id) ts.
Proof.
  induction ts as [|t ts IH]; intros Hnd Hin; [by apply not_elem_of_nil in Hin|].
  rewrite fmap_cons in Hnd, Hin. apply NoDup_cons in Hnd as [Hnt Hnd]. cbn [Level.position_of].
  unfold SortedTable.get_id. destruct (tid t =? id)%N eqn:E; bool_to_prop.
  - exists 0, t. split_and!; try done. rewrite filter_cons, decide_False by (by intros []).
    unfold vec_remove. simpl. rewrite drop_0. symmetry. apply filter_all.
    intros t' Ht' Heq. apply Hnt. subst. rewrite <-Heq. by apply list_elem_of_fmap_2.
  - apply elem_of_cons in Hin as [?|Hin]; [congruence|].
    destruct (IH Hnd Hin) as (p & t' & -> & Hp & Hid & Hrem). exists (S p), t'. split_and!; try done.
    rewrite filter_cons, decide_True by done. by rewrite <-Hrem.
Qed.

Lemma remove_all_ok ts R :
  NoDup (tid <$> ts) → NoDup (tid <$> R) → (∀ t, t ∈ R → tid t ∈ tid <$> ts) →
  DbLogic.remove_all ts R = Ok (filter (λ t, tid t ∉ tid <$> R) ts).
Proof.
  revert ts; induction R as [|r R IH]; intros ts Hnd HndR Hin; cbn [DbLogic.remove_all].
  { f_equal. symmetry. apply filter_all. intros t _. apply not_elem_of_nil. }
  rewrite fmap_cons in HndR. apply NoDup_cons in HndR as [Hr HndR].
  destruct (position_of_ok ts (tid r) Hnd) as (p & t & Hp & Ht & Hid & Hrem); [apply Hin; set_solver|].
  unfold SortedTable.get_id. rewrite Hp. cbn [expect]. run_bind. rewrite Hrem, IH.
  - f_equal. rewrite list_filter_filter. apply list_filter_iff. intros t'. rewrite fmap_cons, not_elem_of_cons.
    tauto.
  - by apply NoDup_filter_ids.
  - done.
  - intros t' Ht'. specialize (Hin t' ltac:(set_solver)).
    apply list_elem_of_fmap in Hin as (u & Hu & Hin). rewrite Hu. apply list_elem_of_fmap_2.
    apply list_elem_of_filter. split; [|done]. intros Heq. apply Hr.
    rewrite <-Heq, <-Hu. by apply list_elem_of_fmap_2.
Qed.

Lemma find_greater_ok ts k : Forall ranged ts → ∃ r, DbLogic.find_greater ts k = Ok r.
Proof.
  induction 1 as [|t ts Ht _ [r IH]]; [by eexists|]. cbn [DbLogic.find_greater].
  rewrite (ranged_min _ Ht). run_bind. destruct (key_ltb k (tmin t)); [by eexists|].
  rewrite IH. run_bind. by eexists.
Qed.

(** ** Ranges *)

(** [m] and [M] are the smallest and the greatest key of the tables. *)
Definition covers (m M : Key) (ts : list SortedTable.SortedTable) : Prop :=
  (∀ t, t ∈ ts → m <=k tmin t ∧ tmax t <=k M) ∧
  (∃ t, t ∈ ts ∧ tmin t = m) ∧ ∃ t, t ∈ ts ∧ tmax t = M.

Lemma covers_single t : covers (tmin t) (tmax t) [t].
Proof.
  split; [|split; exists t; set_solver]. intros t' ->%list_elem_of_singleton. split; apply kle_refl.
Qed.

Lemma range_of_ok ts0 ts m M :
  covers m M ts0 → Forall ranged ts →
  ∃ m' M', DbLogic.range_of ts m M = Ok (m', M') ∧ covers m' M' (ts0 ++ ts).
Proof.
  revert ts0 m M; induction ts as [|t ts IH]; intros ts0 m M Hc Hr.
  { exists m, M. by rewrite app_nil_r. }
  apply Forall_cons in Hr as [Rt Hr]. cbn [DbLogic.range_of].
  rewrite (ranged_min _ Rt), (ranged_max _ Rt). run_bind.
  replace (ts0 ++ t :: ts) with ((ts0 ++ [t]) ++ ts) by (by rewrite <-app_assoc).
  apply IH; [|done]. destruct Hc as (Hb & (tm & Htm & Hm) & (tM & HtM & HM)). split_and!.
  - intros t' [Ht'| ->%list_elem_of_singleton]%elem_of_app.
    + destruct (Hb t' Ht'). destruct (key_min_cases m (tmin t)) as [[? ->]|[? ->]],
        (key_max_cases M (tmax t)) as [[? ->]|[? ->]]; split; korder.
    + destruct (key_min_cases m (tmin t)) as [[? ->]|[? ->]],
        (key_max_cases M (tmax t)) as [[? ->]|[? ->]]; split; korder.
  - destruct (key_min_cases m (tmin t)) as [[? ->]|[? ->]]; [exists tm|exists t]; set_solver.
  - destruct (key_max_cases M (tmax t)) as [[? ->]|[? ->]]; [exists tM|exists t]; set_solver.
Qed.

Lemma covers_le m M ts : covers m M ts → Forall ranged ts → m <=k M.
Proof.
  intros (Hb & (t & Ht & <-) & _) Hr. rewrite Forall_forall in Hr. destruct (Hr t Ht) as [_ _ Hle].
  destruct (Hb t Ht). korder.
Qed.

Section tables.
Context `{Bloom} `{Compression} `{LruLaws DataBlock.DataBlock}.
Context (params : Params.Params) (interval : nat).

(** The keys of a table are in its range, which they span. *)
Lemma table_items_range d t bs :
  table_ok params interval d t bs → spans (tmin t) (tmax t) [table_list false bs].
Proof.
  intros Ht. destruct (to_index _ _ _ _ _ Ht) as (size & min & max & Hix & Hmin & Hmax).
  assert (tmin t = min) as -> by (unfold tmin, SortedTable.get_min; by erewrite index_get_min).
  assert (tmax t = max) as -> by (unfold tmax, SortedTable.get_max; by erewrite index_get_max).
  pose proof (flat_nonempty _ _ _ _ _ Ht) as Hne.
  assert (∀ be, be ∈ flat bs → table_item (be_entry be) ∈ table_list false bs) as Hin.
  { intros be Hbe. by do 2 apply list_elem_of_fmap_2. }
  split_and!.
  - intros L y ->%list_elem_of_singleton Hy.
    apply list_elem_of_fmap in Hy as (en & -> & (be & -> & Hbe)%list_elem_of_fmap).
    by apply (table_range params interval d t bs size min max be).
  - destruct (flat bs) as [|be l] eqn:E; [done|].
    exists (table_list false bs), (table_item (be_entry be)).
    split; [split; [set_solver|apply Hin; set_solver]|]. symmetry. by apply Hmin.
  - destruct (last (flat bs)) as [be|] eqn:E; [|by apply last_None in E].
    exists (table_list false bs), (table_item (be_entry be)).
    split; [split; [set_solver|]|symmetry; by apply Hmax]. apply Hin.
    apply last_Some in E as [l ->]. set_solver.
Qed.

Lemma covers_spans d tbs m M :
  Forall (λ tb, table_ok params interval d tb.1 tb.2) tbs → covers m M tbs.*1 →
  spans m M (table_list false <$> tbs.*2).
Proof.
  intros Ht (Hb & (t1 & Ht1 & Hm) & (t2 & Ht2 & HM)).
  assert (∀ tb, tb ∈ tbs → spans (tmin tb.1) (tmax tb.1) [table_list false tb.2]) as Hs.
  { intros tb Htb. rewrite Forall_forall in Ht. by eapply table_items_range, Ht. }
  assert (∀ tb : _ * Blocks, tb ∈ tbs → table_list false tb.2 ∈ table_list false <$> tbs.*2) as Hin.
  { intros tb Htb. by do 2 apply list_elem_of_fmap_2. }
  split_and!.
  - intros L y (bs & -> & (tb & -> & Htb)%list_elem_of_fmap)%list_elem_of_fmap Hy.
    destruct (Hs tb Htb) as [Hr _]. destruct (Hr _ y (proj2 (list_elem_of_singleton _ _) eq_refl) Hy).
    destruct (Hb tb.1) as [? ?]; [by apply list_elem_of_fmap_2|]. split; korder.
  - apply list_elem_of_fmap in Ht1 as (tb & -> & Htb). destruct (Hs tb Htb) as (_ & (L & y & [HL Hy] & Hk) & _).
    apply list_elem_of_singleton in HL as ->. exists (table_list false tb.2), y. split; [auto|congruence].
  - apply list_elem_of_fmap in Ht2 as (tb & -> & Htb). destruct (Hs tb Htb) as (_ & _ & (L & y & [HL Hy] & Hk)).
    apply list_elem_of_singleton in HL as ->. exists (table_list false tb.2), y. split; [auto|congruence].
Qed.

(** Tables with disjoint ranges have no common key. *)
Lemma disjoint_keys d tb1 tb2 x y :
  table_ok params interval d tb1.1 tb1.2 → table_ok params interval d tb2.1 tb2.2 →
  ¬ overlapping (tmin tb1.1) (tmax tb1.1) tb2.1 →
  x ∈ table_list false tb2.2 → y ∈ table_list false tb1.2 → item_key x ≠ item_key y.
Proof.
  intros H1' H2' Hno Hx Hy Heq. destruct (table_items_range _ _ _ H1') as [Hr1 _].
  destruct (table_items_range _ _ _ H2') as [Hr2 _].
  destruct (Hr1 _ y (proj2 (list_elem_of_singleton _ _) eq_refl) Hy).
  destruct (Hr2 _ x (proj2 (list_elem_of_singleton _ _) eq_refl) Hx).
  apply Hno. rewrite Heq in *. split; korder.
Qed.

End tables.

(** The sources of a list of tables, the newest first. *)
Definition srcs (tbs : list (SortedTable.SortedTable * Blocks)) : list (list Item) :=
  table_list false <$> reverse tbs.*2.

Lemma elem_of_srcs tbs L : L ∈ srcs tbs ↔ ∃ tb, tb ∈ tbs ∧ L = table_list false tb.2.
Proof.
  unfold srcs. rewrite list_elem_of_fmap. setoid_rewrite elem_of_reverse. setoid_rewrite list_elem_of_fmap.
  naive_solver.
Qed.

Lemma Forall_sublist {A} (P : A → Prop) (l1 l2 : list A) : l1 `sublist_of` l2 → Forall P l2 → Forall P l1.
Proof. rewrite !Forall_forall. intros Hs Hp x Hx. apply Hp. by eapply elem_of_sublist. Qed.

Lemma sublist_reverse {A} (l1 l2 : list A) : l1 `sublist_of` l2 → reverse l1 `sublist_of` reverse l2.
Proof.
  induction 1 as [|x l1 l2 _ IH|x l1 l2 _ IH]; [done| |]; rewrite !reverse_cons.
  - by apply sublist_app.
  - by apply sublist_inserts_r.
Qed.

Lemma sublist_srcs tbs tbs' : tbs' `sublist_of` tbs → srcs tbs' `sublist_of` srcs tbs.
Proof.
  intros Hs. unfold srcs. apply fmap_sublist. apply sublist_reverse. by apply fmap_sublist.
Qed.

Lemma level_sources_app T1 T2 : level_sources (T1 ++ T2) = level_sources T1 ++ level_sources T2.
Proof. unfold level_sources. by rewrite fmap_app, concat_app. Qed.

Lemma level_sources_cons tbs T : level_sources (tbs.*2 :: T) = srcs tbs ++ level_sources T.
Proof. done. Qed.

Lemma srcs_insert KC1 KC2 tb : srcs (KC1 ++ tb :: KC2) = srcs KC2 ++ table_list false tb.2 :: srcs KC1.
Proof.
  unfold srcs. rewrite fmap_app, fmap_cons, reverse_app, reverse_cons, <-app_assoc, fmap_app. done.
Qed.

Lemma level_ids_split ls1 l c ls2 :
  concat (level_ids (ls1 ++ l :: c :: ls2)) =
    concat (level_ids ls1) ++ (tid <$> l.(Level.tables)) ++ (tid <$> c.(Level.tables)) ++ concat (level_ids ls2).
Proof. unfold level_ids. by rewrite fmap_app, !fmap_cons, concat_app. Qed.

(** ** Disjoint tables *)

Lemma overlapping_sym t1 t2 : overlapping (tmin t1) (tmax t1) t2 ↔ overlapping (tmin t2) (tmax t2) t1.
Proof. unfold overlapping. tauto. Qed.

Lemma pairwise_disjoint_sublist ts ts' :
  ts' `sublist_of` ts → pairwise_disjoint ts → pairwise_disjoint ts'.
Proof.
  induction 1 as [|t ts' ts Hsub IH|t ts' ts Hsub IH]; intros Hd; [done| |];
    apply pairwise_disjoint_cons in Hd as [Ht Hd].
  - apply pairwise_disjoint_cons. split; [|by apply IH]. intros t' Ht'. apply Ht. by eapply elem_of_sublist.
  - by apply IH.
Qed.

Lemma pairwise_disjoint_insert ts1 ts2 t :
  pairwise_disjoint (ts1 ++ ts2) → (∀ t', t' ∈ ts1 ++ ts2 → disjoint_tables t t') →
  pairwise_disjoint (ts1 ++ t :: ts2).
Proof.
  induction ts1 as [|t1 ts1 IH]; intros Hd Ht; simpl in *.
  - apply pairwise_disjoint_cons. split; [|done]. intros t' Ht'. specialize (Ht t' Ht'). split; [done|].
    unfold disjoint_tables in *. by rewrite overlapping_sym.
  - apply pairwise_disjoint_cons in Hd as [Ht1 Hd]. apply pairwise_disjoint_cons. split.
    + intros t' Ht'. assert (t' = t ∨ t' ∈ ts1 ++ ts2) as [->|?] by set_solver; [|by apply Ht1].
      specialize (Ht t1 ltac:(set_solver)). split; [|done].
      unfold disjoint_tables in *. by rewrite overlapping_sym.
    + apply IH; [done|]. intros t' Ht'. apply Ht. set_solver.
Qed.

(** ** Replacing tables of two levels *)

Section replace.
Context `{Bloom} `{Compression} `{LruLaws DataBlock.DataBlock}.
Context (params : Params.Params) (interval : nat) (d : Disk).

(** The tables of the two levels: [R] of the upper and [RC] of the lower one are
    replaced by [new], [K] and [KC1 ++ KC2] are left. *)
Context (pbs cbs K R KC1 KC2 RC : list (SortedTable.SortedTable * Blocks)).
Context (new : SortedTable.SortedTable * Blocks).
Context (Hp : Forall (λ tb, table_ok params interval d tb.1 tb.2) pbs).
Context (Hc : Forall (λ tb, table_ok params interval d tb.1 tb.2) cbs).
Context (Hn : table_ok params interval d new.1 new.2).
Context (HK : K `sublist_of` pbs) (HR : ∀ tb, tb ∈ R → tb ∈ pbs) (HKR : ∀ tb, tb ∈ pbs → (tb ∈ K) ∨ (tb ∈ R)).
Context (HKC : KC1 ++ KC2 `sublist_of` cbs) (HRC : ∀ tb, tb ∈ RC → tb ∈ cbs).
Context (HKRC : ∀ tb, tb ∈ cbs → (tb ∈ KC1 ++ KC2) ∨ (tb ∈ RC)).
Context (Hmerge : merge_of (table_list false <$> (R ++ RC).*2) (table_list false new.2)).
Context (HdK : ∀ k r, k ∈ K → r ∈ R → ¬ overlapping (tmin r.1) (tmax r.1) k.1).
Context (HdC : ∀ k r, k ∈ KC1 ++ KC2 → r ∈ R ++ RC → ¬ overlapping (tmin r.1) (tmax r.1) k.1).
Context (A : list (list Item)) (T1 T2 : list (list Blocks)).

Abbreviation old := (A ++ srcs pbs ++ srcs cbs ++ level_sources T2).
Abbreviation upd := (A ++ srcs K ++ srcs (KC1 ++ new :: KC2) ++ level_sources T2).
Context (Hord : newest_first old) (Hsorted : Forall (dir_sorted false) old).

Lemma elem_R tb : tb ∈ R ++ RC → table_ok params interval d tb.1 tb.2.
Proof.
  rewrite Forall_forall in Hp, Hc. intros [Htb|Htb]%elem_of_app; [by apply Hp, HR|by apply Hc, HRC].
Qed.

Lemma tables_replaced : newest_first upd ∧ ∀ k, find_item k upd = find_item k old.
Proof.
  rewrite srcs_insert.
  assert (∀ L, L ∈ (table_list false <$> R.*2) ↔ ∃ tb, tb ∈ R ∧ L = table_list false tb.2) as ER.
  { intros L. rewrite list_elem_of_fmap. setoid_rewrite list_elem_of_fmap. naive_solver. }
  assert (∀ L, L ∈ (table_list false <$> RC.*2) ↔ ∃ tb, tb ∈ RC ∧ L = table_list false tb.2) as ERC.
  { intros L. rewrite list_elem_of_fmap. setoid_rewrite list_elem_of_fmap. naive_solver. }
  assert (∀ tb, tb ∈ K → table_ok params interval d tb.1 tb.2) as OK.
  { rewrite Forall_forall in Hp. intros tb Htb. apply Hp. by eapply elem_of_sublist. }
  assert (∀ tb, tb ∈ KC1 ++ KC2 → table_ok params interval d tb.1 tb.2) as OKC.
  { rewrite Forall_forall in Hc. intros tb Htb. apply Hc. by eapply elem_of_sublist. }
  assert (srcs KC2 ++ srcs KC1 = srcs (KC1 ++ KC2)) as Esrc.
  { unfold srcs. by rewrite fmap_app, reverse_app, fmap_app. }
  assert (dir_sorted false (table_list false new.2)) as HsN by (apply dir_sorted_table; apply Hn).
  assert (∀ L L' x y, L ∈ srcs K → L' ∈ table_list false <$> R.*2 → x ∈ L → y ∈ L' → item_key x ≠ item_key y) as HdX.
  { intros L L' x y (k & Hk & ->)%elem_of_srcs (r & Hr & ->)%ER Hx Hy.
    apply (disjoint_keys params interval d r k x y); [apply elem_R; set_solver|auto|auto|done|done]. }
  assert (∀ L L' x y, L ∈ srcs KC2 ++ srcs KC1 → L' ∈ (table_list false <$> R.*2) ++ (table_list false <$> RC.*2) →
    x ∈ L → y ∈ L' → item_key x ≠ item_key y) as HdY.
  { intros L L' x y HL HL' Hx Hy. rewrite Esrc in HL. apply elem_of_srcs in HL as (k & Hk & ->).
    assert (∃ r, r ∈ R ++ RC ∧ L' = table_list false r.2) as (r & Hr & ->).
    { apply elem_of_app in HL' as [(r & ? & ->)%ER|(r & ? & ->)%ERC]; exists r; set_solver. }
    apply (disjoint_keys params interval d r k x y); [by apply elem_R|auto|auto|done|done]. }
  rewrite fmap_app, fmap_app in Hmerge.
  assert (∀ L, L ∈ table_list false <$> R.*2 → L ∈ srcs pbs) as G1.
  { intros L (r & Hr & ->)%ER. apply elem_of_srcs. eauto. }
  assert (∀ L, L ∈ table_list false <$> RC.*2 → L ∈ srcs cbs) as G2.
  { intros L (r & Hr & ->)%ERC. apply elem_of_srcs. eauto. }
  assert (∀ L, L ∈ srcs pbs → (L ∈ srcs K) ∨ (L ∈ table_list false <$> R.*2)) as G3.
  { intros L (tb & Htb & ->)%elem_of_srcs. destruct (HKR tb Htb); [left; apply elem_of_srcs|right; apply ER]; eauto. }
  assert (∀ L, L ∈ srcs cbs → (L ∈ srcs KC2 ++ srcs KC1) ∨ (L ∈ table_list false <$> RC.*2)) as G4.
  { rewrite Esrc. intros L (tb & Htb & ->)%elem_of_srcs.
    destruct (HKRC tb Htb); [left; apply elem_of_srcs|right; apply ERC]; eauto. }
  assert (srcs KC2 ++ srcs KC1 `sublist_of` srcs cbs) as G5 by (rewrite Esrc; by apply sublist_srcs).
  split; [|intros k].
  - by apply (replaced_order A (srcs pbs) (srcs cbs) (level_sources T2) (srcs K) (srcs KC2) (srcs KC1)
      (table_list false <$> R.*2) (table_list false <$> RC.*2)); [..|apply sublist_srcs| | | | | | | |].
  - by apply (replaced_found A (srcs pbs) (srcs cbs) (level_sources T2) (srcs K) (srcs KC2) (srcs KC1)
      (table_list false <$> R.*2) (table_list false <$> RC.*2)); [..|apply sublist_srcs| | | | | | | |].
Qed.

(** The levels before and after. *)
Context (ls1 ls2 : list Level.Level) (l c l' c' : Level.Level) (nb next nb' next' : N).
Context (Hlev : levels_ok params interval d nb next (ls1 ++ l :: c :: ls2) (T1 ++ pbs.*2 :: cbs.*2 :: T2)).
Context (Hlt : l.(Level.tables) = pbs.*1) (Hct : c.(Level.tables) = cbs.*1).
Context (Hlt' : l'.(Level.tables) = K.*1) (Hct' : c'.(Level.tables) = (KC1 ++ new :: KC2).*1).
Context (Hli : l'.(Level.index) = l.(Level.index)) (Hci : c'.(Level.index) = c.(Level.index)).
Context (Hlp : l'.(Level.table_placeholders) = []) (Hcp : c'.(Level.table_placeholders) = []).
Context (Hflag : new.1.(SortedTable.compaction_flag) = false).
Context (Hblocks : Forall (λ b : N * list BEntry, (b.1 < nb')%N) new.2).
Context (Hnb : (nb <= nb')%N) (Hnext : (next <= next')%N) (Hid : (FIRST_TABLE_ID <= tid new.1 < next')%N).
Context (Hfresh : tid new.1 ∉ concat (level_ids ls1) ++ (tid <$> K.*1) ++ (tid <$> (KC1 ++ KC2).*1) ++
  concat (level_ids ls2)).
Context (Hnew : ∀ k, k ∈ KC1 ++ KC2 → ¬ overlapping (tmin new.1) (tmax new.1) k.1).
Context (HA : A = level_sources T1).
Context (Hrel : reloads params d new.1).

Context (Hlen : length ls1 = length T1).

Lemma pairs_hold tbs :
  Forall (λ tb, table_ok params interval d tb.1 tb.2) tbs → Forall2 (table_ok params interval d) tbs.*1 tbs.*2.
Proof. induction 1 as [|tb tbs Htb _ IH]; [done|]. by constructor. Qed.

Lemma upd_ok : Forall (λ tb, table_ok params interval d tb.1 tb.2) (KC1 ++ new :: KC2).
Proof.
  assert (Forall (λ tb, table_ok params interval d tb.1 tb.2) (KC1 ++ KC2)) as [? ?]%Forall_app
    by (eapply Forall_sublist; [exact HKC|exact Hc]).
  apply Forall_app. split; [done|by constructor].
Qed.

Lemma kept_ids :
  (concat (level_ids ls1) ++ (tid <$> K.*1) ++ (tid <$> (KC1 ++ KC2).*1) ++ concat (level_ids ls2))
    `sublist_of` concat (level_ids (ls1 ++ l :: c :: ls2)).
Proof.
  rewrite level_ids_split, Hlt, Hct.
  apply sublist_app; [done|]. apply sublist_app; [by do 2 apply fmap_sublist|].
  apply sublist_app; [by do 2 apply fmap_sublist|done].
Qed.

Lemma replaced_ids :
  concat (level_ids (ls1 ++ l' :: c' :: ls2)) ≡ₚ
    tid new.1 :: concat (level_ids ls1) ++ (tid <$> K.*1) ++ (tid <$> (KC1 ++ KC2).*1) ++ concat (level_ids ls2).
Proof.
  rewrite level_ids_split, Hlt', Hct'. rewrite Permutation_middle. apply Permutation_app_head.
  rewrite Permutation_middle. apply Permutation_app_head. rewrite !fmap_app, !fmap_cons.
  rewrite (app_comm_cons _ (concat _)). apply Permutation_app_tail. symmetry. apply Permutation_middle.
Qed.

Lemma levels_replaced :
  levels_ok params interval d nb' next' (ls1 ++ l' :: c' :: ls2)
    (T1 ++ K.*2 :: (KC1 ++ new :: KC2).*2 :: T2).
Proof.
  pose proof Hlev as [O1 O2 O3 O4 O5 O6 O7 O8 O9 O10].
  assert (∀ i x, (ls1 ++ l' :: c' :: ls2) !! i = Some x →
    (x = l' ∧ (ls1 ++ l :: c :: ls2) !! i = Some l) ∨ (x = c' ∧ (ls1 ++ l :: c :: ls2) !! i = Some c ∧ 0 < i) ∨
    (ls1 ++ l :: c :: ls2) !! i = Some x) as Hlook.
  { intros i x. destruct (decide (i < length ls1)) as [Hi|Hi].
    - rewrite !lookup_app_l by done. auto.
    - rewrite !lookup_app_r by lia. destruct (i - length ls1) as [|[|j]] eqn:Ej; simpl; [|intros [= <-]|auto].
      + intros [= <-]. auto.
      + right. left. split_and!; [done|done|lia]. }
  split.
  - apply Forall2_app_inv in O1 as [O1a O1b]; [|done]. apply Forall2_cons in O1b as [_ O1b].
    apply Forall2_cons in O1b as [_ O1b]. apply Forall2_app; [done|].
    constructor; [|constructor; [|done]]; unfold level_holds_blocks; [rewrite Hlt'|rewrite Hct']; apply pairs_hold.
    + by eapply Forall_sublist.
    + apply upd_ok.
  - intros i x Hi. destruct (Hlook i x Hi) as [[-> Hl]|[(-> & Hl & _)|Hl]]; [rewrite Hli|rewrite Hci|]; by apply O2.
  - intros x [i Hi]%list_elem_of_lookup.
    destruct (Hlook i x Hi) as [[-> Hl]|[(-> & Hl & _)|Hl]]; apply list_elem_of_lookup_2, O3 in Hl; [| |done].
    + split; [done|]. destruct Hl as [_ Hl]. rewrite Hlt in Hl. rewrite Hlt'.
      eapply Forall_sublist; [by apply fmap_sublist|exact Hl].
    + split; [done|]. destruct Hl as [_ Hl]. rewrite Hct in Hl. rewrite Hct', fmap_app, fmap_cons.
      assert (Forall (λ t, t.(SortedTable.compaction_flag) = false) (KC1 ++ KC2).*1) as Hkc
        by (eapply Forall_sublist; [by apply fmap_sublist|exact Hl]).
      rewrite fmap_app in Hkc. apply Forall_app in Hkc as [? ?]. apply Forall_app. split; [done|by constructor].
  - intros i x Hi Hpos. destruct (Hlook i x Hi) as [[-> Hl]|[(-> & Hl & _)|Hl]]; [| |by eapply O4].
    + rewrite Hlt'. eapply pairwise_disjoint_sublist; [by apply fmap_sublist|].
      rewrite <-Hlt. by eapply O4.
    + rewrite Hct', fmap_app, fmap_cons. apply pairwise_disjoint_insert.
      * rewrite <-fmap_app. eapply pairwise_disjoint_sublist; [by apply fmap_sublist|].
        rewrite <-Hct. by eapply O4.
      * rewrite <-fmap_app. intros t (k & -> & Hk)%list_elem_of_fmap. by apply Hnew.
  - rewrite level_sources_app, !level_sources_cons, <-HA. apply tables_replaced.
  - assert (∀ bss, Forall (Forall (λ b : N * list BEntry, (b.1 < nb)%N)) bss →
      Forall (Forall (λ b : N * list BEntry, (b.1 < nb')%N)) bss) as Hup.
    { intros bss Hb. eapply Forall_impl; [exact Hb|]. intros bs Hbs. eapply Forall_impl; [exact Hbs|].
      intros b Hb'. simpl in Hb'. lia. }
    apply Forall_app in O6 as [O6a (O6l & (O6c & O6b)%Forall_cons)%Forall_cons].
    apply Forall_app. split; [by eapply Forall_impl|]. constructor; [|constructor; [|by eapply Forall_impl]].
    + eapply Forall_sublist; [by apply fmap_sublist|auto].
    + assert (Forall (Forall (λ b : N * list BEntry, (b.1 < nb')%N)) (KC1 ++ KC2).*2) as Hkc
        by (eapply Forall_sublist; [by apply fmap_sublist|auto]).
      rewrite fmap_app in Hkc. apply Forall_app in Hkc as [? ?]. rewrite fmap_app, fmap_cons.
      apply Forall_app. split; [done|by constructor].
  - rewrite replaced_ids. apply NoDup_cons. split; [done|]. by eapply sublist_NoDup; [|apply kept_ids].
  - rewrite replaced_ids. constructor; [done|]. rewrite Forall_forall in O8 |- *. intros id Hin.
    eapply elem_of_sublist in Hin; [|apply kept_ids]. specialize (O8 id Hin). simpl in O8. lia.
  - rewrite Forall_forall in O9. rewrite Forall_forall. intros x [i Hi]%list_elem_of_lookup.
    destruct (Hlook i x Hi) as [[-> Hl]|[(-> & Hl & _)|Hl]]; apply list_elem_of_lookup_2, O9 in Hl; [| |done].
    + rewrite Hlt in Hl. rewrite Hlt'. eapply Forall_sublist; [by apply fmap_sublist|exact Hl].
    + rewrite Hct in Hl. rewrite Hct', fmap_app, fmap_cons.
      assert (Forall (reloads params d) (KC1 ++ KC2).*1) as Hkc
        by (eapply Forall_sublist; [by apply fmap_sublist|exact Hl]).
      rewrite fmap_app in Hkc. apply Forall_app in Hkc as [? ?]. apply Forall_app. split; [done|by constructor].
  - intros x Hx. destruct (Hlook 0 x Hx) as [[-> Hl]|[(-> & _ & Hpos)|Hl]]; [|lia|by apply O10].
    apply O10 in Hl. rewrite Hlt in Hl. rewrite Hlt'. eapply StronglySorted_sublist; [|exact Hl].
    by do 2 apply fmap_sublist.
Qed.

End replace.

(** ** The tables a compaction picks *)

Abbreviation pair := (SortedTable.SortedTable * list (N * list BEntry))%type.

(** A table with its flag set, as the levels hold it during a compaction. *)
Definition taken (tb : pair) : SortedTable.SortedTable := SortedTable.with_flag tb.1 true.

(** The tables that are left without [R]. *)
Definition without (R tbs : list pair) : list pair :=
  filter (λ tb, tid tb.1 ∉ (λ r : pair, tid r.1) <$> R) tbs.

Lemma without_sublist R tbs : without R tbs `sublist_of` tbs.
Proof. apply sublist_filter. Qed.

Lemma pair_by_id (tbs : list pair) tb1 tb2 :
  NoDup (tid <$> tbs.*1) → tb1 ∈ tbs → tb2 ∈ tbs → tid tb1.1 = tid tb2.1 → tb1 = tb2.
Proof.
  intros Hnd [i Hi]%list_elem_of_lookup [j Hj]%list_elem_of_lookup Heq.
  assert (i = j) as ->; [|congruence].
  apply (NoDup_lookup _ _ _ (tid tb1.1) Hnd); rewrite !list_lookup_fmap; [by rewrite Hi|by rewrite Hj, Heq].
Qed.

Lemma without_or R tbs tb :
  NoDup (tid <$> tbs.*1) → (∀ r, r ∈ R → r ∈ tbs) → tb ∈ tbs → (tb ∈ without R tbs) ∨ (tb ∈ R).
Proof.
  intros Hnd HR Htb. destruct (decide (tid tb.1 ∈ (λ r : pair, tid r.1) <$> R)) as [Hin|Hn].
  - right. apply list_elem_of_fmap in Hin as (r & Heq & Hr).
    by rewrite (pair_by_id tbs tb r Hnd Htb (HR r Hr) Heq).
  - left. by apply list_elem_of_filter.
Qed.

(** Removing the picked tables by their identifiers. *)
Lemma remove_taken tbs ts R :
  NoDup (tid <$> tbs.*1) → NoDup ((λ r : pair, tid r.1) <$> R) → (∀ r, r ∈ R → r ∈ tbs) →
  Forall2 (λ (tb : pair) t, tid t = tid tb.1 ∧ (tid tb.1 ∉ (λ r : pair, tid r.1) <$> R → t = tb.1)) tbs ts →
  DbLogic.remove_all ts (taken <$> R) = Ok (without R tbs).*1.
Proof.
  intros Hnd HndR HR Hm.
  assert (tid <$> (taken <$> R) = (λ r : pair, tid r.1) <$> R) as Eids by (by rewrite <-list_fmap_compose).
  assert (tid <$> ts = tid <$> tbs.*1) as Ets.
  { clear -Hm. induction Hm as [|tb t tbs ts [Hi _] _ IH]; [done|]. by rewrite !fmap_cons, IH, Hi. }
  rewrite remove_all_ok.
  - f_equal. rewrite Eids. clear -Hm. unfold without.
    induction Hm as [|tb t tbs ts [Hi Ht] _ IH]; [done|]. rewrite !filter_cons, Hi.
    case_decide as Hin; [|done]. by rewrite fmap_cons, IH, Ht.
  - by rewrite Ets.
  - by rewrite Eids.
  - intros t (r & -> & Hr)%list_elem_of_fmap. rewrite Ets. simpl.
    do 2 apply list_elem_of_fmap_2. auto.
Qed.

(** The tables at the given positions. *)
Definition at_positions (tbs : list pair) (offs : list nat) : list pair := omap (λ i, tbs !! i) offs.

Lemma elem_of_positions tbs offs tb : tb ∈ at_positions tbs offs ↔ ∃ i, i ∈ offs ∧ tbs !! i = Some tb.
Proof. unfold at_positions; apply list_elem_of_omap. Qed.

Lemma positions_NoDup tbs offs :
  NoDup (tid <$> tbs.*1) → NoDup offs → NoDup ((λ r : pair, tid r.1) <$> at_positions tbs offs).
Proof.
  intros Hnd. unfold at_positions. induction 1 as [|i offs Hi _ IH]; [constructor|]. simpl.
  destruct (tbs !! i) as [tb|] eqn:E; [|done]. rewrite fmap_cons. constructor; [|done].
  intros (r & Heq & (j & Hj & Er)%elem_of_positions)%list_elem_of_fmap. apply Hi.
  assert (i = j) as ->; [|done].
  apply (NoDup_lookup _ _ _ (tid tb.1) Hnd); rewrite !list_lookup_fmap; [by rewrite E|by rewrite Er, Heq].
Qed.

Lemma positions_taken tbs offs :
  omap (λ i, flag_at offs tbs.*1 !! i) offs = taken <$> at_positions tbs offs.
Proof.
  assert (∀ offs', (∀ i, i ∈ offs' → i ∈ offs) →
    omap (λ i, flag_at offs tbs.*1 !! i) offs' = taken <$> at_positions tbs offs') as Hgen; [|by apply Hgen].
  induction offs' as [|i offs' IH]; intros Hin; [done|]. unfold at_positions. simpl.
  rewrite flag_at_lookup, list_lookup_fmap. destruct (tbs !! i) as [tb|]; simpl.
  - rewrite decide_True by (apply Hin; set_solver). f_equal. apply IH. set_solver.
  - apply IH. set_solver.
Qed.

Lemma positions_marked tbs offs :
  NoDup (tid <$> tbs.*1) →
  Forall2 (λ (tb : pair) t, tid t = tid tb.1 ∧
    (tid tb.1 ∉ (λ r : pair, tid r.1) <$> at_positions tbs offs → t = tb.1)) tbs (flag_at offs tbs.*1).
Proof.
  intros Hnd. apply Forall2_same_length_lookup. split; [by rewrite length_flag_at, length_fmap|].
  intros i tb t Hi Ht. rewrite flag_at_lookup, list_lookup_fmap, Hi in Ht. simpl in Ht.
  injection Ht as <-. case_decide as Hin; [|done]. split; [done|]. intros Hn. destruct Hn.
  apply list_elem_of_fmap. exists tb. split; [done|]. apply elem_of_positions. eauto.
Qed.

Lemma without_positions tbs offs k :
  NoDup (tid <$> tbs.*1) → k ∈ without (at_positions tbs offs) tbs → ∃ i, tbs !! i = Some k ∧ i ∉ offs.
Proof.
  intros Hnd [Hn [i Hi]%list_elem_of_lookup]%list_elem_of_filter. exists i. split; [done|].
  intros Hin. apply Hn. apply list_elem_of_fmap. exists k. split; [done|]. apply elem_of_positions. eauto.
Qed.

(** The overlapping tables of the lower level. *)
Definition overlapped (min max : Key) (tbs : list pair) : list pair :=
  filter (λ tb, overlapping min max tb.1) tbs.

Lemma overlapped_taken min max tbs :
  (λ t, SortedTable.with_flag t true) <$> filter (overlapping min max) tbs.*1 = taken <$> overlapped min max tbs.
Proof.
  unfold overlapped. induction tbs as [|tb tbs IH]; [done|]. rewrite fmap_cons, !filter_cons.
  case_decide; [by rewrite !fmap_cons, IH|done].
Qed.

Lemma overlapped_marked min max tbs :
  NoDup (tid <$> tbs.*1) →
  Forall2 (λ (tb : pair) t, tid t = tid tb.1 ∧
    (tid tb.1 ∉ (λ r : pair, tid r.1) <$> overlapped min max tbs → t = tb.1)) tbs (mark min max <$> tbs.*1).
Proof.
  intros Hnd. apply Forall2_same_length_lookup. split; [by rewrite !length_fmap|].
  intros i tb t Hi Ht. rewrite !list_lookup_fmap, Hi in Ht. simpl in Ht. injection Ht as <-.
  unfold mark. case_decide as Hov; [|done]. split; [done|]. intros Hn. destruct Hn.
  apply list_elem_of_fmap. exists tb. split; [done|]. apply list_elem_of_filter.
  split; [done|by eapply list_elem_of_lookup_2].
Qed.

Lemma without_overlapped min max tbs k :
  k ∈ without (overlapped min max tbs) tbs → ¬ overlapping min max k.1.
Proof.
  intros [Hn Hk]%list_elem_of_filter Ho. apply Hn, list_elem_of_fmap. exists k. split; [done|].
  by apply list_elem_of_filter.
Qed.

(** ** The manifest follows *)

Definition set_of (ts : list SortedTable.SortedTable) : gset N := list_to_set (tid <$> ts).

Lemma alter_app_at {A} (f : A → A) (l1 l2 : list A) n : alter f (length l1 + n) (l1 ++ l2) = l1 ++ alter f n l2.
Proof. induction l1 as [|x l1 IH]; [done|]. simpl. f_equal. exact IH. Qed.

Lemma foldl_remove (S : list (gset N)) (i : nat) (ids : list N) :
  foldl spec_remove S ((λ id, (N.of_nat i, id)) <$> ids) = alter (λ s, s ∖ list_to_set ids) i S.
Proof.
  revert S; induction ids as [|id ids IH]; intros S; simpl; [|rewrite IH; unfold spec_remove; simpl; rewrite Nat2N.id];
    apply list_eq; intros j; (destruct (decide (i = j)) as [<-|Hne];
      [rewrite !list_lookup_alter_eq; destruct (S !! i); [|done]; simpl; f_equal; set_solver
      |by rewrite !list_lookup_alter_ne]).
Qed.

Lemma removes_all_ok (S : list (gset N)) (i : nat) (ids : list N) s :
  S !! i = Some s → NoDup ids → (∀ id, id ∈ ids → id ∈ s) →
  removes_ok S ((λ id, (N.of_nat i, id)) <$> ids).
Proof.
  intros Hs Hnd. revert S s Hs; induction Hnd as [|id ids Hid Hnd IH]; intros S s Hs Hin; [done|].
  split; [simpl; rewrite Nat2N.id; exists s; set_solver|].
  apply (IH _ (s ∖ {[id]})); [|set_solver].
  unfold spec_remove. simpl. rewrite Nat2N.id, list_lookup_alter_eq, Hs. done.
Qed.

Lemma removes_ok_app S rem1 rem2 :
  removes_ok S rem1 → removes_ok (foldl spec_remove S rem1) rem2 → removes_ok S (rem1 ++ rem2).
Proof.
  revert S; induction rem1 as [|r rem1 IH]; intros S Hok1 Hok2; [done|]. destruct Hok1 as [Hr Hok1].
  split; [done|]. by apply IH.
Qed.

Lemma without_set R tbs :
  (list_to_set (tid <$> (without R tbs).*1) : gset N) =
    list_to_set (tid <$> tbs.*1) ∖ list_to_set ((λ r : pair, tid r.1) <$> R).
Proof.
  apply set_eq. intros id. rewrite elem_of_difference, !elem_of_list_to_set. split.
  - intros (t & -> & (tb & -> & [Hn Htb]%list_elem_of_filter)%list_elem_of_fmap)%list_elem_of_fmap.
    split; [by do 2 apply list_elem_of_fmap_2|done].
  - intros [(t & -> & (tb & -> & Htb)%list_elem_of_fmap)%list_elem_of_fmap Hn].
    do 2 apply list_elem_of_fmap_2. by apply list_elem_of_filter.
Qed.

Lemma id_sets_split ls1 l c ls2 :
  id_sets (level_ids (ls1 ++ l :: c :: ls2)) =
    id_sets (level_ids ls1) ++ set_of l.(Level.tables) :: set_of c.(Level.tables) :: id_sets (level_ids ls2).
Proof. unfold id_sets, level_ids. by rewrite !fmap_app, !fmap_cons. Qed.

(** The sets after a compaction. *)
Lemma compaction_sets m meta ids ls1 l c ls2 l' c' pbs cbs R RC KC1 KC2 new :
  let i := length ls1 in
  let add := [(N.of_nat (S i), tid new.1)] in
  let remove := ((λ id, (N.of_nat (S i), id)) <$> ((λ r : pair, tid r.1) <$> RC)) ++
    ((λ id, (N.of_nat i, id)) <$> ((λ r : pair, tid r.1) <$> R)) in
  manifest_holds m meta ids → id_sets ids = id_sets (level_ids (ls1 ++ l :: c :: ls2)) →
  l.(Level.tables) = pbs.*1 → c.(Level.tables) = cbs.*1 →
  l'.(Level.tables) = (without R pbs).*1 → c'.(Level.tables) = (KC1 ++ new :: KC2).*1 →
  KC1 ++ KC2 = without RC cbs →
  NoDup ((λ r : pair, tid r.1) <$> R) → NoDup ((λ r : pair, tid r.1) <$> RC) →
  (∀ r, r ∈ R → r ∈ pbs) → (∀ r, r ∈ RC → r ∈ cbs) →
  valid_id (tid new.1) → tid new.1 ∉ tid <$> cbs.*1 →
  ∃ m' ids', Manifest.update_table_set m add remove = Ok m' ∧ manifest_holds m' meta ids' ∧
    id_sets ids' = id_sets (level_ids (ls1 ++ l' :: c' :: ls2)).
Proof.
  intros i add remove Hm Hsets Hl Hc Hl' Hc' HKC HndR HndRC HR HRC Hid Hfresh.
  assert (length (id_sets (level_ids ls1)) = i) as Hlen by (unfold id_sets, level_ids; by rewrite !length_fmap).
  rewrite id_sets_split, Hl, Hc in Hsets.
  set (S1 := id_sets (level_ids ls1)) in *. set (S2 := id_sets (level_ids ls2)) in *.
  assert (∀ f a b, alter f i (S1 ++ a :: b :: S2) = S1 ++ f a :: b :: S2) as Ai.
  { intros f a b. rewrite <-Hlen, <-(Nat.add_0_r (length S1)). by rewrite alter_app_at. }
  assert (∀ f a b, alter f (S i) (S1 ++ a :: b :: S2) = S1 ++ a :: f b :: S2) as Ac.
  { intros f a b. replace (S i) with (length S1 + 1) by lia. by rewrite alter_app_at. }
  assert (∀ a b, (S1 ++ a :: b :: S2) !! i = Some a) as Li.
  { intros a b. rewrite lookup_app_r by lia. by rewrite <-Hlen, Nat.sub_diag. }
  assert (∀ a b, (S1 ++ a :: b :: S2) !! S i = Some b) as Lc.
  { intros a b. rewrite lookup_app_r by lia. by replace (S i - length S1) with 1 by lia. }
  assert (foldl spec_add (id_sets ids) add = S1 ++ set_of pbs.*1 :: ({[tid new.1]} ∪ set_of cbs.*1) :: S2) as Eadd.
  { unfold add. cbn [foldl]. unfold spec_add. cbn [fst snd]. rewrite Hsets, Nat2N.id. apply Ac. }
  assert (foldl spec_remove (S1 ++ set_of pbs.*1 :: ({[tid new.1]} ∪ set_of cbs.*1) :: S2)
    ((λ id, (N.of_nat (S i), id)) <$> ((λ r : pair, tid r.1) <$> RC))
    = S1 ++ set_of pbs.*1 :: (({[tid new.1]} ∪ set_of cbs.*1) ∖ list_to_set ((λ r : pair, tid r.1) <$> RC)) :: S2)
    as Erc by (by rewrite foldl_remove, Ac).
  destruct (update_table_set_ok m meta ids add remove Hm) as (m' & ids' & E & Hm' & _ & Hs').
  - split; [|by split]. cbn [fst snd]. rewrite Hsets, Nat2N.id, Lc. eexists; split; [done|].
    unfold set_of. by rewrite elem_of_list_to_set.
  - rewrite Eadd. apply removes_ok_app.
    + eapply removes_all_ok; [apply Lc|done|]. intros id (r & -> & Hr)%list_elem_of_fmap.
      apply elem_of_union_r. apply elem_of_list_to_set. do 2 apply list_elem_of_fmap_2. auto.
    + rewrite Erc. eapply removes_all_ok; [apply Li|done|]. intros id (r & -> & Hr)%list_elem_of_fmap.
      apply elem_of_list_to_set. do 2 apply list_elem_of_fmap_2. auto.
  - exists m', ids'. split; [done|]. split; [done|]. rewrite Hs', Eadd. unfold remove.
    rewrite foldl_app, Erc, foldl_remove, Ai, id_sets_split. f_equal. f_equal; [|f_equal].
    + unfold set_of. by rewrite Hl', without_set.
    + unfold set_of. rewrite Hc', fmap_app, fmap_cons, fmap_app, fmap_cons.
      rewrite list_to_set_app_L, list_to_set_cons.
      pose proof (without_set RC cbs) as Hw. rewrite <-HKC, !fmap_app, list_to_set_app_L in Hw.
      assert (tid new.1 ∉ (λ r : pair, tid r.1) <$> RC).
      { intros (r & Heq & Hr)%list_elem_of_fmap. apply Hfresh. rewrite Heq.
        do 2 apply list_elem_of_fmap_2. auto. }
      set_solver.
Qed.
