(* ===== verification/LogicLevels.v ===== *)
(** * Level compaction of the database (src/src/logic.rs)

    [compact_level], [fast_compaction] and [do_level_compaction] on the whole
    state: started from a state in which no other compaction runs, they finish,
    keep the invariant and change nothing of the map the database stands for. *)

From stdpp Require Import base list gmap strings sorting.
From Stdlib Require Import Strings.Byte NArith ZArith Lia.
From S2P Require Import Prelude WriteBatch Iterator Memtable Disk Wal WalStatus WalCalls Manifest DataBlock DataBlocks IndexBlock SortedTable TableIterator Iterate DbIterator Level Compaction Logic Sources LogicInv LogicWrite LogicFlush LogicCompact.

Local Open Scope nat_scope.
Local Open Scope lsm_scope.

Section levels.
Context `{BloomLaws} `{CompressionLaws} `{LruLaws DataBlock.DataBlock}.
Context (params : Params.Params) (interval : nat) (io : IoMode).
Context (Hint : params.(Params.block_restart_interval) = N.of_nat interval) (HI : 0 < interval).
Context (HI32 : (N.of_nat interval < u32_bound)%N) (Hseek : seeks_ok params).

Abbreviation DbLogic := DbLogic.DbLogic.
Abbreviation db_ok := (db_ok params interval io).
Abbreviation pair_ok d := (λ tb : pair, table_ok params interval d tb.1 tb.2).

(** The tables [R] of a level and [RC] of the next one are replaced by [new]. *)
Record swap (d : Disk) (pbs cbs R RC KC1 KC2 : list pair) (new : pair) : Prop := {
  sw_upper : ∀ r, r ∈ R → r ∈ pbs;
  sw_lower : ∀ r, r ∈ RC → r ∈ cbs;
  sw_ids : NoDup ((λ r : pair, tid r.1) <$> R) ∧ NoDup ((λ r : pair, tid r.1) <$> RC);
  sw_left : KC1 ++ KC2 = without RC cbs;
  sw_new : pair_ok d new;
  sw_flag : new.1.(SortedTable.compaction_flag) = false;
  sw_merge : merge_of (table_list false <$> (R ++ RC).*2) (table_list false new.2);
  sw_apart : ∀ k r, k ∈ without R pbs → r ∈ R → ¬ overlapping (tmin r.1) (tmax r.1) k.1;
  sw_apart' : ∀ k r, k ∈ without RC cbs → r ∈ R ++ RC → ¬ overlapping (tmin r.1) (tmax r.1) k.1;
  sw_range : ∀ k, k ∈ without RC cbs → ¬ overlapping (tmin new.1) (tmax new.1) k.1;
}.

Lemma levels_pairs d nb next ls T i l :
  levels_ok params interval d nb next ls T → ls !! i = Some l →
  ∃ tbs, l.(Level.tables) = tbs.*1 ∧ T !! i = Some tbs.*2 ∧ Forall (pair_ok d) tbs.
Proof.
  intros Hok Hi. destruct (Forall2_lookup_l _ _ _ _ _ (lo_tables _ _ _ _ _ _ _ Hok) Hi) as (bss & Hb & Hl).
  unfold level_holds_blocks in Hl. exists (zip l.(Level.tables) bss).
  pose proof (Forall2_length _ _ _ Hl) as Hlen. rewrite fst_zip, snd_zip by lia.
  split; [done|]. split; [done|]. clear -Hl. induction Hl as [|t bs ts bss Ht _ IH]; [constructor|].
  by constructor.
Qed.

(** The levels and tables around a compaction. *)
Record around (s : DbLogic) (T : list (list Blocks)) (i : nat) (ls1 : list Level.Level) (l c : Level.Level)
    (ls2 : list Level.Level) (T1 : list (list Blocks)) (pbs cbs : list pair) (T2 : list (list Blocks)) : Prop := {
  ar_levels : s.(DbLogic.levels) = ls1 ++ l :: c :: ls2;
  ar_tables : T = T1 ++ pbs.*2 :: cbs.*2 :: T2;
  ar_len : length ls1 = i ∧ length T1 = i;
  ar_upper : l.(Level.tables) = pbs.*1 ∧ Forall (pair_ok s.(DbLogic.env).(env_disk)) pbs;
  ar_lower : c.(Level.tables) = cbs.*1 ∧ Forall (pair_ok s.(DbLogic.env).(env_disk)) cbs;
}.

Lemma split_two {A} (l : list A) i x y :
  l !! i = Some x → l !! S i = Some y → l = take i l ++ x :: y :: drop (S (S i)) l.
Proof.
  intros Hx Hy. rewrite <-(take_drop i l) at 1. f_equal.
  by rewrite (drop_S _ _ _ Hx), (drop_S _ _ _ Hy).
Qed.

Lemma db_around s T stored meta ids M i :
  db_ok s T stored meta ids M → S i < length s.(DbLogic.levels) →
  ∃ ls1 l c ls2 T1 pbs cbs T2, around s T i ls1 l c ls2 T1 pbs cbs T2.
Proof.
  intros Hok Hi. pose proof (ok_levels _ _ _ _ _ _ _ _ _ Hok) as Hl.
  destruct (lookup_lt_is_Some_2 s.(DbLogic.levels) i) as [l El]; [lia|].
  destruct (lookup_lt_is_Some_2 s.(DbLogic.levels) (S i)) as [c Ec]; [lia|].
  destruct (levels_pairs _ _ _ _ _ _ _ Hl El) as (pbs & Hp & HTp & Hpok).
  destruct (levels_pairs _ _ _ _ _ _ _ Hl Ec) as (cbs & Hc & HTc & Hcok).
  exists (take i s.(DbLogic.levels)), l, c, (drop (S (S i)) s.(DbLogic.levels)),
    (take i T), pbs, cbs, (drop (S (S i)) T).
  pose proof (Forall2_length _ _ _ (lo_tables _ _ _ _ _ _ _ Hl)).
  split; try done; [by apply split_two|by apply split_two|]. rewrite !length_take. lia.
Qed.

(** The metadata after a compaction. *)
Definition compacted_meta (meta : DatabaseMetadata.DatabaseMetadata) (next nb : N)
  : DatabaseMetadata.DatabaseMetadata :=
  DatabaseMetadata.mk next meta.(DatabaseMetadata.num_levels) meta.(DatabaseMetadata.seq_number_offset)
    meta.(DatabaseMetadata.log_offset) nb.

Lemma around_unique s T stored meta ids M i ls1 l c ls2 T1 pbs cbs T2 :
  db_ok s T stored meta ids M → around s T i ls1 l c ls2 T1 pbs cbs T2 →
  NoDup (concat (level_ids ls1) ++ (tid <$> pbs.*1) ++ (tid <$> cbs.*1) ++ concat (level_ids ls2)).
Proof.
  intros Hok [A1 _ _ [A4 _] [A5 _]]. pose proof (lo_unique _ _ _ _ _ _ _ (ok_levels _ _ _ _ _ _ _ _ _ Hok)) as Hu.
  by rewrite A1, level_ids_split, A4, A5 in Hu.
Qed.

(** The state after a compaction. *)
Section swapped.
Context (s : DbLogic) (T : list (list Blocks)) (stored : list byte) (meta : DatabaseMetadata.DatabaseMetadata).
Context (ids ids' : list (list N)) (M : gmap Key Value) (i : nat).
Context (ls1 ls2 : list Level.Level) (l c l' c' : Level.Level) (T1 T2 : list (list Blocks)).
Context (pbs cbs R RC KC1 KC2 : list pair) (new : pair) (e' : Env) (next' nb' : N).
Context (Hok : db_ok s T stored meta ids M) (Har : around s T i ls1 l c ls2 T1 pbs cbs T2).
Context (Hsw : swap e'.(env_disk) pbs cbs R RC KC1 KC2 new).
Context (Hkept : old_blocks_kept meta.(DatabaseMetadata.next_data_block_id) s.(DbLogic.env).(env_disk) e'.(env_disk)).
Context (Hindices : old_indices_kept meta.(DatabaseMetadata.next_table_id) s.(DbLogic.env).(env_disk) e'.(env_disk)).
Context (Hrel : reloads params e'.(env_disk) new.1).
Context (Hlogs : ∀ j, e'.(env_disk) !! LogFile j = s.(DbLogic.env).(env_disk) !! LogFile j).
Context (Hcache : cache_ok params e').
Context (Hman : manifest_holds e'.(env_manifest) (compacted_meta meta next' nb') ids').
Context (Hsets : id_sets ids' = id_sets (level_ids (ls1 ++ l' :: c' :: ls2))).
Context (Hnext : (meta.(DatabaseMetadata.next_table_id) <= next')%N).
Context (Hnb : (meta.(DatabaseMetadata.next_data_block_id) <= nb')%N).
Context (Hblocks : Forall (λ b : N * list BEntry, (b.1 < nb')%N) new.2).
Context (Hid : (FIRST_TABLE_ID <= tid new.1 < next')%N).
Context (Hfresh : tid new.1 ∉ concat (level_ids ls1) ++ (tid <$> (without R pbs).*1) ++
  (tid <$> (without RC cbs).*1) ++ concat (level_ids ls2)).
Context (Hlt' : l'.(Level.tables) = (without R pbs).*1) (Hct' : c'.(Level.tables) = (KC1 ++ new :: KC2).*1).
Context (Hli : l'.(Level.index) = l.(Level.index)) (Hci : c'.(Level.index) = c.(Level.index)).
Context (Hlp : l'.(Level.table_placeholders) = []) (Hcp : c'.(Level.table_placeholders) = []).

Definition swapped : DbLogic :=
  DbLogic.mk s.(DbLogic.memtable) s.(DbLogic.imm_memtables) s.(DbLogic.pending) (ls1 ++ l' :: c' :: ls2)
    s.(DbLogic.wal) e'.

Abbreviation T' := (T1 ++ (without R pbs).*2 :: (KC1 ++ new :: KC2).*2 :: T2).

Lemma old_levels :
  levels_ok params interval e'.(env_disk) meta.(DatabaseMetadata.next_data_block_id)
    meta.(DatabaseMetadata.next_table_id) (ls1 ++ l :: c :: ls2) (T1 ++ pbs.*2 :: cbs.*2 :: T2).
Proof.
  destruct Har as [A1 A2 _ _ _]. rewrite <-A1, <-A2.
  eapply levels_ok_frame; [exact Hkept|exact Hindices|done|done|apply Hok].
Qed.

Lemma old_pairs : Forall (pair_ok e'.(env_disk)) pbs ∧ Forall (pair_ok e'.(env_disk)) cbs.
Proof.
  destruct Har as [A1 A2 _ [A4 A4'] [A5 A5']].
  pose proof (lo_blocks _ _ _ _ _ _ _ (ok_levels _ _ _ _ _ _ _ _ _ Hok)) as Hb. rewrite A2 in Hb.
  apply Forall_app in Hb as [_ (Hbp & (Hbc & _)%Forall_cons)%Forall_cons].
  assert (∀ tbs : list pair, Forall (pair_ok s.(DbLogic.env).(env_disk)) tbs →
    Forall (Forall (λ b : N * list BEntry, (b.1 < meta.(DatabaseMetadata.next_data_block_id))%N)) tbs.*2 →
    Forall (pair_ok e'.(env_disk)) tbs) as Hgo; [|by split; apply Hgo].
  intros tbs Ht Hbs. rewrite Forall_forall in Ht. rewrite Forall_forall in Hbs. rewrite Forall_forall. intros tb Htb.
  eapply table_ok_frame; [exact Hkept|apply Hbs; by apply list_elem_of_fmap_2|by apply Ht].
Qed.

Lemma sources_split A :
  A ++ level_sources T = (A ++ level_sources T1) ++ srcs pbs ++ srcs cbs ++ level_sources T2.
Proof. rewrite (ar_tables _ _ _ _ _ _ _ _ _ _ _ Har), level_sources_app, !level_sources_cons. by rewrite <-app_assoc. Qed.

Lemma sources_split' A :
  A ++ level_sources T' = (A ++ level_sources T1) ++ srcs (without R pbs) ++ srcs (KC1 ++ new :: KC2) ++ level_sources T2.
Proof. rewrite level_sources_app, !level_sources_cons. by rewrite <-app_assoc. Qed.

Lemma swapped_found A :
  newest_first (A ++ level_sources T) → Forall (dir_sorted false) (A ++ level_sources T) →
  newest_first (A ++ level_sources T') ∧
  ∀ k, find_item k (A ++ level_sources T') = find_item k (A ++ level_sources T).
Proof.
  rewrite sources_split, sources_split'. intros Hn Hs. destruct Hsw as [S1 S2 _ S3 S4 _ S5 S6 S7 _].
  destruct old_pairs as [Hp Hc]. rewrite <-S3 in S7.
  pose proof (around_unique _ _ _ _ _ _ _ _ _ _ _ _ _ _ _ Hok Har) as Hu.
  apply NoDup_app in Hu as (_ & _ & (Hup & _ & (Huc & _)%NoDup_app)%NoDup_app).
  apply (tables_replaced params interval e'.(env_disk) pbs cbs (without R pbs) R KC1 KC2 RC new); try done.
  - apply without_sublist.
  - intros tb Htb. by apply without_or.
  - rewrite S3. apply without_sublist.
  - rewrite S3. intros tb Htb. by apply without_or.
Qed.

Lemma swapped_levels :
  levels_ok params interval e'.(env_disk) nb' next' (ls1 ++ l' :: c' :: ls2) T'.
Proof.
  pose proof Hsw as [S1 S2 _ S3 S4 S4' S5 S6 S7 S8]. destruct old_pairs as [Hp Hc].
  pose proof Har as [A1 A2 A3 [A4 _] [A5 _]].
  pose proof (ok_levels _ _ _ _ _ _ _ _ _ Hok) as Hlev.
  pose proof (around_unique _ _ _ _ _ _ _ _ _ _ _ _ _ _ _ Hok Har) as Hu.
  apply NoDup_app in Hu as (_ & _ & (Hup & _ & (Huc & _)%NoDup_app)%NoDup_app).
  rewrite <-S3 in S7, S8. rewrite <-S3 in Hfresh.
  pose proof (lo_order _ _ _ _ _ _ _ Hlev) as Ho. pose proof (levels_sorted _ _ _ _ _ _ _ Hlev) as Hs.
  pose proof (sources_split []) as Esp. simpl in Esp. rewrite Esp in Ho, Hs.
  eapply (levels_replaced params interval e'.(env_disk) pbs cbs (without R pbs) R KC1 KC2 RC new
    Hp Hc S4) with (A := level_sources T1) (l := l) (c := c)
    (nb := meta.(DatabaseMetadata.next_data_block_id)) (next := meta.(DatabaseMetadata.next_table_id)); try done.
  - apply without_sublist.
  - intros tb Htb. by apply without_or.
  - rewrite S3. apply without_sublist.
  - rewrite S3. intros tb Htb. by apply without_or.
  - apply old_levels.
  - lia.
Qed.

Lemma swapped_items L x :
  L ∈ level_sources T' → x ∈ L → ∃ L0, L0 ∈ level_sources T ∧ x ∈ L0.
Proof.
  destruct Hsw as [S1 S2 _ S3 _ _ [S5 _] _ _ _].
  pose proof (sources_split []) as E1. pose proof (sources_split' []) as E2. cbn [app] in E1, E2.
  rewrite E1, E2, srcs_insert. intros HL Hx.
  assert (∀ r, r ∈ R ++ RC → table_list false r.2 ∈ srcs pbs ++ srcs cbs) as Hr.
  { intros r [Hr|Hr]%elem_of_app; apply elem_of_app; [left|right]; apply elem_of_srcs; eauto. }
  assert (∀ K tbs, K `sublist_of` tbs → ∀ L, L ∈ srcs K → L ∈ srcs tbs) as Hs.
  { intros K tbs HK L' HL'. eapply elem_of_sublist; [exact HL'|by apply sublist_srcs]. }
  pose proof (Hs _ _ (without_sublist R pbs)) as Hs1. pose proof (Hs _ _ (without_sublist RC cbs)) as Hs2.
  rewrite <-S3 in Hs2.
  assert (srcs (KC1 ++ KC2) = srcs KC2 ++ srcs KC1) as Esrc
    by (unfold srcs; by rewrite fmap_app, reverse_app, fmap_app). rewrite Esrc in Hs2.
  assert (L = table_list false new.2 ∨ L ∈ level_sources T1 ++ srcs pbs ++ srcs cbs ++ level_sources T2)
    as [->|HL']; [| |eauto].
  { specialize (Hs1 L). specialize (Hs2 L). clear -HL Hs1 Hs2.
    rewrite !elem_of_app in Hs2. rewrite !elem_of_app, elem_of_cons in HL. rewrite !elem_of_app. tauto. }
  destruct (S5 x Hx) as [(L0 & HL0 & Hx0) _]. exists L0. split; [|done].
  apply list_elem_of_fmap in HL0 as (bs & -> & (r & -> & HrR)%list_elem_of_fmap).
  specialize (Hr r HrR). rewrite !elem_of_app in Hr. rewrite !elem_of_app. tauto.
Qed.

Lemma swapped_ok : db_ok swapped T' stored (compacted_meta meta next' nb') ids' M.
Proof.
  pose proof Hok as [K1 K1' K2 K3 K4 K5 K6 K7 K7' K8 K9 K10 K11 K12 K13 K14].
  pose proof (db_sources_ordered _ _ _ _ _ _ _ _ _ Hok) as Hn.
  pose proof (db_sources_sorted _ _ _ _ _ _ _ _ _ Hok) as Hs.
  destruct (swapped_found _ Hn Hs) as [_ Hf].
  assert (∀ L x, L ∈ level_sources T' → x ∈ L → ∃ L0, L0 ∈ level_sources T ∧ x ∈ L0) as Hsub.
  { apply swapped_items. }
  split; try done.
  - apply swapped_levels.
  - intros L x HL Hx. destruct (Hsub L x HL Hx) as (L0 & HL0 & Hx0). by apply (K6 L0).
  - destruct Har as [A1 _ _ _ _]. simpl. rewrite A1 in K7. rewrite length_app in *. exact K7.
  - simpl. lia.
  - by apply (idle_frame io (wal_of s) e'.(env_disk) stored).
  - intros k. unfold value_of, db_sources. change (mem_stack swapped) with (mem_stack s).
    rewrite Hf. apply K14.
Qed.

End swapped.

(** ** Starting a compaction *)

Lemma pairs_ranged d tbs : Forall (pair_ok d) tbs → Forall ranged tbs.*1.
Proof. intros Ht. apply Forall_fmap. eapply Forall_impl; [exact Ht|]. intros tb Htb. exact (table_ok_ranged _ _ _ _ _ Htb). Qed.

(** The tables [R] of the level are taken; no other table has one of their keys. *)
Record started (l l1 : Level.Level) (pbs R : list pair) : Prop := {
  st_index : l1.(Level.index) = l.(Level.index);
  st_placeholders : l1.(Level.table_placeholders) = l.(Level.table_placeholders);
  st_some : R ≠ [];
  st_ids : NoDup ((λ r : pair, tid r.1) <$> R);
  st_sub : ∀ r, r ∈ R → r ∈ pbs;
  st_apart : ∀ k r, k ∈ without R pbs → r ∈ R → ¬ overlapping (tmin r.1) (tmax r.1) k.1;
  st_marked : Forall2 (λ (tb : pair) t, tid t = tid tb.1 ∧
    (tid tb.1 ∉ (λ r : pair, tid r.1) <$> R → t = tb.1)) pbs l1.(Level.tables);
  st_taken : ∀ j tb t, pbs !! j = Some tb → l1.(Level.tables) !! j = Some t → tb ∈ R → t = taken tb;
}.

Lemma start_level_ok s T stored meta ids M i ls1 l c ls2 T1 pbs cbs T2 :
  db_ok s T stored meta ids M → around s T i ls1 l c ls2 T1 pbs cbs T2 → sizes_ok l →
  ∃ l1 r, Level.maybe_start_compaction l = Ok (l1, r) ∧
    match r with
    | NothingToStart => same_level l l1
    | Contended => False
    | Started ts => ∃ R, ts = taken <$> R ∧ started l l1 pbs R
    end.
Proof.
  intros Hok Har Hsz. pose proof Har as [A1 A2 [A3 _] [A4 A4'] _].
  pose proof (ok_levels _ _ _ _ _ _ _ _ _ Hok) as Hlev.
  pose proof (around_unique _ _ _ _ _ _ _ _ _ _ _ _ _ _ _ Hok Har) as Hu.
  apply NoDup_app in Hu as (_ & _ & (Hup & _ & _)%NoDup_app).
  assert (s.(DbLogic.levels) !! i = Some l) as Hl.
  { rewrite A1, <-A3. apply lookup_app_mid. }
  destruct (lo_free _ _ _ _ _ _ _ Hlev l) as [Hph Hfree]; [by eapply list_elem_of_lookup_2|].
  destruct (start_compaction_ok l) as (l1 & r & E & Hi & Hp & Hr); [|done|].
  { rewrite A4. by eapply pairs_ranged. }
  exists l1, r. split; [done|]. destruct r as [ts| |].
  - destruct Hr as (offs & m & M0 & Hne & Ht1 & -> & [Hnd Hfr Hrg] & Hcl).
    rewrite A4 in Ht1, Hrg, Hfr, Hcl |- *. exists (at_positions pbs offs). split; [apply positions_taken|].
    split; try done.
    + destruct offs as [|o offs]; [done|]. destruct (Hfr o) as (t & Ht & _); [set_solver|].
      rewrite list_lookup_fmap in Ht. unfold at_positions. simpl. by destruct (pbs !! o).
    + by apply positions_NoDup.
    + intros r (j & _ & Hj)%elem_of_positions. by eapply list_elem_of_lookup_2.
    + intros k r (j & Hj & Hnj)%without_positions (j' & Hin & Hj')%elem_of_positions; [|done].
      assert (pbs.*1 !! j = Some k.1) as Hjt by (by rewrite list_lookup_fmap, Hj).
      assert (pbs.*1 !! j' = Some r.1) as Hjt' by (by rewrite list_lookup_fmap, Hj').
      destruct (Hrg j' r.1 Hin Hjt'). destruct (_ =? 0)%N eqn:E0; bool_to_prop.
      * intros Ho. apply (Hcl j k.1 Hjt Hnj). by eapply overlapping_widen.
      * rewrite (lo_index _ _ _ _ _ _ _ Hlev i l Hl) in E0.
        pose proof (lo_disjoint _ _ _ _ _ _ _ Hlev i l Hl ltac:(lia)) as Hdis. rewrite A4 in Hdis.
        apply (Hdis j' j); [done|done|]. by intros ->.
    + rewrite Ht1. by apply positions_marked.
    + intros j tb t Hj Ht (j' & Hin & Hj')%elem_of_positions. rewrite Ht1, flag_at_lookup, list_lookup_fmap, Hj in Ht.
      assert (j = j') as ->.
      { apply (NoDup_lookup _ _ _ (tid tb.1) Hup); rewrite !list_lookup_fmap; [by rewrite Hj|by rewrite Hj']. }
      simpl in Ht. rewrite decide_True in Ht by done. by injection Ht as <-.
  - split; [done|done|]. rewrite Hr. apply Forall_Forall2_diag, Forall_true. by intros t.
  - destruct Hr as [_ (t & Ht & Hfl)]. rewrite Forall_forall in Hfree. specialize (Hfree t Ht).
    simpl in Hfree. congruence.
Qed.

(** ** The tables of the next level *)

Lemma overlapped_sub m M cbs r : r ∈ overlapped m M cbs → r ∈ cbs.
Proof. by intros [_ ?]%list_elem_of_filter. Qed.

Lemma overlapped_NoDup m M (cbs : list pair) :
  NoDup (tid <$> cbs.*1) → NoDup ((λ r : pair, tid r.1) <$> overlapped m M cbs).
Proof.
  intros Hnd. eapply sublist_NoDup; [exact Hnd|]. rewrite <-list_fmap_compose.
  apply fmap_sublist, sublist_filter.
Qed.

(** Disjoint tables of a level, given as pairs. *)
Lemma disjoint_pairs (cbs : list pair) k r :
  pairwise_disjoint cbs.*1 → k ∈ cbs → r ∈ cbs → k ≠ r → ¬ overlapping (tmin r.1) (tmax r.1) k.1.
Proof.
  intros Hd [i Hi]%list_elem_of_lookup [j Hj]%list_elem_of_lookup Hne.
  apply (Hd j i); [by rewrite list_lookup_fmap, Hj|by rewrite list_lookup_fmap, Hi|].
  intros ->. congruence.
Qed.

Lemma left_apart m M R (cbs : list pair) k r :
  covers m M R.*1 → pairwise_disjoint cbs.*1 → k ∈ without (overlapped m M cbs) cbs →
  r ∈ R ++ overlapped m M cbs → ¬ overlapping (tmin r.1) (tmax r.1) k.1.
Proof.
  intros (Hb & _ & _) Hd Hk [Hr|Hr]%elem_of_app.
  - intros Ho. apply (without_overlapped m M cbs k Hk).
    destruct (Hb r.1) as [? ?]; [by apply list_elem_of_fmap_2|]. by eapply overlapping_widen.
  - pose proof (without_overlapped m M cbs k Hk) as Hno. apply (disjoint_pairs cbs); [done| | |].
    + by eapply elem_of_sublist; [|apply without_sublist].
    + by eapply overlapped_sub.
    + intros ->. by apply list_elem_of_filter in Hr as [? _].
Qed.

(** The hull of the range and the overlapping tables meets no other table. *)
Lemma left_hull m M m' M' R (cbs : list pair) k :
  covers m M R.*1 → covers m' M' (R ++ overlapped m M cbs).*1 → pairwise_disjoint cbs.*1 →
  Forall ranged cbs.*1 → k ∈ without (overlapped m M cbs) cbs → ¬ overlapping m' M' k.1.
Proof.
  intros Hc (_ & (t1 & Ht1 & Hm') & (t2 & Ht2 & HM')) Hd Hr Hk [Ho1 Ho2].
  pose proof (without_overlapped m M cbs k Hk) as Hno.
  pose proof (λ r, left_apart m M R cbs k r Hc Hd Hk) as Hap. destruct Hc as (Hb & _ & _).
  assert (k ∈ cbs) as Hkc by (by eapply elem_of_sublist; [|apply without_sublist]).
  rewrite Forall_forall in Hr. destruct (Hr k.1) as [_ _ Hkr]; [by apply list_elem_of_fmap_2|].
  apply list_elem_of_fmap in Ht1 as (r1 & -> & Hr1), Ht2 as (r2 & -> & Hr2).
  pose proof (Hap r1 Hr1) as Hn1. pose proof (Hap r2 Hr2) as Hn2.
  assert (∀ r, r ∈ R ++ overlapped m M cbs → (m <=k tmin r.1 ∧ tmax r.1 <=k M) ∨
    overlapping m M r.1) as Hcase.
  { intros r [Hin|Hin]%elem_of_app; [left; apply Hb; by apply list_elem_of_fmap_2|right].
    by apply list_elem_of_filter in Hin as [? _]. }
  pose proof (Hcase r1 Hr1) as C1. pose proof (Hcase r2 Hr2) as C2. clear Hcase Hap Hb Hr.
  unfold overlapping in *. subst m' M'.
  destruct (klt_trichotomy (tmax k.1) m) as [Hlt|Hge].
  - destruct C1 as [[? ?]|[? ?]]; [korder|]. apply Hn1. split; [done|]. korder.
  - assert (m <=k tmax k.1) as Hle by (destruct Hge; korder).
    destruct (klt_trichotomy M (tmin k.1)) as [Hlt|Hge']; [|apply Hno; split; [done|destruct Hge'; korder]].
    destruct C2 as [[? ?]|[? ?]]; [korder|]. apply Hn2. split; korder.
Qed.

(** The new table lies in the hull. *)
Lemma merged_in_hull d m' M' (Rs : list pair) (new : pair) k :
  Forall (pair_ok d) Rs → pair_ok d new → covers m' M' Rs.*1 →
  merge_of (table_list false <$> Rs.*2) (table_list false new.2) →
  ¬ overlapping m' M' k → ¬ overlapping (tmin new.1) (tmax new.1) k.
Proof.
  intros HRs Hn Hc [Hnew _] Hno Ho. apply Hno.
  pose proof (covers_spans params interval d Rs m' M' HRs Hc) as (Hb & _ & _).
  destruct (table_items_range params interval d new.1 new.2 Hn) as (_ & (L1 & y1 & [HL1 Hy1] & E1) & (L2 & y2 & [HL2 Hy2] & E2)).
  apply list_elem_of_singleton in HL1 as ->, HL2 as ->.
  destruct (Hnew y1 Hy1) as [(La & HLa & Ha) _]. destruct (Hnew y2 Hy2) as [(Lb & HLb & Hb') _].
  destruct (Hb La y1 HLa Ha) as [B1 _]. destruct (Hb Lb y2 HLb Hb') as [_ B2]. rewrite E1 in B1. rewrite E2 in B2.
  exact (overlapping_widen _ _ _ _ _ B1 B2 Ho).
Qed.

(** ** Updating the lists of tables *)

(** The state with other levels, files, caches and manifest. *)
Definition with_levels (s : DbLogic) (ls : list Level.Level) (e : Env) : DbLogic :=
  DbLogic.mk s.(DbLogic.memtable) s.(DbLogic.imm_memtables) s.(DbLogic.pending) ls s.(DbLogic.wal) e.

Lemma get_upper s ls1 l c ls2 e :
  DbLogic.get_level (length ls1) (with_levels s (ls1 ++ l :: c :: ls2) e)
    = Ok (l, with_levels s (ls1 ++ l :: c :: ls2) e).
Proof. unfold DbLogic.get_level. simpl. by rewrite lookup_app_mid. Qed.

Lemma get_lower s ls1 l c ls2 e :
  DbLogic.get_level (S (length ls1)) (with_levels s (ls1 ++ l :: c :: ls2) e)
    = Ok (c, with_levels s (ls1 ++ l :: c :: ls2) e).
Proof.
  unfold DbLogic.get_level. simpl. rewrite lookup_app_r by apply Nat.le_succ_diag_r.
  by rewrite Nat.sub_succ_l, Nat.sub_diag.
Qed.

Lemma set_upper s ls1 l c ls2 e l' :
  DbLogic.set_level (length ls1) l' (with_levels s (ls1 ++ l :: c :: ls2) e)
    = Ok ((), with_levels s (ls1 ++ l' :: c :: ls2) e).
Proof. unfold DbLogic.set_level. simpl. by rewrite insert_app_mid. Qed.

Lemma set_lower s ls1 l c ls2 e c' :
  DbLogic.set_level (S (length ls1)) c' (with_levels s (ls1 ++ l :: c :: ls2) e)
    = Ok ((), with_levels s (ls1 ++ l :: c' :: ls2) e).
Proof.
  unfold DbLogic.set_level. simpl. rewrite insert_app_r_alt by apply Nat.le_succ_diag_r.
  by rewrite Nat.sub_succ_l, Nat.sub_diag.
Qed.

(** The list of the lower level with the new table at position [pos]. *)
Lemma insert_pairs (K : list pair) (new : pair) pos :
  vec_insert pos new.1 K.*1 = (take pos K ++ new :: drop pos K).*1.
Proof. unfold vec_insert. by rewrite fmap_app, fmap_cons, fmap_take, fmap_drop. Qed.

Lemma remove_placeholder_one (c : Level.Level) p id :
  c.(Level.table_placeholders) = [p] → p.(TablePlaceholder.id) = id →
  Level.remove_table_placeholder c id = Ok (Level.set_placeholders c []).
Proof.
  intros Hp Hid. unfold Level.remove_table_placeholder. rewrite Hp. cbn [Level.remove_placeholder].
  by rewrite Hid, N.eqb_refl.
Qed.

Lemma install_ok s ls1 l1 c1 ls2 e pbs cbs R RC (new : pair) p id m' :
  let i := length ls1 in
  l1.(Level.index) = N.of_nat i → c1.(Level.index) = N.of_nat (S i) →
  c1.(Level.table_placeholders) = [p] → p.(TablePlaceholder.id) = id →
  DbLogic.remove_all l1.(Level.tables) (taken <$> R) = Ok (without R pbs).*1 →
  DbLogic.remove_all c1.(Level.tables) (taken <$> RC) = Ok (without RC cbs).*1 →
  ranged new.1 → Forall ranged (without RC cbs).*1 →
  Manifest.update_table_set e.(env_manifest) [(N.of_nat (S i), tid new.1)]
    (((λ id, (N.of_nat (S i), id)) <$> ((λ r : pair, tid r.1) <$> RC)) ++
     ((λ id, (N.of_nat i, id)) <$> ((λ r : pair, tid r.1) <$> R))) = Ok m' →
  ∃ pos, DbLogic.install i (S i) id (taken <$> R) (taken <$> RC) new.1 (with_levels s (ls1 ++ l1 :: c1 :: ls2) e)
    = Ok (DidWork, with_levels s (ls1 ++ Level.set_tables l1 (without R pbs).*1 ::
        Level.set_tables (Level.set_placeholders c1 [])
          (take pos (without RC cbs) ++ new :: drop pos (without RC cbs)).*1 :: ls2) (with_manifest e m')).
Proof.
  intros i Hi Hci Hp Hid HR HRC Hn Hr Hm. unfold DbLogic.install.
  run_st (get_upper s ls1 l1 c1 ls2 e). run_st (get_lower s ls1 l1 c1 ls2 e). run_lift HRC.
  run_lift (ranged_min _ Hn). destruct (find_greater_ok _ (tmin new.1) Hr) as [r Er]. run_lift Er.
  run_lift (remove_placeholder_one c1 p id Hp Hid). run_lift HR. rewrite insert_pairs.
  exists (default (length (without RC cbs).*1) r).
  rewrite (st_bind_Ok _ _ _ _ _ (set_lower s ls1 l1 c1 ls2 e _)).
  rewrite (st_bind_Ok _ _ _ _ _ (set_upper s ls1 l1 _ ls2 e _)).
  cbn [Level.set_placeholders Level.index]. rewrite Hi, Hci.
  rewrite <-!list_fmap_compose in Hm. rewrite <-!list_fmap_compose.
  match goal with |- context [with_levels s ?ls e] => set (s3 := with_levels s ls e) end.
  pose proof (on_manifest_Ok (λ m, Manifest.update_table_set m [(N.of_nat (S i), SortedTable.get_id new.1)]
    (((λ t, (N.of_nat (S i), SortedTable.get_id t)) ∘ taken <$> RC) ++
     ((λ t, (N.of_nat i, SortedTable.get_id t)) ∘ taken <$> R))) s3 m' Hm) as E.
  run_st E. done.
Qed.

(** ** Moving a table down *)

Lemma position_of_None ts id : id ∉ tid <$> ts → Level.position_of ts id = None.
Proof.
  induction ts as [|t ts IH]; intros Hn; [done|]. cbn [Level.position_of]. unfold SortedTable.get_id.
  rewrite fmap_cons, not_elem_of_cons in Hn. destruct Hn as [Hne Hn].
  rewrite (proj2 (N.eqb_neq _ _)) by done. by rewrite IH.
Qed.

Lemma fast_ok s ls1 l1 c1 ls2 e pbs cbs (r : pair) p m' :
  let i := length ls1 in
  let id := tid r.1 in
  l1.(Level.index) = N.of_nat i → c1.(Level.index) = N.of_nat (S i) → c1.(Level.tables) = cbs.*1 →
  c1.(Level.table_placeholders) = [p] → p.(TablePlaceholder.id) = id →
  NoDup (tid <$> pbs.*1) → r ∈ pbs → r.1.(SortedTable.compaction_flag) = false →
  Forall2 (λ (tb : pair) t, tid t = tid tb.1 ∧ (tid tb.1 ∉ [id] → t = tb.1)) pbs l1.(Level.tables) →
  (∀ j tb t, pbs !! j = Some tb → l1.(Level.tables) !! j = Some t → tb ∈ [r] → t = taken tb) →
  ranged r.1 → Forall ranged cbs.*1 →
  Manifest.update_table_set e.(env_manifest) [(N.of_nat (S i), id)] [(N.of_nat i, id)] = Ok m' →
  ∃ pos, DbLogic.fast_compaction i (S i) id (with_levels s (ls1 ++ l1 :: c1 :: ls2) e)
    = Ok ((), with_levels s (ls1 ++ Level.set_tables l1 (without [r] pbs).*1 ::
        Level.set_tables (Level.set_placeholders c1 []) (take pos cbs ++ r :: drop pos cbs).*1 :: ls2)
        (with_manifest e m')).
Proof.
  intros i id Hi Hci Hct Hp Hid Hnd Hr Hfl Hmk Htk Hrr Hrc Hm. unfold DbLogic.fast_compaction.
  run_st (get_upper s ls1 l1 c1 ls2 e). run_st (get_lower s ls1 l1 c1 ls2 e). cbn beta zeta.
  assert (tid <$> l1.(Level.tables) = tid <$> pbs.*1) as Eids.
  { clear -Hmk. induction Hmk as [|tb t tbs ts [Hx _] _ IH]; [done|]. by rewrite !fmap_cons, IH, Hx. }
  pose proof (remove_taken pbs l1.(Level.tables) [r] Hnd (NoDup_singleton _) ltac:(set_solver) Hmk) as Hrem.
  destruct (position_of_ok l1.(Level.tables) id) as (pos & t & Epos & Et & Htid & Hvec).
  { by rewrite Eids. } { rewrite Eids. by do 2 apply list_elem_of_fmap_2. }
  cbn [fmap list_fmap DbLogic.remove_all] in Hrem. unfold SortedTable.get_id in Hrem.
  change (tid (taken r)) with id in Hrem. rewrite Epos in Hrem. cbn [expect mbind outcome_bind] in Hrem.
  injection Hrem as Hrem.
  assert (t = taken r) as ->.
  { destruct (Forall2_lookup_r _ _ _ _ _ Hmk Et) as (tb & Htb & Htt & _).
    assert (tb = r) as -> by (apply (pair_by_id pbs); [done|by eapply list_elem_of_lookup_2|done|rewrite <-Htt; exact Htid]).
    apply (Htk pos r); [done|done|set_solver]. }
  assert (expect (Level.position_of l1.(Level.tables) id) "Entry for parent table not found" = Ok pos) as E1
    by (by rewrite Epos).
  run_lift E1. assert (expect (l1.(Level.tables) !! pos) "index out of bounds" = Ok (taken r)) as E2 by (by rewrite Et).
  run_lift E2. rewrite Hrem. run_lift (ranged_min _ Hrr : SortedTable.get_min (taken r) = Ok (tmin r.1)).
  rewrite Hct. destruct (find_greater_ok _ (tmin r.1) Hrc) as [np Enp]. run_lift Enp.
  run_lift (remove_placeholder_one c1 p id Hp Hid).
  rewrite position_of_None.
  2: { intros (t & Heq & (tb & -> & [Hn _]%list_elem_of_filter)%list_elem_of_fmap)%list_elem_of_fmap.
    apply Hn. rewrite <-Heq. set_solver. }
  cbn [Level.set_placeholders Level.index]. rewrite Hi, Hci.
  pose proof (on_manifest_Ok (λ m, Manifest.update_table_set m [(N.of_nat (S i), id)] [(N.of_nat i, id)])
    (with_levels s (ls1 ++ l1 :: c1 :: ls2) e) m' Hm) as E3. run_st E3.
  assert (SortedTable.finish_fast_compaction (taken r) = Ok r.1) as E4.
  { unfold SortedTable.finish_fast_compaction. simpl. f_equal. by apply with_flag_back. }
  run_lift E4. exists (default 0 np).
  change (with_env (with_levels s (ls1 ++ l1 :: c1 :: ls2) e) ?x) with (with_levels s (ls1 ++ l1 :: c1 :: ls2) x).
  rewrite (st_bind_Ok _ _ _ _ _ (set_upper s ls1 l1 c1 ls2 _ _)), insert_pairs. apply set_lower.
Qed.

End levels.
