(* ===== verification/LogicCompactLevel.v ===== *)
(** * [compact_level] and [do_level_compaction] (src/src/logic.rs)

    From a state in which no other compaction runs, one round of level
    compaction finishes, keeps the invariant of the database and changes nothing
    of the map it stands for: a single table is moved down, several tables are
    replaced by their merge. *)

From stdpp Require Import base list gmap strings sorting.
From Stdlib Require Import Strings.Byte NArith ZArith Lia.
From S2P Require Import Prelude WriteBatch Iterator Memtable Disk Wal WalStatus WalCalls Manifest DataBlock DataBlocks IndexBlock SortedTable TableIterator Iterate DbIterator Level Compaction Logic Sources LogicInv LogicWrite LogicFlush LogicCompact LogicLevels.

Local Open Scope nat_scope.
Local Open Scope lsm_scope.

(** ** Sizes of the chosen tables *)

Lemma chosen_submseteq (R tbs : list pair) :
  NoDup ((λ r : pair, tid r.1) <$> R) → (∀ r, r ∈ R → r ∈ tbs) → R ⊆+ tbs.
Proof. intros Hnd HR. apply NoDup_submseteq; [by eapply NoDup_fmap_1|done]. Qed.

Lemma sum_srcs (f : list Item → nat) (tbs : list pair) :
  sum_list_with f (srcs tbs) = sum_list_with f (table_list false <$> tbs.*2).
Proof. unfold srcs. apply sum_list_with_Permutation_proper. by rewrite reverse_Permutation. Qed.

Lemma sum_chosen f (R RC pbs cbs : list pair) T1 T2 :
  NoDup ((λ r : pair, tid r.1) <$> R) → NoDup ((λ r : pair, tid r.1) <$> RC) →
  (∀ r, r ∈ R → r ∈ pbs) → (∀ r, r ∈ RC → r ∈ cbs) →
  sum_list_with f (table_list false <$> (R ++ RC).*2) <=
    sum_list_with f (level_sources (T1 ++ pbs.*2 :: cbs.*2 :: T2)).
Proof.
  intros Hn1 Hn2 HR HRC. rewrite level_sources_app, !level_sources_cons, !sum_list_with_app.
  fold (srcs pbs) (srcs cbs). rewrite !sum_srcs, !fmap_app, sum_list_with_app.
  pose proof (sum_submseteq (λ tb : pair, f (table_list false tb.2)) _ _ (chosen_submseteq R pbs Hn1 HR)) as S1.
  pose proof (sum_submseteq (λ tb : pair, f (table_list false tb.2)) _ _ (chosen_submseteq RC cbs Hn2 HRC)) as S2.
  assert (∀ l : list pair, sum_list_with f (table_list false <$> l.*2) =
    sum_list_with (λ tb : pair, f (table_list false tb.2)) l) as E
    by (induction l as [|x l IH]; [done|]; rewrite !fmap_cons; cbn [sum_list_with]; by rewrite IH).
  rewrite !E. lia.
Qed.

Lemma mark_none m M (cbs : list pair) : overlapped m M cbs = [] → mark m M <$> cbs.*1 = cbs.*1.
Proof.
  unfold overlapped. induction cbs as [|tb cbs IH]; [done|]. rewrite filter_cons, !fmap_cons.
  intros E. case_decide as Ho; [done|]. rewrite IH by done. f_equal. unfold mark. by rewrite decide_False.
Qed.

Lemma without_nil (cbs : list pair) : without [] cbs = cbs.
Proof. apply filter_all. intros tb _. apply not_elem_of_nil. Qed.

(** The tables are small enough to be merged into one. *)
Record compact_fits (fuel : nat) (T : list (list Blocks)) (meta : DatabaseMetadata.DatabaseMetadata) : Prop := {
  cf_fuel : sum_list_with length (level_sources T) < fuel;
  cf_weight : (N.of_nat (256 + 3 * tables_weight (level_sources T)) < u32_bound)%N;
  cf_blocks : (meta.(DatabaseMetadata.next_data_block_id) +
    N.of_nat (sum_list_with length (level_sources T)) + 1 < u64_bound)%N;
  cf_table : (meta.(DatabaseMetadata.next_table_id) + 1 < u64_bound)%N;
}.

(** A compaction only uses up identifiers. *)
Definition compacted (meta meta' : DatabaseMetadata.DatabaseMetadata) : Prop :=
  ∃ next nb, meta' = compacted_meta meta next nb.

Lemma compacted_refl meta : compacted meta meta.
Proof.
  exists meta.(DatabaseMetadata.next_table_id), meta.(DatabaseMetadata.next_data_block_id). by destruct meta.
Qed.

Lemma compacted_trans m1 m2 m3 : compacted m1 m2 → compacted m2 m3 → compacted m1 m3.
Proof. intros (? & ? & ->) (? & ? & ->). by do 2 eexists. Qed.

Section compact.
Context `{BloomLaws} `{CompressionLaws} `{LruLaws DataBlock.DataBlock}.
Context (params : Params.Params) (interval : nat) (io : IoMode).
Context (Hint : params.(Params.block_restart_interval) = N.of_nat interval) (HI : 0 < interval).
Context (HI32 : (N.of_nat interval < u32_bound)%N) (Hseek : seeks_ok params).

Abbreviation DbLogic := DbLogic.DbLogic.
Abbreviation db_ok := (db_ok params interval io).
Abbreviation around := (around params interval).
Abbreviation pair_ok d := (λ tb : pair, table_ok params interval d tb.1 tb.2).

(** ** One compaction *)

Section one.
Context (s : DbLogic) (T : list (list Blocks)) (stored : list byte) (meta : DatabaseMetadata.DatabaseMetadata).
Context (ids : list (list N)) (M : gmap Key Value) (ls1 ls2 : list Level.Level) (l c l1 : Level.Level).
Context (T1 T2 : list (list Blocks)) (pbs cbs R : list pair) (m X : Key).
Context (Hok : db_ok s T stored meta ids M).
Context (Har : around s T (length ls1) ls1 l c ls2 T1 pbs cbs T2).
Context (Hst : started l l1 pbs R) (Hcov : covers m X R.*1).

Abbreviation i := (length ls1).
Abbreviation RC := (overlapped m X cbs).
Abbreviation nb := meta.(DatabaseMetadata.next_data_block_id).
Abbreviation next := meta.(DatabaseMetadata.next_table_id).

(** What the invariant says of the two levels. *)
Record frame : Prop := {
  fr_index : l.(Level.index) = N.of_nat i ∧ c.(Level.index) = N.of_nat (S i);
  fr_free : l.(Level.table_placeholders) = [] ∧ c.(Level.table_placeholders) = [];
  fr_flags : Forall (λ tb : pair, tb.1.(SortedTable.compaction_flag) = false) pbs ∧
    Forall (λ tb : pair, tb.1.(SortedTable.compaction_flag) = false) cbs;
  fr_disjoint : pairwise_disjoint cbs.*1;
  fr_ranged : Forall ranged pbs.*1 ∧ Forall ranged cbs.*1;
  fr_unique : NoDup (tid <$> pbs.*1) ∧ NoDup (tid <$> cbs.*1) ∧
    ∀ tb, tb ∈ pbs → tid tb.1 ∉ concat (level_ids ls1) ++ (tid <$> cbs.*1) ++ concat (level_ids ls2);
  fr_ids : ∀ id, id ∈ concat (level_ids ls1) ++ (tid <$> pbs.*1) ++ (tid <$> cbs.*1) ++ concat (level_ids ls2) →
    (FIRST_TABLE_ID <= id < next)%N;
  fr_blocks : Forall (λ tb : pair, Forall (λ b : N * list BEntry, (b.1 < nb)%N) tb.2) (pbs ++ cbs);
  fr_files : Forall (λ tb : pair, reloads params s.(DbLogic.env).(env_disk) tb.1) pbs;
}.

Lemma frame_ok : frame.
Proof.
  pose proof Har as [A1 A2 [_ _] [A4 A4'] [A5 A5']].
  pose proof (ok_levels _ _ _ _ _ _ _ _ _ Hok) as [O1 O2 O3 O4 O5 O6 O7 O8 O9 O10]. rewrite A1 in *. rewrite A2 in O6.
  assert ((ls1 ++ l :: c :: ls2) !! i = Some l) as Ll by apply lookup_app_mid.
  assert ((ls1 ++ l :: c :: ls2) !! S i = Some c) as Lc.
  { rewrite lookup_app_r by lia. by replace (S i - i) with 1 by lia. }
  destruct (O3 l) as [P1 F1]; [by eapply list_elem_of_lookup_2|].
  destruct (O3 c) as [P2 F2]; [by eapply list_elem_of_lookup_2|].
  rewrite A4 in F1. rewrite A5 in F2. rewrite Forall_fmap in F1, F2.
  pose proof (O4 (S i) c Lc ltac:(lia)) as Hd. rewrite A5 in Hd.
  rewrite level_ids_split, A4, A5 in O7, O8.
  split; [by split; [apply O2|apply O2]|done|done|done| | | | |].
  - split; by eapply pairs_ranged.
  - apply NoDup_app in O7 as (_ & Hx & (Hp & Hy & (Hc & _ & _)%NoDup_app)%NoDup_app).
    split; [done|]. split; [done|]. intros tb Htb Hin.
    assert (tid tb.1 ∈ tid <$> pbs.*1) as Htb' by (by do 2 apply list_elem_of_fmap_2).
    rewrite !elem_of_app in Hin. specialize (Hx (tid tb.1)). specialize (Hy (tid tb.1) Htb').
    rewrite !elem_of_app in Hx. rewrite elem_of_app in Hy. tauto.
  - rewrite Forall_forall in O8. exact O8.
  - apply Forall_app in O6 as [_ (Hbp & (Hbc & _)%Forall_cons)%Forall_cons].
    apply Forall_app. by rewrite Forall_fmap in Hbp, Hbc.
  - apply Forall_app in O9 as [_ [Hf _]%Forall_cons]. rewrite A4, Forall_fmap in Hf. exact Hf.
Qed.

Lemma chosen_pairs d :
  Forall (pair_ok d) pbs → Forall (pair_ok d) cbs → Forall (pair_ok d) (R ++ RC).
Proof.
  intros Hp Hc. apply Forall_app. rewrite Forall_forall in Hp. rewrite Forall_forall in Hc.
  split; apply Forall_forall; intros r Hr; [apply Hp, (st_sub _ _ _ _ Hst), Hr|].
  apply Hc. by eapply overlapped_sub.
Qed.

Lemma compacted_same : compacted_meta meta next nb = meta.
Proof. by destruct meta. Qed.

(** A table without overlap is moved down. *)
Lemma moved_ok r c1 p :
  R = [r] → RC = [] → c1.(Level.index) = c.(Level.index) → c1.(Level.tables) = cbs.*1 →
  c1.(Level.table_placeholders) = [p] → p.(TablePlaceholder.id) = tid r.1 →
  ∃ ls' e' T' ids', DbLogic.fast_compaction i (S i) (tid r.1)
      (with_levels s (ls1 ++ l1 :: c1 :: ls2) s.(DbLogic.env)) = Ok ((), with_levels s ls' e') ∧
    db_ok (with_levels s ls' e') T' stored meta ids' M.
Proof.
  intros -> HRC Hci Hct Hcp Hpid.
  destruct (frame_ok) as [[F1 F1'] [F2 F2'] [F3 F3'] F4 [F5 F5'] (F6 & F6' & F6'') F7 F8 F9].
  pose proof Har as [A1 A2 _ [A4 A4'] [A5 A5']]. destruct Hst as [G1 G2 _ G4 G5 G6 G7 G8].
  assert (r ∈ pbs) as Hr by (apply G5; set_solver).
  assert (pair_ok s.(DbLogic.env).(env_disk) r) as Hrok by (rewrite Forall_forall in A4'; exact (A4' r Hr)).
  pose proof (F6'' r Hr) as Hfr. rewrite !not_elem_of_app in Hfr. destruct Hfr as (Hfr1 & Hfr2 & Hfr3).
  assert (FIRST_TABLE_ID <= tid r.1 < next)%N as Hrid.
  { apply F7. apply elem_of_app. right. apply elem_of_app. left. by do 2 apply list_elem_of_fmap_2. }
  assert (valid_id (tid r.1)) as Hval.
  { split; [lia|]. pose proof (ok_manifest _ _ _ _ _ _ _ _ _ Hok) as [_ [Hw _] _]. lia. }
  pose proof (ok_sets _ _ _ _ _ _ _ _ _ Hok) as Hsets. rewrite A1 in Hsets.
  set (l' := Level.set_tables l1 (without [r] pbs).*1).
  set (c' pos := Level.set_tables (Level.set_placeholders c1 []) (take pos cbs ++ r :: drop pos cbs).*1).
  pose proof (λ pos, compaction_sets _ meta ids ls1 l c ls2 l' (c' pos) pbs cbs [r] [] (take pos cbs) (drop pos cbs) r
    (ok_manifest _ _ _ _ _ _ _ _ _ Hok) Hsets A4 A5 eq_refl eq_refl ltac:(by rewrite take_drop, without_nil)
    G4 ltac:(constructor) G5 ltac:(set_solver) Hval Hfr2) as Hcs.
  destruct (Hcs 0) as (m' & _ & Em & _).
  destruct (fast_ok params interval Hint HI HI32 Hseek s ls1 l1 c1 ls2 s.(DbLogic.env) pbs cbs r p m')
    as [pos Epos]; try done; try congruence.
  { rewrite Forall_forall in F3. exact (F3 r Hr). }
  { rewrite Forall_forall in F5. apply F5. by apply list_elem_of_fmap_2. }
  destruct (Hcs pos) as (m2 & ids' & Em2 & Hm2 & Hs2). rewrite Em in Em2. injection Em2 as <-.
  eexists _, _, _, ids'. split; [exact Epos|].
  pose proof (swapped_ok params interval io Hint HI HI32 s T stored meta ids ids' M i ls1 ls2 l c l' (c' pos)
    T1 T2 pbs cbs [r] [] (take pos cbs) (drop pos cbs) r (with_manifest s.(DbLogic.env) m') next nb Hok Har) as Hsw.
  rewrite compacted_same in Hsw. apply Hsw; clear Hsw; try done; try lia.
  - split; try done.
    + set_solver.
    + split; [done|constructor].
    + by rewrite take_drop, without_nil.
    + rewrite Forall_forall in F3. exact (F3 r Hr).
    + apply single_merge, dir_sorted_table, Hrok.
    + intros k r' Hk Hr'. apply (left_apart m X [r] cbs k r' Hcov F4); by rewrite HRC.
    + intros k Hk. apply (left_apart m X [r] cbs k r Hcov F4); [by rewrite HRC|set_solver].
  - rewrite Forall_forall in F9. exact (F9 r Hr).
  - destruct s as [? ? ? ? ? [? ? ?]]. eapply cache_ok_other; [|apply Hok]. done.
  - rewrite Forall_forall in F8. apply F8. set_solver.
  - rewrite without_nil, !not_elem_of_app. split; [done|]. split; [|done].
    intros (t & Heq & (tb & -> & [Hn _]%list_elem_of_filter)%list_elem_of_fmap)%list_elem_of_fmap.
    apply Hn. rewrite <-Heq. set_solver.
  - simpl. congruence.
Qed.

(** The chosen tables with their flags set. *)
Abbreviation held := (λ r : pair, (taken r, r.2)).

Lemma held_1 (Rs : list pair) : (held <$> Rs).*1 = taken <$> Rs.
Proof. by rewrite <-list_fmap_compose. Qed.

Lemma held_2 (Rs : list pair) : (held <$> Rs).*2 = Rs.*2.
Proof. by rewrite <-list_fmap_compose. Qed.

Lemma ranged_taken (Rs : list pair) : Forall ranged Rs.*1 → Forall ranged (taken <$> Rs).
Proof.
  rewrite !Forall_fmap. intros Hr. eapply Forall_impl; [exact Hr|]. intros r [H1r H2r H3r]. by split.
Qed.

Lemma covers_taken a b (Rs : list pair) : covers a b (taken <$> Rs) ↔ covers a b Rs.*1.
Proof.
  assert (∀ P : SortedTable.SortedTable → Prop, (∀ t, P (SortedTable.with_flag t true) ↔ P t) →
    (∃ t, t ∈ taken <$> Rs ∧ P t) ↔ ∃ t, t ∈ Rs.*1 ∧ P t) as Hex.
  { intros P HP. split; intros (t & (r & -> & Hr)%list_elem_of_fmap & Ht); eexists;
      (split; [by apply list_elem_of_fmap_2|]); by apply HP. }
  unfold covers. rewrite (Hex (λ t, tmin t = a)), (Hex (λ t, tmax t = b)) by done.
  split; intros (Hb & H1c & H2c); (split; [|done]); intros t (r & -> & Hr)%list_elem_of_fmap.
  - apply (Hb (taken r)). by apply list_elem_of_fmap_2.
  - apply (Hb r.1). by apply list_elem_of_fmap_2.
Qed.

Lemma chosen_range d :
  Forall (pair_ok d) (R ++ RC) →
  ∃ m' X', DbLogic.range_of (taken <$> RC) m X = Ok (m', X') ∧ key_leb m' X' = true ∧ covers m' X' (R ++ RC).*1.
Proof.
  intros Hch. pose proof (pairs_ranged params interval _ _ Hch) as Hrg.
  pose proof Hrg as Hrc. rewrite fmap_app in Hrc. apply Forall_app in Hrc as [_ Hrc].
  destruct (range_of_ok (taken <$> R) (taken <$> RC) m X) as (m' & X' & Er & Hc');
    [by apply covers_taken|by apply ranged_taken|].
  rewrite <-fmap_app, covers_taken in Hc'. exists m', X'. split; [done|]. split; [|done].
  destruct Hc' as (Hb & (t & Ht & <-) & _). destruct (Hb t Ht) as [_ Hmax]. rewrite Forall_forall in Hrg.
  destruct (Hrg t Ht) as [_ _ Hle]. apply key_leb_le. korder.
Qed.

(** The merge of the chosen tables. *)
Lemma chosen_merged fuel e1 m1 :
  let meta1 := DatabaseMetadata.mk (next + 1) meta.(DatabaseMetadata.num_levels)
    meta.(DatabaseMetadata.seq_number_offset) meta.(DatabaseMetadata.log_offset) nb in
  compact_fits fuel T meta → e1 = with_manifest s.(DbLogic.env) m1 → manifest_holds m1 meta1 ids →
  ∃ m' X' new e2 nb',
    DbLogic.range_of (taken <$> RC) m X = Ok (m', X') ∧ key_leb m' X' = true ∧
    Compaction.merge_tables params fuel fuel next m' X' ((taken <$> R) ++ (taken <$> RC)) e1 = Ok (new.1, e2) ∧
    pair_ok e2.(env_disk) new ∧ merge_of (table_list false <$> (R ++ RC).*2) (table_list false new.2) ∧
    tid new.1 = next ∧ new.1.(SortedTable.compaction_flag) = false ∧ cache_ok params e2 ∧
    Forall (pair_ok e2.(env_disk)) (R ++ RC) ∧ covers m' X' (R ++ RC).*1 ∧
    manifest_holds e2.(env_manifest) (compacted_meta meta (next + 1) nb') ids ∧ (nb <= nb')%N ∧
    Forall (λ b : N * list BEntry, (b.1 < nb')%N) new.2 ∧
    new_table_only next nb s.(DbLogic.env).(env_disk) e2.(env_disk) ∧ reloads params e2.(env_disk) new.1.
Proof.
  intros meta1 [B1 B2 B3 B4] -> Hm1.
  destruct (frame_ok) as [_ _ _ F4 [F5 F5'] (F6 & F6' & F6'') F7 F8 F9].
  pose proof Har as [A1 A2 _ [A4 A4'] [A5 A5']].
  pose proof (chosen_pairs _ A4' A5') as Hch. 
  destruct (chosen_range _ Hch) as (m' & X' & Er & Hle & Hcov').
  assert (∀ f, sum_list_with f (table_list false <$> (R ++ RC).*2) <= sum_list_with f (level_sources T)) as Hsum.
  { intros f. rewrite A2. apply sum_chosen; [apply Hst|by apply overlapped_NoDup|apply Hst|apply overlapped_sub]. }
  set (e1 := with_manifest s.(DbLogic.env) m1).
  assert (cache_ok params e1) as Hce.
  { unfold e1. destruct s as [? ? ? ? ? [? ? ?]]. by eapply cache_ok_other; [intros f _|apply Hok]. }
  pose proof (Hsum length) as Hs1. pose proof (Hsum (λ L, sum_list_with (weight ∘ item_entry) L)) as Hs2.
  fold (tables_weight (table_list false <$> (R ++ RC).*2)) (tables_weight (level_sources T)) in Hs2.
  pose proof (covers_spans params interval _ _ m' X' Hch Hcov') as Hspan.
  destruct (merge_tables_ok params interval Hint HI HI32 meta1 ids (held <$> (R ++ RC)) nb)
    with (n := fuel) (sub := held <$> (R ++ RC)) (id := next) (min := m') (max := X') (e := e1) (nb := nb)
    as (t & e2 & bs & nb' & E & Ht & Hmg & Hid & Hfl & [Hc2 Hin2] & Hm2 & Hnb & Hbs & Hnew & Hload);
    rewrite ?held_2; try done; try lia.
  - apply Forall_fmap, Forall_forall. intros r Hr. simpl. rewrite Forall_forall in F8. apply F8.
    apply elem_of_app in Hr as [Hr|Hr]; apply elem_of_app; [left; by apply (st_sub _ _ _ _ Hst)|right].
    by eapply overlapped_sub.
  - split; [done|]. apply Forall_fmap. eapply Forall_impl; [exact Hch|]. intros r Hr.
    by eapply same_table_ok; [|exact Hr].
  - exists m', X', (t, bs), e2, nb'. rewrite held_1, fmap_app in E. rewrite held_2 in Hmg.
    split_and!; try done; [by apply merged_merge| |lia|by apply loaded_reloads; simpl; rewrite Hid].
    rewrite Forall_fmap in Hin2. eapply Forall_impl; [exact Hin2|]. intros r Hr.
    by eapply same_table_ok; [|exact Hr].
Qed.

(** Several tables are replaced by their merge. *)
Lemma merged_ok fuel c1 p m1 :
  let meta1 := DatabaseMetadata.mk (next + 1) meta.(DatabaseMetadata.num_levels)
    meta.(DatabaseMetadata.seq_number_offset) meta.(DatabaseMetadata.log_offset) nb in
  compact_fits fuel T meta → manifest_holds m1 meta1 ids →
  c1.(Level.index) = c.(Level.index) → c1.(Level.tables) = mark m X <$> cbs.*1 →
  c1.(Level.table_placeholders) = [p] → p.(TablePlaceholder.id) = next →
  ∃ m' X' t e2 ls' e' T' meta' ids',
    DbLogic.range_of (taken <$> RC) m X = Ok (m', X') ∧ key_leb m' X' = true ∧
    Compaction.merge_tables params fuel fuel next m' X' ((taken <$> R) ++ (taken <$> RC))
      (with_manifest s.(DbLogic.env) m1) = Ok (t, e2) ∧
    DbLogic.install i (S i) next (taken <$> R) (taken <$> RC) t (with_levels s (ls1 ++ l1 :: c1 :: ls2) e2)
      = Ok (DidWork, with_levels s ls' e') ∧ compacted meta meta' ∧
    db_ok (with_levels s ls' e') T' stored meta' ids' M.
Proof.
  intros meta1 Hfit Hm1 Hci Hct Hcp Hpid.
  destruct (chosen_merged fuel _ m1 Hfit eq_refl Hm1) as (m' & X' & new & e2 & nb' & Er & Hle & Em & Hnew & Hmg &
    Hid & Hfl & Hc2 & Hch & Hcov' & Hm2 & Hnb & Hbs & Honly & Hrel).
  destruct (frame_ok) as [[F1 F1'] [F2 F2'] [F3 F3'] F4 [F5 F5'] (F6 & F6' & F6'') F7 F8 F9].
  pose proof Har as [A1 A2 _ [A4 A4'] [A5 A5']]. destruct Hst as [G1 G2 G3 G4 G5 G6 G7 G8].
  pose proof (overlapped_NoDup m X cbs F6') as HndC. pose proof (overlapped_sub m X cbs) as HsubC.
  assert (∀ id, id ∈ concat (level_ids ls1) ++ (tid <$> pbs.*1) ++ (tid <$> cbs.*1) ++ concat (level_ids ls2) →
    tid new.1 ≠ id) as Hfresh by (intros id Hin; specialize (F7 id Hin); lia).
  assert (tid new.1 ∉ tid <$> cbs.*1) as HfrC.
  { intros Hin. apply (Hfresh (tid new.1)); [|done]. rewrite !elem_of_app. tauto. }
  assert (valid_id (tid new.1)) as Hval.
  { pose proof (ok_next _ _ _ _ _ _ _ _ _ Hok). destruct Hfit. split; lia. }
  assert (Forall ranged (without RC cbs).*1) as HrC
    by (eapply Forall_sublist; [apply fmap_sublist, without_sublist|done]).
  pose proof (ok_sets _ _ _ _ _ _ _ _ _ Hok) as Hsets. rewrite A1 in Hsets.
  set (K := without RC cbs) in *. set (l' := Level.set_tables l1 (without R pbs).*1).
  set (c' pos := Level.set_tables (Level.set_placeholders c1 []) (take pos K ++ new :: drop pos K).*1).
  pose proof (λ pos, compaction_sets _ _ ids ls1 l c ls2 l' (c' pos) pbs cbs R RC (take pos K) (drop pos K) new
    Hm2 Hsets A4 A5 eq_refl eq_refl ltac:(by rewrite take_drop) G4 HndC G5 HsubC Hval HfrC) as Hcs.
  destruct (Hcs 0) as (mm & _ & Emm & _).
  destruct (install_ok s ls1 l1 c1 ls2 e2 pbs cbs R RC new p next mm)
    as [pos Epos]; try done; try congruence.
  { by apply remove_taken. }
  { rewrite Hct. apply remove_taken; [done|done|done|by apply overlapped_marked]. }
  { exact (table_ok_ranged _ _ _ _ _ Hnew). }
  destruct (Hcs pos) as (mm2 & ids' & Emm2 & Hmm & Hs2). rewrite Emm in Emm2. injection Emm2 as <-.
  exists m', X', new.1, e2. do 2 eexists. exists (T1 ++ (without R pbs).*2 :: (take pos K ++ new :: drop pos K).*2 :: T2).
  exists (compacted_meta meta (next + 1) nb'), ids'.
  split; [done|]. split; [done|]. split; [done|]. split; [exact Epos|]. split; [by do 2 eexists|].
  apply (swapped_ok params interval io Hint HI HI32 s T stored meta ids ids' M i ls1 ls2 l c l' (c' pos)
    T1 T2 pbs cbs R RC (take pos K) (drop pos K) new (with_manifest e2 mm) (next + 1) nb' Hok Har); try done; try lia.
  - split; try done.
    + by rewrite take_drop.
    + intros k r Hk Hr. exact (left_apart m X R cbs k r Hcov F4 Hk Hr).
    + intros k Hk. pose proof (left_hull m X m' X' R cbs k Hcov Hcov' F4 F5' Hk) as Hno.
      exact (merged_in_hull params interval _ m' X' _ new k.1 Hch Hnew Hcov' Hmg Hno).
  - by eapply new_table_kept.
  - by eapply new_index_kept.
  - intros j. by eapply new_table_log.
  - destruct e2. by eapply cache_ok_other; [intros f _|].
  - split; [apply Hval|lia].
  - intros Hin. apply (Hfresh (tid new.1)); [|done]. fold K in Hin. rewrite !elem_of_app in Hin |- *.
    assert (∀ id Rs tbs, id ∈ tid <$> (without Rs tbs).*1 → id ∈ tid <$> tbs.*1) as Hsub.
    { intros id Rs tbs Hx. eapply elem_of_sublist; [exact Hx|]. do 2 apply fmap_sublist. apply without_sublist. }
    pose proof (Hsub (tid new.1) R pbs). pose proof (Hsub (tid new.1) RC cbs). tauto.
  - simpl. congruence.
Qed.

End one.

(** ** The whole operation *)

Lemma with_levels_self (s : DbLogic) ls : s.(DbLogic.levels) = ls → s = with_levels s ls s.(DbLogic.env).
Proof. intros <-. by destruct s. Qed.

(** The range of the tables taken from the upper level. *)
Lemma taken_range d (R : list pair) :
  R ≠ [] → Forall (pair_ok d) R →
  ∃ r R' m0 X0 m X, R = r :: R' ∧ SortedTable.get_min (taken r) = Ok m0 ∧ SortedTable.get_max (taken r) = Ok X0 ∧
    DbLogic.range_of (taken <$> R') m0 X0 = Ok (m, X) ∧ covers m X R.*1.
Proof.
  intros Hne HR. pose proof (ranged_taken _ (pairs_ranged params interval _ _ HR)) as Hrg.
  destruct R as [|r R']; [done|]. rewrite fmap_cons in Hrg. apply Forall_cons in Hrg as [Hr Hrg].
  destruct (range_of_ok [taken r] (taken <$> R') _ _ (covers_single (taken r)) Hrg) as (m & X & E & Hc).
  exists r, R', (tmin r.1), (tmax r.1), m, X. split; [done|]. split; [by apply (ranged_min (taken r))|].
  split; [by apply (ranged_max (taken r))|]. split; [done|]. by apply (covers_taken _ _ (r :: R')).
Qed.

Lemma generate_id_ok s T stored meta ids M :
  db_ok s T stored meta ids M → (meta.(DatabaseMetadata.next_table_id) + 1 < u64_bound)%N →
  ∃ m1, Level.generate_table_id s.(DbLogic.env)
      = Ok (meta.(DatabaseMetadata.next_table_id), with_manifest s.(DbLogic.env) m1) ∧
    manifest_holds m1 (DatabaseMetadata.mk (meta.(DatabaseMetadata.next_table_id) + 1)
      meta.(DatabaseMetadata.num_levels) meta.(DatabaseMetadata.seq_number_offset)
      meta.(DatabaseMetadata.log_offset) meta.(DatabaseMetadata.next_data_block_id)) ids.
Proof.
  intros Hok Hlt. destruct (generate_table_id_holds _ _ _ (ok_manifest _ _ _ _ _ _ _ _ _ Hok) Hlt) as (m1 & E & Hm).
  exists m1. split; [|done]. unfold Level.generate_table_id. by rewrite E.
Qed.

Lemma overlapped_fst m X (cbs : list pair) : filter (overlapping m X) cbs.*1 = (overlapped m X cbs).*1.
Proof.
  unfold overlapped. induction cbs as [|tb cbs IH]; [done|]. rewrite fmap_cons, !filter_cons.
  case_decide; [by rewrite fmap_cons, IH|done].
Qed.

(** The overlapping tables of the lower level are taken. *)
Lemma lower_overlaps c (cbs : list pair) m X fast e id e' :
  c.(Level.tables) = cbs.*1 → c.(Level.table_placeholders) = [] → Forall ranged cbs.*1 →
  pairwise_disjoint cbs.*1 → Forall (λ tb : pair, tb.1.(SortedTable.compaction_flag) = false) cbs →
  match fast, overlapped m X cbs with Some id, [] => mret id | _, _ => Level.generate_table_id end e = Ok (id, e') →
  Level.get_overlaps c m X fast e =
    Ok ((Level.set_placeholders (Level.set_tables c (mark m X <$> cbs.*1))
           [TablePlaceholder.mk (hull m X (filter (overlapping m X) cbs.*1)).1
              (hull m X (filter (overlapping m X) cbs.*1)).2 id],
         Some (id, taken <$> overlapped m X cbs)), e').
Proof.
  intros Hc Hp Hr Hd Hf Hid. pose proof (get_overlaps_free c m X fast e) as Hg. rewrite Hc, Hp in Hg.
  specialize (Hg Hr Hd id e'). rewrite overlapped_taken in Hg. apply Hg; [|done|].
  - rewrite overlapped_fst, Forall_fmap. eapply Forall_sublist; [apply sublist_filter|exact Hf].
  - rewrite overlapped_fst. by destruct fast, (overlapped m X cbs).
Qed.

Lemma compact_started_ok fuel s T stored meta ids M ls1 l c ls2 l1 T1 pbs cbs T2 R :
  db_ok s T stored meta ids M → around s T (length ls1) ls1 l c ls2 T1 pbs cbs T2 →
  started l l1 pbs R → compact_fits fuel T meta →
  ∃ ls' e' T' meta' ids',
    DbLogic.compact_started params fuel (length ls1) (S (length ls1)) l1 c (taken <$> R)
      (with_levels s (ls1 ++ l1 :: c :: ls2) s.(DbLogic.env)) = Ok (DidWork, with_levels s ls' e') ∧
    compacted meta meta' ∧ db_ok (with_levels s ls' e') T' stored meta' ids' M.
Proof.
  intros Hok Har Hst Hfit. pose proof Har as [A1 A2 _ [A4 A4'] [A5 A5']].
  destruct (frame_ok s T stored meta ids M ls1 ls2 l c T1 T2 pbs cbs Hok Har)
    as [[F1 F1'] [F2 F2'] [F3 F3'] F4 [F5 F5'] F6 F7 F8 F9].
  assert (Forall (pair_ok s.(DbLogic.env).(env_disk)) R) as HR.
  { rewrite Forall_forall in A4'. apply Forall_forall. intros r Hr. apply A4', (st_sub _ _ _ _ Hst), Hr. }
  destruct (taken_range _ R (st_some _ _ _ _ Hst) HR) as (r & R' & m0 & X0 & m & X & ER & E1 & E2 & E3 & Hcov).
  destruct (generate_id_ok s T stored meta ids M Hok (cf_table _ _ _ Hfit)) as (m1 & Egen & Hm1).
  assert (expect (head (taken <$> R)) "assertion failed: !parent_tbls_to_compact.is_empty()" = Ok (taken r)) as Eh
    by (by rewrite ER).
  assert (DbLogic.range_of (tail (taken <$> R)) m0 X0 = Ok (m, X)) as Et by (by rewrite ER).
  unfold DbLogic.compact_started. run_lift Eh.
  run_lift E1. run_lift E2. run_lift Et. cbn beta iota zeta.
  set (fast := if length (taken <$> R) =? 1 then Some (SortedTable.get_id (taken r)) else None).
  pose proof (λ id e', lower_overlaps c cbs m X fast s.(DbLogic.env) id e' A5 F2' F5' F4 F3') as Hov.
  destruct (decide (length R = 1 ∧ overlapped m X cbs = [])) as [[Hlen Hnil]|Hmany].
  - assert (R' = []) as -> by (rewrite ER in Hlen; by destruct R').
    assert (fast = Some (tid r.1)) as Efast by (unfold fast; by rewrite length_fmap, Hlen).
    rewrite Efast, Hnil in Hov. pose proof (on_env_Ok _ (with_levels s (ls1 ++ l1 :: c :: ls2) s.(DbLogic.env)) _ _ (Hov _ _ eq_refl)) as Eov.
    rewrite Efast. run_st Eov. cbn beta iota.
    match goal with |- context [with_env ?x ?e] => change (with_env x e) with (with_levels s (ls1 ++ l1 :: c :: ls2) e) end.
    rewrite (st_bind_Ok _ _ _ _ _ (set_lower s ls1 l1 c ls2 _ _)). rewrite length_fmap, Hlen. cbn [fmap list_fmap length Nat.eqb andb].
    run_lift (f_equal (λ b, assert_that b "assertion `left == right` failed") (N.eqb_refl (tid r.1))
      : assert_that (SortedTable.get_id (taken r) =? tid r.1)%N "assertion `left == right` failed" = Ok ()).
    match goal with |- context [ls1 ++ l1 :: ?x :: ls2] => set (c1 := x) end.
    destruct (moved_ok s T stored meta ids M ls1 ls2 l c l1 T1 T2 pbs cbs R m X Hok Har Hst Hcov r c1
      (TablePlaceholder.mk (hull m X (filter (overlapping m X) cbs.*1)).1 (hull m X (filter (overlapping m X) cbs.*1)).2 (tid r.1)))
      as (ls' & e' & T' & ids' & E & Hok'); try done.
    { unfold c1. simpl. by apply mark_none. }
    run_st E. exists ls', e', T', meta, ids'. split; [done|]. split; [apply compacted_refl|done].
  - specialize (Hov meta.(DatabaseMetadata.next_table_id) (with_manifest s.(DbLogic.env) m1)).
    assert ((length (taken <$> R) =? 1) && (length (taken <$> overlapped m X cbs) =? 0) = false) as Hb.
    { rewrite !length_fmap. apply andb_false_iff. rewrite !Nat.eqb_neq.
      destruct (decide (length R = 1)) as [Hl|]; [right|by left]. by destruct (overlapped m X cbs); [destruct Hmany|]. }
    assert (Level.get_overlaps c m X fast s.(DbLogic.env) = _) as Hov' by (apply Hov; unfold fast;
      destruct (length (taken <$> R) =? 1), (overlapped m X cbs); try done).
    pose proof (on_env_Ok _ (with_levels s (ls1 ++ l1 :: c :: ls2) s.(DbLogic.env)) _ _ Hov') as Eov.
    run_st Eov. cbn beta iota.
    match goal with |- context [with_env ?x ?e] => change (with_env x e) with (with_levels s (ls1 ++ l1 :: c :: ls2) e) end.
    rewrite (st_bind_Ok _ _ _ _ _ (set_lower s ls1 l1 c ls2 _ _)), Hb.
    match goal with |- context [ls1 ++ l1 :: ?x :: ls2] => set (c1 := x) end.
    destruct (merged_ok s T stored meta ids M ls1 ls2 l c l1 T1 T2 pbs cbs R m X Hok Har Hst Hcov fuel c1
      (TablePlaceholder.mk (hull m X (filter (overlapping m X) cbs.*1)).1 (hull m X (filter (overlapping m X) cbs.*1)).2
        meta.(DatabaseMetadata.next_table_id)) m1 Hfit Hm1)
      as (m' & X' & t & e2 & ls' & e' & T' & meta' & ids' & Er & Hle & Em & Ei & Hcm & Hok'); try done.
    run_lift Er. cbn beta iota.
    run_lift (f_equal (λ b, assert_that b "assertion failed: min_key <= max_key") Hle).
    pose proof (on_env_Ok _ (with_levels s (ls1 ++ l1 :: c1 :: ls2) (with_manifest s.(DbLogic.env) m1)) _ _ Em) as Em'.
    run_st Em'. exists ls', e', T', meta', ids'. split; [exact Ei|done].
Qed.

Lemma compact_level_ok fuel s T stored meta ids M i :
  db_ok s T stored meta ids M → S i < length s.(DbLogic.levels) →
  Forall sizes_ok s.(DbLogic.levels) → compact_fits fuel T meta →
  ∃ r ls' e' T' meta' ids', DbLogic.compact_level params fuel i (i + 1) s = Ok (r, with_levels s ls' e') ∧
    r ≠ Locked ∧ (r = NothingToDo → same_db params s (with_levels s ls' e') ∧ T' = T ∧ meta' = meta) ∧
    compacted meta meta' ∧
    db_ok (with_levels s ls' e') T' stored meta' ids' M.
Proof.
  intros Hok Hi Hsz Hfit. rewrite Nat.add_1_r.
  destruct (db_around params interval io Hint HI HI32 s T stored meta ids M i Hok Hi) as (ls1 & l & c & ls2 & T1 & pbs & cbs & T2 & Har).
  pose proof Har as [A1 A2 [<- _] [A4 A4'] [A5 A5']].
  destruct (frame_ok s T stored meta ids M ls1 ls2 l c T1 T2 pbs cbs Hok Har)
    as [[F1 F1'] [F2 F2'] [F3 F3'] F4 [F5 F5'] F6 F7 F8 F9].
  rewrite A1 in Hsz. apply Forall_app in Hsz as [_ [Hsz _]%Forall_cons].
  destruct (start_level_ok params interval io Hint HI HI32 Hseek s T stored meta ids M _ ls1 l c ls2 T1 pbs cbs T2
    Hok Har Hsz) as (l1 & r & Est & Hr).
  unfold DbLogic.compact_level.
  assert (DbLogic.get_level (length ls1) s = Ok (l, s)) as El by (rewrite (with_levels_self s _ A1); apply get_upper).
  assert (DbLogic.get_level (S (length ls1)) s = Ok (c, s)) as Ec by (rewrite (with_levels_self s _ A1); apply get_lower).
  run_st El. run_st Ec.
  assert (assert_that (l.(Level.index) + 1 =? c.(Level.index))%N "assertion `left == right` failed" = Ok ()) as E0.
  { rewrite F1, F1'. replace (N.of_nat (length ls1) + 1)%N with (N.of_nat (S (length ls1))) by lia. by rewrite N.eqb_refl. }
  run_lift E0. run_lift Est. cbn beta iota.
  assert (DbLogic.set_level (length ls1) l1 s = Ok ((), with_levels s (ls1 ++ l1 :: c :: ls2) s.(DbLogic.env))) as Es
    by (rewrite (with_levels_self s _ A1) at 1; apply set_upper).
  run_st Es.
  destruct r as [ts| |]; [|clear Hfit|done].
  - destruct Hr as (R & -> & Hst).
    destruct (compact_started_ok fuel s T stored meta ids M ls1 l c ls2 l1 T1 pbs cbs T2 R Hok Har Hst Hfit)
      as (ls' & e' & T' & meta' & ids' & E & Hcm & Hok'). exists DidWork, ls', e', T', meta', ids'. by split_and!.
  - assert (same_db params s (with_levels s (ls1 ++ l1 :: c :: ls2) s.(DbLogic.env))) as Hsame.
    { split; try done. simpl. rewrite A1. apply Forall2_app; [reflexivity|]. by constructor. }
    eexists NothingToDo, _, _, T, meta, ids. split; [done|]. split; [done|]. split; [done|].
    split; [apply compacted_refl|]. by eapply same_db_ok.
Qed.

(** ** The loop over the levels *)

Lemma sizes_ok_same l l' : same_level l l' → sizes_ok l → sizes_ok l'.
Proof.
  intros [Hi _ Ht] [H0'|(total & limit & Et & El)]; [left; congruence|right].
  exists total, limit. split; [|unfold Level.max_size in *; by rewrite Hi].
  revert Et. generalize 0%N as acc. induction Ht as [|t t' ts ts' [[_ Hx] _] _ IH]; intros acc; [done|].
  cbn [Level.total_size]. unfold SortedTable.get_size in *. rewrite Hx.
  destruct (IndexBlock.get_size _) as [size| | |]; [|done..].
  cbn [mbind outcome_bind]. destruct (u64_add _ _); [|done..]. apply IH.
Qed.

Lemma sizes_ok_levels ls ls' : Forall2 same_level ls ls' → Forall sizes_ok ls → Forall sizes_ok ls'.
Proof.
  induction 1 as [|l l' ls ls' Hl _ IH]; [done|]. intros [Hs Hss]%Forall_cons.
  constructor; [by eapply sizes_ok_same|by apply IH].
Qed.

Lemma compact_levels_ok fuel n pos s T stored meta ids M :
  db_ok s T stored meta ids M → Forall sizes_ok s.(DbLogic.levels) → compact_fits fuel T meta →
  ∃ b ls' e' T' meta' ids', DbLogic.compact_levels params fuel n pos false s = Ok (b, with_levels s ls' e') ∧
    (b = false → same_db params s (with_levels s ls' e')) ∧ compacted meta meta' ∧
    db_ok (with_levels s ls' e') T' stored meta' ids' M.
Proof.
  revert pos s ids. induction n as [|n IH]; intros pos s ids Hok Hsz Hfit; cbn [DbLogic.compact_levels].
  { exists false, s.(DbLogic.levels), s.(DbLogic.env), T, meta, ids.
    rewrite <-(with_levels_self s _ eq_refl). split_and!; [done|done|apply compacted_refl|done]. }
  destruct (pos <? _) eqn:E; bool_to_prop.
  - destruct (ok_count _ _ _ _ _ _ _ _ _ Hok) as [Hcnt _].
    destruct (compact_level_ok fuel s T stored meta ids M pos Hok ltac:(lia) Hsz Hfit)
      as (r & ls' & e' & T' & meta' & ids' & Er & Hnl & Hsame & Hcm & Hok'). run_st Er. destruct r; [|by eexists true, ls', e', _, _, _|done].
    destruct (Hsame eq_refl) as (Hs & -> & ->).
    destruct (IH (S pos) _ _ Hok' (sizes_ok_levels _ _ (sd_levels _ _ _ Hs) Hsz) Hfit)
      as (b & ls2 & e2 & T2 & meta2 & ids2 & E2 & Hs2 & Hcm2 & Hok2).
    exists b, ls2, e2, T2, meta2, ids2. split; [exact E2|]. split; [|by split]. intros Hb. etrans; [exact Hs|by apply Hs2].
  - by apply (IH _ _ ids).
Qed.

Lemma do_level_compaction_ok fuel s T stored meta ids M :
  db_ok s T stored meta ids M → Forall sizes_ok s.(DbLogic.levels) → compact_fits fuel T meta →
  ∃ b ls' e' T' meta' ids', DbLogic.do_level_compaction params fuel s = Ok (b, with_levels s ls' e') ∧
    (b = false → same_db params s (with_levels s ls' e')) ∧ compacted meta meta' ∧
    db_ok (with_levels s ls' e') T' stored meta' ids' M.
Proof.
  intros Hok Hsz Hfit. unfold DbLogic.do_level_compaction. rewrite gets_bind. by eapply compact_levels_ok.
Qed.

End compact.
