(* ===== verification/LogicOpen.v ===== *)
(** * Creating a database (src/src/logic.rs, [DbLogic::new])

    A new database satisfies the invariant and stands for the empty map; the
    start modes that do not apply to what is at the path are refused. *)

From stdpp Require Import base list gmap strings sorting.
From Stdlib Require Import Strings.Byte NArith ZArith Lia.
From S2P Require Import Prelude WriteBatch Iterator Memtable Disk Wal WalStatus WalCalls Manifest DataBlock DataBlocks IndexBlock SortedTable TableIterator Iterate DbIterator Level Compaction Logic Sources LogicInv.

Local Open Scope nat_scope.
Local Open Scope lsm_scope.

(** Parameters with which a database can be opened. *)
Record params_ok (params : Params.Params) : Prop := {
  po_path : params.(Params.db_path) ≠ ""%string;
  po_levels : 0 < params.(Params.num_levels);
  po_width : (N.of_nat params.(Params.num_levels) < u32_bound)%N;
  po_files : (128 <= params.(Params.max_open_files))%N;
  po_memtable : 0 < params.(Params.max_memtable_size);
}.

Lemma level_sources_empty n : level_sources (replicate n []) = [].
Proof. unfold level_sources. induction n as [|n IH]; [done|]. simpl. exact IH. Qed.

Section create.
Context `{BloomLaws} `{CompressionLaws} `{LruLaws DataBlock.DataBlock}.
Context (params : Params.Params) (interval : nat) (io : IoMode).
Context (Hp : params_ok params).

Abbreviation n := params.(Params.num_levels).

Lemma block_caches_new m d :
  ∃ cs, DataBlocks.new params = Ok cs ∧ cache_ok params (mkEnv d cs m).
Proof.
  destruct Hp as [_ _ _ Hf _]. unfold DataBlocks.new.
  assert (64 <= params.(Params.max_open_files) / 2)%N as Hd by (apply N.div_le_lower_bound; lia).
  assert (1 <= params.(Params.max_open_files) / 2 / NUM_SHARDS)%N as Hs by (apply N.div_le_lower_bound; unfold NUM_SHARDS; lia).
  rewrite (proj2 (N.eqb_neq _ 0)) by lia. rewrite (proj2 (N.eqb_neq _ 0)) by lia. cbn [negb assert_that]. run_bind.
  eexists. split; [done|]. split; [done|].
  intros i c id b Hi Hv. cbn [env_caches] in Hi. apply lookup_replicate in Hi as [-> _].
  by rewrite cache_view_new, lookup_empty in Hv.
Qed.

Definition new_levels : list Level.Level := (λ index, Level.new params (as_u32 index)) <$> seq 0 n.

Lemma new_levels_lookup i l :
  new_levels !! i = Some l → i < n ∧ l = Level.new params (N.of_nat i).
Proof.
  unfold new_levels. rewrite list_lookup_fmap. intros (j & Hj & ->)%fmap_Some.
  apply lookup_seq in Hj as [-> Hlt]. split; [done|]. f_equal. apply N.mod_small.
  destruct Hp as [_ _ Hw _ _]. simpl. lia.
Qed.

Lemma length_new_levels : length new_levels = n.
Proof. unfold new_levels. by rewrite length_fmap, length_seq. Qed.

Lemma new_level_ids : level_ids new_levels = replicate n [].
Proof.
  apply list_eq. intros i. unfold level_ids. rewrite list_lookup_fmap.
  destruct (new_levels !! i) as [l|] eqn:E.
  - apply new_levels_lookup in E as [Hi ->]. simpl. symmetry. by apply lookup_replicate.
  - apply lookup_ge_None in E. rewrite length_new_levels in E. simpl. symmetry.
    apply lookup_ge_None. by rewrite length_replicate.
Qed.

Lemma concat_empty {A} k : concat (replicate k (@nil A)) = [].
Proof. induction k as [|k IH]; [done|]. exact IH. Qed.

Lemma new_levels_ok d nb next : levels_ok params interval d nb next new_levels (replicate n []).
Proof.
  split.
  - apply Forall2_same_length_lookup. split; [by rewrite length_replicate, length_new_levels|].
    intros i l bss [_ ->]%new_levels_lookup [-> _]%lookup_replicate. constructor.
  - by intros i l [_ ->]%new_levels_lookup.
  - intros l [i [_ ->]%new_levels_lookup]%list_elem_of_lookup. by split; [|constructor].
  - intros i l [_ ->]%new_levels_lookup _ i' j' t1 t2 Hi'. done.
  - rewrite level_sources_empty. constructor.
  - apply Forall_replicate. constructor.
  - rewrite new_level_ids, concat_empty. constructor.
  - rewrite new_level_ids, concat_empty. constructor.
  - apply Forall_forall. intros l [i [_ ->]%new_levels_lookup]%list_elem_of_lookup. constructor.
  - intros l [_ ->]%new_levels_lookup. constructor.
Qed.

Lemma new_create_ok fuel rfuel mode path d :
  DbLogic.start params mode path = Ok (true, d) →
  ∃ s, DbLogic.new params fuel rfuel mode path = Ok s ∧ s.(DbLogic.pending) = None ∧
    s.(DbLogic.imm_memtables) = [] ∧ s.(DbLogic.levels) = new_levels ∧
    s.(DbLogic.memtable) = MemtableRef.wrap (Memtable.new 1) ∧
    db_ok params interval io s (replicate n []) [] (initial_meta params) (replicate n []) ∅.
Proof.
  intros Hs. unfold DbLogic.new. rewrite Hs. run_bind.
  destruct (manifest_new_holds params) as (m & -> & Hm). run_bind.
  pose proof (fresh_idle io d) as Hidle. unfold WalCalls.new. fold (fresh_wal d). set (w := fresh_wal d) in *.
  destruct (block_caches_new m w.(WalStatus.disk)) as (cs & -> & Hc). run_bind.
  pose proof Hp as [_ P2 P3 _ P5]. rewrite (proj2 (Nat.eqb_neq n 0)) by lia. run_bind.
  eexists. do 5 (split; [done|]).
  split; unfold mem_stack, offsets; simpl; try done.
  - repeat constructor; simpl; by intros ? ?%not_elem_of_nil.
  - repeat constructor; simpl.
  - split; [by intros ? ?%not_elem_of_nil|]. done.
  - unfold Memtable.is_full. simpl. rewrite Nat.leb_le. lia.
  - apply new_levels_ok.
  - rewrite level_sources_empty. by intros ? ? ?%not_elem_of_nil.
  - split; [apply length_new_levels|done].
  - fold new_levels. by rewrite new_level_ids.
  - split; [|constructor]. repeat constructor.
  - intros k. unfold db_sources. rewrite level_sources_empty. done.
Qed.

End create.
