(* ===== verification/LogicScan.v ===== *)
(** * Iterating over the database (src/src/logic.rs, [prepare_iter] and
      [prepare_reverse_iter])

    The iterators a scan starts from cover every key of the requested range, and
    the stream over them yields exactly the keys and values of the map the
    database stands for, in order. *)

From stdpp Require Import base list gmap strings sorting.
From Stdlib Require Import Strings.Byte NArith ZArith Lia.
From S2P Require Import Prelude WriteBatch Iterator Memtable Disk Wal WalStatus WalCalls Manifest DataBlock DataBlocks IndexBlock SortedTable TableIterator Iterate DbIterator Level Compaction Logic Sources LogicInv LogicFlush LogicCompact.

Local Open Scope nat_scope.
Local Open Scope lsm_scope.

(** The keys a scan returns: the end the iteration starts at is included. *)
Definition in_bounds (rev : bool) (min_key max_key : option Key) (k : Key) : Prop :=
  if rev then (∀ m, min_key = Some m → m <k k) ∧ (∀ m, max_key = Some m → k <=k m)
  else (∀ m, min_key = Some m → m <=k k) ∧ (∀ m, max_key = Some m → k <k m).

Lemma in_range_bounds (rev : bool) (min_key max_key : option Key) k :
  in_range rev (if rev then max_key else min_key) (if rev then min_key else max_key) None k ↔
    in_bounds rev min_key max_key k.
Proof.
  unfold in_range, passed, beyond, in_bounds, before_b, before_eq_b. destruct rev; simpl;
    destruct min_key as [m|], max_key as [M|]; rewrite ?key_ltb_ge, ?key_leb_gt; naive_solver.
Qed.

(** ** The tables that are skipped *)

Definition kept (min_key max_key : option Key) (t : SortedTable.SortedTable) : bool :=
  negb (match min_key with Some m => key_ltb (tmax t) m | None => false end ||
        match max_key with Some m => key_ltb m (tmin t) | None => false end).

Lemma kept_outside min_key max_key rev t k :
  kept min_key max_key t = false → tmin t <=k k → k <=k tmax t → ¬ in_bounds rev min_key max_key k.
Proof.
  unfold kept. rewrite negb_false_iff, orb_true_iff. intros Hk Hmin Hmax Hb.
  assert ((∀ m, min_key = Some m → m <=k k) ∧ (∀ m, max_key = Some m → k <=k m)) as [B1 B2].
  { destruct rev, Hb as [B1 B2]; split; intros m Hm; specialize (B1 m) || idtac; specialize (B2 m) || idtac;
      try (by apply B1); try (by apply B2); [specialize (B1 Hm)|specialize (B2 Hm)]; korder. }
  destruct Hk as [Hk|Hk]; [destruct min_key as [m|]|destruct max_key as [m|]]; try done;
    apply key_ltb_lt in Hk; [specialize (B1 m eq_refl)|specialize (B2 m eq_refl)]; korder.
Qed.

(** ** Coherence *)

(** In an ordered stack of sources, equal keys with equal numbers are one item. *)
Lemma newest_first_coherent Ls :
  newest_first Ls → Forall (dir_sorted false) Ls → coherent Ls.
Proof.
  intros Hn Hs L1 L2 x y [i Hi]%list_elem_of_lookup [j Hj]%list_elem_of_lookup Hx Hy Hk Hq.
  destruct (Nat.lt_trichotomy i j) as [Hij|[->|Hij]].
  - pose proof (StronglySorted_lookup_lt _ _ _ _ _ _ Hn Hij Hi Hj x y Hx Hy Hk). lia.
  - simplify_eq. f_equal. eapply (dir_sorted_unique false); [by eapply Forall_lookup_1|done..].
  - pose proof (StronglySorted_lookup_lt _ _ _ _ _ _ Hn Hij Hj Hi y x Hy Hx (eq_sym Hk)). lia.
Qed.

(** Two collections of sources with the same items of the range. *)
Definition same_items (P : Key → Prop) (Ls Ls' : list (list Item)) : Prop :=
  ∀ x, P (item_key x) → (∃ L, L ∈ Ls ∧ x ∈ L) ↔ (∃ L, L ∈ Ls' ∧ x ∈ L).

Lemma same_items_newest P Ls Ls' x :
  same_items P Ls Ls' → P (item_key x) → newest Ls x ↔ newest Ls' x.
Proof.
  assert (∀ Ls Ls', same_items P Ls Ls' → P (item_key x) → newest Ls x → newest Ls' x) as Hgo.
  { intros A B Hs Hp [Hin Hmax]. split; [by apply Hs|]. intros L y HL Hy Hk.
    destruct (proj2 (Hs y ltac:(by rewrite Hk))) as (L' & HL' & Hy'); [by exists L|]. by apply (Hmax L'). }
  intros Hs Hp. split; apply Hgo; try done. intros y Hy. symmetry. by apply Hs.
Qed.

Lemma mem_list_items rev m x : x ∈ mem_list rev m ↔ x ∈ mem_list false m.
Proof. by rewrite !elem_of_mem_list. Qed.

Lemma table_list_items rev bs x : x ∈ table_list rev bs ↔ x ∈ table_list false bs.
Proof.
  unfold table_list. rewrite !list_elem_of_fmap. destruct rev; [|done].
  split; intros (e & -> & He); exists e; (split; [done|]); by apply elem_of_reverse.
Qed.

Lemma elem_of_level_sources T L : L ∈ level_sources T ↔ ∃ bs, bs ∈ concat T ∧ L = table_list false bs.
Proof.
  unfold level_sources. induction T as [|bss T IH]; simpl.
  { split; [by intros ?%not_elem_of_nil|by intros (? & ?%not_elem_of_nil & _)]. }
  rewrite elem_of_app, IH, list_elem_of_fmap. setoid_rewrite elem_of_reverse. setoid_rewrite elem_of_app.
  naive_solver.
Qed.

(** The value of an item that is shown. *)
Lemma mem_item_value e v : item_value (mem_item e) = Some v ↔ item_shown (mem_item e) = Some (Some v).
Proof. destruct e as [k [q w|q]]; unfold item_value; simpl; naive_solver. Qed.

Lemma table_item_value e v : item_value (table_item e) = Some v ↔ item_shown (table_item e) = Some (Some v).
Proof. unfold item_value. simpl. destruct (en_type e); naive_solver. Qed.

Section scan.
Context `{BloomLaws} `{CompressionLaws} `{LruLaws DataBlock.DataBlock}.
Context (params : Params.Params) (interval : nat) (io : IoMode).

Abbreviation DbLogic := DbLogic.DbLogic.
Abbreviation db_ok := (db_ok params interval io).
Abbreviation pair_ok d := (λ tb : pair, table_ok params interval d tb.1 tb.2).

(** All tables with their blocks. *)
Lemma all_pairs d nb next ls T :
  levels_ok params interval d nb next ls T →
  ∃ tbs : list pair, concat (Level.tables <$> ls) = tbs.*1 ∧ concat T = tbs.*2 ∧ Forall (pair_ok d) tbs.
Proof.
  intros [Ht _ _ _ _ _ _ _ _ _]. induction Ht as [|l bss ls T Hl _ (tbs & E1 & E2 & Hok)]; [by exists []|].
  exists (zip l.(Level.tables) bss ++ tbs). pose proof (Forall2_length _ _ _ Hl) as Hlen.
  rewrite !fmap_app, fst_zip, snd_zip by lia.
  rewrite fmap_cons. cbn [concat]. rewrite E1, E2. split; [done|]. split; [done|].
  apply Forall_app. split; [|done]. clear -Hl. induction Hl as [|t bs ts bss Ht _ IH]; [constructor|]. by constructor.
Qed.

Abbreviation keep min_key max_key := (filter (λ tb : pair, kept min_key max_key tb.1 = true)).

Lemma open_overlapping_ok rev ts min_key max_key e :
  Forall ranged ts →
  DbLogic.open_overlapping params rev ts min_key max_key e =
    open_tables params rev (filter (λ t, kept min_key max_key t = true) ts) e.
Proof.
  intros Hr. revert e. induction Hr as [|t ts [Hmin Hmax Hle] _ IH]; intros e; [done|].
  cbn [DbLogic.open_overlapping]. rewrite filter_cons.
  assert ((match min_key with Some m => max ← lift (SortedTable.get_max t); mret (key_ltb max m) | None => mret false end) e
    = Ok (match min_key with Some m => key_ltb (tmax t) m | None => false end, e)) as E1.
  { destruct min_key; [|done]. by run_lift Hmax. }
  assert ((match max_key with Some m => min ← lift (SortedTable.get_min t); mret (key_ltb m min) | None => mret false end) e
    = Ok (match max_key with Some m => key_ltb m (tmin t) | None => false end, e)) as E2.
  { destruct max_key; [|done]. by run_lift Hmin. }
  run_st E1. run_st E2. destruct (kept min_key max_key t) eqn:Ek; unfold kept in Ek.
  2: { apply negb_false_iff in Ek. rewrite Ek, decide_False by done. apply IH. }
  apply negb_true_iff in Ek. rewrite Ek, decide_True by done. cbn [open_tables]. unfold mbind, st_bind.
  destruct (TableIterator.new params t rev e) as [[it e1]| | |]; [|done..]. simpl. by rewrite IH.
Qed.

Lemma open_tables_app rev ts1 ts2 e :
  open_tables params rev (ts1 ++ ts2) e =
    (its ← open_tables params rev ts1; rest ← open_tables params rev ts2; mret (its ++ rest)) e.
Proof.
  revert e; induction ts1 as [|t ts1 IH]; intros e; cbn [app open_tables].
  - unfold mbind, st_bind. simpl. by destruct (open_tables params rev ts2 e) as [[its e1]| | |].
  - unfold mbind, st_bind in *. destruct (TableIterator.new params t rev e) as [[it e1]| | |]; [|done..].
    simpl. rewrite IH. destruct (open_tables params rev ts1 e1) as [[its e2]| | |]; [|done..]. simpl.
    by destruct (open_tables params rev ts2 e2) as [[rest e3]| | |].
Qed.

Lemma open_levels_ok rev ls min_key max_key e :
  Forall ranged (concat (Level.tables <$> ls)) →
  DbLogic.open_levels params rev ls min_key max_key e =
    open_tables params rev (filter (λ t, kept min_key max_key t = true) (concat (Level.tables <$> ls))) e.
Proof.
  revert e; induction ls as [|l ls IH]; intros e; [done|]. rewrite fmap_cons. cbn [concat DbLogic.open_levels].
  intros [Hl Hls]%Forall_app. rewrite filter_app, open_tables_app. unfold mbind, st_bind.
  rewrite open_overlapping_ok by done. destruct (open_tables _ _ _ e) as [[its e1]| | |]; [|done..]. simpl.
  by rewrite IH.
Qed.

(** ** The sizes of the sources *)

Lemma length_mem_list rev m : length (mem_list rev m) = length m.(Memtable.entries).
Proof. unfold mem_list. rewrite length_fmap. destruct rev; [apply length_reverse|done]. Qed.

Lemma length_table_list rev bs : length (table_list rev bs) = length (flat bs).
Proof. unfold table_list. rewrite length_fmap. destruct rev; rewrite ?length_reverse; apply length_fmap. Qed.

Lemma sum_level_sources T : sum_list_with length (level_sources T) = sum_list_with (length ∘ flat) (concat T).
Proof.
  unfold level_sources. induction T as [|bss T IH]; [done|]. rewrite fmap_cons. cbn [concat].
  rewrite !sum_list_with_app, IH. f_equal. rewrite sum_fmap, <-(sum_list_with_reverse _ bss).
  apply sum_list_with_ext. intros bs. apply length_table_list.
Qed.

(** The memtables a scan covers. *)
Abbreviation scanned s := (s.(DbLogic.memtable).(MemtableRef.inner) :: s.(DbLogic.imm_memtables).*2).

Lemma scanned_stack s : s.(DbLogic.pending) = None → scanned s ≡ₚ mem_stack s.
Proof. intros Hp. unfold mem_stack. rewrite Hp. simpl. apply Permutation_cons_append. Qed.

Lemma scan_size rev s T (tbs tbs' : list pair) :
  s.(DbLogic.pending) = None → concat T = tbs.*2 → tbs' `sublist_of` tbs →
  sum_list_with length (sources rev (scanned s) tbs'.*2) <= sum_list_with length (db_sources s T).
Proof.
  intros Hp HT Hsub. unfold sources, db_sources. rewrite !sum_list_with_app, sum_level_sources, HT.
  apply Nat.add_le_mono.
  - rewrite !sum_fmap, sum_list_with_reverse, <-(scanned_stack s Hp).
    apply Nat.eq_le_incl, sum_list_with_ext. intros m. unfold compose. by rewrite !length_mem_list.
  - rewrite sum_fmap. rewrite (sum_list_with_ext _ (length ∘ flat)) by (intros bs; apply length_table_list).
    apply sum_submseteq. apply sublist_submseteq, fmap_sublist, Hsub.
Qed.

(** ** The scan *)

Lemma scan_sub rev min_key max_key s T (tbs : list pair) L x :
  s.(DbLogic.pending) = None → concat T = tbs.*2 →
  L ∈ sources rev (scanned s) (keep min_key max_key tbs).*2 → x ∈ L →
  ∃ L', L' ∈ db_sources s T ∧ x ∈ L'.
Proof.
  intros Hp HT HL HxL. unfold db_sources. setoid_rewrite elem_of_app.
  apply elem_of_app in HL as [(m & -> & Hm)%list_elem_of_fmap
    |(bs & -> & (tb & -> & [_ Htb]%list_elem_of_filter)%list_elem_of_fmap)%list_elem_of_fmap].
  - exists (mem_list false m). split; [left|by apply (mem_list_items rev)].
    apply list_elem_of_fmap_2, elem_of_reverse. by rewrite <-(scanned_stack s Hp).
  - exists (table_list false tb.2). split; [right|by apply (table_list_items rev)].
    apply elem_of_level_sources. exists tb.2. split; [|done]. rewrite HT. by apply list_elem_of_fmap_2.
Qed.

Lemma scan_items rev min_key max_key s T (tbs : list pair) :
  s.(DbLogic.pending) = None → concat T = tbs.*2 → Forall (pair_ok s.(DbLogic.env).(env_disk)) tbs →
  same_items (in_bounds rev min_key max_key)
    (sources rev (scanned s) (keep min_key max_key tbs).*2) (db_sources s T).
Proof.
  intros Hp HT Hok x Hx. split; [intros (L & HL & HxL); by eapply scan_sub|].
  unfold sources, db_sources. setoid_rewrite elem_of_app.
  intros (L & [(m & -> & Hm)%list_elem_of_fmap|(bs & Hbs & ->)%elem_of_level_sources] & HxL).
  - rewrite elem_of_reverse in Hm. exists (mem_list rev m). split; [left|by apply mem_list_items].
    apply list_elem_of_fmap_2. by rewrite (scanned_stack s Hp).
  - rewrite HT in Hbs. apply list_elem_of_fmap in Hbs as (tb & -> & Htb).
    exists (table_list rev tb.2). split; [right|by apply table_list_items].
    do 2 apply list_elem_of_fmap_2. apply list_elem_of_filter. split; [|done].
    destruct (kept min_key max_key tb.1) eqn:Ek; [done|]. rewrite Forall_forall in Hok.
    destruct (table_items_range params interval _ tb.1 tb.2 (Hok tb Htb)) as (Hb & _).
    destruct (Hb (table_list false tb.2) x) as [Hlo Hhi]; [set_solver|done|].
    by destruct (kept_outside min_key max_key rev tb.1 (item_key x) Ek Hlo Hhi).
Qed.

Lemma source_item_value s T L x v :
  L ∈ db_sources s T → x ∈ L → item_value x = Some v ↔ item_shown x = Some (Some v).
Proof.
  intros [(m & -> & _)%list_elem_of_fmap|(bs & _ & ->)%elem_of_level_sources]%elem_of_app Hx.
  - apply elem_of_mem_list in Hx as (e & _ & ->). apply mem_item_value.
  - unfold table_list in Hx. apply list_elem_of_fmap in Hx as (e & -> & _). apply table_item_value.
Qed.

Lemma scan_coherent rev min_key max_key s T stored meta ids M (tbs : list pair) :
  db_ok s T stored meta ids M → s.(DbLogic.pending) = None → concat T = tbs.*2 →
  coherent (sources rev (scanned s) (keep min_key max_key tbs).*2).
Proof.
  intros Hok Hp HT L1 L2 x y HL1 HL2 Hx Hy.
  destruct (scan_sub rev min_key max_key s T tbs L1 x Hp HT HL1 Hx) as (L1' & HL1' & Hx').
  destruct (scan_sub rev min_key max_key s T tbs L2 y Hp HT HL2 Hy) as (L2' & HL2' & Hy').
  by apply (newest_first_coherent (db_sources s T) (db_sources_ordered _ _ _ _ _ _ _ _ _ Hok)
    (db_sources_sorted _ _ _ _ _ _ _ _ _ Hok) L1' L2').
Qed.

(** The newest item of a key that is shown with a value is its value in the map. *)
Lemma newest_value s T stored meta ids M k v :
  db_ok s T stored meta ids M →
  (∃ x, newest (db_sources s T) x ∧ item_key x = k ∧ item_shown x = Some (Some v)) ↔ M !! k = Some v.
Proof.
  intros Hok. pose proof (db_sources_ordered _ _ _ _ _ _ _ _ _ Hok) as Hn.
  pose proof (db_sources_sorted _ _ _ _ _ _ _ _ _ Hok) as Hs.
  rewrite <-(ok_holds _ _ _ _ _ _ _ _ _ Hok k). unfold value_of. split.
  - intros (x & Hx & <- & Hv). rewrite (newest_found _ x Hn Hs Hx). simpl.
    destruct Hx as [(L & HL & HxL) _]. by apply (source_item_value s T L).
  - destruct (find_item k _) as [x|] eqn:E; [simpl|done]. intros Hv. exists x.
    pose proof (find_item_newest _ _ _ Hn Hs E) as Hx. apply find_item_in in E as [(L & HL & HxL) Hk].
    split; [done|]. split; [done|]. by apply (source_item_value s T L).
Qed.

Lemma db_scan_map rev min_key max_key s T stored meta ids M n :
  db_ok s T stored meta ids M → s.(DbLogic.pending) = None →
  (∀ a b, min_key = Some a → max_key = Some b → a <k b) →
  sum_list_with length (db_sources s T) < n →
  ∃ mem_iters table_iters s' out e,
    DbLogic.prepare params rev min_key max_key s = Ok ((mem_iters, table_iters, min_key, max_key), s') ∧
    same_db params s s' ∧
    DbIteratorInner.collect (InternalIterator0 := boxed_iterator params) n n n
      (DbIterator.new mem_iters table_iters min_key max_key rev) s'.(DbLogic.env) = Ok (out, e) ∧
    reads params s.(DbLogic.env) e ∧ StronglySorted (before rev) out.*1 ∧
    (∀ k en, (k, en) ∈ out → in_bounds rev min_key max_key k) ∧
    ∀ k v, (∃ en, (k, en) ∈ out ∧ EntryRef.value en = Ok (Some v)) ↔
      M !! k = Some v ∧ in_bounds rev min_key max_key k.
Proof.
  intros Hok Hp Hlt Hn.
  destruct (all_pairs _ _ _ _ _ (ok_levels _ _ _ _ _ _ _ _ _ Hok)) as (tbs & Etabs & ET & Hpairs).
  set (tbs' := keep min_key max_key tbs).
  assert (tbs' `sublist_of` tbs) as Hsub by apply sublist_filter.
  assert (tables_in params interval tbs' s.(DbLogic.env)) as Hin.
  { split; [apply Hok|]. by eapply Forall_sublist. }
  destruct (db_scan_ok params interval rev (if rev then max_key else min_key) (if rev then min_key else max_key)
    (scanned s) tbs' s.(DbLogic.env) n Hin) as (mits & tits & e1 & out & e2 & Em & Et & Ec & Hr & Hout).
  { rewrite (scanned_stack s Hp). apply Hok. }
  { by eapply scan_coherent. }
  { pose proof (scan_size rev s T tbs tbs' Hp ET Hsub). lia. }
  assert (DbLogic.open_levels params rev s.(DbLogic.levels) min_key max_key s.(DbLogic.env) = Ok (tits, e1)) as Et'.
  { rewrite open_levels_ok by (rewrite Etabs; apply Forall_fmap; eapply Forall_impl; [exact Hpairs|];
      intros tb Htb; exact (table_ok_ranged _ _ _ _ _ Htb)). rewrite Etabs, <-Et. f_equal. unfold tbs'.
    clear. induction tbs as [|tb tbs IH]; [done|]. rewrite fmap_cons, !filter_cons. case_decide; [by rewrite fmap_cons, IH|done]. }
  destruct (open_tables_ok params interval rev tbs' tbs' s.(DbLogic.env) Hin) as (its & e1' & Eits & R1 & _); [done|].
  rewrite Et in Eits. injection Eits as <- <-.
  set (s' := with_env s e1).
  exists mits, tits, s', out, e2. split; [|split; [|split; [|split; [done|]]]].
  - unfold DbLogic.prepare.
    assert (match min_key, max_key with
            | Some min_key, Some max_key => assert_that (key_ltb min_key max_key) "assertion failed: min_key < max_key"
            | _, _ => Ok () end = Ok ()) as Ea.
    { destruct min_key as [a|], max_key as [b|]; try done. rewrite (proj2 (key_ltb_lt a b)) by (by apply Hlt). done. }
    run_lift Ea. rewrite !gets_bind. run_lift Em. rewrite gets_bind.
    pose proof (on_env_Ok (DbLogic.open_levels params rev s.(DbLogic.levels) min_key max_key) s _ _ Et') as E'. by run_st E'.
  - by split.
  - rewrite <-Ec. by destruct rev.
  - destruct Hout as (Hs & Hb & Hv). split; [done|]. split; [intros k en Hk; apply in_range_bounds; by eapply Hb|].
    intros k v. specialize (Hv k (Some v)). etrans; [exact Hv|].
    pose proof (scan_items rev min_key max_key s T tbs Hp ET Hpairs) as Hsame.
    rewrite <-(newest_value s T stored meta ids M k v Hok). split.
    + intros (x & Hx & <- & Hr' & Hsh). apply in_range_bounds in Hr'. split; [|done]. exists x.
      split; [|done]. by apply (same_items_newest _ _ _ x Hsame Hr').
    + intros [(x & Hx & <- & Hsh) Hb']. exists x.
      split; [by apply (same_items_newest _ _ _ x Hsame Hb')|]. split; [done|]. split; [|done]. by apply in_range_bounds.
Qed.

End scan.
