(* ===== verification/LogicLog.v ===== *)
(** * The log and the memtables (src/src/logic.rs, src/src/wal/)

    [logged] relates the memtables to the history of writes: the log holds every
    write ever made, the manifest says up to where the writes are in tables, and
    the memtables are what the writes behind that position build.  The database
    operations keep this relation, and replaying the log from the position in
    the manifest builds one memtable that stands for all of them. *)

From stdpp Require Import base list gmap strings sorting.
From Stdlib Require Import Strings.Byte NArith ZArith Lia.
From S2P Require Import Prelude WriteBatch Iterator Memtable Disk Wal WalStatus WalCalls Manifest DataBlock DataBlocks IndexBlock SortedTable TableIterator Iterate DbIterator Level Compaction Logic Sources LogicInv LogicWrite LogicCompact LogicLevels LogicCompactLevel.

Local Open Scope nat_scope.
Local Open Scope lsm_scope.

(** ** Memtables as the result of writes *)

(** From the oldest memtable on: each was built by its writes, and numbers them
    after those of the one before. *)
Fixpoint built (b : N) (ms : list Memtable.Memtable) (opss : list (list WriteOp)) : Prop :=
  match ms, opss with
  | [], [] => True
  | m :: ms', ops :: opss' =>
      (b + N.of_nat (length ops) < u64_bound)%N ∧ Memtable.apply_ops (Memtable.new b) ops = Ok m ∧
      built m.(Memtable.next_seq_number) ms' opss'
  | _, _ => False
  end.

(** Where in the log the writes of each memtable end. *)
Fixpoint ends (pos : nat) (opss : list (list WriteOp)) : list N :=
  match opss with
  | [] => []
  | ops :: opss' =>
      N.of_nat (pos + length (encode_ops ops)) :: ends (pos + length (encode_ops ops)) opss'
  end.

Lemma apply_ops_app m ops1 ops2 :
  Memtable.apply_ops m (ops1 ++ ops2) = (m' ← Memtable.apply_ops m ops1; Memtable.apply_ops m' ops2).
Proof.
  revert m; induction ops1 as [|op ops1 IH]; intros m; [done|]. cbn [app Memtable.apply_ops].
  rewrite bind_assoc. destruct (Memtable.apply_op m op); [|done..]. cbn [mbind outcome_bind]. apply IH.
Qed.

Lemma built_seq b ops m :
  (b + N.of_nat (length ops) < u64_bound)%N → Memtable.apply_ops (Memtable.new b) ops = Ok m →
  m.(Memtable.next_seq_number) = (b + N.of_nat (length ops))%N.
Proof.
  intros Hlt E. destruct (apply_ops_ok (Memtable.new b) ops (memtable_new_wf b) Hlt) as (m' & E' & _ & _ & Hs).
  rewrite E in E'. by injection E' as ->.
Qed.

Lemma built_app b ms1 ms2 opss1 opss2 :
  length ms1 = length opss1 →
  built b (ms1 ++ ms2) (opss1 ++ opss2) ↔ built b ms1 opss1 ∧ built (chain_end b ms1) ms2 opss2.
Proof.
  revert b opss1; induction ms1 as [|m ms1 IH]; intros b [|ops opss1] Hl; try done; simpl; [tauto|].
  rewrite IH by (simpl in Hl; lia). unfold chain_end. simpl. tauto.
Qed.

Lemma built_length b ms opss : built b ms opss → length ms = length opss.
Proof.
  revert b opss; induction ms as [|m ms IH]; intros b [|ops opss]; try done.
  intros (_ & _ & Hb). simpl. f_equal. by eapply IH.
Qed.

Lemma built_total b ms opss :
  built b ms opss → ms ≠ [] → (b + N.of_nat (length (concat opss)) < u64_bound)%N ∧
    chain_end b ms = (b + N.of_nat (length (concat opss)))%N.
Proof.
  revert b opss; induction ms as [|m ms IH]; intros b [|ops opss]; try done.
  intros (Hlt & E & Hb) _. pose proof (built_seq _ _ _ Hlt E) as Hs. cbn [concat]. rewrite length_app.
  unfold chain_end in *. cbn [foldl]. destruct ms as [|m' ms].
  - destruct opss; [|done]. cbn [concat foldl length]. lia.
  - destruct (IH _ _ Hb ltac:(done)) as [Hlt' Hce]. rewrite Hs in *. lia.
Qed.

Lemma ends_app pos opss1 opss2 :
  ends pos (opss1 ++ opss2) = ends pos opss1 ++ ends (pos + length (encode_ops (concat opss1))) opss2.
Proof.
  revert pos; induction opss1 as [|ops opss1 IH]; intros pos; [by rewrite Nat.add_0_r|].
  cbn [app ends concat]. rewrite IH, encode_ops_app, length_app, Nat.add_assoc. done.
Qed.

(** ** Replaying the writes *)

(** Any sources hold a map. *)
Lemma sources_hold Ls : ∃ M : gmap Key Value, holds Ls M.
Proof.
  pose (keys := item_key <$> concat Ls).
  exists (foldr (λ k M, partial_alter (λ _, value_of Ls k) k M) ∅ keys). intros k.
  assert (∀ ks : list Key, (foldr (λ k M, partial_alter (λ _, value_of Ls k) k M) ∅ ks : gmap Key Value) !! k
    = if decide (k ∈ ks) then value_of Ls k else None) as ->.
  { induction ks as [|k' ks IH]; [done|]. cbn [foldr]. destruct (decide (k' = k)) as [->|Hne].
    - rewrite lookup_partial_alter_eq, decide_True by set_solver. done.
    - rewrite lookup_partial_alter_ne, IH by done.
      destruct (decide (k ∈ ks)); [rewrite decide_True by set_solver|rewrite decide_False by set_solver]; done. }
  case_decide as Hk; [done|]. unfold value_of. destruct (find_item k Ls) as [x|] eqn:E; [|done].
  destruct Hk. apply find_item_in in E as [(L & HL & Hx) <-]. apply list_elem_of_fmap_2.
  clear -HL Hx. induction Ls as [|L' Ls IH]; [by apply not_elem_of_nil in HL|].
  simpl. apply elem_of_app. apply elem_of_cons in HL as [->|HL]; [by left|right; by apply IH].
Qed.

Lemma fresh_on_top b rest M : holds rest M → ∀ k, value_of (mem_list false (Memtable.new b) :: rest) k = M !! k.
Proof. intros Hr k. by rewrite <-(Hr k). Qed.

(** The memtables on top of older sources hold the writes on top of the map. *)
Lemma built_holds b ms opss rest M :
  built b ms opss → holds rest M →
  holds ((mem_list false <$> reverse ms) ++ rest) (write_all M (concat opss)).
Proof.
  revert b opss rest M; induction ms as [|m ms IH]; intros b [|ops opss] rest M; try done.
  intros (Hlt & E & Hb) Hr. rewrite reverse_cons, fmap_app, <-app_assoc. cbn [concat].
  unfold write_all. rewrite foldl_app. apply (IH _ _ _ _ Hb).
  destruct (batch_applied (Memtable.new b) ops b rest M (memtable_new_wf b) (chain_new b)
    (fresh_on_top b rest M Hr) Hlt) as (m' & E' & _ & _ & Hv & _).
  rewrite E in E'. injection E' as <-. exact Hv.
Qed.

(** One memtable for all of the writes. *)
Lemma replayed b ms opss rest M :
  built b ms opss → ms ≠ [] → holds ((mem_list false <$> reverse ms) ++ rest) M →
  ∃ m, Memtable.apply_ops (Memtable.new b) (concat opss) = Ok m ∧ memtable_wf m ∧ mem_chain b [m] ∧
    (m.(Memtable.next_seq_number) < u64_bound)%N ∧
    m.(Memtable.next_seq_number) = (b + N.of_nat (length (concat opss)))%N ∧
    holds (mem_list false m :: rest) M.
Proof.
  intros Hb Hne Hv. destruct (sources_hold rest) as [M0 HM0]. destruct (built_total _ _ _ Hb Hne) as [Hlt _].
  destruct (batch_applied (Memtable.new b) (concat opss) b rest M0 (memtable_new_wf b) (chain_new b)
    (fresh_on_top b rest M0 HM0) Hlt) as (m & E & Hwf & Hc & Hm & Hw).
  exists m. split_and!; try done; [by apply built_seq|]. intros k. rewrite (Hm k), <-(Hv k). symmetry.
  exact (built_holds _ _ _ _ _ Hb HM0 k).
Qed.

(** ** The history of the database *)

Section logged.
Context `{Bloom} `{Compression} `{LruLaws DataBlock.DataBlock}.
Context (params : Params.Params).

Abbreviation DbLogic := DbLogic.DbLogic.

(** The writes so far: those that are in tables, those of the immutable
    memtables (and of the writer that waits), those of the current one. *)
Record logged (meta : DatabaseMetadata.DatabaseMetadata) (s : DbLogic) (history flushed : list WriteOp)
    (olds : list (list WriteOp)) (cur : list WriteOp) : Prop := {
  lg_history : history = flushed ++ concat olds ++ cur;
  lg_start : meta.(DatabaseMetadata.log_offset) = N.of_nat (length (encode_ops flushed));
  lg_built : built meta.(DatabaseMetadata.seq_number_offset) (mem_stack s) (olds ++ [cur]);
  lg_ends : offsets s = ends (length (encode_ops flushed)) olds;
  lg_levels : meta.(DatabaseMetadata.num_levels) = N.of_nat params.(Params.num_levels);
}.

(** Operations that keep the memtables and the positions. *)
Lemma logged_same meta meta' s s' h fl olds cur :
  mem_stack s' = mem_stack s → offsets s' = offsets s →
  meta'.(DatabaseMetadata.seq_number_offset) = meta.(DatabaseMetadata.seq_number_offset) →
  meta'.(DatabaseMetadata.log_offset) = meta.(DatabaseMetadata.log_offset) →
  meta'.(DatabaseMetadata.num_levels) = meta.(DatabaseMetadata.num_levels) →
  logged meta s h fl olds cur → logged meta' s' h fl olds cur.
Proof. intros Hm Ho E1 E2 E3 [L1 L2 L3 L4 L5]. split; congruence. Qed.

(** The memtables before the current one. *)
Lemma mem_stack_split s :
  mem_stack s = (s.(DbLogic.imm_memtables).*2 ++ (option_list s.(DbLogic.pending)).*2) ++
    [s.(DbLogic.memtable).(MemtableRef.inner)].
Proof. unfold mem_stack. by rewrite app_assoc. Qed.

Lemma built_stack b s olds cur :
  built b (mem_stack s) (olds ++ [cur]) ↔
  let ms := s.(DbLogic.imm_memtables).*2 ++ (option_list s.(DbLogic.pending)).*2 in
  built b ms olds ∧ (chain_end b ms + N.of_nat (length cur) < u64_bound)%N ∧
  Memtable.apply_ops (Memtable.new (chain_end b ms)) cur = Ok s.(DbLogic.memtable).(MemtableRef.inner).
Proof.
  rewrite mem_stack_split. simpl.
  set (ms := s.(DbLogic.imm_memtables).*2 ++ (option_list s.(DbLogic.pending)).*2). split.
  - intros Hb. pose proof (built_length _ _ _ Hb) as Hl. rewrite !length_app in Hl. simpl in Hl.
    apply built_app in Hb as [? (? & ? & _)]; [done|lia].
  - intros (Hb & ? & ?). apply built_app; [by eapply built_length|]. by repeat split.
Qed.

Lemma hand_over_stack s w off m :
  s.(DbLogic.pending) = None →
  mem_stack (hand_over (with_wal s w) off m) = (s.(DbLogic.imm_memtables).*2 ++ [m]) ++ [Memtable.new m.(Memtable.next_seq_number)] ∧
  offsets (hand_over (with_wal s w) off m) = s.(DbLogic.imm_memtables).*1 ++ [off].
Proof.
  intros Hp. unfold hand_over, mem_stack, offsets. simpl.
  destruct (DbLogic.imm_memtables s) as [|x imms]; simpl; [done|]. rewrite <-!app_assoc. by split.
Qed.

Lemma chain_end_snoc b ms m : chain_end b (ms ++ [m]) = m.(Memtable.next_seq_number).
Proof. unfold chain_end. by rewrite foldl_snoc. Qed.

(** A write adds its batch to the writes of the current memtable. *)
Lemma wrote_logged meta s ops h fl olds cur b s' :
  s.(DbLogic.pending) = None → logged meta s h fl olds cur →
  (s.(DbLogic.memtable).(MemtableRef.inner).(Memtable.next_seq_number) + N.of_nat (length ops) < u64_bound)%N →
  wrote params s ops (N.of_nat (length (encode_ops (h ++ ops)))) b s' →
  ∃ olds' cur', logged meta s' (h ++ ops) fl olds' cur'.
Proof.
  intros Hp [L1 L2 L3 L4 L5] Hlt (w & m & E & _ & _ & ->).
  apply built_stack in L3. rewrite Hp in L3. cbn [option_list fmap list_fmap] in L3. rewrite app_nil_r in L3.
  unfold offsets in L4. rewrite Hp in L4. simpl in L4. rewrite app_nil_r in L4.
  destruct L3 as (Hb & Hn & Ec). set (c := chain_end _ _) in *.
  pose proof (built_seq _ _ _ Hn Ec) as Hs.
  assert (Memtable.apply_ops (Memtable.new c) (cur ++ ops) = Ok m) as Em by (by rewrite apply_ops_app, Ec).
  assert (c + N.of_nat (length (cur ++ ops)) < u64_bound)%N as Hn' by (rewrite length_app; lia).
  assert (h ++ ops = fl ++ concat olds ++ cur ++ ops) as Hh by (by rewrite L1, <-!app_assoc).
  destruct b.
  - destruct (hand_over_stack s w (N.of_nat (length (encode_ops (h ++ ops)))) m Hp) as [Hst Hof].
    exists (olds ++ [cur ++ ops]), []. split; [|done| | |done].
    + rewrite concat_app. simpl. by rewrite !app_nil_r.
    + rewrite Hst. apply built_app; [rewrite !length_app; simpl; f_equal; by eapply built_length|].
      pose proof (built_seq _ _ _ Hn' Em) as Hsm. split; [apply built_app; [by eapply built_length|by repeat split]|].
      rewrite chain_end_snoc. simpl. split; [lia|done].
    + rewrite Hof, ends_app, <-L4. cbn [ends]. do 2 f_equal.
      rewrite Hh, !encode_ops_app, !length_app. lia.
  - exists olds, (cur ++ ops). split; [done|done| | |done].
    + apply built_stack. simpl. rewrite app_nil_r. split; [done|]. by split.
    + unfold offsets. simpl. by rewrite app_nil_r.
Qed.

(** Compacting a memtable moves its writes to the tables. *)
Lemma flushed_logged meta meta' s s' h fl olds cur off mem rest :
  logged meta s h fl olds cur → s.(DbLogic.imm_memtables) = (off, mem) :: rest →
  s'.(DbLogic.imm_memtables) = rest → s'.(DbLogic.pending) = s.(DbLogic.pending) →
  s'.(DbLogic.memtable) = s.(DbLogic.memtable) →
  meta'.(DatabaseMetadata.seq_number_offset) = mem.(Memtable.next_seq_number) →
  meta'.(DatabaseMetadata.log_offset) = off →
  meta'.(DatabaseMetadata.num_levels) = meta.(DatabaseMetadata.num_levels) →
  ∃ fl' olds', logged meta' s' h fl' olds' cur.
Proof.
  intros [L1 L2 L3 L4 L5] Himm Himm' Hp Hm Hseq Hoff Hlv.
  unfold mem_stack in L3. unfold offsets in L4. rewrite Himm in L3, L4. cbn [fmap list_fmap app] in L3, L4.
  destruct olds as [|ops olds]; [done|]. destruct L3 as (Hn & E & Hb).
  cbn [ends] in L4. injection L4 as Hend L4. exists (fl ++ ops), olds. split.
  - rewrite L1. simpl. by rewrite <-!app_assoc.
  - rewrite Hoff, encode_ops_app, length_app. exact Hend.
  - rewrite Hseq. unfold mem_stack. by rewrite Himm', Hp, Hm.
  - unfold offsets. rewrite Himm', Hp, encode_ops_app, length_app. exact L4.
  - congruence.
Qed.

End logged.
