(* ===== verification/LogicReopen.v ===== *)
(** * Opening an existing database (src/src/logic.rs, [DbLogic::new])

    What a database leaves on disk is enough to continue it: the manifest lists
    the tables, the tables are loaded from their index files, and the log is
    replayed into one memtable.  The new state satisfies the invariant and stands
    for the same map. *)

From stdpp Require Import base list gmap strings sorting.
From Stdlib Require Import Strings.Byte NArith ZArith Lia.
From S2P Require Import Prelude WriteBatch Iterator Memtable Disk Wal WalStatus WalCalls Manifest DataBlock DataBlocks IndexBlock SortedTable TableIterator Iterate DbIterator Level Compaction Logic Sources LogicInv LogicWrite LogicFlush LogicCompact LogicLevels LogicOpen LogicLog.

Local Open Scope nat_scope.
Local Open Scope lsm_scope.

(** ** The log *)

(** Opening the log replays the writes behind the offset; what is written next
    follows them (with positional writes). *)
Lemma wal_open_ok d flushed ops m0 m fuel rfuel :
  let L := encode_ops (flushed ++ ops) in
  let start := length (encode_ops flushed) in
  log_on_disk d (start / PAGE_SIZE) L → Forall readable ops → length L mod PAGE_SIZE ≠ 0 →
  Memtable.apply_ops m0 ops = Ok m → length ops < fuel → length L <= rfuel →
  ∃ w, WalCalls.open fuel rfuel d (N.of_nat start) m0
      = Ok (w, WalReader.mkResult (length L) (length ops), m) ∧
    idle AsyncIo w L ∧ same_other_files d w.(WalStatus.disk) ∧
    w.(WalStatus.status).(LogStatus.offset_pos) = start.
Proof.
  intros L start Hd Hops Hmod Hm Hf Hrf. unfold WalCalls.open. rewrite Nat2N.id.
  assert (L = encode_ops flushed ++ encode_ops ops) as HL by apply encode_ops_app.
  assert (start <= length L) as Hle by (rewrite HL; unfold start; len).
  destruct (reader_new_at d _ L start Hd ltac:(reflexivity) Hle) as (r & -> & Hr). run_bind.
  replace fuel with (length ops + S (fuel - length ops - 1)) by lia.
  destruct (run_ops d _ L Hd rfuel Hrf (S (fuel - length ops - 1)) r _ ops m0 m 0 Hr)
    as (r1 & Hr1 & ->); [rewrite HL; apply next_bytes_suffix|done|done|].
  replace (start + length (encode_ops ops)) with (length L) in Hr1 by (rewrite HL; unfold start; len).
  destruct (run_end d _ L Hd rfuel Hrf (fuel - length ops - 1) r1 m (0 + length ops) Hr1 Hmod) as (r2 & ->).
  run_bind. cbn [WalReader.new_position].
  destruct (continue_from_at AsyncIo d _ L Hd) as (d' & wr & -> & Hw & Ho); [pages|by left|]. run_bind.
  eexists. split; [done|]. split; [|done]. split; try done.
  apply initial_inv. by exists start.
Qed.

(** ** The files of the manifest *)

Lemma level_files_other d idx ls f :
  (∀ i, f ≠ LevelFile i) → level_files d idx ls !! f = d !! f.
Proof.
  intros Hf. revert idx; induction ls as [|l ls IH]; intros idx; [done|]. cbn [level_files].
  rewrite lookup_insert_ne by (by intros <-; eapply Hf). apply IH.
Qed.

Lemma mapped_files_other m d f :
  f ≠ ManifestFile → (∀ i, f ≠ LevelFile i) → mapped_files m d !! f = d !! f.
Proof. intros H1' H2'. unfold mapped_files. rewrite lookup_insert_ne by done. by apply level_files_other. Qed.

Lemma mapped_log m d lo L : log_on_disk d lo L → log_on_disk (mapped_files m d) lo L.
Proof. intros Hd i H1' H2'. rewrite mapped_files_other by done. by apply Hd. Qed.

Lemma get_table_ids_all m meta ids : manifest_holds m meta ids → Manifest.get_table_ids m = Ok ids.
Proof.
  intros [_ _ Hls]. unfold Manifest.get_table_ids.
  induction Hls as [|l ids' ls idss Hl _ IH]; cbn [Manifest.level_ids]; [done|].
  rewrite (get_table_ids_holds _ _ Hl). run_bind. rewrite IH. done.
Qed.

(** ** Tables in the order of the manifest *)

(** The manifest lists the tables of a level by identifier. *)
Definition reordered (tbs tbs' : list pair) : Prop :=
  tbs' ≡ₚ tbs ∧ (StronglySorted N.lt (tid <$> tbs.*1) → tbs' = tbs).

(** The blocks and the identifiers of the tables of all levels. *)
Definition blocks_of (P : list (list pair)) : list (list Blocks) := (λ tbs : list pair, tbs.*2) <$> P.

Definition ids_of (P : list (list pair)) : list (list N) := (λ tbs : list pair, tid <$> tbs.*1) <$> P.

Lemma fst_ids (tbs : list pair) : tid <$> tbs.*1 = (λ tb : pair, tid tb.1) <$> tbs.
Proof. by rewrite <-list_fmap_compose. Qed.

Lemma same_sorted (l1 l2 : list N) :
  StronglySorted N.lt l1 → StronglySorted N.lt l2 → l1 ≡ₚ l2 → l1 = l2.
Proof.
  intros H1' H2' Hp. apply (StronglySorted_unique_strong N.lt); [|done..]. intros x1 x2 _ _ ? ?. lia.
Qed.

Lemma sorted_NoDup (l : list N) : StronglySorted N.lt l → NoDup l.
Proof.
  induction 1 as [|x l _ IH Hx]; constructor; [|done]. intros Hin. rewrite Forall_forall in Hx.
  specialize (Hx x Hin). lia.
Qed.

Lemma level_reordered (tbs : list pair) (idl : list N) :
  StronglySorted N.lt idl → NoDup (tid <$> tbs.*1) → (list_to_set idl : gset N) = list_to_set (tid <$> tbs.*1) →
  ∃ tbs', reordered tbs tbs' ∧ tid <$> tbs'.*1 = idl.
Proof.
  intros Hs Hnd Heq. assert (idl ≡ₚ tid <$> tbs.*1) as Hp.
  { apply NoDup_Permutation; [by apply sorted_NoDup|done|]. intros x.
    by rewrite <-(elem_of_list_to_set (C := gset N)), Heq, elem_of_list_to_set. }
  destruct (decide (tid <$> tbs.*1 = idl)) as [<-|Hne]; [by exists tbs|].
  rewrite fst_ids in Hp. symmetry in Hp. destruct (Permutation.Permutation_map_inv _ _ (Permutation_sym Hp)) as (tbs' & -> & Hp').
  exists tbs'. split; [|apply fst_ids]. split; [by symmetry|]. intros Hst. destruct Hne.
  apply same_sorted; [done|done|]. rewrite fst_ids. exact Hp.
Qed.

(** All levels. *)
Lemma levels_reordered (P : list (list pair)) (ids : list (list N)) :
  Forall (StronglySorted N.lt) ids → Forall (λ tbs : list pair, NoDup (tid <$> tbs.*1)) P →
  id_sets ids = id_sets (ids_of P) →
  ∃ P', Forall2 reordered P P' ∧ ids_of P' = ids.
Proof.
  intros Hs Hnd. revert ids Hs. induction Hnd as [|tbs P Htbs _ IH]; intros ids Hs Heq.
  - destruct ids; [by exists []|done].
  - destruct Hs as [|idl ids Hidl Hs]; [done|]. unfold id_sets, ids_of in *. rewrite !fmap_cons in Heq. injection Heq as E1 E2.
    destruct (level_reordered tbs idl Hidl Htbs E1) as (tbs' & Hr & <-). destruct (IH ids Hs E2) as (P' & HP & <-).
    exists (tbs' :: P'). split; [by constructor|done].
Qed.

Lemma reordered_concat P P' : Forall2 reordered P P' → concat (ids_of P') ≡ₚ concat (ids_of P).
Proof.
  induction 1 as [|tbs tbs' P P' [Hp _] _ IH]; [done|]. unfold ids_of in *. rewrite !fmap_cons.
  cbn [concat]. apply Permutation_app; [by rewrite Hp|exact IH].
Qed.

Lemma reordered_blocks (Q : Blocks → Prop) P P' :
  Forall2 reordered P P' → Forall (λ tbs : list pair, Forall Q tbs.*2) P →
  Forall (λ tbs : list pair, Forall Q tbs.*2) P'.
Proof.
  induction 1 as [|tbs tbs' P P' [Hp _] _ IH]; [done|]. intros [Hb HP]%Forall_cons.
  constructor; [by rewrite Hp|by apply IH].
Qed.

(** ** The sources *)

Lemma reordered_elem P P' :
  Forall2 reordered P P' → ∀ L, L ∈ level_sources (blocks_of P') ↔ L ∈ level_sources (blocks_of P).
Proof.
  intros HP L. induction HP as [|tbs tbs' P P' [Hp _] _ IH]; [done|].
  unfold blocks_of in *. rewrite !fmap_cons, !level_sources_cons, !elem_of_app, IH, !elem_of_srcs. by setoid_rewrite Hp.
Qed.

Lemma reordered_order P P' :
  Forall2 reordered P P' → Forall (λ tbs' : list pair, newest_first (srcs tbs')) P' →
  newest_first (level_sources (blocks_of P)) → newest_first (level_sources (blocks_of P')).
Proof.
  intros HP. induction HP as [|tbs tbs' P P' [Hp Hs] HP IH]; intros Hn Ho; [done|].
  apply Forall_cons in Hn as [Hn1 Hn]. unfold blocks_of in *. rewrite fmap_cons, level_sources_cons in Ho |- *.
  apply newest_first_app in Ho as (Hx & _ & Ho). apply newest_first_app. split_and!; [|done|by apply IH].
  intros L1 L2 HL1 HL2. apply Hx; [|by apply (reordered_elem _ _ HP)].
  rewrite elem_of_srcs in HL1 |- *. by setoid_rewrite <-Hp.
Qed.

Lemma pairwise_disjoint_perm ts ts' : ts ≡ₚ ts' → pairwise_disjoint ts → pairwise_disjoint ts'.
Proof.
  induction 1 as [|t ts ts' Hp IH|t1 t2 ts|]; intros Hd; [done| | |by auto].
  - apply pairwise_disjoint_cons in Hd as [Ht Hd]. apply pairwise_disjoint_cons. split; [|by apply IH].
    intros t' Ht'. apply Ht. by rewrite Hp.
  - apply pairwise_disjoint_cons in Hd as [Ht1 [Ht2 Hd]%pairwise_disjoint_cons].
    destruct (Ht1 t1) as [D1 D2]; [set_solver|]. apply pairwise_disjoint_cons. split.
    + intros t' [->|Ht']%elem_of_cons; [done|by apply Ht2].
    + apply pairwise_disjoint_cons. split; [|done]. intros t' Ht'. apply Ht1. set_solver.
Qed.

(** ** Loading the tables *)

Section reopen.
Context `{BloomLaws} `{CompressionLaws} `{LruLaws DataBlock.DataBlock}.
Context (params : Params.Params) (interval : nat).

Abbreviation DbLogic := DbLogic.DbLogic.
Abbreviation pair_ok d := (λ tb : pair, table_ok params interval d tb.1 tb.2).

(** The table after it was loaded again. *)
Definition reloaded (t t' : SortedTable.SortedTable) : Prop :=
  same_table t t' ∧ t'.(SortedTable.compaction_flag) = false.

Lemma load_ok e t :
  reloads params e.(env_disk) t →
  ∃ t', SortedTable.load params (tid t) e = Ok (t', e) ∧ reloaded t t'.
Proof.
  intros [El [z Ez]]. eexists. unfold SortedTable.load. rewrite El. run_bind. rewrite Ez. run_bind.
  split; [done|]. by repeat split.
Qed.

Lemma load_tables_ok e ts levels i l :
  levels !! i = Some l → Forall (reloads params e.(env_disk)) ts →
  ∃ ts', Forall2 reloaded ts ts' ∧
    DbLogic.load_tables params levels i (tid <$> ts) e
      = Ok (<[i := Level.set_tables l (l.(Level.tables) ++ ts')]> levels, e).
Proof.
  intros Hl Hts. revert levels l Hl. induction Hts as [|t ts Ht _ IH]; intros levels l Hl.
  { exists []. split; [constructor|]. rewrite app_nil_r, set_tables_id, list_insert_id by done. done. }
  destruct (load_ok e t Ht) as (t' & Et & Hr).
  destruct (IH (<[i := Level.set_tables l (l.(Level.tables) ++ [t'])]> levels)
    (Level.set_tables l (l.(Level.tables) ++ [t']))) as (ts' & Hts' & E).
  { apply list_lookup_insert_eq. by eapply lookup_lt_Some. }
  exists (t' :: ts'). split; [by constructor|]. rewrite fmap_cons. cbn [DbLogic.load_tables].
  assert (expect (levels !! i) "index out of bounds" = Ok l) as E0 by (by rewrite Hl). run_lift E0.
  assert (Level.load_table params l (tid t) e = Ok (Level.set_tables l (l.(Level.tables) ++ [t']), e)) as E1.
  { unfold Level.load_table. run_st Et. done. }
  run_st E1. rewrite E, list_insert_insert_eq. simpl. by rewrite <-app_assoc.
Qed.

(** The levels from position [length pre] on. *)
Lemma load_levels_ok e tss pre rest :
  length rest = length tss → Forall (λ l, l.(Level.tables) = []) rest →
  Forall (Forall (reloads params e.(env_disk))) tss →
  ∃ tss', Forall2 (Forall2 reloaded) tss tss' ∧
    DbLogic.load_levels params (pre ++ rest) (length pre) ((λ ts : list SortedTable.SortedTable, tid <$> ts) <$> tss) e
      = Ok (pre ++ zip_with Level.set_tables rest tss', e).
Proof.
  intros Hlen Hrest Htss. revert pre rest Hlen Hrest.
  induction Htss as [|ts tss Hts _ IH]; intros pre [|l rest] Hlen Hrest; try done.
  { exists []. by split; [constructor|]. }
  apply Forall_cons in Hrest as [Hl Hrest].
  destruct (load_tables_ok e ts (pre ++ l :: rest) (length pre) l (lookup_app_mid _ _ _) Hts) as (ts' & Hts' & E).
  rewrite insert_app_mid, Hl in E. cbn [app] in E.
  destruct (IH (pre ++ [Level.set_tables l ts']) rest) as (tss' & Htss' & E'); [by injection Hlen|done|].
  rewrite length_app, Nat.add_comm, <-app_assoc in E'. cbn [length Nat.add app] in E'.
  exists (ts' :: tss'). split; [by constructor|]. rewrite fmap_cons. cbn [DbLogic.load_levels]. run_st E.
  rewrite E', <-app_assoc. done.
Qed.

(** ** The levels after loading *)

Section levels.
Context (d d' : Disk) (nb next : N) (ls ls' : list Level.Level) (T : list (list Blocks)) (P P' : list (list pair)).
Context (ids : list (list N)) (tss' : list (list SortedTable.SortedTable)).
Context (Hok : levels_ok params interval d' nb next ls T).
Context (HP : Level.tables <$> ls = (λ tbs : list pair, tbs.*1) <$> P) (HT : T = blocks_of P).
Context (Hpairs : Forall (Forall (pair_ok d')) P).
Context (Hre : Forall2 reordered P P') (Hids : ids_of P' = ids).
Context (Htss : Forall2 (Forall2 reloaded) ((λ tbs : list pair, tbs.*1) <$> P') tss').
Context (Hls' : ls' = zip_with Level.set_tables (new_levels params) tss').
Context (Hcount : length ls = params.(Params.num_levels)) (Hpar : params_ok params).

Lemma reopened_lookup i l' :
  ls' !! i = Some l' →
  ∃ l tbs tbs', ls !! i = Some l ∧ l.(Level.tables) = tbs.*1 ∧ P' !! i = Some tbs' ∧ reordered tbs tbs' ∧
    Forall (pair_ok d') tbs' ∧ Forall2 reloaded tbs'.*1 l'.(Level.tables) ∧
    l'.(Level.index) = N.of_nat i ∧ l'.(Level.table_placeholders) = [].
Proof.
  rewrite Hls'. intros (l0 & ts' & -> & Hl0 & Hts')%lookup_zip_with_Some.
  apply (new_levels_lookup params Hpar) in Hl0 as [_ ->].
  destruct (Forall2_lookup_r _ _ _ _ _ Htss Hts') as (ts & Hts & Hr).
  rewrite list_lookup_fmap in Hts. apply fmap_Some in Hts as (tbs' & Hi & ->).
  destruct (Forall2_lookup_r _ _ _ _ _ Hre Hi) as (tbs & Htbs & Ho).
  assert ((Level.tables <$> ls) !! i = Some tbs.*1) as Hl by (by rewrite HP, list_lookup_fmap, Htbs).
  rewrite list_lookup_fmap in Hl. apply fmap_Some in Hl as (l & Hl & Heq).
  exists l, tbs, tbs'. split_and!; try done. destruct Ho as [Hp _]. rewrite Hp.
  exact (Forall_lookup_1 _ _ _ _ Hpairs Htbs).
Qed.

Lemma length_reopened : length ls' = params.(Params.num_levels) ∧ length P' = params.(Params.num_levels).
Proof.
  assert (length P' = params.(Params.num_levels)) as Hl.
  { rewrite <-(Forall2_length _ _ _ Hre), <-Hcount. apply (f_equal length) in HP. by rewrite !length_fmap in HP. }
  split; [|done]. rewrite Hls', length_zip_with, (length_new_levels params).
  apply Forall2_length in Htss. rewrite length_fmap in Htss. lia.
Qed.

Lemma reloaded_ids ts ts' : Forall2 reloaded ts ts' → tid <$> ts' = tid <$> ts.
Proof. induction 1 as [|t t' ts ts' [[Hi _] _] _ IH]; [done|]. by rewrite !fmap_cons, Hi, IH. Qed.

Lemma reopened_ids : level_ids ls' = ids.
Proof.
  rewrite <-Hids. apply list_eq. intros i. unfold level_ids, ids_of. rewrite !list_lookup_fmap.
  destruct (ls' !! i) as [l'|] eqn:E.
  - destruct (reopened_lookup i l' E) as (l & tbs & tbs' & _ & _ & Hi & _ & _ & Hr & _).
    rewrite Hi. simpl. by rewrite (reloaded_ids _ _ Hr).
  - destruct length_reopened as [L1 L2]. apply lookup_ge_None in E. simpl. symmetry.
    rewrite lookup_ge_None_2 by lia. done.
Qed.

Lemma reordered_ids : concat ids ≡ₚ concat (level_ids ls).
Proof.
  assert (level_ids ls = ids_of P) as ->.
  { transitivity ((λ ts : list SortedTable.SortedTable, tid <$> ts) <$> (Level.tables <$> ls));
      [by rewrite <-list_fmap_compose|]. by rewrite HP, <-list_fmap_compose. }
  rewrite <-Hids. by apply reordered_concat.
Qed.

Lemma reopened_order : Forall (λ tbs' : list pair, newest_first (srcs tbs')) P'.
Proof.
  destruct Hok as [O1 O2 O3 O4 O5 O6 O7 O8 O9 O10].
  apply Forall_lookup. intros i tbs' Hi.
  destruct (Forall2_lookup_r _ _ _ _ _ Hre Hi) as (tbs & Htbs & [Hp Hs]).
  assert ((Level.tables <$> ls) !! i = Some tbs.*1) as Hl by (by rewrite HP, list_lookup_fmap, Htbs).
  rewrite list_lookup_fmap in Hl. apply fmap_Some in Hl as (l & Hl & Heq).
  destruct i as [|i].
  - rewrite (Hs ltac:(rewrite Heq; by apply O10)). rewrite HT in O5. unfold blocks_of in O5.
    destruct P as [|tbs0 P0]; [done|]. injection Htbs as ->. rewrite fmap_cons, level_sources_cons in O5.
    by apply newest_first_app in O5 as (_ & ? & _).
  - pose proof (O4 (S i) l Hl ltac:(lia)) as Hd. rewrite <-Heq in Hd.
    assert (pairwise_disjoint (reverse tbs').*1) as Hd'.
    { eapply pairwise_disjoint_perm; [|exact Hd]. by rewrite reverse_Permutation, Hp. }
    assert (Forall (pair_ok d') (reverse tbs')) as Hall.
    { rewrite reverse_Permutation, Hp. exact (Forall_lookup_1 _ _ _ _ Hpairs Htbs). }
    unfold srcs. rewrite <-fmap_reverse. clear -Hd' Hall. revert Hd' Hall. generalize (reverse tbs').
    induction l as [|tb l IH]; intros Hd Hall; [constructor|]. apply Forall_cons in Hall as [Htb Hall].
    rewrite fmap_cons in Hd. apply pairwise_disjoint_cons in Hd as [Ht Hd]. rewrite !fmap_cons.
    constructor; [by apply IH|]. rewrite Forall_forall. intros L (bs & -> & (tb2 & -> & Htb2)%list_elem_of_fmap)%list_elem_of_fmap.
    intros x y Hx Hy Hk. destruct (disjoint_keys params interval d' tb2 tb x y); [|done| |done|done|done].
    + rewrite Forall_forall in Hall. by apply Hall.
    + destruct (Ht tb2.1) as [_ Hdt]; [by apply list_elem_of_fmap_2|]. exact Hdt.
Qed.

Lemma reopened_tables d0 (tbs' : list pair) ts' :
  Forall (pair_ok d0) tbs' → Forall2 reloaded tbs'.*1 ts' → Forall2 (table_ok params interval d0) ts' tbs'.*2.
Proof.
  intros Hp. revert ts'. induction Hp as [|tb tbs Htb _ IH]; intros ts' Hr; rewrite fmap_cons in Hr || idtac.
  - inversion Hr. constructor.
  - inversion Hr as [|? t' ? ts0 [Hs _] Hr']; subst. constructor; [by eapply same_table_ok|by apply IH].
Qed.

Lemma reloaded_disjoint ts ts' : Forall2 reloaded ts ts' → pairwise_disjoint ts → pairwise_disjoint ts'.
Proof.
  intros Hr Hd i j t1 t2 Hi Hj Hne.
  destruct (Forall2_lookup_r _ _ _ _ _ Hr Hi) as (u1 & Hu1 & [S1 _]).
  destruct (Forall2_lookup_r _ _ _ _ _ Hr Hj) as (u2 & Hu2 & [S2 _]).
  pose proof (Hd i j u1 u2 Hu1 Hu2 Hne) as Hdis. unfold disjoint_tables in *.
  by rewrite (same_table_min _ _ S1), (same_table_max _ _ S1), (same_table_overlapping _ _ _ _ S2).
Qed.

Lemma reloaded_reloads d0 ts ts' :
  Forall2 reloaded ts ts' → Forall (reloads params d0) ts → Forall (reloads params d0) ts'.
Proof.
  induction 1 as [|t t' ts ts' [[Hi Hx] _] _ IH]; [done|]. intros [Ht Hts]%Forall_cons.
  constructor; [|by apply IH]. unfold reloads in *. by rewrite Hi, Hx.
Qed.

Lemma reopened_levels :
  Forall (StronglySorted N.lt) ids → levels_ok params interval d' nb next ls' (blocks_of P').
Proof.
  intros Hsort. pose proof Hok as [O1 O2 O3 O4 O5 O6 O7 O8 O9 O10]. destruct length_reopened as [L1 L2].
  split.
  - apply Forall2_same_length_lookup. unfold blocks_of. split; [by rewrite length_fmap, L1, L2|].
    intros i l' bss Hi Hb. destruct (reopened_lookup i l' Hi) as (l & tbs & tbs' & _ & _ & Hi' & _ & Hpk & Hr & _).
    rewrite list_lookup_fmap, Hi' in Hb. injection Hb as <-. by apply reopened_tables.
  - intros i l' Hi. by destruct (reopened_lookup i l' Hi) as (? & ? & ? & _ & _ & _ & _ & _ & _ & ? & _).
  - intros l' [i Hi]%list_elem_of_lookup.
    destruct (reopened_lookup i l' Hi) as (? & ? & ? & _ & _ & _ & _ & _ & Hr & _ & Hph). split; [done|].
    clear -Hr. induction Hr as [|t t' ts ts' [_ Hf] _ IH]; by constructor.
  - intros i l' Hi Hpos. destruct (reopened_lookup i l' Hi) as (l & tbs & tbs' & Hl & Ht & _ & [Hp _] & _ & Hr & _).
    eapply reloaded_disjoint; [exact Hr|]. eapply pairwise_disjoint_perm; [by rewrite Hp|].
    rewrite <-Ht. by eapply O4.
  - apply (reordered_order P); [done|apply reopened_order|by rewrite <-HT].
  - rewrite HT in O6. unfold blocks_of in *. rewrite Forall_fmap in O6 |- *.
    eapply reordered_blocks; [exact Hre|exact O6].
  - by rewrite reopened_ids, reordered_ids.
  - by rewrite reopened_ids, reordered_ids.
  - apply Forall_forall. intros l' [i Hi]%list_elem_of_lookup.
    destruct (reopened_lookup i l' Hi) as (l & tbs & tbs' & Hl & Ht & _ & [Hp _] & _ & Hr & _).
    eapply reloaded_reloads; [exact Hr|]. rewrite Hp, <-Ht. by eapply (Forall_lookup_1 _ _ _ _ O9).
  - intros l' Hl'. apply (Forall_lookup_1 _ _ 0 _ Hsort). rewrite <-reopened_ids. unfold level_ids.
    by rewrite list_lookup_fmap, Hl'.
Qed.

End levels.

(** ** The whole operation *)

Lemma level_pairs d ls T :
  Forall2 (level_holds_blocks params interval d) ls T →
  ∃ P, Level.tables <$> ls = (λ tbs : list pair, tbs.*1) <$> P ∧ T = blocks_of P ∧ Forall (Forall (pair_ok d)) P.
Proof.
  induction 1 as [|l bss ls T Hl _ (P & E1 & E2 & Hp)]; [by exists []|].
  pose proof (Forall2_length _ _ _ Hl) as Hlen. exists (zip l.(Level.tables) bss :: P).
  unfold blocks_of in *. rewrite !fmap_cons, fst_zip, snd_zip, E1, E2 by lia. split_and!; [done|done|].
  constructor; [|done]. clear -Hl. unfold level_holds_blocks in Hl.
  induction Hl as [|t bs ts bss Ht _ IH]; by constructor.
Qed.

Lemma same_sources T T' k A :
  newest_first (level_sources T) → Forall (dir_sorted false) (level_sources T) →
  newest_first (level_sources T') → Forall (dir_sorted false) (level_sources T') →
  (∀ L, L ∈ level_sources T' ↔ L ∈ level_sources T) →
  value_of (A ++ level_sources T') k = value_of (A ++ level_sources T) k.
Proof.
  intros Hn Hs Hn' Hs' Heq. unfold value_of. rewrite !find_item_app.
  rewrite (same_newest (level_sources T) (level_sources T')); try done.
  - intros L x HL Hx. exists L. by rewrite <-Heq.
  - intros x [(L & HL & Hx) _]. exists L. by rewrite Heq.
Qed.

(** The memtable is not full without writes. *)
Lemma replayed_room b ops m :
  0 < params.(Params.max_memtable_size) → Memtable.apply_ops (Memtable.new b) ops = Ok m →
  Memtable.is_full m params = true → ops ≠ [].
Proof.
  intros Hmax E Hf ->. injection E as <-. unfold Memtable.is_full in Hf. simpl in Hf. bool_to_prop. lia.
Qed.

Lemma id_sets_length a b : id_sets a = id_sets b → length a = length b.
Proof. intros E. apply (f_equal length) in E. unfold id_sets in E. by rewrite !length_fmap in E. Qed.

(** The tables after the files were closed and opened. *)
Lemma levels_survive (s : DbLogic) m d' T nb next :
  levels_ok params interval s.(DbLogic.env).(env_disk) nb next s.(DbLogic.levels) T →
  same_other_files (mapped_files m s.(DbLogic.env).(env_disk)) d' →
  levels_ok params interval d' nb next s.(DbLogic.levels) T.
Proof.
  intros Hl Ho. eapply levels_ok_frame; [| | | |exact Hl]; [| |done|done].
  - intros b _. rewrite (Ho (DataFile b)) by done. by apply mapped_files_other.
  - intros b _. rewrite (Ho (IndexFile b)) by done. by apply mapped_files_other.
Qed.

(** All levels are loaded again. *)
Lemma levels_reloaded e nb next ls T ids :
  params_ok params → levels_ok params interval e.(env_disk) nb next ls T →
  length ls = params.(Params.num_levels) → id_sets ids = id_sets (level_ids ls) →
  Forall (StronglySorted N.lt) ids →
  ∃ ls' T', DbLogic.load_levels params (new_levels params) 0 ids e = Ok (ls', e) ∧
    levels_ok params interval e.(env_disk) nb next ls' T' ∧ level_ids ls' = ids ∧
    length ls' = params.(Params.num_levels) ∧ (∀ L, L ∈ level_sources T' ↔ L ∈ level_sources T).
Proof.
  intros Hpar Hok Hcount Hsets Hsort. pose proof Hok as [O1 _ _ _ _ _ O7 _ O9 _].
  destruct (level_pairs _ _ _ O1) as (P & HP & HT & Hpairs).
  assert (level_ids ls = ids_of P) as Eids.
  { transitivity ((λ ts : list SortedTable.SortedTable, tid <$> ts) <$> (Level.tables <$> ls));
      [by rewrite <-list_fmap_compose|]. by rewrite HP, <-list_fmap_compose. }
  rewrite Eids in Hsets, O7.
  destruct (levels_reordered P ids Hsort) as (P' & Hre & Hids); [|done|].
  { clear -O7. induction P as [|tbs P IH]; [constructor|]. unfold ids_of in *. rewrite fmap_cons in O7.
    cbn [concat] in O7. apply NoDup_app in O7 as (? & _ & ?). constructor; [done|by apply IH]. }
  set (tss := (λ tbs : list pair, tbs.*1) <$> P').
  assert (ids = (λ ts : list SortedTable.SortedTable, tid <$> ts) <$> tss) as Etss.
  { rewrite <-Hids. unfold tss. by rewrite <-list_fmap_compose. }
  assert (length P' = params.(Params.num_levels)) as HlP'.
  { rewrite <-(Forall2_length _ _ _ Hre), <-Hcount. apply (f_equal length) in HP. by rewrite !length_fmap in HP. }
  destruct (load_levels_ok e tss [] (new_levels params)) as (tss' & Htss & E).
  - unfold tss. by rewrite length_fmap, length_new_levels.
  - apply Forall_forall. by intros l [i [_ ->]%(new_levels_lookup params Hpar)]%list_elem_of_lookup.
  - unfold tss. rewrite Forall_fmap.
    assert (Forall (Forall (reloads params e.(env_disk))) ((λ tbs : list pair, tbs.*1) <$> P)) as HrP
      by (rewrite <-HP, Forall_fmap; exact O9).
    rewrite Forall_fmap in HrP.
    clear -HrP Hre. induction Hre as [|tbs tbs' P P' [Hp _] _ IH]; [done|]. apply Forall_cons in HrP as [Hr HrP].
    constructor; [simpl; by rewrite Hp|by apply IH].
  - rewrite <-Etss in E. cbn [app length] in E. eexists _, (blocks_of P'). split; [exact E|]. split_and!.
    + eapply (reopened_levels _ nb next ls _ T P P' ids tss'); done.
    + eapply (reopened_ids _ ls _ P P' ids tss'); done.
    + by destruct (length_reopened ls _ P P' tss' HP Hre Htss eq_refl Hcount).
    + rewrite HT. by apply reordered_elem.
Qed.

(** Without [CreateOrOverride] the files are kept. *)
Lemma start_keeps mode d :
  params_ok params → mode ≠ CreateOrOverride → DbLogic.start params mode (Folder d) = Ok (false, d).
Proof.
  intros [Hp _ _ _ _] Hm. unfold DbLogic.start. rewrite (proj2 (String.eqb_neq _ _) Hp). by destruct mode.
Qed.

(** The files of a database. *)
Definition files (s : DbLogic) : Disk := mapped_files s.(DbLogic.env).(env_manifest) s.(DbLogic.env).(env_disk).

Lemma reopen_ok io s T meta ids M h fl olds cur mode fuel rfuel :
  params_ok params → db_ok params interval io s T (encode_ops h) meta ids M →
  logged params meta s h fl olds cur → Forall readable (concat olds ++ cur) →
  length (encode_ops h) mod PAGE_SIZE ≠ 0 → mode ≠ CreateOrOverride →
  length (concat olds ++ cur) < fuel → length (encode_ops h) <= rfuel →
  ∃ s' T', DbLogic.new params fuel rfuel mode (Folder (files s)) = Ok s' ∧
    db_ok params interval AsyncIo s' T' (encode_ops h) meta ids M ∧
    logged params meta s' h fl [] (concat olds ++ cur) ∧
    s'.(DbLogic.imm_memtables) = [] ∧ s'.(DbLogic.pending) = None.
Proof.
  intros Hpar Hok [L1 L2 L3 L4 L5] Hread Hmod Hmode Hf Hrf.
  pose proof Hok as [_ _ _ _ _ K5 K6 [K7 K7p] K7' _ K9 K10 K11 K12 _ K14].
  pose proof Hpar as [_ _ _ _ Pmax]. set (ops := concat olds ++ cur) in *.
  assert (concat (olds ++ [cur]) = ops) as Hops by (rewrite concat_app; simpl; by rewrite app_nil_r).
  unfold db_sources in K14.
  assert (mem_stack s ≠ []) as Hst by (unfold mem_stack; intros E; apply app_nil in E as [_ [_ ?]%app_nil]; done).
  destruct (replayed _ _ _ (level_sources T) M L3 Hst K14) as (m & Em & Hwf & Hc & Hwd & Hseq & Hv).
  rewrite Hops in Em, Hseq.
  assert (log_on_disk (files s) (length (encode_ops fl) / PAGE_SIZE) (encode_ops h)) as Hlog.
  { apply mapped_log. pose proof (wa_disk _ _ _ _ _ (wi_writer _ _ _ _ (idle_inv _ _ _ K11))) as Hw.
    unfold first_page in Hw. rewrite (idle_phase _ _ _ K11), (idle_flush _ _ _ K11) in Hw.
    cbn [wal_of WalStatus.status WalStatus.disk] in Hw. by replace (length (encode_ops fl))
      with (LogStatus.offset_pos (log_status (DbLogic.wal s))) by lia. }
  destruct (manifest_open_holds params _ meta ids s.(DbLogic.env).(env_disk) K9) as (m' & Eman & Hman);
    [rewrite (id_sets_length _ _ K10); unfold level_ids; by rewrite length_fmap|done|].
  fold (files s) in Eman.
  subst h. destruct (wal_open_ok (files s) fl ops (Memtable.new meta.(DatabaseMetadata.seq_number_offset)) m fuel rfuel
    Hlog Hread Hmod Em Hf Hrf) as (w & Ewal & Hidle & Ho & Hoff).
  destruct (block_caches_new params Hpar m' w.(WalStatus.disk)) as (cs & Ecs & Hcache).
  pose proof (levels_survive s _ _ _ _ _ K5 Ho) as Hlev.
  destruct (levels_reloaded (mkEnv w.(WalStatus.disk) cs m') _ _ _ T ids Hpar Hlev K7 K10)
    as (ls' & T' & El & Hlev' & Hids' & Hcnt' & Hsrc).
  { pose proof (mh_levels _ _ _ K9) as Hh. clear -Hh. induction Hh as [|? ? ? ? [_ Hs _] _ IH]; by constructor. }
  exists (DbLogic.mk (MemtableRef.wrap m) [] None ls'
    (mkLog w.(WalStatus.status) w.(WalStatus.writer) w.(WalStatus.phase)) (mkEnv w.(WalStatus.disk) cs m')), T'.
  split; [|split; [|split; [|done]]].
  - unfold DbLogic.new. rewrite (start_keeps _ _ Hpar Hmode). run_bind. rewrite Eman. run_bind.
    unfold Manifest.get_seq_number_offset, Manifest.get_log_offset. rewrite (get_meta_holds _ _ _ Hman). run_bind.
    rewrite L2, Ewal. run_bind. rewrite Ecs. run_bind. rewrite (proj2 (Nat.eqb_neq _ 0)) by lia.
    rewrite (get_table_ids_all _ _ _ Hman). run_bind. fold (new_levels params). by rewrite El.
  - split; unfold mem_stack, offsets; simpl; try done.
    + by constructor.
    + by constructor.
    + intros Hfull o Ho'. assert (o = meta.(DatabaseMetadata.log_offset)) as -> by set_solver.
      pose proof (encode_ops_pos ops (replayed_room _ _ _ Pmax Em Hfull)).
      rewrite L2, encode_ops_app, length_app. lia.
    + intros L x HL. apply (K6 L x). by apply Hsrc.
    + by rewrite Hids'.
    + by destruct w.
    + by rewrite Hoff.
    + split; [by repeat constructor|done].
    + intros k. rewrite <-(Hv k). unfold db_sources, mem_stack. simpl.
      apply (same_sources T T' k [mem_list false m]); try done.
      * apply Hlev.
      * by eapply levels_sorted.
      * apply Hlev'.
      * by eapply levels_sorted.
  - split; try done.
    unfold mem_stack. simpl. destruct (built_total _ _ _ L3 Hst) as [Hlt _]. rewrite Hops in Hlt. by repeat split.
Qed.

End reopen.
