(* ===== verification/Database.v ===== *)
(** * The database as a map (src/src/logic.rs)

    The operations of [DbLogic] as steps over the concrete state and the history
    of its writes.  Every reachable state satisfies the invariant, so that lookups
    and scans read the map of the history, writes extend it, and compactions leave
    it unchanged, and so do restarts, where the log can be replayed; after a
    restart the build with positional writes to the log goes on, while the default
    build loses entries of the log with its next write. *)

From stdpp Require Import base list gmap strings sorting relations.
From Stdlib Require Import Strings.Byte NArith ZArith Lia.
From S2P Require Import Prelude WriteBatch Iterator Memtable Disk Wal WalStatus WalCalls Manifest DataBlock DataBlocks IndexBlock SortedTable TableIterator Iterate DbIterator Level Compaction Logic Sources LogicInv LogicWrite LogicFlush LogicCompact LogicLevels LogicCompactLevel LogicOpen LogicScan LogicLog LogicReopen.

Local Open Scope nat_scope.
Local Open Scope lsm_scope.

(** The parameters of a database; blocks have [interval] entries per restart. *)
Record settings (params : Params.Params) (interval : nat) : Prop := {
  se_params : params_ok params;
  se_interval : params.(Params.block_restart_interval) = N.of_nat interval;
  se_pos : 0 < interval;
  se_width : (N.of_nat interval < u32_bound)%N;
  se_seeks : seeks_ok params;
}.

(** Without tables there is nothing to merge. *)
Lemma compact_fits_empty fuel T meta :
  level_sources T = [] → 0 < fuel → (meta.(DatabaseMetadata.next_table_id) + 1 < u64_bound)%N →
  (meta.(DatabaseMetadata.next_data_block_id) + 1 < u64_bound)%N → compact_fits fuel T meta.
Proof.
  intros Hsrc Hf Ht Hb. split; rewrite ?Hsrc; [exact Hf|reflexivity| |exact Ht].
  change (sum_list_with length []) with 0. by rewrite N.add_0_r.
Qed.

(** The flushed memtable fits, given what the manifest counts. *)
Definition small_memtable (meta : DatabaseMetadata.DatabaseMetadata) (m : Memtable.Memtable) : Prop :=
  (N.of_nat (256 + 3 * total_weight (flushed <$> m.(Memtable.entries))) < u32_bound)%N ∧
  (meta.(DatabaseMetadata.next_data_block_id) + N.of_nat (length m.(Memtable.entries)) + 1 < u64_bound)%N.

Lemma small_memtable_fits meta stored m :
  small_memtable meta m → (meta.(DatabaseMetadata.next_table_id) + 1 < u64_bound)%N →
  (N.of_nat (length stored) < u64_bound)%N → flush_fits meta stored m.
Proof.
  intros [Hw Hb] Ht Hl.
  exact (Build_flush_fits meta stored m Hw Hb Ht Hl).
Qed.

(** The log of these writes can be replayed: keys and values are not empty, and
    it does not end on a page boundary. *)
Record recoverable (fuel rfuel : nat) (h : list WriteOp) : Prop := {
  rc_readable : Forall readable h;
  rc_page : length (encode_ops h) mod PAGE_SIZE ≠ 0;
  rc_fuel : length h < fuel;
  rc_bytes : length (encode_ops h) <= rfuel;
}.

(** What the writes leave in an empty map. *)
Definition map_of (h : list WriteOp) : gmap Key Value := write_all ∅ h.

Lemma map_of_app h ops : map_of (h ++ ops) = write_all (map_of h) ops.
Proof. apply foldl_app. Qed.

Section database.
Context `{BloomLaws} `{CompressionLaws} `{LruLaws DataBlock.DataBlock}.
Context (params : Params.Params) (interval : nat) (io : IoMode).

Abbreviation DbLogic := DbLogic.DbLogic.

(** The state stands for the map [M]. *)
Definition stands_for (s : DbLogic) (M : gmap Key Value) : Prop :=
  ∃ T stored meta ids, db_ok params interval io s T stored meta ids M.

(** The numbers of the next [n] writes fit. *)
Definition has_numbers (n : nat) (s : DbLogic) : Prop :=
  (s.(DbLogic.memtable).(MemtableRef.inner).(Memtable.next_seq_number) + N.of_nat n < u64_bound)%N.

(** The tables are small enough to be written and merged, and the identifiers
    are not used up. *)
Definition has_room (fuel : nat) (s : DbLogic) : Prop :=
  Forall sizes_ok s.(DbLogic.levels) ∧
  ∀ T stored meta ids M, db_ok params interval io s T stored meta ids M →
    compact_fits fuel T meta ∧
    ∀ off mem rest, s.(DbLogic.imm_memtables) = (off, mem) :: rest → flush_fits meta stored mem.

(** One operation, with the history of writes.  A writer that waits holds the
    lock of the memtable, so reads and writes need that there is none.  A restart
    is a step where the history survives it: with a log that can be replayed, and
    in the build whose log writes are positional ([AsyncIo]).  In the default build
    the reopened log is overwritten from the start of its last page
    ([wal_continue_overwrites_page_start]), so that the history is gone from the
    files with the next write; [default_build_loses_put] is such a run. *)
Inductive db_step : DbLogic * list WriteOp → DbLogic * list WriteOp → Prop :=
| step_get s h key trig r s' :
    s.(DbLogic.pending) = None → DbLogic.get params key s = Ok ((trig, r), s') → db_step (s, h) (s', h)
| step_prepare s h rev min_key max_key its s' :
    s.(DbLogic.pending) = None → DbLogic.prepare params rev min_key max_key s = Ok (its, s') →
    db_step (s, h) (s', h)
| step_write s h ops opt b s' :
    s.(DbLogic.pending) = None → has_numbers (length ops) s →
    DbLogic.write_opts params io ops opt s = Ok (b, s') → db_step (s, h) (s', h ++ ops)
| step_resume s h s' :
    DbLogic.write_resume s = Ok ((), s') → db_step (s, h) (s', h)
| step_synchronize s h s' :
    DbLogic.synchronize io s = Ok ((), s') → db_step (s, h) (s', h)
| step_memtable_compaction s h fuel b s' :
    has_room fuel s → DbLogic.do_memtable_compaction params io s = Ok (b, s') → db_step (s, h) (s', h)
| step_level_compaction s h fuel b s' :
    has_room fuel s → DbLogic.do_level_compaction params fuel s = Ok (b, s') → db_step (s, h) (s', h)
| step_reopen s h mode fuel rfuel s' :
    io = AsyncIo → mode ≠ CreateOrOverride → recoverable fuel rfuel h →
    DbLogic.new params fuel rfuel mode (Folder (files s)) = Ok s' → db_step (s, h) (s', h).

(** What a new database reaches. *)
Definition reachable (s : DbLogic) (h : list WriteOp) : Prop :=
  ∃ fuel rfuel mode path d s0, DbLogic.start params mode path = Ok (true, d) ∧
    DbLogic.new params fuel rfuel mode path = Ok s0 ∧ rtc db_step (s0, []) (s, h).

Context (Hset : settings params interval).

(** ** Every operation keeps the invariant *)

Lemma same_db_stands s s' M : same_db params s s' → stands_for s M → stands_for s' M.
Proof. intros Hs (T & stored & meta & ids & Hok). exists T, stored, meta, ids. by eapply same_db_ok. Qed.

Lemma get_stands s M key :
  stands_for s M → s.(DbLogic.pending) = None →
  ∃ trig r s', DbLogic.get params key s = Ok ((trig, r), s') ∧ same_db params s s' ∧ reads_value r (M !! key).
Proof. intros (T & stored & meta & ids & Hok) Hp. by eapply db_get_ok. Qed.

Lemma write_stands s M ops opt :
  stands_for s M → s.(DbLogic.pending) = None → has_numbers (length ops) s →
  ∃ b s', DbLogic.write_opts params io ops opt s = Ok (b, s') ∧ stands_for s' (write_all M ops) ∧
    length s'.(DbLogic.imm_memtables) <= Nat.max 1 (length s.(DbLogic.imm_memtables)).
Proof.
  intros (T & stored & meta & ids & Hok) Hp Hn.
  destruct (db_write_ok params interval io s T stored meta ids M ops opt Hok Hp) as (b & s' & E & Hok' & w & m & _ & _ & _ & Hs');
    [apply Hset|done|]. exists b, s'. split; [done|]. split; [by exists T, (stored ++ encode_ops ops), meta, ids|].
  subst s'. destruct b; unfold hand_over; simpl; [destruct (DbLogic.imm_memtables s); simpl|]; lia.
Qed.

Lemma resume_stands s M :
  stands_for s M → ∃ s', DbLogic.write_resume s = Ok ((), s') ∧ stands_for s' M ∧
    (s.(DbLogic.imm_memtables) = [] → s'.(DbLogic.pending) = None) ∧
    length s'.(DbLogic.imm_memtables) <= Nat.max 1 (length s.(DbLogic.imm_memtables)).
Proof.
  intros Hst. unfold DbLogic.write_resume. rewrite !gets_bind.
  destruct (DbLogic.pending s) as [imm|] eqn:Ep; [|exists s; split_and!; [done|done|done|lia]].
  destruct (DbLogic.imm_memtables s) as [|x l] eqn:Ei; [|exists s; rewrite Ei; split_and!; [done|done|done|simpl; lia]].
  eexists. split; [reflexivity|]. split; [|done]. destruct Hst as (T & stored & meta & ids & Hok). exists T, stored, meta, ids.
  destruct Hok as [K1 K1' K2 K3 K4 K5 K6 K7 K7' K8 K9 K10 K11 K12 K13 K14].
  unfold mem_stack, offsets in *. rewrite Ep, Ei in *. split; unfold mem_stack, offsets; simpl in *; try done.
  intros k. specialize (K14 k). unfold db_sources, mem_stack in *. rewrite Ep, Ei in K14. exact K14.
Qed.

Lemma synchronize_stands s M :
  stands_for s M → ∃ s', DbLogic.synchronize io s = Ok ((), s') ∧ stands_for s' M ∧
    s'.(DbLogic.imm_memtables) = s.(DbLogic.imm_memtables) ∧ s'.(DbLogic.pending) = s.(DbLogic.pending).
Proof.
  intros (T & stored & meta & ids & Hok).
  destruct (wal_sync_ok io (wal_of s) stored (ok_log _ _ _ _ _ _ _ _ _ Hok)) as (w & E & Hi & Ho & Hoff).
  exists (with_wal s w). split; [by apply (on_wal_Ok (WalCalls.sync io))|].
  split; [|done]. exists T, stored, meta, ids. by eapply db_log_grew.
Qed.

Lemma flush_stands fuel s M :
  stands_for s M → has_room fuel s →
  ∃ s', DbLogic.do_memtable_compaction params io s = Ok (negb (length s.(DbLogic.imm_memtables) =? 0), s') ∧
    stands_for s' M ∧ s'.(DbLogic.imm_memtables) = tail s.(DbLogic.imm_memtables) ∧
    s'.(DbLogic.pending) = s.(DbLogic.pending) ∧ s'.(DbLogic.memtable) = s.(DbLogic.memtable).
Proof.
  intros Hst [_ Hroom]. destruct (DbLogic.imm_memtables s) as [|[off mem] rest] eqn:Ei.
  - exists s. unfold DbLogic.do_memtable_compaction. rewrite gets_bind, Ei. by split_and!.
  - destruct Hst as (T & stored & meta & ids & Hok). destruct (Hroom _ _ _ _ _ Hok) as [_ Hf].
    destruct (db_flush_ok params interval io (se_interval _ _ Hset) (se_pos _ _ Hset) (se_width _ _ Hset) (se_seeks _ _ Hset)
      s T stored meta ids M off mem rest Hok Ei (Hf _ _ _ eq_refl)) as (s' & T' & meta' & ids' & E & Hok' & Hi & Hp & Hm & _).
    exists s'. split; [done|]. split; [by exists T', stored, meta', ids'|done].
Qed.

Lemma compaction_stands fuel s M :
  stands_for s M → has_room fuel s →
  ∃ b s', DbLogic.do_level_compaction params fuel s = Ok (b, s') ∧ stands_for s' M ∧
    s'.(DbLogic.imm_memtables) = s.(DbLogic.imm_memtables) ∧ s'.(DbLogic.pending) = s.(DbLogic.pending) ∧
    s'.(DbLogic.memtable) = s.(DbLogic.memtable) ∧ (b = false → same_db params s s').
Proof.
  intros (T & stored & meta & ids & Hok) [Hsz Hroom]. destruct (Hroom _ _ _ _ _ Hok) as [Hf _].
  destruct (do_level_compaction_ok params interval io (se_interval _ _ Hset) (se_pos _ _ Hset) (se_width _ _ Hset)
    (se_seeks _ _ Hset) fuel s T stored meta ids M Hok Hsz Hf) as (b & ls & e & T' & meta' & ids' & E & Hb & _ & Hok').
  exists b, (with_levels s ls e). split; [done|]. split; [by exists T', stored, meta', ids'|done].
Qed.

Lemma scan_stands reverse min_key max_key s M :
  stands_for s M → s.(DbLogic.pending) = None →
  (∀ a b, min_key = Some a → max_key = Some b → a <k b) →
  ∃ n mem_iters table_iters s' out e,
    DbLogic.prepare params reverse min_key max_key s = Ok ((mem_iters, table_iters, min_key, max_key), s') ∧
    same_db params s s' ∧
    DbIteratorInner.collect (InternalIterator0 := boxed_iterator params) n n n
      (DbIterator.new mem_iters table_iters min_key max_key reverse) s'.(DbLogic.env) = Ok (out, e) ∧
    StronglySorted (before reverse) out.*1 ∧
    (∀ k en, (k, en) ∈ out → in_bounds reverse min_key max_key k) ∧
    ∀ k v, (∃ en, (k, en) ∈ out ∧ EntryRef.value en = Ok (Some v)) ↔
      M !! k = Some v ∧ in_bounds reverse min_key max_key k.
Proof.
  intros (T & stored & meta & ids & Hok) Hp Hlt. exists (S (sum_list_with length (db_sources s T))).
  destruct (db_scan_map params interval io reverse min_key max_key s T stored meta ids M _ Hok Hp Hlt
    (Nat.lt_succ_diag_r _)) as (mits & tits & s' & out & e & E & Hs & Ec & _ & Hout).
  by exists mits, tits, s', out, e.
Qed.

(** A scan that starts has a proper range. *)
Lemma prepare_range reverse min_key max_key s r :
  DbLogic.prepare params reverse min_key max_key s = Ok r →
  ∀ a b, min_key = Some a → max_key = Some b → a <k b.
Proof.
  intros E a b -> ->. unfold DbLogic.prepare in E. apply key_ltb_lt.
  destruct (key_ltb a b) eqn:Eab; [done|].
  by simpl in E.
Qed.

(** Two results of the same operation. *)
Ltac same_run :=
  match goal with A : ?f = Ok _, B : ?f = Ok _ |- _ => rewrite A in B; simplify_eq end.

(** ** The history *)

(** The state stands for its history, and keeps it in the log. *)
Definition keeps (s : DbLogic) (h : list WriteOp) : Prop :=
  ∃ T meta ids flushed olds cur,
    db_ok params interval io s T (encode_ops h) meta ids (map_of h) ∧ logged params meta s h flushed olds cur.

Lemma keeps_stands s h : keeps s h → stands_for s (map_of h).
Proof. intros (T & meta & ids & fl & olds & cur & Hok & _). by exists T, (encode_ops h), meta, ids. Qed.

Lemma same_db_keeps s s' h : same_db params s s' → keeps s h → keeps s' h.
Proof.
  intros Hs (T & meta & ids & fl & olds & cur & Hok & Hl). exists T, meta, ids, fl, olds, cur.
  split; [by eapply same_db_ok|]. destruct Hs as [S1 S2 S3 _ _ _].
  eapply logged_same; [| | | | |exact Hl]; [..|done|done|done]; unfold mem_stack, offsets; by rewrite ?S1, S2, S3.
Qed.

Lemma write_keeps s h ops opt b s' :
  keeps s h → s.(DbLogic.pending) = None → has_numbers (length ops) s →
  DbLogic.write_opts params io ops opt s = Ok (b, s') → keeps s' (h ++ ops).
Proof.
  intros (T & meta & ids & fl & olds & cur & Hok & Hl) Hp Hn E.
  destruct (db_write_ok params interval io s T _ meta ids _ ops opt Hok Hp) as (b' & s1 & E' & Hok' & Hw);
    [apply Hset|done|]. rewrite E in E'. injection E' as <- <-. rewrite <-encode_ops_app in Hok', Hw.
  destruct (wrote_logged params meta s ops h fl olds cur b s' Hp Hl Hn Hw) as (olds' & cur' & Hl').
  exists T, meta, ids, fl, olds', cur'. by rewrite map_of_app.
Qed.

Lemma resume_same s s' :
  DbLogic.write_resume s = Ok ((), s') → mem_stack s' = mem_stack s ∧ offsets s' = offsets s ∧
    s'.(DbLogic.levels) = s.(DbLogic.levels) ∧ s'.(DbLogic.wal) = s.(DbLogic.wal) ∧
    s'.(DbLogic.env) = s.(DbLogic.env) ∧ s'.(DbLogic.memtable) = s.(DbLogic.memtable).
Proof.
  unfold DbLogic.write_resume, mem_stack, offsets. rewrite !gets_bind. destruct s as [mt [|x imm] [p|] ls w e]; simpl;
    intros E; by injection E as <-.
Qed.

Lemma resume_keeps s h s' : keeps s h → DbLogic.write_resume s = Ok ((), s') → keeps s' h.
Proof.
  intros (T & meta & ids & fl & olds & cur & Hok & Hl) E.
  destruct (resume_same s s' E) as (Hm & Ho & H3' & H4' & H5' & H6'). exists T, meta, ids, fl, olds, cur.
  split; [|by eapply logged_same; [| | | | |exact Hl]].
  destruct Hok as [K1 K1' K2 K3 K4 K5 K6 K7 K7' K8 K9 K10 K11 K12 K13 K14].
  assert (s'.(DbLogic.imm_memtables).*2 ++ (option_list s'.(DbLogic.pending)).*2
    = s.(DbLogic.imm_memtables).*2 ++ (option_list s.(DbLogic.pending)).*2) as Hms.
  { rewrite !mem_stack_split in Hm. by apply app_inj_tail in Hm as [? _]. }
  split; unfold wal_of, db_sources in *; rewrite ?Hm, ?Ho, ?Hms, ?H3', ?H4', ?H5', ?H6'; done.
Qed.

Lemma synchronize_keeps s h s' : keeps s h → DbLogic.synchronize io s = Ok ((), s') → keeps s' h.
Proof.
  intros (T & meta & ids & fl & olds & cur & Hok & Hl) E.
  destruct (wal_sync_ok io (wal_of s) _ (ok_log _ _ _ _ _ _ _ _ _ Hok)) as (w & Ew & Hi & Ho & Hoff).
  pose proof (on_wal_Ok (WalCalls.sync io) s _ _ Ew) as E'. unfold DbLogic.synchronize in E. rewrite E' in E.
  injection E as <-. exists T, meta, ids, fl, olds, cur. split; [by eapply db_log_grew|].
  by eapply logged_same; [| | | | |exact Hl].
Qed.

Lemma flush_keeps fuel s h b s' :
  keeps s h → has_room fuel s → DbLogic.do_memtable_compaction params io s = Ok (b, s') → keeps s' h.
Proof.
  intros (T & meta & ids & fl & olds & cur & Hok & Hl) [_ Hroom] E.
  destruct (DbLogic.imm_memtables s) as [|[off mem] rest] eqn:Ei.
  - unfold DbLogic.do_memtable_compaction in E. rewrite gets_bind, Ei in E. injection E as _ <-.
    by exists T, meta, ids, fl, olds, cur.
  - destruct (Hroom _ _ _ _ _ Hok) as [_ Hf].
    destruct (db_flush_ok params interval io (se_interval _ _ Hset) (se_pos _ _ Hset) (se_width _ _ Hset) (se_seeks _ _ Hset)
      s T _ meta ids _ off mem rest Hok Ei (Hf _ _ _ eq_refl)) as (s1 & T' & meta' & ids' & E1 & Hok' & Hi & Hp & Hm & N1 & N2 & N3).
    rewrite E in E1. injection E1 as _ ->.
    destruct (flushed_logged params meta meta' s s1 h fl olds cur off mem rest Hl Ei Hi Hp Hm N1 N2 N3) as (fl' & olds' & Hl').
    by exists T', meta', ids', fl', olds', cur.
Qed.

Lemma compaction_keeps fuel s h b s' :
  keeps s h → has_room fuel s → DbLogic.do_level_compaction params fuel s = Ok (b, s') → keeps s' h.
Proof.
  intros (T & meta & ids & fl & olds & cur & Hok & Hl) [Hsz Hroom] E. destruct (Hroom _ _ _ _ _ Hok) as [Hf _].
  destruct (do_level_compaction_ok params interval io (se_interval _ _ Hset) (se_pos _ _ Hset) (se_width _ _ Hset)
    (se_seeks _ _ Hset) fuel s T _ meta ids _ Hok Hsz Hf) as (b' & ls & e & T' & meta' & ids' & E' & _ & (nx & nb & ->) & Hok').
  rewrite E in E'. injection E' as _ ->. exists T', (compacted_meta meta nx nb), ids', fl, olds, cur.
  split; [done|]. by eapply logged_same; [| | | | |exact Hl].
Qed.

Lemma created_keeps fuel rfuel mode path d s :
  DbLogic.start params mode path = Ok (true, d) → DbLogic.new params fuel rfuel mode path = Ok s →
  keeps s [] ∧ s.(DbLogic.imm_memtables) = [].
Proof.
  intros Hstart Hnew. destruct (new_create_ok params interval io (se_params _ _ Hset) fuel rfuel mode path d Hstart)
    as (s1 & E & Hp & Himm & _ & Hm & Hok). rewrite Hnew in E. injection E as <-. split; [|done].
  eexists _, _, _, [], [], []. split; [exact Hok|]. unfold mem_stack, offsets.
  split; unfold mem_stack, offsets; rewrite ?Himm, ?Hp, ?Hm; try done.
  simpl. apply N.mod_small. apply (se_params _ _ Hset).
Qed.

(** A restart: the new state keeps the history; with positional writes it can go
    on. *)
Lemma reopen_keeps s h mode fuel rfuel :
  keeps s h → mode ≠ CreateOrOverride → recoverable fuel rfuel h →
  ∃ s', DbLogic.new params fuel rfuel mode (Folder (files s)) = Ok s' ∧
    (∃ T stored meta ids, db_ok params interval AsyncIo s' T stored meta ids (map_of h)) ∧ (io = AsyncIo → keeps s' h) ∧
    s'.(DbLogic.imm_memtables) = [] ∧ s'.(DbLogic.pending) = None.
Proof.
  intros (T & meta & ids & fl & olds & cur & Hok & Hl) Hmode [R1 R2 R3 R4].
  pose proof (lg_history _ _ _ _ _ _ _ Hl) as Hh.
  destruct (reopen_ok params interval io s T meta ids (map_of h) h fl olds cur mode fuel rfuel (se_params _ _ Hset) Hok Hl)
    as (s' & T' & E & Hok' & Hl' & Hi & Hp); try done.
  - rewrite Hh in R1. by apply Forall_app in R1 as [_ R1].
  - rewrite Hh, length_app in R3. lia.
  - exists s'. split; [done|]. split; [by exists T', (encode_ops h), meta, ids|]. split; [|done].
    intros Hio. exists T', meta, ids, fl, [], (concat olds ++ cur). by rewrite Hio.
Qed.

Lemma step_keeps c c' : db_step c c' → keeps c.1 c.2 → keeps c'.1 c'.2.
Proof.
  intros Hstep Hk. pose proof (keeps_stands _ _ Hk) as Hst. destruct Hstep; simpl in *.
  - destruct (get_stands s _ key Hst) as (? & ? & ? & E & Hs & _); [done|]. same_run. by eapply same_db_keeps.
  - destruct (scan_stands rev min_key max_key s _ Hst) as (? & ? & ? & ? & ? & ? & E & Hs & _); [done|by eapply prepare_range|].
    same_run. by eapply same_db_keeps.
  - by eapply write_keeps.
  - by eapply resume_keeps.
  - by eapply synchronize_keeps.
  - by eapply flush_keeps.
  - by eapply compaction_keeps.
  - destruct (reopen_keeps s h mode fuel rfuel Hk) as (? & E & _ & Hk' & _); [done|done|]. same_run. by apply Hk'.
Qed.

(** At most one immutable memtable waits to be compacted. *)
Lemma step_imm c c' :
  db_step c c' → keeps c.1 c.2 → length c.1.(DbLogic.imm_memtables) <= 1 →
  length c'.1.(DbLogic.imm_memtables) <= 1.
Proof.
  intros Hstep Hk Hlen. pose proof (keeps_stands _ _ Hk) as Hst. destruct Hstep; simpl in *.
  - destruct (get_stands s _ key Hst) as (? & ? & ? & E & Hs & _); [done|].
    same_run. by rewrite (sd_imm _ _ _ Hs).
  - destruct (scan_stands rev min_key max_key s _ Hst) as (? & ? & ? & ? & ? & ? & E & Hs & _); [done|by eapply prepare_range|].
    same_run. by rewrite (sd_imm _ _ _ Hs).
  - destruct (write_stands s _ ops opt Hst) as (? & ? & E & _ & Hi); [done|done|]. same_run. lia.
  - destruct (resume_stands s _ Hst) as (? & E & _ & _ & Hi). same_run. lia.
  - destruct (synchronize_stands s _ Hst) as (? & E & _ & Hi & _). same_run. by rewrite Hi.
  - destruct (flush_stands fuel s _ Hst) as (? & E & _ & Hi & _); [done|]. same_run. rewrite Hi. destruct (DbLogic.imm_memtables s); simpl in *; lia.
  - destruct (compaction_stands fuel s _ Hst) as (? & ? & E & _ & Hi & _); [done|]. same_run. by rewrite Hi.
  - destruct (reopen_keeps s h mode fuel rfuel Hk) as (? & E & _ & _ & Hi & _); [done|done|]. same_run. rewrite Hi. simpl. lia.
Qed.

Lemma reachable_keeps s h :
  reachable s h → keeps s h ∧ length s.(DbLogic.imm_memtables) <= 1.
Proof.
  intros (fuel & rfuel & mode & path & d & s0 & Hstart & Hnew & Hsteps).
  destruct (created_keeps fuel rfuel mode path d s0 Hstart Hnew) as [Hk Himm].
  pose (Inv c := keeps c.1 c.2 ∧ length c.1.(DbLogic.imm_memtables) <= 1).
  assert (∀ c c', rtc db_step c c' → Inv c → Inv c') as Hrtc.
  { induction 1 as [|x y z Hxy _ IH]; [done|]. intros [Hx Hi]. apply IH.
    split; [by eapply step_keeps|by eapply step_imm]. }
  apply (Hrtc _ _ Hsteps). split; simpl; [done|rewrite Himm; simpl; lia].
Qed.

Lemma reachable_stands s h :
  reachable s h → stands_for s (map_of h) ∧ length s.(DbLogic.imm_memtables) <= 1.
Proof. intros [Hk Hi]%reachable_keeps. split; [by apply keeps_stands|done]. Qed.

Lemma reachable_step s M s' M' : reachable s M → db_step (s, M) (s', M') → reachable s' M'.
Proof.
  intros (fuel & rfuel & mode & path & d & s0 & Hstart & Hnew & Hsteps) Hstep.
  exists fuel, rfuel, mode, path, d, s0. split; [done|]. split; [done|]. by eapply rtc_r.
Qed.

(** ** Room while there are no tables *)

Lemma sources_without_tables d nb next ls T :
  levels_ok params interval d nb next ls T → Forall (λ l, l.(Level.tables) = []) ls → level_sources T = [].
Proof.
  intros [Hl _ _ _ _ _ _ _ _ _] Hno. unfold level_sources.
  induction Hl as [|l bss ls T Hb _ IH]; [done|]. apply Forall_cons in Hno as [Hn Hno].
  unfold level_holds_blocks in Hb. rewrite Hn in Hb. apply Forall2_nil_inv_l in Hb as ->. simpl. by apply IH.
Qed.

Lemma room_without_tables fuel s meta :
  Forall (λ l, l.(Level.tables) = []) s.(DbLogic.levels) → Forall sizes_ok s.(DbLogic.levels) →
  Manifest.get_meta s.(DbLogic.env).(env_manifest) = Ok meta →
  (meta.(DatabaseMetadata.next_table_id) + 1 < u64_bound)%N →
  (meta.(DatabaseMetadata.next_data_block_id) + 1 < u64_bound)%N →
  (N.of_nat s.(DbLogic.wal).(log_status).(LogStatus.queue_pos) < u64_bound)%N →
  Forall (λ p : N * Memtable.Memtable, small_memtable meta p.2) s.(DbLogic.imm_memtables) → 0 < fuel →
  has_room fuel s.
Proof.
  intros Hno Hsz Hmeta Ht Hb Hq Hm Hf. split; [exact Hsz|]. intros T stored meta' ids M Hok.
  assert (meta' = meta) as ->.
  { pose proof (get_meta_holds _ _ _ (ok_manifest _ _ _ _ _ _ _ _ _ Hok)) as Em. congruence. }
  assert (level_sources T = []) as Hsrc.
  { eapply sources_without_tables; [apply Hok|exact Hno]. }
  split; [exact (compact_fits_empty fuel T meta Hsrc Hf Ht Hb)|]. clear Hsrc Hb.
  intros off mem rest Ei. rewrite Ei in Hm. apply Forall_cons in Hm as [Hm _].
  pose proof (wi_queue_pos _ _ _ _ (idle_inv _ _ _ (ok_log _ _ _ _ _ _ _ _ _ Hok))) as Hqp.
  cbn [wal_of WalStatus.status] in Hqp. rewrite Hqp in Hq.
  exact (small_memtable_fits meta stored mem Hm Ht Hq).
Qed.

End database.

(** ** The theorems *)

Section theorems.
Context `{BloomLaws} `{CompressionLaws} `{LruLaws DataBlock.DataBlock}.

(** C1: the database is a map.  In every state that a new database reaches by
    reads, scans, writes, synchronization and compactions, and, in the build with
    positional writes to the log, by restarts from a log that can be replayed
    ([recoverable]), a lookup returns, and what it returns is what the writes so
    far stored for the key. *)
Theorem database_reads_map params interval io s h key :
  settings params interval → reachable params interval io s h → s.(DbLogic.pending) = None →
  ∃ trig r s', DbLogic.get params key s = Ok ((trig, r), s') ∧ reads_value r (map_of h !! key) ∧
    reachable params interval io s' h.
Proof.
  intros Hset Hr Hp. destruct (reachable_stands _ _ _ Hset s h Hr) as [Hst _].
  destruct (get_stands params interval io s _ key Hst Hp) as (trig & r & s' & E & _ & Hv).
  exists trig, r, s'. split; [done|]. split; [done|]. eapply reachable_step; [exact Hr|]. by eapply step_get.
Qed.

(** C2: the invariant of the database.  Every reachable state stands for the map
    of its writes (sources ordered from new to old, levels disjoint, tables on
    disk and in the manifest), its log and memtables keep the history, and at
    most one immutable memtable waits to be compacted. *)
Theorem database_invariant params interval io s h :
  settings params interval → reachable params interval io s h →
  keeps params interval io s h ∧ length s.(DbLogic.imm_memtables) <= 1.
Proof. intros Hset. by apply reachable_keeps. Qed.

(** C3: a restart loses nothing that was written, if the log can be replayed: no
    logged key or value is empty and the log does not end on a page boundary
    ([recoverable], which also bounds the work; in the excluded cases opening
    panics or does not end).  Whatever a new database did, in whichever of its
    states it is stopped, opening its files again gives a database that stands for
    the same map: compacted writes come back from the tables, the others are
    replayed from the log, in order.  Only with positional writes to the log can
    the restarted database go on as if it had not been stopped. *)
Theorem database_durability params interval io s h mode fuel rfuel :
  settings params interval → reachable params interval io s h → mode ≠ CreateOrOverride →
  recoverable fuel rfuel h →
  ∃ s', DbLogic.new params fuel rfuel mode (Folder (files s)) = Ok s' ∧
    stands_for params interval AsyncIo s' (map_of h) ∧
    (∀ key, ∃ trig r s2, DbLogic.get params key s' = Ok ((trig, r), s2) ∧ reads_value r (map_of h !! key)) ∧
    (io = AsyncIo → reachable params interval io s' h).
Proof.
  intros Hset Hr Hm Hrec. destruct (reachable_keeps _ _ _ Hset s h Hr) as [Hk _].
  destruct (reopen_keeps params interval io Hset s h mode fuel rfuel Hk Hm Hrec) as (s' & E & Hst & Hk' & _ & Hp).
  exists s'. split; [done|]. split; [done|]. split.
  - intros key. destruct (get_stands params interval AsyncIo s' _ key Hst Hp) as (trig & r & s2 & E2 & _ & Hv).
    by exists trig, r, s2.
  - intros Hio. eapply reachable_step; [exact Hr|]. by eapply step_reopen.
Qed.

(** C6: a batch of writes is logged and applied, as a whole and in order.  In a
    state whose log has the bytes [stored] and which stands for a map, with no
    writer waiting and with sequence numbers left, a write returns; the log files
    hold [stored] and then the entries of the batch, all written, the new state
    stands for the updated map, and tables and manifest are the same. *)
Theorem database_writes params interval io s T stored meta ids M ops opt :
  settings params interval → db_ok params interval io s T stored meta ids M → s.(DbLogic.pending) = None →
  has_numbers (length ops) s →
  ∃ b s', DbLogic.write_opts params io ops opt s = Ok (b, s') ∧
    idle io (wal_of s') (stored ++ encode_ops ops) ∧
    db_ok params interval io s' T (stored ++ encode_ops ops) meta ids (write_all M ops) ∧
    stands_for params interval io s' (write_all M ops).
Proof.
  intros Hset Hok Hp Hn.
  destruct (db_write_ok params interval io s T stored meta ids M ops opt Hok Hp) as (b & s' & E & Hok' & _);
    [apply Hset|done|]. exists b, s'. split; [done|]. split; [apply (ok_log _ _ _ _ _ _ _ _ _ Hok')|].
  split; [exact Hok'|]. by exists T, (stored ++ encode_ops ops), meta, ids.
Qed.

(** C5: memtable compaction does not change what the database holds.  As long as
    the new table and its identifiers fit ([has_room]) it returns,
    whether there was an immutable memtable is its result, the oldest one is now
    a table, and the state stands for the same map. *)
Theorem database_memtable_compaction params interval io fuel s M :
  settings params interval → stands_for params interval io s M → has_room params interval io fuel s →
  ∃ s', DbLogic.do_memtable_compaction params io s = Ok (negb (length s.(DbLogic.imm_memtables) =? 0), s') ∧
    stands_for params interval io s' M ∧ s'.(DbLogic.imm_memtables) = tail s.(DbLogic.imm_memtables) ∧
    s'.(DbLogic.pending) = s.(DbLogic.pending) ∧ s'.(DbLogic.memtable) = s.(DbLogic.memtable).
Proof. intros Hset. by apply flush_stands. Qed.

(** C4: level compaction does not change what the database holds.  As long as the
    tables and their identifiers fit ([has_room]), moving a table down or merging
    tables returns and leaves a state that stands for the same
    map, with the memtables untouched; when nothing was compacted only seek
    counters and caches differ. *)
Theorem database_level_compaction params interval io fuel s M :
  settings params interval → stands_for params interval io s M → has_room params interval io fuel s →
  ∃ b s', DbLogic.do_level_compaction params fuel s = Ok (b, s') ∧ stands_for params interval io s' M ∧
    s'.(DbLogic.imm_memtables) = s.(DbLogic.imm_memtables) ∧ s'.(DbLogic.pending) = s.(DbLogic.pending) ∧
    s'.(DbLogic.memtable) = s.(DbLogic.memtable) ∧ (b = false → same_db params s s').
Proof. intros Hset. by apply compaction_stands. Qed.

(** C7: a scan in either direction yields every key of the range that has a value,
    once and in order, with its value; keys outside of the range are never
    yielded. *)
Theorem database_scans params interval io rev min_key max_key s M :
  stands_for params interval io s M → s.(DbLogic.pending) = None →
  (∀ a b, min_key = Some a → max_key = Some b → a <k b) →
  ∃ n mem_iters table_iters s' out e,
    DbLogic.prepare params rev min_key max_key s = Ok ((mem_iters, table_iters, min_key, max_key), s') ∧
    same_db params s s' ∧
    DbIteratorInner.collect (InternalIterator0 := boxed_iterator params) n n n
      (DbIterator.new mem_iters table_iters min_key max_key rev) s'.(DbLogic.env) = Ok (out, e) ∧
    StronglySorted (before rev) out.*1 ∧
    (∀ k en, (k, en) ∈ out → in_bounds rev min_key max_key k) ∧
    ∀ k v, (∃ en, (k, en) ∈ out ∧ EntryRef.value en = Ok (Some v)) ↔
      M !! k = Some v ∧ in_bounds rev min_key max_key k.
Proof. apply scan_stands. Qed.

(** A writer that waits for the compaction of an immutable memtable is
    served: after one memtable compaction it hands its memtable over. *)
Theorem database_writer_unblocks params interval io fuel s h :
  settings params interval → reachable params interval io s h → has_room params interval io fuel s →
  ∃ s1 s2, DbLogic.do_memtable_compaction params io s = Ok (negb (length s.(DbLogic.imm_memtables) =? 0), s1) ∧
    DbLogic.write_resume s1 = Ok ((), s2) ∧ s2.(DbLogic.pending) = None ∧ reachable params interval io s2 h.
Proof.
  intros Hset Hr Hroom. destruct (reachable_stands _ _ _ Hset s h Hr) as [Hst Hlen].
  destruct (flush_stands params interval io Hset fuel s _ Hst Hroom) as (s1 & E1 & Hst1 & Hi & _).
  destruct (resume_stands params interval io s1 _ Hst1) as (s2 & E2 & _ & Hp & _).
  exists s1, s2. split; [done|]. split; [done|]. split.
  - apply Hp. rewrite Hi. destruct (DbLogic.imm_memtables s) as [|x [|y l]]; simpl in *; [done|done|lia].
  - eapply reachable_step; [eapply reachable_step; [exact Hr|by eapply step_memtable_compaction]|by eapply step_resume].
Qed.

(** C12: creating a database.  An empty path is refused, whatever the other
    parameters are.  With proper parameters a missing folder is created unless the mode is
    [Open], an existing one is replaced with [CreateOrOverride], and the new
    database is empty; a file at the path, opening a missing database and
    opening a folder without a manifest are refused. *)
Theorem database_creation params interval io fuel rfuel mode path :
  (params.(Params.db_path) = "" →
    DbLogic.new params fuel rfuel mode path = Err (InvalidParams "DB path must not be empty!")) ∧
  (params_ok params → match mode, path with
  | _, NotFolder => DbLogic.new params fuel rfuel mode path = Err (InvalidParams "DB path must be a folder!")
  | Open, Missing => DbLogic.new params fuel rfuel mode path = Err (InvalidParams "DB does not exist")
  | CreateOrOpen, Folder d | Open, Folder d => d !! ManifestFile = None →
      DbLogic.new params fuel rfuel mode path = Err (Io "Failed to open manifest" "No such file or directory")
  | _, _ => ∃ s, DbLogic.new params fuel rfuel mode path = Ok s ∧ reachable params interval io s [] ∧
      s.(DbLogic.pending) = None ∧ stands_for params interval io s ∅
  end).
Proof.
  split; [intros Hpath; unfold DbLogic.new, DbLogic.start; by rewrite Hpath|].
  intros Hp. pose proof (po_path _ Hp) as Hpath.
  assert (∀ d, DbLogic.start params mode path = Ok (true, d) →
    ∃ s, DbLogic.new params fuel rfuel mode path = Ok s ∧ reachable params interval io s [] ∧
      s.(DbLogic.pending) = None ∧ stands_for params interval io s ∅) as Hc.
  { intros d Hd. destruct (new_create_ok params interval io Hp fuel rfuel mode path d Hd) as (s & E & Hpe & _ & _ & _ & Hok).
    exists s. split; [done|]. split; [|split; [done|by eexists _, _, _, _]].
    by exists fuel, rfuel, mode, path, d, s. }
  unfold DbLogic.new, DbLogic.start in *. rewrite (proj2 (String.eqb_neq _ _) Hpath) in *.
  destruct mode, path; try done; try (by eapply Hc); intros Hd; simpl; unfold Manifest.open; by rewrite Hd.
Qed.

End theorems.

(** ** Witnesses *)

Section witnesses.
Import Concrete.

(** Memtables of four bytes, two levels. *)
Definition sample_db_params : Params.Params :=
  {| Params.db_path := "db"; Params.max_memtable_size := 4; Params.num_levels := 2;
     Params.max_open_files := 1000; Params.max_key_block_size := 4;
     Params.block_restart_interval := 2; Params.log_level_stats := None;
     Params.compaction_concurrency := 1; Params.seek_based_compaction := None |}.

Lemma sample_settings : settings sample_db_params 2.
Proof. split; [split|..]; vm_compute; try done; lia. Qed.

Definition state_of {A} (r : outcome A) (d : A) : A := match r with Ok a => a | _ => d end.

Definition returns {A} (r : outcome A) : bool := match r with Ok _ => true | _ => false end.

Lemma state_of_ok {A} (r : outcome A) d : returns r = true → r = Ok (state_of r d).
Proof. by destruct r. Qed.

Definition no_db : DbLogic.DbLogic :=
  DbLogic.mk (MemtableRef.wrap (Memtable.new 1)) [] None []
    (mkLog (LogStatus.new 0 0) (fresh_wal ∅).(WalStatus.writer) Waiting) empty_env.

(** A new database, and the database after a batch that fills the memtable. *)
Definition new_db : DbLogic.DbLogic :=
  state_of (DbLogic.new sample_db_params 0 0 CreateOrOpen Missing) no_db.

Definition sample_batch : list WriteOp := [Put [x61] [x01; x02]; Put [x62] [x03]; Delete [x63]].

Definition full_db : DbLogic.DbLogic :=
  (state_of (DbLogic.write_opts sample_db_params StdFs sample_batch (mkWriteOptions true) new_db) (false, no_db)).2.

Lemma new_db_created : DbLogic.new sample_db_params 0 0 CreateOrOpen Missing = Ok new_db.
Proof. apply state_of_ok. vm_compute. reflexivity. Qed.

Lemma full_db_written :
  ∃ b, DbLogic.write_opts sample_db_params StdFs sample_batch (mkWriteOptions true) new_db = Ok (b, full_db).
Proof.
  unfold full_db. set (r := DbLogic.write_opts _ _ _ _ _). exists (state_of r (false, no_db)).1.
  rewrite <-surjective_pairing. apply state_of_ok. vm_compute. reflexivity.
Qed.

Lemma new_db_reachable : reachable sample_db_params 2 StdFs new_db [].
Proof. exists 0, 0, CreateOrOpen, Missing, ∅, new_db. split; [done|]. split; [exact new_db_created|done]. Qed.

Lemma full_db_reachable : reachable sample_db_params 2 StdFs full_db sample_batch.
Proof.
  destruct full_db_written as [b E]. eapply reachable_step; [exact new_db_reachable|].
  change (db_step sample_db_params 2 StdFs (new_db, []) (full_db, [] ++ sample_batch)).
  eapply step_write; [|vm_compute; reflexivity|exact E]. vm_compute. reflexivity.
Qed.

Lemma full_db_levels : full_db.(DbLogic.levels) = new_levels sample_db_params.
Proof. vm_compute. reflexivity. Qed.

Lemma full_db_imm :
  Forall (λ p : N * Memtable.Memtable, small_memtable (initial_meta sample_db_params) p.2) full_db.(DbLogic.imm_memtables).
Proof.
  replace (full_db.(DbLogic.imm_memtables)) with (take 1 full_db.(DbLogic.imm_memtables)) by (vm_compute; reflexivity).
  destruct (DbLogic.imm_memtables full_db) as [|p l] eqn:E; [constructor|]. constructor; [|constructor].
  assert (p = state_of (match full_db.(DbLogic.imm_memtables) with p :: _ => Ok p | [] => OutOfFuel end) (0%N, Memtable.new 0)) as ->
    by (by rewrite E).
  split; vm_compute; reflexivity.
Qed.

Lemma full_db_room : has_room sample_db_params 2 StdFs 1 full_db.
Proof.
  apply (room_without_tables _ _ _ 1 full_db (initial_meta sample_db_params)).
  - rewrite full_db_levels. repeat constructor.
  - rewrite full_db_levels. constructor; [by left|]. constructor; [|constructor]. right. by eexists _, _.
  - vm_compute. reflexivity.
  - vm_compute. reflexivity.
  - vm_compute. reflexivity.
  - vm_compute. reflexivity.
  - exact full_db_imm.
  - lia.
Qed.

Lemma full_db_stands : stands_for sample_db_params 2 StdFs full_db (map_of sample_batch).
Proof. by apply (reachable_stands _ _ _ sample_settings), full_db_reachable. Qed.

Lemma full_db_free : full_db.(DbLogic.pending) = None.
Proof. vm_compute. reflexivity. Qed.

Lemma database_reads_map_witness :
  ∃ trig r s', DbLogic.get sample_db_params [x61] full_db = Ok ((trig, r), s') ∧
    reads_value r (map_of sample_batch !! ([x61] : Key)) ∧
    reachable sample_db_params 2 StdFs s' sample_batch.
Proof.
  apply (database_reads_map sample_db_params 2 StdFs full_db sample_batch [x61]);
    [exact sample_settings|exact full_db_reachable|exact full_db_free].
Defined.

Lemma database_invariant_witness :
  keeps sample_db_params 2 StdFs full_db sample_batch ∧
  length full_db.(DbLogic.imm_memtables) <= 1.
Proof.
  apply (database_invariant sample_db_params 2 StdFs full_db); [exact sample_settings|exact full_db_reachable].
Defined.

Lemma sample_recoverable : recoverable 4 100 sample_batch.
Proof.
  split; [|vm_compute; lia|simpl; lia|vm_compute; lia].
  repeat constructor; simpl; unfold u64_bound; lia.
Qed.

Lemma database_durability_witness :
  ∃ s', DbLogic.new sample_db_params 4 100 Open (Folder (files full_db)) = Ok s' ∧
    stands_for sample_db_params 2 AsyncIo s' (map_of sample_batch) ∧
    (∀ key, ∃ trig r s2, DbLogic.get sample_db_params key s' = Ok ((trig, r), s2) ∧
      reads_value r (map_of sample_batch !! key)) ∧
    (StdFs = AsyncIo → reachable sample_db_params 2 StdFs s' sample_batch).
Proof.
  apply (database_durability sample_db_params 2 StdFs full_db sample_batch Open 4 100);
    [exact sample_settings|exact full_db_reachable|done|exact sample_recoverable].
Defined.

(** A second batch for the same keys; the memtable it fills has to wait. *)
Lemma database_writes_witness :
  ∃ stored b s', DbLogic.write_opts sample_db_params StdFs sample_batch (mkWriteOptions false) full_db = Ok (b, s') ∧
    stored = encode_ops sample_batch ∧ idle StdFs (wal_of s') (stored ++ encode_ops sample_batch) ∧
    stands_for sample_db_params 2 StdFs s' (write_all (map_of sample_batch) sample_batch).
Proof.
  destruct (reachable_keeps _ _ _ sample_settings _ _ full_db_reachable) as [(T & meta & ids & fl & olds & cur & Hok & _) _].
  destruct (database_writes sample_db_params 2 StdFs full_db T (encode_ops sample_batch) meta ids (map_of sample_batch)
    sample_batch (mkWriteOptions false)) as (b & s' & E & Hi & _ & Hst);
    [exact sample_settings|exact Hok|exact full_db_free|vm_compute; reflexivity|].
  exists (encode_ops sample_batch), b, s'. split; [exact E|]. split; [reflexivity|]. split; [exact Hi|exact Hst].
Defined.

Lemma database_memtable_compaction_witness :
  ∃ s', DbLogic.do_memtable_compaction sample_db_params StdFs full_db
      = Ok (negb (length full_db.(DbLogic.imm_memtables) =? 0), s') ∧
    stands_for sample_db_params 2 StdFs s' (map_of sample_batch) ∧
    s'.(DbLogic.imm_memtables) = tail full_db.(DbLogic.imm_memtables) ∧
    s'.(DbLogic.pending) = full_db.(DbLogic.pending) ∧ s'.(DbLogic.memtable) = full_db.(DbLogic.memtable).
Proof.
  apply (database_memtable_compaction sample_db_params 2 StdFs 1 full_db);
    [exact sample_settings|exact full_db_stands|exact full_db_room].
Defined.

Lemma database_level_compaction_witness :
  ∃ b s', DbLogic.do_level_compaction sample_db_params 1 full_db = Ok (b, s') ∧
    stands_for sample_db_params 2 StdFs s' (map_of sample_batch) ∧
    s'.(DbLogic.imm_memtables) = full_db.(DbLogic.imm_memtables) ∧ s'.(DbLogic.pending) = full_db.(DbLogic.pending) ∧
    s'.(DbLogic.memtable) = full_db.(DbLogic.memtable) ∧ (b = false → same_db sample_db_params full_db s').
Proof.
  apply (database_level_compaction sample_db_params 2 StdFs 1 full_db);
    [exact sample_settings|exact full_db_stands|exact full_db_room].
Defined.

Lemma database_scans_witness :
  ∃ n mem_iters table_iters s' out e,
    DbLogic.prepare sample_db_params true (Some [x61]) (Some [x63]) full_db
      = Ok ((mem_iters, table_iters, Some [x61], Some [x63]), s') ∧
    same_db sample_db_params full_db s' ∧
    DbIteratorInner.collect (InternalIterator0 := boxed_iterator sample_db_params) n n n
      (DbIterator.new mem_iters table_iters (Some [x61]) (Some [x63]) true) s'.(DbLogic.env) = Ok (out, e) ∧
    StronglySorted (before true) out.*1 ∧
    (∀ k en, (k, en) ∈ out → in_bounds true (Some [x61]) (Some [x63]) k) ∧
    ∀ k v, (∃ en, (k, en) ∈ out ∧ EntryRef.value en = Ok (Some v)) ↔
      map_of sample_batch !! k = Some v ∧ in_bounds true (Some [x61]) (Some [x63]) k.
Proof.
  apply (database_scans sample_db_params 2 StdFs true (Some [x61]) (Some [x63]) full_db);
    [exact full_db_stands|exact full_db_free|]. intros a b [= <-] [= <-]. reflexivity.
Defined.

Lemma database_writer_unblocks_witness :
  ∃ s1 s2, DbLogic.do_memtable_compaction sample_db_params StdFs full_db
      = Ok (negb (length full_db.(DbLogic.imm_memtables) =? 0), s1) ∧
    DbLogic.write_resume s1 = Ok ((), s2) ∧ s2.(DbLogic.pending) = None ∧
    reachable sample_db_params 2 StdFs s2 sample_batch.
Proof.
  apply (database_writer_unblocks sample_db_params 2 StdFs 1 full_db);
    [exact sample_settings|exact full_db_reachable|exact full_db_room].
Defined.

Lemma database_creation_witness :
  ∃ s, DbLogic.new sample_db_params 0 0 CreateOrOpen Missing = Ok s ∧ reachable sample_db_params 2 StdFs s [] ∧
    s.(DbLogic.pending) = None ∧ stands_for sample_db_params 2 StdFs s ∅.
Proof. apply (proj2 (database_creation sample_db_params 2 StdFs 0 0 CreateOrOpen Missing)). apply sample_settings. Defined.

(** ** A run *)

(** Five batches with their memtable compactions fill level 0, then the level
    compaction merges its tables. *)
Definition run_batch (key : byte) (value : byte) (s : DbLogic.DbLogic) : outcome DbLogic.DbLogic :=
  '(_, s) ← DbLogic.write_opts sample_db_params StdFs [Put [key] [value; value; value]; Delete [x7a]] (mkWriteOptions false) s;
  '(_, s) ← DbLogic.do_memtable_compaction sample_db_params StdFs s;
  Ok s.

Definition sample_run : outcome (bool * list nat * outcome Value * option EntryRef.EntryRef) :=
  s ← DbLogic.new sample_db_params 0 0 CreateOrOpen Missing;
  s ← run_batch x61 x01 s; s ← run_batch x62 x02 s; s ← run_batch x61 x03 s;
  s ← run_batch x63 x04 s; s ← run_batch x62 x05 s;
  '(worked, s) ← DbLogic.do_level_compaction sample_db_params 100 s;
  '((_, r1), s) ← DbLogic.get sample_db_params [x61] s;
  '((_, r2), s) ← DbLogic.get sample_db_params [x7a] s;
  Ok (worked, (length ∘ Level.tables) <$> s.(DbLogic.levels),
      match r1 with Some en => EntryRef.get_value en | None => OutOfFuel end, r2).

(** The same with a restart before the compaction: the last batch is still in the
    log, the others are in tables. *)
Definition sample_restart : outcome (nat * list nat * outcome Value) :=
  s ← DbLogic.new sample_db_params 0 0 CreateOrOpen Missing;
  s ← run_batch x61 x01 s; s ← run_batch x62 x02 s;
  '(_, s) ← DbLogic.write_opts sample_db_params StdFs [Put [x61] [x07]] (mkWriteOptions false) s;
  s ← DbLogic.new sample_db_params 10 1000 Open (Folder (files s));
  '((_, r), s) ← DbLogic.get sample_db_params [x61] s;
  Ok (length s.(DbLogic.memtable).(MemtableRef.inner).(Memtable.entries),
      (length ∘ Level.tables) <$> s.(DbLogic.levels),
      match r with Some en => EntryRef.get_value en | None => OutOfFuel end).

Example sample_restart_result : sample_restart = Ok (1, [2; 0], Ok [x07]).
Proof. vm_compute. reflexivity. Qed.

(** Two restarts with a write in between, in both builds: what the last session
    reads for the key that the first one wrote. *)
Definition two_restarts (io : IoMode) : outcome (option EntryRef.EntryRef) :=
  s ← DbLogic.new sample_db_params 0 0 CreateOrOpen Missing;
  '(_, s) ← DbLogic.write_opts sample_db_params io [Put [x61] [x07]] (mkWriteOptions true) s;
  s ← DbLogic.new sample_db_params 10 1000 Open (Folder (files s));
  '(_, s) ← DbLogic.write_opts sample_db_params io [Put [x62] [x08]] (mkWriteOptions true) s;
  s ← DbLogic.new sample_db_params 10 1000 Open (Folder (files s));
  '((_, r), _) ← DbLogic.get sample_db_params [x61] s;
  Ok r.

(** The default build loses the acknowledged and synchronized put. *)
Example default_build_loses_put : two_restarts StdFs = Ok None.
Proof. vm_compute. reflexivity. Qed.

Example positional_build_keeps_put :
  match two_restarts AsyncIo with Ok (Some en) => EntryRef.get_value en | _ => OutOfFuel end = Ok [x07].
Proof. vm_compute. reflexivity. Qed.

Example sample_run_result : sample_run = Ok (true, [0; 1], Ok [x03; x03; x03], None).
Proof. vm_compute. reflexivity. Qed.

End witnesses.
