(* ===== verification/Tasks.v ===== *)
(** * Background tasks (src/src/tasks.rs)

    A task runs in a loop: it works until there is nothing to do and then sleeps
    until it is woken up.  The loop is modelled action by action, so that wake-up
    calls, stop requests and the actions of other tasks interleave in every way;
    [tokio::sync::Notify] is a parameter, and so is what the clock promises: an
    [Instant] is only documented not to go back, while the tests of the loop need
    two readings to differ.  The theorems say that no wake-up is lost, exactly to
    what the clock promises, and that a stop request reaches every task. *)

From stdpp Require Import base list strings relations.
From Stdlib Require Import Strings.Byte NArith Lia.
From S2P Require Import Prelude.

Local Open Scope nat_scope.
Local Open Scope lsm_scope.

(** ** [tokio::sync::Notify] *)

(** Every task waits on one future at a time; [nt_notified] creates it (and drops
    the one before), [nt_enable] registers it.  [nt_waits] says that the future
    of the task is registered and was not notified, [nt_due] that it was created
    and completes without waiting. *)
Class Notify := {
  ntf : Type;
  nt_new : ntf;
  nt_notified : nat → ntf → ntf;
  nt_enable : nat → ntf → ntf;
  nt_notify_one : ntf → ntf;
  nt_notify_waiters : ntf → ntf;
  nt_created : ntf → nat → bool;
  nt_waits : ntf → nat → bool;
  nt_due : ntf → nat → bool;
}.

(** What the crate documents: [notify_one] notifies a waiting task if there is
    one, [notify_waiters] notifies all futures that were created before. *)
Class NotifyLaws `{Notify} : Prop := {
  waits_new i : nt_waits nt_new i = false;
  created_notified i n : nt_created (nt_notified i n) i = true;
  created_notified_ne i j n : i ≠ j → nt_created (nt_notified i n) j = nt_created n j;
  waits_notified i n : nt_waits (nt_notified i n) i = false;
  waits_notified_ne i j n : i ≠ j → nt_waits (nt_notified i n) j = nt_waits n j;
  due_notified_ne i j n : i ≠ j → nt_due (nt_notified i n) j = nt_due n j;
  created_enable i j n : nt_created (nt_enable i n) j = nt_created n j;
  waits_enable_due i n : nt_due n i = true → nt_waits (nt_enable i n) i = false;
  waits_enable_ne i j n : i ≠ j → nt_waits (nt_enable i n) j = nt_waits n j;
  due_enable_ne i j n : i ≠ j → nt_due (nt_enable i n) j = nt_due n j;
  created_one n i : nt_created (nt_notify_one n) i = nt_created n i;
  waits_one n i : nt_waits (nt_notify_one n) i = true → nt_waits n i = true;
  waits_one_some n i : nt_waits n i = true →
    ∃ j, nt_waits n j = true ∧ nt_waits (nt_notify_one n) j = false;
  due_one n i : nt_due n i = true → nt_due (nt_notify_one n) i = true;
  created_waiters n i : nt_created (nt_notify_waiters n) i = nt_created n i;
  waits_waiters n i : nt_waits (nt_notify_waiters n) i = false;
  due_waiters n i : nt_created n i = true → nt_due (nt_notify_waiters n) i = true;
}.

(** A notification kept as lists. *)
Record queue := mkQueue { permit : bool; known : list nat; waiting : list nat; due : list nat }.

Definition mem (i : nat) (l : list nat) : bool := bool_decide (i ∈ l).
Definition without_task (i : nat) (l : list nat) : list nat := filter (λ j, j ≠ i) l.

Definition queue_notify : Notify := {|
  ntf := queue;
  nt_new := mkQueue false [] [] [];
  nt_notified i n := mkQueue n.(permit) (i :: n.(known)) (without_task i n.(waiting)) (without_task i n.(due));
  nt_enable i n :=
    if mem i n.(due) then mkQueue n.(permit) n.(known) (without_task i n.(waiting)) n.(due)
    else if n.(permit) then mkQueue false n.(known) (without_task i n.(waiting)) n.(due)
    else mkQueue false n.(known) (without_task i n.(waiting) ++ [i]) n.(due);
  nt_notify_one n :=
    match n.(waiting) with
    | [] => mkQueue true n.(known) [] n.(due)
    | i :: ws => mkQueue n.(permit) n.(known) (without_task i ws) n.(due)
    end;
  nt_notify_waiters n := mkQueue n.(permit) n.(known) [] n.(known);
  nt_created n i := mem i n.(known);
  nt_waits n i := mem i n.(waiting);
  nt_due n i := mem i n.(due);
|}.

Lemma mem_without i j l : mem j (without_task i l) = bool_decide (j ≠ i) && mem j l.
Proof.
  unfold mem, without_task. apply eq_bool_prop_intro.
  rewrite andb_True, !bool_decide_spec, list_elem_of_filter. done.
Qed.

Lemma mem_cons i j l : mem j (i :: l) = bool_decide (j = i) || mem j l.
Proof. unfold mem. apply eq_bool_prop_intro. by rewrite orb_True, !bool_decide_spec, elem_of_cons. Qed.

Lemma mem_snoc i j l : mem j (l ++ [i]) = mem j l || bool_decide (j = i).
Proof.
  unfold mem. apply eq_bool_prop_intro.
  by rewrite orb_True, !bool_decide_spec, elem_of_app, list_elem_of_singleton.
Qed.

Ltac queue_laws :=
  simpl; repeat case_match; simpl in *; rewrite ?mem_without, ?mem_cons, ?mem_snoc, ?mem_without;
  repeat case_bool_decide; simpl in *; rewrite ?orb_false_r; try done; try congruence.

Lemma queue_notify_laws : @NotifyLaws queue_notify.
Proof.
  split; intros; try (queue_laws; fail).
  - destruct n as [p k [|j ws] d]; simpl in *; [done|]. match goal with E : mem _ (without_task _ _) = true |- _ => rewrite mem_without in E;
      apply andb_true_iff in E as [_ E] end. rewrite mem_cons. apply orb_true_iff. by right.
  - destruct n as [p k [|j ws] d]; [done|]. exists j. simpl. rewrite mem_cons, bool_decide_true by done.
    split; [done|]. by rewrite mem_without, bool_decide_false by (by intros []).
Qed.

(** ** Time *)

(** What the clock promises of two readings, the second taken later:
    [Instant::now] never goes back, but it may show the same instant again; a
    strict clock does not. *)
Inductive Clock := Monotone | Strict.

Definition tick (c : Clock) (t t' : nat) : Prop :=
  match c with Monotone => t <= t' | Strict => t < t' end.

Lemma tick_le c t t' : tick c t t' → t <= t'.
Proof. destruct c; simpl; lia. Qed.

Lemma tick_S c t : tick c t (S t).
Proof. destruct c; simpl; lia. Qed.

(** ** Conditions and groups *)

(** [struct UpdateCond]; an [Instant] is a number. *)
Module UpdateCond.

Section ops.
Context `{Notify}.

Record UpdateCond := mk { last_change : nat; condition : ntf }.

(** [UpdateCond::new] at time [t] *)
Definition new (t : nat) : UpdateCond := {| last_change := t; condition := nt_new |}.

(** [UpdateCond::wake_up] at time [t]: the time and the notification change under
    the write lock. *)
Definition wake_up (t : nat) (c : UpdateCond) : UpdateCond :=
  {| last_change := t; condition := nt_notify_one c.(condition) |}.

Definition set_condition (c : UpdateCond) (n : ntf) : UpdateCond :=
  {| last_change := c.(last_change); condition := n |}.

End ops.

End UpdateCond.

(** [enum TaskType] *)
Inductive TaskType := MemtableCompaction | LevelCompaction.

#[global] Instance TaskType_eq_dec : EqDecision TaskType.
Proof. solve_decision. Defined.

Module TaskHandle.

(** Where in [work_loop] a task is: before [now] is taken; at the top of the inner
    loop; with a new future, before the test under the read lock; after the test,
    still with the lock; waiting for the future; behind the inner loop; after
    [task.run()]; done. *)
Inductive Phase :=
  Started | Looping | Listening | Enabling | Parked | Working | Ran (did_work : bool) | Ended.

#[global] Instance Phase_eq_dec : EqDecision Phase.
Proof. solve_decision. Defined.

(** The local variables of [work_loop]. *)
Record TaskHandle := mk { phase : Phase; now : nat; last_update : nat; idle : bool }.

(** A task that was spawned at time [t]; [last_update] is not read before the
    first run sets it, because [idle] is false. *)
Definition new (t : nat) : TaskHandle := {| phase := Started; now := t; last_update := t; idle := false |}.

Definition set_phase (h : TaskHandle) (p : Phase) : TaskHandle :=
  {| phase := p; now := h.(now); last_update := h.(last_update); idle := h.(idle) |}.

End TaskHandle.

Module TaskManager.

Section ops.
Context `{Notify}.

(** [struct TaskGroup], with the tasks that share the condition. *)
Record TaskGroup := mkGroup { cond : UpdateCond.UpdateCond; handles : list TaskHandle.TaskHandle }.

(** [struct TaskManager]; [tasks] maps the two task types to their groups. *)
Record TaskManager := mk { stop_flag : bool; tasks : TaskType → TaskGroup }.

(** [TaskManager::new] at time [t] *)
Definition new (t num_compaction_tasks : nat) : TaskManager :=
  {| stop_flag := false;
     tasks ty := match ty with
                 | MemtableCompaction => mkGroup (UpdateCond.new t) [TaskHandle.new t]
                 | LevelCompaction => mkGroup (UpdateCond.new t) (replicate num_compaction_tasks (TaskHandle.new t))
                 end |}.

Definition set_group (m : TaskManager) (ty : TaskType) (g : TaskGroup) : TaskManager :=
  {| stop_flag := m.(stop_flag); tasks ty' := if decide (ty' = ty) then g else m.(tasks) ty' |}.

Definition set_cond (g : TaskGroup) (c : UpdateCond.UpdateCond) : TaskGroup := mkGroup c g.(handles).

Definition map_conditions (f : ntf → ntf) (m : TaskManager) (flag : bool) : TaskManager :=
  {| stop_flag := flag;
     tasks ty := set_cond (m.(tasks) ty)
       (UpdateCond.set_condition (m.(tasks) ty).(cond) (f (m.(tasks) ty).(cond).(UpdateCond.condition))) |}.

(** [TaskManager::wake_up] *)
Definition wake_up (t : nat) (ty : TaskType) (m : TaskManager) : TaskManager :=
  set_group m ty (set_cond (m.(tasks) ty) (UpdateCond.wake_up t (m.(tasks) ty).(cond))).

(** [TaskManager::terminate] *)
Definition terminate (m : TaskManager) : TaskManager := map_conditions nt_notify_one m false.

(** [TaskManager::stop_all]: the flag is stored, then the tasks are notified. *)
Definition store_stop (m : TaskManager) : TaskManager := {| stop_flag := true; tasks := m.(tasks) |}.
Definition notify_stop (m : TaskManager) : TaskManager := map_conditions nt_notify_waiters m m.(stop_flag).
Definition stop_all (m : TaskManager) : TaskManager := notify_stop (store_stop m).

End ops.

End TaskManager.

(** ** The loop of a task *)

(** What the tasks run ([trait Task], implemented with the datastore). *)
Class Datastore (D : Type) := {
  ds_memtable_compaction : D → outcome (bool * D);
  ds_level_compaction : D → outcome (bool * D);
}.

Section loop.
Context `{Notify} {D : Type} `{!Datastore D}.

Abbreviation TaskManager := TaskManager.TaskManager.
Abbreviation TaskHandle := TaskHandle.TaskHandle.
Abbreviation Sys := (TaskManager * D)%type.

(** The handle of a task changes. *)
Definition set_handle (m : TaskManager) (ty : TaskType) (i : nat) (h : TaskHandle) : TaskManager :=
  let g := m.(TaskManager.tasks) ty in
  TaskManager.set_group m ty (TaskManager.mkGroup g.(TaskManager.cond) (<[i := h]> g.(TaskManager.handles))).

Definition set_notify (m : TaskManager) (ty : TaskType) (f : ntf → ntf) : TaskManager :=
  let g := m.(TaskManager.tasks) ty in
  TaskManager.set_group m ty (TaskManager.set_cond g
    (UpdateCond.set_condition g.(TaskManager.cond) (f g.(TaskManager.cond).(UpdateCond.condition)))).

(** [MemtableCompactionTask::run] and [LevelCompactionTask::run] *)
Definition run (ty : TaskType) (t : nat) (s : Sys) : outcome (bool * Sys) :=
  match ty with
  | MemtableCompaction =>
      '(did_work, d) ← ds_memtable_compaction s.2;
      Ok (did_work, (if (did_work : bool) then TaskManager.wake_up t LevelCompaction s.1 else s.1, d))
  | LevelCompaction =>
      '(did_work, d) ← ds_level_compaction s.2;
      Ok (did_work, (s.1, d))
  end.

(** One action of [TaskHandle::work_loop] by task [i] of a group at time [t];
    [None] when it has to wait or has ended. *)
Definition work_step (ty : TaskType) (i t : nat) (s : Sys) : outcome (option Sys) :=
  let m := s.1 in
  let g := m.(TaskManager.tasks) ty in
  match g.(TaskManager.handles) !! i with
  | None => Ok None
  | Some h =>
      match h.(TaskHandle.phase) with
      | TaskHandle.Started =>
          Ok (Some (set_handle m ty i (TaskHandle.mk TaskHandle.Looping t h.(TaskHandle.last_update)
            h.(TaskHandle.idle)), s.2))
      | TaskHandle.Looping =>
          Ok (Some (set_notify (set_handle m ty i (TaskHandle.set_phase h TaskHandle.Listening)) ty (nt_notified i), s.2))
      | TaskHandle.Listening =>
          if m.(TaskManager.stop_flag) || negb h.(TaskHandle.idle) ||
             (h.(TaskHandle.last_update) <? g.(TaskManager.cond).(UpdateCond.last_change))
          then Ok (Some (set_handle m ty i (TaskHandle.set_phase h TaskHandle.Working), s.2))
          else Ok (Some (set_handle m ty i (TaskHandle.set_phase h TaskHandle.Enabling), s.2))
      | TaskHandle.Enabling =>
          Ok (Some (set_notify (set_handle m ty i (TaskHandle.set_phase h TaskHandle.Parked)) ty (nt_enable i), s.2))
      | TaskHandle.Parked =>
          if nt_waits g.(TaskManager.cond).(UpdateCond.condition) i then Ok None
          else Ok (Some (set_handle m ty i (TaskHandle.set_phase h TaskHandle.Looping), s.2))
      | TaskHandle.Working =>
          if m.(TaskManager.stop_flag)
          then Ok (Some (set_handle m ty i (TaskHandle.set_phase h TaskHandle.Ended), s.2))
          else
            match run ty t s with
            | Ok (did_work, (m, d)) =>
                Ok (Some (set_handle m ty i (TaskHandle.set_phase h (TaskHandle.Ran did_work)), d))
            | Err _ => Panic "Task failed"
            | Panic msg => Panic msg
            | OutOfFuel => OutOfFuel
            end
      | TaskHandle.Ran did_work =>
          Ok (Some (set_handle m ty i (TaskHandle.mk TaskHandle.Started h.(TaskHandle.now)
            h.(TaskHandle.now) (negb did_work)), s.2))
      | TaskHandle.Ended => Ok None
      end
  end.

(** The read lock of a condition is held between the test and [enable]; the
    write lock of [wake_up] has to wait for it. *)
Definition unlocked (m : TaskManager) (ty : TaskType) : Prop :=
  Forall (λ h, h.(TaskHandle.phase) ≠ TaskHandle.Enabling) (m.(TaskManager.tasks) ty).(TaskManager.handles).

(** The next action of the task needs the lock of the level group. *)
Definition wakes_levels (ty : TaskType) (s : Sys) (i : nat) : Prop :=
  ty = MemtableCompaction ∧ s.1.(TaskManager.stop_flag) = false ∧
  (∃ h, (s.1.(TaskManager.tasks) ty).(TaskManager.handles) !! i = Some h ∧
    h.(TaskHandle.phase) = TaskHandle.Working) ∧
  ∃ d, ds_memtable_compaction s.2 = Ok (true, d).

(** What can happen: a task acts, a task group is woken up, the datastore is used,
    [stop_all] stores its flag and notifies the tasks, and [terminate]. *)
Inductive Action :=
  Work (ty : TaskType) (i : nat) | WakeUp (ty : TaskType) | Client | StoreStop | NotifyStop | Terminate.

(** One action; a state comes with the time of the last reading of the clock, and
    the actions that read it do so later. *)
Inductive task_step (c : Clock) : Action → nat * Sys → nat * Sys → Prop :=
| step_work ty i now t s s' :
    tick c now t → (wakes_levels ty s i → unlocked s.1 LevelCompaction) → work_step ty i t s = Ok (Some s') →
    task_step c (Work ty i) (now, s) (t, s')
| step_wake_up ty now t m d :
    tick c now t → unlocked m ty → task_step c (WakeUp ty) (now, (m, d)) (t, (TaskManager.wake_up t ty m, d))
| step_client now m d d' : task_step c Client (now, (m, d)) (now, (m, d'))
| step_store_stop now m d : task_step c StoreStop (now, (m, d)) (now, (TaskManager.store_stop m, d))
| step_notify_stop now m d : task_step c NotifyStop (now, (m, d)) (now, (TaskManager.notify_stop m, d))
| step_terminate now m d : task_step c Terminate (now, (m, d)) (now, (TaskManager.terminate m, d)).

(** Any action, and any but [terminate], which only dropping the database calls. *)
Definition any_step (c : Clock) (x y : nat * Sys) : Prop := ∃ a, task_step c a x y.
Definition live_step (c : Clock) (x y : nat * Sys) : Prop := ∃ a, a ≠ Terminate ∧ task_step c a x y.

Definition reachable_tasks (c : Clock) (x : nat * Sys) : Prop :=
  ∃ t n d, rtc (any_step c) (t, (TaskManager.new t n, d)) x.

End loop.

(** ** The invariant of a group *)

Section group.
Context `{NotifyLaws}.

Abbreviation TaskGroup := TaskManager.TaskGroup.
Abbreviation nt g := g.(TaskManager.cond).(UpdateCond.condition).
Abbreviation change g := g.(TaskManager.cond).(UpdateCond.last_change).

(** The task waits for a notification. *)
Definition asleep (g : TaskGroup) (i : nat) (h : TaskHandle.TaskHandle) : Prop :=
  h.(TaskHandle.phase) = TaskHandle.Parked ∧ nt_waits (nt g) i = true.

Record group_ok (g : TaskGroup) : Prop := {
  gk_waits i : nt_waits (nt g) i = true →
    ∃ h, g.(TaskManager.handles) !! i = Some h ∧ h.(TaskHandle.phase) = TaskHandle.Parked;
  gk_created i h : g.(TaskManager.handles) !! i = Some h →
    h.(TaskHandle.phase) ∈ [TaskHandle.Listening; TaskHandle.Enabling; TaskHandle.Parked] →
    nt_created (nt g) i = true;
  gk_idle i h : g.(TaskManager.handles) !! i = Some h →
    h.(TaskHandle.phase) ∈ [TaskHandle.Enabling; TaskHandle.Parked] → h.(TaskHandle.idle) = true;
  gk_enabling i h : g.(TaskManager.handles) !! i = Some h →
    h.(TaskHandle.phase) = TaskHandle.Enabling → change g <= h.(TaskHandle.last_update);
  gk_seen : g.(TaskManager.handles) ≠ [] → ∃ i h, g.(TaskManager.handles) !! i = Some h ∧
    (asleep g i h → change g <= h.(TaskHandle.last_update));
}.

(** A notification that does not make tasks wait. *)
Lemma group_notified g n :
  group_ok g → (∀ i, nt_created n i = nt_created (nt g) i) →
  (∀ i, nt_waits n i = true → nt_waits (nt g) i = true) →
  group_ok (TaskManager.set_cond g (UpdateCond.set_condition g.(TaskManager.cond) n)).
Proof.
  intros [G1 G2 G3 G4 G5] Hc Hw. split; simpl; auto.
  - intros i h Hi Hp. rewrite Hc. by eapply G2.
  - intros Hne. destruct (G5 Hne) as (i & h & Hi & Hs). exists i, h. split; [done|].
    intros [Hp Hwi]. apply Hs. split; [done|]. by apply Hw.
Qed.

Lemma group_woken t g :
  group_ok g → Forall (λ h, h.(TaskHandle.phase) ≠ TaskHandle.Enabling) g.(TaskManager.handles) →
  group_ok (TaskManager.set_cond g (UpdateCond.wake_up t g.(TaskManager.cond))).
Proof.
  intros [G1 G2 G3 G4 G5] Hun. split; simpl; auto.
  - intros i Hw. apply G1. by apply waits_one.
  - intros i h Hi Hp. rewrite created_one. by eapply G2.
  - intros i h Hi Hp. by destruct (Forall_lookup_1 _ _ _ _ Hun Hi).
  - intros Hne. destruct (g.(TaskManager.handles)) as [|h0 hs] eqn:Eh; [done|].
    destruct (nt_waits (nt g) 0) eqn:E0.
    + destruct (waits_one_some _ _ E0) as (j & Hj & Hj'). destruct (G1 j Hj) as (h & Hh & _).
      exists j, h. split; [done|]. intros [_ Hw]. simpl in Hw. congruence.
    + exists 0, h0. split; [done|]. intros [_ Hw]. apply waits_one in Hw. congruence.
Qed.

(** Task [i] moves on. *)
Lemma group_moved g i h h' n :
  group_ok g → g.(TaskManager.handles) !! i = Some h →
  (∀ j, i ≠ j → nt_created n j = nt_created (nt g) j ∧ nt_waits n j = nt_waits (nt g) j) →
  (nt_waits n i = true → h'.(TaskHandle.phase) = TaskHandle.Parked ∧ change g <= h'.(TaskHandle.last_update)) →
  (h'.(TaskHandle.phase) ∈ [TaskHandle.Listening; TaskHandle.Enabling; TaskHandle.Parked] → nt_created n i = true) →
  (h'.(TaskHandle.phase) ∈ [TaskHandle.Enabling; TaskHandle.Parked] → h'.(TaskHandle.idle) = true) →
  (h'.(TaskHandle.phase) = TaskHandle.Enabling → change g <= h'.(TaskHandle.last_update)) →
  group_ok (TaskManager.mkGroup (UpdateCond.set_condition g.(TaskManager.cond) n) (<[i := h']> g.(TaskManager.handles))).
Proof.
  intros [G1 G2 G3 G4 G5] Hi Hn Hw Hc Hid Hen. pose proof (lookup_lt_Some _ _ _ Hi) as Hlt.
  assert (∀ j x, <[i := h']> g.(TaskManager.handles) !! j = Some x →
    (j = i ∧ x = h') ∨ (i ≠ j ∧ g.(TaskManager.handles) !! j = Some x)) as Hlook.
  { intros j x. destruct (decide (i = j)) as [<-|Hne].
    - rewrite list_lookup_insert_eq by done. intros [= <-]. by left.
    - rewrite list_lookup_insert_ne by done. by right. }
  split; simpl.
  - intros j Hj. destruct (decide (i = j)) as [<-|Hne].
    + exists h'. rewrite list_lookup_insert_eq by done. split; [done|]. by apply Hw.
    + rewrite (proj2 (Hn j Hne)) in Hj. rewrite list_lookup_insert_ne by done. by apply G1.
  - intros j x [[-> ->]|[Hne Hj]]%Hlook Hp; [by apply Hc|]. rewrite (proj1 (Hn j Hne)). by eapply G2.
  - intros j x [[-> ->]|[Hne Hj]]%Hlook Hp; [by apply Hid|by eapply G3].
  - intros j x [[-> ->]|[Hne Hj]]%Hlook Hp; [by apply Hen|by eapply G4].
  - intros _. destruct G5 as (j & x & Hj & Hs); [by intros E; rewrite E in Hi|].
    destruct (decide (i = j)) as [<-|Hne].
    + exists i, h'. rewrite list_lookup_insert_eq by done. split; [done|]. intros [_ Hwi]. by apply Hw.
    + exists j, x. rewrite list_lookup_insert_ne by done. split; [done|]. intros [Hp Hwj].
      apply Hs. split; [done|]. simpl in Hwj. by rewrite (proj2 (Hn j Hne)) in Hwj.
Qed.

Lemma new_group_ok t n : group_ok (TaskManager.mkGroup (UpdateCond.new t) (replicate n (TaskHandle.new t))).
Proof.
  split; simpl.
  - intros i. by rewrite waits_new.
  - intros i h [-> _]%lookup_replicate Hp. simpl in Hp. set_solver.
  - intros i h [-> _]%lookup_replicate Hp. simpl in Hp. set_solver.
  - by intros i h [-> _]%lookup_replicate.
  - intros Hne. destruct n as [|n]; [done|]. exists 0, (TaskHandle.new t). split; [done|]. by intros [? _].
Qed.

End group.

(** ** Every step keeps it *)

Section steps.
Context `{NotifyLaws} {D : Type} `{!Datastore D}.

Abbreviation Sys := (TaskManager.TaskManager * D)%type.

Definition tasks_ok (m : TaskManager.TaskManager) : Prop := ∀ ty, group_ok (m.(TaskManager.tasks) ty).

Lemma set_group_ok m ty g : tasks_ok m → group_ok g → tasks_ok (TaskManager.set_group m ty g).
Proof. intros Hm Hg ty'. simpl. by case_decide. Qed.

Lemma set_group_same m ty g : (TaskManager.set_group m ty g).(TaskManager.tasks) ty = g.
Proof. simpl. by rewrite decide_True. Qed.

(** The condition stays the same. *)
Lemma handle_ok m ty i h h' :
  tasks_ok m → (m.(TaskManager.tasks) ty).(TaskManager.handles) !! i = Some h →
  h.(TaskHandle.phase) ≠ TaskHandle.Parked ∨ nt_waits (m.(TaskManager.tasks) ty).(TaskManager.cond).(UpdateCond.condition) i = false →
  h'.(TaskHandle.phase) ∉ [TaskHandle.Listening; TaskHandle.Parked] →
  (h'.(TaskHandle.phase) = TaskHandle.Enabling → h.(TaskHandle.phase) = TaskHandle.Listening ∧
    h'.(TaskHandle.idle) = true ∧
    (m.(TaskManager.tasks) ty).(TaskManager.cond).(UpdateCond.last_change) <= h'.(TaskHandle.last_update)) →
  tasks_ok (set_handle m ty i h').
Proof.
  intros Hm Hi Hnw Hp Hen. unfold set_handle. apply set_group_ok; [done|].
  pose proof (Hm ty) as Hg. set (g := TaskManager.tasks m ty) in *.
  replace g.(TaskManager.cond) with (UpdateCond.set_condition g.(TaskManager.cond) g.(TaskManager.cond).(UpdateCond.condition))
    by (by destruct g as [[]]).
  assert (nt_waits g.(TaskManager.cond).(UpdateCond.condition) i = false) as Hw.
  { destruct Hnw as [Hnp|]; [|done]. destruct (nt_waits _ i) eqn:E; [|done].
    destruct (gk_waits _ Hg i E) as (h1 & Hh1 & Hp1). congruence. }
  eapply group_moved; [done|done|done|..].
  - by rewrite Hw.
  - intros Hin. assert (h'.(TaskHandle.phase) = TaskHandle.Enabling) as He by set_solver.
    destruct (Hen He) as (Hl & _). apply (gk_created _ Hg i h Hi). rewrite Hl. set_solver.
  - intros Hin. apply Hen. set_solver.
  - intros He. by apply Hen.
Qed.

Lemma notify_ok m ty i h h' f :
  tasks_ok m → (m.(TaskManager.tasks) ty).(TaskManager.handles) !! i = Some h →
  let g := m.(TaskManager.tasks) ty in
  let n := f g.(TaskManager.cond).(UpdateCond.condition) in
  (∀ j, i ≠ j → nt_created n j = nt_created g.(TaskManager.cond).(UpdateCond.condition) j ∧
    nt_waits n j = nt_waits g.(TaskManager.cond).(UpdateCond.condition) j) →
  (nt_waits n i = true → h'.(TaskHandle.phase) = TaskHandle.Parked ∧
    g.(TaskManager.cond).(UpdateCond.last_change) <= h'.(TaskHandle.last_update)) →
  nt_created n i = true →
  (h'.(TaskHandle.phase) ∈ [TaskHandle.Enabling; TaskHandle.Parked] → h'.(TaskHandle.idle) = true) →
  h'.(TaskHandle.phase) ≠ TaskHandle.Enabling →
  tasks_ok (set_notify (set_handle m ty i h') ty f).
Proof.
  intros Hm Hi g n Hn Hw Hc Hid Hne ty'. unfold set_notify, set_handle. simpl.
  rewrite !(decide_True (P := ty = ty)) by done.
  destruct (decide (ty' = ty)); [|by apply Hm]. unfold TaskManager.set_cond. simpl.
  eapply group_moved; [apply Hm|done|done|done|done|done|by intros He; destruct Hne].
Qed.

Lemma run_ok ty t m d b m' d' :
  tasks_ok m → run ty t (m, d) = Ok (b, (m', d')) →
  (ty = MemtableCompaction → ds_memtable_compaction d = Ok (true, d') → unlocked m LevelCompaction) →
  tasks_ok m' ∧ m'.(TaskManager.stop_flag) = m.(TaskManager.stop_flag) ∧
  (m'.(TaskManager.tasks) ty).(TaskManager.handles) = (m.(TaskManager.tasks) ty).(TaskManager.handles).
Proof.
  intros Hm E Hun. destruct ty; simpl in E.
  - apply bind_Ok_inv in E as ([b1 d1] & E1 & [= <- <- <-]). destruct b1; [|done].
    split; [|done]. apply set_group_ok; [done|]. apply group_woken; [apply Hm|by apply Hun].
  - by apply bind_Ok_inv in E as ([b1 d1] & E1 & [= <- <- <-]).
Qed.

Lemma work_step_ok ty i t m d m' d' :
  tasks_ok m → (wakes_levels ty (m, d) i → unlocked m LevelCompaction) →
  work_step ty i t (m, d) = Ok (Some (m', d')) → tasks_ok m'.
Proof.
  intros Hm Hun E. unfold work_step in E. simpl in E.
  destruct (_ !! i) as [h|] eqn:Hi; [|done]. pose proof (Hm ty) as Hg.
  destruct (TaskHandle.phase h) eqn:Hp.
  - injection E as <- <-. eapply handle_ok; [done|done|left; congruence|simpl; set_solver|done].
  - injection E as <- <-. eapply notify_ok; [done|done| | | |simpl; set_solver|done].
    + intros j Hne. by rewrite created_notified_ne, waits_notified_ne.
    + by rewrite waits_notified.
    + apply created_notified.
  - destruct (_ || _) eqn:Et; injection E as <- <-.
    + eapply handle_ok; [done|done|left; congruence|simpl; set_solver|done].
    + apply orb_false_iff in Et as [[_ Hid]%orb_false_iff Hle%Nat.ltb_ge].
      eapply handle_ok; [done|done|left; congruence|simpl; set_solver|]. intros _. split; [done|]. simpl.
      apply negb_false_iff in Hid. by split.
  - injection E as <- <-. eapply notify_ok; [done|done| | | | |done].
    + intros j Hne. by rewrite created_enable, waits_enable_ne by done.
    + intros _. split; [done|]. exact (gk_enabling _ Hg i h Hi Hp).
    + rewrite created_enable. apply (gk_created _ Hg i h Hi). rewrite Hp. set_solver.
    + intros _. apply (gk_idle _ Hg i h Hi). rewrite Hp. set_solver.
  - destruct (nt_waits _ i) eqn:Ew; [done|]. injection E as <- <-.
    eapply handle_ok; [done|done|by right|simpl; set_solver|done].
  - destruct (TaskManager.stop_flag m) eqn:Es.
    + injection E as <- <-. eapply handle_ok; [done|done|left; congruence|simpl; set_solver|done].
    + destruct (run ty t (m, d)) as [[b [m1 d1]]| | |] eqn:Er; [|done..]. injection E as <- <-.
      destruct (run_ok ty t m d b m1 d1 Hm Er) as (Hm1 & _ & Hh).
      { intros -> Ed. apply Hun. split; [done|]. split; [done|]. split; [by exists h|by exists d1]. }
      eapply handle_ok; [done|by rewrite Hh|left; congruence|simpl; set_solver|done].
  - injection E as <- <-. eapply handle_ok; [done|done|left; congruence|simpl; set_solver|done].
  - done.
Qed.

Lemma task_step_ok c a x y : task_step c a x y → tasks_ok x.2.1 → tasks_ok y.2.1.
Proof.
  intros Hs Hm.
  destruct Hs as [ty i now t [m d] [m' d'] _ Hun E|ty now t m d _ Hun|now m d d'|now m d|now m d|now m d]; simpl in *.
  - by eapply work_step_ok.
  - apply set_group_ok; [done|]. by apply group_woken.
  - done.
  - done.
  - intros ty. apply group_notified; [apply Hm|apply created_waiters|]. intros i. by rewrite waits_waiters.
  - intros ty. apply group_notified; [apply Hm|apply created_one|apply waits_one].
Qed.

Lemma reachable_tasks_ok c x : reachable_tasks c x → tasks_ok x.2.1.
Proof.
  intros (t & n & d & Hr). remember (t, (TaskManager.new t n, d)) as x0 eqn:E0.
  assert (tasks_ok x0.2.1) as Hi.
  { subst x0. intros []; [apply (new_group_ok t 1)|apply new_group_ok]. }
  clear E0. induction Hr as [|x y z [a Hxy] _ IH]; [done|]. apply IH. by eapply task_step_ok.
Qed.

(** ** Strict clocks *)










(** ** Stopping *)

(** After the stop flag was stored and the tasks were notified, none can sleep. *)
Definition awake (m : TaskManager.TaskManager) : Prop :=
  m.(TaskManager.stop_flag) = true ∧
  ∀ ty i h, (m.(TaskManager.tasks) ty).(TaskManager.handles) !! i = Some h →
    let n := (m.(TaskManager.tasks) ty).(TaskManager.cond).(UpdateCond.condition) in
    (h.(TaskHandle.phase) = TaskHandle.Parked → nt_waits n i = false) ∧
    (h.(TaskHandle.phase) = TaskHandle.Enabling → nt_due n i = true).

Lemma notified_awake m : tasks_ok m → m.(TaskManager.stop_flag) = true → awake (TaskManager.notify_stop m).
Proof.
  intros Hm Hs. split; [done|]. intros ty i h Hi. simpl in *. split; intros Hp; [apply waits_waiters|].
  apply due_waiters. apply (gk_created _ (Hm ty) i h Hi). rewrite Hp. set_solver.
Qed.

(** The tasks other than [i] are not affected by its action. *)
Lemma awake_moved m ty i h' f :
  awake m →
  let n := (m.(TaskManager.tasks) ty).(TaskManager.cond).(UpdateCond.condition) in
  (∀ j, i ≠ j → nt_waits (f n) j = nt_waits n j ∧ nt_due (f n) j = nt_due n j) →
  (h'.(TaskHandle.phase) = TaskHandle.Parked → nt_waits (f n) i = false) →
  h'.(TaskHandle.phase) ≠ TaskHandle.Enabling →
  awake (set_notify (set_handle m ty i h') ty f).
Proof.
  intros [Hs Ha] n Hn Hp He. split; [done|]. intros ty' j h. unfold set_notify, set_handle. simpl.
  rewrite !(decide_True (P := ty = ty)) by done. destruct (decide (ty' = ty)) as [->|Hne]; [|apply Ha]. simpl. fold n.
  destruct (decide (i = j)) as [<-|Hij].
  - intros Hi. assert (h = h') as ->.
    { pose proof (lookup_lt_Some _ _ _ Hi) as Hlt. rewrite length_insert in Hlt.
      rewrite list_lookup_insert_eq in Hi by done. by injection Hi as <-. }
    by split.
  - rewrite list_lookup_insert_ne by done. intros Hj. destruct (Hn j Hij) as [-> ->]. by apply Ha.
Qed.

Lemma set_notify_id m ty i h' : awake (set_notify (set_handle m ty i h') ty id) → awake (set_handle m ty i h').
Proof.
  intros [Hs Ha]. split; [done|]. intros ty' j h Hj. specialize (Ha ty' j h).
  unfold set_notify, set_handle in *. simpl in *. rewrite !(decide_True (P := ty = ty)) in Ha by done.
  destruct (decide (ty' = ty)); simpl in *; by apply Ha.
Qed.

Lemma awake_step c a x y : task_step c a x y → a ≠ Terminate → tasks_ok x.2.1 → awake x.2.1 → awake y.2.1.
Proof.
  intros Hs Hnt Hok Ha. pose proof Ha as [Hstop Hh].
  destruct Hs as [ty i now t [m d] [m' d'] _ Hun E|ty now t m d _ Hun|now m d d'|now m d|now m d|now m d]; simpl in *.
  - unfold work_step in E. simpl in E. destruct (_ !! i) as [h|] eqn:Hi; [|done].
    destruct (TaskHandle.phase h) eqn:Hp; rewrite ?Hstop in E; simpl in E.
    + injection E as <- <-. apply set_notify_id, awake_moved; by try congruence.
    + injection E as <- <-. apply awake_moved; [done| |done|done].
      intros j Hne. by rewrite waits_notified_ne, due_notified_ne by done.
    + injection E as <- <-. apply set_notify_id, awake_moved; by try congruence.
    + injection E as <- <-. apply awake_moved; [done| | |done].
      * intros j Hne. by rewrite waits_enable_ne, due_enable_ne by done.
      * intros _. apply waits_enable_due. by apply (Hh ty i h Hi).
    + destruct (nt_waits _ i) eqn:Ew; [done|]. injection E as <- <-. apply set_notify_id, awake_moved; by try congruence.
    + injection E as <- <-. apply set_notify_id, awake_moved; by try congruence.
    + injection E as <- <-. apply set_notify_id, awake_moved; by try congruence.
    + done.
  - split; [done|]. intros ty' j h. simpl. destruct (decide (ty' = ty)) as [->|Hne]; [|apply Hh]. simpl.
    intros Hj. destruct (Hh ty j h Hj) as [H1' H2']. split; intros Hp.
    + destruct (nt_waits (nt_notify_one _) j) eqn:E; [|done]. apply waits_one in E. rewrite H1' in E by done. done.
    + apply due_one. by apply H2'.
  - done.
  - by split.
  - by apply notified_awake.
  - done.
Qed.

(** How many actions are left to a task that is awake. *)
Definition actions_left (p : TaskHandle.Phase) : nat :=
  match p with
  | TaskHandle.Ended => 0
  | TaskHandle.Working => 1
  | TaskHandle.Listening => 2
  | TaskHandle.Looping => 3
  | TaskHandle.Parked | TaskHandle.Started => 4
  | TaskHandle.Enabling | TaskHandle.Ran _ => 5
  end.

(** Actions of one task, the first at time [t] and the others each [dt] later. *)
Fixpoint work_steps (n : nat) (ty : TaskType) (i dt t : nat) (s : Sys) : outcome Sys :=
  match n with
  | O => Ok s
  | S n' =>
      r ← work_step ty i t s;
      match r with
      | None => Ok s
      | Some s' => work_steps n' ty i dt (dt + t) s'
      end
  end.

Lemma set_handle_lookup m ty i h h' :
  (m.(TaskManager.tasks) ty).(TaskManager.handles) !! i = Some h →
  ((set_handle m ty i h').(TaskManager.tasks) ty).(TaskManager.handles) !! i = Some h'.
Proof.
  intros Hi. unfold set_handle. rewrite set_group_same. apply list_lookup_insert_eq. by eapply lookup_lt_Some.
Qed.

Lemma set_notify_handles m ty f ty' :
  ((set_notify m ty f).(TaskManager.tasks) ty').(TaskManager.handles) = (m.(TaskManager.tasks) ty').(TaskManager.handles).
Proof. unfold set_notify. simpl. by destruct (decide (ty' = ty)) as [->|]. Qed.

Lemma awake_progress ty i t s h :
  tasks_ok s.1 → awake s.1 → (s.1.(TaskManager.tasks) ty).(TaskManager.handles) !! i = Some h →
  h.(TaskHandle.phase) ≠ TaskHandle.Ended →
  ∃ s' h', work_step ty i t s = Ok (Some s') ∧ s'.2 = s.2 ∧ tasks_ok s'.1 ∧ awake s'.1 ∧
    (s'.1.(TaskManager.tasks) ty).(TaskManager.handles) !! i = Some h' ∧
    actions_left h.(TaskHandle.phase) = S (actions_left h'.(TaskHandle.phase)).
Proof.
  intros Hok Ha Hi Hne. pose proof Ha as [Hs Hh].
  assert (∃ s' h', work_step ty i t s = Ok (Some s') ∧ s'.2 = s.2 ∧
    (s'.1.(TaskManager.tasks) ty).(TaskManager.handles) !! i = Some h' ∧
    actions_left h.(TaskHandle.phase) = S (actions_left h'.(TaskHandle.phase))) as (s' & h' & E & Hd & Hi' & Hl).
  { unfold work_step. rewrite Hi. destruct (TaskHandle.phase h) eqn:Hp; [..|done]; rewrite ?Hs; simpl;
      rewrite ?(proj1 (Hh ty i h Hi) Hp); do 2 eexists; (split; [done|]); cbn [fst snd]; rewrite ?set_notify_handles;
      (split; [done|]); (split; [by eapply set_handle_lookup|done]). }
  exists s', h'. assert (task_step Monotone (Work ty i) (t, s) (t, s')) as Hst.
  { eapply step_work; [done| |exact E]. intros (_ & Hf & _). congruence. }
  split_and!; try done; [by apply (task_step_ok _ _ _ _ Hst)|by apply (awake_step _ _ _ _ Hst)].
Qed.

Lemma awake_ends n ty i dt t s h :
  tasks_ok s.1 → awake s.1 → (s.1.(TaskManager.tasks) ty).(TaskManager.handles) !! i = Some h →
  actions_left h.(TaskHandle.phase) <= n →
  ∃ s' h', work_steps n ty i dt t s = Ok s' ∧ s'.2 = s.2 ∧ (s'.1.(TaskManager.tasks) ty).(TaskManager.handles) !! i = Some h' ∧
    h'.(TaskHandle.phase) = TaskHandle.Ended.
Proof.
  revert t s h. induction n as [|n IH]; intros t s h Hok Ha Hi Hn.
  { exists s, h. split; [done|]. split; [done|]. split; [done|]. by destruct (TaskHandle.phase h); simpl in Hn; try lia. }
  destruct (decide (actions_left h.(TaskHandle.phase) = 0)) as [H0'|Hne].
  - exists s, h. assert (h.(TaskHandle.phase) = TaskHandle.Ended) as He by (by destruct (TaskHandle.phase h)).
    split; [|done]. cbn [work_steps]. unfold work_step. by rewrite Hi, He.
  - destruct (awake_progress ty i t s h Hok Ha Hi) as (s1 & h1 & E & Hd & Hok1 & Ha1 & Hi1 & Hl);
      [by intros He; rewrite He in Hne|].
    destruct (IH (dt + t) s1 h1 Hok1 Ha1 Hi1) as (s' & h' & E' & Hd' & Hi' & He); [lia|].
    exists s', h'. split; [|by rewrite Hd', Hd]. cbn [work_steps]. rewrite E. exact E'.
Qed.

End steps.

(** ** The theorems *)


(** C16: a stop request reaches every task.  Once [stop_all] stored the flag and
    notified the tasks, and whatever happens then, as long as [terminate], which
    dropping the database calls, does not reset the flag, every task ends after at
    most five actions of its loop, and does not start another compaction.  With
    [terminate] it is not so: see [terminate_does_not_stop]. *)
Theorem tasks_stop `{NotifyLaws} {D} `{!Datastore D} c T (m : TaskManager.TaskManager) (d : D) T' s ty i dt t h :
  reachable_tasks c (T, (m, d)) → m.(TaskManager.stop_flag) = true →
  rtc (live_step c) (T, (TaskManager.notify_stop m, d)) (T', s) →
  (s.1.(TaskManager.tasks) ty).(TaskManager.handles) !! i = Some h →
  ∃ s' h', work_steps 5 ty i dt t s = Ok s' ∧ s'.2 = s.2 ∧
    (s'.1.(TaskManager.tasks) ty).(TaskManager.handles) !! i = Some h' ∧ h'.(TaskHandle.phase) = TaskHandle.Ended.
Proof.
  intros Hr Hs Hrtc Hi. pose proof (reachable_tasks_ok _ _ Hr) as Hok.
  assert (∀ x y, rtc (live_step (D := D) c) x y → tasks_ok x.2.1 ∧ awake x.2.1 → tasks_ok y.2.1 ∧ awake y.2.1) as Hk.
  { induction 1 as [|x y z (a & Hnt & Hxy) _ IH]; [done|]. intros [Ho Ha]. apply IH.
    split; [by eapply task_step_ok|by eapply awake_step]. }
  destruct (Hk _ _ Hrtc) as [Ho Ha].
  { split; [|by apply notified_awake]. exact (task_step_ok c _ _ _ (step_notify_stop c T m d) Hok). }
  apply (awake_ends 5 ty i dt t s h Ho Ha Hi). destruct (TaskHandle.phase h); simpl; lia.
Qed.

(** ** Witnesses *)

Section witnesses.

#[local] Existing Instance queue_notify.
#[local] Existing Instance queue_notify_laws.

(** A datastore that never has work. *)
#[local] Instance no_work : Datastore nat := {|
  ds_memtable_compaction d := Ok (false, d);
  ds_level_compaction d := Ok (false, d);
|}.

Abbreviation Sys := (TaskManager.TaskManager * nat)%type.

Lemma no_work_reaches n ty i t (s s' : Sys) :
  work_steps n ty i 1 (S t) s = Ok s' → ∃ t', rtc (any_step Strict) (t, s) (t', s').
Proof.
  revert t s; induction n as [|n IH]; intros t s; cbn [work_steps]; [intros [= <-]; by exists t|].
  intros ([s1|] & E1 & E2)%bind_Ok_inv; [|injection E2 as <-; by exists t].
  destruct (IH (S t) s1 E2) as (t' & Hr). exists t'. eapply rtc_l; [|exact Hr]. exists (Work ty i).
  apply step_work; [simpl; lia| |exact E1]. by intros (_ & _ & _ & d & [=]).
Qed.

(** The memtable task runs once, finds nothing to do and goes to sleep. *)
Definition sleeping : Sys :=
  match work_steps 20 MemtableCompaction 0 1 4 (TaskManager.new 3 2, 0) with
  | Ok s => s
  | _ => (TaskManager.new 3 2, 0)
  end.

Lemma sleeping_reachable : ∃ T, reachable_tasks Strict (T, sleeping).
Proof.
  destruct (no_work_reaches 20 MemtableCompaction 0 3 (TaskManager.new 3 2, 0) sleeping) as [T Hr];
    [vm_compute; reflexivity|]. by exists T, 3, 2, 0.
Qed.


(** The stop flag is stored while the task sleeps. *)
Lemma tasks_stop_witness :
  let m := TaskManager.store_stop sleeping.1 in
  ∃ s' h', work_steps 5 MemtableCompaction 0 1 90 (TaskManager.notify_stop m, 0) = Ok s' ∧ s'.2 = 0 ∧
    (s'.1.(TaskManager.tasks) MemtableCompaction).(TaskManager.handles) !! 0 = Some h' ∧
    h'.(TaskHandle.phase) = TaskHandle.Ended.
Proof.
  destruct sleeping_reachable as [T (t & n & d & Hr)].
  apply (tasks_stop Strict T (TaskManager.store_stop sleeping.1) 0 T
    (TaskManager.notify_stop (TaskManager.store_stop sleeping.1), 0)
    MemtableCompaction 0 1 90 (TaskHandle.mk TaskHandle.Parked 9 4 true)).
  - exists t, n, d. eapply rtc_r; [exact Hr|]. exists StoreStop. change sleeping with (sleeping.1, 0). apply step_store_stop.
  - reflexivity.
  - apply rtc_refl.
  - vm_compute. reflexivity.
Defined.

(** A counter of things to do. *)
Definition counting : Datastore nat := {|
  ds_memtable_compaction d := Ok (0 <? d, d - 1);
  ds_level_compaction d := Ok (false, d);
|}.

(** The task finds nothing to do; then work arrives and the task is woken up while
    the clock still shows the same instant: it goes to sleep, and nothing is left
    to wake it up. *)
Definition equal_instants : outcome (list TaskHandle.Phase * bool * nat) :=
  '(m, d) ← work_steps (Datastore0 := counting) 10 MemtableCompaction 0 0 3 (TaskManager.new 3 2, 0);
  let m := TaskManager.wake_up 3 MemtableCompaction m in
  '(m, d) ← work_steps (Datastore0 := counting) 20 MemtableCompaction 0 0 3 (m, S d);
  let g := m.(TaskManager.tasks) MemtableCompaction in
  Ok (TaskHandle.phase <$> g.(TaskManager.handles), nt_waits g.(TaskManager.cond).(UpdateCond.condition) 0, d).

Example equal_instants_lose_wakeup : equal_instants = Ok ([TaskHandle.Parked], true, 1).
Proof. vm_compute. reflexivity. Qed.

(** After [terminate] the same task does not end: it goes back to sleep. *)
Example terminate_does_not_stop :
  match work_steps 20 MemtableCompaction 0 1 90 (TaskManager.terminate (TaskManager.stop_all sleeping.1), 0) with
  | Ok s => TaskHandle.phase <$> (s.1.(TaskManager.tasks) MemtableCompaction).(TaskManager.handles)
  | _ => []
  end = [TaskHandle.Parked].
Proof. vm_compute. reflexivity. Qed.

End witnesses.
