(* ===== verification/Api.v ===== *)
(** * The interface of the database (src/src/database.rs, src/sync/src/database.rs)

    [Database] puts the database logic and its background tasks together: calls go
    to the logic and wake up the tasks when there is something to compact.  The
    calls are definitions; how calls and tasks interleave is a step relation.  The
    theorems say that the interface reads and writes the map of its history
    whatever the tasks do meanwhile, and that no full memtable is forgotten if the
    clock never shows the same instant twice. *)

From stdpp Require Import base list gmap strings sorting relations.
From Stdlib Require Import Strings.Byte NArith ZArith Lia.
From S2P Require Import Prelude WriteBatch Iterator Memtable Disk Wal WalStatus WalCalls Manifest DataBlock DataBlocks IndexBlock SortedTable TableIterator Iterate DbIterator Level Compaction Logic Sources LogicInv LogicWrite LogicFlush LogicCompact LogicLevels LogicCompactLevel LogicOpen LogicScan LogicLog LogicReopen Database Tasks.

Local Open Scope nat_scope.
Local Open Scope lsm_scope.

(** ** The calls *)

Module Db.

Section ops.
Context `{Bloom} `{Compression} `{LruCache DataBlock.DataBlock} `{Notify}.

(** [struct Database] *)
Record Database := mk { inner : DbLogic.DbLogic; tasks : TaskManager.TaskManager }.

(** [Database::new_with_params]; the tasks are spawned at time [t]. *)
Definition new_with_params (t fuel rfuel : nat) (mode : StartMode) (params : Params.Params) (path : DbPath)
  : outcome Database :=
  let compaction_concurrency := params.(Params.compaction_concurrency) in
  inner ← DbLogic.new params fuel rfuel mode path;
  Ok {| inner := inner; tasks := TaskManager.new t compaction_concurrency |}.

(** [Database::new] *)
Definition new (t fuel rfuel : nat) (mode : StartMode) (path : DbPath) : outcome Database :=
  new_with_params t fuel rfuel mode Params.default path.

Context (params : Params.Params) (io : IoMode).

(** A call of the logic, and of the task manager. *)
Definition on_inner {A} (f : st DbLogic.DbLogic A) : st Database A := λ s,
  '(a, i) ← f s.(inner); Ok (a, mk i s.(tasks)).

Definition on_tasks (f : TaskManager.TaskManager → TaskManager.TaskManager) : st Database unit := λ s,
  Ok ((), mk s.(inner) (f s.(tasks))).

(** [Database::get] at time [t] *)
Definition get (t : nat) (key : Key) : st Database (option EntryRef.EntryRef) :=
  '(needs_compaction, data) ← on_inner (DbLogic.get params key);
  _ ← (if (needs_compaction : bool) then on_tasks (TaskManager.wake_up t LevelCompaction) else mret ());
  mret data.

(** How a write ends: the call returns, or it waits for a memtable compaction. *)
Inductive Written := Returned | Waits.

(** The end of [Database::write_opts], once [DbLogic::write_opts] returned. *)
Definition write_returned (t : nat) (needs_compaction : bool) : st Database unit :=
  if needs_compaction then on_tasks (TaskManager.wake_up t MemtableCompaction) else mret ().

(** [Database::write_opts] at time [t]; the rest of a call that [Waits] is
    [write_woken]. *)
Definition write_opts (t : nat) (write_batch : WriteBatch.WriteBatch) (opts : WriteOptions) : st Database Written :=
  needs_compaction ← on_inner (DbLogic.write_opts params io write_batch.(WriteBatch.writes) opts);
  pending ← on_inner (DbLogic.gets DbLogic.pending);
  match pending with
  | Some _ => mret Waits
  | None => _ ← write_returned t needs_compaction; mret Returned
  end.

Definition write_woken (t : nat) : st Database Written :=
  _ ← on_inner DbLogic.write_resume;
  pending ← on_inner (DbLogic.gets DbLogic.pending);
  match pending with
  | Some _ => mret Waits
  | None => _ ← write_returned t true; mret Returned
  end.

(** [Database::write] *)
Definition write (t : nat) (write_batch : WriteBatch.WriteBatch) : st Database Written :=
  write_opts t write_batch WriteOptions_new.

(** [Database::put_opts] and [Database::put] *)
Definition put_opts (t : nat) (key : Key) (value : Value) (opts : WriteOptions) : st Database Written :=
  let batch := WriteBatch.put WriteBatch.new key value in
  write_opts t batch opts.

Definition put (t : nat) (key : Key) (value : Value) : st Database Written :=
  put_opts t key value WriteOptions_new.

(** [Database::delete_opts] and [Database::delete] *)
Definition delete_opts (t : nat) (key : Key) (opts : WriteOptions) : st Database Written :=
  let batch := WriteBatch.delete WriteBatch.new key in
  write_opts t batch opts.

Definition delete (t : nat) (key : Key) : st Database Written :=
  let batch := WriteBatch.delete WriteBatch.new key in
  write_opts t batch WriteOptions_new.

(** [Database::synchronize] *)
Definition synchronize : st Database unit := on_inner (DbLogic.synchronize io).

(** [Database::iter], [Database::range_iter], [Database::reverse_range_iter] *)
Definition iter : st Database (option (DbIteratorInner.DbIteratorInner DbIterator.BoxedIterator)) :=
  '(mem_iters, table_iters, min_key, max_key) ← on_inner (DbLogic.prepare_iter params None None);
  mret (DbIterator.new mem_iters table_iters min_key max_key false).

Definition range_iter (min_key max_key : Key)
  : st Database (option (DbIteratorInner.DbIteratorInner DbIterator.BoxedIterator)) :=
  '(mem_iters, table_iters, min_key, max_key) ←
    on_inner (DbLogic.prepare_iter params (Some min_key) (Some max_key));
  mret (DbIterator.new mem_iters table_iters min_key max_key false).

Definition reverse_range_iter (max_key min_key : Key)
  : st Database (option (DbIteratorInner.DbIteratorInner DbIterator.BoxedIterator)) :=
  '(mem_iters, table_iters, min_key, max_key) ←
    on_inner (DbLogic.prepare_reverse_iter params (Some max_key) (Some min_key));
  mret (DbIterator.new mem_iters table_iters min_key max_key true).

(** [Database::stop] *)
Definition stop : st Database unit :=
  _ ← on_inner (DbLogic.stop io);
  on_tasks TaskManager.stop_all.

(** [impl Drop for Database] *)
Definition drop : st Database unit := on_tasks TaskManager.terminate.

End ops.

End Db.

(** ** Calls and tasks together *)

(** The tasks compact with the database logic; [fuel] bounds the entries that a
    level compaction merges. *)
Definition db_datastore `{Bloom} `{Compression} `{LruCache DataBlock.DataBlock}
    (params : Params.Params) (io : IoMode) (fuel : nat) : Datastore DbLogic.DbLogic := {|
  ds_memtable_compaction := DbLogic.do_memtable_compaction params io;
  ds_level_compaction := DbLogic.do_level_compaction params fuel;
|}.

(** The database with its tasks; the writes so far; the number of writers that
    filled a memtable and did not wake up the memtable task yet; the time. *)
Record System `{Bloom} `{LruCache DataBlock.DataBlock} `{Notify} := mkSystem {
  sys_db : Db.Database;
  sys_history : list WriteOp;
  sys_owed : nat;
  sys_clock : nat;
}.

#[global] Arguments mkSystem {_ _ _} _ _ _ _.
#[global] Arguments sys_db {_ _ _} _.
#[global] Arguments sys_history {_ _ _} _.
#[global] Arguments sys_owed {_ _ _} _.
#[global] Arguments sys_clock {_ _ _} _.

Section system.
Context `{BloomLaws} `{CompressionLaws} `{LruLaws DataBlock.DataBlock} `{NotifyLaws}.
Context (params : Params.Params) (interval : nat) (io : IoMode) (fuel : nat) (clock : Clock).

#[local] Instance the_datastore : Datastore DbLogic.DbLogic := db_datastore params io fuel.

Abbreviation inner s := s.(sys_db).(Db.inner).
Abbreviation tasks s := s.(sys_db).(Db.tasks).
Abbreviation mem_group m := (m.(TaskManager.tasks) MemtableCompaction).

(** The next action of the task is to compact. *)
Definition compacts (m : TaskManager.TaskManager) (ty : TaskType) (i : nat) : Prop :=
  ∃ h, (m.(TaskManager.tasks) ty).(TaskManager.handles) !! i = Some h ∧ h.(TaskHandle.phase) = TaskHandle.Working.

(** One action of a client or of a task, until the database is stopped.  A call is
    split where others can act: the logic is called, then a task is woken up;
    spurious wake-ups of the level tasks are allowed.  Every reading of the clock
    is one that the clock allows after the last. *)
Inductive sys_step : System → System → Prop :=
| sys_get s key trig r i' :
    (inner s).(DbLogic.pending) = None → DbLogic.get params key (inner s) = Ok ((trig, r), i') →
    sys_step s (mkSystem (Db.mk i' (tasks s)) s.(sys_history) s.(sys_owed) s.(sys_clock))
| sys_prepare s rev min_key max_key its i' :
    (inner s).(DbLogic.pending) = None → DbLogic.prepare params rev min_key max_key (inner s) = Ok (its, i') →
    sys_step s (mkSystem (Db.mk i' (tasks s)) s.(sys_history) s.(sys_owed) s.(sys_clock))
| sys_write s ops opt (b : bool) i' :
    (inner s).(DbLogic.pending) = None → has_numbers (length ops) (inner s) →
    DbLogic.write_opts params io ops opt (inner s) = Ok (b, i') →
    sys_step s (mkSystem (Db.mk i' (tasks s)) (s.(sys_history) ++ ops)
      (if b && bool_decide (i'.(DbLogic.pending) = None) then S s.(sys_owed) else s.(sys_owed)) s.(sys_clock))
| sys_resume s i' :
    (inner s).(DbLogic.pending) ≠ None → DbLogic.write_resume (inner s) = Ok ((), i') →
    i'.(DbLogic.pending) = None →
    sys_step s (mkSystem (Db.mk i' (tasks s)) s.(sys_history) (S s.(sys_owed)) s.(sys_clock))
| sys_synchronize s i' :
    DbLogic.synchronize io (inner s) = Ok ((), i') →
    sys_step s (mkSystem (Db.mk i' (tasks s)) s.(sys_history) s.(sys_owed) s.(sys_clock))
| sys_wake_memtable s n t :
    s.(sys_owed) = S n → tick clock s.(sys_clock) t → unlocked (tasks s) MemtableCompaction →
    sys_step s (mkSystem (Db.mk (inner s) (TaskManager.wake_up t MemtableCompaction (tasks s))) s.(sys_history) n t)
| sys_wake_level s t :
    tick clock s.(sys_clock) t → unlocked (tasks s) LevelCompaction →
    sys_step s (mkSystem (Db.mk (inner s) (TaskManager.wake_up t LevelCompaction (tasks s))) s.(sys_history) s.(sys_owed) t)
| sys_work s ty i t m' i' :
    tick clock s.(sys_clock) t → (compacts (tasks s) ty i → has_room params interval io fuel (inner s)) →
    (wakes_levels ty (tasks s, inner s) i → unlocked (tasks s) LevelCompaction) →
    work_step ty i t (tasks s, inner s) = Ok (Some (m', i')) →
    sys_step s (mkSystem (Db.mk i' m') s.(sys_history) s.(sys_owed) t).

(** What a new database reaches. *)
Definition sys_reachable (s : System) : Prop :=
  ∃ t cfuel rfuel mode path d db, DbLogic.start params mode path = Ok (true, d) ∧
    Db.new_with_params t cfuel rfuel mode params path = Ok db ∧ rtc sys_step (mkSystem db [] 0 t) s.

Context (Hset : settings params interval).

(** ** The tasks run operations of the database *)

Lemma work_step_db ty i t m d m' d' :
  work_step ty i t (m, d) = Ok (Some (m', d')) →
  d' = d ∨ compacts m ty i ∧ ∃ b,
    match ty with
    | MemtableCompaction => DbLogic.do_memtable_compaction params io d
    | LevelCompaction => DbLogic.do_level_compaction params fuel d
    end = Ok (b, d').
Proof.
  intros E. unfold work_step in E. simpl in E. destruct (_ !! i) as [h|] eqn:Hi; [|done].
  destruct (TaskHandle.phase h) eqn:Hp; try (by injection E; left); try done.
  - destruct (_ || _); injection E; by left.
  - destruct (nt_waits _ i); [done|]. injection E; by left.
  - destruct (TaskManager.stop_flag m); [injection E; by left|].
    destruct (run ty t (m, d)) as [[b [m1 d1]]| | |] eqn:Er; [|done..]. injection E as _ <-. right.
    split; [by exists h|]. destruct ty; simpl in Er; apply bind_Ok_inv in Er as ([b1 d2] & E1 & [= _ _ <-]); by exists b1.
Qed.

Lemma sys_step_reachable s s' :
  sys_step s s' → reachable params interval io (inner s) s.(sys_history) →
  reachable params interval io (inner s') s'.(sys_history).
Proof.
  intros Hs Hr. destruct Hs as [s key trig r i' Hp E|s rev mn mx its i' Hp E|s ops opt b i' Hp Hn E|s i' _ E _
    |s i' E|s n t _ _ _|s t _ _|s ty i t m' i' _ Hroom _ E]; simpl; try done.
  - eapply reachable_step; [exact Hr|by eapply step_get].
  - eapply reachable_step; [exact Hr|by eapply step_prepare].
  - eapply reachable_step; [exact Hr|by eapply step_write].
  - eapply reachable_step; [exact Hr|by eapply step_resume].
  - eapply reachable_step; [exact Hr|by eapply step_synchronize].
  - apply work_step_db in E as [->|[Hc [b E]]]; [done|]. eapply reachable_step; [exact Hr|].
    destruct ty; [eapply step_memtable_compaction|eapply step_level_compaction]; try exact E; by apply Hroom.
Qed.

Lemma sys_step_tasks s s' :
  sys_step s s' → any_step clock (s.(sys_clock), (tasks s, inner s)) (s'.(sys_clock), (tasks s', inner s')).
Proof.
  intros Hs. destruct Hs as [s key trig r i' Hp E|s rev mn mx its i' Hp E|s ops opt b i' Hp Hn E|s i' _ E _
    |s i' E|s n t _ Ht Hu|s t Ht Hu|s ty i t m' i' Ht Hroom Hu E]; simpl; try (exists Client; apply step_client).
  - exists (WakeUp MemtableCompaction). by apply step_wake_up.
  - exists (WakeUp LevelCompaction). by apply step_wake_up.
  - exists (Work ty i). by apply step_work.
Qed.

(** ** No full memtable is forgotten *)

(** The memtable task is going to look for work, although nobody wakes it up. *)
Definition alert (h : TaskHandle.TaskHandle) (last_change : nat) : Prop :=
  match h.(TaskHandle.phase) with
  | TaskHandle.Working => True
  | TaskHandle.Ran did_work => did_work = true ∨ h.(TaskHandle.now) < last_change
  | _ => h.(TaskHandle.idle) = false ∨ h.(TaskHandle.last_update) < last_change
  end.

Record sys_ok (s : System) : Prop := {
  so_reachable : reachable params interval io (inner s) s.(sys_history);
  so_tasks : tasks_ok (tasks s);
  so_running : (tasks s).(TaskManager.stop_flag) = false;
  so_task : ∃ h, (mem_group (tasks s)).(TaskManager.handles) = [h] ∧ h.(TaskHandle.phase) ≠ TaskHandle.Ended ∧
    h.(TaskHandle.now) <= s.(sys_clock) ∧ h.(TaskHandle.last_update) <= s.(sys_clock) ∧
    ((inner s).(DbLogic.imm_memtables) ≠ [] → 0 < s.(sys_owed) ∨
      (clock = Strict → alert h (mem_group (tasks s)).(TaskManager.cond).(UpdateCond.last_change)));
}.

(** What a write does to the immutable memtables. *)
Lemma write_hands_over s h ops opt b s' :
  reachable params interval io s h → s.(DbLogic.pending) = None → has_numbers (length ops) s →
  DbLogic.write_opts params io ops opt s = Ok (b, s') →
  b = true ∧ s'.(DbLogic.pending) = None ∨ s'.(DbLogic.imm_memtables) = s.(DbLogic.imm_memtables).
Proof.
  intros Hr Hp Hn E. destruct (reachable_stands _ _ _ Hset s h Hr) as [(T & stored & meta & ids & Hok) _].
  destruct (db_write_ok params interval io s T stored meta ids _ ops opt Hok Hp) as (b' & s1 & E1 & _ & w & m & _ & _ & _ & Hs1);
    [apply Hset|done|]. rewrite E in E1. injection E1 as <- <-. subst s'.
  destruct b; unfold hand_over; simpl; [|by right]. destruct (DbLogic.imm_memtables s); simpl; [by left|by right].
Qed.

Lemma level_step_mem i t m d m' d' :
  work_step LevelCompaction i t (m, d) = Ok (Some (m', d')) →
  mem_group m' = mem_group m ∧ m'.(TaskManager.stop_flag) = m.(TaskManager.stop_flag).
Proof.
  intros E. unfold work_step in E. simpl in E. destruct (_ !! i) as [h|] eqn:Hi; [|done].
  destruct (TaskHandle.phase h) eqn:Hp; try (by injection E as <- _); try done.
  - destruct (_ || _); by injection E as <- _.
  - destruct (nt_waits _ i); [done|]. by injection E as <- _.
  - destruct (TaskManager.stop_flag m) eqn:Es; [by injection E as <- _|].
    destruct (_ ≫= _) as [[b [m1 d1]]| | |] eqn:Er; [|done..]. injection E as <- _.
    by apply bind_Ok_inv in Er as ([b1 d2] & E1 & [= _ <- _]).
Qed.

(** Compactions by the level tasks leave the memtables alone. *)
Lemma level_step_imm i t s m' d' :
  sys_ok s → (compacts (tasks s) LevelCompaction i → has_room params interval io fuel (inner s)) →
  work_step LevelCompaction i t (tasks s, inner s) = Ok (Some (m', d')) →
  d'.(DbLogic.imm_memtables) = (inner s).(DbLogic.imm_memtables).
Proof.
  intros Hok Hroom [->|[Hc [b E]]]%work_step_db; [done|].
  destruct (reachable_stands _ _ _ Hset _ _ (so_reachable _ Hok)) as [Hst _].
  destruct (compaction_stands params interval io Hset fuel _ _ Hst (Hroom Hc)) as (b1 & s1 & E1 & _ & Hi & _).
  congruence.
Qed.

Lemma flush_result s h b d' :
  reachable params interval io s h → has_room params interval io fuel s →
  DbLogic.do_memtable_compaction params io s = Ok (b, d') →
  b = negb (length s.(DbLogic.imm_memtables) =? 0) ∧ d'.(DbLogic.imm_memtables) = [] ∧
  d'.(DbLogic.pending) = s.(DbLogic.pending).
Proof.
  intros Hr Hroom E. destruct (reachable_stands _ _ _ Hset s h Hr) as [Hst Hlen].
  destruct (flush_stands params interval io Hset fuel s _ Hst Hroom) as (s1 & E1 & _ & Hi & Hp & _).
  rewrite E in E1. injection E1 as -> <-. rewrite Hi. split; [done|]. split; [|done].
  by destruct (DbLogic.imm_memtables s) as [|x [|y l]]; simpl in *; [| |lia].
Qed.

(** The group of the memtable task after one of its actions. *)
Lemma mem_step_task t s m' d' h :
  sys_ok s → s.(sys_clock) <= t → (mem_group (tasks s)).(TaskManager.handles) = [h] →
  (compacts (tasks s) MemtableCompaction 0 → has_room params interval io fuel (inner s)) →
  work_step MemtableCompaction 0 t (tasks s, inner s) = Ok (Some (m', d')) →
  h.(TaskHandle.now) <= s.(sys_clock) → h.(TaskHandle.last_update) <= s.(sys_clock) →
  let c := (mem_group (tasks s)).(TaskManager.cond).(UpdateCond.last_change) in
  ∃ h', (mem_group m').(TaskManager.handles) = [h'] ∧ h'.(TaskHandle.phase) ≠ TaskHandle.Ended ∧
    (mem_group m').(TaskManager.cond).(UpdateCond.last_change) = c ∧
    m'.(TaskManager.stop_flag) = false ∧
    h'.(TaskHandle.now) <= t ∧ h'.(TaskHandle.last_update) <= t ∧
    (d'.(DbLogic.imm_memtables) ≠ [] → (inner s).(DbLogic.imm_memtables) ≠ [] ∧ (alert h c → alert h' c)).
Proof.
  intros Hok Ht Hh Hroom E Hn Hl c. pose proof (so_running _ Hok) as Hrun.
  unfold work_step in E. cbn [fst snd] in E. rewrite Hh in E. cbn [lookup list_lookup] in E. unfold alert.
  destruct (TaskHandle.phase h) eqn:Hp; rewrite ?Hrun in E; cbn [orb] in E.
  - injection E as <- <-. eexists. simpl. rewrite Hh. split; [done|]. simpl. split_and!; try done; lia.
  - injection E as <- <-. eexists. simpl. rewrite Hh. split; [done|]. simpl. split_and!; try done; lia.
  - destruct (_ || _) eqn:Et; injection E as <- <-; eexists; simpl; rewrite Hh; (split; [done|]); simpl;
      split_and!; try done; lia.
  - injection E as <- <-. eexists. simpl. rewrite Hh. split; [done|]. simpl. split_and!; try done; lia.
  - destruct (nt_waits _ _); [done|]. injection E as <- <-. eexists. simpl. rewrite Hh. split; [done|]. simpl.
    split_and!; try done; lia.
  - destruct (run _ _ _) as [[b [m1 d1]]| | |] eqn:Er; [|done..]. injection E as <- <-.
    simpl in Er. apply bind_Ok_inv in Er as ([b1 d2] & E1 & [= -> <- <-]).
    destruct (flush_result _ _ b d2 (so_reachable _ Hok)) as (-> & Hi & _); [|exact E1|].
    { apply Hroom. exists h. split; [|done]. by rewrite Hh. }
    destruct (negb _); (eexists; simpl; rewrite Hh; split; [done|]; simpl; split_and!; try done; lia).
  - injection E as <- <-. eexists. simpl. rewrite Hh. split; [done|]. simpl. split_and!; try done; try lia.
    intros Hi. split; [done|]. intros [->|Hc]; [by left|by right].
  - done.
Qed.

Lemma sys_step_ok s s' : sys_step s s' → sys_ok s → sys_ok s'.
Proof.
  intros Hs Hok. pose proof (sys_step_reachable _ _ Hs (so_reachable _ Hok)) as Hr'.
  destruct (sys_step_tasks _ _ Hs) as [a Hts]. pose proof (task_step_ok _ _ _ _ Hts (so_tasks _ Hok)) as Ht'. clear Hts.
  pose proof (so_reachable _ Hok) as Hr. destruct (reachable_stands _ _ _ Hset _ _ Hr) as [Hst Hlen].
  destruct (so_task _ Hok) as (h & Hh & He & Hn & Hl & Ha). pose proof (so_running _ Hok) as Hrun.
  split; [done|done| |]; clear Hr' Ht';
    destruct Hs as [s key trig r i' Hp E|s rev mn mx its i' Hp E|s ops opt b i' Hp Hnum E|s i' _ E _
    |s i' E|s n t Ho Ht Hu|s t Ht Hu|s ty i t m' i' Ht Hroom Hu E]; simpl in *; try done.
  - destruct ty; [|by destruct (level_step_mem _ _ _ _ _ _ E) as [_ ->]].
    destruct i as [|i]; [|by unfold work_step in E; simpl in E; rewrite Hh in E].
    by destruct (mem_step_task t s m' i' h) as (h' & _ & _ & _ & ? & _); try done; eapply tick_le.
  - exists h. split_and!; try done. intros Hi. apply Ha.
    destruct (get_stands params interval io _ _ key Hst Hp) as (? & ? & ? & E' & Hsd & _). rewrite E in E'. simplify_eq.
    by rewrite <-(sd_imm _ _ _ Hsd).
  - exists h. split_and!; try done. intros Hi. apply Ha.
    destruct (scan_stands params interval io rev mn mx _ _ Hst Hp) as (? & ? & ? & ? & ? & ? & E' & Hsd & _);
      [by eapply prepare_range|]. rewrite E in E'. simplify_eq. by rewrite <-(sd_imm _ _ _ Hsd).
  - exists h. split_and!; try done. intros Hi.
    destruct (write_hands_over _ _ _ _ _ _ Hr Hp Hnum E) as [[-> Hp']|Hi'].
    + rewrite Hp', bool_decide_true by done. simpl. left. lia.
    + rewrite Hi' in Hi. destruct (Ha Hi); [left; case_match; lia|by right].
  - exists h. split_and!; try done. intros _. left. lia.
  - exists h. split_and!; try done. intros Hi. apply Ha.
    destruct (synchronize_stands params interval io _ _ Hst) as (? & E' & _ & Hi' & _). rewrite E in E'. simplify_eq. by rewrite <-Hi'.
  - pose proof (tick_le _ _ _ Ht). exists h. split_and!; try done; try lia. intros _. right. intros ->. simpl in Ht.
    unfold alert. destruct (TaskHandle.phase h); try done; right; lia.
  - pose proof (tick_le _ _ _ Ht). exists h. split_and!; try done; lia.
  - destruct ty.
    + destruct i as [|i]; [|by unfold work_step in E; simpl in E; rewrite Hh in E].
      destruct (mem_step_task t s m' i' h) as (h' & Hh' & He' & Hc & _ & Hn' & Hl' & Ha'); try done; [by eapply tick_le|].
      exists h'. split_and!; try done. intros Hi. destruct (Ha' Hi) as [Hi0 Hal]. rewrite Hc.
      destruct (Ha Hi0); [by left|right; auto].
    + destruct (level_step_mem _ _ _ _ _ _ E) as [-> _]. pose proof (tick_le _ _ _ Ht). exists h. split_and!; try done; try lia.
      by rewrite (level_step_imm i t s m' i').
Qed.

Lemma sys_reachable_ok s : sys_reachable s → sys_ok s.
Proof.
  intros (t & cfuel & rfuel & mode & path & d & db & Hstart & Hnew & Hsteps).
  unfold Db.new_with_params in Hnew. apply bind_Ok_inv in Hnew as (i & Hnew & [= <-]).
  assert (sys_ok (mkSystem (Db.mk i (TaskManager.new t params.(Params.compaction_concurrency))) [] 0 t)) as Hinit.
  { destruct (created_keeps params interval io Hset cfuel rfuel mode path d i Hstart Hnew) as [_ Himm].
    split; simpl.
    - by exists cfuel, rfuel, mode, path, d, i.
    - intros []; [apply (new_group_ok t 1)|apply new_group_ok].
    - done.
    - exists (TaskHandle.new t). simpl. by split_and!. }
  revert Hinit. clear Hstart Hnew. generalize dependent (mkSystem (Db.mk i (TaskManager.new t params.(Params.compaction_concurrency))) [] 0 t).
  intros s0 Hsteps Hinit. induction Hsteps as [|x y z Hxy _ IH]; [done|]. apply IH. by eapply sys_step_ok.
Qed.

Lemma sys_steps_ok s s' : rtc sys_step s s' → sys_ok s → sys_ok s'.
Proof. induction 1 as [|x y z Hxy _ IH]; [done|]. intros Hx. apply IH. by eapply sys_step_ok. Qed.

(** ** Every writer is served *)

(** Only the tasks moved. *)
Definition only_tasks (s s' : System) : Prop :=
  rtc sys_step s s' ∧ inner s' = inner s ∧ s'.(sys_history) = s.(sys_history).

#[export] Instance only_tasks_preorder : PreOrder only_tasks.
Proof.
  split; [by intros s; split|]. intros s1 s2 s3 (Hr & Hi & Hh) (Hr' & Hi' & Hh').
  split; [by etrans|]. by rewrite Hi', Hh'.
Qed.

(** An action that does not compact. *)
Lemma quiet_step s ty i h m' :
  ((tasks s).(TaskManager.tasks) ty).(TaskManager.handles) !! i = Some h → h.(TaskHandle.phase) ≠ TaskHandle.Working →
  work_step ty i (S s.(sys_clock)) (tasks s, inner s) = Ok (Some (m', inner s)) →
  sys_step s (mkSystem (Db.mk (inner s) m') s.(sys_history) s.(sys_owed) (S s.(sys_clock))).
Proof.
  intros Hi Hp E. eapply sys_work; [|..|exact E].
  - apply tick_S.
  - intros (h1 & Hi1 & Hp1). congruence.
  - intros (_ & _ & (h1 & Hi1 & Hp1) & _). simpl in Hi1. congruence.
Qed.

Lemma unlock_upto ty k s :
  ∃ s', only_tasks s s' ∧ s'.(sys_owed) = s.(sys_owed) ∧
    let g' := (tasks s').(TaskManager.tasks) ty in
    length g'.(TaskManager.handles) = length ((tasks s).(TaskManager.tasks) ty).(TaskManager.handles) ∧
    (∀ i h, i < k → g'.(TaskManager.handles) !! i = Some h → h.(TaskHandle.phase) ≠ TaskHandle.Enabling) ∧
    ∀ ty', ty' ≠ ty → (tasks s').(TaskManager.tasks) ty' = (tasks s).(TaskManager.tasks) ty'.
Proof.
  induction k as [|k (s1 & Hs1 & Ho1 & Hl1 & Hk1 & Ht1)]; [exists s; cbv zeta; split_and!; [done..|lia|done]|].
  destruct (((tasks s1).(TaskManager.tasks) ty).(TaskManager.handles) !! k) as [h|] eqn:Hk;
    [destruct (decide (h.(TaskHandle.phase) = TaskHandle.Enabling)) as [He|He]|].
  - assert (work_step ty k (S s1.(sys_clock)) (tasks s1, inner s1) = Ok (Some
      (set_notify (set_handle (tasks s1) ty k (TaskHandle.set_phase h TaskHandle.Parked)) ty (nt_enable k), inner s1))) as E.
    { unfold work_step. cbn [fst]. by rewrite Hk, He. }
    pose proof (quiet_step s1 ty k h _ Hk ltac:(congruence) E) as Hst.
    eexists. split.
    { etrans; [exact Hs1|]. split; [apply rtc_once; exact Hst|done]. }
    cbn [sys_db Db.tasks sys_owed]. rewrite set_notify_handles. unfold set_handle. rewrite set_group_same. simpl.
    split; [done|]. split; [by rewrite length_insert|]. split.
    + intros i h1 Hi. destruct (decide (i = k)) as [->|Hne].
      * rewrite list_lookup_insert_eq by (by eapply lookup_lt_Some). by intros [= <-].
      * rewrite list_lookup_insert_ne by done. apply Hk1. lia.
    + intros ty' Hne. rewrite !(decide_False (P := ty' = ty)) by done. by apply Ht1.
  - exists s1. cbv zeta. split_and!; try done. intros i h1 Hi Hh1. destruct (decide (i = k)) as [->|Hne]; [congruence|].
    apply (Hk1 i h1); [lia|done].
  - exists s1. cbv zeta. split_and!; try done. intros i h1 Hi Hh1. destruct (decide (i = k)) as [->|Hne]; [congruence|].
    apply (Hk1 i h1); [lia|done].
Qed.

(** The tasks that hold the lock of a condition release it. *)
Lemma unlock ty s :
  ∃ s', only_tasks s s' ∧ s'.(sys_owed) = s.(sys_owed) ∧ unlocked (tasks s') ty ∧
    ∀ ty', ty' ≠ ty → (tasks s').(TaskManager.tasks) ty' = (tasks s).(TaskManager.tasks) ty'.
Proof.
  destruct (unlock_upto ty (length ((tasks s).(TaskManager.tasks) ty).(TaskManager.handles)) s)
    as (s' & Hs & Ho & Hl & Hu & Ht). exists s'. split_and!; try done.
  apply Forall_lookup_2. intros i h Hi. apply (Hu i h); [|done]. rewrite <-Hl. by eapply lookup_lt_Some.
Qed.

(** The writers wake up the memtable task. *)
Lemma pay n s :
  s.(sys_owed) = n → unlocked (tasks s) MemtableCompaction →
  ∃ s', only_tasks s s' ∧ s'.(sys_owed) = 0 ∧
    (tasks s').(TaskManager.tasks) LevelCompaction = (tasks s).(TaskManager.tasks) LevelCompaction.
Proof.
  revert s. induction n as [|n IH]; intros s Ho Hu; [by exists s|].
  pose proof (sys_wake_memtable s n (S s.(sys_clock)) Ho (tick_S _ _) Hu) as Hst.
  destruct (IH (mkSystem (Db.mk (inner s)
    (TaskManager.wake_up (S s.(sys_clock)) MemtableCompaction (tasks s))) s.(sys_history) n (S s.(sys_clock)))) as (s' & Hs & Ho' & Ht);
    [done|exact Hu|]. exists s'. split; [|done]. etrans; [|exact Hs]. split; [by apply rtc_once|done].
Qed.

(** How many actions the alert task needs until it looks for work. *)
Definition until_run (p : TaskHandle.Phase) : nat :=
  match p with
  | TaskHandle.Working => 0
  | TaskHandle.Listening => 1
  | TaskHandle.Looping => 2
  | TaskHandle.Parked | TaskHandle.Started => 3
  | TaskHandle.Ran _ => 4
  | TaskHandle.Enabling | TaskHandle.Ended => 0
  end.

(** A task that sleeps, or is about to, is not alert. *)
Lemma alert_not_asleep s h :
  sys_ok s → (mem_group (tasks s)).(TaskManager.handles) = [h] →
  alert h (mem_group (tasks s)).(TaskManager.cond).(UpdateCond.last_change) →
  h.(TaskHandle.phase) ≠ TaskHandle.Enabling ∧ ¬ asleep (mem_group (tasks s)) 0 h.
Proof.
  intros Hok Hh Ha. pose proof (so_tasks _ Hok MemtableCompaction) as Hg.
  assert ((mem_group (tasks s)).(TaskManager.handles) !! 0 = Some h) as Hi by (by rewrite Hh).
  split.
  - intros He. pose proof (gk_enabling _ Hg 0 h Hi He) as Hc.
    pose proof (gk_idle _ Hg 0 h Hi) as Hid. unfold alert in Ha. rewrite He in *.
    destruct Ha as [Ha|Ha]; [|lia]. rewrite Hid in Ha; [done|set_solver].
  - intros Hs. destruct (gk_seen _ Hg) as (j & h1 & Hj & Hc); [by rewrite Hh|]. rewrite Hh in Hj.
    destruct j as [|j]; [|done]. simpl in Hj. injection Hj as <-. specialize (Hc Hs).
    pose proof (gk_idle _ Hg 0 h Hi) as Hid. destruct Hs as [Hp _]. unfold alert in Ha. rewrite Hp in *.
    destruct Ha as [Ha|Ha]; [|lia]. rewrite Hid in Ha; [done|set_solver].
Qed.

(** An alert task that does not compact yet moves on. *)
Lemma alert_moves s h :
  sys_ok s → (mem_group (tasks s)).(TaskManager.handles) = [h] →
  alert h (mem_group (tasks s)).(TaskManager.cond).(UpdateCond.last_change) →
  h.(TaskHandle.phase) ≠ TaskHandle.Working → h.(TaskHandle.phase) ≠ TaskHandle.Ended →
  ∃ s' h', only_tasks s s' ∧ s'.(sys_owed) = s.(sys_owed) ∧ (mem_group (tasks s')).(TaskManager.handles) = [h'] ∧
    (tasks s').(TaskManager.tasks) LevelCompaction = (tasks s).(TaskManager.tasks) LevelCompaction ∧
    S (until_run h'.(TaskHandle.phase)) = until_run h.(TaskHandle.phase).
Proof.
  intros Hok Hh Ha Hw He. destruct (alert_not_asleep s h Hok Hh Ha) as [Hen Hns].
  assert ((mem_group (tasks s)).(TaskManager.handles) !! 0 = Some h) as Hi by (by rewrite Hh).
  assert (∃ m' h', work_step MemtableCompaction 0 (S s.(sys_clock)) (tasks s, inner s) = Ok (Some (m', inner s)) ∧
    (mem_group m').(TaskManager.handles) = [h'] ∧
    m'.(TaskManager.tasks) LevelCompaction = (tasks s).(TaskManager.tasks) LevelCompaction ∧
    S (until_run h'.(TaskHandle.phase)) = until_run h.(TaskHandle.phase)) as (m' & h' & E & Hh' & Ht & Hl).
  { unfold work_step. cbn [fst snd]. rewrite Hi. unfold alert in Ha.
    destruct (TaskHandle.phase h) eqn:Hp; try done; simpl.
    - eexists _, _. split; [done|]. simpl. by rewrite Hh.
    - eexists _, _. split; [done|]. simpl. by rewrite Hh.
    - rewrite (so_running _ Hok). simpl. destruct (_ || _) eqn:Et.
      + eexists _, _. split; [done|]. simpl. by rewrite Hh.
      + apply orb_false_iff in Et as [Hid%negb_false_iff Hle%Nat.ltb_ge]. destruct Ha as [Ha|Ha]; [congruence|lia].
    - destruct (nt_waits _ _) eqn:Ew; [by destruct Hns|]. eexists _, _. split; [done|]. simpl. by rewrite Hh.
    - eexists _, _. split; [done|]. simpl. by rewrite Hh. }
  eexists _, h'. split; [split; [apply rtc_once; by apply (quiet_step s MemtableCompaction 0 h)|done]|]. by simpl.
Qed.

(** An alert task compacts the memtable. *)
Lemma alert_compacts n s h :
  clock = Strict → sys_ok s → (mem_group (tasks s)).(TaskManager.handles) = [h] → until_run h.(TaskHandle.phase) <= n →
  (inner s).(DbLogic.imm_memtables) ≠ [] → s.(sys_owed) = 0 →
  unlocked (tasks s) LevelCompaction → has_room params interval io fuel (inner s) →
  ∃ s', rtc sys_step s s' ∧ s'.(sys_history) = s.(sys_history) ∧ (inner s').(DbLogic.imm_memtables) = [] ∧
    (inner s').(DbLogic.pending) = (inner s).(DbLogic.pending).
Proof.
  revert s h. induction n as [|n IH]; intros s h Hcl Hok Hh Hn Hi Ho Hu Hroom;
    destruct (so_task _ Hok) as (h1 & Hh1 & He & _ & _ & Ha); rewrite Hh in Hh1; injection Hh1 as <-;
    (destruct (Ha Hi) as [?|Hal]; [lia|]); specialize (Hal Hcl); clear Ha; destruct (alert_not_asleep s h Hok Hh Hal) as [Hen _];
    destruct (decide (h.(TaskHandle.phase) = TaskHandle.Working)) as [Hw|Hw].
  2: { destruct (TaskHandle.phase h); simpl in Hn; try lia; done. }
  1,2: destruct (reachable_stands _ _ _ Hset _ _ (so_reachable _ Hok)) as [Hst Hlen];
    destruct (flush_stands params interval io Hset fuel _ _ Hst Hroom) as (d' & E & _ & _ & _);
    pose proof (flush_result _ _ _ _ (so_reachable _ Hok) Hroom E) as (_ & Hi' & Hp');
    eexists (mkSystem (Db.mk d' _) _ _ (S s.(sys_clock))); (split; [apply rtc_once, (sys_work s MemtableCompaction 0)|];
    [apply tick_S|done|done| |done]); unfold work_step; cbn [fst snd]; rewrite Hh; cbn [lookup list_lookup]; rewrite Hw, (so_running _ Hok);
    simpl; rewrite E; reflexivity.
  destruct (alert_moves s h Hok Hh Hal Hw He) as (s1 & h1 & (Hr & Hin & Hhist) & Ho1 & Hh1 & Ht & Hl).
  destruct (IH s1 h1) as (s' & Hr' & Hhist' & Himm & Hp); rewrite ?Hin; try done.
  - by eapply sys_steps_ok.
  - lia.
  - congruence.
  - unfold unlocked. by rewrite Ht.
  - exists s'. split; [by etrans|]. split; [congruence|]. split; [done|]. congruence.
Qed.

End system.

(** ** The theorems *)

Section theorems.
Context `{BloomLaws} `{CompressionLaws} `{LruLaws DataBlock.DataBlock} `{NotifyLaws}.

(** A call of the logic through the interface. *)
Lemma on_inner_Ok {A} (f : st DbLogic.DbLogic A) (db : Db.Database) a i' :
  f db.(Db.inner) = Ok (a, i') → Db.on_inner f db = Ok (a, Db.mk i' db.(Db.tasks)).
Proof. intros E. unfold Db.on_inner. by rewrite E. Qed.

(** [Database::get] reads the map of a reachable database. *)
Lemma api_get_ok params interval io db h t key :
  settings params interval → reachable params interval io db.(Db.inner) h → db.(Db.inner).(DbLogic.pending) = None →
  ∃ r db', Db.get params t key db = Ok (r, db') ∧ reads_value r (map_of h !! key).
Proof.
  intros Hset Hr Hp. destruct (reachable_stands _ _ _ Hset _ _ Hr) as [Hst _].
  destruct (get_stands params interval io _ _ key Hst Hp) as (trig & r & i' & E & _ & Hv).
  pose proof (on_inner_Ok _ db _ _ E) as E'. unfold Db.get. run_st E'. destruct trig; by eexists _, _.
Qed.

(** C8: the interface reads what was written.  Whatever clients and background
    tasks did before, and whatever the clock showed, a put that finds no other writer waiting succeeds; it either
    waits for a memtable compaction or returns, and then a get returns the new
    value for its key and for any other key the value of the writes before. *)
Theorem api_put_get params interval io fuel clock s t t' k v key :
  settings params interval → sys_reachable params interval io fuel clock s →
  s.(sys_db).(Db.inner).(DbLogic.pending) = None → has_numbers 1 s.(sys_db).(Db.inner) →
  ∃ w db', Db.put params io t k v s.(sys_db) = Ok (w, db') ∧
    (w = Db.Waits ↔ db'.(Db.inner).(DbLogic.pending) ≠ None) ∧
    (w = Db.Returned → ∃ r db'', Db.get params t' key db' = Ok (r, db'') ∧
      reads_value r (if decide (key = k) then Some v else map_of s.(sys_history) !! key)).
Proof.
  intros Hset Hs Hp Hn. pose proof (so_reachable _ _ _ _ _ (sys_reachable_ok _ _ _ _ _ Hset _ Hs)) as Hr.
  destruct (reachable_stands _ _ _ Hset _ _ Hr) as [Hst _].
  destruct (write_stands params interval io Hset _ _ [Put k v] WriteOptions_new Hst Hp Hn) as (b & i' & E & _ & _).
  assert (reachable params interval io i' (s.(sys_history) ++ [Put k v])) as Hr'.
  { eapply reachable_step; [exact Hr|by eapply step_write]. }
  assert (∀ tasks : TaskManager.TaskManager, i'.(DbLogic.pending) = None →
    ∃ r db'', Db.get params t' key (Db.mk i' tasks) = Ok (r, db'') ∧
      reads_value r (if decide (key = k) then Some v else map_of s.(sys_history) !! key)) as Hget.
  { intros tasks Hp'. destruct (api_get_ok params interval io (Db.mk i' tasks) _ t' key Hset Hr' Hp') as (r & db'' & E' & Hv).
    exists r, db''. split; [done|]. rewrite map_of_app in Hv. simpl in Hv. unfold write_all in Hv. simpl in Hv.
    case_decide; [subst; by rewrite lookup_insert_eq in Hv|by rewrite lookup_insert_ne in Hv]. }
  unfold Db.put, Db.put_opts, Db.write_opts.
  pose proof (on_inner_Ok _ s.(sys_db) _ _ E) as E'. cbn [WriteBatch.writes WriteBatch.put WriteBatch.new app]. run_st E'.
  rewrite (st_bind_Ok _ _ _ _ _ (on_inner_Ok (DbLogic.gets DbLogic.pending) (Db.mk i' (Db.tasks (sys_db s))) _ _ eq_refl)).
  cbn [Db.inner]. destruct (DbLogic.pending i') eqn:Ep.
  - eexists _, _. split; [done|]. split; [|done]. simpl. by rewrite Ep.
  - unfold Db.write_returned. destruct b; eexists _, _; (split; [reflexivity|]); (split; [simpl; by rewrite Ep|]); intros _; by apply Hget.
Qed.

(** C9: every writer is served, when no two readings of the clock are equal.  From
    every state of clients and tasks that can be reached with a strict clock, as
    long as the tables fit ([has_room]), the tasks and the wake-ups that writers
    owe lead to a state with the same writes in which no writer waits; a memtable
    that was full has been compacted.  [Instant::now] is only documented not to go
    back, and with a repeated reading a wake-up can be lost
    ([equal_instants_lose_wakeup]). *)
Theorem api_writers_served params interval io fuel s :
  settings params interval → sys_reachable params interval io fuel Strict s →
  has_room params interval io fuel s.(sys_db).(Db.inner) →
  ∃ s', rtc (sys_step params interval io fuel Strict) s s' ∧ s'.(sys_history) = s.(sys_history) ∧
    s'.(sys_db).(Db.inner).(DbLogic.pending) = None ∧
    (s.(sys_db).(Db.inner).(DbLogic.pending) = None → s'.(sys_db).(Db.inner).(DbLogic.imm_memtables) = []).
Proof.
  intros Hset Hs Hroom. pose proof (sys_reachable_ok _ _ _ _ _ Hset _ Hs) as Hok.
  assert (∃ s', rtc (sys_step params interval io fuel Strict) s s' ∧ s'.(sys_history) = s.(sys_history) ∧
    s'.(sys_db).(Db.inner).(DbLogic.imm_memtables) = [] ∧
    s'.(sys_db).(Db.inner).(DbLogic.pending) = s.(sys_db).(Db.inner).(DbLogic.pending)) as (s1 & Hr1 & Hh1 & Hi1 & Hp1).
  { destruct (DbLogic.imm_memtables (Db.inner (sys_db s))) as [|x l] eqn:Ei; [by exists s|].
    destruct (unlock params interval io fuel Strict MemtableCompaction s) as (s1 & Hs1 & _ & Hu1 & _).
    destruct (pay params interval io fuel Strict _ s1 eq_refl Hu1) as (s2 & Hs2 & Ho2 & _).
    destruct (unlock params interval io fuel Strict LevelCompaction s2) as (s3 & Hs3 & Ho3 & Hu3 & _).
    assert (only_tasks params interval io fuel Strict s s3) as (Hr3 & Hi3 & Hh3) by (do 2 (etrans; [eassumption|]); done).
    pose proof (sys_steps_ok _ _ _ _ _ Hset _ _ Hr3 Hok) as Hok3. destruct (so_task _ _ _ _ _ Hok3) as (h & Hh & _).
    destruct (alert_compacts params interval io fuel Strict Hset (until_run h.(TaskHandle.phase)) s3 h) as (s' & Hr' & Hh' & Hi' & Hp');
      rewrite ?Hi3; try done; try congruence.
    exists s'. split; [by etrans|]. split_and!; congruence. }
  pose proof (sys_steps_ok _ _ _ _ _ Hset _ _ Hr1 Hok) as Hok1.
  destruct (reachable_stands _ _ _ Hset _ _ (so_reachable _ _ _ _ _ Hok1)) as [Hst1 _].
  destruct (DbLogic.pending (Db.inner (sys_db s))) as [p|] eqn:Ep; [|by exists s1; split_and!].
  destruct (resume_stands params interval io _ _ Hst1) as (i' & E & _ & Hp' & _). specialize (Hp' Hi1).
  exists (mkSystem (Db.mk i' s1.(sys_db).(Db.tasks)) s1.(sys_history) (S s1.(sys_owed)) s1.(sys_clock)).
  split; [eapply rtc_r; [exact Hr1|apply sys_resume; by rewrite ?Hp1]|]. by split_and!.
Qed.

End theorems.

(** ** Witnesses *)

Section witnesses.
Import Concrete.

#[local] Existing Instance queue_notify.
#[local] Existing Instance queue_notify_laws.

(** The database of [full_db], with one writer that did not wake up the memtable
    task yet. *)
Definition new_sys : System := mkSystem (Db.mk new_db (TaskManager.new 5 1)) [] 0 5.
Definition full_sys : System := mkSystem (Db.mk full_db (TaskManager.new 5 1)) sample_batch 1 5.

Lemma full_sys_reachable clock : sys_reachable sample_db_params 2 StdFs 1 clock full_sys.
Proof.
  exists 5, 0, 0, CreateOrOpen, Missing, ∅, (Db.mk new_db (TaskManager.new 5 1)). split; [done|]. split.
  - unfold Db.new_with_params. by rewrite new_db_created.
  - destruct full_db_written as [b E]. apply rtc_once.
    replace full_sys with (mkSystem (Db.mk full_db (TaskManager.new 5 1)) ([] ++ sample_batch)
      (if b && bool_decide (full_db.(DbLogic.pending) = None) then 1 else 0) 5).
    + eapply (sys_write _ _ _ _ _ new_sys); [|vm_compute; reflexivity|exact E]. vm_compute. reflexivity.
    + assert (match DbLogic.write_opts sample_db_params StdFs sample_batch (mkWriteOptions true) new_db with
              | Ok (b, _) => b
              | _ => false
              end = true) as Hb by (vm_compute; reflexivity).
      rewrite E in Hb. subst b. rewrite full_db_free. reflexivity.
Qed.

Lemma api_put_get_witness :
  ∃ w db', Db.put sample_db_params StdFs 7 [x64] [x09] full_sys.(sys_db) = Ok (w, db') ∧
    (w = Db.Waits ↔ db'.(Db.inner).(DbLogic.pending) ≠ None) ∧
    (w = Db.Returned → ∃ r db'', Db.get sample_db_params 8 [x64] db' = Ok (r, db'') ∧
      reads_value r (if decide (([x64] : Key) = [x64]) then Some [x09] else map_of full_sys.(sys_history) !! ([x64] : Key))).
Proof.
  apply (api_put_get sample_db_params 2 StdFs 1 Monotone full_sys 7 8 [x64] [x09] [x64]);
    [exact sample_settings|exact (full_sys_reachable _)|exact full_db_free|vm_compute; reflexivity].
Defined.

Lemma api_writers_served_witness :
  ∃ s', rtc (sys_step sample_db_params 2 StdFs 1 Strict) full_sys s' ∧ s'.(sys_history) = sample_batch ∧
    s'.(sys_db).(Db.inner).(DbLogic.pending) = None ∧
    (full_sys.(sys_db).(Db.inner).(DbLogic.pending) = None → s'.(sys_db).(Db.inner).(DbLogic.imm_memtables) = []).
Proof.
  apply (api_writers_served sample_db_params 2 StdFs 1 full_sys);
    [exact sample_settings|exact (full_sys_reachable _)|exact full_db_room].
Defined.

End witnesses.
