(* ===== verification/SyncIterate.v ===== *)
(** * Iteration in the blocking interface (src/sync/src/iterate.rs)

    The iterator of the blocking interface merges the iterators of the memtables
    and tables in its own loop, with the best candidate so far borrowed from the
    iterators in front of the current one.  The theorem says that it does exactly
    what the asynchronous iterator does. *)

From stdpp Require Import base list gmap strings sorting.
From Stdlib Require Import Strings.Byte NArith ZArith Lia.
From S2P Require Import Prelude WriteBatch Iterator Iterate.

Local Open Scope nat_scope.
Local Open Scope lsm_scope.

Module SyncIterator.

Section merge.
Context {St I E : Type} `{!InternalIterator St I E}.

(** [struct DbIterator] (the runtime apart) *)
Record DbIterator := mk {
  last_key : option Key;
  iterators : list I;
  min_key : option Key;
  max_key : option Key;
  reverse : bool;
}.

(** [type NextKV] *)
Definition NextKV : Type := option (N * nat).

(** The end of [parse_iter]: the comparison with the best candidate. *)
Definition compare (pos : nat) (next_iter : option I) (iter : I) (next_kv : NextKV) (better : comparison)
  : outcome (bool * NextKV) :=
  key ← it_get_key iter;
  seq_number ← it_get_seq_number iter;
  match next_kv with
  | Some (best_seq_number, _) =>
      next_iter ← expect next_iter "called `Option::unwrap()` on a `None` value";
      best_key ← it_get_key next_iter;
      match key_cmp key best_key, better with
      | Eq, _ => if (best_seq_number <? seq_number)%N then Ok (true, Some (seq_number, pos))
                 else Ok (false, next_kv)
      | Lt, Lt | Gt, Gt => Ok (true, Some (seq_number, pos))
      | _, _ => Ok (false, next_kv)
      end
  | None => Ok (true, Some (seq_number, pos))
  end.

(** [DbIterator::parse_iter]; the new state of [iter] is returned. *)
Definition parse_iter (fuel : nat) (self : DbIterator) (pos : nat) (last_key : option Key) (next_iter : option I)
    (iter : I) (next_kv : NextKV) : st St (I * (bool * NextKV)) :=
  if self.(reverse) then
    iter ← match last_key with
           | Some last_key => DbIteratorInner.step_while fuel (λ k, key_leb last_key k) iter
           | None => mret iter
           end;
    '(iter, stop) ←
      match self.(max_key) with
      | Some max_key =>
          iter ← DbIteratorInner.step_while fuel (λ k, key_ltb max_key k) iter;
          e ← lift (it_at_end iter);
          if (e : bool) then mret (iter, true) else
          k ← lift (it_get_key iter);
          mret (iter, key_ltb max_key k)
      | None => mret (iter, false)
      end;
    if (stop : bool) then mret (iter, (false, next_kv)) else
    e ← lift (it_at_end iter);
    if (e : bool) then mret (iter, (false, next_kv)) else
    k ← lift (it_get_key iter);
    if match self.(min_key) with Some min_key => key_leb k min_key | None => false end
    then mret (iter, (false, next_kv)) else
    r ← lift (compare pos next_iter iter next_kv Gt);
    mret (iter, r)
  else
    iter ← match last_key with
           | Some last_key => DbIteratorInner.step_while fuel (λ k, key_leb k last_key) iter
           | None => mret iter
           end;
    '(iter, stop) ←
      match self.(min_key) with
      | Some min_key =>
          iter ← DbIteratorInner.step_while fuel (λ k, key_ltb k min_key) iter;
          e ← lift (it_at_end iter);
          if (e : bool) then mret (iter, true) else
          k ← lift (it_get_key iter);
          mret (iter, key_ltb k min_key)
      | None => mret (iter, false)
      end;
    if (stop : bool) then mret (iter, (false, next_kv)) else
    e ← lift (it_at_end iter);
    if (e : bool) then mret (iter, (false, next_kv)) else
    k ← lift (it_get_key iter);
    if match self.(max_key) with Some max_key => key_leb max_key k | None => false end
    then mret (iter, (false, next_kv)) else
    r ← lift (compare pos next_iter iter next_kv Lt);
    mret (iter, r).

(** The [for pos in 0..num_iterators] loop of [next], from [pos] on: [split_at_mut]
    gives the iterators before [pos], and those from [pos] on. *)
Fixpoint parse_iters (n : nat) (fuel : nat) (self : DbIterator) (last_key : option Key) (iterators : list I)
    (pos : nat) (next_kv : NextKV) : st St (list I * NextKV) :=
  match n with
  | O => mret (iterators, next_kv)
  | S n' =>
      let prev := take pos iterators in
      let cur := drop pos iterators in
      next_iter ← lift (match next_kv with
                        | Some (_, pos) => iter ← expect (prev !! pos) "index out of bounds"; Ok (Some iter)
                        | None => Ok None
                        end);
      current_iter ← lift (expect (cur !! 0) "index out of bounds");
      '(iter, (change, kv)) ← parse_iter fuel self pos last_key next_iter current_iter next_kv;
      parse_iters n' fuel self last_key (<[pos := iter]> iterators) (S pos) (if (change : bool) then kv else next_kv)
  end.

(** The [while result.is_none()] loop of [next]: the item, the last key and the
    iterators. *)
Fixpoint next_loop (rounds fuel : nat) (self : DbIterator) (last_key : option Key) (iterators : list I)
  : st St (option (Key * E) * option Key * list I) :=
  match rounds with
  | O => lift OutOfFuel
  | S rounds' =>
      '(iterators, next_kv) ← parse_iters (length iterators) fuel self last_key iterators 0 None;
      match next_kv with
      | Some (_, pos) =>
          iter ← lift (expect (iterators !! pos) "index out of bounds");
          res_key ← lift (it_get_key iter);
          let last_key := Some res_key in
          entry ← lift (it_get_entry iter);
          match entry with
          | Some entry => mret (Some (res_key, entry), last_key, iterators)
          | None => next_loop rounds' fuel self last_key iterators
          end
      | None => mret (None, last_key, iterators)
      end
  end.

(** [Iterator::next]; the iterators are taken out of [self] and put back. *)
Definition next (rounds fuel : nat) (self : DbIterator) : st St (DbIterator * option (Key * E)) :=
  let taken := {| last_key := self.(last_key); iterators := []; min_key := self.(min_key);
                  max_key := self.(max_key); reverse := self.(reverse) |} in
  '(result, last_key, iterators) ← next_loop rounds fuel taken self.(last_key) self.(iterators);
  mret ({| last_key := last_key; iterators := iterators; min_key := self.(min_key);
           max_key := self.(max_key); reverse := self.(reverse) |}, result).

(** Calling [next] until it returns [None]; [n] bounds the number of items. *)
Fixpoint collect (n rounds fuel : nat) (self : DbIterator) : st St (list (Key * E)) :=
  match n with
  | O => lift OutOfFuel
  | S n' =>
      '(self, res) ← next rounds fuel self;
      match res with
      | Some item => rest ← collect n' rounds fuel self; mret (item :: rest)
      | None => mret []
      end
  end.

End merge.

End SyncIterator.

Arguments SyncIterator.DbIterator I : clear implicits.

(** ** The same as the asynchronous iterator *)

Section equivalence.
Context {St I E : Type} `{!InternalIterator St I E}.

(** The asynchronous iterator in the same state. *)
Definition inner_of (it : SyncIterator.DbIterator I) : DbIteratorInner.DbIteratorInner I :=
  {| DbIteratorInner.last_key := it.(SyncIterator.last_key);
     DbIteratorInner.iterators := it.(SyncIterator.iterators);
     DbIteratorInner.reverse := it.(SyncIterator.reverse);
     DbIteratorInner.min_key := it.(SyncIterator.min_key);
     DbIteratorInner.max_key := it.(SyncIterator.max_key) |}.

Definition with_state (it : SyncIterator.DbIterator I) (last_key : option Key) (its : list I) : SyncIterator.DbIterator I :=
  {| SyncIterator.last_key := last_key; SyncIterator.iterators := its; SyncIterator.min_key := it.(SyncIterator.min_key);
     SyncIterator.max_key := it.(SyncIterator.max_key); SyncIterator.reverse := it.(SyncIterator.reverse) |}.

(** The best candidate lies in front of the current position. *)
Definition candidate_before (pos : nat) (its : list I) (next_kv : option (N * nat)) (next_iter : option I) : Prop :=
  match next_kv with
  | Some (_, p) => p < pos ∧ its !! p = next_iter ∧ is_Some next_iter
  | None => next_iter = None
  end.

(** The laws of the state monad, applied to a state. *)
Lemma st_bind_assoc {A B C} (m : st St A) (f : A → st St B) (g : B → st St C) s :
  ((m ≫= f) ≫= g) s = (m ≫= λ a, f a ≫= g) s.
Proof. unfold mbind, st_bind. by destruct (m s) as [[a s']| | |]. Qed.

Lemma st_bind_ext {A B} (m : st St A) (f g : A → st St B) s :
  (∀ a s', f a s' = g a s') → (m ≫= f) s = (m ≫= g) s.
Proof. intros Hfg. unfold mbind, st_bind. by destruct (m s) as [[a s']| | |]. Qed.

Lemma compare_pick self pos iter next_kv next_iter better :
  candidate_before pos self.(DbIteratorInner.iterators) next_kv next_iter →
  DbIteratorInner.pick (DbIteratorInner.set_iter self pos iter) pos iter next_kv better
    = SyncIterator.compare pos next_iter iter next_kv better.
Proof.
  unfold DbIteratorInner.pick, SyncIterator.compare. destruct next_kv as [[n p]|]; [|done].
  intros (Hp & Hl & [i ->]). simpl. rewrite list_lookup_insert_ne by lia. by rewrite Hl.
Qed.

Lemma parse_iter_same fuel it pos last_key its iter next_iter next_kv s :
  its !! pos = Some iter → candidate_before pos its next_kv next_iter →
  DbIteratorInner.parse_iter fuel (inner_of (with_state it last_key its)) pos next_kv s =
  ('(iter, r) ← SyncIterator.parse_iter fuel it pos last_key next_iter iter next_kv;
   mret (inner_of (with_state it last_key (<[pos := iter]> its)), r)) s.
Proof.
  intros Hi Hc. unfold DbIteratorInner.parse_iter, SyncIterator.parse_iter.
  assert (expect (DbIteratorInner.iterators (inner_of (with_state it last_key its)) !! pos) "index out of bounds" = Ok iter)
    as Hx by (simpl; by rewrite Hi). run_lift Hx. simpl.
  assert (∀ i b, DbIteratorInner.pick (DbIteratorInner.set_iter (inner_of (with_state it last_key its)) pos i) pos i next_kv b
    = SyncIterator.compare pos next_iter i next_kv b) as Hpick by (intros; by apply compare_pick).
  destruct (SyncIterator.reverse it); simpl; rewrite st_bind_assoc; apply st_bind_ext; intros i1 s1;
    rewrite st_bind_assoc; apply st_bind_ext; intros [i2 stop] s2; destruct stop; try reflexivity;
    rewrite st_bind_assoc; apply st_bind_ext; intros [] s3; try reflexivity;
    rewrite st_bind_assoc; apply st_bind_ext; intros k s4.
  - destruct (match SyncIterator.min_key it with Some _ => _ | None => _ end); [reflexivity|].
    rewrite st_bind_assoc, Hpick. reflexivity.
  - destruct (match SyncIterator.max_key it with Some _ => _ | None => _ end); [reflexivity|].
    rewrite st_bind_assoc, Hpick. reflexivity.
Qed.

(** What a computation returns, if it does. *)
Definition returns_only {A} (Q : A → Prop) (r : outcome (A * St)) : Prop :=
  match r with Ok (a, _) => Q a | _ => True end.

Lemma returns_bind {A B} (Q : B → Prop) (m : st St A) (f : A → st St B) s :
  (∀ a s', returns_only Q (f a s')) → returns_only Q ((m ≫= f) s).
Proof. intros Hf. unfold mbind, st_bind. destruct (m s) as [[a s']| | |]; [apply Hf|done..]. Qed.

Lemma returns_lift {A B} (Q : B → Prop) (m : outcome A) (f : A → st St B) s :
  (∀ a, m = Ok a → returns_only Q (f a s)) → returns_only Q ((lift m ≫= f) s).
Proof. intros Hf. unfold mbind, st_bind, lift. destruct m; simpl; [by apply Hf|done..]. Qed.

(** A new candidate is at the current position. *)
Definition changed_at (pos : nat) (r : bool * option (N * nat)) : Prop :=
  r.1 = true → ∃ n, r.2 = Some (n, pos).

Lemma compare_changes pos next_iter iter next_kv better r :
  SyncIterator.compare pos next_iter iter next_kv better = Ok r → changed_at pos r.
Proof.
  unfold SyncIterator.compare. intros (k & _ & (n & _ & E2)%bind_Ok_inv)%bind_Ok_inv.
  destruct next_kv as [[m p]|]; [|injection E2 as <-; by eexists].
  apply bind_Ok_inv in E2 as (i & _ & (k' & _ & E3)%bind_Ok_inv).
  destruct (key_cmp k k'), better; repeat case_match; injection E3 as <-; intros Hc; simpl in *; try done; by eexists.
Qed.

Lemma parse_iter_changes fuel it pos last_key next_iter iter next_kv s :
  returns_only (λ r, changed_at pos r.2) (SyncIterator.parse_iter fuel it pos last_key next_iter iter next_kv s).
Proof.
  unfold SyncIterator.parse_iter. destruct (SyncIterator.reverse it); apply returns_bind; intros i1 s1; apply returns_bind;
    intros [i2 stop] s2; (destruct stop; [done|]); apply returns_bind; intros [] s3; try done;
    apply returns_bind; intros k s4; (destruct (match _ with Some _ => _ | None => false end); [done|]);
    apply returns_lift; intros r Hr; simpl; by eapply compare_changes.
Qed.

(** The loop over the iterators. *)
Lemma parse_iters_same n fuel it pos last_key its next_kv next_iter s :
  pos + n = length its → candidate_before pos its next_kv next_iter →
  DbIteratorInner.parse_iters n fuel (inner_of (with_state it last_key its)) pos next_kv s =
  ('(its, kv) ← SyncIterator.parse_iters n fuel it last_key its pos next_kv;
   mret (inner_of (with_state it last_key its), kv)) s.
Proof.
  revert pos its next_kv next_iter s. induction n as [|n IH]; intros pos its next_kv next_iter s Hn Hc; [done|].
  destruct (lookup_lt_is_Some_2 its pos ltac:(lia)) as [iter Hi].
  cbn [DbIteratorInner.parse_iters SyncIterator.parse_iters].
  assert ((match next_kv with
           | Some (_, p) => iter ← expect (take pos its !! p) "index out of bounds"; Ok (Some iter)
           | None => Ok None
           end) = Ok next_iter) as E1.
  { destruct next_kv as [[q p]|]; [|by rewrite Hc]. destruct Hc as (Hp & Hl & [i ->]).
    by rewrite lookup_take_lt, Hl by done. }
  assert (expect (drop pos its !! 0) "index out of bounds" = Ok iter) as E2
    by (by rewrite lookup_drop, Nat.add_0_r, Hi).
  rewrite st_bind_assoc. run_lift E1. rewrite st_bind_assoc. run_lift E2. rewrite st_bind_assoc.
  unfold mbind at 1. unfold st_bind at 1. rewrite (parse_iter_same fuel it pos last_key its iter next_iter next_kv s Hi Hc).
  pose proof (parse_iter_changes fuel it pos last_key next_iter iter next_kv s) as Hch.
  unfold mbind at 1 2. unfold st_bind at 1 2.
  destruct (SyncIterator.parse_iter fuel it pos last_key next_iter iter next_kv s) as [[[iter' [change kv]] s']| | |];
    [|done..]. simpl in Hch |- *.
  pose proof (lookup_lt_Some _ _ _ Hi) as Hlt.
  destruct change.
  - destruct (Hch eq_refl) as [q Hq]. simpl in Hq. subst kv. apply (IH _ _ _ (Some iter')); [rewrite length_insert; lia|].
    split; [lia|]. split; [by rewrite list_lookup_insert_eq|done].
  - apply (IH _ _ _ next_iter); [rewrite length_insert; lia|]. destruct next_kv as [[q p]|]; [|done].
    destruct Hc as (Hp & Hl & Hs). split; [lia|]. split; [|done]. by rewrite list_lookup_insert_ne by lia.
Qed.

Lemma next_loop_same rounds fuel it last_key its s :
  DbIteratorInner.next rounds fuel (inner_of (with_state it last_key its)) s =
  ('(r, last_key, its) ← SyncIterator.next_loop rounds fuel it last_key its;
   mret (inner_of (with_state it last_key its), r)) s.
Proof.
  revert last_key its s. induction rounds as [|rounds IH]; intros last_key its s; [done|].
  cbn [DbIteratorInner.next SyncIterator.next_loop]. rewrite st_bind_assoc.
  unfold mbind at 1. unfold st_bind at 1. cbn [inner_of with_state DbIteratorInner.iterators SyncIterator.iterators].
  rewrite (parse_iters_same (length its) fuel it 0 last_key its None None s eq_refl eq_refl).
  unfold mbind at 1 2. unfold st_bind at 1 2.
  destruct (SyncIterator.parse_iters (length its) fuel it last_key its 0 None s) as [[[its' kv] s']| | |] eqn:Ep;
    [|unfold mbind at 1; unfold st_bind at 1; by rewrite Ep..].
  rewrite (st_bind_Ok _ _ _ _ _ Ep). simpl. destruct kv as [[q p]|]; [|done].
  rewrite st_bind_assoc. apply st_bind_ext. intros iter s1.
  rewrite st_bind_assoc. apply st_bind_ext. intros k s2.
  rewrite st_bind_assoc. apply st_bind_ext. intros [en|] s3; [done|]. apply (IH (Some k) its').
Qed.

End equivalence.

Section theorems.
Context {St I E : Type} `{!InternalIterator St I E}.

Lemma next_same rounds fuel (it : SyncIterator.DbIterator I) (s : St) :
  DbIteratorInner.next rounds fuel (inner_of it) s =
  ('(it, r) ← SyncIterator.next rounds fuel it; mret (inner_of it, r)) s.
Proof.
  set (taken := with_state it it.(SyncIterator.last_key) []).
  pose proof (next_loop_same rounds fuel taken it.(SyncIterator.last_key) it.(SyncIterator.iterators) s) as Hl.
  change (inner_of (with_state taken it.(SyncIterator.last_key) it.(SyncIterator.iterators))) with (inner_of it) in Hl. rewrite Hl. unfold SyncIterator.next.
  rewrite st_bind_assoc. apply st_bind_ext. by intros [[r k] its] s'.
Qed.

Lemma collect_same n rounds fuel (it : SyncIterator.DbIterator I) (s : St) :
  DbIteratorInner.collect n rounds fuel (Some (inner_of it)) s = SyncIterator.collect n rounds fuel it s.
Proof.
  revert it s. induction n as [|n IH]; intros it s; [done|].
  cbn [DbIteratorInner.collect SyncIterator.collect DbIteratorInner.poll_next].
  rewrite st_bind_assoc. unfold mbind at 1. unfold st_bind at 1. rewrite next_same.
  destruct (SyncIterator.next rounds fuel it s) as [[[it' [item|]] s']| | |] eqn:En;
    [|unfold mbind, st_bind; by rewrite En..].
  rewrite !(st_bind_Ok _ _ _ _ _ En). cbn [mret st_ret]. unfold mbind at 1. unfold st_bind at 1. cbn [mret st_ret].
  unfold mbind at 1 2. unfold st_bind at 1 2. by rewrite IH.
Qed.

(** C10: the iterator of the blocking interface does what the asynchronous one
    does: in the same state over the same iterators, [next] returns the same item
    (or fails in the same way) and leaves the same state, and so does calling it
    until it ends. *)
Theorem sync_iterator_equivalent n rounds fuel (it : SyncIterator.DbIterator I) (s : St) :
  DbIteratorInner.next rounds fuel (inner_of it) s =
    ('(it, r) ← SyncIterator.next rounds fuel it; mret (inner_of it, r)) s ∧
  DbIteratorInner.collect n rounds fuel (Some (inner_of it)) s = SyncIterator.collect n rounds fuel it s.
Proof. split; [apply next_same|apply collect_same]. Qed.

End theorems.
