(* ===== verification/SyncApi.v ===== *)
(** * The blocking interface (src/sync/src/database.rs)

    The blocking database keeps the same logic and tasks, runs every call to its
    end on its own runtime ([block_on]) and iterates with [SyncIterator].  The
    theorem follows the scans of a database down to its map. *)

From stdpp Require Import base list gmap strings sorting relations.
From Stdlib Require Import Strings.Byte NArith ZArith Lia.
From S2P Require Import Prelude WriteBatch Iterator Memtable Disk Wal WalStatus WalCalls Manifest DataBlock DataBlocks IndexBlock SortedTable TableIterator Iterate DbIterator Level Compaction Logic Sources LogicInv LogicWrite LogicFlush LogicCompact LogicLevels LogicCompactLevel LogicOpen LogicScan LogicLog LogicReopen Database Tasks Api SyncIterate.

Local Open Scope nat_scope.
Local Open Scope lsm_scope.

Module SyncDb.

Section ops.
Context `{Bloom} `{Compression} `{LruCache DataBlock.DataBlock} `{Notify}.

(** [struct Database]; the runtime has no state of its own. *)
Record Database := mk { inner : DbLogic.DbLogic; tasks : TaskManager.TaskManager }.

(** [Database::new_with_params] and [Database::new] *)
Definition new_with_params (t fuel rfuel : nat) (mode : StartMode) (params : Params.Params) (path : DbPath)
  : outcome Database :=
  let compaction_concurrency := params.(Params.compaction_concurrency) in
  match DbLogic.new params fuel rfuel mode path with
  | Ok inner => Ok {| inner := inner; tasks := TaskManager.new t compaction_concurrency |}
  | Err err => Err err
  | Panic msg => Panic msg
  | OutOfFuel => OutOfFuel
  end.

Definition new (t fuel rfuel : nat) (mode : StartMode) (path : DbPath) : outcome Database :=
  new_with_params t fuel rfuel mode Params.default path.

Context (params : Params.Params) (io : IoMode).

Definition on_inner {A} (f : st DbLogic.DbLogic A) : st Database A := λ s,
  '(a, i) ← f s.(inner); Ok (a, mk i s.(tasks)).

Definition on_tasks (f : TaskManager.TaskManager → TaskManager.TaskManager) : st Database unit := λ s,
  Ok ((), mk s.(inner) (f s.(tasks))).

(** [Database::get] at time [t] *)
Definition get (t : nat) (key : Key) : st Database (option EntryRef.EntryRef) :=
  '(needs_compaction, data) ← on_inner (DbLogic.get params key);
  _ ← (if (needs_compaction : bool) then on_tasks (TaskManager.wake_up t LevelCompaction) else mret ());
  mret data.

(** [Database::synchronize] *)
Definition synchronize : st Database unit := on_inner (DbLogic.synchronize io).

(** [Database::write_opts] at time [t]; a call that [Waits] goes on as
    [write_woken], with its thread blocked meanwhile. *)
Definition write_opts (t : nat) (write_batch : WriteBatch.WriteBatch) (opts : WriteOptions) : st Database Db.Written :=
  needs_compaction ← on_inner (DbLogic.write_opts params io write_batch.(WriteBatch.writes) opts);
  pending ← on_inner (DbLogic.gets DbLogic.pending);
  match pending with
  | Some _ => mret Db.Waits
  | None =>
      _ ← (if (needs_compaction : bool) then on_tasks (TaskManager.wake_up t MemtableCompaction) else mret ());
      mret Db.Returned
  end.

Definition write_woken (t : nat) : st Database Db.Written :=
  _ ← on_inner DbLogic.write_resume;
  pending ← on_inner (DbLogic.gets DbLogic.pending);
  match pending with
  | Some _ => mret Db.Waits
  | None => _ ← on_tasks (TaskManager.wake_up t MemtableCompaction); mret Db.Returned
  end.

(** [Database::write], [Database::put_opts], [Database::put],
    [Database::delete_opts], [Database::delete] *)
Definition write (t : nat) (write_batch : WriteBatch.WriteBatch) : st Database Db.Written :=
  write_opts t write_batch WriteOptions_new.

Definition put_opts (t : nat) (key : Key) (value : Value) (opts : WriteOptions) : st Database Db.Written :=
  let batch := WriteBatch.put WriteBatch.new key value in
  write_opts t batch opts.

Definition put (t : nat) (key : Key) (value : Value) : st Database Db.Written :=
  put_opts t key value WriteOptions_new.

Definition delete_opts (t : nat) (key : Key) (opts : WriteOptions) : st Database Db.Written :=
  let batch := WriteBatch.delete WriteBatch.new key in
  write_opts t batch opts.

Definition delete (t : nat) (key : Key) : st Database Db.Written :=
  let batch := WriteBatch.delete WriteBatch.new key in
  write_opts t batch WriteOptions_new.

(** [DbIterator::new] (src/sync/src/iterate.rs) *)
Definition new_iterator (mem_iters : list MemtableIterator.MemtableIterator) (table_iters : list TableIterator.TableIterator)
    (min_key max_key : option Key) (reverse : bool) : SyncIterator.DbIterator DbIterator.BoxedIterator :=
  {| SyncIterator.last_key := None;
     SyncIterator.iterators := (DbIterator.BMem <$> mem_iters) ++ (DbIterator.BTable <$> table_iters);
     SyncIterator.min_key := min_key; SyncIterator.max_key := max_key; SyncIterator.reverse := reverse |}.

(** [Database::iter], [Database::reverse_iter], [Database::range_iter] and
    [Database::reverse_range_iter] *)
Definition iter : st Database (SyncIterator.DbIterator DbIterator.BoxedIterator) :=
  '(mem_iters, table_iters, min_key, max_key) ← on_inner (DbLogic.prepare_iter params None None);
  mret (new_iterator mem_iters table_iters min_key max_key false).

Definition reverse_iter : st Database (SyncIterator.DbIterator DbIterator.BoxedIterator) :=
  '(mem_iters, table_iters, min_key, max_key) ← on_inner (DbLogic.prepare_reverse_iter params None None);
  mret (new_iterator mem_iters table_iters min_key max_key true).

Definition range_iter (min max : Key) : st Database (SyncIterator.DbIterator DbIterator.BoxedIterator) :=
  '(mem_iters, table_iters, min_key, max_key) ←
    on_inner (DbLogic.prepare_iter params (Some min) (Some max));
  mret (new_iterator mem_iters table_iters min_key max_key false).

Definition reverse_range_iter (max_key min_key : Key) : st Database (SyncIterator.DbIterator DbIterator.BoxedIterator) :=
  '(mem_iters, table_iters, min_key, max_key) ←
    on_inner (DbLogic.prepare_reverse_iter params (Some max_key) (Some min_key));
  mret (new_iterator mem_iters table_iters min_key max_key true).

(** [Database::stop]; unlike the asynchronous one it leaves the log running. *)
Definition stop : st Database unit := on_tasks TaskManager.stop_all.

(** [impl Drop for Database] *)
Definition drop : st Database unit := on_tasks TaskManager.terminate.

End ops.

End SyncDb.

(** ** Scans *)

Section theorems.
Context `{BloomLaws} `{CompressionLaws} `{LruLaws DataBlock.DataBlock} `{Notify}.

(** The scan of a range, forward or in reverse, down to the last item. *)
Definition scan_range (params : Params.Params) (n : nat) (rev : bool) (min_key max_key : Key) (db : SyncDb.Database)
  : outcome (list (Key * EntryRef.EntryRef)) :=
  '(it, db) ← (if rev then SyncDb.reverse_range_iter params max_key min_key
               else SyncDb.range_iter params min_key max_key) db;
  '(out, _) ← SyncIterator.collect (InternalIterator0 := boxed_iterator params) n n n it
    db.(SyncDb.inner).(DbLogic.env);
  Ok out.

(** C11: a scan through the blocking interface reads the map.  In every state
    that the logic reaches, iterating over a range in either direction ends, and
    yields each key of the range that has a value once, in order, with its
    value, and no key outside of the range.  Keys without a value can be among
    the items too: those that a memtable has as deleted
    ([memtable_deletions_iterated]). *)
Theorem sync_scans params interval io s h (tasks : TaskManager.TaskManager) rev min_key max_key :
  settings params interval → reachable params interval io s h → s.(DbLogic.pending) = None → min_key <k max_key →
  ∃ n out, scan_range params n rev min_key max_key (SyncDb.mk s tasks) = Ok out ∧
    StronglySorted (before rev) out.*1 ∧
    (∀ k en, (k, en) ∈ out → in_bounds rev (Some min_key) (Some max_key) k) ∧
    ∀ k v, (∃ en, (k, en) ∈ out ∧ EntryRef.value en = Ok (Some v)) ↔
      map_of h !! k = Some v ∧ in_bounds rev (Some min_key) (Some max_key) k.
Proof.
  intros Hset Hr Hp Hlt. destruct (reachable_stands _ _ _ Hset s h Hr) as [Hst _].
  destruct (scan_stands params interval io rev (Some min_key) (Some max_key) s _ Hst Hp)
    as (n & mits & tits & s' & out & e & E & _ & Ec & Hs & Hb & Hm); [by intros a b [= <-] [= <-]|].
  exists n, out. split; [|done]. unfold scan_range.
  assert ((if rev then SyncDb.reverse_range_iter params max_key min_key else SyncDb.range_iter params min_key max_key)
    (SyncDb.mk s tasks) = Ok (SyncDb.new_iterator mits tits (Some min_key) (Some max_key) rev, SyncDb.mk s' tasks)) as Ei.
  { assert (SyncDb.on_inner (DbLogic.prepare params rev (Some min_key) (Some max_key)) (SyncDb.mk s tasks)
      = Ok (mits, tits, Some min_key, Some max_key, SyncDb.mk s' tasks)) as E' by (unfold SyncDb.on_inner; simpl; by rewrite E).
    destruct rev; unfold SyncDb.reverse_range_iter, SyncDb.range_iter, DbLogic.prepare_reverse_iter, DbLogic.prepare_iter;
      by run_st E'. }
  rewrite Ei. cbn [mbind outcome_bind SyncDb.inner].
  pose proof (collect_same (InternalIterator0 := boxed_iterator params) n n n
    (SyncDb.new_iterator mits tits (Some min_key) (Some max_key) rev) s'.(DbLogic.env)) as Hc.
  change (Some (inner_of (SyncDb.new_iterator mits tits (Some min_key) (Some max_key) rev)))
    with (DbIterator.new mits tits (Some min_key) (Some max_key) rev) in Hc.
  rewrite <-Hc, Ec. done.
Qed.

End theorems.

Section witnesses.
Import Concrete.
#[local] Existing Instance queue_notify.

Lemma sync_scans_witness :
  ∃ n out, scan_range sample_db_params n true [x61] [x63] (SyncDb.mk full_db (TaskManager.new 0 1)) = Ok out ∧
    StronglySorted (before true) out.*1 ∧
    (∀ k en, (k, en) ∈ out → in_bounds true (Some [x61]) (Some [x63]) k) ∧
    ∀ k v, (∃ en, (k, en) ∈ out ∧ EntryRef.value en = Ok (Some v)) ↔
      map_of sample_batch !! k = Some v ∧ in_bounds true (Some [x61]) (Some [x63]) k.
Proof.
  apply (sync_scans sample_db_params 2 StdFs full_db);
    [exact sample_settings|exact full_db_reachable|exact full_db_free|reflexivity].
Defined.

End witnesses.
