(* ===== verification/LevelLogger.v ===== *)
(** * Statistics of the levels (src/src/level_logger.rs)

    The logger counts the tables of every level and writes the counts to a file
    after every change.  The writer of the file (crate [csv]) is a parameter; the
    elapsed time is an argument. *)

From stdpp Require Import base list strings pretty.
From Stdlib Require Import NArith Lia.
From S2P Require Import Prelude.

Local Open Scope nat_scope.

(** [csv::Writer]: a record is appended, or the call fails. *)
Class CsvWriter := {
  csv : Type;
  write_record : csv → list string → option csv;
}.

Module LevelLogger.

Section ops.
Context `{CsvWriter}.

(** [struct Inner] (the start time is in the elapsed time of [write]) *)
Record Inner := mk { outfile : csv; num_tables : list nat }.

(** [Inner::new], and [LevelLogger::new] when the file could be created *)
Definition new (outfile : csv) (num_levels : nat) : outcome Inner :=
  let num_tables := replicate num_levels 0 in
  let header := "time"%string :: ((λ idx, ("level" ++ pretty idx)%string) <$> seq 0 num_levels) in
  outfile ← expect (write_record outfile header) "called `Result::unwrap()` on an `Err` value";
  Ok {| outfile := outfile; num_tables := num_tables |}.

(** [Inner::write], [elapsed] milliseconds after the start *)
Definition write (elapsed : N) (self : Inner) : outcome Inner :=
  let record := pretty elapsed :: (pretty <$> self.(num_tables)) in
  outfile ← expect (write_record self.(outfile) record) "called `Result::unwrap()` on an `Err` value";
  Ok {| outfile := outfile; num_tables := self.(num_tables) |}.

(** [inner.num_tables[i] += n] and [inner.num_tables[i] -= n] *)
Definition add_tables (i n : nat) (counts : list nat) : outcome (list nat) :=
  c ← expect (counts !! i) "index out of bounds";
  Ok (<[i := c + n]> counts).

Definition sub_tables (i n : nat) (counts : list nat) : outcome (list nat) :=
  c ← expect (counts !! i) "index out of bounds";
  if n <=? c then Ok (<[i := c - n]> counts) else Panic "attempt to subtract with overflow".

(** [LevelLogger::l0_table_added] *)
Definition l0_table_added (elapsed : N) (self : Inner) : outcome Inner :=
  counts ← add_tables 0 1 self.(num_tables);
  write elapsed {| outfile := self.(outfile); num_tables := counts |}.

(** [LevelLogger::compaction] *)
Definition compaction (elapsed : N) (level added removed : nat) (self : Inner) : outcome Inner :=
  counts ← sub_tables level removed self.(num_tables);
  counts ← add_tables (level + 1) added counts;
  write elapsed {| outfile := self.(outfile); num_tables := counts |}.

End ops.

End LevelLogger.

Section counts.
Context `{CsvWriter}.
Context (writable : ∀ o record, is_Some (write_record o record)).

Lemma write_ok elapsed s : ∃ s', LevelLogger.write elapsed s = Ok s' ∧ s'.(LevelLogger.num_tables) = s.(LevelLogger.num_tables).
Proof.
  unfold LevelLogger.write. destruct (writable s.(LevelLogger.outfile)
    (pretty elapsed :: (pretty <$> s.(LevelLogger.num_tables)))) as [o ->]. by eexists.
Qed.

(** While the file can be written, a compaction that takes its tables from the upper
    of the two levels only moves the counts; when tables of the lower level take
    part, they are subtracted from the upper level as well, and the logger panics if
    it has fewer. *)
Theorem level_logger_compaction elapsed level added removed s c c' :
  s.(LevelLogger.num_tables) !! level = Some c → s.(LevelLogger.num_tables) !! (level + 1) = Some c' →
  if removed <=? c
  then ∃ s', LevelLogger.compaction elapsed level added removed s = Ok s' ∧
    s'.(LevelLogger.num_tables) = <[level + 1 := c' + added]> (<[level := c - removed]> s.(LevelLogger.num_tables))
  else LevelLogger.compaction elapsed level added removed s = Panic "attempt to subtract with overflow".
Proof.
  intros Hc Hc'. unfold LevelLogger.compaction, LevelLogger.sub_tables, LevelLogger.add_tables. rewrite Hc. simpl.
  destruct (removed <=? c); [|done]. simpl. rewrite list_lookup_insert_ne, Hc' by lia. simpl.
  match goal with |- context [LevelLogger.write _ ?x] => destruct (write_ok elapsed x) as (s' & -> & E) end.
  by exists s'.
Qed.

End counts.

(** Two tables on levels 0 and 1 that overlap: their compaction makes the logger panic. *)
Section example.
#[local] Instance list_csv : CsvWriter := {| csv := list (list string); write_record o r := Some (o ++ [r]) |}.

Example level_logger_panics :
  (s ← @LevelLogger.new list_csv [] 3;
   s ← LevelLogger.l0_table_added 1 s;
   s ← LevelLogger.compaction 2 0 1 1 s;
   s ← LevelLogger.l0_table_added 3 s;
   LevelLogger.compaction 4 0 1 2 s) = Panic "attempt to subtract with overflow".
Proof. reflexivity. Qed.

Lemma level_logger_compaction_witness :
  LevelLogger.compaction 4 0 1 2 (@LevelLogger.mk list_csv [] [1; 1; 0]) = Panic "attempt to subtract with overflow".
Proof.
  apply (level_logger_compaction (λ o r, ltac:(by eexists)) 4 0 1 2 (@LevelLogger.mk list_csv [] [1; 1; 0]) 1 1); reflexivity.
Defined.

End example.
