(* ===== verification/ValueBatch.v ===== *)
(** * Value batches (src/src/values/batch.rs)

    With the [wisckey] feature values live in batches outside of the tables.  A
    batch is a header with the number of values, followed by the entries, each at
    an aligned offset with the lengths of its key and value in front.  A value is
    found by the offset that [add_entry] returned. *)

From stdpp Require Import base list gmap strings.
From Stdlib Require Import Strings.Byte NArith Lia.
From S2P Require Import Prelude.

Local Open Scope nat_scope.
Local Open Scope lsm_scope.

(** [type ValueId]: the batch and the offset in it. *)
Abbreviation ValueId := (N * N)%type.

(** [BATCH_HEADER_LEN], the size of [ValueBatchHeader] *)
Definition BATCH_HEADER_LEN : nat := 4.

(** [size_of::<ValueEntryHeader>()] *)
Definition value_entry_header_len : nat := 8.

(** [len.try_into().expect(msg)] for a [u32] *)
Definition try_u32 (n : nat) (msg : string) : outcome N :=
  if (N.of_nat n <? u32_bound)%N then Ok (N.of_nat n) else Panic msg.

Module ValueEntryHeader.

(** [struct ValueEntryHeader] *)
Record ValueEntryHeader := mk { key_length : N; value_length : N }.

(** [as_bytes] and [ref_from_prefix] *)
Definition as_bytes (h : ValueEntryHeader) : list byte :=
  le_bytes 4 h.(key_length) ++ le_bytes 4 h.(value_length).

Definition ref_from_prefix (data : list byte) : outcome ValueEntryHeader :=
  if value_entry_header_len <=? length data
  then Ok {| key_length := le_val (take 4 data); value_length := le_val (take 4 (drop 4 data)) |}
  else Panic "SizeError".

End ValueEntryHeader.

Module ValueBatch.

(** [struct ValueBatch] *)
Record ValueBatch := mk { data : list byte }.

(** [ValueBatch::from_existing] *)
Definition from_existing (data : list byte) : ValueBatch := {| data := data |}.

(** [ValueBatch::get_value_data] *)
Definition get_value_data (b : ValueBatch) : outcome (list byte) := slice_from b.(data) BATCH_HEADER_LEN.

(** [ValueBatch::total_num_values] (and [get_header]) *)
Definition total_num_values (b : ValueBatch) : outcome N := read_prefix 4 b.(data).

(** [struct ValueRef] *)
Record ValueRef := mkRef { batch : ValueBatch; offset : nat; ref_length : nat }.

(** [ValueRef::get_value] *)
Definition get_value (r : ValueRef) : outcome (list byte) :=
  data ← get_value_data r.(batch);
  slice data r.(offset) (r.(offset) + r.(ref_length)).

(** [ValueBatch::get_ref] *)
Definition get_ref (self : ValueBatch) (pos : N) : outcome ValueRef :=
  let offset := N.to_nat pos in
  value_data ← get_value_data self;
  data ← slice_from value_data offset;
  vheader ← ValueEntryHeader.ref_from_prefix data;
  let offset := offset + value_entry_header_len in
  let offset := offset + N.to_nat vheader.(ValueEntryHeader.key_length) in
  Ok {| batch := self; offset := offset; ref_length := N.to_nat vheader.(ValueEntryHeader.value_length) |}.

(** The closure of [ValueBatch::get_entries]. *)
Definition get_entry (self : ValueBatch) (offset : N) : outcome (list byte * list byte) :=
  let offset := N.to_nat offset in
  value_data ← get_value_data self;
  data ← slice_from value_data offset;
  vheader ← ValueEntryHeader.ref_from_prefix data;
  let offset := offset + value_entry_header_len in
  key ← slice data offset (N.to_nat vheader.(ValueEntryHeader.key_length));
  let offset := offset + N.to_nat vheader.(ValueEntryHeader.key_length) in
  value ← slice data offset (N.to_nat vheader.(ValueEntryHeader.value_length));
  Ok (key, value).

(** [ValueBatch::get_entries] *)
Fixpoint get_entries (self : ValueBatch) (offsets : list N) : outcome (list (list byte * list byte)) :=
  match offsets with
  | [] => Ok []
  | offset :: offsets' =>
      entry ← get_entry self offset;
      entries ← get_entries self offsets';
      Ok (entry :: entries)
  end.

End ValueBatch.

Module ValueBatchBuilder.

(** [struct ValueBatchBuilder] (the value log is an argument of [finish]) *)
Record ValueBatchBuilder := mk {
  identifier : N;
  offsets : list byte;
  value_data : list byte;
}.

(** [ValueBatchBuilder::new] *)
Definition new (identifier : N) : ValueBatchBuilder :=
  {| identifier := identifier; value_data := []; offsets := [] |}.

(** [ValueBatchBuilder::add_entry] *)
Definition add_entry (self : ValueBatchBuilder) (key val : list byte) : outcome (ValueId * ValueBatchBuilder) :=
  let offset := pad_offset (length self.(value_data)) in
  _ ← assert_that (length self.(value_data) <=? offset) "assertion failed: offset >= self.value_data.len()";
  let value_data := self.(value_data) ++ replicate (offset - length self.(value_data)) x00 in
  let offsets := self.(offsets) ++ le_bytes 4 (as_u32 offset) in
  key_length ← try_u32 (length key) "Key is too long";
  value_length ← try_u32 (length val) "Value is too long";
  let entry_header := ValueEntryHeader.mk key_length value_length in
  let value_data := value_data ++ ValueEntryHeader.as_bytes entry_header ++ key ++ val in
  Ok ((self.(identifier), as_u32 offset),
      {| identifier := self.(identifier); offsets := offsets; value_data := value_data |}).

(** The first part of [ValueBatchBuilder::finish]: the number of values and the
    contents of the batch.  The offsets are padded but not made part of them. *)
Definition num_values (self : ValueBatchBuilder) : N := as_u32 (length self.(offsets) / 4).

Definition finish_data (self : ValueBatchBuilder) : list byte :=
  le_bytes 4 (num_values self) ++ self.(value_data).

End ValueBatchBuilder.

(** ** Building a batch *)

(** Entries added one after the other. *)
Fixpoint add_entries (b : ValueBatchBuilder.ValueBatchBuilder) (es : list (list byte * list byte))
  : outcome (list ValueId * ValueBatchBuilder.ValueBatchBuilder) :=
  match es with
  | [] => Ok ([], b)
  | (key, val) :: es' =>
      '(id, b) ← ValueBatchBuilder.add_entry b key val;
      '(ids, b) ← add_entries b es';
      Ok (id :: ids, b)
  end.

(** The bytes of an entry, and its place in the data. *)
Definition entry_bytes (key val : list byte) : list byte :=
  ValueEntryHeader.as_bytes (ValueEntryHeader.mk (N.of_nat (length key)) (N.of_nat (length val))) ++ key ++ val.

Definition stored_at (data : list byte) (off : N) (key val : list byte) : Prop :=
  ∃ pre post, data = pre ++ entry_bytes key val ++ post ∧ N.of_nat (length pre) = off.

(** Upper bound for the data of the entries. *)
Definition batch_room (es : list (list byte * list byte)) : nat :=
  sum_list_with (λ e, 16 + length e.1 + length e.2) es.

Lemma batch_room_cons e es : batch_room (e :: es) = 16 + length e.1 + length e.2 + batch_room es.
Proof. done. Qed.

Lemma length_batch_room es : length es <= batch_room es.
Proof. induction es as [|e es IH]; [done|]. rewrite batch_room_cons. simpl. lia. Qed.

Lemma length_value_entry key val : length (entry_bytes key val) = 8 + length key + length val.
Proof. unfold entry_bytes, ValueEntryHeader.as_bytes. len. Qed.

Lemma stored_app data more off key val : stored_at data off key val → stored_at (data ++ more) off key val.
Proof. intros (pre & post & -> & Hl). exists pre, (post ++ more). split; [|done]. by rewrite <-!(assoc_L (++)). Qed.

Lemma try_u32_Ok n msg : (N.of_nat n < u32_bound)%N → try_u32 n msg = Ok (N.of_nat n).
Proof. intros Hn. unfold try_u32. by rewrite (proj2 (N.ltb_lt _ _) Hn). Qed.

Lemma value_added b key val :
  (N.of_nat (length b.(ValueBatchBuilder.value_data) + 16 + length key + length val) < u32_bound)%N →
  ∃ off b', ValueBatchBuilder.add_entry b key val = Ok ((b.(ValueBatchBuilder.identifier), off), b') ∧
    b'.(ValueBatchBuilder.identifier) = b.(ValueBatchBuilder.identifier) ∧
    stored_at b'.(ValueBatchBuilder.value_data) off key val ∧
    (∃ more, b'.(ValueBatchBuilder.value_data) = b.(ValueBatchBuilder.value_data) ++ more ∧
      8 <= length more <= 16 + length key + length val) ∧
    off = N.of_nat (pad_offset (length b.(ValueBatchBuilder.value_data))) ∧
    length b'.(ValueBatchBuilder.offsets) = length b.(ValueBatchBuilder.offsets) + 4.
Proof.
  intros Hb. unfold ValueBatchBuilder.add_entry. set (vd := ValueBatchBuilder.value_data b) in *.
  pose proof (compute_padding_lt (length vd)) as Hpad. unfold WORD_SIZE in Hpad.
  assert (length vd <= pad_offset (length vd) < length vd + 8) as Hoff by (unfold pad_offset; lia).
  rewrite assert_Ok by bool_true. simpl. rewrite !try_u32_Ok by lia. simpl.
  eexists _, _. split; [done|]. simpl. split; [done|]. split; [|split; [|split; [apply as_u32_small; lia|len]]].
  - exists (vd ++ replicate (pad_offset (length vd) - length vd) x00), []. rewrite app_nil_r. split.
    + unfold entry_bytes. by rewrite <-!(assoc_L (++)).
    + rewrite as_u32_small by lia. len.
  - eexists. rewrite <-(assoc_L (++)). split; [done|].
    rewrite !length_app, length_replicate. simpl. rewrite ?length_app. lia.
Qed.

(** Every entry takes eight bytes at least. *)
Lemma values_added b es :
  (N.of_nat (length b.(ValueBatchBuilder.value_data) + batch_room es) < u32_bound)%N →
  ∃ offs b', add_entries b es = Ok (pair b.(ValueBatchBuilder.identifier) <$> offs, b') ∧
    b'.(ValueBatchBuilder.identifier) = b.(ValueBatchBuilder.identifier) ∧
    Forall2 (λ off e, stored_at b'.(ValueBatchBuilder.value_data) off e.1 e.2) offs es ∧
    (∃ more, b'.(ValueBatchBuilder.value_data) = b.(ValueBatchBuilder.value_data) ++ more ∧ length more <= batch_room es) ∧
    (∀ i off, offs !! i = Some off → (N.of_nat (length b.(ValueBatchBuilder.value_data) + 8 * i) <= off)%N) ∧
    (∀ off, offs !! 0 = Some off → off = N.of_nat (pad_offset (length b.(ValueBatchBuilder.value_data)))) ∧
    length b'.(ValueBatchBuilder.offsets) = length b.(ValueBatchBuilder.offsets) + 4 * length es.
Proof.
  revert b. induction es as [|[key val] es IH]; intros b Hb; cbn [add_entries].
  { exists [], b. split; [done|]. split; [done|]. split; [done|]. split; [|split; [done|split; [done|simpl; lia]]]. exists []. by rewrite app_nil_r. }
  rewrite batch_room_cons in *. cbn [fst snd] in *.
  destruct (value_added b key val) as (off & b1 & E1 & Hid1 & Hs1 & (more1 & Hd1 & Hl1) & Hoff & Ho1); [lia|].
  destruct (IH b1) as (offs & b' & E2 & Hid2 & Hs2 & (more2 & Hd2 & Hl2) & Hoffs & _ & Ho2); [rewrite Hd1, length_app; lia|].
  exists (off :: offs), b'. rewrite E1. simpl. rewrite E2. simpl. rewrite Hid1. split; [done|]. split; [congruence|].
  split; [|split; [exists (more1 ++ more2); rewrite Hd2, Hd1, <-(assoc_L (++)), length_app; split; [done|lia]|split; [|split; [by intros o [= <-]|simpl; lia]]]].
  - constructor; [|done]. rewrite Hd2. by apply stored_app.
  - intros [|i] o Hi; simpl in Hi; [injection Hi as <-; subst off; unfold pad_offset; lia|]. specialize (Hoffs i o Hi). rewrite Hd1, length_app in Hoffs. lia.
Qed.

(** ** Reading a batch *)

Lemma header_of_entry key val post :
  (N.of_nat (length key) < u32_bound)%N → (N.of_nat (length val) < u32_bound)%N →
  ValueEntryHeader.ref_from_prefix (entry_bytes key val ++ post)
    = Ok (ValueEntryHeader.mk (N.of_nat (length key)) (N.of_nat (length val))).
Proof.
  intros Hk Hv. unfold ValueEntryHeader.ref_from_prefix.
  rewrite (proj2 (Nat.leb_le _ _)) by (rewrite length_app, length_value_entry; unfold value_entry_header_len; lia).
  unfold entry_bytes, ValueEntryHeader.as_bytes. simpl ValueEntryHeader.key_length. simpl ValueEntryHeader.value_length.
  rewrite <-!(assoc_L (++)). rewrite take_app_length' by len. rewrite drop_app_length' by len.
  rewrite take_app_length' by len. by rewrite !le_roundtrip_u32.
Qed.

Lemma get_ref_stored hdr data off key val :
  length hdr = 4 → stored_at data off key val →
  (N.of_nat (length key) < u32_bound)%N → (N.of_nat (length val) < u32_bound)%N →
  ∃ r, ValueBatch.get_ref (ValueBatch.from_existing (hdr ++ data)) off = Ok r ∧ ValueBatch.get_value r = Ok val.
Proof.
  intros Hh (pre & post & -> & <-) Hk Hv. unfold ValueBatch.get_ref, ValueBatch.get_value_data, BATCH_HEADER_LEN.
  cbn [ValueBatch.from_existing ValueBatch.data]. rewrite slice_from_app by done. run_bind. rewrite Nat2N.id, slice_from_app by done. run_bind.
  rewrite header_of_entry by done. run_bind. eexists. split; [done|].
  unfold ValueBatch.get_value, ValueBatch.get_value_data, BATCH_HEADER_LEN.
  cbn [ValueBatch.from_existing ValueBatch.data ValueBatch.batch ValueBatch.offset ValueBatch.ref_length
    ValueEntryHeader.key_length ValueEntryHeader.value_length].
  rewrite slice_from_app by done. run_bind. rewrite !Nat2N.id. unfold entry_bytes.
  set (h := ValueEntryHeader.as_bytes _). assert (length h = 8) as Hl by (unfold h, ValueEntryHeader.as_bytes; len).
  replace (pre ++ (h ++ key ++ val) ++ post) with ((pre ++ h ++ key) ++ val ++ post) by (by rewrite <-!(assoc_L (++))).
  apply slice_app_mid; unfold value_entry_header_len; len.
Qed.

Lemma slice_reversed l a b : b < a → slice l a b = Panic "slice index out of range".
Proof. intros Hlt. unfold slice. by rewrite (proj2 (Nat.leb_gt a b) Hlt). Qed.

(** [get_entries] slices the data behind the offset by the offset again. *)
Lemma get_entry_panics hdr data off key val :
  length hdr = 4 → stored_at data off key val → length key < N.to_nat off + 8 →
  (N.of_nat (length key) < u32_bound)%N → (N.of_nat (length val) < u32_bound)%N →
  ValueBatch.get_entry (ValueBatch.from_existing (hdr ++ data)) off = Panic "slice index out of range".
Proof.
  intros Hh (pre & post & -> & <-) Hlt Hk Hv. unfold ValueBatch.get_entry, ValueBatch.get_value_data, BATCH_HEADER_LEN.
  cbn [ValueBatch.from_existing ValueBatch.data]. rewrite slice_from_app by done. run_bind.
  rewrite Nat2N.id in Hlt |- *. rewrite slice_from_app by done. run_bind. rewrite header_of_entry by done. run_bind.
  cbn [ValueEntryHeader.key_length]. rewrite Nat2N.id. by rewrite (slice_reversed _ (length pre + value_entry_header_len) (length key)).
Qed.

(** A batch made of the entries, and where the entries are. *)
Lemma built_batch id es :
  (N.of_nat (batch_room es) < u32_bound)%N →
  ∃ offs b, add_entries (ValueBatchBuilder.new id) es = Ok (pair id <$> offs, b) ∧
    b.(ValueBatchBuilder.identifier) = id ∧
    Forall2 (λ off e, stored_at b.(ValueBatchBuilder.value_data) off e.1 e.2) offs es ∧
    length b.(ValueBatchBuilder.value_data) <= batch_room es ∧
    (∀ i off, offs !! i = Some off → (N.of_nat (8 * i) <= off)%N) ∧
    (∀ off, offs !! 0 = Some off → off = 0%N) ∧
    ValueBatchBuilder.num_values b = N.of_nat (length es).
Proof.
  intros Hr. destruct (values_added (ValueBatchBuilder.new id) es) as (offs & b & E & Hid & Hs & (more & Hd & Hl) & Hoffs & Hoff0 & Ho);
    [exact Hr|]. exists offs, b. split; [done|]. split; [done|]. split; [done|]. simpl in Hd. subst more. split; [done|]. split; [exact Hoffs|]. split; [exact Hoff0|].
  cbn [ValueBatchBuilder.new ValueBatchBuilder.offsets length] in Ho.
  unfold ValueBatchBuilder.num_values. rewrite Ho, Nat.add_0_l, Nat.mul_comm, Nat.div_mul by lia. apply as_u32_small.
  pose proof (length_batch_room es). lia.
Qed.

Lemma entry_widths es i (key val : list byte) :
  (N.of_nat (batch_room es) < u32_bound)%N → es !! i = Some (key, val) →
  (N.of_nat (length key) < u32_bound)%N ∧ (N.of_nat (length val) < u32_bound)%N.
Proof.
  intros Hr Hi. assert (16 + length key + length val <= batch_room es) as Hle; [|lia]. clear Hr.
  revert i Hi. induction es as [|e es IH]; intros [|i] Hi; [done|done|..]; rewrite batch_room_cons; simpl in Hi.
  - injection Hi as ->. simpl. lia.
  - specialize (IH i Hi). lia.
Qed.

(** Values come back.  Adding entries whose data stays below 4 GiB succeeds;
    in the finished batch, written and read again or not, the identifier of every
    entry leads to its value, and the header counts the entries. *)
Theorem value_batch_roundtrip id es :
  (N.of_nat (batch_room es) < u32_bound)%N →
  ∃ offs b, add_entries (ValueBatchBuilder.new id) es = Ok (pair id <$> offs, b) ∧
    let batch := ValueBatch.from_existing (ValueBatchBuilder.finish_data b) in
    ValueBatch.total_num_values batch = Ok (N.of_nat (length es)) ∧
    ∀ i key val, es !! i = Some (key, val) →
      ∃ off r, offs !! i = Some off ∧ ValueBatch.get_ref batch off = Ok r ∧ ValueBatch.get_value r = Ok val.
Proof.
  intros Hr. destruct (built_batch id es Hr) as (offs & b & E & _ & Hs & _ & _ & _ & Hn). exists offs, b. split; [done|].
  unfold ValueBatchBuilder.finish_data. rewrite Hn. split.
  - unfold ValueBatch.total_num_values. cbn [ValueBatch.from_existing ValueBatch.data].
    rewrite read_prefix_app by len. f_equal. apply le_roundtrip_u32.
    pose proof (length_batch_room es). lia.
  - intros i key val Hi. destruct (Forall2_lookup_r _ _ _ _ _ Hs Hi) as (off & Ho & Hst).
    destruct (entry_widths es i key val Hr Hi) as [Hk Hv].
    destruct (get_ref_stored (le_bytes 4 (N.of_nat (length es))) _ off key val ltac:(len) Hst Hk Hv) as (r & Er & Ev).
    by exists off, r.
Qed.

(** [get_entries], which reads the entries of a sparse batch in order to insert
    them again, panics for every entry with a key shorter than eight bytes: it
    adds the offset a second time to a slice that starts there. *)
Theorem value_batch_get_entries_panics id es i key val :
  (N.of_nat (batch_room es) < u32_bound)%N → es !! i = Some (key, val) → length key < 8 →
  ∃ offs b off, add_entries (ValueBatchBuilder.new id) es = Ok (pair id <$> offs, b) ∧ offs !! i = Some off ∧
    ∀ more, ValueBatch.get_entries (ValueBatch.from_existing (ValueBatchBuilder.finish_data b)) (off :: more)
      = Panic "slice index out of range".
Proof.
  intros Hr Hi Hk8. destruct (built_batch id es Hr) as (offs & b & E & _ & Hs & _ & _ & _ & _).
  destruct (Forall2_lookup_r _ _ _ _ _ Hs Hi) as (off & Ho & Hst). exists offs, b, off. split; [done|]. split; [done|].
  intros more. destruct (entry_widths es i key val Hr Hi) as [Hk Hv]. cbn [ValueBatch.get_entries].
  unfold ValueBatchBuilder.finish_data. rewrite (get_entry_panics _ _ off key val); [done|len|done|lia|done|done].
Qed.

(** ** Witnesses *)

Definition sample_values : list (list byte * list byte) := [([x61], [x01; x02; x03]); ([x62; x63], [x04])].

Lemma value_batch_roundtrip_witness :
  ∃ offs b, add_entries (ValueBatchBuilder.new 1) sample_values = Ok (pair 1%N <$> offs, b) ∧
    let batch := ValueBatch.from_existing (ValueBatchBuilder.finish_data b) in
    ValueBatch.total_num_values batch = Ok (N.of_nat (length sample_values)) ∧
    ∀ i key val, sample_values !! i = Some (key, val) →
      ∃ off r, offs !! i = Some off ∧ ValueBatch.get_ref batch off = Ok r ∧ ValueBatch.get_value r = Ok val.
Proof. apply (value_batch_roundtrip 1 sample_values). vm_compute. reflexivity. Defined.

Lemma value_batch_get_entries_panics_witness :
  ∃ offs b off, add_entries (ValueBatchBuilder.new 1) sample_values = Ok (pair 1%N <$> offs, b) ∧ offs !! 1 = Some off ∧
    ∀ more, ValueBatch.get_entries (ValueBatch.from_existing (ValueBatchBuilder.finish_data b)) (off :: more)
      = Panic "slice index out of range".
Proof.
  apply (value_batch_get_entries_panics 1 sample_values 1 [x62; x63] [x04]); [vm_compute; reflexivity|reflexivity|simpl; lia].
Defined.
