(* ===== verification/ValueIndex.v ===== *)
(** * The index of the value log (src/src/values/index.rs)

    For every batch of values the index keeps which of its values are in use, as
    bitmaps in pages of up to 4 KiB that are written to files of their own.  The
    bit vectors (crate [bitvec]) are a parameter.  The counters of the manifest
    that belong to the value log are here as well (src/src/manifest.rs with the
    [wisckey] feature). *)

From stdpp Require Import base list gmap strings sorting.
From Stdlib Require Import Strings.Byte NArith Lia.
From S2P Require Import Prelude Disk ValueBatch.

Local Open Scope nat_scope.
Local Open Scope lsm_scope.

(** ** Bit vectors *)

(** The operations of [bitvec::vec::BitVec<u8>] in use; [bv_iter] lists the bits. *)
Class BitVec := {
  bits : Type;
  bv_empty : bits;
  bv_iter : bits → list bool;
  bv_set : bits → nat → bool → bits;
  bv_resize : bits → nat → bool → bits;
  bv_as_raw_slice : bits → list byte;
  bv_from_slice : list byte → bits;
}.

(** What the crate documents.  The raw slice covers all bits in order; the bits
    that fill up its last byte have unspecified values. *)
Class BitVecLaws `{BitVec} : Prop := {
  bv_iter_empty : bv_iter bv_empty = [];
  bv_iter_set b i x : bv_iter (bv_set b i x) = <[i := x]> (bv_iter b);
  bv_iter_resize b n x : length (bv_iter b) <= n →
    bv_iter (bv_resize b n x) = bv_iter b ++ replicate (n - length (bv_iter b)) x;
  bv_raw_length b : length (bv_as_raw_slice b) = (length (bv_iter b) + 7) / 8;
  bv_from_length l : length (bv_iter (bv_from_slice l)) = 8 * length l;
  bv_raw_iter b : ∃ fill, bv_iter (bv_from_slice (bv_as_raw_slice b)) = bv_iter b ++ fill;
}.

(** [entries[pos]] and [entries.len()] *)
Definition bv_get `{BitVec} (b : bits) (i : nat) : option bool := bv_iter b !! i.
Definition bv_len `{BitVec} (b : bits) : nat := length (bv_iter b).

(** ** The counters in the manifest *)

(** [MIN_VALUE_BATCH_ID] and [MIN_VALUE_INDEX_PAGE_ID] *)
Definition MIN_VALUE_BATCH_ID : N := 1.
Definition MIN_VALUE_INDEX_PAGE_ID : N := 1.

Module ValueLogMetadata.

(** [struct ValueLogMetadata], a field of the mapped metadata. *)
Record ValueLogMetadata := mk {
  next_batch : N;
  minimum_batch : N;
  next_index_page : N;
  minimum_index_page : N;
}.

(** The value in [Manifest::new]. *)
Definition new : ValueLogMetadata :=
  {| next_batch := MIN_VALUE_BATCH_ID; minimum_batch := 0;
     next_index_page := MIN_VALUE_INDEX_PAGE_ID; minimum_index_page := MIN_VALUE_INDEX_PAGE_ID |}.

(** [Manifest::set_minimum_value_batch_id] *)
Definition set_minimum_value_batch_id (m : ValueLogMetadata) (offset : N) : outcome ValueLogMetadata :=
  _ ← assert_that (m.(minimum_batch) <? offset)%N "assertion failed: meta.value_log.minimum_batch < offset";
  Ok {| next_batch := m.(next_batch); minimum_batch := offset;
        next_index_page := m.(next_index_page); minimum_index_page := m.(minimum_index_page) |}.

(** [Manifest::set_minimum_value_index_page_id] *)
Definition set_minimum_value_index_page_id (m : ValueLogMetadata) (offset : N) : outcome ValueLogMetadata :=
  _ ← assert_that (m.(minimum_index_page) <? offset)%N "assertion failed: meta.value_log.minimum_index_page < offset";
  Ok {| next_batch := m.(next_batch); minimum_batch := offset;
        next_index_page := m.(next_index_page); minimum_index_page := m.(minimum_index_page) |}.

(** [Manifest::generate_next_value_index_id] *)
Definition generate_next_value_index_id (m : ValueLogMetadata) : outcome (N * ValueLogMetadata) :=
  let id := m.(next_index_page) in
  next ← u64_add id 1;
  Ok (id, {| next_batch := m.(next_batch); minimum_batch := m.(minimum_batch);
             next_index_page := next; minimum_index_page := m.(minimum_index_page) |}).

(** [Manifest::generate_next_value_batch_id] *)
Definition generate_next_value_batch_id (m : ValueLogMetadata) : outcome (N * ValueLogMetadata) :=
  let id := m.(next_batch) in
  next ← u64_add id 1;
  Ok (id, {| next_batch := next; minimum_batch := m.(minimum_batch);
             next_index_page := m.(next_index_page); minimum_index_page := m.(minimum_index_page) |}).

(** [Manifest::get_most_recent_value_index_page_id] and
    [Manifest::get_most_recent_value_batch_id] *)
Definition u64_pred (n : N) : outcome N :=
  if (n =? 0)%N then Panic "attempt to subtract with overflow" else Ok (n - 1)%N.

Definition get_most_recent_value_index_page_id (m : ValueLogMetadata) : outcome N := u64_pred m.(next_index_page).
Definition get_most_recent_value_batch_id (m : ValueLogMetadata) : outcome N := u64_pred m.(next_batch).

End ValueLogMetadata.

(** ** Pages *)

(** [enum ValueBatchState], its bytes and [TryFrom<u8>] *)
Inductive ValueBatchState := Active | Compacted | Deleted.

#[global] Instance ValueBatchState_eq_dec : EqDecision ValueBatchState.
Proof. solve_decision. Defined.

Definition state_byte (s : ValueBatchState) : byte :=
  match s with Active => x00 | Compacted => x01 | Deleted => x02 end.

Definition state_try_from (val : byte) : option ValueBatchState :=
  match val with x00 => Some Active | x01 => Some Compacted | x02 => Some Deleted | _ => None end.

(** [MAX_SIZE] in [expand] *)
Definition MAX_SIZE : nat := N.to_nat 4096.
#[global] Opaque MAX_SIZE.

Module IndexPage.

Section ops.
Context `{BitVec} `{Compression}.

(** [struct IndexPageHeader] *)
Record IndexPageHeader := mkHeader {
  identifier : N;
  start_batch : N;
  num_batches : N;
  num_entries : N;
}.

(** [struct IndexPage] *)
Record IndexPage := mk {
  header : IndexPageHeader;
  dirty : bool;
  offsets : list N;
  batches : list ValueBatchState;
  entries : bits;
  sealed : bool;
}.

(** [IndexPage::new] *)
Definition new (identifier start_batch : N) : IndexPage :=
  {| header := {| identifier := identifier; start_batch := start_batch; num_batches := 0; num_entries := 0 |};
     dirty := true; sealed := false; offsets := []; batches := []; entries := bv_empty |}.

(** [header.as_bytes()] *)
Definition header_bytes (h : IndexPageHeader) : list byte :=
  le_bytes 8 h.(identifier) ++ le_bytes 8 h.(start_batch) ++ le_bytes 8 h.(num_batches) ++ le_bytes 8 h.(num_entries).

(** [IndexPageHeader::read_from_prefix(&data).unwrap()] *)
Definition read_header (data : list byte) : outcome (IndexPageHeader * list byte) :=
  if 32 <=? length data then
    Ok ({| identifier := le_val (take 8 data); start_batch := le_val (take 8 (drop 8 data));
           num_batches := le_val (take 8 (drop 16 data)); num_entries := le_val (take 8 (drop 24 data)) |},
        drop 32 data)
  else Panic "SizeError".

(** The loop of [open] over the offsets. *)
Fixpoint read_offsets (n : nat) (data : list byte) : outcome (list N * list byte) :=
  match n with
  | O => Ok ([], data)
  | S n' =>
      entry ← read_prefix 2 data;
      '(offsets, next) ← read_offsets n' (drop 2 data);
      Ok (entry :: offsets, next)
  end.

Fixpoint read_states (data : list byte) : outcome (list ValueBatchState) :=
  match data with
  | [] => Ok []
  | s :: data' =>
      s ← expect (state_try_from s) "Invalid state";
      rest ← read_states data';
      Ok (s :: rest)
  end.

(** [IndexPage::open] *)
Definition open (d : Disk) (path : FileName) (sealed : bool) : outcome IndexPage :=
  match disk.read d path 0 with
  | Ok data =>
      '(header, data) ← read_header data;
      '(offsets, data) ← read_offsets (N.to_nat header.(num_batches)) data;
      let len := N.to_nat header.(num_batches) in
      states ← slice data 0 len;
      batches ← read_states states;
      rest ← slice_from data len;
      let entries := bv_from_slice rest in
      Ok {| header := header; offsets := offsets; entries := entries; batches := batches;
            sealed := sealed; dirty := false |}
  | Err _ => Err (Io "Failed to read value index page" "")
  | Panic msg => Panic msg
  | OutOfFuel => OutOfFuel
  end.

(** [IndexPage::expand] *)
Definition expand (p : IndexPage) (n : nat) : outcome (bool * IndexPage) :=
  _ ← assert_that (negb p.(sealed)) "assertion failed: !self.sealed";
  _ ← assert_that (n <? MAX_SIZE) "assertion failed: num_entries < MAX_SIZE";
  let current_entries := bv_len p.(entries) in
  let new_size := (length p.(offsets) + 1) * 2 + (current_entries + n) in
  if new_size <=? MAX_SIZE then
    num_batches ← u64_add p.(header).(num_batches) 1;
    Ok (true, {| header := {| identifier := p.(header).(identifier); start_batch := p.(header).(start_batch);
                              num_batches := num_batches; num_entries := p.(header).(num_entries) |};
                 offsets := p.(offsets) ++ [as_u16 current_entries];
                 batches := p.(batches) ++ [Active];
                 entries := bv_resize p.(entries) (current_entries + n) true;
                 dirty := true; sealed := p.(sealed) |})
  else
    Ok (false, {| header := p.(header); offsets := p.(offsets); batches := p.(batches);
                  entries := p.(entries); dirty := p.(dirty); sealed := true |}).

(** [IndexPage::sync]: whether the page was written, its new state and the files. *)
Definition page_bytes (p : IndexPage) : list byte :=
  header_bytes p.(header) ++ (p.(offsets) ≫= le_bytes 2) ++ (state_byte <$> p.(batches)) ++ bv_as_raw_slice p.(entries).

Definition set_dirty (p : IndexPage) (b : bool) : IndexPage :=
  {| header := p.(header); offsets := p.(offsets); batches := p.(batches);
     entries := p.(entries); dirty := b; sealed := p.(sealed) |}.

Definition sync (d : Disk) (path : FileName) (p : IndexPage) : outcome (bool * IndexPage * Disk) :=
  if negb p.(dirty) then Ok (false, p, d) else
  d ← disk.write d path (page_bytes p);
  Ok (true, set_dirty p false, d).

(** [IndexPage::is_in_use] *)
Definition is_in_use (p : IndexPage) : bool := existsb id (bv_iter p.(entries)).

(** [IndexPage::get_batch_range] *)
Definition get_batch_range (p : IndexPage) (batch_id : N) : outcome (nat * nat) :=
  _ ← assert_that (p.(header).(start_batch) <=? batch_id)%N "Incompatible batch id";
  let start_idx := N.to_nat (batch_id - p.(header).(start_batch)) in
  start_pos ← expect (p.(offsets) !! start_idx) "index out of bounds";
  let end_pos := match p.(offsets) !! (start_idx + 1) with
                 | Some offset => N.to_nat offset
                 | None => bv_len p.(entries)
                 end in
  Ok (N.to_nat start_pos, end_pos).

(** The loop of [count_active_entries] over the positions. *)
Fixpoint count_positions (b : bits) (positions : list nat) (count : nat) : outcome nat :=
  match positions with
  | [] => Ok count
  | pos :: positions' =>
      active ← expect (bv_get b pos) "index out of bounds";
      count_positions b positions' (if (active : bool) then count + 1 else count)
  end.

(** [IndexPage::count_active_entries] *)
Definition count_active_entries (p : IndexPage) (batch_id : N) : outcome nat :=
  '(start_pos, end_pos) ← get_batch_range p batch_id;
  count_positions p.(entries) (seq start_pos (end_pos - start_pos)) 0.

(** [&self.entries[start..end]] *)
Definition entry_slice (p : IndexPage) (start_pos end_pos : nat) : outcome (list bool) :=
  if (start_pos <=? end_pos) && (end_pos <=? bv_len p.(entries))
  then Ok (take (end_pos - start_pos) (drop start_pos (bv_iter p.(entries))))
  else Panic "range out of bounds".

(** [IndexPage::get_active_entries] *)
Fixpoint active_offsets (start_pos offset : nat) (slice : list bool) : list N :=
  match slice with
  | [] => []
  | active :: slice' =>
      (if (active : bool) then [as_u32 (offset + start_pos)] else []) ++ active_offsets start_pos (S offset) slice'
  end.

Definition get_active_entries (p : IndexPage) (batch_id : N) : outcome (list N) :=
  '(start_pos, end_pos) ← get_batch_range p batch_id;
  slice ← entry_slice p start_pos end_pos;
  Ok (active_offsets start_pos 0 slice).

Definition set_entries (p : IndexPage) (b : bits) : IndexPage :=
  {| header := p.(header); offsets := p.(offsets); batches := p.(batches);
     entries := b; dirty := true; sealed := p.(sealed) |}.

(** [IndexPage::mark_value_as_deleted] *)
Definition mark_value_as_deleted (p : IndexPage) (vid : ValueId) : outcome (N * IndexPage) :=
  '(start_pos, end_pos) ← get_batch_range p vid.1;
  slice ← entry_slice p start_pos end_pos;
  marker ← expect (slice !! N.to_nat vid.2) "Entry index out of range";
  if negb marker then Panic "Entry already marked as deleted" else
  let p := set_entries p (bv_set p.(entries) (start_pos + N.to_nat vid.2) false) in
  let a := as_u16 start_pos in
  let b := as_u16 (N.to_nat vid.2) in
  if (a + b <? u16_bound)%N then Ok ((a + b)%N, p) else Panic "attempt to add with overflow".

(** [IndexPage::mark_value_as_deleted_at] *)
Definition mark_value_as_deleted_at (p : IndexPage) (offset : N) : outcome IndexPage :=
  marker ← expect (bv_get p.(entries) (N.to_nat offset)) "Offset out of range";
  if (marker : bool) then Ok (set_entries p (bv_set p.(entries) (N.to_nat offset) false)) else Ok p.

Definition set_state (p : IndexPage) (i : nat) (s : ValueBatchState) : IndexPage :=
  {| header := p.(header); offsets := p.(offsets); batches := <[i := s]> p.(batches);
     entries := p.(entries); dirty := p.(dirty); sealed := p.(sealed) |}.

(** [IndexPage::mark_batch_as_deleted_at] *)
Definition mark_batch_as_deleted_at (p : IndexPage) (index : N) : outcome IndexPage :=
  marker ← expect (p.(batches) !! N.to_nat index) "Out of range?";
  match marker with
  | Deleted => Panic "Batch already deleted?"
  | _ => Ok (set_state p (N.to_nat index) Deleted)
  end.

(** [IndexPage::mark_batch_as_deleted] *)
Definition batch_pos (p : IndexPage) (batch_id : N) : outcome N :=
  if (p.(header).(start_batch) <=? batch_id)%N then Ok (batch_id - p.(header).(start_batch))%N
  else Panic "attempt to subtract with overflow".

Definition mark_batch_as_deleted (p : IndexPage) (batch_id : N) : outcome (N * IndexPage) :=
  pos ← batch_pos p batch_id;
  let idx := as_u16 (N.to_nat pos) in
  p ← mark_batch_as_deleted_at p idx;
  Ok (idx, p).

(** [IndexPage::mark_batch_as_compacted] *)
Definition mark_batch_as_compacted (p : IndexPage) (batch_id : N) : outcome (N * IndexPage) :=
  idx ← batch_pos p batch_id;
  marker ← expect (p.(batches) !! N.to_nat idx) "Out of range?";
  match marker with
  | Compacted => Panic "Batch already compacted?"
  | Deleted => Panic "Batch already deleted?"
  | Active => Ok (as_u16 (N.to_nat idx), set_state p (N.to_nat idx) Deleted)
  end.

End ops.

End IndexPage.

(** ** The index *)

Module ValueIndex.

Section ops.
Context `{BitVec} `{Compression}.

(** [struct ValueIndex], with the files and the counters that its operations
    change; [pages] holds the first batch of every page with the page. *)
Record ValueIndex := mk {
  pages : list (N * IndexPage.IndexPage);
  meta : ValueLogMetadata.ValueLogMetadata;
  files : Disk;
}.

Definition gets {A} (f : ValueIndex → A) : st ValueIndex A := λ s, Ok (f s, s).

Definition set_pages (ps : list (N * IndexPage.IndexPage)) : st ValueIndex unit := λ s,
  Ok ((), mk ps s.(meta) s.(files)).

Definition on_meta {A} (f : ValueLogMetadata.ValueLogMetadata → outcome (A * ValueLogMetadata.ValueLogMetadata))
  : st ValueIndex A := λ s,
  '(a, m) ← f s.(meta); Ok (a, mk s.(pages) m s.(files)).

Definition on_files {A} (f : Disk → outcome (A * Disk)) : st ValueIndex A := λ s,
  '(a, d) ← f s.(files); Ok (a, mk s.(pages) s.(meta) d).

(** [IndexPage::sync] of the page at [idx]. *)
Definition sync_page (idx : nat) : st ValueIndex bool :=
  pages ← gets pages;
  '(k, p) ← lift (expect (pages !! idx) "index out of bounds");
  '(updated, p) ← on_files (λ d, '(updated, p, d) ←
    IndexPage.sync d (ValueIndexFile p.(IndexPage.header).(IndexPage.identifier)) p; Ok ((updated, p), d));
  _ ← set_pages (<[idx := (k, p)]> pages);
  mret updated.

(** [ValueIndex::create_new_page] *)
Definition create_new_page (min_batch : N) : st ValueIndex unit :=
  page_id ← on_meta ValueLogMetadata.generate_next_value_index_id;
  let page := IndexPage.new page_id min_batch in
  pages ← gets pages;
  set_pages (pages ++ [(min_batch, page)]).

(** [ValueIndex::new] *)
Definition new (m : ValueLogMetadata.ValueLogMetadata) (d : Disk) : outcome ValueIndex :=
  '(_, s) ← (_ ← create_new_page MIN_VALUE_BATCH_ID; sync_page 0) (mk [] m d);
  Ok s.

(** The loop of [ValueIndex::open] over [n] page identifiers from [page_id] on. *)
Fixpoint open_pages (d : Disk) (n : nat) (page_id max_id : N) : outcome (list (N * IndexPage.IndexPage)) :=
  match n with
  | O => Ok []
  | S n' =>
      let sealed := (page_id <? max_id)%N in
      page ← IndexPage.open d (ValueIndexFile page_id) sealed;
      let min_batch := page.(IndexPage.header).(IndexPage.start_batch) in
      pages ← open_pages d n' (page_id + 1) max_id;
      Ok ((min_batch, page) :: pages)
  end.

(** [ValueIndex::open] *)
Definition open (m : ValueLogMetadata.ValueLogMetadata) (d : Disk) : outcome ValueIndex :=
  let min_id := m.(ValueLogMetadata.minimum_index_page) in
  max_id ← ValueLogMetadata.get_most_recent_value_index_page_id m;
  pages ← open_pages d (N.to_nat (max_id + 1 - min_id)) min_id max_id;
  Ok (mk pages m d).

(** The loop of [ValueIndex::sync] over [n] pages from [idx] on. *)
Fixpoint sync_pages (n idx : nat) : st ValueIndex unit :=
  match n with
  | O => mret ()
  | S n' =>
      pages ← gets pages;
      '(_, p) ← lift (expect (pages !! idx) "index out of bounds");
      _ ← (if p.(IndexPage.dirty) then
             updated ← sync_page idx;
             lift (assert_that updated "assertion failed: updated")
           else mret ());
      sync_pages n' (S idx)
  end.

(** [ValueIndex::sync] *)
Definition sync : st ValueIndex unit := pages ← gets pages; sync_pages (length pages) 0.

(** [ValueIndex::num_pages] *)
Definition num_pages : st ValueIndex nat := pages ← gets pages; mret (length pages).

(** [ValueIndex::find_page_idx] *)
Definition find_page_idx (pages : list (N * IndexPage.IndexPage)) (batch_id : N) : option nat :=
  match binary_search_by (λ kp, (kp.1 ?= batch_id)%N) pages with
  | Found i => Some i
  | Missing 0 => None
  | Missing i => Some (i - 1)
  end.

(** [ValueIndex::find_page_for_batch] *)
Definition find_page_for_batch (pages : list (N * IndexPage.IndexPage)) (batch_id : N)
  : outcome (option IndexPage.IndexPage) :=
  match find_page_idx pages batch_id with
  | Some idx => '(_, p) ← expect (pages !! idx) "index out of bounds"; Ok (Some p)
  | None => Ok None
  end.

(** [ValueIndex::count_active_entries] *)
Definition count_active_entries (batch_id : N) : st ValueIndex nat :=
  pages ← gets pages;
  p ← lift (find_page_for_batch pages batch_id);
  match p with
  | Some p => lift (IndexPage.count_active_entries p batch_id)
  | None => mret 0
  end.

(** [ValueIndex::get_active_entries] *)
Definition get_active_entries (batch_id : N) : st ValueIndex (list N) :=
  pages ← gets pages;
  p ← lift (find_page_for_batch pages batch_id);
  match p with
  | Some p => lift (IndexPage.get_active_entries p batch_id)
  | None => mret []
  end.

(** [pages.back_mut()] and [expand]: whether there is a last page with room. *)
Definition expand_last (num_entries : nat) : st ValueIndex bool :=
  pages ← gets pages;
  match last pages with
  | Some (k, p) =>
      '(success, p) ← lift (IndexPage.expand p num_entries);
      _ ← set_pages (<[length pages - 1 := (k, p)]> pages);
      mret success
  | None => mret false
  end.

(** [ValueIndex::add_batch] *)
Definition add_batch (batch_id : N) (num_entries : nat) : st ValueIndex unit :=
  success ← expand_last num_entries;
  _ ← (if (success : bool) then mret () else
         _ ← create_new_page batch_id;
         success ← expand_last num_entries;
         lift (assert_that success "Data did not fit in new page?"));
  pages ← gets pages;
  _ ← sync_page (length pages - 1);
  mret ().

(** The page that may have the batch, changed by [f]; its identifier and what [f]
    returns. *)
Definition on_batch_page {A} (batch_id : N) (f : IndexPage.IndexPage → outcome (A * IndexPage.IndexPage))
  : st ValueIndex (N * A) :=
  pages ← gets pages;
  page_idx ← lift (expect (find_page_idx pages batch_id) "Outdated batch?");
  '(k, page) ← lift (expect (pages !! page_idx) "index out of bounds");
  '(offset, page) ← lift (f page);
  _ ← set_pages (<[page_idx := (k, page)]> pages);
  mret (page.(IndexPage.header).(IndexPage.identifier), offset).

(** [ValueIndex::mark_batch_as_deleted] and [ValueIndex::mark_batch_as_compacted] *)
Definition mark_batch_as_deleted (batch_id : N) : st ValueIndex (N * N) :=
  on_batch_page batch_id (λ page, IndexPage.mark_batch_as_deleted page batch_id).

Definition mark_batch_as_compacted (batch_id : N) : st ValueIndex (N * N) :=
  on_batch_page batch_id (λ page, IndexPage.mark_batch_as_compacted page batch_id).

(** The position of the page with an identifier. *)
Definition page_at (pages : list (N * IndexPage.IndexPage)) (page_id : N) : outcome nat :=
  match binary_search_by (λ kp, (kp.2.(IndexPage.header).(IndexPage.identifier) ?= page_id)%N) pages with
  | Found idx => Ok idx
  | Missing _ => Panic "No page with id"
  end.

(** [ValueIndex::mark_batch_as_deleted_at] and [ValueIndex::mark_value_as_deleted_at] *)
Definition mark_batch_as_deleted_at (page_id index : N) : st ValueIndex unit :=
  pages ← gets pages;
  idx ← lift (page_at pages page_id);
  '(k, page) ← lift (expect (pages !! idx) "index out of bounds");
  page ← lift (IndexPage.mark_batch_as_deleted_at page index);
  set_pages (<[idx := (k, page)]> pages).

Definition mark_value_as_deleted_at (page_id offset : N) : st ValueIndex unit :=
  pages ← gets pages;
  idx ← lift (page_at pages page_id);
  '(k, page) ← lift (expect (pages !! idx) "index out of bounds");
  page ← lift (IndexPage.mark_value_as_deleted_at page offset);
  set_pages (<[idx := (k, page)]> pages).

(** [disk::remove_file] of a page. *)
Definition remove_page_file (id : N) : st ValueIndex unit :=
  on_files (λ d, match disk.remove_file d (ValueIndexFile id) with
                 | Ok d => Ok ((), d)
                 | Err _ => Err (Io "Failed to remove value index page" "")
                 | Panic msg => Panic msg
                 | OutOfFuel => OutOfFuel
                 end).

(** The loop of [mark_value_as_deleted] that removes pages from the front. *)
Fixpoint remove_pages (ps : list (N * IndexPage.IndexPage)) : st ValueIndex unit :=
  match ps with
  | [] => lift (Panic "called `Option::unwrap()` on a `None` value")
  | (_, page) :: ps' =>
      let id := page.(IndexPage.header).(IndexPage.identifier) in
      if negb page.(IndexPage.sealed) || IndexPage.is_in_use page then
        on_meta (λ m, m ← ValueLogMetadata.set_minimum_value_index_page_id m id; Ok ((), m))
      else
        _ ← remove_page_file id;
        _ ← set_pages ps';
        remove_pages ps'
  end.

(** [ValueIndex::mark_value_as_deleted] *)
Definition mark_value_as_deleted (vid : ValueId) : st ValueIndex (N * N) :=
  pages ← gets pages;
  page_idx ← lift (expect (find_page_idx pages vid.1) "Outdated batch?");
  '(k, page) ← lift (expect (pages !! page_idx) "index out of bounds");
  '(offset, page) ← lift (IndexPage.mark_value_as_deleted page vid);
  let page_id := page.(IndexPage.header).(IndexPage.identifier) in
  let pages := <[page_idx := (k, page)]> pages in
  _ ← set_pages pages;
  _ ← (if (page_idx =? 0) && negb (IndexPage.is_in_use page) && page.(IndexPage.sealed)
       then remove_pages pages else mret ());
  mret (page_id, offset).

End ops.

End ValueIndex.

(** ** What a page holds *)

(** Where the batches of a page start in its bitmap. *)
Fixpoint starts (pos : nat) (bs : list (list bool)) : list nat :=
  match bs with
  | [] => []
  | b :: bs' => pos :: starts (pos + length b) bs'
  end.

Definition active_count (b : list bool) : nat := length (filter (λ x, x = true) b).

(** The number of bits in the bytes that cover [n] bits. *)
Definition round8 (n : nat) : nat := 8 * ((n + 7) / 8).

Lemma round8_bounds n : n <= round8 n <= n + 7.
Proof.
  unfold round8. pose proof (Nat.div_mod_eq (n + 7) 8). pose proof (Nat.mod_upper_bound (n + 7) 8). lia.
Qed.

Lemma round8_idem n : round8 (round8 n) = round8 n.
Proof.
  unfold round8 at 1. replace (round8 n + 7) with (7 + (n + 7) / 8 * 8) by (unfold round8; lia).
  rewrite Nat.div_add by lia. unfold round8. simpl. lia.
Qed.

Section page.
Context `{BitVecLaws}.

Abbreviation IndexPage := IndexPage.IndexPage.

(** The page holds the batches [bs], one flag per value. *)
Record page_holds (p : IndexPage) (bs : list (list bool)) : Prop := {
  ph_entries : bv_iter p.(IndexPage.entries) = concat bs;
  ph_offsets : p.(IndexPage.offsets) = N.of_nat <$> starts 0 bs;
  ph_batches : length p.(IndexPage.batches) = length bs;
  ph_num : p.(IndexPage.header).(IndexPage.num_batches) = N.of_nat (length bs);
  ph_size : 2 * length bs + round8 (length (concat bs)) <= MAX_SIZE + 7;
}.

Lemma ph_bits p bs : page_holds p bs → 2 * length bs + length (concat bs) <= MAX_SIZE + 7.
Proof. intros Hp. pose proof (ph_size _ _ Hp). pose proof (round8_bounds (length (concat bs))). lia. Qed.

Lemma max_size : MAX_SIZE = N.to_nat 4096.
Proof. Transparent MAX_SIZE. reflexivity. Opaque MAX_SIZE. Qed.

Lemma length_starts pos bs : length (starts pos bs) = length bs.
Proof. revert pos. induction bs as [|b bs IH]; intros pos; simpl; [done|]. by rewrite IH. Qed.

Lemma starts_lookup pos bs i :
  i < length bs → starts pos bs !! i = Some (pos + length (concat (take i bs))).
Proof.
  revert pos i. induction bs as [|b bs IH]; intros pos [|i] Hi; simpl in *; [lia|lia|by rewrite Nat.add_0_r|].
  rewrite IH by lia. f_equal. rewrite length_app. lia.
Qed.

Lemma starts_app pos bs b : starts pos (bs ++ [b]) = starts pos bs ++ [pos + length (concat bs)].
Proof.
  revert pos. induction bs as [|b' bs IH]; intros pos; simpl; [by rewrite Nat.add_0_r|].
  rewrite IH. do 3 f_equal. rewrite length_app. lia.
Qed.

Lemma starts_same pos bs bs' : length <$> bs = length <$> bs' → starts pos bs = starts pos bs'.
Proof.
  revert pos bs'. induction bs as [|b bs IH]; intros pos [|b' bs'] Hl; [done|done|done|].
  injection Hl as Hb Hl. simpl. rewrite Hb. f_equal. by apply IH.
Qed.

(** The flags of one batch in the bitmap. *)
Lemma concat_lookup bs i (b : list bool) :
  bs !! i = Some b →
  concat bs = concat (take i bs) ++ b ++ concat (drop (S i) bs).
Proof.
  intros Hi. rewrite <-(take_drop_middle bs i b Hi) at 1. by rewrite concat_app.
Qed.

Lemma batch_range p bs i b :
  page_holds p bs → bs !! i = Some b →
  IndexPage.get_batch_range p (p.(IndexPage.header).(IndexPage.start_batch) + N.of_nat i)
    = Ok (length (concat (take i bs)), length (concat (take i bs)) + length b).
Proof.
  intros [P1 P2 P3 P4 P5] Hi. pose proof (lookup_lt_Some _ _ _ Hi) as Hlt. unfold IndexPage.get_batch_range.
  rewrite assert_Ok by bool_true. run_bind.
  replace (N.to_nat (p.(IndexPage.header).(IndexPage.start_batch) + N.of_nat i - p.(IndexPage.header).(IndexPage.start_batch)))
    with i by lia.
  rewrite P2, !list_lookup_fmap, (starts_lookup 0 bs i Hlt). cbn [fmap option_fmap option_map expect]. run_bind.
  rewrite Nat2N.id, Nat.add_0_l. do 2 f_equal.
  destruct (decide (i + 1 < length bs)) as [Hn|Hn].
  - rewrite starts_lookup by done. cbn [fmap option_fmap option_map]. rewrite Nat2N.id, Nat.add_0_l, Nat.add_1_r.
    rewrite (take_S_r _ _ _ Hi), concat_app, length_app. simpl. rewrite app_nil_r. done.
  - rewrite lookup_ge_None_2 by (rewrite length_starts; lia). cbn [fmap option_fmap option_map].
    unfold bv_len. rewrite P1, (concat_lookup bs i b Hi), !length_app, drop_ge by lia. simpl. lia.
Qed.

Lemma batch_range_behind p bs i :
  page_holds p bs → length bs <= i →
  IndexPage.get_batch_range p (p.(IndexPage.header).(IndexPage.start_batch) + N.of_nat i) = Panic "index out of bounds".
Proof.
  intros [P1 P2 P3 P4 P5] Hi. unfold IndexPage.get_batch_range. rewrite assert_Ok by bool_true. run_bind.
  replace (N.to_nat (p.(IndexPage.header).(IndexPage.start_batch) + N.of_nat i - p.(IndexPage.header).(IndexPage.start_batch)))
    with i by lia.
  rewrite P2, !list_lookup_fmap, (lookup_ge_None_2 (starts 0 bs) i) by (rewrite length_starts; lia). done.
Qed.

Lemma count_positions_ok (b : bits) pre fl post c :
  bv_iter b = pre ++ fl ++ post →
  IndexPage.count_positions b (seq (length pre) (length fl)) c = Ok (c + active_count fl).
Proof.
  revert pre c. induction fl as [|x fl IH]; intros pre c Hb; [simpl; unfold active_count; simpl; f_equal; lia|].
  cbn [length seq IndexPage.count_positions]. unfold bv_get. rewrite Hb.
  rewrite lookup_app_r, Nat.sub_diag by lia. cbn [lookup list_lookup app expect]. run_bind.
  replace (S (length pre)) with (length (pre ++ [x])) by (rewrite length_app; simpl; lia).
  rewrite IH by (by rewrite Hb, <-(assoc_L (++))). unfold active_count. f_equal.
  rewrite filter_cons. destruct x; [rewrite decide_True by done|rewrite decide_False by done]; simpl; lia.
Qed.

Lemma page_count p bs i b :
  page_holds p bs → bs !! i = Some b →
  IndexPage.count_active_entries p (p.(IndexPage.header).(IndexPage.start_batch) + N.of_nat i) = Ok (active_count b).
Proof.
  intros Hp Hi. unfold IndexPage.count_active_entries. rewrite (batch_range p bs i b Hp Hi). run_bind.
  replace (length (concat (take i bs)) + length b - length (concat (take i bs))) with (length b) by lia.
  rewrite (count_positions_ok _ _ _ (concat (drop (S i) bs))); [done|]. rewrite (ph_entries _ _ Hp). by apply concat_lookup.
Qed.

(** Adding a batch to a page. *)
Lemma page_expand p bs n :
  page_holds p bs → p.(IndexPage.sealed) = false → n < MAX_SIZE →
  ∃ ok p', IndexPage.expand p n = Ok (ok, p') ∧
    p'.(IndexPage.header).(IndexPage.identifier) = p.(IndexPage.header).(IndexPage.identifier) ∧
    p'.(IndexPage.header).(IndexPage.start_batch) = p.(IndexPage.header).(IndexPage.start_batch) ∧
    ok = bool_decide (2 * (length bs + 1) + (length (concat bs) + n) <= MAX_SIZE) ∧
    if ok : bool then page_holds p' (bs ++ [replicate n true]) ∧ p'.(IndexPage.sealed) = false ∧ p'.(IndexPage.dirty) = true
    else page_holds p' bs ∧ p'.(IndexPage.sealed) = true.
Proof.
  intros Hp Hs Hn. pose proof (ph_bits _ _ Hp) as Hbits. destruct Hp as [P1 P2 P3 P4 P5]. unfold IndexPage.expand. rewrite Hs. rewrite assert_Ok by done. run_bind.
  rewrite assert_Ok by bool_true. run_bind. unfold bv_len. rewrite P1, P2, length_fmap, length_starts.
  pose proof max_size as Hmax.
  destruct (decide (2 * (length bs + 1) + (length (concat bs) + n) <= MAX_SIZE)) as [Hf|Hf].
  - rewrite (proj2 (Nat.leb_le _ _)) by lia. rewrite P4. unfold u64_add.
    rewrite (proj2 (N.ltb_lt _ _)) by (unfold u64_bound; lia). run_bind.
    eexists true, _. split; [done|]. simpl. split; [done|]. split; [done|]. rewrite bool_decide_true by lia. split; [done|]. split; [|done].
    split; simpl.
    + rewrite bv_iter_resize by (rewrite P1; lia). rewrite P1, concat_app. simpl. rewrite app_nil_r. do 2 f_equal. lia.
    + rewrite starts_app, fmap_app. simpl. do 2 f_equal. unfold as_u16. apply N.mod_small. unfold u16_bound. lia.
    + rewrite !length_app. simpl. lia.
    + rewrite length_app. simpl. lia.
    + rewrite concat_app, !length_app. simpl. rewrite app_nil_r, length_replicate.
      pose proof (round8_bounds (length (concat bs) + n)). lia.
  - rewrite (proj2 (Nat.leb_gt _ _)) by lia. eexists false, _. split; [done|]. simpl. split; [done|]. split; [done|].
    rewrite bool_decide_false by lia. split; [done|]. split; [|done]. by split.
Qed.

Lemma entry_slice_ok p bs i b :
  page_holds p bs → bs !! i = Some b →
  IndexPage.entry_slice p (length (concat (take i bs))) (length (concat (take i bs)) + length b) = Ok b.
Proof.
  intros Hp Hi. unfold IndexPage.entry_slice, bv_len. rewrite (ph_entries _ _ Hp), (concat_lookup bs i b Hi).
  rewrite (proj2 (Nat.leb_le _ _)) by lia. rewrite (proj2 (Nat.leb_le _ _)) by (rewrite !length_app; lia). simpl.
  rewrite drop_app_length. f_equal. rewrite take_app_length'; [done|lia].
Qed.

(** Deleting a value: it must exist and be in use. *)
Lemma page_mark p bs i b j :
  page_holds p bs → bs !! i = Some b →
  let vid := ((p.(IndexPage.header).(IndexPage.start_batch) + N.of_nat i)%N, j) in
  match b !! N.to_nat j with
  | None => IndexPage.mark_value_as_deleted p vid = Panic "Entry index out of range"
  | Some false => IndexPage.mark_value_as_deleted p vid = Panic "Entry already marked as deleted"
  | Some true => ∃ off p', IndexPage.mark_value_as_deleted p vid = Ok (off, p') ∧
      off = N.of_nat (length (concat (take i bs)) + N.to_nat j) ∧ (off < u16_bound)%N ∧
      p'.(IndexPage.header) = p.(IndexPage.header) ∧ p'.(IndexPage.sealed) = p.(IndexPage.sealed) ∧
      page_holds p' (<[i := <[N.to_nat j := false]> b]> bs)
  end.
Proof.
  intros Hp Hi. simpl. unfold IndexPage.mark_value_as_deleted. cbn [fst snd].
  rewrite (batch_range p bs i b Hp Hi). run_bind. rewrite (entry_slice_ok p bs i b Hp Hi). run_bind.
  destruct (b !! N.to_nat j) as [[]|] eqn:Ej; [|done|done]. cbn [expect]. run_bind. cbn [negb].
  pose proof (lookup_lt_Some _ _ _ Ej) as Hj. pose proof (lookup_lt_Some _ _ _ Hi) as Hlt.
  pose proof (concat_lookup bs i b Hi) as Hc. pose proof (ph_bits _ _ Hp) as Hbits. destruct Hp as [P1 P2 P3 P4 P5]. pose proof max_size as Hmax.
  assert (length (concat (take i bs)) + N.to_nat j <= length (concat bs)) as Hle by (rewrite Hc, !length_app; lia).
  unfold as_u16. rewrite !N.mod_small by (unfold u16_bound; lia).
  rewrite (proj2 (N.ltb_lt _ _)) by (unfold u16_bound; lia).
  eexists _, _. split; [done|]. split; [lia|]. split; [unfold u16_bound; lia|]. split; [done|]. split; [done|].
  assert (length <$> <[i := <[N.to_nat j := false]> b]> bs = length <$> bs) as Hlen.
  { rewrite list_fmap_insert, length_insert. apply list_insert_id. by rewrite list_lookup_fmap, Hi. }
  assert (concat (<[i := <[N.to_nat j := false]> b]> bs)
    = concat (take i bs) ++ <[N.to_nat j := false]> b ++ concat (drop (S i) bs)) as Hc'.
  { rewrite (concat_lookup _ i (<[N.to_nat j := false]> b)) by (by rewrite list_lookup_insert_eq).
    by rewrite take_insert_ge, drop_insert_lt by lia. }
  split; cbn [IndexPage.set_entries IndexPage.entries IndexPage.offsets IndexPage.batches IndexPage.header].
  - rewrite bv_iter_set, P1, Hc, Hc'. rewrite insert_app_r_alt by lia. f_equal.
    replace (length (concat (take i bs)) + N.to_nat j - length (concat (take i bs))) with (N.to_nat j) by lia.
    by rewrite insert_app_l.
  - rewrite P2. f_equal. by apply starts_same.
  - by rewrite length_insert.
  - by rewrite length_insert.
  - rewrite length_insert, Hc', !length_app, length_insert. by rewrite Hc, !length_app in P5.
Qed.

(** The flag of a value by its position in the page. *)
Lemma page_flag p bs i b j :
  page_holds p bs → bs !! i = Some b → N.to_nat j < length b →
  bv_get p.(IndexPage.entries) (length (concat (take i bs)) + N.to_nat j) = b !! N.to_nat j.
Proof.
  intros Hp Hi Hj. unfold bv_get. rewrite (ph_entries _ _ Hp), (concat_lookup bs i b Hi).
  by rewrite lookup_app_r, Nat.add_comm, Nat.add_sub, lookup_app_l by lia.
Qed.

Lemma page_mark_at p bs i b j off p' :
  page_holds p bs → bs !! i = Some b → b !! N.to_nat j = Some true →
  off = N.of_nat (length (concat (take i bs)) + N.to_nat j) →
  IndexPage.mark_value_as_deleted p ((p.(IndexPage.header).(IndexPage.start_batch) + N.of_nat i)%N, j) = Ok (off, p') →
  IndexPage.mark_value_as_deleted_at p off = Ok p'.
Proof.
  intros Hp Hi Hj -> E. unfold IndexPage.mark_value_as_deleted in E. cbn [fst snd] in E.
  rewrite (batch_range p bs i b Hp Hi) in E. revert E. run_bind. rewrite (entry_slice_ok p bs i b Hp Hi). run_bind. rewrite Hj.
  cbn [expect]. run_bind. cbn [negb]. intros E. destruct (_ <? u16_bound)%N in E; [|done]. injection E as _ <-.
  unfold IndexPage.mark_value_as_deleted_at. rewrite Nat2N.id, (page_flag p bs i b j Hp Hi) by (by eapply lookup_lt_Some).
  rewrite Hj. done.
Qed.

Lemma in_use_false p bs :
  page_holds p bs → IndexPage.is_in_use p = false → Forall (Forall (λ x, x = false)) bs.
Proof.
  intros Hp. unfold IndexPage.is_in_use. rewrite (ph_entries _ _ Hp). intros Hu. apply Forall_concat.
  apply Forall_forall. intros x Hx. destruct x; [|done].
  assert (existsb id (concat bs) = true) as Ht; [|congruence].
  apply existsb_exists. exists true. split; [|done]. by apply list_elem_of_In.
Qed.

End page.

(** ** Writing and opening a page *)

Section roundtrip.
Context `{BitVecLaws} `{CompressionLaws}.

Definition header_wf (h : IndexPage.IndexPageHeader) : Prop :=
  (h.(IndexPage.identifier) < u64_bound)%N ∧ (h.(IndexPage.start_batch) < u64_bound)%N ∧
  (h.(IndexPage.num_batches) < u64_bound)%N ∧ (h.(IndexPage.num_entries) < u64_bound)%N.

Lemma read_header_ok h rest :
  header_wf h → IndexPage.read_header (IndexPage.header_bytes h ++ rest) = Ok (h, rest).
Proof.
  intros (Hi & Hs & Hb & He). unfold IndexPage.read_header. destruct h as [i s b e]; simpl in *.
  unfold IndexPage.header_bytes. cbn [IndexPage.identifier IndexPage.start_batch IndexPage.num_batches IndexPage.num_entries].
  transitivity (Ok (IndexPage.mkHeader (le_val (le_bytes 8 i)) (le_val (le_bytes 8 s)) (le_val (le_bytes 8 b))
    (le_val (le_bytes 8 e)), rest)); [reflexivity|]. by rewrite !le_roundtrip_u64.
Qed.

Lemma read_offsets_ok os rest :
  Forall (λ o, (o < u16_bound)%N) os → IndexPage.read_offsets (length os) ((os ≫= le_bytes 2) ++ rest) = Ok (os, rest).
Proof.
  induction 1 as [|o os Ho _ IH]; [done|]. cbn [length IndexPage.read_offsets]. rewrite bind_cons, <-(assoc_L (++)).
  rewrite read_prefix_app by len. run_bind. rewrite drop_app_length' by len. rewrite IH. run_bind.
  by rewrite le_roundtrip_u16.
Qed.

Lemma read_states_ok ss : IndexPage.read_states (state_byte <$> ss) = Ok ss.
Proof. induction ss as [|s ss IH]; [done|]. rewrite fmap_cons. cbn [IndexPage.read_states]. rewrite IH. by destruct s. Qed.

Lemma length_offsets os : length (os ≫= le_bytes 2) = 2 * length os.
Proof. induction os as [|o os IH]; [done|]. rewrite bind_cons, length_app, length_le_bytes, IH. simpl. lia. Qed.

Lemma starts_bound pos bs : Forall (λ o, o <= pos + length (concat bs)) (starts pos bs).
Proof.
  revert pos. induction bs as [|b bs IH]; intros pos; simpl; constructor; [lia|].
  eapply Forall_impl; [apply IH|]. simpl. intros o. rewrite length_app. lia.
Qed.

(** The bits that fill up the last byte are taken for values of the last batch. *)
Definition filled (bs : list (list bool)) (fill : list bool) : list (list bool) :=
  alter (λ b, b ++ fill) (length bs - 1) bs.

Lemma filled_last bs b fill : filled (bs ++ [b]) fill = bs ++ [b ++ fill].
Proof.
  unfold filled. rewrite length_app. cbn [length]. replace (length bs + 1 - 1) with (length bs + 0) by lia.
  by rewrite alter_app_r.
Qed.

Lemma starts_filled bs fill : starts 0 (filled bs fill) = starts 0 bs.
Proof. destruct bs as [|b bs' _] using rev_ind; [done|]. by rewrite filled_last, !starts_app. Qed.

Lemma filled_prefix bs fill : Forall2 prefix bs (filled bs fill).
Proof.
  destruct bs as [|b bs' _] using rev_ind; [constructor|]. rewrite filled_last. apply Forall2_app.
  - apply Forall_Forall2_diag, Forall_forall. done.
  - constructor; [by apply prefix_app_r|constructor].
Qed.

Lemma page_bytes_small p bs :
  page_holds p bs → (N.of_nat (length (IndexPage.page_bytes p)) < u32_bound)%N.
Proof.
  intros Hp. pose proof (ph_size _ _ Hp) as Hs. destruct Hp as [P1 P2 P3 P4 _]. pose proof max_size as Hmax.
  unfold IndexPage.page_bytes, IndexPage.header_bytes.
  rewrite !length_app, !length_le_bytes, length_offsets, length_fmap, bv_raw_length, P1, P2, length_fmap, length_starts, P3.
  unfold round8 in Hs. unfold u32_bound. lia.
Qed.

Lemma filled_holds (p q : IndexPage.IndexPage) bs fill :
  page_holds p bs → q.(IndexPage.header) = p.(IndexPage.header) → q.(IndexPage.offsets) = p.(IndexPage.offsets) →
  q.(IndexPage.batches) = p.(IndexPage.batches) → bv_iter q.(IndexPage.entries) = concat bs ++ fill →
  length (concat bs ++ fill) = round8 (length (concat bs)) → page_holds q (filled bs fill).
Proof.
  intros [P1 P2 P3 P4 P5] Q1 Q2 Q3 Q4 Q5.
  assert (concat (filled bs fill) = concat bs ++ fill ∧ starts 0 (filled bs fill) = starts 0 bs) as [Hc Hs].
  { destruct bs as [|b bs' _] using rev_ind.
    - destruct fill; [done|]. simpl in Q5. done.
    - rewrite filled_last, !concat_app, !starts_app. simpl. by rewrite !app_nil_r, <-(assoc_L (++)). }
  assert (length (filled bs fill) = length bs) as Hl by apply length_alter.
  split; rewrite ?Q1, ?Q2, ?Q3, ?Hc, ?Hs, ?Hl; try done. by rewrite Q5, round8_idem.
Qed.

Lemma page_reopen p bs d path sealed :
  page_holds p bs → header_wf p.(IndexPage.header) → disk.read d path 0 = Ok (IndexPage.page_bytes p) →
  ∃ q fill, IndexPage.open d path sealed = Ok q ∧ q.(IndexPage.header) = p.(IndexPage.header) ∧
    q.(IndexPage.batches) = p.(IndexPage.batches) ∧ q.(IndexPage.sealed) = sealed ∧
    page_holds q (filled bs fill) ∧ length fill < 8.
Proof.
  intros Hp Hh Hr. pose proof Hp as [P1 P2 P3 P4 P5]. pose proof (ph_bits _ _ Hp) as Hbits. pose proof max_size as Hmax.
  destruct (bv_raw_iter p.(IndexPage.entries)) as [fill Hfill].
  assert (length (concat bs ++ fill) = round8 (length (concat bs))) as Hfl.
  { pose proof (bv_from_length (bv_as_raw_slice p.(IndexPage.entries))) as Hl. by rewrite bv_raw_length, Hfill, P1 in Hl. }
  assert (N.to_nat p.(IndexPage.header).(IndexPage.num_batches) = length p.(IndexPage.offsets)) as Hno
    by (rewrite P4, P2, length_fmap, length_starts; lia).
  unfold IndexPage.open. rewrite Hr. unfold IndexPage.page_bytes. rewrite read_header_ok by done. run_bind.
  rewrite Hno, read_offsets_ok.
  2:{ rewrite P2. apply Forall_fmap. eapply Forall_impl; [apply starts_bound|]. simpl. intros o Ho. unfold u16_bound. lia. }
  run_bind. assert (length p.(IndexPage.offsets) = length (state_byte <$> p.(IndexPage.batches))) as Hob
    by (rewrite P2, !length_fmap, length_starts; done).
  assert (∀ rest, slice ((state_byte <$> p.(IndexPage.batches)) ++ rest) 0 (length p.(IndexPage.offsets))
    = Ok (state_byte <$> p.(IndexPage.batches))) as Hsl by (intros rest; apply (slice_app_mid []); simpl; lia).
  rewrite Hsl. run_bind.
  rewrite read_states_ok. run_bind. rewrite slice_from_app by done. run_bind.
  eexists _, fill. split; [done|]. split; [done|]. split; [done|]. split; [done|]. split.
  - eapply filled_holds; [exact Hp|done..| |done]. simpl. by rewrite Hfill, P1.
  - pose proof (round8_bounds (length (concat bs))). rewrite length_app in Hfl. lia.
Qed.

End roundtrip.
