(* ===== verification/ValueIndexInv.v ===== *)
(** * The value index as a table of batches (src/src/values/index.rs)

    The pages of the index stand for a list of batches with consecutive
    identifiers, each a list of flags.  Every operation keeps this, adds a batch
    or clears a flag, or panics as stated; pages at the front that are not in use
    are dropped.  An index that never dropped a page is opened again from its files
    with the same batches; afterwards it cannot be opened. *)

From stdpp Require Import base list gmap strings sorting.
From Stdlib Require Import Strings.Byte NArith Lia.
From S2P Require Import Prelude Disk ValueBatch ValueIndex.

Local Open Scope nat_scope.
Local Open Scope lsm_scope.

Section index.
Context `{BitVecLaws} `{CompressionLaws}.

Abbreviation IndexPage := IndexPage.IndexPage.
Abbreviation ValueIndex := ValueIndex.ValueIndex.
Abbreviation page_id p := p.(IndexPage.header).(IndexPage.identifier).
Abbreviation start p := p.(IndexPage.header).(IndexPage.start_batch).

(** The pages hold the batches [B], the first of which has the identifier [first];
    all pages but the last are sealed and not empty. *)
Inductive pages_hold : N → list (N * IndexPage) → list (list bool) → Prop :=
| hold_last k p bs :
    page_holds p bs → start p = k → p.(IndexPage.sealed) = false → pages_hold k [(k, p)] bs
| hold_more k p bs ps B :
    page_holds p bs → start p = k → p.(IndexPage.sealed) = true → bs ≠ [] →
    pages_hold (k + N.of_nat (length bs)) ps B → pages_hold k ((k, p) :: ps) (bs ++ B).

(** One page among the others. *)
Lemma pages_split first ps B idx k p :
  pages_hold first ps B → ps !! idx = Some (k, p) →
  ∃ pre bs post, B = pre ++ bs ++ post ∧ k = (first + N.of_nat (length pre))%N ∧ page_holds p bs ∧ start p = k ∧
    (idx = 0 → pre = []) ∧
    match ps !! S idx with
    | Some (k', _) => k' = (k + N.of_nat (length bs))%N ∧ bs ≠ []
    | None => post = []
    end ∧
    ∀ p' bs', page_holds p' bs' → start p' = k → p'.(IndexPage.sealed) = p.(IndexPage.sealed) → length bs' = length bs →
      pages_hold first (<[idx := (k, p')]> ps) (pre ++ bs' ++ post).
Proof.
  intros Hp. revert idx. induction Hp as [k0 p0 bs Hb Hk Hs|k0 p0 bs ps B Hb Hk Hs Hne Hp IH]; intros idx Hi.
  - destruct idx as [|idx]; [|done]. simpl in Hi. injection Hi as <- <-. exists [], bs, [].
    rewrite app_nil_r. split_and!; try done; [simpl; lia|]. intros p' bs' Hb' Hk' Hs' _. simpl. rewrite app_nil_r.
    apply hold_last; [done|done|congruence].
  - destruct idx as [|idx]; simpl in Hi.
    + injection Hi as <- <-. exists [], bs, B. split_and!; try done; [simpl; lia| |].
      * simpl. destruct ps as [|[k' p'] ps]; [inversion Hp|]. split; [|done]. by inversion Hp.
      * intros p' bs' Hb' Hk' Hs' Hl'. simpl. apply hold_more; [done|done|congruence| |by rewrite Hl'].
        intros ->. by destruct bs.
    + destruct (IH idx Hi) as (pre & bs1 & post & -> & -> & Hb1 & Hk1 & Hz & Hn & Hup). exists (bs ++ pre), bs1, post.
      split; [by rewrite <-(assoc_L (++))|]. split; [rewrite length_app; lia|]. split_and!; try done.
      intros p' bs' Hb' Hk' Hs' Hl'. rewrite <-(assoc_L (++)). simpl. apply hold_more; try done. by apply Hup.
Qed.

Lemma pages_first first ps B : pages_hold first ps B → ∃ p ps', ps = (first, p) :: ps'.
Proof. intros []; by eexists _, _. Qed.

(** The first batches of the pages increase. *)
Lemma pages_increase first ps B i j ki kj pi pj :
  pages_hold first ps B → i < j → ps !! i = Some (ki, pi) → ps !! j = Some (kj, pj) → (ki < kj)%N.
Proof.
  intros Hp Hij Hi Hj. revert kj pj Hj. induction Hij as [|j Hij IH]; intros kj pj Hj.
  - destruct (pages_split first ps B i ki pi Hp Hi) as (pre & bs & post & _ & _ & _ & _ & _ & Hn & _). rewrite Hj in Hn.
    destruct Hn as [-> Hne]. destruct bs; [done|]. simpl. lia.
  - destruct (lookup_lt_is_Some_2 ps j) as [[k p] Hk]; [apply lookup_lt_Some in Hj; lia|].
    specialize (IH k p Hk). destruct (pages_split first ps B j k p Hp Hk) as (pre & bs & post & _ & _ & _ & _ & _ & Hn & _).
    rewrite Hj in Hn. destruct Hn as [-> Hne]. lia.
Qed.

Lemma pages_sorted first ps B id :
  pages_hold first ps B → search_sorted (λ kp : N * IndexPage, (kp.1 ?= id)%N) ps.
Proof.
  intros Hp i j [ki pi] [kj pj] Hij Hi Hj. simpl.
  assert (ki <= kj)%N as Hle.
  { destruct (decide (i = j)) as [->|Hne]; [rewrite Hi in Hj; injection Hj as -> _; lia|].
    apply N.lt_le_incl. eapply (pages_increase first ps B i j); [done|lia|done|done]. }
  rewrite !N.compare_lt_iff, !N.compare_gt_iff. lia.
Qed.

(** The search finds the last page that does not start after the batch. *)
Lemma search_page first ps B id :
  pages_hold first ps B → (first <= id)%N →
  ∃ idx k p, ValueIndex.find_page_idx ps id = Some idx ∧ ps !! idx = Some (k, p) ∧ (k <= id)%N ∧
    match ps !! S idx with Some (k', _) => (id < k')%N | None => True end.
Proof.
  intros Hp Hid. pose proof (binary_search_by_spec _ ps (pages_sorted first ps B id Hp)) as Hs.
  unfold ValueIndex.find_page_idx. destruct (binary_search_by _ ps) as [i|i].
  - destruct Hs as ([k p] & Hi & Hc). apply N.compare_eq_iff in Hc. simpl in Hc. subst k. exists i, id, p. split_and!; try done.
    destruct (ps !! S i) as [[k' p']|] eqn:Ei; [|done]. eapply (pages_increase first ps B i (S i)); [done|lia|done|done].
  - destruct Hs as (Hl & Hlo & Hhi). destruct i as [|i].
    + destruct (pages_first _ _ _ Hp) as (p & ps' & ->). specialize (Hhi 0 (first, p) ltac:(lia) eq_refl).
      apply (proj1 (N.compare_gt_iff _ _)) in Hhi. cbn [fst] in Hhi. lia.
    + destruct (lookup_lt_is_Some_2 ps i ltac:(lia)) as [[k p] Hi]. exists i, k, p.
      replace (S i - 1) with i by lia. split_and!; try done.
      * specialize (Hlo i (k, p) ltac:(lia) Hi). apply (proj1 (N.compare_lt_iff _ _)) in Hlo. cbn [fst] in Hlo. lia.
      * destruct (ps !! S i) as [[k' p']|] eqn:Ei; [|done]. specialize (Hhi (S i) (k', p') ltac:(lia) Ei).
        by apply (proj1 (N.compare_gt_iff _ _)) in Hhi.
Qed.

(** There is no page for a batch before the first one. *)
Lemma search_before first ps B id :
  pages_hold first ps B → (id < first)%N → ValueIndex.find_page_idx ps id = None.
Proof.
  intros Hp Hid. pose proof (binary_search_by_spec _ ps (pages_sorted first ps B id Hp)) as Hs.
  destruct (pages_first _ _ _ Hp) as (p0 & ps' & Eps).
  assert (∀ i k p, ps !! i = Some (k, p) → (first <= k)%N) as Hge.
  { intros i k p Hi. destruct (pages_split first ps B i k p Hp Hi) as (pre & _ & _ & _ & -> & _). lia. }
  unfold ValueIndex.find_page_idx. destruct (binary_search_by _ ps) as [i|[|i]]; [|done|].
  - destruct Hs as ([k p] & Hi & Hc). apply N.compare_eq_iff in Hc. simpl in Hc. specialize (Hge i k p Hi). lia.
  - destruct Hs as (Hl & Hlo & _). specialize (Hlo 0 (first, p0) ltac:(lia)). rewrite Eps in Hlo. specialize (Hlo eq_refl).
    apply (proj1 (N.compare_lt_iff _ _)) in Hlo. cbn [fst] in Hlo. lia.
Qed.

(** For a batch behind the last one the search finds the last page. *)
Lemma search_behind first ps B id :
  pages_hold first ps B → (first + N.of_nat (length B) <= id)%N →
  ∃ idx k p bs, ValueIndex.find_page_idx ps id = Some idx ∧ ps !! idx = Some (k, p) ∧ page_holds p bs ∧ start p = k ∧
    (k + N.of_nat (length bs) <= id)%N.
Proof.
  intros Hp Hid. destruct (search_page first ps B id Hp) as (idx & k & p & Hf & Hi & Hk & Hn); [lia|].
  destruct (pages_split first ps B idx k p Hp Hi) as (pre & bs & post & HB & Hkp & Hb & Hst & _ & Hnext & _).
  exists idx, k, p, bs. split_and!; try done. subst B. rewrite !length_app in Hid.
  destruct (ps !! S idx) as [[k' p']|]; [destruct Hnext as [-> _]; lia|]. subst post. simpl in Hid. lia.
Qed.

(** The search finds the page of a batch. *)
Lemma find_page first ps B id :
  pages_hold first ps B → (first <= id < first + N.of_nat (length B))%N →
  ∃ idx k p pre bs post, ValueIndex.find_page_idx ps id = Some idx ∧ ps !! idx = Some (k, p) ∧
    B = pre ++ bs ++ post ∧ k = (first + N.of_nat (length pre))%N ∧ page_holds p bs ∧ start p = k ∧
    (k <= id < k + N.of_nat (length bs))%N ∧ (idx = 0 → pre = []) ∧
    ∀ p' bs', page_holds p' bs' → start p' = k → p'.(IndexPage.sealed) = p.(IndexPage.sealed) → length bs' = length bs →
      pages_hold first (<[idx := (k, p')]> ps) (pre ++ bs' ++ post).
Proof.
  intros Hp Hid. destruct (search_page first ps B id Hp) as (idx & k & p & Hf & Hi & Hk & Hn); [lia|].
  destruct (pages_split first ps B idx k p Hp Hi) as (pre & bs & post & HB & Hkp & Hb & Hst & Hz & Hnext & Hup).
  exists idx, k, p, pre, bs, post. split_and!; try done.
  destruct (ps !! S idx) as [[k' p']|]; [destruct Hnext as [-> _]; lia|]. subst post B. rewrite !length_app in Hid. simpl in Hid. lia.
Qed.

(** The last page can grow, or be sealed and followed by a new page. *)
Lemma pages_last first ps B :
  pages_hold first ps B →
  ∃ k p pre bs, last ps = Some (k, p) ∧ B = pre ++ bs ∧ k = (first + N.of_nat (length pre))%N ∧ page_holds p bs ∧
    start p = k ∧ p.(IndexPage.sealed) = false ∧
    (∀ p' bs', page_holds p' bs' → start p' = k → p'.(IndexPage.sealed) = false →
      pages_hold first (<[length ps - 1 := (k, p')]> ps) (pre ++ bs')) ∧
    (∀ p' q bq, page_holds p' bs → start p' = k → p'.(IndexPage.sealed) = true → bs ≠ [] →
      page_holds q bq → start q = (k + N.of_nat (length bs))%N → q.(IndexPage.sealed) = false →
      pages_hold first (<[length ps - 1 := (k, p')]> ps ++ [(start q, q)]) (pre ++ bs ++ bq)).
Proof.
  induction 1 as [k0 p0 bs Hb Hk Hs|k0 p0 bs ps B Hb Hk Hs Hne Hp (k & p & pre & bs1 & Hl & -> & -> & Hb1 & Hk1 & Hs1 & Hg & Hn)].
  - exists k0, p0, [], bs. split_and!; try done; [simpl; lia|..]; simpl.
    + intros p' bs' Hb' Hk' Hs'. by apply hold_last.
    + intros p' q bq Hb' Hk' Hs' Hne Hq Hkq Hsq. apply hold_more; try done. rewrite <-Hkq. by apply hold_last.
  - destruct (pages_first _ _ _ Hp) as (p1 & ps' & Eps).
    assert (length ((k0, p0) :: ps) - 1 = S (length ps - 1)) as Hlen by (rewrite Eps; simpl; lia).
    exists (k0 + N.of_nat (length bs) + N.of_nat (length pre))%N, p, (bs ++ pre), bs1.
    rewrite Hlen. split; [by rewrite last_cons, Hl|]. split; [by rewrite <-(assoc_L (++))|]. split; [rewrite length_app; lia|].
    split_and!; try done; simpl.
    + intros p' bs' Hb' Hk' Hs'. rewrite <-(assoc_L (++)). apply hold_more; try done. by apply Hg.
    + intros p' q bq Hb' Hk' Hs' Hne' Hq Hkq Hsq. rewrite <-(assoc_L (++)). apply hold_more; try done. by apply Hn.
Qed.

(** ** The state of the index *)

(** The index stands for the batches [B] from [first] on; its pages have
    consecutive identifiers from [id0] on and files of their own, the files of
    pages before [id0] are gone. *)
Record index_ok (s : ValueIndex) (first : N) (B : list (list bool)) (id0 : N) : Prop := {
  io_pages : pages_hold first s.(ValueIndex.pages) B;
  io_ids : ∀ i k p, s.(ValueIndex.pages) !! i = Some (k, p) → page_id p = (id0 + N.of_nat i)%N;
  io_min : (s.(ValueIndex.meta).(ValueLogMetadata.minimum_index_page) <= id0)%N;
  io_next : s.(ValueIndex.meta).(ValueLogMetadata.next_index_page)
    = (id0 + N.of_nat (length s.(ValueIndex.pages)))%N;
  io_files : ∀ i, i < length s.(ValueIndex.pages) →
    is_Some (s.(ValueIndex.files) !! ValueIndexFile (id0 + N.of_nat i));
  io_gone : ∀ id, (s.(ValueIndex.meta).(ValueLogMetadata.minimum_index_page) <= id < id0)%N →
    s.(ValueIndex.files) !! ValueIndexFile id = None;
}.

(** The batch with an identifier. *)
Lemma batch_lookup (B : list (list bool)) first id pre bs post :
  B = pre ++ bs ++ post → (first + N.of_nat (length pre) <= id < first + N.of_nat (length pre) + N.of_nat (length bs))%N →
  B !! N.to_nat (id - first) = bs !! N.to_nat (id - (first + N.of_nat (length pre))).
Proof.
  intros -> Hid. rewrite lookup_app_r by lia. rewrite lookup_app_l by lia. f_equal. lia.
Qed.

Lemma vgets_bind {A C} (f : ValueIndex → A) (g : A → st ValueIndex C) s : (ValueIndex.gets f ≫= g) s = g (f s) s.
Proof. done. Qed.

Lemma index_count s first B id0 id b :
  index_ok s first B id0 → (first <= id)%N → B !! N.to_nat (id - first) = Some b →
  ValueIndex.count_active_entries id s = Ok (active_count b, s).
Proof.
  intros Hok Hid Hb. pose proof (lookup_lt_Some _ _ _ Hb) as Hlt.
  destruct (find_page first _ B id (io_pages _ _ _ _ Hok)) as (idx & k & p & pre & bs & post & Hf & Hi & HB & Hk & Hp & Hs & Hr & _); [lia|].
  assert (ValueIndex.find_page_for_batch (ValueIndex.pages s) id = Ok (Some p)) as E1
    by (unfold ValueIndex.find_page_for_batch; by rewrite Hf, Hi).
  unfold ValueIndex.count_active_entries. rewrite vgets_bind. run_lift E1.
  rewrite (batch_lookup B first id pre bs post HB) in Hb by (subst k; lia). rewrite <-Hk in Hb.
  pose proof (page_count p bs _ b Hp Hb) as Hc. rewrite Hs, N2Nat.id, N.add_comm, N.sub_add in Hc by lia.
  unfold lift. by rewrite Hc.
Qed.

(** A batch before the first one has no active values, and none can be deleted. *)
Lemma index_before s first B id0 id j :
  index_ok s first B id0 → (id < first)%N →
  ValueIndex.count_active_entries id s = Ok (0, s) ∧
  ValueIndex.mark_value_as_deleted (id, j) s = Panic "Outdated batch?".
Proof.
  intros Hok Hid. pose proof (search_before first _ B id (io_pages _ _ _ _ Hok) Hid) as Hf. split.
  - unfold ValueIndex.count_active_entries. rewrite vgets_bind.
    assert (ValueIndex.find_page_for_batch (ValueIndex.pages s) id = Ok None) as E
      by (unfold ValueIndex.find_page_for_batch; by rewrite Hf). by run_lift E.
  - unfold ValueIndex.mark_value_as_deleted. rewrite vgets_bind. cbn [fst]. by rewrite Hf.
Qed.

(** A batch behind the last one is looked for in the last page, which panics. *)
Lemma index_behind s first B id0 id j :
  index_ok s first B id0 → (first + N.of_nat (length B) <= id)%N →
  ValueIndex.count_active_entries id s = Panic "index out of bounds" ∧
  ValueIndex.mark_value_as_deleted (id, j) s = Panic "index out of bounds".
Proof.
  intros Hok Hid. destruct (search_behind first _ B id (io_pages _ _ _ _ Hok) Hid) as (idx & k & p & bs & Hf & Hi & Hp & Hs & Hk).
  pose proof (batch_range_behind p bs (N.to_nat (id - k)) Hp ltac:(lia)) as Hr. rewrite Hs, N2Nat.id in Hr.
  replace (k + (id - k))%N with id in Hr by lia. split.
  - unfold ValueIndex.count_active_entries. rewrite vgets_bind.
    assert (ValueIndex.find_page_for_batch (ValueIndex.pages s) id = Ok (Some p)) as E
      by (unfold ValueIndex.find_page_for_batch; by rewrite Hf, Hi). run_lift E.
    unfold lift, IndexPage.count_active_entries. by rewrite Hr.
  - unfold ValueIndex.mark_value_as_deleted. rewrite vgets_bind. cbn [fst].
    assert (expect (ValueIndex.find_page_idx (ValueIndex.pages s) id) "Outdated batch?" = Ok idx) as E1 by (by rewrite Hf).
    assert (expect (ValueIndex.pages s !! idx) "index out of bounds" = Ok (k, p)) as E2 by (by rewrite Hi).
    run_lift E1. run_lift E2. unfold mbind, st_bind, lift, IndexPage.mark_value_as_deleted. cbn [fst snd]. by rewrite Hr.
Qed.

(** Writing a page to its file. *)
Lemma sync_page_ok s idx k p bs :
  s.(ValueIndex.pages) !! idx = Some (k, p) → page_holds p bs →
  ∃ b p' d, ValueIndex.sync_page idx s
      = Ok (b, ValueIndex.mk (<[idx := (k, p')]> s.(ValueIndex.pages)) s.(ValueIndex.meta) d) ∧
    page_holds p' bs ∧ p'.(IndexPage.header) = p.(IndexPage.header) ∧ p'.(IndexPage.sealed) = p.(IndexPage.sealed) ∧
    (p.(IndexPage.dirty) = true → is_Some (d !! ValueIndexFile (page_id p))) ∧
    (p.(IndexPage.dirty) = false → d = s.(ValueIndex.files)) ∧
    ∀ f, f ≠ ValueIndexFile (page_id p) → d !! f = s.(ValueIndex.files) !! f.
Proof.
  intros Hi Hp. unfold ValueIndex.sync_page. rewrite vgets_bind.
  assert (expect (ValueIndex.pages s !! idx) "index out of bounds" = Ok (k, p)) as E1 by (by rewrite Hi). run_lift E1.
  assert (∃ b p' d, IndexPage.sync s.(ValueIndex.files) (ValueIndexFile (page_id p)) p = Ok (b, p', d) ∧
    page_holds p' bs ∧ p'.(IndexPage.header) = p.(IndexPage.header) ∧ p'.(IndexPage.sealed) = p.(IndexPage.sealed) ∧
    (p.(IndexPage.dirty) = true → is_Some (d !! ValueIndexFile (page_id p))) ∧
    (p.(IndexPage.dirty) = false → d = s.(ValueIndex.files)) ∧
    ∀ f, f ≠ ValueIndexFile (page_id p) → d !! f = s.(ValueIndex.files) !! f) as (b & p' & d & E2 & Hrest).
  { unfold IndexPage.sync. destruct (IndexPage.dirty p) eqn:Ed; simpl; [|by exists false, p, (ValueIndex.files s)].
    destruct (compress_total (IndexPage.page_bytes p) (page_bytes_small p bs Hp)) as [c Hc].
    unfold disk.write, disk.write_uncompressed. rewrite Hc. cbn [expect]. run_bind.
    eexists _, _, _. split; [done|]. split; [destruct Hp; by split|]. split; [done|]. split; [done|].
    split; [intros _; rewrite lookup_insert_eq; by eexists|]. split; [done|]. intros f Hf. by rewrite lookup_insert_ne. }
  exists b, p', d. split; [|exact Hrest]. unfold ValueIndex.on_files, mbind, st_bind. simpl. by rewrite E2.
Qed.

Lemma create_page_ok s min_batch :
  (s.(ValueIndex.meta).(ValueLogMetadata.next_index_page) + 1 < u64_bound)%N →
  ∃ m, ValueIndex.create_new_page min_batch s = Ok ((), ValueIndex.mk
      (s.(ValueIndex.pages) ++ [(min_batch, IndexPage.new s.(ValueIndex.meta).(ValueLogMetadata.next_index_page) min_batch)])
      m s.(ValueIndex.files)) ∧
    m.(ValueLogMetadata.minimum_index_page) = s.(ValueIndex.meta).(ValueLogMetadata.minimum_index_page) ∧
    m.(ValueLogMetadata.next_index_page) = (s.(ValueIndex.meta).(ValueLogMetadata.next_index_page) + 1)%N.
Proof.
  intros Hn. eexists. unfold ValueIndex.create_new_page, ValueIndex.on_meta, ValueLogMetadata.generate_next_value_index_id, u64_add.
  unfold mbind, st_bind, outcome_bind. rewrite (proj2 (N.ltb_lt _ _) Hn). split; [reflexivity|]. done.
Qed.

Lemma expand_last_ok s k p n ok p' :
  last s.(ValueIndex.pages) = Some (k, p) → IndexPage.expand p n = Ok (ok, p') →
  ValueIndex.expand_last n s = Ok (ok, ValueIndex.mk (<[length s.(ValueIndex.pages) - 1 := (k, p')]> s.(ValueIndex.pages))
    s.(ValueIndex.meta) s.(ValueIndex.files)).
Proof. intros Hl E. unfold ValueIndex.expand_last. rewrite vgets_bind, Hl. by run_lift E. Qed.

Lemma fresh_page_holds id min_batch : page_holds (IndexPage.new id min_batch) [].
Proof. split; simpl; rewrite ?bv_iter_empty; try done. unfold round8. simpl. lia. Qed.

(** The state after the batch was added, before the page is written. *)
Lemma extend_ok s first B id0 n :
  index_ok s first B id0 → n + 2 <= MAX_SIZE →
  (s.(ValueIndex.meta).(ValueLogMetadata.next_index_page) + 1 < u64_bound)%N →
  ∃ ps m k p bs,
    (success ← ValueIndex.expand_last n;
     if (success : bool) then mret () else
       _ ← ValueIndex.create_new_page (first + N.of_nat (length B));
       success ← ValueIndex.expand_last n;
       lift (assert_that success "Data did not fit in new page?")) s
      = Ok ((), ValueIndex.mk ps m s.(ValueIndex.files)) ∧
    pages_hold first ps (B ++ [replicate n true]) ∧ last ps = Some (k, p) ∧ page_holds p bs ∧ p.(IndexPage.dirty) = true ∧
    (∀ i k p, ps !! i = Some (k, p) → page_id p = (id0 + N.of_nat i)%N) ∧
    m.(ValueLogMetadata.minimum_index_page) = s.(ValueIndex.meta).(ValueLogMetadata.minimum_index_page) ∧
    m.(ValueLogMetadata.next_index_page) = (id0 + N.of_nat (length ps))%N ∧
    length s.(ValueIndex.pages) <= length ps <= S (length s.(ValueIndex.pages)).
Proof.
  intros Hok Hn Hnext. destruct (pages_last _ _ _ (io_pages _ _ _ _ Hok)) as (k & p & pre & bs & Hl & HB & Hk & Hp & Hst & Hs & Hgrow & Hnew).
  set (ps := s.(ValueIndex.pages)) in *.
  assert (ps !! (length ps - 1) = Some (k, p)) as Hlast by (rewrite <-Hl, last_lookup; f_equal; lia).
  pose proof (lookup_lt_Some _ _ _ Hlast) as Hlt.
  destruct (page_expand p bs n Hp Hs ltac:(lia)) as (ok & p' & Ee & Hid' & Hst' & Hbool & Hcase).
  assert (∀ i kq q, <[length ps - 1 := (k, p')]> ps !! i = Some (kq, q) → page_id q = (id0 + N.of_nat i)%N) as Hids.
  { intros i kq q. destruct (decide (i = length ps - 1)) as [->|Hne].
    - rewrite list_lookup_insert_eq by done. intros [= <- <-]. rewrite Hid'. by apply (io_ids _ _ _ _ Hok _ k).
    - rewrite list_lookup_insert_ne by done. apply (io_ids _ _ _ _ Hok). }
  pose proof (expand_last_ok s k p n ok p' Hl Ee) as E1. fold ps in E1.
  run_st E1. destruct ok.
  - destruct Hcase as (Hp' & Hs' & Hd'). eexists _, _, k, p', (bs ++ [replicate n true]). split; [done|].
    split; [rewrite HB, <-(assoc_L (++)); by apply Hgrow; [..|congruence|]|].
    split; [rewrite last_lookup, length_insert; replace (pred (length ps)) with (length ps - 1) by lia; by rewrite list_lookup_insert_eq|].
    split; [done|]. split; [done|]. split; [done|]. split; [done|]. rewrite length_insert. split; [apply Hok|lia].
  - destruct Hcase as (Hp' & Hs'). symmetry in Hbool. apply bool_decide_eq_false in Hbool.
    assert (bs ≠ []) as Hne by (intros ->; simpl in Hbool; lia).
    set (s1 := ValueIndex.mk (<[length ps - 1 := (k, p')]> ps) s.(ValueIndex.meta) s.(ValueIndex.files)).
    destruct (create_page_ok s1 (first + N.of_nat (length B)) Hnext) as (m & Ec & Hm1 & Hm2). run_st Ec.
    cbn [s1 ValueIndex.pages ValueIndex.meta ValueIndex.files] in *.
    set (q := IndexPage.new (ValueLogMetadata.next_index_page (ValueIndex.meta s)) (first + N.of_nat (length B))) in *.
    destruct (page_expand q [] n (fresh_page_holds _ _) eq_refl ltac:(lia)) as (ok & q' & Eq & Hidq & Hstq & Hbq & Hcq).
    rewrite bool_decide_true in Hbq by (simpl; lia). subst ok. destruct Hcq as (Hq' & Hsq' & Hdq').
    assert (length (<[length ps - 1 := (k, p')]> ps ++ [((first + N.of_nat (length B))%N, q)]) - 1 = length (<[length ps - 1 := (k, p')]> ps) + 0)
      as Hlen by (rewrite length_app; simpl; lia).
    match goal with |- context [(ValueIndex.expand_last n ≫= _) ?s] => pose proof (expand_last_ok s _ q n _ q' (last_snoc _ _) Eq) as E2 end.
    cbn [ValueIndex.pages ValueIndex.meta ValueIndex.files] in E2. rewrite Hlen, insert_app_r in E2. cbn [insert list_insert] in E2. run_st E2.
    assert (start q' = (k + N.of_nat (length bs))%N) as Hsq by (rewrite Hstq; simpl; rewrite HB, Hk, length_app; lia).
    eexists _, _, _, q', [replicate n true]. split; [done|]. split; [|split; [by rewrite last_snoc|]].
    + rewrite HB, <-(assoc_L (++)). replace (first + N.of_nat (length (pre ++ bs)))%N with (start q') by (rewrite Hsq, Hk, length_app; lia).
      apply Hnew; try done. congruence.
    + split; [done|]. split; [done|]. split; [|split; [done|]].
      * intros i kq q1. destruct (decide (i < length (<[length ps - 1 := (k, p')]> ps))) as [Hi|Hi].
        -- rewrite lookup_app_l by done. apply Hids.
        -- rewrite lookup_app_r by lia. rewrite length_insert in *. intros Hq1. apply list_lookup_singleton_Some in Hq1 as [Hi0 [= <- <-]].
           rewrite Hidq. simpl. rewrite (io_next _ _ _ _ Hok). fold ps. lia.
      * rewrite Hm2, (io_next _ _ _ _ Hok), length_app, length_insert. fold ps. simpl. lia.
Qed.

Lemma add_batch_ok s first B id0 n :
  index_ok s first B id0 → n + 2 <= MAX_SIZE →
  (s.(ValueIndex.meta).(ValueLogMetadata.next_index_page) + 1 < u64_bound)%N →
  ∃ s', ValueIndex.add_batch (first + N.of_nat (length B)) n s = Ok ((), s') ∧
    index_ok s' first (B ++ [replicate n true]) id0.
Proof.
  intros Hok Hn Hnext. destruct (extend_ok s first B id0 n Hok Hn Hnext)
    as (ps & m & k & p & bs & E & Hps & Hl & Hp & Hd & Hids & Hmin & Hnx & Hlen).
  unfold ValueIndex.add_batch.
  assert (∀ f : st ValueIndex unit,
    (success ← ValueIndex.expand_last n;
     _ ← (if (success : bool) then mret () else
       _ ← ValueIndex.create_new_page (first + N.of_nat (length B));
       success ← ValueIndex.expand_last n;
       lift (assert_that success "Data did not fit in new page?"));
     f) s = f (ValueIndex.mk ps m s.(ValueIndex.files))) as Hbind.
  { intros f. unfold mbind at 1. unfold st_bind at 1. unfold mbind at 1 in E. unfold st_bind at 1 in E.
    destruct (ValueIndex.expand_last n s) as [[ok s1]| | |]; [|done..].
    by rewrite (st_bind_Ok _ _ _ _ _ E). }
  rewrite Hbind. clear Hbind E. rewrite vgets_bind. cbn [ValueIndex.pages].
  assert (ps !! (length ps - 1) = Some (k, p)) as Hlast by (rewrite <-Hl, last_lookup; f_equal; lia).
  pose proof (lookup_lt_Some _ _ _ Hlast) as Hlt.
  destruct (pages_last _ _ _ Hps) as (k1 & p1 & pre & bs1 & Hl1 & HB & Hk & Hp1 & Hst & Hs & Hgrow & _).
  rewrite Hl in Hl1. injection Hl1 as <- <-.
  destruct (sync_page_ok (ValueIndex.mk ps m s.(ValueIndex.files)) (length ps - 1) k p bs1 Hlast Hp1)
    as (b & p' & d & E & Hp' & Hh' & Hs' & Hf1 & _ & Hf2). run_st E. eexists. split; [done|].
  pose proof (Hids _ _ _ Hlast) as Hpid. cbn [ValueIndex.files] in *. clear E.
  split; cbn [ValueIndex.pages ValueIndex.meta ValueIndex.files].
  - rewrite HB. apply Hgrow; [done|congruence|congruence].
  - intros i kq q. destruct (decide (i = length ps - 1)) as [->|Hne].
    + rewrite list_lookup_insert_eq by done. intros [= <- <-]. by rewrite Hh'.
    + rewrite list_lookup_insert_ne by done. apply Hids.
  - rewrite Hmin. apply Hok.
  - by rewrite length_insert.
  - intros i Hi. rewrite length_insert in Hi. destruct (decide (i = length ps - 1)) as [->|Hne].
    + rewrite <-Hpid. by apply Hf1.
    + rewrite Hf2 by (rewrite Hpid; intros [= Heq]; lia). apply (io_files _ _ _ _ Hok). lia.
  - intros id Hid. rewrite Hmin in Hid. rewrite Hf2 by (rewrite Hpid; intros [= Heq]; lia). by apply (io_gone _ _ _ _ Hok).
Qed.

(** What a batch that does not fit in an empty page makes of [add_batch]. *)
Definition batch_too_large (n : nat) : string :=
  if n <? MAX_SIZE then "Data did not fit in new page?" else "assertion failed: num_entries < MAX_SIZE".

Lemma add_batch_panics s first B id0 id n :
  index_ok s first B id0 → MAX_SIZE < n + 2 →
  (s.(ValueIndex.meta).(ValueLogMetadata.next_index_page) + 1 < u64_bound)%N →
  ValueIndex.add_batch id n s = Panic (batch_too_large n).
Proof.
  intros Hok Hn Hnext. destruct (pages_last _ _ _ (io_pages _ _ _ _ Hok)) as (k & p & pre & bs & Hl & _ & _ & Hp & _ & Hs & _).
  unfold ValueIndex.add_batch, batch_too_large. destruct (n <? MAX_SIZE) eqn:Elt.
  - apply Nat.ltb_lt in Elt. destruct (page_expand p bs n Hp Hs Elt) as (ok & p' & Ee & _ & _ & Hbool & _).
    rewrite bool_decide_false in Hbool by lia. subst ok. pose proof (expand_last_ok s k p n _ p' Hl Ee) as E1. run_st E1.
    match type of E1 with _ = Ok (_, ?s1) => destruct (create_page_ok s1 id Hnext) as (m & Ec & _) end.
    cbn [ValueIndex.pages ValueIndex.meta ValueIndex.files] in Ec.
    set (q := IndexPage.new (ValueLogMetadata.next_index_page (ValueIndex.meta s)) id) in *.
    destruct (page_expand q [] n (fresh_page_holds _ _) eq_refl Elt) as (ok & q' & Eq & _ & _ & Hbq & _).
    rewrite bool_decide_false in Hbq by (simpl; lia). subst ok.
    unfold mbind at 1, st_bind at 1. run_st Ec.
    match type of Ec with _ = Ok (_, ?s2) => pose proof (expand_last_ok s2 _ q n _ q' (last_snoc _ _) Eq) as E2 end.
    by run_st E2.
  - assert (IndexPage.expand p n = Panic "assertion failed: num_entries < MAX_SIZE") as Ee.
    { unfold IndexPage.expand. rewrite Hs, assert_Ok by done. run_bind. by rewrite Elt. }
    unfold ValueIndex.expand_last. unfold mbind at 1, st_bind at 1. rewrite vgets_bind, Hl.
    unfold mbind at 2, st_bind at 1, lift. by rewrite Ee.
Qed.

(** ** Deleting values *)

(** Pages at the front that are not in use are removed. *)
Lemma remove_index_pages_ok ps s first B id0 :
  s.(ValueIndex.pages) = ps → index_ok s first B id0 →
  (s.(ValueIndex.meta).(ValueLogMetadata.minimum_index_page) < id0)%N ∨
    (∃ k p ps', ps = (k, p) :: ps' ∧ p.(IndexPage.sealed) = true ∧ IndexPage.is_in_use p = false) →
  ∃ s' dropped B' id1, ValueIndex.remove_pages ps s = Ok ((), s') ∧ B = dropped ++ B' ∧
    Forall (Forall (λ x, x = false)) dropped ∧
    index_ok s' (first + N.of_nat (length dropped)) B' id1 ∧
    length s'.(ValueIndex.pages) + N.to_nat (id1 - id0) = length ps ∧ (id0 <= id1)%N ∧
    (s'.(ValueIndex.meta).(ValueLogMetadata.minimum_index_page) < id1)%N.
Proof.
  revert s first B id0. induction ps as [|[k p] ps IH]; intros s first B id0 Hps Hok Hmin.
  { pose proof (io_pages _ _ _ _ Hok) as Hp. rewrite Hps in Hp. inversion Hp. }
  pose proof (io_pages _ _ _ _ Hok) as Hp. rewrite Hps in Hp.
  assert (page_id p = id0) as Hpid by (rewrite (io_ids _ _ _ _ Hok 0 k p) by (by rewrite Hps); lia).
  cbn [ValueIndex.remove_pages]. rewrite Hpid.
  destruct (negb p.(IndexPage.sealed) || IndexPage.is_in_use p) eqn:Eu.
  - destruct Hmin as [Hmin|(k1 & p1 & ps1 & [= <- <- <-] & Hs1 & Hu1)]; [|by rewrite Hs1, Hu1 in Eu].
    unfold ValueIndex.on_meta, ValueLogMetadata.set_minimum_value_index_page_id. rewrite assert_Ok by bool_true. run_bind.
    eexists _, [], B, id0. split; [done|]. split; [done|]. split; [done|]. rewrite N.add_0_r.
    split; [|simpl; rewrite Hps; split_and!; simpl; lia]. destruct Hok as [K1 K2 K3 K4 K5 K6]. by split.
  - apply orb_false_iff in Eu as [Hs%negb_false_iff Hu].
    inversion Hp as [? ? ? ? ? Hs'|k2 p2 bs ps2 B2 Hb Hk2 Hs2 Hne Hrest]; subst; [congruence|].
    assert (is_Some (s.(ValueIndex.files) !! ValueIndexFile (page_id p))) as [fl Hfl].
    { pose proof (io_files _ _ _ _ Hok 0) as Hf. rewrite Hps, N.add_0_r in Hf. apply Hf. simpl. lia. }
    assert (ValueIndex.remove_page_file (page_id p) s
      = Ok ((), ValueIndex.mk s.(ValueIndex.pages) s.(ValueIndex.meta) (delete (ValueIndexFile (page_id p)) s.(ValueIndex.files)))) as E1.
    { unfold ValueIndex.remove_page_file, ValueIndex.on_files, disk.remove_file. by rewrite Hfl. }
    run_st E1.
    set (s1 := ValueIndex.mk ps s.(ValueIndex.meta) (delete (ValueIndexFile (page_id p)) s.(ValueIndex.files))).
    change ((ValueIndex.set_pages ps ≫= λ _, ValueIndex.remove_pages ps) _) with (ValueIndex.remove_pages ps s1).
    assert (index_ok s1 (start p + N.of_nat (length bs)) B2 (page_id p + 1)) as Hok1.
    { destruct Hok as [K1 K2 K3 K4 K5 K6]. rewrite Hps in *. split; cbn [s1 ValueIndex.pages ValueIndex.meta ValueIndex.files].
      - done.
      - intros i kq q Hq. rewrite (K2 (S i) kq q Hq). lia.
      - lia.
      - rewrite K4. simpl. lia.
      - intros i Hi. rewrite lookup_delete_ne by (intros [= Heq]; lia).
        replace (page_id p + 1 + N.of_nat i)%N with (page_id p + N.of_nat (S i))%N by lia. apply K5. simpl. lia.
      - intros id Hid. destruct (decide (id = page_id p)) as [->|Hne']; [by rewrite lookup_delete_eq|].
        rewrite lookup_delete_ne by congruence. apply K6. lia. }
    destruct (IH s1 _ B2 (page_id p + 1)%N eq_refl Hok1) as (s' & dr & B' & id1 & E & -> & Hdr & Hok' & Hl & Hle & Hm).
    { left. cbn [s1 ValueIndex.meta]. pose proof (io_min _ _ _ _ Hok). lia. }
    exists s', (bs ++ dr), B', id1. split; [done|]. split; [by rewrite <-(assoc_L (++))|].
    split; [apply Forall_app; split; [by eapply in_use_false|done]|].
    split; [rewrite length_app; replace (start p + N.of_nat (length bs + length dr))%N with (start p + N.of_nat (length bs) + N.of_nat (length dr))%N by lia; done|].
    simpl. split_and!; [lia|lia|done].
Qed.

(** Clearing a flag of the batch at position [i]. *)
Definition clear (B : list (list bool)) (i : nat) (b : list bool) (j : N) : list (list bool) :=
  <[i := <[N.to_nat j := false]> b]> B.

Lemma clear_app pre bs post i b j :
  bs !! i = Some b → clear (pre ++ bs ++ post) (length pre + i) b j = pre ++ clear bs i b j ++ post.
Proof. intros Hi. unfold clear. rewrite insert_app_r, insert_app_l; [done|by eapply lookup_lt_Some]. Qed.

(** The page with an identifier. *)
Lemma page_at_ok s first B id0 idx k p :
  index_ok s first B id0 → s.(ValueIndex.pages) !! idx = Some (k, p) →
  ValueIndex.page_at s.(ValueIndex.pages) (page_id p) = Ok idx.
Proof.
  intros Hok Hi. unfold ValueIndex.page_at.
  assert (search_sorted (λ kp : N * IndexPage, (page_id kp.2 ?= page_id p)%N) s.(ValueIndex.pages)) as Hs.
  { intros i j [ki pi] [kj pj] Hij Ei Ej. simpl. rewrite (io_ids _ _ _ _ Hok _ _ _ Ei), (io_ids _ _ _ _ Hok _ _ _ Ej).
    rewrite !N.compare_lt_iff, !N.compare_gt_iff. lia. }
  pose proof (binary_search_by_spec _ _ Hs) as Hb. destruct (binary_search_by _ _) as [i|i].
  - destruct Hb as ([ki pi] & Ei & Hc). apply N.compare_eq_iff in Hc. cbn [snd] in Hc.
    rewrite (io_ids _ _ _ _ Hok _ _ _ Ei), (io_ids _ _ _ _ Hok _ _ _ Hi) in Hc. f_equal. lia.
  - destruct Hb as (_ & Hlo & Hhi). destruct (decide (idx < i)) as [Hlt|Hge].
    + specialize (Hlo idx (k, p) Hlt Hi). apply (proj1 (N.compare_lt_iff _ _)) in Hlo. cbn [snd] in Hlo. lia.
    + specialize (Hhi idx (k, p) ltac:(lia) Hi). apply (proj1 (N.compare_gt_iff _ _)) in Hhi. cbn [snd] in Hhi. lia.
Qed.

(** Deleting a value; what is logged for it has the same effect on the flags when
    it is replayed. *)
Lemma index_mark s first B id0 id b j :
  index_ok s first B id0 → (first <= id)%N → B !! N.to_nat (id - first) = Some b →
  match b !! N.to_nat j with
  | None => ValueIndex.mark_value_as_deleted (id, j) s = Panic "Entry index out of range"
  | Some false => ValueIndex.mark_value_as_deleted (id, j) s = Panic "Entry already marked as deleted"
  | Some true => ∃ r s' dropped B' id1, ValueIndex.mark_value_as_deleted (id, j) s = Ok (r, s') ∧
      clear B (N.to_nat (id - first)) b j = dropped ++ B' ∧ Forall (Forall (λ x, x = false)) dropped ∧
      index_ok s' (first + N.of_nat (length dropped)) B' id1 ∧
      (∃ idx, ValueIndex.find_page_idx s.(ValueIndex.pages) id = Some idx ∧ r.1 = (id0 + N.of_nat idx)%N ∧ (r.2 < u16_bound)%N) ∧
      (∃ s1, ValueIndex.mark_value_as_deleted_at r.1 r.2 s = Ok ((), s1) ∧
        index_ok s1 first (clear B (N.to_nat (id - first)) b j) id0) ∧
      (length s'.(ValueIndex.pages) < length s.(ValueIndex.pages) →
        (s'.(ValueIndex.meta).(ValueLogMetadata.minimum_index_page) < id1)%N)
  end.
Proof.
  intros Hok Hid Hb. pose proof (lookup_lt_Some _ _ _ Hb) as Hlt.
  destruct (find_page first _ B id (io_pages _ _ _ _ Hok))
    as (idx & k & p & pre & bs & post & Hf & Hi & HB & Hk & Hp & Hs & Hr & Hz & Hup); [lia|].
  rewrite (batch_lookup B first id pre bs post HB) in Hb by (subst k; lia). rewrite <-Hk in Hb.
  pose proof (page_mark p bs _ b j Hp Hb) as Hm. cbv zeta in Hm. rewrite Hs, N2Nat.id in Hm.
  replace (k + (id - k))%N with id in Hm by lia.
  assert (expect (ValueIndex.find_page_idx (ValueIndex.pages s) id) "Outdated batch?" = Ok idx) as E1 by (by rewrite Hf).
  assert (expect (ValueIndex.pages s !! idx) "index out of bounds" = Ok (k, p)) as E2 by (by rewrite Hi).
  assert (∀ r, ValueIndex.mark_value_as_deleted (id, j) s = r ↔
    ('(offset, page) ← lift (IndexPage.mark_value_as_deleted p (id, j));
     let page_id := page_id page in
     let pages := <[idx := (k, page)]> s.(ValueIndex.pages) in
     _ ← ValueIndex.set_pages pages;
     _ ← (if (idx =? 0) && negb (IndexPage.is_in_use page) && page.(IndexPage.sealed)
          then ValueIndex.remove_pages pages else mret ());
     mret (page_id, offset)) s = r) as Hrun.
  { intros r. unfold ValueIndex.mark_value_as_deleted. rewrite vgets_bind. cbn [fst]. run_lift E1. by run_lift E2. }
  destruct (b !! N.to_nat j) as [[]|] eqn:Ej; [|apply Hrun; unfold mbind, st_bind, lift; by rewrite Hm..].
  destruct Hm as (off & p' & Em & Hoff & Hw & Hh' & Hs' & Hp').
  assert (clear B (N.to_nat (id - first)) b j = pre ++ clear bs (N.to_nat (id - k)) b j ++ post) as HB'.
  { rewrite HB. replace (N.to_nat (id - first)) with (length pre + N.to_nat (id - k)) by lia. by apply clear_app. }
  set (s1 := ValueIndex.mk (<[idx := (k, p')]> s.(ValueIndex.pages)) s.(ValueIndex.meta) s.(ValueIndex.files)).
  assert (index_ok s1 first (clear B (N.to_nat (id - first)) b j) id0) as Hok1.
  { destruct Hok as [K1 K2 K3 K4 K5 K6]. split; cbn [s1 ValueIndex.pages ValueIndex.meta ValueIndex.files]; try done.
    - rewrite HB'. apply Hup; [done|congruence|done|apply length_insert].
    - intros i kq q. destruct (decide (i = idx)) as [->|Hne].
      + rewrite list_lookup_insert_eq by (by eapply lookup_lt_Some). intros [= <- <-]. rewrite Hh'. by apply (K2 _ k).
      + rewrite list_lookup_insert_ne by done. apply K2.
    - by rewrite length_insert.
    - by rewrite length_insert. }
  assert (page_id p' = (id0 + N.of_nat idx)%N) as Hpid by (rewrite Hh'; by apply (io_ids _ _ _ _ Hok _ k)).
  assert (ValueIndex.mark_value_as_deleted_at (page_id p') off s = Ok ((), s1)) as Eat.
  { unfold ValueIndex.mark_value_as_deleted_at. rewrite vgets_bind, Hh'. run_lift (page_at_ok s first B id0 idx k p Hok Hi). run_lift E2.
    assert (IndexPage.mark_value_as_deleted_at p off = Ok p') as E3; [|by run_lift E3].
    apply (page_mark_at p bs (N.to_nat (id - k)) b j); [done|done|done|done|]. rewrite Hs, N2Nat.id.
    replace (k + (id - k))%N with id by lia. done. }
  destruct ((idx =? 0) && negb (IndexPage.is_in_use p') && p'.(IndexPage.sealed)) eqn:Ec.
  - apply andb_true_iff in Ec as [[Hidx%Nat.eqb_eq Hu%negb_true_iff]%andb_true_iff Hse]. subst idx.
    destruct (remove_index_pages_ok (<[0 := (k, p')]> s.(ValueIndex.pages)) s1 first _ id0 eq_refl Hok1)
      as (s' & dr & B' & id1 & Er & HB2 & Hdr & Hok' & _ & _ & Hmin).
    { right. destruct (ValueIndex.pages s) as [|x ps']; [done|]. by exists k, p', ps'. }
    exists (page_id p', off), s', dr, B', id1.
    split; [|do 3 (split; [done|]); split; [by exists 0|]; split; [by exists s1|done]]. apply Hrun. run_lift Em.
    rewrite (proj2 (Nat.eqb_eq 0 0) eq_refl), Hu, Hse. cbn [negb andb].
    change ((ValueIndex.set_pages ?ps ≫= ?f) s) with (f () s1). cbv beta. by run_st Er.
  - exists (page_id p', off), s1, [], (clear B (N.to_nat (id - first)) b j), id0.
    split; [|split; [done|split; [done|split; [by rewrite N.add_0_r|split; [by exists idx|split; [by exists s1|]]]]]].
    + apply Hrun. run_lift Em. by rewrite Ec.
    + cbn [s1 ValueIndex.pages]. rewrite length_insert. lia.
Qed.

(** A page file that is gone makes opening fail. *)
Lemma open_fails s first B id0 :
  index_ok s first B id0 → (s.(ValueIndex.meta).(ValueLogMetadata.minimum_index_page) < id0)%N →
  ValueIndex.open s.(ValueIndex.meta) s.(ValueIndex.files) = Err (Io "Failed to read value index page" "").
Proof.
  intros Hok Hlt. destruct (pages_first _ _ _ (io_pages _ _ _ _ Hok)) as (p & ps & Eps).
  pose proof (io_next _ _ _ _ Hok) as Hn. rewrite Eps in Hn. simpl in Hn.
  unfold ValueIndex.open, ValueLogMetadata.get_most_recent_value_index_page_id, ValueLogMetadata.u64_pred.
  rewrite (proj2 (N.eqb_neq _ 0)) by lia. run_bind.
  set (m := s.(ValueIndex.meta).(ValueLogMetadata.minimum_index_page)) in *.
  destruct (N.to_nat (ValueLogMetadata.next_index_page (ValueIndex.meta s) - 1 + 1 - m)) as [|n] eqn:En; [lia|].
  cbn [ValueIndex.open_pages]. unfold IndexPage.open, disk.read, disk.read_uncompressed.
  by rewrite (io_gone _ _ _ _ Hok) by (fold m; lia).
Qed.

(** ** Opening the index again *)

(** Every page is in its file. *)
Definition synced (s : ValueIndex) : Prop :=
  ∀ i k p, s.(ValueIndex.pages) !! i = Some (k, p) → header_wf p.(IndexPage.header) ∧
    disk.read s.(ValueIndex.files) (ValueIndexFile (page_id p)) 0 = Ok (IndexPage.page_bytes p).

(** The two pages have the same batches at the same positions. *)
Definition same_layout (x y : N * IndexPage) : Prop :=
  x.1 = y.1 ∧ x.2.(IndexPage.header) = y.2.(IndexPage.header) ∧ x.2.(IndexPage.offsets) = y.2.(IndexPage.offsets).

(** One page that is opened again. *)
Lemma reopened_page d k p bs sealed :
  page_holds p bs → header_wf p.(IndexPage.header) →
  disk.read d (ValueIndexFile (page_id p)) 0 = Ok (IndexPage.page_bytes p) →
  ∃ q bs', IndexPage.open d (ValueIndexFile (page_id p)) sealed = Ok q ∧ page_holds q bs' ∧
    q.(IndexPage.sealed) = sealed ∧ same_layout (k, p) (k, q) ∧ Forall2 prefix bs bs'.
Proof.
  intros Hp Hh Hr. destruct (page_reopen p bs d _ sealed Hp Hh Hr) as (q & fill & E & Q1 & _ & Q3 & Q4 & _).
  exists q, (filled bs fill). do 3 (split; [done|]). split; [|apply filled_prefix]. split; [done|]. split; [done|]. simpl.
  by rewrite (ph_offsets _ _ Hp), (ph_offsets _ _ Q4), starts_filled.
Qed.

Lemma open_pages_ok d ps first B id0 max_id :
  pages_hold first ps B →
  (∀ i k p, ps !! i = Some (k, p) → page_id p = (id0 + N.of_nat i)%N ∧ header_wf p.(IndexPage.header) ∧
    disk.read d (ValueIndexFile (page_id p)) 0 = Ok (IndexPage.page_bytes p)) →
  (max_id + 1 = id0 + N.of_nat (length ps))%N →
  ∃ qs B', ValueIndex.open_pages d (length ps) id0 max_id = Ok qs ∧ pages_hold first qs B' ∧
    Forall2 same_layout ps qs ∧ Forall2 prefix B B'.
Proof.
  intros Hp. revert id0. induction Hp as [k p bs Hb Hk Hs|k p bs ps B Hb Hk Hs Hne Hp IH]; intros id0 Hall Hmax;
    destruct (Hall 0 k p eq_refl) as (Hid & Hh & Hr); rewrite N.add_0_r in Hid; simpl in Hmax; cbn [length ValueIndex.open_pages].
  - destruct (reopened_page d k p bs (id0 <? max_id)%N Hb Hh Hr) as (q & bs' & E & Hq & Hsq & Hl & Hpre).
    rewrite Hid in E. rewrite E. run_bind. destruct Hl as (_ & Hhd & Hof). cbn [snd] in Hhd, Hof. rewrite <-Hhd, Hk.
    eexists _, bs'. split; [done|]. split; [|split; [by repeat constructor|done]].
    apply hold_last; [done|congruence|]. rewrite Hsq. apply N.ltb_ge. lia.
  - destruct (reopened_page d k p bs (id0 <? max_id)%N Hb Hh Hr) as (q & bs' & E & Hq & Hsq & Hl & Hpre).
    rewrite Hid in E. rewrite E. run_bind. destruct Hl as (_ & Hhd & Hof). cbn [snd] in Hhd, Hof. rewrite <-Hhd, Hk.
    destruct (IH (id0 + 1)%N) as (qs & B' & Eq & Hqs & Hsame & HB).
    { intros i k1 p1 Hi. destruct (Hall (S i) k1 p1 Hi) as (-> & ? & ?). split; [lia|done]. }
    { lia. }
    rewrite Eq. run_bind. destruct (pages_first _ _ _ Hp) as (p1 & ps1 & ->). simpl in Hmax.
    eexists _, (bs' ++ B'). split; [done|]. split; [|split; [constructor; [by split|done]|by apply Forall2_app]].
    apply hold_more; [done|congruence| | |by rewrite <-(Forall2_length _ _ _ Hpre)].
    + rewrite Hsq. apply N.ltb_lt. lia.
    + intros ->. by apply Forall2_nil_inv_r in Hpre.
Qed.

(** An index whose pages are in their files, and which never dropped a page, is
    opened again with the same batches; the bits that fill the last byte of a page
    are added to its last batch. *)
Lemma open_synced s first B id0 :
  index_ok s first B id0 → s.(ValueIndex.meta).(ValueLogMetadata.minimum_index_page) = id0 → synced s →
  ∃ s' B', ValueIndex.open s.(ValueIndex.meta) s.(ValueIndex.files) = Ok s' ∧ index_ok s' first B' id0 ∧
    Forall2 same_layout s.(ValueIndex.pages) s'.(ValueIndex.pages) ∧ Forall2 prefix B B'.
Proof.
  intros Hok Hmin Hsy. pose proof Hok as [K1 K2 K3 K4 K5 K6]. destruct (pages_first _ _ _ K1) as (p0 & ps0 & E0).
  unfold ValueIndex.open, ValueLogMetadata.get_most_recent_value_index_page_id, ValueLogMetadata.u64_pred.
  rewrite Hmin, K4, (proj2 (N.eqb_neq _ 0)) by (rewrite E0; simpl; lia). run_bind.
  assert (N.to_nat (id0 + N.of_nat (length s.(ValueIndex.pages)) - 1 + 1 - id0) = length s.(ValueIndex.pages)) as ->
    by (rewrite E0; simpl; lia).
  destruct (open_pages_ok s.(ValueIndex.files) _ first B id0 (id0 + N.of_nat (length s.(ValueIndex.pages)) - 1) K1)
    as (qs & B' & E & Hqs & Hsame & HB).
  { intros i k p Hi. destruct (Hsy i k p Hi) as [Hh Hr]. split; [by eapply K2|done]. }
  { rewrite E0. simpl. lia. }
  rewrite E. run_bind. eexists _, B'. split; [done|]. split; [|done]. pose proof (Forall2_length _ _ _ Hsame) as Hlen.
  split; cbn [ValueIndex.pages ValueIndex.meta ValueIndex.files]; rewrite ?Hmin, <-?Hlen; try done.
  - intros i k q Hi. destruct (Forall2_lookup_r _ _ _ _ _ Hsame Hi) as ([k' p] & Hi' & _ & Hhd & _).
    cbn [snd] in Hhd. rewrite <-Hhd. by eapply K2.
  - intros id. lia.
Qed.

(** Where a deletion is recorded depends on the layout of the pages only. *)
Lemma bsearch_loop_same {A C} (f : A → comparison) (g : C → comparison) l l' n base size :
  f <$> l = g <$> l' → bsearch_loop n f l base size = bsearch_loop n g l' base size.
Proof.
  intros Hl. revert base size. induction n as [|n IH]; intros base size; cbn [bsearch_loop]; [done|].
  rewrite <-!list_lookup_fmap, Hl. by rewrite IH.
Qed.

Lemma find_page_same ps qs id :
  Forall2 same_layout ps qs → ValueIndex.find_page_idx ps id = ValueIndex.find_page_idx qs id.
Proof.
  intros Hsame. unfold ValueIndex.find_page_idx. set (f := λ kp : N * IndexPage, (kp.1 ?= id)%N).
  assert (f <$> ps = f <$> qs) as Hf.
  { induction Hsame as [|x y ps qs (Hk & _) _ IH]; [done|]. cbn [fmap list_fmap]. unfold f at 1 3. rewrite Hk. f_equal. exact IH. }
  assert (binary_search_by f ps = binary_search_by f qs) as ->; [|done]. unfold binary_search_by.
  rewrite (bsearch_loop_same f f ps qs) by done. rewrite <-!list_lookup_fmap, Hf, (Forall2_length _ _ _ Hsame).
  by destruct Hsame.
Qed.

Lemma mark_where s vid r s' :
  ValueIndex.mark_value_as_deleted vid s = Ok (r, s') →
  ∃ idx k p pos, ValueIndex.find_page_idx s.(ValueIndex.pages) vid.1 = Some idx ∧
    s.(ValueIndex.pages) !! idx = Some (k, p) ∧ p.(IndexPage.offsets) !! N.to_nat (vid.1 - start p) = Some pos ∧
    r = (page_id p, (as_u16 (N.to_nat pos) + as_u16 (N.to_nat vid.2))%N).
Proof.
  unfold ValueIndex.mark_value_as_deleted. rewrite vgets_bind.
  destruct (ValueIndex.find_page_idx _ _) as [idx|]; [|done]. intros ([idx1 s1] & [= <- <-] & E)%bind_Ok_inv.
  destruct (ValueIndex.pages s !! idx) as [[k p]|] eqn:Ei; [|done]. apply bind_Ok_inv in E as ([[k1 p1] s1] & [= <- <- <-] & E).
  apply bind_Ok_inv in E as ([[off p'] s1] & Em & E). apply bind_Ok_inv in Em as ([off1 p1] & Em & [= <- <- <-]).
  apply bind_Ok_inv in E as ([u1 s2] & _ & E). apply bind_Ok_inv in E as ([u2 s3] & _ & [= <- _]).
  exists idx, k, p. unfold IndexPage.mark_value_as_deleted, IndexPage.get_batch_range in Em.
  destruct (_ <=? _)%N; [|done]. apply bind_Ok_inv in Em as ([a b] & Er & Em). simpl in Er.
  destruct (IndexPage.offsets p !! N.to_nat (vid.1 - start p)) as [pos|]; [|done]. injection Er as <- _.
  apply bind_Ok_inv in Em as (sl & _ & Em). apply bind_Ok_inv in Em as (mk & _ & Em).
  destruct (negb mk); [done|]. cbv zeta in Em. destruct (_ <? _)%N; [|done]. injection Em as <- <-. by exists pos.
Qed.

Lemma mark_same_entry s s' id j r r' s1 s1' :
  Forall2 same_layout s.(ValueIndex.pages) s'.(ValueIndex.pages) →
  ValueIndex.mark_value_as_deleted (id, j) s = Ok (r, s1) → ValueIndex.mark_value_as_deleted (id, j) s' = Ok (r', s1') → r' = r.
Proof.
  intros Hsame (idx & k & p & pos & Hf & Hi & Hp & ->)%mark_where (idx' & k' & p' & pos' & Hf' & Hi' & Hp' & ->)%mark_where.
  rewrite (find_page_same _ _ _ Hsame), Hf' in Hf. injection Hf as ->.
  destruct (Forall2_lookup_lr _ _ _ _ _ _ Hsame Hi Hi') as (_ & Hh & Ho). cbn [snd fst] in *.
  rewrite Hh, Ho, Hp' in Hp. injection Hp as ->. by rewrite Hh.
Qed.

(** A deletion that drops no page changes neither manifest nor files. *)
Lemma remove_pages_length ps s s' :
  s.(ValueIndex.pages) = ps → ValueIndex.remove_pages ps s = Ok ((), s') → length s'.(ValueIndex.pages) <= length ps.
Proof.
  revert s. induction ps as [|[k p] ps IH]; intros s Hps E; [done|]. cbn [ValueIndex.remove_pages] in E. destruct (_ || _).
  - unfold ValueIndex.on_meta in E. apply bind_Ok_inv in E as ([u m] & _ & [= _ <-]). simpl. by rewrite Hps.
  - apply bind_Ok_inv in E as ([u1 s1] & _ & E). apply bind_Ok_inv in E as ([u2 s2] & [= <- <-] & E).
    apply IH in E; [simpl; lia|done].
Qed.

Lemma mark_kept s vid r s' :
  ValueIndex.mark_value_as_deleted vid s = Ok (r, s') → length s'.(ValueIndex.pages) = length s.(ValueIndex.pages) →
  s'.(ValueIndex.meta) = s.(ValueIndex.meta) ∧ s'.(ValueIndex.files) = s.(ValueIndex.files).
Proof.
  unfold ValueIndex.mark_value_as_deleted. rewrite vgets_bind.
  destruct (ValueIndex.find_page_idx _ _) as [idx|]; [|done]. intros ([idx1 s1] & [= <- <-] & E)%bind_Ok_inv.
  destruct (ValueIndex.pages s !! idx) as [[k p]|] eqn:Ei; [|done]. apply bind_Ok_inv in E as ([[k1 p1] s1] & [= <- <- <-] & E).
  apply bind_Ok_inv in E as ([[off p'] s1] & Em & E). apply bind_Ok_inv in Em as ([off1 p1] & _ & [= <- <- <-]).
  apply bind_Ok_inv in E as ([u1 s2] & [= <- <-] & E). apply bind_Ok_inv in E as ([u2 s3] & Er & [= _ <-]).
  destruct (_ && _) eqn:Ec; [|by injection Er as _ <-].
  apply andb_true_iff in Ec as [[->%Nat.eqb_eq Hu%negb_true_iff]%andb_true_iff Hse].
  destruct (ValueIndex.pages s) as [|x ps] eqn:Eps; [done|]. cbn [insert list_insert ValueIndex.remove_pages] in Er.
  rewrite Hu, Hse in Er. cbn [negb orb] in Er. apply bind_Ok_inv in Er as ([u4 s4] & _ & Er).
  apply bind_Ok_inv in Er as ([u5 s5] & [= <- <-] & Er). destruct u2. apply remove_pages_length in Er; [|done]. simpl. lia.
Qed.

Lemma new_value_index_ok m d :
  m = ValueLogMetadata.new →
  ∃ s, ValueIndex.new m d = Ok s ∧ index_ok s MIN_VALUE_BATCH_ID [] MIN_VALUE_INDEX_PAGE_ID.
Proof.
  intros ->. unfold ValueIndex.new. destruct (create_page_ok (ValueIndex.mk [] ValueLogMetadata.new d) MIN_VALUE_BATCH_ID) as (m & E & Hm1 & Hm2);
    [reflexivity|]. 
  assert ((ValueIndex.create_new_page MIN_VALUE_BATCH_ID ≫= λ _, ValueIndex.sync_page 0) (ValueIndex.mk [] ValueLogMetadata.new d)
    = ValueIndex.sync_page 0 (ValueIndex.mk [(MIN_VALUE_BATCH_ID, IndexPage.new MIN_VALUE_INDEX_PAGE_ID MIN_VALUE_BATCH_ID)] m d)) as E'
    by (by rewrite (st_bind_Ok _ _ _ _ _ E)).
  destruct (sync_page_ok (ValueIndex.mk [(MIN_VALUE_BATCH_ID, IndexPage.new MIN_VALUE_INDEX_PAGE_ID MIN_VALUE_BATCH_ID)] m d) 0
    _ _ [] eq_refl (fresh_page_holds _ _)) as (b & p' & d' & Es & Hp' & Hh' & Hs' & Hf1 & _ & _).
  rewrite E', Es. run_bind. eexists. split; [done|]. split; cbn [ValueIndex.pages ValueIndex.meta ValueIndex.files insert list_insert].
  - apply hold_last; [done| |done]. by rewrite Hh'.
  - intros [|i] k p Hi; [|done]. simpl in Hi. injection Hi as <- <-. by rewrite Hh'.
  - by rewrite Hm1.
  - by rewrite Hm2.
  - intros [|i] Hi; [|simpl in Hi; lia]. rewrite N.add_0_r. by apply Hf1.
  - intros id. rewrite Hm1. cbn [ValueIndex.meta ValueLogMetadata.new ValueLogMetadata.minimum_index_page]. lia.
Qed.

End index.

(** ** Bit vectors as lists *)

Definition byte_bits (b : byte) : list bool :=
  let '(b0, (b1, (b2, (b3, (b4, (b5, (b6, b7))))))) := Byte.to_bits b in [b0; b1; b2; b3; b4; b5; b6; b7].

Definition bits_byte (l : list bool) : byte :=
  let n i := nth i l false in
  Byte.of_bits (n 0, (n 1, (n 2, (n 3, (n 4, (n 5, (n 6, n 7))))))).

Fixpoint pack (n : nat) (l : list bool) : list byte :=
  match n with
  | O => []
  | S n' => bits_byte l :: pack n' (drop 8 l)
  end.

Definition list_bits : BitVec := {|
  bits := list bool;
  bv_empty := [];
  bv_iter b := b;
  bv_set b i x := <[i := x]> b;
  bv_resize b n x := take n b ++ replicate (n - length b) x;
  bv_as_raw_slice b := pack ((length b + 7) / 8) b;
  bv_from_slice l := l ≫= byte_bits;
|}.

Lemma byte_bits_of l : byte_bits (bits_byte l) = (λ i, nth i l false) <$> seq 0 8.
Proof. unfold byte_bits, bits_byte. by rewrite Byte.to_bits_of_bits. Qed.

Lemma length_pack n l : length (pack n l) = n.
Proof. revert l. induction n as [|n IH]; intros l; simpl; [done|]. by rewrite IH. Qed.

Lemma length_unpack (l : list byte) : length (l ≫= byte_bits) = 8 * length l.
Proof.
  induction l as [|b l IH]; [done|]. rewrite bind_cons, length_app, IH. unfold byte_bits.
  destruct (Byte.to_bits b) as (? & ? & ? & ? & ? & ? & ? & ?). simpl. lia.
Qed.

Lemma unpack_pack n l : length l <= 8 * n → ∃ fill, pack n l ≫= byte_bits = l ++ fill.
Proof.
  revert l. induction n as [|n IH]; intros l Hl.
  { exists []. destruct l; [done|simpl in Hl; lia]. }
  cbn [pack]. rewrite bind_cons, byte_bits_of. destruct (decide (8 <= length l)) as [H8|H8].
  - destruct (IH (drop 8 l)) as [fill Hf]; [rewrite length_drop; lia|]. exists fill. rewrite Hf.
    do 8 (destruct l as [|? l]; [simpl in H8; lia|]). simpl. by rewrite drop_0.
  - exists (drop (length l) ((λ i, nth i l false) <$> seq 0 8) ++ (pack n (drop 8 l) ≫= byte_bits)). rewrite (assoc_L (++)). f_equal.
    do 8 (destruct l as [|? l]; [done|]). simpl in H8. lia.
Qed.

Lemma list_bits_laws : @BitVecLaws list_bits.
Proof.
  split; simpl; try done.
  - intros b n x Hn. by rewrite take_ge.
  - intros b. apply length_pack.
  - intros l. rewrite length_unpack. lia.
  - intros b. apply unpack_pack. pose proof (round8_bounds (length b)) as Hr. unfold round8 in Hr. lia.
Qed.

(** ** The theorems *)

Section theorems.
Context `{BitVecLaws} `{CompressionLaws}.

(** C30: the index tracks which values are in use.  An index that stands for
    batches with consecutive identifiers appends the next batch, with all of its
    values active, if it has at most 4094 values, and panics for a larger one
    (although a page is documented to hold about 30k values).  For a batch of the
    index it counts the active values; deleting a value clears its flag, and
    panics when the value does not exist or was deleted before; pages are dropped
    only when none of their values is in use.  A batch before the first one has no
    active values and deleting from it panics; a batch behind the last one makes
    both panic. *)
Theorem value_index_refines s first B id0 :
  index_ok s first B id0 →
  (∀ n, (s.(ValueIndex.meta).(ValueLogMetadata.next_index_page) + 1 < u64_bound)%N →
    if decide (n + 2 <= MAX_SIZE) then
      ∃ s', ValueIndex.add_batch (first + N.of_nat (length B)) n s = Ok ((), s') ∧
        index_ok s' first (B ++ [replicate n true]) id0
    else ValueIndex.add_batch (first + N.of_nat (length B)) n s = Panic (batch_too_large n)) ∧
  (∀ id j, (id < first)%N →
    ValueIndex.count_active_entries id s = Ok (0, s) ∧
    ValueIndex.mark_value_as_deleted (id, j) s = Panic "Outdated batch?") ∧
  (∀ id j, (first + N.of_nat (length B) <= id)%N →
    ValueIndex.count_active_entries id s = Panic "index out of bounds" ∧
    ValueIndex.mark_value_as_deleted (id, j) s = Panic "index out of bounds") ∧
  ∀ id b, (first <= id)%N → B !! N.to_nat (id - first) = Some b →
    ValueIndex.count_active_entries id s = Ok (active_count b, s) ∧
    ∀ j, match b !! N.to_nat j with
         | None => ValueIndex.mark_value_as_deleted (id, j) s = Panic "Entry index out of range"
         | Some false => ValueIndex.mark_value_as_deleted (id, j) s = Panic "Entry already marked as deleted"
         | Some true => ∃ r s' dropped B' id1, ValueIndex.mark_value_as_deleted (id, j) s = Ok (r, s') ∧
             clear B (N.to_nat (id - first)) b j = dropped ++ B' ∧ Forall (Forall (λ x, x = false)) dropped ∧
             index_ok s' (first + N.of_nat (length dropped)) B' id1
         end.
Proof.
  intros Hok. split; [|split; [|split]].
  - intros n Hnext. case_decide; [by apply add_batch_ok|]. eapply add_batch_panics; [done|lia|done].
  - intros id j Hid. by eapply index_before.
  - intros id j Hid. by eapply index_behind.
  - intros id b Hid Hb. split; [by eapply index_count|].
    intros j. pose proof (index_mark s first B id0 id b j Hok Hid Hb) as Hm.
    destruct (b !! N.to_nat j) as [[]|]; [|done..]. destruct Hm as (r & s' & dr & B' & id1 & E & HB & Hd & Hok' & _ & _ & _).
    by exists r, s', dr, B', id1.
Qed.

(** C38: after a page was dropped the index cannot be opened again.  The manifest
    keeps the identifier of the first page in a field of the batches, so that
    opening looks for the file of the dropped page. *)
Theorem value_index_reopen_fails s first B id0 id b j :
  index_ok s first B id0 → (first <= id)%N → B !! N.to_nat (id - first) = Some b → b !! N.to_nat j = Some true →
  ∃ r s', ValueIndex.mark_value_as_deleted (id, j) s = Ok (r, s') ∧
    (length s'.(ValueIndex.pages) < length s.(ValueIndex.pages) →
      ValueIndex.open s'.(ValueIndex.meta) s'.(ValueIndex.files) = Err (Io "Failed to read value index page" "")).
Proof.
  intros Hok Hid Hb Hj. pose proof (index_mark s first B id0 id b j Hok Hid Hb) as Hm. rewrite Hj in Hm.
  destruct Hm as (r & s' & dr & B' & id1 & E & _ & _ & Hok' & _ & _ & Hmin). exists r, s'. split; [done|].
  intros Hl. eapply open_fails; [exact Hok'|]. by apply Hmin.
Qed.

(** An index page is written and opened without loss: header, batch states and
    the flags of all batches come back, except that up to seven bits that fill the
    last byte are appended to the flags of the last batch. *)
Theorem index_page_roundtrip p bs d path sealed :
  page_holds p bs → header_wf p.(IndexPage.header) → p.(IndexPage.dirty) = true →
  ∃ p' d' q fill, IndexPage.sync d path p = Ok (true, p', d') ∧ IndexPage.open d' path sealed = Ok q ∧
    q.(IndexPage.header) = p.(IndexPage.header) ∧ q.(IndexPage.batches) = p.(IndexPage.batches) ∧
    page_holds q (filled bs fill) ∧ length fill < 8 ∧
    ∀ i b, bs !! i = Some b → S i < length bs →
      IndexPage.count_active_entries q (q.(IndexPage.header).(IndexPage.start_batch) + N.of_nat i) = Ok (active_count b).
Proof.
  intros Hp Hh Hd. unfold IndexPage.sync. rewrite Hd. cbn [negb].
  destruct (compress_total (IndexPage.page_bytes p) (page_bytes_small p bs Hp)) as [c Hc].
  unfold disk.write, disk.write_uncompressed. rewrite Hc. cbn [expect]. run_bind.
  destruct (page_reopen p bs (<[path := c]> d) path sealed Hp Hh) as (q & fill & E & Q1 & Q2 & _ & Hq & Hf).
  { unfold disk.read, disk.read_uncompressed. rewrite lookup_insert_eq. simpl. by rewrite drop_0, (decompress_compress _ _ Hc). }
  eexists _, _, q, fill. split; [done|]. split; [done|]. split; [done|]. split; [done|]. split; [done|]. split; [done|].
  intros i b Hi Hlt. apply (page_count q _ i b Hq). unfold filled. rewrite list_lookup_alter_ne by lia. done.
Qed.

End theorems.

(** ** Witnesses *)

Section witnesses.
#[local] Existing Instance list_bits.
#[local] Existing Instance list_bits_laws.
#[local] Existing Instance identity_compression.
#[local] Existing Instance identity_compression_laws.

(** A page with the flags [bs] that starts with the batch [first]. *)
Definition sample_page (id first : N) (bs : list (list bool)) (sealed : bool) : IndexPage.IndexPage :=
  IndexPage.mk (IndexPage.mkHeader id first (N.of_nat (length bs)) 0) true
    (N.of_nat <$> starts 0 bs) (replicate (length bs) Active) (concat bs) sealed.

Lemma sample_page_holds id first bs sealed :
  2 * length bs + round8 (length (concat bs)) <= MAX_SIZE + 7 → page_holds (sample_page id first bs sealed) bs.
Proof. intros Hs. split; [done|done|simpl; by rewrite length_replicate|done|done]. Qed.

(** A sealed page with one value and an empty page. *)
Definition sample_vindex : ValueIndex.ValueIndex :=
  ValueIndex.mk [(1%N, sample_page 1 1 [[true]] true); (2%N, sample_page 2 2 [] false)]
    (ValueLogMetadata.mk 2 0 3 1) {[ValueIndexFile 1 := []; ValueIndexFile 2 := []]}.

Lemma sample_vindex_ok : index_ok sample_vindex 1 [[true]] 1.
Proof.
  split.
  - apply (hold_more 1 _ [[true]] _ []); [|done|done|done|].
    + apply sample_page_holds. rewrite max_size. vm_compute. lia.
    + apply hold_last; [|done|done]. apply sample_page_holds. rewrite max_size. vm_compute. lia.
  - intros [|[|i]] k p Hi; simpl in Hi; [injection Hi as <- <-; done..|done].
  - done.
  - done.
  - intros [|[|i]] Hi; [vm_compute; by eexists..|simpl in Hi; lia].
  - intros id. cbn [sample_vindex ValueIndex.meta ValueLogMetadata.minimum_index_page]. lia.
Qed.

Lemma value_index_refines_witness :
  (∃ s', ValueIndex.add_batch 2 3 sample_vindex = Ok ((), s') ∧ index_ok s' 1 [[true]; [true; true; true]] 1) ∧
  ValueIndex.add_batch 2 (N.to_nat 5000) sample_vindex = Panic "assertion failed: num_entries < MAX_SIZE" ∧
  ValueIndex.count_active_entries 1 sample_vindex = Ok (1, sample_vindex) ∧
  ValueIndex.mark_value_as_deleted (1%N, 4%N) sample_vindex = Panic "Entry index out of range" ∧
  ValueIndex.mark_value_as_deleted (0%N, 4%N) sample_vindex = Panic "Outdated batch?".
Proof.
  destruct (value_index_refines sample_vindex 1 [[true]] 1 sample_vindex_ok) as (Ha & Hb & _ & Hm).
  destruct (Hm 1%N [true] ltac:(lia) eq_refl) as [Hc Hd]. split_and!; [| |exact Hc|exact (Hd 4%N)|by apply Hb].
  - specialize (Ha 3 eq_refl). rewrite decide_True in Ha by (rewrite max_size; apply Nat.leb_le; vm_compute; reflexivity).
    exact Ha.
  - specialize (Ha (N.to_nat 5000) eq_refl).
    rewrite decide_False in Ha by (rewrite max_size; lia).
    unfold batch_too_large in Ha. rewrite (proj2 (Nat.ltb_ge _ _)) in Ha; [exact Ha|].
    rewrite max_size. apply Nat.leb_le. vm_compute. reflexivity.
Defined.

(** The sample drops its first page. *)
Lemma value_index_reopen_fails_witness :
  ∃ r s', ValueIndex.mark_value_as_deleted (1%N, 0%N) sample_vindex = Ok (r, s') ∧
    length s'.(ValueIndex.pages) = 1 ∧
    ValueIndex.open s'.(ValueIndex.meta) s'.(ValueIndex.files) = Err (Io "Failed to read value index page" "").
Proof.
  destruct (value_index_reopen_fails sample_vindex 1 [[true]] 1 1 [true] 0 sample_vindex_ok ltac:(lia) eq_refl eq_refl)
    as (r & s' & E & Hopen).
  assert (length s'.(ValueIndex.pages) = 1) as Hl.
  { vm_compute in E. injection E as _ <-. reflexivity. }
  exists r, s'. split_and!; [exact E|exact Hl|]. apply Hopen. rewrite Hl. apply Nat.lt_succ_diag_r.
Defined.

Lemma index_page_roundtrip_witness :
  ∃ p' d' q fill, IndexPage.sync ∅ (ValueIndexFile 1) (sample_page 1 1 [[true; false]; [true]] false) = Ok (true, p', d') ∧
    IndexPage.open d' (ValueIndexFile 1) true = Ok q ∧
    page_holds q (filled [[true; false]; [true]] fill) ∧
    IndexPage.count_active_entries q 1 = Ok 1.
Proof.
  destruct (index_page_roundtrip (sample_page 1 1 [[true; false]; [true]] false) [[true; false]; [true]] ∅ (ValueIndexFile 1) true)
    as (p' & d' & q & fill & E1 & E2 & Hh & _ & Hq & _ & Hc).
  - apply sample_page_holds. rewrite max_size. apply Nat.leb_le. vm_compute. reflexivity.
  - repeat split; reflexivity.
  - reflexivity.
  - exists p', d', q, fill. split_and!; [exact E1|exact E2|exact Hq|].
    specialize (Hc 0 [true; false] eq_refl (Nat.lt_succ_diag_r 1)). rewrite Hh in Hc. exact Hc.
Defined.

End witnesses.
