(* ===== verification/ValueLog.v ===== *)
(** * The value log (src/src/values/mod.rs)

    The batches of values, written to files and cached in shards, with the index
    of the values in use and the write-ahead log, which records deletions.  The
    caches (crate [lru]) are a parameter as in [DataBlocks], with [pop] in
    addition. *)

From stdpp Require Import base list gmap strings sorting.
From Stdlib Require Import Strings.Byte NArith Lia.
From S2P Require Import Prelude Disk WriteBatch Wal WalStatus WalCalls Manifest DataBlocks ValueBatch ValueIndex ValueIndexInv.

Local Open Scope nat_scope.
Local Open Scope lsm_scope.

(** [LruCache::pop] *)
Class LruPop (V : Type) `{LruCache V} := { cache_pop : cache V → N → cache V }.

Class LruPopLaws (V : Type) `{LruLaws V} `{!LruPop V} : Prop :=
  { cache_view_pop c k : cache_view (cache_pop c k) = delete k (cache_view c) }.

(** [EntryList] *)
Abbreviation EntryList := (list (list byte * list byte)).

Module ValueLog.

(** [NUM_SHARDS] *)
Definition NUM_SHARDS : N := 16.

Section ops.
Context `{BitVec} `{Compression} `{LruPop ValueBatch.ValueBatch}.
Context (io : IoMode).

(** [struct ValueLog]; the files and the counters of the manifest are part of the
    index. *)
Record ValueLog := mk {
  wal : Log;
  index : ValueIndex.ValueIndex;
  batch_caches : list (cache ValueBatch.ValueBatch);
}.

Definition gets {A} (f : ValueLog → A) : st ValueLog A := λ s, Ok (f s, s).

(** A call of the index. *)
Definition on_index {A} (f : st ValueIndex.ValueIndex A) : st ValueLog A := λ s,
  '(a, i) ← f s.(index); Ok (a, mk s.(wal) i s.(batch_caches)).

(** A change of the counters in the manifest, and of the files. *)
Definition on_meta {A} (f : ValueLogMetadata.ValueLogMetadata → outcome (A * ValueLogMetadata.ValueLogMetadata))
  : st ValueLog A := on_index (ValueIndex.on_meta f).

Definition on_files {A} (f : Disk → outcome (A * Disk)) : st ValueLog A := on_index (ValueIndex.on_files f).

(** A call of the write-ahead log, whose files are those of the index. *)
Definition wal_of (s : ValueLog) : WalState :=
  mkWal s.(wal).(log_status) s.(wal).(log_writer) s.(wal).(log_phase) s.(index).(ValueIndex.files).

Definition with_wal (s : ValueLog) (w : WalState) : ValueLog :=
  mk (mkLog w.(WalStatus.status) w.(WalStatus.writer) w.(WalStatus.phase))
    (ValueIndex.mk s.(index).(ValueIndex.pages) s.(index).(ValueIndex.meta) w.(WalStatus.disk)) s.(batch_caches).

Definition on_wal {A} (f : WalState → outcome (A * WalState)) : st ValueLog A := λ s,
  '(a, w) ← f (wal_of s); Ok (a, with_wal s w).

(** [self.batch_caches[shard_id]] and its new state *)
Definition get_shard (i : nat) : st ValueLog (cache ValueBatch.ValueBatch) := λ s,
  c ← expect (s.(batch_caches) !! i) "index out of bounds"; Ok (c, s).

Definition set_shard (i : nat) (c : cache ValueBatch.ValueBatch) : st ValueLog unit := λ s,
  Ok ((), mk s.(wal) s.(index) (<[i := c]> s.(batch_caches))).

(** [Error::from_io_error] around a call of the disk *)
Definition io_context {A} (msg : string) (r : outcome A) : outcome A :=
  match r with
  | Ok a => Ok a
  | Err _ => Err (Io msg "")
  | Panic m => Panic m
  | OutOfFuel => OutOfFuel
  end.

(** [ValueLog::init_caches] *)
Definition init_caches (params : Params.Params) : outcome (list (cache ValueBatch.ValueBatch)) :=
  let max_value_files := (params.(Params.max_open_files) / 2)%N in
  _ ← assert_that (negb (max_value_files =? 0)%N) "Max open files needs to be greater than 2";
  let shard_size := (max_value_files / NUM_SHARDS)%N in
  _ ← assert_that (negb (shard_size =? 0)%N) "Not enough open files to support the number of shards";
  Ok (replicate (N.to_nat NUM_SHARDS) (cache_new (N.to_nat shard_size))).

(** [ValueLog::new] *)
Definition new (wal : Log) (params : Params.Params) (m : ValueLogMetadata.ValueLogMetadata) (d : Disk)
  : outcome ValueLog :=
  batch_caches ← init_caches params;
  index ← ValueIndex.new m d;
  Ok (mk wal index batch_caches).

(** [ValueLog::batch_to_shard_id] *)
Definition batch_to_shard_id (batch_id : N) : nat := N.to_nat (batch_id mod NUM_SHARDS).

(** [ValueLog::get_batch] *)
Definition get_batch (identifier : N) : st ValueLog ValueBatch.ValueBatch :=
  let shard_id := batch_to_shard_id identifier in
  c ← get_shard shard_id;
  let '(hit, c) := cache_get c identifier in
  _ ← set_shard shard_id c;
  match hit with
  | Some batch => mret batch
  | None =>
      data ← on_files (λ d, data ← io_context "Failed to read value log batch" (disk.read d (ValueFile identifier) 0); Ok (data, d));
      let obj := ValueBatch.from_existing data in
      _ ← set_shard shard_id (cache_put c identifier obj);
      mret obj
  end.

(** [ValueLog::get_ref] *)
Definition get_ref (value_ref : ValueId) : st ValueLog ValueBatch.ValueRef :=
  let '(id, offset) := value_ref in
  batch ← get_batch id;
  lift (ValueBatch.get_ref batch offset).

(** [ValueLog::make_batch] *)
Definition make_batch : st ValueLog ValueBatchBuilder.ValueBatchBuilder :=
  identifier ← on_meta ValueLogMetadata.generate_next_value_batch_id;
  mret (ValueBatchBuilder.new identifier).

(** [ValueBatchBuilder::finish] *)
Definition finish (b : ValueBatchBuilder.ValueBatchBuilder) : st ValueLog N :=
  let identifier := b.(ValueBatchBuilder.identifier) in
  let num_values := ValueBatchBuilder.num_values b in
  let data := ValueBatchBuilder.finish_data b in
  _ ← on_files (λ d, d ← io_context "Failed to write value log batch" (disk.write d (ValueFile identifier) data); Ok ((), d));
  let batch := ValueBatch.mk data in
  let shard_id := batch_to_shard_id identifier in
  c ← get_shard shard_id;
  _ ← set_shard shard_id (cache_put c identifier batch);
  _ ← on_index (ValueIndex.add_batch identifier (N.to_nat num_values));
  mret identifier.

(** The loop of [remove_batch_from_disk] that looks for the new minimum. *)
Fixpoint skip_batches (n : nat) (batch_id new_minimum : N) : st ValueLog N :=
  match n with
  | O => mret new_minimum
  | S n' =>
      num_active ← on_index (ValueIndex.count_active_entries batch_id);
      if 0 <? num_active then mret new_minimum else skip_batches n' batch_id (new_minimum + 1)
  end.

(** [ValueLog::remove_batch_from_disk] *)
Definition remove_batch_from_disk (batch_id : N) : st ValueLog unit :=
  let shard_id := batch_to_shard_id batch_id in
  c ← get_shard shard_id;
  _ ← on_files (λ d, d ← io_context "Failed to remove value log batch" (disk.remove_file d (ValueFile batch_id)); Ok ((), d));
  _ ← set_shard shard_id (cache_pop c batch_id);
  meta ← gets (λ s, s.(index).(ValueIndex.meta));
  let min_batch := N.max meta.(ValueLogMetadata.minimum_batch) MIN_VALUE_BATCH_ID in
  if (min_batch <? batch_id)%N then mret () else
  most_recent ← lift (ValueLogMetadata.get_most_recent_value_batch_id meta);
  new_minimum ← skip_batches (N.to_nat (most_recent - batch_id)) batch_id batch_id;
  on_meta (λ m, m ← ValueLogMetadata.set_minimum_value_batch_id m new_minimum; Ok ((), m)).

(** [ValueLog::try_to_remove] *)
Definition try_to_remove (batch_id : N) : st ValueLog bool :=
  num_active ← on_index (ValueIndex.count_active_entries batch_id);
  if 0 <? num_active then mret false else
  _ ← on_index (ValueIndex.mark_batch_as_deleted batch_id);
  _ ← remove_batch_from_disk batch_id;
  mret true.

(** [ValueLog::try_to_compact] *)
Definition try_to_compact (batch_id : N) : st ValueLog (option EntryList) :=
  batch ← get_batch batch_id;
  total ← lift (ValueBatch.total_num_values batch);
  let num_entries := N.to_nat total in
  num_active ← on_index (ValueIndex.count_active_entries batch_id);
  active_ratio ← lift (if num_entries * 100 =? 0 then Panic "attempt to divide by zero"
                       else Ok ((num_active * 100) / (num_entries * 100)));
  if active_ratio <? 25 then
    offsets ← on_index (ValueIndex.get_active_entries batch_id);
    _ ← on_index (ValueIndex.mark_batch_as_compacted batch_id);
    entries ← lift (ValueBatch.get_entries batch offsets);
    mret (Some entries)
  else mret None.

(** [ValueLog::mark_value_deleted] *)
Definition mark_value_deleted (vid : ValueId) : st ValueLog EntryList :=
  '(page_id, page_offset) ← on_index (ValueIndex.mark_value_as_deleted vid);
  _ ← on_wal (λ w, WalCalls.store_entries io w [LDeleteValue page_id page_offset]);
  removed ← try_to_remove page_id;
  if (removed : bool) then mret [] else
  entries ← try_to_compact page_id;
  mret (default [] entries).

(** The loop of [ValueLog::open] over the batches to delete. *)
Fixpoint remove_batches (to_delete : list N) : st ValueLog unit :=
  match to_delete with
  | [] => mret ()
  | batch_id :: to_delete' => _ ← remove_batch_from_disk batch_id; remove_batches to_delete'
  end.

(** [ValueLog::open] *)
Definition open (wal : Log) (params : Params.Params) (index : ValueIndex.ValueIndex) (to_delete : list N)
  : outcome ValueLog :=
  batch_caches ← init_caches params;
  '(_, obj) ← remove_batches to_delete (mk wal index batch_caches);
  Ok obj.

(** [ValueLog::sync] *)
Definition sync : st ValueLog unit := on_index ValueIndex.sync.

(** A memtable's values written as a batch, as [DbLogic] does when it flushes. *)
Definition write_values (es : EntryList) : st ValueLog (list ValueId) :=
  vbuilder ← make_batch;
  '(ids, vbuilder) ← lift (add_entries vbuilder es);
  _ ← finish vbuilder;
  mret ids.

(** The value behind an identifier. *)
Definition value_at (vid : ValueId) : st ValueLog (list byte) :=
  r ← get_ref vid;
  lift (ValueBatch.get_value r).

End ops.

End ValueLog.
