(* ===== verification/ValueLogSpec.v ===== *)
(** * The value log as a store of batches (src/src/values/mod.rs)

    The log stands for the contents of its batches, whether they are cached or
    not, and its index for the flags of their values.  Values that are written, up
    to 4094 in a batch, come back from the cache or from the files.  Deleting values is another
    matter: the theorems say when it panics. *)

From stdpp Require Import base list gmap strings sorting.
From Stdlib Require Import Strings.Byte NArith Lia.
From S2P Require Import Prelude Disk WriteBatch Wal WalStatus WalCalls Manifest DataBlocks ValueBatch ValueIndex ValueIndexInv ValueLog.

Local Open Scope nat_scope.
Local Open Scope lsm_scope.

(** ** What the index leaves alone *)

Create HintDb keeping.

Section keeping.
Context `{BitVec} `{Compression}.

(** The index changes its own files only, and not the counter of the batches. *)
Definition keeps (s s' : ValueIndex.ValueIndex) : Prop :=
  (∀ f, (∀ id, f ≠ ValueIndexFile id) → s'.(ValueIndex.files) !! f = s.(ValueIndex.files) !! f) ∧
  s'.(ValueIndex.meta).(ValueLogMetadata.next_batch) = s.(ValueIndex.meta).(ValueLogMetadata.next_batch).

#[export] Instance keeps_preorder : PreOrder keeps.
Proof.
  split; [by intros s|]. intros s1 s2 s3 [F1 M1] [F2 M2]. split; [|congruence].
  intros f Hf. by rewrite F2, F1.
Qed.

Definition keeping {A} (f : st ValueIndex.ValueIndex A) : Prop := ∀ s a s', f s = Ok (a, s') → keeps s s'.

Lemma keeping_ret {A} (a : A) : keeping (mret a).
Proof. by intros s a' s' [= <- <-]. Qed.

Lemma keeping_lift {A} (a : outcome A) : keeping (lift a).
Proof. intros s a' s' E. unfold lift in E. apply bind_Ok_inv in E as (? & _ & [= <- <-]). reflexivity. Qed.

Lemma keeping_bind {A B} (f : st ValueIndex.ValueIndex A) (g : A → st ValueIndex.ValueIndex B) :
  keeping f → (∀ a, keeping (g a)) → keeping (f ≫= g).
Proof.
  intros Hf Hg s b s' E. unfold mbind, st_bind in E. destruct (f s) as [[a s1]| | |] eqn:E1; [|done..].
  etrans; [by eapply Hf|by eapply Hg].
Qed.

Lemma keeping_gets {A} (f : ValueIndex.ValueIndex → A) : keeping (ValueIndex.gets f).
Proof. by intros s a s' [= _ <-]. Qed.

Lemma keeping_set_pages ps : keeping (ValueIndex.set_pages ps).
Proof. by intros s a s' [= _ <-]. Qed.

Lemma keeping_meta {A} (f : ValueLogMetadata.ValueLogMetadata → outcome (A * ValueLogMetadata.ValueLogMetadata)) :
  (∀ m a m', f m = Ok (a, m') → m'.(ValueLogMetadata.next_batch) = m.(ValueLogMetadata.next_batch)) →
  keeping (ValueIndex.on_meta f).
Proof.
  intros Hf s a s' E. unfold ValueIndex.on_meta in E. apply bind_Ok_inv in E as ([a1 m] & E1 & [= <- <-]).
  split; [done|]. by eapply Hf.
Qed.

Lemma keeping_files {A} id (f : Disk → outcome (A * Disk)) :
  (∀ d a d', f d = Ok (a, d') → ∀ g, g ≠ ValueIndexFile id → d' !! g = d !! g) → keeping (ValueIndex.on_files f).
Proof.
  intros Hf s a s' E. unfold ValueIndex.on_files in E. apply bind_Ok_inv in E as ([a1 d] & E1 & [= <- <-]).
  split; [|done]. intros g Hg. by eapply Hf.
Qed.

Lemma keeping_sync_page idx : keeping (ValueIndex.sync_page idx).
Proof.
  apply keeping_bind; [apply keeping_gets|]. intros ps. apply keeping_bind; [apply keeping_lift|]. intros [k p].
  apply keeping_bind; [|by intros [u p']; apply keeping_bind; [apply keeping_set_pages|intros; apply keeping_ret]].
  apply (keeping_files (IndexPage.identifier (IndexPage.header p))). intros d a d' E g Hg.
  apply bind_Ok_inv in E as ([[u p'] d1] & E & [= <- <-]). unfold IndexPage.sync in E.
  destruct (negb _); [by injection E as <- <- <-|]. apply bind_Ok_inv in E as (d2 & E & [= <- <- <-]).
  unfold disk.write in E. apply bind_Ok_inv in E as (c & _ & [= <-]). by apply lookup_insert_ne.
Qed.

Lemma keeping_create_new_page b : keeping (ValueIndex.create_new_page b).
Proof.
  apply keeping_bind; [|intros id; apply keeping_bind; [apply keeping_gets|intros; apply keeping_set_pages]].
  apply keeping_meta. intros m a m' E. apply bind_Ok_inv in E as (n & _ & [= <- <-]). done.
Qed.

Lemma keeping_remove_page_file id : keeping (ValueIndex.remove_page_file id).
Proof.
  apply (keeping_files id). intros d a d' E g Hg. unfold disk.remove_file in E.
  destruct (d !! ValueIndexFile id); [|done]. injection E as <- <-. by apply lookup_delete_ne.
Qed.

End keeping.

#[export] Hint Resolve keeping_ret keeping_lift keeping_gets keeping_set_pages keeping_sync_page
  keeping_create_new_page keeping_remove_page_file : keeping.

(** Follows the binds, conditionals and matches of an operation. *)
Ltac keeping :=
  repeat first
    [ solve [eauto with keeping]
    | apply keeping_bind; [|intros]
    | match goal with |- keeping (match ?x with _ => _ end) => destruct x end ].

Section ops.
Context `{BitVec} `{Compression}.

Lemma keeping_add_batch b n : keeping (ValueIndex.add_batch b n).
Proof. unfold ValueIndex.add_batch, ValueIndex.expand_last. keeping. Qed.

Lemma keeping_remove_pages ps : keeping (ValueIndex.remove_pages ps).
Proof.
  induction ps as [|[k p] ps IH]; cbn [ValueIndex.remove_pages]; [keeping|]. destruct (_ || _); [|keeping].
  apply keeping_meta. intros m a m' E. apply bind_Ok_inv in E as (m1 & E & [= <- <-]).
  apply bind_Ok_inv in E as (? & _ & [= <-]). done.
Qed.

Lemma keeping_mark vid : keeping (ValueIndex.mark_value_as_deleted vid).
Proof. unfold ValueIndex.mark_value_as_deleted. pose proof keeping_remove_pages. keeping. Qed.

Lemma keeping_count b : keeping (ValueIndex.count_active_entries b).
Proof. unfold ValueIndex.count_active_entries. keeping. Qed.

End ops.

(** ** The state of the log *)

Section inv.
Context `{BitVecLaws} `{CompressionLaws} `{LruPopLaws ValueBatch.ValueBatch}.
Context (io : IoMode).

Abbreviation ValueLog := ValueLog.ValueLog.

(** The files hold the batches [V]. *)
Definition batches_ok (d : Disk) (V : gmap N (list byte)) : Prop :=
  ∀ id data, V !! id = Some data → disk.read d (ValueFile id) 0 = Ok data.

(** Cached batches are among [V], in the shard of their identifier. *)
Definition caches_ok (cs : list (cache ValueBatch.ValueBatch)) (V : gmap N (list byte)) : Prop :=
  length cs = N.to_nat ValueLog.NUM_SHARDS ∧
  ∀ i c id b, cs !! i = Some c → cache_view c !! id = Some b →
    ValueLog.batch_to_shard_id id = i ∧ V !! id = Some b.(ValueBatch.data).

(** The log stands for the contents [V] of its batches, and for the flags [B] of the
    batches from [first] on. *)
Record vlog_ok (s : ValueLog) (stored : list byte) (first : N) (B : list (list bool)) (id0 : N)
    (V : gmap N (list byte)) : Prop := {
  vo_wal : idle io (ValueLog.wal_of s) stored;
  vo_index : index_ok s.(ValueLog.index) first B id0;
  vo_next : s.(ValueLog.index).(ValueIndex.meta).(ValueLogMetadata.next_batch) = (first + N.of_nat (length B))%N;
  vo_files : batches_ok s.(ValueLog.index).(ValueIndex.files) V;
  vo_caches : caches_ok s.(ValueLog.batch_caches) V;
  vo_old : ∀ id data, V !! id = Some data → (id < first + N.of_nat (length B))%N;
}.

Lemma vshard_lt cs V id : caches_ok cs V → ValueLog.batch_to_shard_id id < length cs.
Proof.
  intros [Hl _]. rewrite Hl. unfold ValueLog.batch_to_shard_id. pose proof (N.mod_lt id ValueLog.NUM_SHARDS ltac:(done)). lia.
Qed.

Lemma vget_shard s V id :
  caches_ok s.(ValueLog.batch_caches) V →
  ∃ c, s.(ValueLog.batch_caches) !! ValueLog.batch_to_shard_id id = Some c ∧
    ValueLog.get_shard (ValueLog.batch_to_shard_id id) s = Ok (c, s).
Proof.
  intros Hc. destruct (lookup_lt_is_Some_2 _ _ (vshard_lt _ _ id Hc)) as [c E]. exists c. split; [done|].
  unfold ValueLog.get_shard. by rewrite E.
Qed.

(** A shard replaced by one whose entries are among the batches. *)
Lemma vset_shard cs V V' i c :
  caches_ok cs V →
  (∀ j c' id b, j ≠ i → cs !! j = Some c' → cache_view c' !! id = Some b → V' !! id = V !! id) →
  (∀ id b, cache_view c !! id = Some b → ValueLog.batch_to_shard_id id = i ∧ V' !! id = Some b.(ValueBatch.data)) →
  caches_ok (<[i := c]> cs) V' ∨ length cs <= i.
Proof.
  intros [Hl Hv] Hsame Hc. destruct (decide (i < length cs)) as [Hi|Hi]; [left|right; lia].
  split; [by rewrite length_insert|]. intros j c' id b Hj Hb. destruct (decide (j = i)) as [->|Hne].
  - rewrite list_lookup_insert_eq in Hj by done. injection Hj as <-. by apply Hc.
  - rewrite list_lookup_insert_ne in Hj by done. destruct (Hv j c' id b Hj Hb) as [Hs HV]. split; [done|].
    by rewrite (Hsame j c' id b).
Qed.

(** Reading a batch, from the cache or from its file. *)
Lemma get_batch_hit s stored first B id0 V id data :
  vlog_ok s stored first B id0 V → V !! id = Some data →
  ∃ s', ValueLog.get_batch id s = Ok (ValueBatch.mk data, s') ∧ vlog_ok s' stored first B id0 V ∧
    s'.(ValueLog.wal) = s.(ValueLog.wal) ∧ s'.(ValueLog.index) = s.(ValueLog.index).
Proof.
  intros [K1 K2 K3 K4 K5 K6] HV. destruct (vget_shard s V id K5) as (c & Hc & E).
  set (i := ValueLog.batch_to_shard_id id) in *.
  assert (∀ c', (∀ id' b, cache_view c' !! id' = Some b → ValueLog.batch_to_shard_id id' = i ∧ V !! id' = Some b.(ValueBatch.data)) →
    caches_ok (<[i := c']> s.(ValueLog.batch_caches)) V) as Hset.
  { intros c' Hc'. destruct (vset_shard _ V V i c' K5) as [?|?]; [done|done|done|]. apply lookup_lt_Some in Hc. lia. }
  unfold ValueLog.get_batch. fold i. run_st E. destruct (cache_view_get c id) as [Hget Hsame].
  destruct (cache_get c id) as [hit c1]. simpl in Hget, Hsame. subst hit.
  assert (∀ id' b, cache_view c1 !! id' = Some b → ValueLog.batch_to_shard_id id' = i ∧ V !! id' = Some b.(ValueBatch.data)) as Hc1
    by (rewrite Hsame; intros id' b; by apply (proj2 K5)).
  change ((ValueLog.set_shard i c1 ≫= ?f) s)
    with (f () (ValueLog.mk s.(ValueLog.wal) s.(ValueLog.index) (<[i := c1]> s.(ValueLog.batch_caches)))). cbv beta.
  destruct (cache_view c !! id) as [[data']|] eqn:Eh.
  - destruct (proj2 K5 i c id _ Hc Eh) as [_ HV']. rewrite HV in HV'. injection HV' as <-.
    eexists. split; [done|]. split; [|done]. split; try done. by apply Hset.
  - assert (ValueLog.on_files (λ d, data ← ValueLog.io_context "Failed to read value log batch" (disk.read d (ValueFile id) 0); Ok (data, d))
      (ValueLog.mk s.(ValueLog.wal) s.(ValueLog.index) (<[i := c1]> s.(ValueLog.batch_caches)))
      = Ok (data, ValueLog.mk s.(ValueLog.wal) s.(ValueLog.index) (<[i := c1]> s.(ValueLog.batch_caches)))) as E1.
    { unfold ValueLog.on_files, ValueLog.on_index, ValueIndex.on_files. cbn [ValueLog.index ValueLog.wal ValueLog.batch_caches].
      rewrite (K4 id data HV). simpl. by destruct (ValueLog.index s). }
    run_st E1. eexists. split; [done|]. split; [|done]. split; try done. cbn [ValueLog.batch_caches].
    rewrite list_insert_insert_eq. apply Hset. intros id' b Hb.
    eapply lookup_weaken in Hb; [|apply cache_view_put]. apply lookup_insert_Some in Hb as [[<- <-]|[_ Hb]]; [done|by apply Hc1].
Qed.

(** A batch whose file is gone cannot be read. *)
Lemma get_batch_missing s V id :
  caches_ok s.(ValueLog.batch_caches) V → V !! id = None → s.(ValueLog.index).(ValueIndex.files) !! ValueFile id = None →
  ValueLog.get_batch id s = Err (Io "Failed to read value log batch" "").
Proof.
  intros Hcs HV Hf. destruct (vget_shard s V id Hcs) as (c & Hc & E). unfold ValueLog.get_batch.
  set (i := ValueLog.batch_to_shard_id id) in *. run_st E.
  destruct (cache_view_get c id) as [Hget _]. destruct (cache_get c id) as [hit c1]. simpl in Hget. subst hit.
  destruct (cache_view c !! id) as [b|] eqn:Eh; [destruct (proj2 Hcs i c id b Hc Eh); congruence|].
  unfold mbind, st_bind, ValueLog.set_shard, ValueLog.on_files, ValueLog.on_index, ValueIndex.on_files, disk.read, disk.read_uncompressed.
  cbn [ValueLog.index]. by rewrite Hf.
Qed.

(** The index depends on its own files and counters only. *)
Lemma index_ok_frame (s s' : ValueIndex.ValueIndex) first B id0 :
  index_ok s first B id0 → s'.(ValueIndex.pages) = s.(ValueIndex.pages) →
  s'.(ValueIndex.meta).(ValueLogMetadata.minimum_index_page) = s.(ValueIndex.meta).(ValueLogMetadata.minimum_index_page) →
  s'.(ValueIndex.meta).(ValueLogMetadata.next_index_page) = s.(ValueIndex.meta).(ValueLogMetadata.next_index_page) →
  (∀ id, s'.(ValueIndex.files) !! ValueIndexFile id = s.(ValueIndex.files) !! ValueIndexFile id) →
  index_ok s' first B id0.
Proof.
  intros [K1 K2 K3 K4 K5 K6] Hp Hm Hn Hf. split; rewrite ?Hp, ?Hm, ?Hn; try done; intros *; rewrite Hf; auto.
Qed.

Lemma batches_frame d d' V :
  batches_ok d V → (∀ id data, V !! id = Some data → d' !! ValueFile id = d !! ValueFile id) → batches_ok d' V.
Proof. intros Hb Hf id data HV. rewrite <-(Hb id data HV). unfold disk.read, disk.read_uncompressed. by rewrite (Hf id data HV). Qed.

(** ** Writing a batch *)

(** A new file of values. *)
Lemma put_batch_ok s stored first B id0 V id data :
  vlog_ok s stored first B id0 V → V !! id = None → (N.of_nat (length data) < u32_bound)%N →
  ∃ c, disk.write s.(ValueLog.index).(ValueIndex.files) (ValueFile id) data
      = Ok (<[ValueFile id := c]> s.(ValueLog.index).(ValueIndex.files)) ∧
    batches_ok (<[ValueFile id := c]> s.(ValueLog.index).(ValueIndex.files)) (<[id := data]> V) ∧
    ∀ sh, s.(ValueLog.batch_caches) !! ValueLog.batch_to_shard_id id = Some sh →
      caches_ok (<[ValueLog.batch_to_shard_id id := cache_put sh id (ValueBatch.mk data)]> s.(ValueLog.batch_caches)) (<[id := data]> V).
Proof.
  intros [K1 K2 K3 K4 K5 K6] HV Hl. destruct (compress_total data Hl) as [c Hc]. exists c. unfold disk.write. rewrite Hc. split; [done|].
  split.
  - intros id' data' Hd. unfold disk.read, disk.read_uncompressed. apply lookup_insert_Some in Hd as [[<- <-]|[Hne Hd]].
    + rewrite lookup_insert_eq. simpl. by rewrite drop_0, (decompress_compress _ _ Hc).
    + rewrite lookup_insert_ne by congruence. by apply K4.
  - intros sh Hsh. destruct (vset_shard _ V (<[id := data]> V) (ValueLog.batch_to_shard_id id)
      (cache_put sh id (ValueBatch.mk data)) K5) as [?|?]; [| |done|apply lookup_lt_Some in Hsh; lia].
    + intros j c' id' b Hj Hc' Hb. apply lookup_insert_ne. intros <-. by destruct (proj2 K5 j c' id b Hc' Hb).
    + intros id' b Hb. eapply lookup_weaken in Hb; [|apply cache_view_put].
      apply lookup_insert_Some in Hb as [[<- <-]|[Hne Hb]]; [by rewrite lookup_insert_eq|].
      rewrite lookup_insert_ne by done. by apply (proj2 K5 _ sh).
Qed.

(** The batch of a list of entries: its contents and where the entries are. *)
Definition batch_of (es : EntryList) (offs : list N) (data : list byte) : Prop :=
  ∃ b, data = ValueBatchBuilder.finish_data b ∧ ValueBatchBuilder.num_values b = N.of_nat (length es) ∧
    (N.of_nat (batch_room es) < u32_bound)%N ∧
    Forall2 (λ off e, stored_at b.(ValueBatchBuilder.value_data) off e.1 e.2) offs es ∧
    (∀ i off, offs !! i = Some off → (N.of_nat (8 * i) <= off)%N) ∧
    ∀ off, offs !! 0 = Some off → off = 0%N.

(** The batch can be written: its length and the next identifiers fit. *)
Record room (s : ValueLog) (es : EntryList) : Prop := {
  room_data : (N.of_nat (4 + batch_room es) < u32_bound)%N;
  room_page : (s.(ValueLog.index).(ValueIndex.meta).(ValueLogMetadata.next_index_page) + 1 < u64_bound)%N;
  room_batch : (s.(ValueLog.index).(ValueIndex.meta).(ValueLogMetadata.next_batch) + 1 < u64_bound)%N;
}.

(** What [write_values] did when it adds the batch to the index. *)
Definition with_batch (s : ValueLog) (id : N) (c : list byte) : ValueIndex.ValueIndex :=
  let ix := s.(ValueLog.index) in
  let m := ix.(ValueIndex.meta) in
  ValueIndex.mk ix.(ValueIndex.pages)
    (ValueLogMetadata.mk (id + 1) m.(ValueLogMetadata.minimum_batch) m.(ValueLogMetadata.next_index_page)
      m.(ValueLogMetadata.minimum_index_page))
    (<[ValueFile id := c]> ix.(ValueIndex.files)).

Lemma with_batch_ok s stored first B id0 V id c :
  vlog_ok s stored first B id0 V → index_ok (with_batch s id c) first B id0.
Proof.
  intros [_ K2 _ _ _ _]. apply (index_ok_frame s.(ValueLog.index)); [done|done|done|done|].
  intros q. by apply lookup_insert_ne.
Qed.

Lemma write_values_run s stored first B id0 V es :
  vlog_ok s stored first B id0 V → room s es →
  let id := (first + N.of_nat (length B))%N in
  ∃ offs data c sh, batch_of es offs data ∧ V !! id = None ∧
    batches_ok (<[ValueFile id := c]> s.(ValueLog.index).(ValueIndex.files)) (<[id := data]> V) ∧
    let caches := <[ValueLog.batch_to_shard_id id := cache_put sh id (ValueBatch.mk data)]> s.(ValueLog.batch_caches) in
    caches_ok caches (<[id := data]> V) ∧
    ValueLog.write_values es s =
      ('(_, ix) ← ValueIndex.add_batch id (length es) (with_batch s id c);
       Ok (pair id <$> offs, ValueLog.mk s.(ValueLog.wal) ix caches)).
Proof.
  intros Hok [R1 R3 R4] id. pose proof Hok as [K1 K2 K3 K4 K5 K6].
  destruct (built_batch id es ltac:(lia)) as (offs & b & Eb & Hbid & Hst & Hlen & Hoffs & Hoff0 & Hnum).
  set (data := ValueBatchBuilder.finish_data b).
  assert (V !! id = None) as Hnew.
  { destruct (V !! id) as [x|] eqn:Ex; [|done]. apply K6 in Ex. unfold id in Ex. lia. }
  destruct (put_batch_ok s stored first B id0 V id data Hok Hnew) as (c & Ew & Hf1 & Hc1).
  { unfold data, ValueBatchBuilder.finish_data. rewrite length_app, length_le_bytes. lia. }
  destruct (vget_shard s V id K5) as (sh & Hsh & Esh). specialize (Hc1 sh Hsh).
  exists offs, data, c, sh. split; [exists b; split_and!; [done|done|lia|done|done|done]|]. do 2 (split; [done|]).
  cbv zeta. split; [done|].
  set (ix := s.(ValueLog.index)) in *. set (m := ix.(ValueIndex.meta)) in *.
  set (m1 := ValueLogMetadata.mk (id + 1) m.(ValueLogMetadata.minimum_batch) m.(ValueLogMetadata.next_index_page)
    m.(ValueLogMetadata.minimum_index_page)).
  unfold ValueLog.write_values, ValueLog.make_batch.
  assert (ValueLog.on_meta ValueLogMetadata.generate_next_value_batch_id s
    = Ok (id, ValueLog.mk s.(ValueLog.wal) (ValueIndex.mk ix.(ValueIndex.pages) m1 ix.(ValueIndex.files)) s.(ValueLog.batch_caches))) as E1.
  { unfold ValueLog.on_meta, ValueLog.on_index, ValueIndex.on_meta, ValueLogMetadata.generate_next_value_batch_id, u64_add.
    fold ix m. rewrite (proj2 (N.ltb_lt _ _) R4). simpl. unfold m1, id. by rewrite K3. }
  unfold mbind at 1, st_bind at 1, mbind at 1, st_bind at 1. rewrite E1. cbn [mret st_ret]. run_lift Eb.
  unfold ValueLog.finish. rewrite Hbid. fold data. rewrite Hnum, Nat2N.id.
  match goal with |- context [ValueLog.on_files ?f ≫= _] => set (wf := f) end.
  unfold mbind at 1, st_bind at 1, mbind at 1, st_bind at 1.
  assert (ValueLog.on_files wf (ValueLog.mk s.(ValueLog.wal) (ValueIndex.mk ix.(ValueIndex.pages) m1 ix.(ValueIndex.files)) s.(ValueLog.batch_caches))
    = Ok ((), ValueLog.mk s.(ValueLog.wal) (with_batch s id c) s.(ValueLog.batch_caches))) as E2.
  { unfold ValueLog.on_files, ValueLog.on_index, ValueIndex.on_files, wf. cbn [ValueLog.index ValueIndex.files]. by rewrite Ew. }
  rewrite E2. unfold mbind, st_bind, ValueLog.get_shard. cbn [ValueLog.batch_caches]. rewrite Hsh. simpl.
  unfold ValueLog.on_index. cbn [ValueLog.index].
  by destruct (ValueIndex.add_batch id (length es) (with_batch s id c)) as [[[] ix2]| | |].
Qed.

Lemma write_values_ok s stored first B id0 V es :
  vlog_ok s stored first B id0 V → room s es → length es + 2 <= MAX_SIZE →
  let id := (first + N.of_nat (length B))%N in
  ∃ offs data s', ValueLog.write_values es s = Ok (pair id <$> offs, s') ∧ batch_of es offs data ∧
    vlog_ok s' stored first (B ++ [replicate (length es) true]) id0 (<[id := data]> V).
Proof.
  intros Hok Hroom Hfl id. pose proof Hok as [K1 K2 K3 K4 K5 K6].
  destruct (write_values_run s stored first B id0 V es Hok Hroom) as (offs & data & c & sh & Hb & Hnew & Hf1 & Hc1 & E).
  fold id in Hnew, Hf1, Hc1, E.
  destruct (add_batch_ok (with_batch s id c) first B id0 (length es) (with_batch_ok _ _ _ _ _ _ id c Hok) Hfl (room_page _ _ Hroom))
    as (ix2 & Ea & Hix2). fold id in Ea.
  destruct (keeping_add_batch _ _ _ _ _ Ea) as [Hk1 Hk2]. rewrite Ea in E.
  eexists offs, data, _. split; [exact E|]. split; [done|].
  split; cbn [ValueLog.index ValueLog.wal ValueLog.batch_caches]; try done.
  - unfold ValueLog.wal_of in *. cbn [ValueLog.index ValueLog.wal].
    apply (idle_frame io (mkWal s.(ValueLog.wal).(log_status) s.(ValueLog.wal).(log_writer) s.(ValueLog.wal).(log_phase)
      s.(ValueLog.index).(ValueIndex.files))); [|done].
    intros i. rewrite Hk1 by done. by apply lookup_insert_ne.
  - rewrite Hk2, length_app. cbn [with_batch ValueIndex.meta ValueLogMetadata.next_batch length]. unfold id. lia.
  - eapply batches_frame; [exact Hf1|]. intros id' data' _. by rewrite Hk1 by done.
  - intros id' data' Hd. rewrite length_app. simpl. apply lookup_insert_Some in Hd as [[<- _]|[_ Hd]]; [unfold id; lia|].
    apply K6 in Hd. lia.
Qed.

(** A batch that is too large for a page of the index. *)
Lemma write_values_panics s stored first B id0 V es :
  vlog_ok s stored first B id0 V → room s es → MAX_SIZE < length es + 2 →
  ValueLog.write_values es s = Panic (batch_too_large (length es)).
Proof.
  intros Hok Hroom Hfl.
  destruct (write_values_run s stored first B id0 V es Hok Hroom) as (offs & data & c & sh & _ & _ & _ & _ & ->).
  by rewrite (add_batch_panics (with_batch s _ c) first B id0 _ _ (with_batch_ok _ _ _ _ _ _ _ c Hok) Hfl (room_page _ _ Hroom)).
Qed.

(** ** Removing a batch *)

Lemma on_index_Ok {A} (f : st ValueIndex.ValueIndex A) s a ix :
  f s.(ValueLog.index) = Ok (a, ix) →
  ValueLog.on_index f s = Ok (a, ValueLog.mk s.(ValueLog.wal) ix s.(ValueLog.batch_caches)).
Proof. intros E. unfold ValueLog.on_index. by rewrite E. Qed.

Lemma vcount_ok s stored first B id0 V id b :
  vlog_ok s stored first B id0 V → (first <= id)%N → B !! N.to_nat (id - first) = Some b →
  ValueLog.on_index (ValueIndex.count_active_entries id) s = Ok (active_count b, s).
Proof.
  intros Hok Hid Hb. rewrite (on_index_Ok _ _ _ _ (index_count _ _ _ _ _ _ (vo_index _ _ _ _ _ _ Hok) Hid Hb)).
  by destruct s.
Qed.

Lemma skip_batches_ok n id m s c :
  ValueLog.on_index (ValueIndex.count_active_entries id) s = Ok (c, s) →
  ValueLog.skip_batches n id m s = Ok (if 0 <? c then m else (m + N.of_nat n)%N, s).
Proof.
  intros Hc. revert m. induction n as [|n IH]; intros m; cbn [ValueLog.skip_batches].
  - rewrite N.add_0_r. by destruct (0 <? c).
  - run_st Hc. destruct (0 <? c) eqn:Ec; [done|]. rewrite IH. do 2 f_equal. lia.
Qed.

(** The minimum the manifest gets when a batch with [c] active values is removed. *)
Definition new_minimum (m : ValueLogMetadata.ValueLogMetadata) (id : N) (c : nat) : N :=
  if 0 <? c then id else (m.(ValueLogMetadata.next_batch) - 1)%N.

(** The log without the batch, and with a minimum in the manifest. *)
Definition without_batch (s : ValueLog) (id : N) (sh : cache ValueBatch.ValueBatch)
    (m : ValueLogMetadata.ValueLogMetadata) : ValueLog :=
  ValueLog.mk s.(ValueLog.wal)
    (ValueIndex.mk s.(ValueLog.index).(ValueIndex.pages) m (delete (ValueFile id) s.(ValueLog.index).(ValueIndex.files)))
    (<[ValueLog.batch_to_shard_id id := cache_pop sh id]> s.(ValueLog.batch_caches)).

Definition set_minimum (m : ValueLogMetadata.ValueLogMetadata) (n : N) : ValueLogMetadata.ValueLogMetadata :=
  ValueLogMetadata.mk m.(ValueLogMetadata.next_batch) n m.(ValueLogMetadata.next_index_page) m.(ValueLogMetadata.minimum_index_page).

Lemma without_batch_ok s stored first B id0 V id sh n :
  vlog_ok s stored first B id0 V → s.(ValueLog.batch_caches) !! ValueLog.batch_to_shard_id id = Some sh →
  vlog_ok (without_batch s id sh (set_minimum s.(ValueLog.index).(ValueIndex.meta) n)) stored first B id0 (delete id V).
Proof.
  intros [K1 K2 K3 K4 K5 K6] Hsh. split; unfold without_batch, set_minimum; cbn [ValueLog.index ValueLog.wal ValueLog.batch_caches].
  - apply (idle_frame io (ValueLog.wal_of s)); [|done]. intros i. by apply lookup_delete_ne.
  - apply (index_ok_frame s.(ValueLog.index)); [done|done|done|done|]. intros q. by apply lookup_delete_ne.
  - done.
  - intros id' data Hd. apply lookup_delete_Some in Hd as [Hne Hd]. rewrite <-(K4 id' data Hd).
    unfold disk.read, disk.read_uncompressed. cbn [ValueIndex.files]. by rewrite lookup_delete_ne by congruence.
  - destruct (vset_shard _ V (delete id V) (ValueLog.batch_to_shard_id id) (cache_pop sh id) K5) as [?|?];
      [| |done|apply lookup_lt_Some in Hsh; lia].
    + intros j c' id' b Hj Hc' Hb. apply lookup_delete_ne. intros <-. by destruct (proj2 K5 j c' id b Hc' Hb).
    + intros id' b. rewrite cache_view_pop. intros [Hne Hb]%lookup_delete_Some. rewrite lookup_delete_ne by done.
      by apply (proj2 K5 _ sh).
  - intros id' data [_ Hd]%lookup_delete_Some. by eapply K6.
Qed.

Lemma set_minimum_same m : set_minimum m m.(ValueLogMetadata.minimum_batch) = m.
Proof. by destruct m. Qed.

Lemma remove_batch_ok s stored first B id0 V id data b :
  vlog_ok s stored first B id0 V → V !! id = Some data → (first <= id)%N → B !! N.to_nat (id - first) = Some b →
  let m := s.(ValueLog.index).(ValueIndex.meta) in
  let n := new_minimum m id (active_count b) in
  let oldest := (id <=? N.max m.(ValueLogMetadata.minimum_batch) MIN_VALUE_BATCH_ID)%N in
  if oldest && (n <=? m.(ValueLogMetadata.minimum_batch))%N
  then ValueLog.remove_batch_from_disk id s = Panic "assertion failed: meta.value_log.minimum_batch < offset"
  else ∃ sh, s.(ValueLog.batch_caches) !! ValueLog.batch_to_shard_id id = Some sh ∧
    ValueLog.remove_batch_from_disk id s
      = Ok ((), without_batch s id sh (set_minimum m (if oldest then n else m.(ValueLogMetadata.minimum_batch)))).
Proof.
  intros Hok HV Hid Hb m n oldest. pose proof Hok as [K1 K2 K3 K4 K5 K6]. destruct (vget_shard s V id K5) as (sh & Hsh & Esh).
  pose proof (without_batch_ok s stored first B id0 V id sh m.(ValueLogMetadata.minimum_batch) Hok Hsh) as Hok'.
  fold m in Hok'. rewrite set_minimum_same in Hok'.
  assert (is_Some (s.(ValueLog.index).(ValueIndex.files) !! ValueFile id)) as [f Hf].
  { specialize (K4 id data HV). unfold disk.read, disk.read_uncompressed in K4.
    destruct (s.(ValueLog.index).(ValueIndex.files) !! ValueFile id); [by eexists|done]. }
  pose proof (lookup_lt_Some _ _ _ Hb) as Hlt. fold m in K3.
  assert (∀ r, ValueLog.remove_batch_from_disk id s = r ↔
    (if negb oldest then mret () else
     most_recent ← lift (ValueLogMetadata.get_most_recent_value_batch_id m);
     new_minimum ← ValueLog.skip_batches (N.to_nat (most_recent - id)) id id;
     ValueLog.on_meta (λ m, m ← ValueLogMetadata.set_minimum_value_batch_id m new_minimum; Ok ((), m)))
      (without_batch s id sh m) = r) as Hrun.
  { intros r. unfold ValueLog.remove_batch_from_disk. run_st Esh.
    match goal with |- context [ValueLog.on_files ?g ≫= _] =>
      assert (ValueLog.on_files g s = Ok ((), ValueLog.mk s.(ValueLog.wal) (ValueIndex.mk s.(ValueLog.index).(ValueIndex.pages) m
        (delete (ValueFile id) s.(ValueLog.index).(ValueIndex.files))) s.(ValueLog.batch_caches))) as E1 end.
    { unfold ValueLog.on_files, ValueLog.on_index, ValueIndex.on_files, disk.remove_file. by rewrite Hf. }
    run_st E1. unfold mbind at 1, st_bind at 1. cbn [ValueLog.set_shard].
    unfold mbind at 1, st_bind at 1. cbn [ValueLog.gets]. unfold oldest. rewrite <-N.ltb_antisym. done. }
  destruct oldest; simpl.
  2:{ exists sh. split; [done|]. apply Hrun. simpl. by rewrite set_minimum_same. }
  assert (ValueLogMetadata.get_most_recent_value_batch_id m = Ok (first + N.of_nat (length B) - 1)%N) as Er.
  { unfold ValueLogMetadata.get_most_recent_value_batch_id, ValueLogMetadata.u64_pred. rewrite K3, (proj2 (N.eqb_neq _ 0)) by lia. done. }
  assert (ValueLog.skip_batches (N.to_nat (first + N.of_nat (length B) - 1 - id)) id id (without_batch s id sh m)
    = Ok (n, without_batch s id sh m)) as Es.
  { rewrite (skip_batches_ok _ _ _ _ _ (vcount_ok _ _ _ _ _ _ _ _ Hok' Hid Hb)). unfold n, new_minimum. rewrite K3.
    destruct (0 <? active_count b); do 2 f_equal. lia. }
  destruct (n <=? m.(ValueLogMetadata.minimum_batch))%N eqn:En.
  - apply Hrun. simpl. run_lift Er. run_st Es. unfold ValueLog.on_meta, ValueLog.on_index, ValueIndex.on_meta, ValueLogMetadata.set_minimum_value_batch_id.
    cbn [without_batch ValueLog.index ValueIndex.meta]. rewrite N.ltb_antisym, En. done.
  - exists sh. split; [done|]. apply Hrun. simpl. run_lift Er. run_st Es.
    unfold ValueLog.on_meta, ValueLog.on_index, ValueIndex.on_meta, ValueLogMetadata.set_minimum_value_batch_id.
    cbn [without_batch ValueLog.index ValueIndex.meta]. rewrite N.ltb_antisym, En. done.
Qed.

End inv.

Section spec.
Context `{BitVecLaws} `{CompressionLaws} `{LruPopLaws ValueBatch.ValueBatch}.
Context (io : IoMode).

(** ** Batches *)

Lemma batch_of_total es offs data :
  batch_of es offs data → ValueBatch.total_num_values (ValueBatch.mk data) = Ok (N.of_nat (length es)).
Proof.
  intros (b & -> & Hn & Hr & _). unfold ValueBatch.total_num_values, ValueBatchBuilder.finish_data. cbn [ValueBatch.data].
  rewrite Hn, read_prefix_app by len. f_equal. apply le_roundtrip_u32. pose proof (length_batch_room es). lia.
Qed.

Lemma batch_of_value es offs data i key val :
  batch_of es offs data → es !! i = Some (key, val) →
  ∃ off r, offs !! i = Some off ∧ ValueBatch.get_ref (ValueBatch.mk data) off = Ok r ∧ ValueBatch.get_value r = Ok val.
Proof.
  intros (b & -> & Hn & Hr & Hst & _) Hi. destruct (Forall2_lookup_r _ _ _ _ _ Hst Hi) as (off & Ho & Hs).
  destruct (entry_widths es i key val Hr Hi) as [Hk Hv].
  destruct (get_ref_stored (le_bytes 4 (ValueBatchBuilder.num_values b)) _ off key val ltac:(len) Hs Hk Hv) as (r & E1 & E2).
  by exists off, r.
Qed.

Lemma batch_of_entries es offs data key val more :
  batch_of es offs data → es !! 0 = Some (key, val) → length key < 8 →
  ValueBatch.get_entries (ValueBatch.mk data) (0%N :: more) = Panic "slice index out of range".
Proof.
  intros (b & -> & Hn & Hr & Hst & _ & Hz) Hi Hk. destruct (Forall2_lookup_r _ _ _ _ _ Hst Hi) as (off & Ho & Hs).
  rewrite (Hz off Ho) in Hs. destruct (entry_widths es 0 key val Hr Hi) as [Hk' Hv].
  cbn [ValueBatch.get_entries]. unfold ValueBatchBuilder.finish_data. change ValueBatch.mk with ValueBatch.from_existing.
  rewrite (get_entry_panics _ _ 0%N key val); [done|len|done|simpl; lia|done|done].
Qed.

(** Reading the value of a batch. *)
Lemma value_at_ok s stored first B id0 V id data off r val :
  vlog_ok io s stored first B id0 V → V !! id = Some data →
  ValueBatch.get_ref (ValueBatch.mk data) off = Ok r → ValueBatch.get_value r = Ok val →
  ∃ s', ValueLog.value_at (id, off) s = Ok (val, s') ∧ vlog_ok io s' stored first B id0 V.
Proof.
  intros Hok HV Hr Hv. destruct (get_batch_hit io s stored first B id0 V id data Hok HV) as (s' & E & Hok' & _).
  exists s'. split; [|done]. unfold ValueLog.value_at, ValueLog.get_ref.
  unfold mbind at 1, st_bind at 1. run_st E. unfold lift. rewrite Hr. simpl. by rewrite Hv.
Qed.

(** ** The first batch of the first page *)

(** The page of the oldest batch, which is the first of the page. *)
Lemma oldest_page s first B id0 b :
  index_ok s first B id0 → B !! 0 = Some b →
  ∃ idx k p bs, ValueIndex.find_page_idx s.(ValueIndex.pages) first = Some idx ∧
    s.(ValueIndex.pages) !! idx = Some (k, p) ∧ page_holds p bs ∧
    p.(IndexPage.header).(IndexPage.start_batch) = first ∧ bs !! 0 = Some b.
Proof.
  intros Hok Hb. pose proof (lookup_lt_Some _ _ _ Hb) as Hlt.
  destruct (find_page first _ B first (io_pages _ _ _ _ Hok)) as (idx & k & p & pre & bs & post & Hf & Hi & HB & Hk & Hp & Hs & Hr & _); [lia|].
  exists idx, k, p, bs. destruct pre as [|x pre]; [|simpl in Hk; lia]. simpl in Hk, HB. rewrite N.add_0_r in Hk.
  split_and!; [done|done|done|congruence|]. destruct bs as [|b' bs]; [simpl in Hr; lia|]. subst B. by simpl in *.
Qed.

Lemma first_active s first B id0 b :
  index_ok s first B id0 → B !! 0 = Some (true :: b) →
  ∃ more, ValueIndex.get_active_entries first s = Ok (0%N :: more, s).
Proof.
  intros Hok Hb. destruct (oldest_page s first B id0 _ Hok Hb) as (idx & k & p & bs & Hf & Hi & Hp & Hs & Hb0).
  exists (IndexPage.active_offsets 0 1 b). unfold ValueIndex.get_active_entries. rewrite vgets_bind.
  assert (ValueIndex.find_page_for_batch (ValueIndex.pages s) first = Ok (Some p)) as E1
    by (unfold ValueIndex.find_page_for_batch; by rewrite Hf, Hi).
  run_lift E1. unfold lift, IndexPage.get_active_entries.
  pose proof (batch_range p bs 0 _ Hp Hb0) as E2. rewrite Hs, N.add_0_r in E2. rewrite E2. run_bind.
  rewrite (entry_slice_ok p bs 0 _ Hp Hb0). run_bind. done.
Qed.

(** Marking the batch as compacted works, or panics if it was marked before. *)
Lemma first_compacted s first B id0 b :
  index_ok s first B id0 → B !! 0 = Some b →
  (∃ r s', ValueIndex.mark_batch_as_compacted first s = Ok (r, s')) ∨
  ∃ msg, ValueIndex.mark_batch_as_compacted first s = Panic msg.
Proof.
  intros Hok Hb. destruct (oldest_page s first B id0 _ Hok Hb) as (idx & k & p & bs & Hf & Hi & Hp & Hs & Hb0).
  unfold ValueIndex.mark_batch_as_compacted, ValueIndex.on_batch_page. rewrite vgets_bind.
  assert (expect (ValueIndex.find_page_idx (ValueIndex.pages s) first) "Outdated batch?" = Ok idx) as E1 by (by rewrite Hf).
  assert (expect (ValueIndex.pages s !! idx) "index out of bounds" = Ok (k, p)) as E2 by (by rewrite Hi).
  run_lift E1. run_lift E2. unfold mbind, st_bind, lift, IndexPage.mark_batch_as_compacted, IndexPage.batch_pos.
  rewrite Hs, (proj2 (N.leb_le _ _)) by lia. simpl. rewrite N.sub_diag. change (N.to_nat 0) with 0.
  destruct (IndexPage.batches p !! 0) as [[]|] eqn:E0; [left; by eexists _, _|right; by eexists..].
Qed.

(** ** Deleting a value *)

(** The log entry of a deletion. *)
Lemma store_deletion s stored first B id0 V page_id off :
  vlog_ok io s stored first B id0 V →
  ∃ s', ValueLog.on_wal (λ w, WalCalls.store_entries io w [LDeleteValue page_id off]) s
      = Ok (N.of_nat (length (stored ++ LogEntry.encode (LDeleteValue page_id off))), s') ∧
    vlog_ok io s' (stored ++ LogEntry.encode (LDeleteValue page_id off)) first B id0 V ∧
    s'.(ValueLog.wal).(log_status).(LogStatus.offset_pos) = s.(ValueLog.wal).(log_status).(LogStatus.offset_pos) ∧
    s'.(ValueLog.index).(ValueIndex.meta) = s.(ValueLog.index).(ValueIndex.meta) ∧
    ∀ q, s'.(ValueLog.index).(ValueIndex.files) !! ValueIndexFile q = s.(ValueLog.index).(ValueIndex.files) !! ValueIndexFile q.
Proof.
  intros [K1 K2 K3 K4 K5 K6]. destruct (wal_store_entries_ok io _ stored [LDeleteValue page_id off] K1) as (w & E & Hi & Ho & Hoff).
  replace (concat (LogEntry.encode <$> [LDeleteValue page_id off])) with (LogEntry.encode (LDeleteValue page_id off)) in *
    by (cbn [fmap list_fmap concat]; by rewrite app_nil_r).
  exists (ValueLog.with_wal s w). unfold ValueLog.on_wal. rewrite E. split; [done|].
  split; [|split; [exact Hoff|split; [done|intros q; by apply Ho]]].
  split; cbn [ValueLog.with_wal ValueLog.index ValueLog.wal ValueLog.batch_caches].
  - unfold ValueLog.wal_of. by destruct w.
  - apply (index_ok_frame s.(ValueLog.index)); [done|done|done|done|]. intros q. by apply Ho.
  - done.
  - eapply batches_frame; [exact K4|]. intros id data _. by apply Ho.
  - done.
  - done.
Qed.

(** The index part of a deletion. *)
Lemma vmark_ok s stored first B id0 V id b j :
  vlog_ok io s stored first B id0 V → (first <= id)%N → B !! N.to_nat (id - first) = Some b → b !! N.to_nat j = Some true →
  ∃ r s' dropped B' id1, ValueLog.on_index (ValueIndex.mark_value_as_deleted (id, j)) s = Ok (r, s') ∧
    clear B (N.to_nat (id - first)) b j = dropped ++ B' ∧ Forall (Forall (λ x, x = false)) dropped ∧
    (∃ idx, ValueIndex.find_page_idx s.(ValueLog.index).(ValueIndex.pages) id = Some idx ∧ r.1 = (id0 + N.of_nat idx)%N) ∧
    vlog_ok io s' stored (first + N.of_nat (length dropped)) B' id1 V.
Proof.
  intros [K1 K2 K3 K4 K5 K6] Hid Hb Hj. pose proof (index_mark _ first B id0 id b j K2 Hid Hb) as Hm. rewrite Hj in Hm.
  destruct Hm as (r & ix & dr & B' & id1 & E & HB & Hd & Hok & (idx & Hidx & Hpg & _) & _ & _). pose proof (keeping_mark _ _ _ _ E) as [F1 F2].
  eexists r, _, dr, B', id1. split; [by apply on_index_Ok|]. split; [done|]. split; [done|]. split; [by exists idx|].
  assert (length B = length dr + length B') as Hlen.
  { apply (f_equal length) in HB. unfold clear in HB. by rewrite length_insert, length_app in HB. }
  split; cbn [ValueLog.index ValueLog.wal ValueLog.batch_caches].
  - apply (idle_frame io (ValueLog.wal_of s)); [|done]. intros i. by apply F1.
  - done.
  - rewrite F2, K3, Hlen. lia.
  - eapply batches_frame; [exact K4|]. intros q data _. by apply F1.
  - done.
  - intros q data Hq. apply K6 in Hq. rewrite Hlen in Hq. lia.
Qed.

(** The first flag stays set when another one is cleared. *)
Lemma clear_first B id b0 b j dropped B' :
  B !! 0 = Some (true :: b0) → B !! N.to_nat (id - 1) = Some b → (1 <= id)%N → (id, j) ≠ (1%N, 0%N) →
  clear B (N.to_nat (id - 1)) b j = dropped ++ B' → Forall (Forall (λ x, x = false)) dropped →
  dropped = [] ∧ ∃ b1, B' !! 0 = Some (true :: b1).
Proof.
  intros Hfst Hb Hid Hne HB Hd.
  assert (∃ b1, clear B (N.to_nat (id - 1)) b j !! 0 = Some (true :: b1)) as [b1 E].
  { unfold clear. destruct (decide (N.to_nat (id - 1) = 0)) as [Hz|Hz].
    - rewrite Hz in *. rewrite list_lookup_insert_eq by (by eapply lookup_lt_Some). rewrite Hfst in Hb. injection Hb as <-.
      destruct (N.to_nat j) as [|j'] eqn:Ej; [|by eexists]. exfalso. apply Hne. f_equal; lia.
    - rewrite list_lookup_insert_ne by done. by exists b0. }
  rewrite HB in E. destruct dropped as [|d dr]; [split; [done|by exists b1]|]. simpl in E. injection E as ->.
  apply Forall_cons in Hd as [Hd _]. apply Forall_cons in Hd as [Hd _]. done.
Qed.

Lemma active_first b : 0 < active_count (true :: b).
Proof. unfold active_count. rewrite filter_cons_True by done. simpl. lia. Qed.

(** Compacting the oldest batch, which has a value with a short key in use. *)
Lemma compact_panics s stored first B id0 V es offs data key val b :
  vlog_ok io s stored first B id0 V → V !! first = Some data → batch_of es offs data →
  es !! 0 = Some (key, val) → length key < 8 → B !! 0 = Some (true :: b) → length (true :: b) <= length es →
  ∃ msg, ValueLog.try_to_compact first s = Panic msg.
Proof.
  intros Hok HV Hes Hkey Hk Hb Hlen. destruct (get_batch_hit io s stored first B id0 V first data Hok HV) as (s1 & E1 & Hok1 & _).
  unfold ValueLog.try_to_compact. run_st E1. run_lift (batch_of_total es offs data Hes). rewrite Nat2N.id.
  assert (B !! N.to_nat (first - first) = Some (true :: b)) as Hb' by (by rewrite N.sub_diag).
  run_st (vcount_ok io _ _ _ _ _ _ _ _ Hok1 (N.le_refl first) Hb').
  assert (active_count (true :: b) <= length es) as Hc.
  { etrans; [|exact Hlen]. unfold active_count. apply length_filter. }
  assert ((if length es * 100 =? 0 then Panic "attempt to divide by zero"
    else Ok (active_count (true :: b) * 100 / (length es * 100))) = Ok (active_count (true :: b) * 100 / (length es * 100))) as E2.
  { rewrite (proj2 (Nat.eqb_neq _ _)); [done|]. simpl in Hlen. lia. }
  run_lift E2. rewrite (proj2 (Nat.ltb_lt _ _)).
  2:{ apply Nat.Div0.div_lt_upper_bound. simpl in Hlen. lia. }
  destruct (first_active _ first B id0 b (vo_index _ _ _ _ _ _ _ Hok1) Hb) as [more E3].
  pose proof (on_index_Ok _ _ _ _ E3) as E3'. run_st E3'. unfold mbind at 1, st_bind at 1. unfold ValueLog.on_index at 1. cbn [ValueLog.index].
  destruct (first_compacted _ first B id0 _ (vo_index _ _ _ _ _ _ _ Hok1) Hb) as [(r & ix & E4)|[msg E4]]; rewrite E4; [|by exists msg].
  eexists. unfold mbind, st_bind, lift, outcome_bind. by rewrite (batch_of_entries es offs data key val more Hes Hkey Hk).
Qed.

End spec.

(** ** The theorems *)

Section theorems.
Context `{BitVecLaws} `{CompressionLaws} `{LruPopLaws ValueBatch.ValueBatch}.
Context (io : IoMode).

(** C29: values are stored and found again, up to 4094 of them.  Writing so many
    values of a memtable gives every value an identifier under which it is read
    back, from the cache or from the file of its batch; the values of older batches
    stay readable.  A larger batch does not fit in a page of the index and panics. *)
Theorem value_log_put_get s stored first B id0 V es :
  vlog_ok io s stored first B id0 V → room s es →
  if decide (length es + 2 <= MAX_SIZE) then
    ∃ ids s' V', ValueLog.write_values es s = Ok (ids, s') ∧
      vlog_ok io s' stored first (B ++ [replicate (length es) true]) id0 V' ∧ V ⊆ V' ∧
      (∀ i key val, es !! i = Some (key, val) →
        ∃ vid s'', ids !! i = Some vid ∧ ValueLog.value_at vid s' = Ok (val, s'')) ∧
      ∀ id off data r val, V !! id = Some data → ValueBatch.get_ref (ValueBatch.mk data) off = Ok r →
        ValueBatch.get_value r = Ok val → ∃ s'', ValueLog.value_at (id, off) s' = Ok (val, s'')
  else ValueLog.write_values es s = Panic (batch_too_large (length es)).
Proof.
  intros Hok Hr. case_decide as Hfl; [|eapply (write_values_panics io); [done|done|lia]].
  destruct (write_values_ok io s stored first B id0 V es Hok Hr Hfl) as (offs & data & s' & E & Hb & Hok').
  set (id := (first + N.of_nat (length B))%N) in *.
  assert (V ⊆ <[id := data]> V) as Hsub.
  { apply insert_subseteq. destruct (V !! id) as [x|] eqn:Ex; [|done]. apply (vo_old _ _ _ _ _ _ _ Hok) in Ex. unfold id in Ex. lia. }
  eexists _, s', _. split; [exact E|]. split; [exact Hok'|]. split; [exact Hsub|]. split.
  - intros i key val Hi. destruct (batch_of_value es offs data i key val Hb Hi) as (off & r & Ho & E1 & E2).
    destruct (value_at_ok io s' _ _ _ _ _ id data off r val Hok' ltac:(apply lookup_insert_eq) E1 E2) as (s'' & E3 & _).
    exists (id, off), s''. split; [|done]. by rewrite list_lookup_fmap, Ho.
  - intros id' off data' r val HV E1 E2.
    destruct (value_at_ok io s' _ _ _ _ _ id' data' off r val Hok' ltac:(by eapply lookup_weaken) E1 E2) as (s'' & E3 & _). by exists s''.
Qed.

(** C39: identifiers of values cannot be used to delete them.  The identifier of
    the value at position [i] of a batch has a byte offset of [8 * i] at least, but
    deleting takes it for the position; from the position on where this exceeds the
    number of values (the last value of every batch of two or more) it panics. *)
Theorem value_log_delete_out_of_range s stored first B id0 V es :
  vlog_ok io s stored first B id0 V → room s es → length es + 2 <= MAX_SIZE →
  ∃ ids s', ValueLog.write_values es s = Ok (ids, s') ∧
    ∀ i vid, ids !! i = Some vid → length es <= 8 * i →
      ValueLog.mark_value_deleted io vid s' = Panic "Entry index out of range".
Proof.
  intros Hok Hr Hfl. destruct (write_values_ok io s stored first B id0 V es Hok Hr Hfl) as (offs & data & s' & E & (b & _ & _ & _ & _ & Ho & _) & Hok').
  eexists _, s'. split; [exact E|]. intros i vid Hi Hle. rewrite list_lookup_fmap in Hi.
  destruct (offs !! i) as [off|] eqn:Eo; [|done]. injection Hi as <-. specialize (Ho i off Eo).
  pose proof (index_mark _ first _ id0 (first + N.of_nat (length B)) (replicate (length es) true) off (vo_index _ _ _ _ _ _ _ Hok')) as Hm.
  replace (N.to_nat (first + N.of_nat (length B) - first)) with (length B + 0) in Hm by lia.
  rewrite lookup_app_r, Nat.add_comm, Nat.add_sub in Hm by lia. specialize (Hm ltac:(lia) eq_refl).
  rewrite lookup_ge_None_2 in Hm by (rewrite length_replicate; lia). unfold ValueLog.mark_value_deleted, mbind, st_bind, ValueLog.on_index. by rewrite Hm.
Qed.

(** C33: removing a batch removes its file and its cache entry, so that reading it
    is an error; other batches stay.  The oldest batches move the minimum in the
    manifest, past all batches if no value of this one is in use, and it panics
    when the minimum does not grow. *)
Theorem value_log_remove_batch s stored first B id0 V id data b :
  vlog_ok io s stored first B id0 V → V !! id = Some data → (first <= id)%N → B !! N.to_nat (id - first) = Some b →
  let m := s.(ValueLog.index).(ValueIndex.meta) in
  let n := new_minimum m id (active_count b) in
  let oldest := (id <=? N.max m.(ValueLogMetadata.minimum_batch) MIN_VALUE_BATCH_ID)%N in
  if oldest && (n <=? m.(ValueLogMetadata.minimum_batch))%N
  then ValueLog.remove_batch_from_disk id s = Panic "assertion failed: meta.value_log.minimum_batch < offset"
  else ∃ s', ValueLog.remove_batch_from_disk id s = Ok ((), s') ∧ vlog_ok io s' stored first B id0 (delete id V) ∧
    s'.(ValueLog.index).(ValueIndex.meta) = set_minimum m (if oldest then n else m.(ValueLogMetadata.minimum_batch)) ∧
    ValueLog.get_batch id s' = Err (Io "Failed to read value log batch" "").
Proof.
  intros Hok HV Hid Hb m n oldest. pose proof (remove_batch_ok io s stored first B id0 V id data b Hok HV Hid Hb) as Hr.
  cbv zeta in Hr. fold m n oldest in Hr. destruct (oldest && _)%bool; [exact Hr|]. destruct Hr as (sh & Hsh & E).
  eexists. split; [exact E|]. split; [by apply (without_batch_ok io)|]. split; [done|].
  eapply (get_batch_missing _ (delete id V)); [|apply lookup_delete_eq|apply lookup_delete_eq].
  eapply vo_caches. by apply (without_batch_ok io).
Qed.

(** After the oldest batch was removed the removal of the next one panics.  The
    loop that looks for the new minimum asks for the values of the removed batch
    again and again and moves the minimum to the most recent batch, so that the
    next removal finds it there already. *)
Theorem value_log_second_removal_panics s stored first B id0 V id1 id2 data1 data2 b1 b2 :
  vlog_ok io s stored first B id0 V → V !! id1 = Some data1 → V !! id2 = Some data2 → id1 ≠ id2 →
  (first <= id1)%N → (first <= id2)%N → B !! N.to_nat (id1 - first) = Some b1 → B !! N.to_nat (id2 - first) = Some b2 →
  active_count b1 = 0 → active_count b2 = 0 →
  let m := s.(ValueLog.index).(ValueIndex.meta) in
  (id1 <= N.max m.(ValueLogMetadata.minimum_batch) MIN_VALUE_BATCH_ID)%N →
  (m.(ValueLogMetadata.minimum_batch) < m.(ValueLogMetadata.next_batch) - 1)%N →
  ∃ s', ValueLog.remove_batch_from_disk id1 s = Ok ((), s') ∧
    ValueLog.remove_batch_from_disk id2 s' = Panic "assertion failed: meta.value_log.minimum_batch < offset".
Proof.
  intros Hok HV1 HV2 Hne Hi1 Hi2 Hb1 Hb2 Ha1 Ha2 m Hold Hmin.
  pose proof (remove_batch_ok io s stored first B id0 V id1 data1 b1 Hok HV1 Hi1 Hb1) as Hr.
  cbv zeta in Hr. fold m in Hr. unfold new_minimum in Hr. rewrite Ha1 in Hr. simpl in Hr.
  rewrite (proj2 (N.leb_le _ _) Hold), (proj2 (N.leb_gt _ _) Hmin) in Hr. destruct Hr as (sh & Hsh & E). eexists. split; [exact E|].
  set (s1 := without_batch _ _ _ _) in *.
  assert (vlog_ok io s1 stored first B id0 (delete id1 V)) as Hok1 by (by apply (without_batch_ok io)).
  pose proof (remove_batch_ok io s1 stored first B id0 _ id2 data2 b2 Hok1 ltac:(by rewrite lookup_delete_ne) Hi2 Hb2) as Hr.
  cbv zeta in Hr. unfold new_minimum in Hr. rewrite Ha2 in Hr. change (0 <? 0) with false in Hr.
  unfold s1 in Hr at 1 2 3 4. cbn [without_batch ValueLog.index ValueIndex.meta set_minimum ValueLogMetadata.next_batch ValueLogMetadata.minimum_batch] in Hr.
  fold m in Hr. pose proof (lookup_lt_Some _ _ _ Hb2). pose proof (vo_next _ _ _ _ _ _ _ Hok) as Hn. fold m in Hn.
  rewrite (proj2 (N.leb_le id2 _)), N.leb_refl in Hr by lia. exact Hr.
Qed.

(** C40: while the first value of the first batch is in use and has a short key, no
    other value of the first page can be deleted: the identifier of the page is
    taken for that of the batch, a share of the values in use below 25 is reached by
    every batch, since it is computed without fractions, and the values of the batch
    are read with the wrong bounds. *)
Theorem value_log_delete_panics s stored B V es offs data key val b0 id b j :
  vlog_ok io s stored 1 B 1 V → V !! 1%N = Some data → batch_of es offs data →
  es !! 0 = Some (key, val) → length key < 8 → B !! 0 = Some (true :: b0) → length (true :: b0) = length es →
  (1 <= id)%N → B !! N.to_nat (id - 1) = Some b → b !! N.to_nat j = Some true → (id, j) ≠ (1%N, 0%N) →
  ValueIndex.find_page_idx s.(ValueLog.index).(ValueIndex.pages) id = Some 0 →
  ∃ msg, ValueLog.mark_value_deleted io (id, j) s = Panic msg.
Proof.
  intros Hok HV Hes Hkey Hk Hb0 Hlen Hid Hb Hj Hne Hpage.
  destruct (vmark_ok io s stored 1 B 1 V id b j Hok Hid Hb Hj) as (r & s1 & dr & B' & id1 & E1 & HB & Hd & (idx & Hidx & Hr) & Hok1).
  rewrite Hpage in Hidx. injection Hidx as <-.
  destruct (clear_first B id b0 b j dr B' Hb0 Hb Hid Hne HB Hd) as [-> [b1 Hb1]]. rewrite N.add_0_r in *.
  destruct r as [page_id off]. simpl in Hr. subst page_id.
  destruct (store_deletion io s1 stored 1 B' id1 V 1%N off Hok1) as (s2 & E2 & Hok2 & _).
  unfold ValueLog.mark_value_deleted. run_st E1. run_st E2.
  assert (ValueLog.try_to_remove 1 s2 = Ok (false, s2)) as E3.
  { unfold ValueLog.try_to_remove. run_st (vcount_ok io _ _ _ _ _ _ 1%N (true :: b1) Hok2 (N.le_refl 1) Hb1).
    by rewrite (proj2 (Nat.ltb_lt _ _) (active_first b1)). }
  run_st E3. destruct (compact_panics io s2 _ 1 B' id1 V es offs data key val b1 Hok2 HV Hes Hkey Hk Hb1) as [msg E4].
  { unfold clear in HB. simpl in HB. subst B'. destruct (decide (N.to_nat (id - 1) = 0)) as [Hz|Hz].
    - rewrite Hz in *. rewrite list_lookup_insert_eq in Hb1 by (by eapply lookup_lt_Some). injection Hb1 as Hb1.
      rewrite <-Hb1, length_insert. rewrite Hb0 in Hb. injection Hb as <-. lia.
    - rewrite list_lookup_insert_ne in Hb1 by done. rewrite Hb0 in Hb1. injection Hb1 as <-. lia. }
  exists msg. unfold mbind, st_bind. by rewrite E4.
Qed.

End theorems.

(** ** Witnesses *)

Section witnesses.
#[local] Existing Instance list_bits.
#[local] Existing Instance list_bits_laws.
#[local] Existing Instance identity_compression.
#[local] Existing Instance identity_compression_laws.
#[export] Instance batch_cache : LruCache ValueBatch.ValueBatch := map_cache _.
#[export] Instance batch_cache_laws : LruLaws ValueBatch.ValueBatch := map_cache_laws _.
#[export] Instance batch_pop : LruPop ValueBatch.ValueBatch := {| cache_pop := λ c k, delete k (c : gmap N ValueBatch.ValueBatch) |}.

Lemma batch_pop_laws : LruPopLaws ValueBatch.ValueBatch.
Proof. by split. Qed.
#[local] Existing Instance batch_pop_laws.

(** The batch of one value with the key [a]. *)
Definition one_value : EntryList := [([x61], [x07])].
Definition one_batch (id : N) : ValueBatchBuilder.ValueBatchBuilder :=
  match add_entries (ValueBatchBuilder.new id) one_value with Ok (_, b) => b | _ => ValueBatchBuilder.new id end.
Definition one_data : list byte := ValueBatchBuilder.finish_data (one_batch 1).

Lemma one_batch_of : batch_of one_value [0%N] one_data.
Proof.
  exists (one_batch 1). split; [reflexivity|]. split; [reflexivity|]. split; [reflexivity|]. split.
  - constructor; [|constructor]. by exists [], [].
  - split; [|by intros off [= <-]]. intros [|i] off Hi; [|done]. injection Hi as <-. done.
Qed.

(** A log with two batches of one value, whose flags are [x]. *)
Definition sample_flags (x : bool) : list (list bool) := [[x]; [x]].
Definition sample_vlog (x : bool) : ValueLog.ValueLog :=
  ValueLog.mk (mkLog (LogStatus.new 0 0) (WalWriter.new ∅).2 Waiting)
    (ValueIndex.mk [(1%N, sample_page 1 1 (sample_flags x) false)] (ValueLogMetadata.mk 3 0 2 1)
      {[LogFile 0 := []; ValueIndexFile 1 := IndexPage.page_bytes (sample_page 1 1 (sample_flags x) false);
        ValueFile 1 := one_data; ValueFile 2 := one_data]})
    (replicate 16 (cache_new 1)).

Lemma sample_vlog_ok x : vlog_ok StdFs (sample_vlog x) [] 1 (sample_flags x) 1 {[1%N := one_data; 2%N := one_data]}.
Proof.
  split.
  - apply (idle_frame StdFs (fresh_wal ∅)); [|apply fresh_idle]. intros [|i]; [done|].
    cbn [sample_vlog ValueLog.index ValueIndex.files fresh_wal WalStatus.disk WalWriter.new WalWriter.create_file fst].
    unfold disk.write_uncompressed. by rewrite !lookup_insert_ne, lookup_singleton_ne.
  - split.
    + apply hold_last; [|done|done]. apply sample_page_holds. rewrite max_size. destruct x; vm_compute; lia.
    + intros [|i] k p Hi; [|done]. by injection Hi as <- <-.
    + done.
    + done.
    + intros [|i] Hi; [by eexists|simpl in Hi; lia].
    + intros id. cbn [sample_vlog ValueLog.index ValueIndex.meta ValueLogMetadata.minimum_index_page]. lia.
  - done.
  - intros id data Hd. apply lookup_insert_Some in Hd as [[<- <-]|[_ Hd]]; [done|].
    apply lookup_singleton_Some in Hd as [<- <-]. done.
  - split; [done|]. intros i c id b Hi Hc. apply lookup_replicate in Hi as [-> _]. done.
  - intros id data Hd. apply lookup_insert_Some in Hd as [[<- <-]|[_ Hd]]; [done|].
    apply lookup_singleton_Some in Hd as [<- <-]. done.
Qed.

Definition two_values : EntryList := [([x61], [x07]); ([x62], [x08; x09])].

Lemma sample_room x : room (sample_vlog x) two_values.
Proof. split; [reflexivity|reflexivity|reflexivity]. Qed.

Lemma two_values_fit : length two_values + 2 <= MAX_SIZE.
Proof. rewrite max_size. apply Nat.leb_le. vm_compute. reflexivity. Qed.

Lemma value_log_put_get_witness :
  ∃ ids s' vid s'', ValueLog.write_values two_values (sample_vlog true) = Ok (ids, s') ∧
    ids !! 1 = Some vid ∧ ValueLog.value_at vid s' = Ok ([x08; x09], s'').
Proof.
  pose proof (value_log_put_get StdFs (sample_vlog true) [] 1 _ 1 _ two_values (sample_vlog_ok true) (sample_room true)) as Hpg.
  rewrite decide_True in Hpg by exact two_values_fit. destruct Hpg as (ids & s' & V' & E & _ & _ & Hv & _).
  destruct (Hv 1 [x62] [x08; x09] eq_refl) as (vid & s'' & Hi & E'). exists ids, s', vid, s''. by split_and!.
Defined.

Lemma value_log_delete_out_of_range_witness :
  ∃ ids s' vid, ValueLog.write_values two_values (sample_vlog true) = Ok (ids, s') ∧ ids !! 1 = Some vid ∧
    ValueLog.mark_value_deleted StdFs vid s' = Panic "Entry index out of range".
Proof.
  destruct (value_log_delete_out_of_range StdFs (sample_vlog true) [] 1 _ 1 _ two_values (sample_vlog_ok true) (sample_room true) two_values_fit)
    as (ids & s' & E & Hd).
  assert (∃ vid, ids !! 1 = Some vid) as [vid Hvid].
  { vm_compute in E. injection E as <- _. by eexists. }
  exists ids, s', vid. split; [exact E|]. split; [exact Hvid|]. apply (Hd 1 vid Hvid). apply Nat.leb_le. reflexivity.
Defined.

Lemma value_log_remove_batch_witness :
  ∃ s', ValueLog.remove_batch_from_disk 2 (sample_vlog true) = Ok ((), s') ∧
    ValueLog.get_batch 2 s' = Err (Io "Failed to read value log batch" "").
Proof.
  destruct (value_log_remove_batch StdFs (sample_vlog true) [] 1 _ 1 _ 2 one_data [true] (sample_vlog_ok true)
    eq_refl ltac:(lia) eq_refl) as (s' & E & _ & _ & Eg). by exists s'.
Defined.

Lemma value_log_second_removal_panics_witness :
  ∃ s', ValueLog.remove_batch_from_disk 1 (sample_vlog false) = Ok ((), s') ∧
    ValueLog.remove_batch_from_disk 2 s' = Panic "assertion failed: meta.value_log.minimum_batch < offset".
Proof.
  apply (value_log_second_removal_panics StdFs (sample_vlog false) [] 1 (sample_flags false) 1 {[1%N := one_data; 2%N := one_data]} 1 2
    one_data one_data [false] [false]); [apply sample_vlog_ok|reflexivity|reflexivity|discriminate|lia|lia|reflexivity..].
Defined.

Lemma value_log_delete_panics_witness :
  ∃ msg, ValueLog.mark_value_deleted StdFs (2%N, 0%N) (sample_vlog true) = Panic msg.
Proof.
  apply (value_log_delete_panics StdFs (sample_vlog true) [] (sample_flags true) {[1%N := one_data; 2%N := one_data]} one_value [0%N]
    one_data [x61] [x07] [] 2 [true] 0); [apply sample_vlog_ok|reflexivity|apply one_batch_of|reflexivity|simpl; lia|reflexivity|reflexivity|
    lia|reflexivity|reflexivity|discriminate|reflexivity].
Defined.

End witnesses.
