(* ===== verification/ValueRecovery.v ===== *)
(** * Recovery of the value index (src/src/wal/reader.rs with the [wisckey] feature)

    Deletions of values are entries of the write-ahead log next to the writes; the
    reader applies the former to the value index and the latter to the memtable. *)

From stdpp Require Import base list gmap strings sorting.
From Stdlib Require Import Strings.Byte NArith Lia.
From S2P Require Import Prelude Disk WriteBatch Memtable Wal WalStatus WalCalls Manifest DataBlocks ValueBatch ValueIndex ValueIndexInv ValueLog ValueLogSpec.

Local Open Scope nat_scope.
Local Open Scope lsm_scope.

Module ValueWalReader.

Section ops.
Context `{BitVec} `{Compression}.

(** [WalReader::parse_value_deletion_entry] *)
Definition parse_value_deletion_entry (fuel : nat) (d : Disk) (r : WalReader.WalReader) (value_index : ValueIndex.ValueIndex)
  : outcome (WalReader.WalReader * ValueIndex.ValueIndex) :=
  '(page_id, r) ← WalReader.read_value fuel d r 8;
  '(offset, r) ← WalReader.read_value fuel d r 2;
  '(_, value_index) ← ValueIndex.mark_value_as_deleted_at page_id offset value_index;
  Ok (r, value_index).

(** [WalReader::parse_batch_deletion_entry] *)
Definition parse_batch_deletion_entry (fuel : nat) (d : Disk) (r : WalReader.WalReader) (value_index : ValueIndex.ValueIndex)
  : outcome (WalReader.WalReader * ValueIndex.ValueIndex) :=
  '(page_id, r) ← WalReader.read_value fuel d r 8;
  '(offset, r) ← WalReader.read_value fuel d r 2;
  '(_, value_index) ← ValueIndex.mark_batch_as_deleted_at page_id offset value_index;
  Ok (r, value_index).

(** [WalReader::run] (with [wisckey]); no batch is ever added to
    [value_batches_to_delete]. *)
Fixpoint run (fuel : nat) (rfuel : nat) (d : Disk) (r : WalReader.WalReader) (memtable : Memtable.Memtable)
    (value_index : ValueIndex.ValueIndex) (entries_recovered : nat)
  : outcome (WalReader.RecoveryResult * WalReader.WalReader * Memtable.Memtable * ValueIndex.ValueIndex) :=
  match fuel with
  | O => OutOfFuel
  | S fuel' =>
      '(success, log_type, r) ← WalReader.read_from_log rfuel d r 1 true;
      if negb success then
        Ok (WalReader.mkResult r.(WalReader.position) entries_recovered, r, memtable, value_index)
      else if (le_val log_type =? LogEntryType.as_u8 TyWrite)%N then
        '(r, memtable) ← WalReader.parse_write_entry rfuel d r memtable;
        run fuel' rfuel d r memtable value_index (entries_recovered + 1)
      else if (le_val log_type =? LogEntryType.as_u8 TyDeleteValue)%N then
        '(r, value_index) ← parse_value_deletion_entry rfuel d r value_index;
        run fuel' rfuel d r memtable value_index (entries_recovered + 1)
      else if (le_val log_type =? LogEntryType.as_u8 TyDeleteBatch)%N then
        '(r, value_index) ← parse_batch_deletion_entry rfuel d r value_index;
        run fuel' rfuel d r memtable value_index (entries_recovered + 1)
      else Panic "Unexpected log entry type!"
  end.

(** [WriteAheadLog::open] (with [wisckey]) *)
Definition open (fuel rfuel : nat) (d : Disk) (start_position : N) (memtable : Memtable.Memtable)
    (value_index : ValueIndex.ValueIndex)
  : outcome (WalState * WalReader.RecoveryResult * Memtable.Memtable * ValueIndex.ValueIndex) :=
  let start_position := N.to_nat start_position in
  reader ← WalReader.new d start_position;
  '(result, _, memtable, value_index) ← run fuel rfuel d reader memtable value_index 0;
  '(d, wr) ← WalWriter.continue_from d result.(WalReader.new_position);
  Ok (mkWal (LogStatus.new result.(WalReader.new_position) start_position) wr Waiting d, result, memtable, value_index).

End ops.

End ValueWalReader.

(** ** What an entry does *)

Section entries.
Context `{BitVec} `{Compression}.

(** An entry applied to the memtable and the index. *)
Definition apply_entry (m : Memtable.Memtable) (ix : ValueIndex.ValueIndex) (e : LogEntry)
  : outcome (Memtable.Memtable * ValueIndex.ValueIndex) :=
  match e with
  | LWrite op => m ← Memtable.apply_op m op; Ok (m, ix)
  | LDeleteValue page_id off => '(_, ix) ← ValueIndex.mark_value_as_deleted_at page_id off ix; Ok (m, ix)
  | LDeleteBatch page_id off => '(_, ix) ← ValueIndex.mark_batch_as_deleted_at page_id off ix; Ok (m, ix)
  end.

Fixpoint apply_entries (m : Memtable.Memtable) (ix : ValueIndex.ValueIndex) (es : list LogEntry)
  : outcome (Memtable.Memtable * ValueIndex.ValueIndex) :=
  match es with
  | [] => Ok (m, ix)
  | e :: es' => '(m, ix) ← apply_entry m ix e; apply_entries m ix es'
  end.

Definition readable_entry (e : LogEntry) : Prop :=
  match e with
  | LWrite op => readable op
  | LDeleteValue page_id off | LDeleteBatch page_id off => (page_id < u64_bound)%N ∧ (off < u16_bound)%N
  end.

Definition encode_entries (es : list LogEntry) : list byte := concat (LogEntry.encode <$> es).

(** ** Reading entries *)

Section reading.
Context (d : Disk) (lo : nat) (L : list byte) (Hdisk : log_on_disk d lo L).
Context (fuel : nat) (Hfuel : length L <= fuel).

(** The two numbers of a deletion. *)
Lemma read_deletion r p ty page_id off :
  at_pos lo L (p + 1) r → next_bytes L p ([ty] ++ le_bytes 8 page_id ++ le_bytes 2 off) →
  (page_id < u64_bound)%N → (off < u16_bound)%N →
  ∃ r1 r2, WalReader.read_value fuel d r 8 = Ok (page_id, r1) ∧ WalReader.read_value fuel d r1 2 = Ok (off, r2) ∧
    at_pos lo L (p + 11) r2.
Proof.
  intros Hr Hn Hp Ho. apply next_bytes_app in Hn as [_ Hn]. apply next_bytes_app in Hn as [Hn1 Hn2]. rewrite length_le_bytes in Hn2.
  simpl length in Hn1, Hn2.
  destruct (read_int d lo L Hdisk fuel Hfuel r (p + 1) 8 page_id Hr Hn1 ltac:(lia) Hp) as (r1 & E1 & Hr1).
  destruct (read_int d lo L Hdisk fuel Hfuel r1 (p + 1 + 8) 2 off Hr1 Hn2 ltac:(lia) Ho) as (r2 & E2 & Hr2).
  exists r1, r2. split; [done|]. split; [done|]. by replace (p + 11) with (p + 1 + 8 + 2) by lia.
Qed.

(** One round of [run] consumes one entry and applies it. *)
Lemma vrun_step n r p e m ix cnt :
  at_pos lo L p r → next_bytes L p (LogEntry.encode e) → readable_entry e →
  ∃ r', at_pos lo L (p + length (LogEntry.encode e)) r' ∧
    ValueWalReader.run (S n) fuel d r m ix cnt =
      ('(m', ix') ← apply_entry m ix e; ValueWalReader.run n fuel d r' m' ix' (cnt + 1)).
Proof.
  intros Hr Hnext He. cbn [ValueWalReader.run].
  assert (next_bytes L p [byte_of_N (LogEntryType.as_u8 (LogEntry.get_type e))]) as Hty.
  { unfold LogEntry.encode in Hnext. destruct e; by apply next_bytes_app in Hnext as [? _]. }
  destruct (read_chunk d lo L Hdisk fuel Hfuel r p _ true Hr Hty) as (r1 & E & Hr1); [simpl; lia|]. simpl length in E, Hr1.
  rewrite E. run_bind. cbn [negb]. destruct e as [op|page_id off|page_id off].
  - simpl (_ =? _)%N. cbv iota. destruct (parse_write_entry_op d lo L Hdisk fuel Hfuel r1 p op m Hr1 Hnext He) as (r2 & -> & Hr2).
    exists r2. split; [done|]. cbn [apply_entry]. by rewrite !bind_assoc.
  - simpl (_ =? _)%N. cbv iota. destruct He as [Hp Ho].
    destruct (read_deletion r1 p _ page_id off Hr1 Hnext Hp Ho) as (r2 & r3 & E1 & E2 & Hr3).
    exists r3. split; [unfold LogEntry.encode; by autorewrite with lsm_len|].
    unfold ValueWalReader.parse_batch_deletion_entry. rewrite E1. run_bind. rewrite E2. run_bind. cbn [apply_entry].
    rewrite !bind_assoc. by destruct (ValueIndex.mark_batch_as_deleted_at page_id off ix) as [[[] ix']| | |].
  - simpl (_ =? _)%N. cbv iota. destruct He as [Hp Ho].
    destruct (read_deletion r1 p _ page_id off Hr1 Hnext Hp Ho) as (r2 & r3 & E1 & E2 & Hr3).
    exists r3. split; [unfold LogEntry.encode; by autorewrite with lsm_len|].
    unfold ValueWalReader.parse_value_deletion_entry. rewrite E1. run_bind. rewrite E2. run_bind. cbn [apply_entry].
    rewrite !bind_assoc. by destruct (ValueIndex.mark_value_as_deleted_at page_id off ix) as [[[] ix']| | |].
Qed.

Lemma vrun_entries n r p es m ix m' ix' cnt :
  at_pos lo L p r → next_bytes L p (encode_entries es) → Forall readable_entry es →
  apply_entries m ix es = Ok (m', ix') →
  ∃ r', at_pos lo L (p + length (encode_entries es)) r' ∧
    ValueWalReader.run (length es + n) fuel d r m ix cnt = ValueWalReader.run n fuel d r' m' ix' (cnt + length es).
Proof.
  revert r p m ix cnt. induction es as [|e es IH]; intros r p m ix cnt Hr Hn Hes Ha.
  { simpl in Ha. injection Ha as <- <-. exists r. simpl. by rewrite !Nat.add_0_r. }
  change (encode_entries (e :: es)) with (LogEntry.encode e ++ encode_entries es) in *.
  apply next_bytes_app in Hn as [Hn1 Hn2]. apply Forall_cons in Hes as [He Hes].
  cbn [apply_entries] in Ha. apply bind_Ok_inv in Ha as ([m1 ix1] & E1 & Ha). cbn [length Nat.add].
  destruct (vrun_step (length es + n) r p e m ix cnt Hr Hn1 He) as (r1 & Hr1 & ->). rewrite E1. run_bind.
  destruct (IH r1 _ m1 ix1 (cnt + 1) Hr1 Hn2 Hes Ha) as (r2 & Hr2 & ->). exists r2. rewrite length_app, Nat.add_assoc.
  split; [done|]. f_equal. lia.
Qed.

Lemma vrun_end n r m ix cnt :
  at_pos lo L (length L) r → length L mod PAGE_SIZE ≠ 0 →
  ∃ r', ValueWalReader.run (S n) fuel d r m ix cnt = Ok (WalReader.mkResult (length L) cnt, r', m, ix).
Proof.
  intros Hr Hm. destruct (run_end d lo L Hdisk fuel Hfuel n r m cnt Hr Hm) as (r' & E).
  cbn [WalReader.run] in E. apply bind_Ok_inv in E as ([[ok ty] r1] & E1 & E). cbn [ValueWalReader.run]. rewrite E1. run_bind.
  destruct ok; [|cbn [negb] in *; injection E as -> <-; by exists r1].
  exfalso. cbn [negb] in E. destruct Hr as [Hr Hlo]. unfold WalReader.read_from_log in E1. revert E1. pass_assert. intros E1.
  assert (0 < length L) by (destruct (length L); [by rewrite Nat.Div0.mod_0_l in Hm|lia]).
  destruct (read_loop_short fuel d lo L r (length L) (replicate 1 x00) 0 true) as (r2 & E2 & _); simpl; [done|done|done|done|lia|lia|lia|].
  by rewrite E2 in E1.
Qed.

End reading.

End entries.

(** ** The theorems *)

Section theorems.
Context `{BitVecLaws} `{CompressionLaws} `{LruPopLaws ValueBatch.ValueBatch}.
Context (io : IoMode).

(** Opening the log of a writer that has nothing left to do. *)
Lemma open_idle w L es m ix m' ix' fuel rfuel :
  idle io w (L ++ encode_entries es) → w.(status).(LogStatus.offset_pos) <= length L →
  Forall readable_entry es → length (L ++ encode_entries es) mod PAGE_SIZE ≠ 0 →
  apply_entries m ix es = Ok (m', ix') → length es < fuel → length (L ++ encode_entries es) <= rfuel →
  ∃ w', ValueWalReader.open fuel rfuel w.(disk) (N.of_nat (length L)) m ix
    = Ok (w', WalReader.mkResult (length (L ++ encode_entries es)) (length es), m', ix').
Proof.
  intros [Hi Hp Hq Hf Hs Hst] Hoff Hes Hmod Ha Hfu Hrf. pose proof (wi_writer _ _ _ _ Hi) as Hw.
  set (all := L ++ encode_entries es) in *. set (lo := first_page w) in *.
  assert (lo <= length L / PAGE_SIZE) as Hlo.
  { unfold lo, first_page. rewrite Hp, Hf. by apply Nat.Div0.div_le_mono. }
  pose proof (wa_disk _ _ _ _ _ Hw) as Hd. assert (length L <= length all) as Hle by (unfold all; rewrite length_app; lia).
  unfold ValueWalReader.open. rewrite Nat2N.id. destruct (reader_new_at _ lo all (length L) Hd Hlo Hle) as (r & -> & Hr). run_bind.
  replace fuel with (length es + S (fuel - length es - 1)) by lia.
  destruct (vrun_entries _ lo all Hd rfuel Hrf (S (fuel - length es - 1)) r _ es m ix m' ix' 0 Hr (next_bytes_suffix L _) Hes Ha)
    as (r1 & Hr1 & ->).
  replace (length L + length (encode_entries es)) with (length all) in Hr1 by (unfold all; by rewrite length_app).
  destruct (vrun_end _ lo all Hd rfuel Hrf (fuel - length es - 1) r1 m' ix' (0 + length es) Hr1 Hmod) as (r2 & ->). run_bind.
  cbn [WalReader.new_position]. unfold WalWriter.continue_from, WalWriter.open_file. rewrite (proj2 (Nat.eqb_neq _ _) Hmod).
  rewrite (Hd (length all / PAGE_SIZE)) by pages. run_bind. by eexists.
Qed.

(** C31: recovery with a value log.  What is stored in an idle log, writes with
    keys and values that are not empty and deletions of values and batches, is
    applied in order when the log is opened at the place where it was stored and
    does not end on a page boundary: writes to the memtable, deletions to the value
    index.  The end of the log and the number of entries are reported.  (On the
    excluded logs opening panics or does not end, as without a value log.) *)
Theorem value_wal_recovery w L es m ix m' ix' fuel rfuel :
  idle io w L → Forall readable_entry es → length (L ++ encode_entries es) mod PAGE_SIZE ≠ 0 →
  apply_entries m ix es = Ok (m', ix') → length es < fuel → length (L ++ encode_entries es) <= rfuel →
  ∃ n w1 w2, WalCalls.store_entries io w es = Ok (n, w1) ∧
    ValueWalReader.open fuel rfuel w1.(disk) (N.of_nat (length L)) m ix
      = Ok (w2, WalReader.mkResult (length (L ++ encode_entries es)) (length es), m', ix').
Proof.
  intros Hi Hes Hmod Ha Hfu Hrf. destruct (wal_store_entries_ok io w L es Hi) as (w1 & E & Hi1 & _ & Hoff).
  destruct (open_idle w1 L es m ix m' ix' fuel rfuel) as [w2 E2]; [done| |done..|by exists (N.of_nat (length (L ++ encode_entries es))), w1, w2].
  rewrite Hoff. pose proof (idle_inv _ _ _ Hi) as Hinv. pose proof (wi_offset _ _ _ _ Hinv). pose proof (wi_write_pos _ _ _ _ Hinv). lia.
Qed.

Lemma clear_prefix (B B' : list (list bool)) i b b' j :
  Forall2 prefix B B' → B !! i = Some b → B' !! i = Some b' → N.to_nat j < length b →
  Forall2 prefix (clear B i b j) (clear B' i b' j).
Proof.
  intros Hp Hb Hb' Hj. apply Forall2_insert; [done|]. destruct (Forall2_lookup_lr _ _ _ _ _ _ Hp Hb Hb') as [l ->].
  rewrite insert_app_l by done. by apply prefix_app_r.
Qed.

(** Opening the index of a log whose index files did not change. *)
Lemma reopen_index s ix first B id0 :
  index_ok s first B id0 → s.(ValueIndex.meta).(ValueLogMetadata.minimum_index_page) = id0 → synced s →
  ix.(ValueIndex.meta) = s.(ValueIndex.meta) →
  (∀ q, ix.(ValueIndex.files) !! ValueIndexFile q = s.(ValueIndex.files) !! ValueIndexFile q) →
  ∃ ix0 B0, ValueIndex.open ix.(ValueIndex.meta) ix.(ValueIndex.files) = Ok ix0 ∧ index_ok ix0 first B0 id0 ∧
    Forall2 same_layout s.(ValueIndex.pages) ix0.(ValueIndex.pages) ∧ Forall2 prefix B B0.
Proof.
  intros Hok Hmin Hsy Hm Hf.
  apply (open_synced (ValueIndex.mk s.(ValueIndex.pages) ix.(ValueIndex.meta) ix.(ValueIndex.files)) first B id0).
  - by apply (index_ok_frame s); [done|done|cbn [ValueIndex.meta]; rewrite Hm..|].
  - cbn [ValueIndex.meta]. by rewrite Hm.
  - intros i k p Hi. destruct (Hsy i k p Hi) as [Hh Hr]. split; [done|]. cbn [ValueIndex.files].
    rewrite <-Hr. unfold disk.read, disk.read_uncompressed. by rewrite Hf.
Qed.

(** What is logged for a deletion can be read. *)
Lemma deletion_readable s first B id0 id b j r s' :
  index_ok s first B id0 → (first <= id)%N → B !! N.to_nat (id - first) = Some b → b !! N.to_nat j = Some true →
  (s.(ValueIndex.meta).(ValueLogMetadata.next_index_page) < u64_bound)%N →
  ValueIndex.mark_value_as_deleted (id, j) s = Ok (r, s') → readable_entry (LDeleteValue r.1 r.2).
Proof.
  intros Hok Hid Hb Hj Hpages E. pose proof (index_mark _ first B id0 id b j Hok Hid Hb) as Hm. rewrite Hj in Hm.
  destruct Hm as (r' & ix1 & dr & B' & id1 & E' & _ & _ & _ & (idx & Hidx & Hr1 & Hr2) & _).
  rewrite E in E'. injection E' as <- _. split; [|done]. rewrite Hr1.
  pose proof (io_next _ _ _ _ Hok) as Hn. rewrite Hn in Hpages.
  assert (idx < length s.(ValueIndex.pages)); [|lia].
  destruct (find_page first _ B id (io_pages _ _ _ _ Hok)) as (i & k & p & pre & bs & post & Hfi & Hi & _);
    [pose proof (lookup_lt_Some _ _ _ Hb); lia|]. rewrite Hidx in Hfi. injection Hfi as ->. by eapply lookup_lt_Some.
Qed.

(** C32: the deletion of a value survives a crash, as long as the index never
    dropped a page.  The index is in its files, a value is deleted, which changes
    the index in memory only, and the entry of the deletion is logged, with a log
    that does not end on a page boundary.  Then the index is opened from its files
    with all batches, and recovery of the log clears the flag of the value in it:
    the flags are those after the deletion (behind the last batch of a page there
    can be bits that fill its last byte).  After a page was dropped opening fails
    ([value_index_reopen_fails]). *)
Theorem value_deletion_recovered s stored first B id0 V id b j :
  vlog_ok io s stored first B id0 V → synced s.(ValueLog.index) →
  s.(ValueLog.index).(ValueIndex.meta).(ValueLogMetadata.minimum_index_page) = id0 →
  (s.(ValueLog.index).(ValueIndex.meta).(ValueLogMetadata.next_index_page) < u64_bound)%N →
  (first <= id)%N → B !! N.to_nat (id - first) = Some b → b !! N.to_nat j = Some true →
  (length stored + 11) mod PAGE_SIZE ≠ 0 →
  ∃ r s1 n s2, ValueLog.on_index (ValueIndex.mark_value_as_deleted (id, j)) s = Ok (r, s1) ∧
    ValueLog.on_wal (λ w, WalCalls.store_entries io w [LDeleteValue r.1 r.2]) s1 = Ok (n, s2) ∧
    (length s1.(ValueLog.index).(ValueIndex.pages) = length s.(ValueLog.index).(ValueIndex.pages) →
      let ixf := s2.(ValueLog.index) in
      ∃ ix0 ix B0 B1, ValueIndex.open ixf.(ValueIndex.meta) ixf.(ValueIndex.files) = Ok ix0 ∧
        index_ok ix0 first B0 id0 ∧ Forall2 prefix B B0 ∧
        index_ok ix first B1 id0 ∧ Forall2 prefix (clear B (N.to_nat (id - first)) b j) B1 ∧
        ∀ m fuel rfuel, 1 < fuel → length stored + 11 <= rfuel →
          ∃ w', ValueWalReader.open fuel rfuel ixf.(ValueIndex.files) (N.of_nat (length stored)) m ix0
            = Ok (w', WalReader.mkResult (length stored + 11) 1, m, ix)).
Proof.
  intros Hok Hsy Hmin Hpages Hid Hb Hj Hmod. pose proof Hok as [K1 K2 K3 K4 K5 K6].
  destruct (vmark_ok io s stored first B id0 V id b j Hok Hid Hb Hj) as (r & s1 & dr & B' & id1 & E1 & _ & _ & _ & Hok1).
  destruct (store_deletion io s1 stored _ _ _ V r.1 r.2 Hok1) as (s2 & E2 & Hok2 & Hoff & Hme & Hfi).
  eexists r, s1, _, s2. split; [done|]. split; [exact E2|]. intros Hlen.
  pose proof E1 as E. unfold ValueLog.on_index in E. apply bind_Ok_inv in E as ([r' ix1] & E & [= <- <-]).
  cbn [ValueLog.index] in Hlen, Hme, Hfi. destruct (mark_kept _ _ _ _ E Hlen) as [Hm1 Hf1]. rewrite Hm1 in Hme. rewrite Hf1 in Hfi.
  destruct (reopen_index s.(ValueLog.index) s2.(ValueLog.index) first B id0 K2 Hmin Hsy Hme Hfi)
    as (ix0 & B0 & Eo & Hix0 & Hlay & Hpre).
  destruct (Forall2_lookup_l _ _ _ _ _ Hpre Hb) as (b0 & Hb0 & Hp0).
  assert (b0 !! N.to_nat j = Some true) as Hj0 by (destruct Hp0 as [l ->]; by apply lookup_app_l_Some).
  pose proof (index_mark ix0 first B0 id0 id b0 j Hix0 Hid Hb0) as Hm. rewrite Hj0 in Hm.
  destruct Hm as (r0 & ix2 & dr0 & B2 & id2 & Em & _ & _ & _ & _ & (ix & Eat & Hix) & _).
  assert (r0 = r') as -> by (eapply mark_same_entry; [exact Hlay|exact E|exact Em]).
  exists ix0, ix, B0, (clear B0 (N.to_nat (id - first)) b0 j). do 4 (split; [done|]).
  split; [apply clear_prefix; [done..|by eapply lookup_lt_Some]|]. intros m fuel rfuel Hf Hrf.
  set (e := LDeleteValue r'.1 r'.2) in *.
  assert (encode_entries [e] = LogEntry.encode e) as He by (unfold encode_entries; cbn [fmap list_fmap concat]; by rewrite app_nil_r).
  assert (length (LogEntry.encode e) = 11) as Hl by (unfold e, LogEntry.encode; by autorewrite with lsm_len).
  destruct (open_idle (ValueLog.wal_of s2) stored [e] m ix0 m ix fuel rfuel) as [w' Ew].
  - rewrite He. apply (vo_wal _ _ _ _ _ _ _ Hok2).
  - cbn [ValueLog.wal_of status]. rewrite Hoff. cbn [ValueLog.wal].
    pose proof (idle_inv _ _ _ K1) as Hi. pose proof (wi_offset _ _ _ _ Hi). pose proof (wi_write_pos _ _ _ _ Hi).
    cbn [ValueLog.wal_of status] in *. lia.
  - constructor; [|constructor]. exact (deletion_readable _ _ _ _ _ _ _ _ _ K2 Hid Hb Hj Hpages E).
  - by rewrite He, length_app, Hl.
  - cbn [apply_entries apply_entry e]. by rewrite Eat.
  - done.
  - rewrite He, length_app, Hl. done.
  - rewrite He, length_app, Hl in Ew. cbn [ValueLog.wal_of disk length] in Ew. by eexists.
Qed.

End theorems.

(** ** Witnesses *)

Section witnesses.
#[local] Existing Instance list_bits.
#[local] Existing Instance list_bits_laws.
#[local] Existing Instance identity_compression.
#[local] Existing Instance identity_compression_laws.
#[local] Existing Instance batch_cache.
#[local] Existing Instance batch_cache_laws.
#[local] Existing Instance batch_pop.
#[local] Existing Instance batch_pop_laws.

(** A write, the deletion of the first value and of the first batch. *)
Definition sample_log : list LogEntry := [LWrite (Put [x61] [x07]); LDeleteValue 1 0; LDeleteBatch 1 0].

Definition sample_applied : Memtable.Memtable * ValueIndex.ValueIndex :=
  match apply_entries (Memtable.new 0) (ValueLog.index (sample_vlog true)) sample_log with
  | Ok r => r
  | _ => (Memtable.new 0, ValueLog.index (sample_vlog true))
  end.

Lemma value_wal_recovery_witness :
  ∃ n w1 w2, WalCalls.store_entries StdFs (fresh_wal ∅) sample_log = Ok (n, w1) ∧
    ValueWalReader.open 4 100 w1.(disk) 0 (Memtable.new 0) (ValueLog.index (sample_vlog true))
      = Ok (w2, WalReader.mkResult 42 3, sample_applied.1, sample_applied.2).
Proof.
  apply (value_wal_recovery StdFs (fresh_wal ∅) [] sample_log (Memtable.new 0) (ValueLog.index (sample_vlog true))
    sample_applied.1 sample_applied.2 4 100).
  - apply fresh_idle.
  - repeat constructor; simpl; lia.
  - with_strategy transparent [PAGE_SIZE] (vm_compute; discriminate).
  - reflexivity.
  - apply Nat.leb_le. reflexivity.
  - apply Nat.leb_le. reflexivity.
Defined.

Lemma sample_synced x : synced (ValueLog.index (sample_vlog x)).
Proof.
  intros [|i] k p Hi; [|done]. injection Hi as <- <-. split; [repeat split; reflexivity|]. destruct x; vm_compute; reflexivity.
Qed.

(** The value of the second batch is deleted; after the restart its batch has eight
    flags, the first of which is cleared. *)
Lemma value_deletion_recovered_witness :
  ∃ r s1 n s2, ValueLog.on_index (ValueIndex.mark_value_as_deleted (2%N, 0%N)) (sample_vlog true) = Ok (r, s1) ∧
    ValueLog.on_wal (λ w, WalCalls.store_entries StdFs w [LDeleteValue r.1 r.2]) s1 = Ok (n, s2) ∧
    ∃ ix0 ix B1 w', ValueIndex.open s2.(ValueLog.index).(ValueIndex.meta) s2.(ValueLog.index).(ValueIndex.files) = Ok ix0 ∧
      index_ok ix 1 B1 1 ∧ Forall2 prefix [[true]; [false]] B1 ∧
      ValueWalReader.open 2 20 s2.(ValueLog.index).(ValueIndex.files) 0 (Memtable.new 0) ix0
        = Ok (w', WalReader.mkResult 11 1, Memtable.new 0, ix).
Proof.
  destruct (value_deletion_recovered StdFs (sample_vlog true) [] 1 _ 1 _ 2 [true] 0 (sample_vlog_ok true) (sample_synced true))
    as (r & s1 & n & s2 & E1 & E2 & Hrec).
  - reflexivity.
  - reflexivity.
  - lia.
  - reflexivity.
  - reflexivity.
  - with_strategy transparent [PAGE_SIZE] (vm_compute; discriminate).
  - assert (length s1.(ValueLog.index).(ValueIndex.pages) = 1) as Hl by (vm_compute in E1; injection E1 as _ <-; reflexivity).
    destruct (Hrec Hl) as (ix0 & ix & B0 & B1 & Eo & _ & _ & Hix & Hp & Hopen).
    destruct (Hopen (Memtable.new 0) 2 20) as [w' Ew]; [apply Nat.leb_le; reflexivity|apply Nat.leb_le; reflexivity|].
    exists r, s1, n, s2. split; [exact E1|]. split; [exact E2|]. exists ix0, ix, B1, w'.
    split; [exact Eo|]. split; [exact Hix|]. split; [exact Hp|exact Ew].
Defined.

End witnesses.
